(* ===== verification/_CoqProject ===== *)
-Q . S2P
Prelude.v
Errors.v
Progress.v
Fence.v
PersistLane.v
WriteBehind.v
Blocks.v
Treestate.v
GraftAccumulator.v
Checkpoints.v
SparseStore.v
GraftBuffer.v
GraftRuns.v
GraftPlan.v
Sinsemilla.v
LookupBuild.v
Census.v
PutBlocks.v
Reconcile.v
Migrations.v
FetchPlan.v
WireDetector.v
FetchPump.v
FetchRelease.v
Handle.v
Config.v
Probe.v
Throttle.v
PassReport.v
Connector.v
Grpc.v
Oracle.v
Network.v
Cli.v
Mempool.v
Enhance.v
Scan.v
ScanCalls.v
ScanEquiv.v
Scheduler.v
Sweep.v
SweepExact.v
WalletSession.v
Tracked.v
Pass.v
PassFile.v
RunFetch.v
Engine.v
SyncFile.v
Session.v
