(* ===== verification/Prelude.v ===== *)
(** * ZODL Slipstream: a verification development

    Slipstream is a sync engine for shielded Zcash wallets, embedded in a host
    application.  It downloads compact blocks from a lightwalletd server, scans them
    into the wallet database, and tells its host how far it is.  This library models
    the engine's own logic ([src/core/src]) as executable definitions and proves what
    makes it correct.  It is written against the release build: unsigned arithmetic
    wraps, and what would be a debug assertion is not relied on.

    ** The program, and where each part is modelled

    From the host inwards:

    - the host's handle ([ffi_handle.rs]; Handle.v): a ring of 64 events, the snapshot
      a host polls, and the start and stop that must not touch a wallet file another
      pass still writes.  [SlipstreamHandle] is the state; [push_event], [snapshot],
      [stop], [stop_for_wallet_change], [quiesce_before_start] its operations;
    - the session ([session.rs]; Session.v): Tor bootstrap, the initial pass with its
      retries and revivals, the follow loop and its mempool gate.  [run_session] is the
      whole of it, with the states set, events pushed and waits made as its trace;
    - the engine ([engine.rs]; Engine.v): one pass, [sync_once], in a small monad that
      carries the progress and the steps taken and can end in an error or a panic, and
      the wire-failover loop inside it;
    - the configuration and the choice of server ([config.rs], [probe.rs]): Config.v has
      endpoints and their URI form, validation, memory scaling, the probe's ranking,
      Probe.v the probe itself under its deadline;
    - the scheduler ([scheduler.rs]; Scheduler.v and Pass.v): the global position and
      the re-baseline of the progress a host reads ([update_pass_progress], store by
      store), and [run_to_completion], the loop over the ranges the wallet suggests,
      with reorg recovery;
    - the fetch ([fetch.rs]): FetchPlan.v cuts a range into plan chunks that workers
      claim; FetchPump.v is a worker (splitter, ahead gate, stream pump, retries of a
      plan chunk); FetchRelease.v is the reorder stage that releases sub-chunks in
      order, and the supervision of the workers; RunFetch.v puts them together as the
      relation of all outcomes of a fetch; WireDetector.v decides when a server has
      collapsed, in IEEE binary64 as the source does;
    - connections ([connector.rs], [connect] of [grpc.rs]; Connector.v): which calls go
      over Tor, and the bounded retries of both ways to connect; the calls themselves
      ([grpc.rs]; Grpc.v): deadlines, stream collection, retries, traffic counters;
    - before and between passes ([network.rs], [anchor.rs]; Network.v; [mempool.rs],
      [transparent.rs]; Mempool.v): network parameters, the anchor of a new or restored
      wallet, a mempool session, the refresh of transparent outputs;
    - the block path ([verify.rs], [chunk.rs], [block_source.rs]; Blocks.v): the
      hash-chain check, the byte-budgeted queue between fetch and scan as a step
      relation, and the source that serves one chunk to the scan;
    - the scan ([scan.rs], [treestate.rs]): Scan.v is the driver, [scan_chunks], over a
      persistence backend; ScanCalls.v proves what it asks of the wallet library and
      that it returns; Treestate.v is the chain state kept between calls without asking
      the server; Fence.v counts decryption work;
    - the enhancement of found transactions ([enhance.rs]; Enhance.v);
    - the write-behind backend ([persist.rs]): WriteBehind.v is the facade the scan reads
      through while commits are pending, PersistLane.v the lane that commits them one
      at a time, ScanEquiv.v the proof that a scan over both leaves the wallet a scan
      without them would, up to the graft finish at the range's end;
    - the sparse writer ([persist.rs], [graft.rs], [graft_accumulator.rs],
      [census.rs]), which is what a commit runs: GraftAccumulator.v decides which note
      commitments are built at once and which wait for their shard to close;
      GraftBuffer.v is the table in which they wait, with its statements and the states
      a crash can expose; GraftRuns.v reads runs off that table and finds the blocks to
      scan again for a stranded one; GraftPlan.v is one pool's plan; Checkpoints.v and
      SparseStore.v are the checkpoint window and the tree store in memory, with its
      seed and flush; Census.v counts shards; PutBlocks.v puts them together as one call
      of [sparse_put_blocks], and a range of such calls with its finish at the end;
      Sweep.v is the sweep at the start of a pass over what an earlier one left in the
      buffer, SweepExact.v what it does to one pool, row by row;
    - the wallet session ([wallet_session.rs], [scan_queue.rs]; WalletSession.v): opening
      the wallet with its repairs, imports and truncations, which rewind it and cut the
      buffer with it, and where subtree roots are requested from;
    - Tracked.v is what the writer's calls, a rewind and an import do to the wallet's records
      and to the blocks it has scanned from its birthday on;
    - PassFile.v runs a pass on the wallet file: the loop of Pass.v with the sweep, the
      commits of the ranges the file suggests, the truncations and the enhancement's
      writes in its place, while the served chain may change; SyncFile.v runs the whole of
      [sync_once] on it, from opening with its repairs to the final enhancement, with
      every run of the failover loop in between;
    - the engine's own objects in the wallet file: Migrations.v is their two migrations
      ([migrations.rs]), in any interleaving with the wallet library's, Reconcile.v the
      views a host reads balances from during a restore ([reconcile.rs]);
    - tools around the engine: Oracle.v compares two wallet databases ([oracle.rs]);
      Throttle.v is the token bucket of the test proxy ([throttle.rs]); Cli.v the command
      line's argument readers, configurations and oracle command
      ([src/cli/src/main.rs]); PassReport.v the figures a pass reports ([lane_stats] of
      [persist.rs], [report.rs]);
    - hashing ([batch_sinsemilla.rs], [lookup_build.rs], [gpu_subtree.rs]):
      Sinsemilla.v is the batched hash, LookupBuild.v the subtree builds over it;
    - the shared progress object ([events.rs]; Progress.v), which all of the above
      write and the host polls, and the error type ([error.rs]; Errors.v).

    The fetch writes the chunk queue and the progress; the scan reads the queue and
    writes through the backend; the pass calls fetch and scan; the engine calls the
    pass in its failover loop; the session calls the engine in its retry ladder; the
    handle runs the session and reads the progress.  The files depend on each other in
    the same order.

    The interfaces are type classes.  [FetchContract] and [ScanContract] (Pass.v) are
    what a fetch and a scan promise a pass; [run_fetch] and [scan_chunks] are their
    instances.  [PassContract] (Engine.v) is what a pass promises the failover loop;
    [pass_attempt_contract] derives it for the scheduler.  [ScanBackend] with
    [BackendLaws] (Scan.v, ScanEquiv.v) is what the scan driver needs of a place to
    write, which the inline wallet and the write-behind pair both give.  Classes also
    stand for the code that is not the engine's: the wallet database ([WalletReads],
    [WalletDb], [EnhanceWallet], [TreeDb], [CheckpointStore], [WalletLib], [SweepLib],
    [SessionDb], [RootsDb], [MempoolWallet], [UtxoWallet]), the protocol library
    ([Protocol]), the tree
    library ([Trees], [Shard], [PoolLib], [FromIterLaws]), hashes and their encodings
    ([HashSer], [Hashable], [NodeBytes], [BaseField]).  Where a theorem needs their
    documented behaviour it is a class of laws next to the interface, and the properties
    that assume such laws have an instance that satisfies them.

    ** Conventions

    - Rust integers are [Z]; [u64_add] and the like write the wrap-around out and
      [sat_sub] and the like saturate.  Floats are the kernel's [float].
    - A fallible function returns [Res]; a Rust panic is [None] or a [Panic]
      constructor, never a silent default.
    - What the environment decides is an input: the answers of the wallet database and
      of the server, the stream events, the readings of the clock and the random
      samples, the order in which concurrent results are observed.  The theorems
      quantify over all of them; a hypothesis on them is named ([honest]: a server
      that serves one chain from the height it is asked for, and may fail or stop
      anywhere) and every property with a hypothesis has a concrete instance.
    - Concurrency is an explicit sequence of atomic steps: [Op] for the progress
      methods, [queue_step] for the chunk queue, arrival orders for the reorder stage,
      polls between the stores of a re-baseline.
    - A loop driven by its inputs recurses on the list of them and says when the list
      ran out ([ChunkPending], [None]), so "still running" is never taken for an
      answer.  Other loops carry fuel that is proved enough: [drain] has one more than
      the number of buffered sub-chunks, [feed_loop] the number of commitments,
      [sub_batches] the blocks of a chunk, [reap] the units of the lane, [search] the
      width of its interval, [chunks_loop] and [precompute_loop] the number of leaves
      (a theorem about each would fail if the fuel ran out); three attempts are enough
      for the failover loop, unless one of them itself never ends ([failover_terminates]).  The session's initial loop may run
      for ever, and its fuel bounds the calls observed.
    - A crash is a prefix: the wallet file's states are logged as its statements change
      it, and a safety theorem speaks of every logged state.
    - Log lines, stage timers and telemetry are left out.

    ** What the theorems show

    - Delivery: a fetch that succeeds has given the scanner every block of the range
      exactly once, in order and hash-linked, and one that fails by a stop or by the
      failover detector a prefix of them ([fetch_delivers_range]); whatever a
      server sends only linked blocks get through ([released_blocks_linked],
      [verify_blocks_iff_linked]); a plan chunk is handed on exactly, in well-formed
      sub-chunks, within a bounded number of attempts ([fetch_chunk_exact],
      [fetch_chunk_well_formed], [fetch_chunk_terminates]); the claims partition the
      range ([claims_partition_range]).
    - Memory and liveness: the queue's budget holds and never blocks for ever
      ([chunk_queue_budget_bound], [chunk_queue_live_and_fifo]), nor does the ahead
      gate ([ahead_gate_never_blocks_the_floor]), nor the write-behind lane
      ([lane_bounded_and_gated]).
    - Scanning: the calls of a range tile it, each from the chain state before it
      ([scan_calls_tile_range]), the driver returns ([scan_range_returns]), the local
      chain state is the server's exactly when the range has no Ironwood action
      ([local_state_matches_iff_no_ironwood]), and enhancement reports what it did
      ([enhance_counters_truthful], [address_check_complete]).
    - Persistence: over a whole sync, from opening the file to the last run of the
      failover loop, no commitment of a scanned block from the wallet's birthday on is lost
      at any point a crash could expose, and a sync that succeeds has left no range to scan
      ([sync_loses_nothing]); the same of one pass, with its sweep, ranges, reorgs and
      enhancement ([pass_loses_nothing]).  The parts of that are properties of their own: the
      calls of a range and its finish ([scanned_is_never_lost]), a truncation and an import
      ([rewinds_lose_nothing]) lose nothing of any scanned block, the start sweep nothing
      from the birthday on ([sweep_never_loses]; below it, it does:
      [sweep_loses_below_birthday]); which rows of a pool the sweep removes and which it keeps
      is [sweep_pool_exact].  Writing behind the scan leaves what the finish at the range's
      end makes of the wallet that a scan without it leaves ([write_behind_equals_inline]); the facade shows the
      pending commits, and at most notes too many whose spend was on record before the note
      was found ([facade_shows_pending_commits]); the lane commits in order
      ([lane_refines_serial_commits]).  A flush makes the wallet's
      tree what memory holds ([flush_writes_memory]); the checkpoints left out are the
      ones the tree library would prune ([downgrade_equals_pruning]); a buffered row
      reads back ([buffer_roundtrip]), and a stranded one is covered by the rescan
      queued for it ([rescans_cover_run], [walks_agree]).
    - The wallet file's own objects: whatever build a wallet comes from, the migrations
      keep its buffered rows and end in the current tables and views
      ([migrations_reach_current]); during a restore the recovery balance is the sum of
      final deltas ([recovery_balance_final]).
    - Trees: no commitment is lost, duplicated or reordered
      ([range_settles_every_row]), only note-free shards are offered for grafting
      ([closed_shards_note_free]), and every way of building the Orchard subtrees builds
      the same ([orchard_builds_agree], [batch_combine_is_combine]).
    - Failure handling: failover, retries and reorg recovery are bounded and fire for
      the stated cause ([failover_terminates], [retry_ladder], [pass_bounds_reorgs],
      [stall_fires_exactly], [detector_fires_for_cause]); the probe returns within its
      budget whatever the servers do ([probe_within_budget]).
    - Tools: the oracle's verdict is clean exactly when the databases hold the same rows
      ([oracle_clean_iff_same_rows], and [oracle_diff_exact], [oracle_window_keeps_recent]);
      the command line reads the server it prints ([server_argument_roundtrip]); a pass
      reports its own commits ([pass_reports_own_commits]).
    - Privacy: with Tor on, no wallet-identifying call dials directly
      ([tor_never_bypassed]).
    - The server's answers: a streamed call gives every message or an error
      ([collect_all_or_error], [subtree_roots_in_order]), the tree-state retry is bounded
      ([treestate_retry_bounded]); the anchor is at a height a host can use or the offline
      one ([anchor_policy]); a mempool session hands each transaction to the wallet at most
      once ([mempool_stores_once]) and the transparent refresh stores every reply
      ([refresh_stores_every_reply]).
    - What the host is told: the events and states of a session
      ([session_events_truthful]), the quiescence of a stop
      ([quiescent_stop_saw_every_pass]), the snapshot and the ring
      ([snapshot_presentable], [event_ring_keeps_criticals]), the progress and its
      failure runs (the properties of Progress.v) and the re-baseline
      ([rebaseline_survives_polls]).
    - Defects are proved as theorems too: [sole_alternate_failover_panics] (a wire
      collapse panics the pass once a sole alternate has won the probe),
      [straddling_poll_restores_old_reading] (a poll spread over a re-baseline puts
      the old reading back), [subbatching_small_chunk_never_scans] (with a batch
      target, a short chunk panics the pass), [failed_store_not_retried] (a mempool
      transaction whose store failed is skipped as already processed when the server
      sends it again), [oracle_command_never_compares] and
      [write_behind_kill_switch_refused] (configurations the command line makes and no
      sync accepts), [small_cap_starves] (a cap below a read's size stops the proxy),
      [table_only_in_b_reads_clean] and [texts_with_bars_collide] (differences the oracle
      misses), [recovery_balance_can_exceed_final], [sweep_loses_below_birthday] (the sweep
      deletes buffered rows of a scanned block below the birthday and queues no rescan) and
      [facade_lists_recorded_spend] (the facade lists a note as unspent whose spend the wallet
      has on record).

    ** What is not modelled

    The network (dialling, RPCs, Tor), SQLite and the external wallet, tree and curve
    libraries are inputs; of SQLite what the views, the migrations, the buffer's statements
    and the oracle's queries use is written out.  What the wallet has recorded of
    scanned blocks is, where a theorem starts, of the chain ([follows]); that it stays so
    is proved from what the rows stage records of the blocks it is given ([RecordLaws]).  The
    rows the wallet library stores are not modelled beyond trees and sizes.

    Left out, and why: [scan_chunks_from_treestate] of [scan.rs], the synthetic chains of
    [oracle.rs] and [darkside.rs] are compiled for tests only; the [SparseFacade] of
    [persist.rs] hands every call but [put_blocks] on to the wallet library unchanged;
    [report.rs] and the bench file of [census.rs] copy figures into text; of the command
    line tool the flag table, key derivation, spending and printing are calls into libraries;
    [grpc_generated] is generated, [protogen] generates it, and [gpuhash] drives a GPU kernel,
    which is an argument of the builds ([orchard_combine_batch_gpu] in LookupBuild.v: a batched
    hash with the hash's contract). *)

From stdpp Require Export base list gmap strings sorting numbers pretty.


(** ** Notation scope, automation and shared lemmas of the development *)

Declare Scope slip_scope.
Delimit Scope slip_scope with slip.
Global Open Scope Z_scope.
Global Open Scope slip_scope.

(** *** Machine integers

    Rust integers are [Z].  A wrapping operation writes its wrap-around out: the
    workspace's release profile has no overflow checks, so [+], [-] and [*] on
    [u64] are taken modulo [2 ^ 64]; [saturating_*] operations clamp. *)

Definition u32_max : Z := 2 ^ 32 - 1.
Definition u64_max : Z := 2 ^ 64 - 1.
(** [usize] on the 64-bit targets the engine ships on. *)
Definition usize_max : Z := u64_max.

Definition wrap64 (x : Z) : Z := x mod 2 ^ 64.
Definition u64_add (a b : Z) : Z := wrap64 (a + b).
Definition u64_sub (a b : Z) : Z := wrap64 (a - b).
Definition u64_mul (a b : Z) : Z := wrap64 (a * b).
Definition sat_sub (a b : Z) : Z := Z.max 0 (a - b).
Definition sat_add64 (a b : Z) : Z := Z.min u64_max (a + b).
Definition sat_mul64 (a b : Z) : Z := Z.min u64_max (a * b).
Definition sat_add32 (a b : Z) : Z := Z.min u32_max (a + b).
(** [u32::try_from] of an unsigned value. *)
Definition u32_try_from (x : Z) : option Z := if x <=? u32_max then Some x else None.
(** [u64::div_ceil]. *)
Definition div_ceil (a b : Z) : Z := a / b + (if a mod b =? 0 then 0 else 1).

Definition is_u64 (x : Z) : Prop := 0 <= x <= u64_max.
Definition is_u32 (x : Z) : Prop := 0 <= x <= u32_max.

(** *** Results: [std::result::Result] with the [?] operator *)

Inductive result (E A : Type) : Type :=
| Ok (a : A)
| Err (e : E).
Arguments Ok {E A} a.
Arguments Err {E A} e.

Definition result_bind {E A B} (r : result E A) (k : A -> result E B) : result E B :=
  match r with Ok a => k a | Err e => Err e end.

Definition is_ok {E A} (r : result E A) : bool := match r with Ok _ => true | Err _ => false end.

Notation "'let?' x := r 'in' k" := (result_bind r (fun x => k))
  (at level 10, x pattern, r at level 100, k at level 200, only parsing) : slip_scope.

(** *** Boolean reflection and case analysis *)

(** Turns every boolean comparison of the context into its proposition. *)
Ltac breflect :=
  repeat match goal with
  | H : andb _ _ = true |- _ => apply andb_true_iff in H; destruct H
  | H : orb _ _ = false |- _ => apply orb_false_iff in H; destruct H
  | H : negb _ = true |- _ => apply negb_true_iff in H
  | H : negb _ = false |- _ => apply negb_false_iff in H
  | H : (_ <=? _) = true |- _ => apply Z.leb_le in H
  | H : (_ <=? _) = false |- _ => apply Z.leb_gt in H
  | H : (_ <? _) = true |- _ => apply Z.ltb_lt in H
  | H : (_ <? _) = false |- _ => apply Z.ltb_ge in H
  | H : (_ =? _) = true |- _ => apply Z.eqb_eq in H
  | H : (_ =? _) = false |- _ => apply Z.eqb_neq in H
  | H : bool_decide _ = true |- _ => apply bool_decide_eq_true_1 in H
  | H : bool_decide _ = false |- _ => apply bool_decide_eq_false_1 in H
  end.

(** Splits the first scrutinee of the goal or of a hypothesis, keeping its equation. *)
Ltac split_match :=
  match goal with
  | |- context [match ?x with _ => _ end] => destruct x eqn:?
  | H : context [match ?x with _ => _ end] |- _ => destruct x eqn:?
  end.

Ltac split_matches := repeat (split_match; simplify_eq/=).

Create HintDb slip discriminated.

(** *** Integer lemmas *)

Lemma wrap64_small x : is_u64 x -> wrap64 x = x.
Proof. unfold is_u64, u64_max, wrap64. intros. apply Z.mod_small. lia. Qed.

Lemma u64_add_small a b : is_u64 (a + b) -> u64_add a b = a + b.
Proof. apply wrap64_small. Qed.

Lemma u64_sub_small a b : is_u64 (a - b) -> u64_sub a b = a - b.
Proof. apply wrap64_small. Qed.

Lemma u64_mul_small a b : is_u64 (a * b) -> u64_mul a b = a * b.
Proof. apply wrap64_small. Qed.

Lemma div_ceil_spec a b : 0 <= a -> 0 < b -> (div_ceil a b - 1) * b < a <= div_ceil a b * b.
Proof.
  intros Ha Hb. unfold div_ceil.
  pose proof (Z.div_mod a b ltac:(lia)). pose proof (Z.mod_pos_bound a b Hb).
  destruct (Z.eqb_spec (a mod b) 0); [|nia].
  assert (a = 0 \/ 0 < a) as [->|] by lia; [|nia].
  rewrite Z.div_0_l by lia. nia.
Qed.

Lemma div_ceil_pos a b : 0 < a -> 0 < b -> 0 < div_ceil a b.
Proof. intros. pose proof (div_ceil_spec a b ltac:(lia) ltac:(lia)). nia. Qed.

Lemma div_ceil_nonneg a b : 0 <= a -> 0 < b -> 0 <= div_ceil a b.
Proof. intros. pose proof (div_ceil_spec a b ltac:(lia) ltac:(lia)). nia. Qed.

#[export] Hint Resolve wrap64_small u64_add_small div_ceil_pos div_ceil_nonneg : slip.

(** *** Record update

    [r <| field := v |>] replaces one field.  A record that wants it declares its
    eta expansion as an [Eta] instance; the setter of a projection is then found
    by abstracting the projection in that expansion. *)

Class Eta (R : Type) := eta_expand : R -> R.
Class Setter {R T : Type} (proj : R -> T) := upd_field : (T -> T) -> R -> R.
Arguments upd_field {R T} proj {_} f r /.

Ltac derive_setter proj :=
  let f := fresh "f" in let r := fresh "r" in intros f r;
  let e := eval hnf in (eta_expand r) in
  match eval pattern (proj r) in e with
  | ?g _ => let b := eval cbv beta in (g (f (proj r))) in exact b
  end.

#[export] Hint Extern 1 (Setter ?proj) => unfold Setter; derive_setter proj : typeclass_instances.

Notation "r <| p := v |>" := (upd_field p (fun _ => v) r)
  (at level 1, left associativity, p constr at level 0, format "r  <| p  :=  v |>") : slip_scope.

(** *** Ordered maps

    A Rust [BTreeMap] is a [gmap]; where the code depends on the iteration order,
    the entries are listed in ascending key order. *)

Section btree.
Context {V : Type}.

Definition key_le (p q : Z * V) : Prop := p.1 <= q.1.
#[global] Instance key_le_dec : RelDecision key_le.
Proof. intros p q. unfold key_le. apply _. Defined.

#[global] Instance key_le_trans : Transitive key_le.
Proof. intros p q r. unfold key_le. lia. Qed.
#[global] Instance key_le_total : Total key_le.
Proof. intros p q. unfold key_le. lia. Qed.

(** [BTreeMap::iter]. *)
Definition btree_entries (m : gmap Z V) : list (Z * V) := merge_sort key_le (map_to_list m).
(** [BTreeMap::values]. *)
Definition btree_values (m : gmap Z V) : list V := (btree_entries m).*2.

Lemma elem_of_btree_entries (m : gmap Z V) k v : (k, v) ∈ btree_entries m <-> m !! k = Some v.
Proof. unfold btree_entries. rewrite merge_sort_Permutation. apply elem_of_map_to_list. Qed.

Lemma btree_entries_sorted (m : gmap Z V) : StronglySorted key_le (btree_entries m).
Proof. apply (StronglySorted_merge_sort key_le). Qed.

Lemma length_btree_entries (m : gmap Z V) : length (btree_entries m) = size m.
Proof. unfold btree_entries. rewrite merge_sort_Permutation. apply length_map_to_list. Qed.

Lemma NoDup_btree_keys (m : gmap Z V) : NoDup (btree_entries m).*1.
Proof. unfold btree_entries. rewrite merge_sort_Permutation. apply NoDup_fst_map_to_list. Qed.

Lemma btree_entries_strict (m : gmap Z V) : StronglySorted (fun p q => p.1 < q.1) (btree_entries m).
Proof.
  pose proof (btree_entries_sorted m) as Hs. pose proof (NoDup_btree_keys m) as Hnd.
  induction Hs as [|p l Hs IH Hp]; [constructor|]. csimpl in Hnd. apply NoDup_cons in Hnd as [Hn Hnd].
  constructor; [by apply IH|]. rewrite Forall_forall in *. intros q Hq. specialize (Hp q Hq). unfold key_le in Hp.
  assert (p.1 <> q.1); [|lia]. intros E. apply Hn. rewrite E. apply list_elem_of_fmap. eauto.
Qed.

(** A strictly ascending list of a map's entries is the map's iteration. *)
Lemma btree_entries_unique (m : gmap Z V) l : StronglySorted (fun p q => p.1 < q.1) l ->
  (forall k v, (k, v) ∈ l <-> m !! k = Some v) -> btree_entries m = l.
Proof.
  intros Hl Hm. apply (StronglySorted_unique_strong (fun p q => p.1 < q.1)); [intros; lia|apply btree_entries_strict|done|].
  apply NoDup_Permutation.
  - apply (NoDup_fmap_1 fst), NoDup_btree_keys.
  - clear Hm. induction Hl as [|p l Hl IH Hp]; constructor; [|done]. intros Hin. rewrite Forall_forall in Hp.
    specialize (Hp p Hin). lia.
  - intros [k v]. by rewrite elem_of_btree_entries, Hm.
Qed.

Lemma elem_of_btree_values (m : gmap Z V) v : v ∈ btree_values m <-> exists k, m !! k = Some v.
Proof.
  unfold btree_values. rewrite list_elem_of_fmap. split.
  - intros [[k v'] [-> Hin]]. exists k. by apply elem_of_btree_entries.
  - intros [k Hk]. exists (k, v). split; [done|]. by apply elem_of_btree_entries.
Qed.

Lemma length_btree_values (m : gmap Z V) : length (btree_values m) = size m.
Proof. unfold btree_values. rewrite length_fmap. apply length_btree_entries. Qed.
End btree.

(** [Iterator::min_by_key]: the first of the least elements. *)
Fixpoint min_by_key {A} (key : A -> Z) (l : list A) : option A :=
  match l with
  | [] => None
  | x :: l' =>
    match min_by_key key l' with
    | None => Some x
    | Some y => if key x <=? key y then Some x else Some y
    end
  end.

(** [Iterator::max] over integers. *)
Fixpoint list_max_opt (l : list Z) : option Z :=
  match l with
  | [] => None
  | x :: l' => match list_max_opt l' with None => Some x | Some y => Some (Z.max x y) end
  end.

Lemma min_by_key_Some {A} (key : A -> Z) l x :
  min_by_key key l = Some x -> x ∈ l /\ forall y, y ∈ l -> key x <= key y.
Proof.
  revert x. induction l as [|a l IH]; simpl; intros x Hx; [done|].
  destruct (min_by_key key l) as [m|] eqn:E.
  - destruct (IH m eq_refl) as [Hin Hle]. destruct (Z.leb_spec (key a) (key m)); simplify_eq.
    + split; [set_solver|]. intros y [->|Hy]%elem_of_cons; [lia|]. specialize (Hle y Hy). lia.
    + split; [set_solver|]. intros y [->|Hy]%elem_of_cons; [lia|]. by apply Hle.
  - simplify_eq. destruct l as [|b l]; [|simpl in E; by repeat case_match].
    split; [set_solver|]. intros y ->%list_elem_of_singleton. lia.
Qed.

Lemma min_by_key_None {A} (key : A -> Z) l : min_by_key key l = None -> l = [].
Proof. destruct l; simpl; [done|]. repeat case_match; done. Qed.

Lemma list_max_opt_spec l :
  match list_max_opt l with
  | None => l = []
  | Some m => m ∈ l /\ forall x, x ∈ l -> x <= m
  end.
Proof.
  induction l as [|a l IH]; simpl; [done|]. destruct (list_max_opt l) as [m|].
  - destruct IH as [Hin Hle]. split.
    + destruct (Z.max_spec a m) as [[_ ->]|[_ ->]]; set_solver.
    + intros x [->|Hx]%elem_of_cons; [lia|]. specialize (Hle x Hx). lia.
  - subst. split; [set_solver|]. intros x ->%list_elem_of_singleton. lia.
Qed.

(** *** List lemmas *)

Lemma list_last_cons {A} (x : A) l d : List.last (x :: l) d = List.last l x.
Proof.
  revert x d. induction l as [|y l IH]; intros x d; [done|].
  change (List.last (y :: l) d = List.last (y :: l) x). by rewrite !IH.
Qed.

Lemma list_filter_true {A} (P : A -> Prop) `{forall x, Decision (P x)} (l : list A) :
  (forall x, x ∈ l -> P x) -> filter P l = l.
Proof.
  induction l as [|x l IH]; intros Hl; [done|]. rewrite filter_cons, decide_True by (apply Hl; set_solver).
  f_equal. apply IH. set_solver.
Qed.

(** A split of the images of consecutive integers. *)
Lemma fmap_seqZ_split {A} (f : Z -> A) xs rest from n : 0 <= n ->
  f <$> seqZ from n = xs ++ rest ->
  xs = f <$> seqZ from (Z.of_nat (length xs)) /\
  rest = f <$> seqZ (from + Z.of_nat (length xs)) (n - Z.of_nat (length xs)) /\
  Z.of_nat (length xs) + Z.of_nat (length rest) = n.
Proof.
  revert from n. induction xs as [|x xs IH]; intros from n Hn E; simpl in E.
  { simpl. rewrite Z.add_0_r, Z.sub_0_r, E. split; [done|]. split; [done|].
    rewrite <-E, length_fmap, length_seqZ. lia. }
  destruct (decide (n = 0)) as [->|]; [done|].
  rewrite seqZ_cons in E by lia. csimpl in E. injection E as <- E.
  destruct (IH (Z.succ from) (Z.pred n)) as (H1 & H2 & H3); [lia|done|]. simpl length.
  rewrite Nat2Z.inj_succ, (seqZ_cons from) by lia. rewrite Z.pred_succ. csimpl. rewrite <-H1.
  split; [done|]. rewrite H2 at 1. split; [|lia]. f_equal. f_equal; lia.
Qed.

Lemma last_fmap_seqZ {A} (f : Z -> A) from n : 0 < n -> last (f <$> seqZ from n) = Some (f (from + n - 1)).
Proof.
  intros Hn. replace n with (Z.of_nat (S (Z.to_nat (n - 1)))) at 1 by lia.
  rewrite seqZ_S, fmap_app, last_app. simpl. do 2 f_equal. lia.
Qed.

Lemma StronglySorted_lookup {A} (R : relation A) (l : list A) i j x y :
  StronglySorted R l -> l !! i = Some x -> l !! j = Some y -> (i < j)%nat -> R x y.
Proof.
  intros Hl. revert i j. induction Hl as [|a l Hl IH Ha]; intros i j Hi Hj Hij; [done|].
  destruct j as [|j]; [lia|]. simpl in Hj. destruct i as [|i]; simpl in Hi.
  - simplify_eq. rewrite Forall_forall in Ha. apply Ha. apply list_elem_of_lookup. eauto.
  - eapply IH; [exact Hi|exact Hj|lia].
Qed.
