(* ===== verification/Errors.v ===== *)
(** * Errors: [core/src/error.rs]

    The crate-wide error type, the two classifications every retry decision is
    driven by, and the [block_source] stop marker.  Floating-point payloads are
    the kernel's IEEE binary64 numbers. *)

From Stdlib Require Export Floats.
From S2P Require Export Prelude.

(** [enum SlipstreamError]. *)
Inductive SlipstreamError : Type :=
| Config (msg : string)
| Transport (msg : string)
| Discontinuity (at_ : Z) (detail : string)
| Wallet (msg : string)
| MisbehavingServer
| Stopped
| StoppedForWalletChange
| ScanContinuity (at_ : Z)
| WireCollapse (measured_mbps floor_mbps : float).

(** [SlipstreamError::is_transient]. *)
Definition is_transient (e : SlipstreamError) : bool :=
  match e with Transport _ => true | _ => false end.

(** [SlipstreamError::is_stop_for_wallet_change]. *)
Definition is_stop_for_wallet_change (e : SlipstreamError) : bool :=
  match e with StoppedForWalletChange => true | _ => false end.

(** [Display], as [thiserror] derives it; [fmt_f2] is the standard library's
    two-decimal float formatting. *)
Definition display (fmt_f2 : float -> string) (e : SlipstreamError) : string :=
  match e with
  | Config m => "invalid configuration: " +:+ m
  | Transport m => "transport: " +:+ m
  | Discontinuity a d => "chain discontinuity at height " +:+ pretty a +:+ ": " +:+ d
  | Wallet m => "wallet db: " +:+ m
  | MisbehavingServer => "misbehaving server (invalid or out-of-range data in response)"
  | Stopped => "engine is stopped"
  | StoppedForWalletChange => "sync stopped for a wallet change"
  | ScanContinuity a => "scan continuity break at height " +:+ pretty a
  | WireCollapse m f =>
    "wire collapse: " +:+ fmt_f2 m +:+ " MB/s sustained (floor " +:+ fmt_f2 f +:+ ")"
  end.

Abbreviation Res A := (result SlipstreamError A).

(** No error is both retried and a quiet stop: the session's two checks never overlap. *)
Lemma transient_not_stop e : is_transient e = true -> is_stop_for_wallet_change e = false.
Proof. by destruct e. Qed.

#[export] Hint Resolve transient_not_stop : slip.

(** [zcash_client_sqlite::error::SqliteClientError], as far as the engine makes one or tells
    them apart: data it could not read back, what SQLite or the tree store reports, and blocks that do
    not follow on from the state they are put on. *)
Inductive SqliteClientError := CorruptedData (msg : string) | Sqlite (msg : string) | NonSequentialBlocks.
Definition sqlite_text (e : SqliteClientError) : string :=
  match e with
  | CorruptedData m | Sqlite m => m
  | NonSequentialBlocks => "`put_blocks` requires that the provided block range be sequential"
  end.
