(* ===== verification/Progress.v ===== *)
(** * Progress: [core/src/events.rs]

    The shared progress object a host polls: per-pass counters, the
    session-monotonic permille floor, the runs of block-download give-ups, the
    wallet-writer gate and the wallet-change stop request.

    Every method is one function on the record.  A method that reads the wall
    clock ([unix_now_secs]) takes the reading as [now].  Methods run from several
    threads; each one is a single atomic update of the record here, and [Op] with
    [apply_op] makes every interleaving of them an explicit sequence of steps. *)

From S2P Require Export Errors.

Module Progress.

(** [struct DownloadFailure]. *)
Record DownloadFailure := mkDownloadFailure {
  streak : Z;
  at_height : Z;
  since_unix : Z;
  last_unix : Z;
}.

(** [struct Progress]; atomics are their current value. *)
Record Progress := mkProgress {
  chain_tip : Z;
  fetched_blocks : Z;
  scanned_blocks : Z;
  enhanced_txs : Z;
  current_range_end : Z;
  reorgs_recovered : Z;
  pass_total_blocks : Z;
  spendable_hint : Z;
  ranges_completed : Z;
  recovering_flag : Z;
  last_progress_unix : Z;
  progress_permille_floor : Z;
  pass_start_permille_raw : Z;
  pass_base_fetched : Z;
  pass_base_scanned : Z;
  tip_refreshes : Z;
  tx_set_version : Z;
  wallet_writers : Z;
  download_failures : gmap Z DownloadFailure;
  download_gave_up_this_attempt : bool;
  stop_requests : Z;
  session_stop_requests : Z;
}.

#[export] Instance eta_Progress : Eta Progress := fun p =>
  mkProgress p.(chain_tip) p.(fetched_blocks) p.(scanned_blocks) p.(enhanced_txs)
    p.(current_range_end) p.(reorgs_recovered) p.(pass_total_blocks) p.(spendable_hint)
    p.(ranges_completed) p.(recovering_flag) p.(last_progress_unix)
    p.(progress_permille_floor) p.(pass_start_permille_raw) p.(pass_base_fetched)
    p.(pass_base_scanned) p.(tip_refreshes) p.(tx_set_version) p.(wallet_writers)
    p.(download_failures) p.(download_gave_up_this_attempt) p.(stop_requests)
    p.(session_stop_requests).

(** [impl Default for Progress]. *)
Definition progress_default : Progress :=
  mkProgress 0 0 0 0 0 0 0 0 0 0 0 0 u64_max 0 0 0 0 0 ∅ false 0 0.

Definition DOWNLOAD_FAILURE_STALL_STREAK : Z := 2.
Definition DOWNLOAD_FAILURE_RUN_GAP_SECS : Z := 600.
Definition MAX_DOWNLOAD_FAILURE_RUNS : Z := 8.
Definition FLOOR_REBASELINE_EPSILON_PERMILLE : Z := 50.

(** ** Counters *)

Definition touch (now : Z) (p : Progress) : Progress := p <| last_progress_unix := now |>.

Definition add_fetched (n now : Z) (p : Progress) : Progress :=
  touch now (p <| fetched_blocks := u64_add p.(fetched_blocks) n |>).

Definition add_scanned (n now : Z) (p : Progress) : Progress :=
  touch now (p <| scanned_blocks := u64_add p.(scanned_blocks) n |>).

Definition add_enhanced (n now : Z) (p : Progress) : Progress :=
  touch now (p <| enhanced_txs := u64_add p.(enhanced_txs) n |>).

Definition set_chain_tip (tip : Z) (p : Progress) : Progress := p <| chain_tip := tip |>.

Definition note_tip_refreshed (p : Progress) : Progress :=
  p <| tip_refreshes := u64_add p.(tip_refreshes) 1 |>.

Definition bump_tx_set_version (now : Z) (p : Progress) : Progress :=
  touch now (p <| tx_set_version := u64_add p.(tx_set_version) 1 |>).

Definition set_range_end (e : Z) (p : Progress) : Progress := p <| current_range_end := e |>.

Definition add_reorg (p : Progress) : Progress :=
  p <| reorgs_recovered := u64_add p.(reorgs_recovered) 1 |>.

(** [set_pass_total], and the deprecated [add_pass_total], which also stores. *)
Definition set_pass_total (n : Z) (p : Progress) : Progress := p <| pass_total_blocks := n |>.

Definition set_spendable (p : Progress) : Progress := p <| spendable_hint := 1 |>.

Definition add_ranges_completed (now : Z) (p : Progress) : Progress :=
  touch now (p <| ranges_completed := u64_add p.(ranges_completed) 1 |>).

Definition set_recovering (b : bool) (p : Progress) : Progress :=
  p <| recovering_flag := if b then 1 else 0 |>.

Definition recovering (p : Progress) : bool := negb (p.(recovering_flag) =? 0).

(** ** Runs of block-download give-ups *)

(** The run a give-up at [h] leaves behind: it continues a recent run of the
    same block, or starts one. *)
Definition next_run (runs : gmap Z DownloadFailure) (h now : Z) : DownloadFailure :=
  match runs !! h with
  | Some run =>
    if sat_sub now run.(last_unix) <=? DOWNLOAD_FAILURE_RUN_GAP_SECS
    then mkDownloadFailure (sat_add32 run.(streak) 1) run.(at_height) run.(since_unix) now
    else mkDownloadFailure 1 h now now
  | None => mkDownloadFailure 1 h now now
  end.

(** The block whose run is dropped when there are too many: the least recently
    failed one, never the one just recorded. *)
Definition least_recent (runs : gmap Z DownloadFailure) (h : Z) : option Z :=
  at_height <$>
    min_by_key last_unix (filter (fun r => r.(at_height) <> h) (btree_values runs)).

(** [note_download_gave_up_at]: the give-up with an explicit clock. *)
Definition note_download_gave_up_at (h now : Z) (p : Progress) : Progress :=
  let runs := <[h := next_run p.(download_failures) h now]> p.(download_failures) in
  let runs' :=
    if MAX_DOWNLOAD_FAILURE_RUNS <? Z.of_nat (size runs) then
      match least_recent runs h with Some e => delete e runs | None => runs end
    else runs in
  p <| download_failures := runs' |> <| download_gave_up_this_attempt := true |>.

Definition clear_download_failures (p : Progress) : Progress := p <| download_failures := ∅ |>.

Definition note_pass_completed (p : Progress) : Progress :=
  clear_download_failures (p <| download_gave_up_this_attempt := false |>).

Definition begin_session (p : Progress) : Progress :=
  let p1 := clear_download_failures (p <| download_gave_up_this_attempt := false |>) in
  p1 <| session_stop_requests := p1.(stop_requests) |>.

Definition note_attempt_failed (p : Progress) : Progress :=
  let p1 := p <| download_gave_up_this_attempt := false |> in
  if p.(download_gave_up_this_attempt) then p1 else clear_download_failures p1.

Definition note_blocks_released (first last : Z) (p : Progress) : Progress :=
  if last <? first then p
  else p <| download_failures :=
         filter (fun kv => ~ (first <= kv.1 <= last)) p.(download_failures) |>.

Definition download_failures_list (p : Progress) : list DownloadFailure :=
  btree_values p.(download_failures).

(** A run that counts toward the stall time as of [now]. *)
Definition run_counts (now : Z) (r : DownloadFailure) : Prop :=
  DOWNLOAD_FAILURE_STALL_STREAK <= r.(streak) /\
  sat_sub now r.(last_unix) <= DOWNLOAD_FAILURE_RUN_GAP_SECS.
#[export] Instance run_counts_dec now r : Decision (run_counts now r).
Proof. unfold run_counts. apply _. Defined.

Definition download_failure_secs (now : Z) (p : Progress) : Z :=
  default 0 (list_max_opt
    ((fun r => sat_sub now r.(since_unix)) <$>
       filter (run_counts now) (btree_values p.(download_failures)))).

Definition stall_secs (now : Z) (p : Progress) : Z :=
  let last := p.(last_progress_unix) in
  let since_progress := if last =? 0 then 0 else sat_sub now last in
  Z.max since_progress (download_failure_secs now p).

(** ** The session-monotonic permille floor *)

Definition permille_floor (raw : Z) (p : Progress) : Z * Progress :=
  let floor := Z.max p.(progress_permille_floor) (Z.min raw 1000) in
  (floor, p <| progress_permille_floor := floor |>).

Definition scope_expanded (seed : Z) (p : Progress) : bool :=
  sat_add64 seed FLOOR_REBASELINE_EPSILON_PERMILLE <? p.(progress_permille_floor).

Definition rebaseline_floor_if_scope_expanded (seed : Z) (p : Progress) : bool * Progress :=
  if scope_expanded seed p then (true, p <| progress_permille_floor := Z.min seed 1000 |>)
  else (false, p).

Definition pass_start_permille (p : Progress) : option Z :=
  if p.(pass_start_permille_raw) =? u64_max then None else Some p.(pass_start_permille_raw).

Definition set_pass_start_permille_if_unset (seed : Z) (p : Progress) : Progress :=
  if p.(pass_start_permille_raw) =? u64_max
  then p <| pass_start_permille_raw := Z.min seed 1000 |> else p.

Definition set_pass_start_permille (seed : Z) (p : Progress) : Progress :=
  p <| pass_start_permille_raw := Z.min seed 1000 |>.

Definition set_pass_baseline (fetched scanned : Z) (p : Progress) : Progress :=
  p <| pass_base_fetched := fetched |> <| pass_base_scanned := scanned |>.

Definition begin_pass (now : Z) (p : Progress) : Progress :=
  touch now
    (p <| scanned_blocks := 0 |> <| fetched_blocks := 0 |> <| pass_total_blocks := 0 |>
       <| current_range_end := 0 |> <| spendable_hint := 0 |>
       <| pass_start_permille_raw := u64_max |>
       <| pass_base_fetched := 0 |> <| pass_base_scanned := 0 |>).

(** ** Wallet-change stop and the writer gate *)

Definition request_stop_for_wallet_change (p : Progress) : Progress :=
  p <| stop_requests := u64_add p.(stop_requests) 1 |>.

Definition stop_requested (p : Progress) : bool :=
  negb (p.(stop_requests) =? p.(session_stop_requests)).

(** [WalletWriterGate::hold] and its [Drop]. *)
Definition gate_hold (p : Progress) : Progress :=
  p <| wallet_writers := u64_add p.(wallet_writers) 1 |>.
Definition gate_drop (p : Progress) : Progress :=
  p <| wallet_writers := u64_sub p.(wallet_writers) 1 |>.

(** ** Interleavings *)

(** One call of a method that changes the object. *)
Inductive Op :=
| OpAddFetched (n now : Z) | OpAddScanned (n now : Z) | OpAddEnhanced (n now : Z)
| OpSetChainTip (tip : Z) | OpNoteTipRefreshed | OpBumpTxSetVersion (now : Z)
| OpSetRangeEnd (e : Z) | OpAddReorg | OpSetPassTotal (n : Z) | OpSetSpendable
| OpAddRangesCompleted (now : Z) | OpSetRecovering (b : bool) | OpTouch (now : Z)
| OpGaveUp (h now : Z) | OpPassCompleted | OpBeginSession | OpAttemptFailed
| OpBlocksReleased (first last : Z) | OpPermilleFloor (raw : Z) | OpRebaseline (seed : Z)
| OpPassStartIfUnset (seed : Z) | OpPassStart (seed : Z) | OpPassBaseline (f s : Z)
| OpBeginPass (now : Z) | OpRequestStop | OpGateHold | OpGateDrop.

Definition apply_op (o : Op) (p : Progress) : Progress :=
  match o with
  | OpAddFetched n now => add_fetched n now p
  | OpAddScanned n now => add_scanned n now p
  | OpAddEnhanced n now => add_enhanced n now p
  | OpSetChainTip tip => set_chain_tip tip p
  | OpNoteTipRefreshed => note_tip_refreshed p
  | OpBumpTxSetVersion now => bump_tx_set_version now p
  | OpSetRangeEnd e => set_range_end e p
  | OpAddReorg => add_reorg p
  | OpSetPassTotal n => set_pass_total n p
  | OpSetSpendable => set_spendable p
  | OpAddRangesCompleted now => add_ranges_completed now p
  | OpSetRecovering b => set_recovering b p
  | OpTouch now => touch now p
  | OpGaveUp h now => note_download_gave_up_at h now p
  | OpPassCompleted => note_pass_completed p
  | OpBeginSession => begin_session p
  | OpAttemptFailed => note_attempt_failed p
  | OpBlocksReleased f l => note_blocks_released f l p
  | OpPermilleFloor raw => (permille_floor raw p).2
  | OpRebaseline seed => (rebaseline_floor_if_scope_expanded seed p).2
  | OpPassStartIfUnset seed => set_pass_start_permille_if_unset seed p
  | OpPassStart seed => set_pass_start_permille seed p
  | OpPassBaseline f s => set_pass_baseline f s p
  | OpBeginPass now => begin_pass now p
  | OpRequestStop => request_stop_for_wallet_change p
  | OpGateHold => gate_hold p
  | OpGateDrop => gate_drop p
  end.

Definition run_ops (ops : list Op) (p : Progress) : Progress := foldl (fun p o => apply_op o p) p ops.

(** ** Well-formedness *)

Definition runs_ok (m : gmap Z DownloadFailure) : Prop :=
  (forall h r, m !! h = Some r -> r.(at_height) = h /\ 1 <= r.(streak)) /\
  Z.of_nat (size m) <= MAX_DOWNLOAD_FAILURE_RUNS.

Definition wf (p : Progress) : Prop :=
  runs_ok p.(download_failures) /\
  0 <= p.(progress_permille_floor) <= 1000 /\
  (p.(pass_start_permille_raw) = u64_max \/ 0 <= p.(pass_start_permille_raw) <= 1000) /\
  (p.(recovering_flag) = 0 \/ p.(recovering_flag) = 1) /\
  (p.(spendable_hint) = 0 \/ p.(spendable_hint) = 1).

(** The arguments an [Op] carries are unsigned. *)
Definition op_ok (o : Op) : Prop :=
  match o with
  | OpPermilleFloor x | OpRebaseline x | OpPassStartIfUnset x | OpPassStart x => 0 <= x
  | _ => True
  end.

(** An operation that leaves the runs of give-ups and the give-up flag alone:
    the signs of life of a retried pass. *)
Definition sign_of_life (o : Op) : bool :=
  match o with
  | OpGaveUp _ _ | OpPassCompleted | OpBeginSession | OpAttemptFailed | OpBlocksReleased _ _ => false
  | _ => true
  end.

Ltac op_unfold :=
  simpl; unfold add_fetched, add_scanned, add_enhanced, set_chain_tip,
    note_tip_refreshed, bump_tx_set_version, set_range_end, add_reorg, set_pass_total,
    set_spendable, add_ranges_completed, set_recovering, touch, note_download_gave_up_at,
    note_pass_completed, begin_session, note_attempt_failed, note_blocks_released,
    clear_download_failures, permille_floor, rebaseline_floor_if_scope_expanded,
    set_pass_start_permille_if_unset, set_pass_start_permille, set_pass_baseline, begin_pass,
    request_stop_for_wallet_change, gate_hold, gate_drop in *; simpl in *.

Lemma run_ops_app a b p : run_ops (a ++ b) p = run_ops b (run_ops a p).
Proof. apply foldl_app. Qed.

Lemma next_run_height m h now :
  (forall r, m !! h = Some r -> r.(at_height) = h /\ 1 <= r.(streak)) ->
  (next_run m h now).(at_height) = h /\ 1 <= (next_run m h now).(streak).
Proof.
  intros Hm. unfold next_run. destruct (m !! h) as [r|]; [|simpl; lia].
  destruct (Hm r eq_refl). case_match; simpl; unfold sat_add32, u32_max; lia.
Qed.

(** What the eviction picks: the least recently failed of the other runs. *)
Lemma least_recent_spec m h e :
  (forall k r, m !! k = Some r -> r.(at_height) = k) ->
  least_recent m h = Some e ->
  e <> h /\ exists r, m !! e = Some r /\
    forall k r', k <> h -> m !! k = Some r' -> r.(last_unix) <= r'.(last_unix).
Proof.
  intros Hkey. unfold least_recent.
  destruct (min_by_key _ _) as [r|] eqn:E; simpl; [|done]. intros [= <-].
  apply min_by_key_Some in E as [Hin Hmin].
  apply list_elem_of_filter in Hin as [Hne Hin].
  apply elem_of_btree_values in Hin as [k Hk]. pose proof (Hkey _ _ Hk) as Hk'.
  split; [done|]. exists r. rewrite Hk'. split; [done|].
  intros k' r' Hk'' Hl. apply Hmin, list_elem_of_filter. split.
  - by rewrite (Hkey _ _ Hl).
  - apply elem_of_btree_values. eauto.
Qed.

Lemma least_recent_None m h : least_recent m h = None -> forall k, k <> h ->
  (forall k r, m !! k = Some r -> r.(at_height) = k) -> m !! k = None.
Proof.
  unfold least_recent. destruct (min_by_key _ _) eqn:E; [done|]. intros _ k Hk Hkey.
  apply min_by_key_None in E. destruct (m !! k) as [r|] eqn:Hl; [|done].
  assert (r ∈ filter (fun r => r.(at_height) <> h) (btree_values m)) as Hin.
  { apply list_elem_of_filter. split; [by rewrite (Hkey _ _ Hl)|]. apply elem_of_btree_values. eauto. }
  rewrite E in Hin. by apply not_elem_of_nil in Hin.
Qed.

(** The runs after a give-up: its own run is [next_run]; every other run is
    untouched, but for at most one, the least recently failed, that is dropped
    when the give-up opened one run too many. *)
Lemma gave_up_runs h now p : runs_ok p.(download_failures) ->
  let m := p.(download_failures) in
  let m' := (note_download_gave_up_at h now p).(download_failures) in
  m' !! h = Some (next_run m h now) /\
  forall k, k <> h -> m' !! k = m !! k \/
    (m' !! k = None /\ m !! h = None /\ Z.of_nat (size m) = MAX_DOWNLOAD_FAILURE_RUNS /\
     exists r, m !! k = Some r /\
       forall k' r', k' <> h -> m !! k' = Some r' -> r.(last_unix) <= r'.(last_unix)).
Proof.
  intros [Hkey Hsize] m m'. subst m'. unfold note_download_gave_up_at. simpl. fold m.
  fold m in Hkey, Hsize.
  set (n := <[h:=_]> m).
  assert (n !! h = Some (next_run m h now)) as Hh by apply lookup_insert_eq.
  assert (forall k, k <> h -> n !! k = m !! k) as Hne by (intros; by apply lookup_insert_ne).
  assert (forall k r, n !! k = Some r -> r.(at_height) = k) as Hn.
  { intros k r. destruct (decide (k = h)) as [->|Hk].
    - rewrite Hh. intros [= <-]. apply next_run_height; eauto.
    - rewrite Hne by done. apply Hkey. }
  case_match eqn:Hlt; breflect; [|split; [done|]; intros k Hk; left; eauto].
  destruct (least_recent n h) as [e|] eqn:He; [|split; [done|]; intros; left; eauto].
  apply least_recent_spec in He as [Hneq (r & Hr & Hmin)]; [|done].
  split; [by rewrite lookup_delete_ne|]. intros k Hk.
  destruct (decide (k = e)) as [->|]; [|left; rewrite lookup_delete_ne by done; eauto].
  right. split; [apply lookup_delete_eq|].
  assert (m !! h = None) as Hnone.
  { destruct (m !! h) eqn:E; [|done]. unfold n in Hlt.
    rewrite map_size_insert_Some in Hlt by eauto. lia. }
  split; [done|]. split; [unfold n in Hlt; rewrite map_size_insert_None in Hlt by done; lia|].
  exists r. split; [by rewrite <-Hne|]. intros k' r' Hk' Hl. apply (Hmin k'); [done|].
  by rewrite Hne.
Qed.

Lemma gave_up_size h now p : runs_ok p.(download_failures) ->
  Z.of_nat (size (note_download_gave_up_at h now p).(download_failures))
    <= MAX_DOWNLOAD_FAILURE_RUNS.
Proof.
  intros Hok. unfold note_download_gave_up_at. simpl. set (n := <[h:=_]> _).
  assert (Z.of_nat (size n) <= MAX_DOWNLOAD_FAILURE_RUNS + 1) as Hn.
  { destruct Hok as [_ Hs]. unfold n. destruct (p.(download_failures) !! h) eqn:E.
    - rewrite map_size_insert_Some by eauto. lia.
    - rewrite map_size_insert_None by done. lia. }
  assert (forall k r, n !! k = Some r -> r.(at_height) = k) as Hkey.
  { intros k r. destruct (decide (k = h)) as [->|Hk].
    - unfold n. rewrite lookup_insert_eq. intros [= <-]. apply next_run_height.
      intros r'. apply Hok.
    - unfold n. rewrite lookup_insert_ne by done. apply Hok. }
  case_match eqn:Hlt; breflect; [|done].
  destruct (least_recent n h) as [e|] eqn:He.
  - apply least_recent_spec in He as [_ (r & Hr & _)]; [|done].
    rewrite map_size_delete_Some by eauto. unfold MAX_DOWNLOAD_FAILURE_RUNS in *. lia.
  - assert (n = {[ h := next_run p.(download_failures) h now ]}) as ->.
    { apply map_eq. intros k. destruct (decide (k = h)) as [->|Hk].
      - unfold n. by rewrite lookup_insert_eq, lookup_singleton_eq.
      - rewrite lookup_singleton_ne by done. by eapply least_recent_None. }
    by rewrite map_size_singleton.
Qed.

Lemma gave_up_runs_ok h now p : runs_ok p.(download_failures) ->
  runs_ok (note_download_gave_up_at h now p).(download_failures).
Proof.
  intros Hok. split; [|by apply gave_up_size].
  destruct (gave_up_runs h now p Hok) as [Hh Hk]. intros k r Hl.
  destruct (decide (k = h)) as [->|Hne].
  - rewrite Hh in Hl. simplify_eq. apply next_run_height. intros r'. apply Hok.
  - destruct (Hk k Hne) as [E|[E _]]; rewrite E in Hl; [by apply Hok|done].
Qed.

Lemma runs_ok_empty : runs_ok ∅.
Proof. split; [intros h r; by rewrite lookup_empty|done]. Qed.

Lemma runs_ok_filter (P : Z * DownloadFailure -> Prop) `{!forall x, Decision (P x)} m :
  runs_ok m -> runs_ok (filter P m).
Proof.
  intros [Hk Hs]. split.
  - intros h r [Hl _]%map_lookup_filter_Some. by apply Hk.
  - pose proof (map_size_filter P m). lia.
Qed.
#[export] Hint Resolve runs_ok_empty runs_ok_filter gave_up_runs_ok : slip.

Lemma apply_op_runs_ok o p : runs_ok p.(download_failures) ->
  runs_ok (apply_op o p).(download_failures).
Proof.
  intros Hok. destruct o; try by apply gave_up_runs_ok.
  all: op_unfold; repeat case_match; simpl; eauto with slip.
Qed.

Lemma apply_op_wf o p : op_ok o -> wf p -> wf (apply_op o p).
Proof.
  intros Ho (Hruns & Hf & Hs & Hr & Hp). split; [by apply apply_op_runs_ok|].
  destruct o; op_unfold; repeat case_match; simpl; breflect; intuition lia.
Qed.
#[local] Hint Resolve apply_op_wf : slip.

Lemma run_ops_wf ops p : Forall op_ok ops -> wf p -> wf (run_ops ops p).
Proof.
  intros Hops. revert p. induction Hops as [|o ops Ho _ IH]; intros p Hwf; simpl; [done|].
  apply IH. eauto with slip.
Qed.

Lemma default_wf : wf progress_default.
Proof. split; [apply runs_ok_empty|]. simpl. lia. Qed.

(** ** Requests to stop *)

Definition is_stop_request (o : Op) : bool := match o with OpRequestStop => true | _ => false end.
Definition is_begin_session (o : Op) : bool := match o with OpBeginSession => true | _ => false end.

Definition count_ops (f : Op -> bool) (ops : list Op) : Z := Z.of_nat (length (filter f ops)).

Lemma count_ops_nonneg f ops : 0 <= count_ops f ops.
Proof. unfold count_ops. lia. Qed.

Lemma count_ops_cons f o ops : count_ops f (o :: ops) = (if f o then 1 else 0) + count_ops f ops.
Proof.
  unfold count_ops. rewrite filter_cons. case_decide as Hd; destruct (f o); simpl in *; try done; lia.
Qed.

Lemma apply_op_stop o p : is_begin_session o = false ->
  (apply_op o p).(session_stop_requests) = p.(session_stop_requests) /\
  (apply_op o p).(stop_requests) =
    if is_stop_request o then u64_add p.(stop_requests) 1 else p.(stop_requests).
Proof. intros Ho. destruct o; try done; op_unfold; repeat case_match; done. Qed.

Lemma run_ops_stop ops p : Forall (fun o => is_begin_session o = false) ops ->
  is_u64 p.(stop_requests) ->
  (run_ops ops p).(session_stop_requests) = p.(session_stop_requests) /\
  (run_ops ops p).(stop_requests) = wrap64 (p.(stop_requests) + count_ops is_stop_request ops).
Proof.
  intros Hops. revert p. induction Hops as [|o ops Ho _ IH]; intros p Hp; simpl.
  - split; [done|]. rewrite Z.add_0_r. by rewrite wrap64_small.
  - destruct (apply_op_stop o p Ho) as [H1 H2]. rewrite count_ops_cons.
    assert (is_u64 (apply_op o p).(stop_requests)) as Hu.
    { rewrite H2. case_match; [|done]. unfold is_u64, u64_add, wrap64, u64_max in *.
      pose proof (Z.mod_pos_bound (p.(stop_requests) + 1) (2 ^ 64)). lia. }
    destruct (IH _ Hu) as [-> ->]. split; [done|]. rewrite H2. case_match; [|f_equal; lia].
    unfold u64_add, wrap64. rewrite Zplus_mod_idemp_l. f_equal. lia.
Qed.

(** ** Retries of a failing download *)

(** One retried pass: its signs of life, the give-up at [h] that ends it, and
    the session's report that the attempt failed. *)
Definition retry_ops (h : Z) (r : list Op * Z) : list Op :=
  r.1 ++ [OpGaveUp h r.2; OpAttemptFailed].

(** Each give-up follows the previous one within the run gap. *)
Fixpoint within_gap (t : Z) (ts : list Z) : Prop :=
  match ts with
  | [] => True
  | t' :: ts' => t <= t' <= t + DOWNLOAD_FAILURE_RUN_GAP_SECS /\ within_gap t' ts'
  end.

Lemma sign_of_life_runs o p : sign_of_life o = true ->
  (apply_op o p).(download_failures) = p.(download_failures).
Proof. intros Ho. destruct o; try done; op_unfold; repeat case_match; done. Qed.

Lemma life_runs ops p : Forall (fun o => sign_of_life o = true) ops ->
  (run_ops ops p).(download_failures) = p.(download_failures).
Proof.
  intros Hops. revert p. induction Hops as [|o ops Ho _ IH]; intros p; simpl; [done|].
  by rewrite IH, sign_of_life_runs.
Qed.

(** One retry turns the run of its block into [next_run]; the attempt's failure
    report keeps it, because the download did give up. *)
Lemma retry_run h r p : runs_ok p.(download_failures) ->
  Forall (fun o => sign_of_life o = true) r.1 ->
  let p' := run_ops (retry_ops h r) p in
  runs_ok p'.(download_failures) /\
  p'.(download_failures) !! h = Some (next_run p.(download_failures) h r.2).
Proof.
  intros Hok Hlife. unfold retry_ops. rewrite run_ops_app.
  rewrite <-(life_runs _ p Hlife) in *. set (q := run_ops r.1 p) in *.
  assert ((run_ops [OpGaveUp h r.2; OpAttemptFailed] q).(download_failures) =
          (note_download_gave_up_at h r.2 q).(download_failures)) as -> by reflexivity.
  split; [by apply gave_up_runs_ok|]. by apply gave_up_runs.
Qed.

Lemma retries_run h rs p r0 :
  runs_ok p.(download_failures) -> p.(download_failures) !! h = Some r0 -> 1 <= r0.(streak) ->
  Forall (fun r => Forall (fun o => sign_of_life o = true) r.1) rs ->
  within_gap r0.(last_unix) (snd <$> rs) ->
  exists r, (run_ops (mjoin (retry_ops h <$> rs)) p).(download_failures) !! h = Some r /\
    r.(since_unix) = r0.(since_unix) /\
    r.(last_unix) = List.last (snd <$> rs) r0.(last_unix) /\
    Z.min 2 (r0.(streak) + Z.of_nat (length rs)) <= r.(streak).
Proof.
  intros Hok Hl Hst Hlife. revert p r0 Hok Hl Hst.
  induction Hlife as [|r rs Hr _ IH]; intros p r0 Hok Hl Hst Hgap.
  { exists r0. simpl. repeat split; auto. lia. }
  rewrite fmap_cons in *. simpl in Hgap. destruct Hgap as [Ht Hgap].
  simpl mjoin. rewrite run_ops_app. destruct (retry_run h r p Hok Hr) as [Hok' Hl'].
  assert (next_run p.(download_failures) h r.2 =
    mkDownloadFailure (sat_add32 r0.(streak) 1) r0.(at_height) r0.(since_unix) r.2) as E.
  { unfold next_run. rewrite Hl. rewrite (proj2 (Z.leb_le _ _)); [done|].
    unfold sat_sub. lia. }
  rewrite E in Hl'.
  destruct (IH _ _ Hok' Hl') as (r' & Hl'' & Hs & Hlast & Hstk);
    [simpl; unfold sat_add32, u32_max; lia|done|].
  exists r'. repeat split; [done|done| |].
  - by rewrite Hlast, fmap_cons, list_last_cons.
  - simpl in Hstk |- *. unfold sat_add32, u32_max in Hstk. lia.
Qed.

Lemma download_failure_secs_ge now p h r :
  p.(download_failures) !! h = Some r -> run_counts now r ->
  now - r.(since_unix) <= download_failure_secs now p.
Proof.
  intros Hl Hc. unfold download_failure_secs.
  pose proof (list_max_opt_spec ((fun r => sat_sub now r.(since_unix)) <$>
    filter (run_counts now) (btree_values p.(download_failures)))) as Hm.
  assert (sat_sub now r.(since_unix) ∈ (fun r => sat_sub now r.(since_unix)) <$>
    filter (run_counts now) (btree_values p.(download_failures))) as Hin.
  { apply list_elem_of_fmap. exists r. split; [done|]. apply list_elem_of_filter.
    split; [done|]. apply elem_of_btree_values. eauto. }
  destruct (list_max_opt _) as [m|]; simpl.
  - destruct Hm as [_ Hm]. specialize (Hm _ Hin). unfold sat_sub in Hm. lia.
  - rewrite Hm in Hin. by apply not_elem_of_nil in Hin.
Qed.

(** ** Properties *)

(** C39: Every interleaving of the progress methods keeps the object well formed: at most eight
    give-up runs, each stored under its own block with a positive streak; the permille floor
    and a recorded pass start within 0..=1000; the two flags 0 or 1. *)
Theorem progress_wf_invariant ops : Forall op_ok ops -> wf (run_ops ops progress_default).
Proof. intros. by apply run_ops_wf, default_wf. Qed.

Definition sample_ops : list Op :=
  [OpBeginSession; OpBeginPass 5; OpGaveUp 70 10; OpPermilleFloor 2000; OpRebaseline 300].

Lemma progress_wf_invariant_witness : wf (run_ops sample_ops progress_default).
Proof. apply progress_wf_invariant. repeat constructor; simpl; lia. Defined.

(** A block download that keeps giving up at the same block, each give-up within the run gap
    of the one before, counts as stalled from its first give-up, whatever signs of life the
    retried passes show in between and whatever runs of other blocks exist. *)
Theorem stall_counts_from_first_give_up h life0 t0 rs p now :
  wf p -> p.(download_failures) !! h = None ->
  Forall (fun o => sign_of_life o = true) life0 ->
  Forall (fun r => Forall (fun o => sign_of_life o = true) r.1) rs -> rs <> [] ->
  within_gap t0 (snd <$> rs) ->
  0 <= now - List.last (snd <$> rs) t0 <= DOWNLOAD_FAILURE_RUN_GAP_SECS ->
  now - t0 <= stall_secs now (run_ops (mjoin (retry_ops h <$> ((life0, t0) :: rs))) p).
Proof.
  intros [Hok _] Hnone Hl0 Hlife Hrs Hgap Hnow. rewrite fmap_cons. simpl mjoin.
  rewrite run_ops_app. destruct (retry_run h (life0, t0) p Hok Hl0) as [Hok' Hl'].
  unfold next_run in Hl'. rewrite Hnone in Hl'. simpl snd in Hl'.
  destruct (retries_run h rs _ _ Hok' Hl') as (r & Hl & Hs & Hlast & Hstk); [simpl; lia|done|done|].
  simpl in Hs, Hlast, Hstk. unfold stall_secs.
  assert (now - r.(since_unix) <= download_failure_secs now
    (run_ops (mjoin (retry_ops h <$> rs)) (run_ops (retry_ops h (life0, t0)) p))) as Hge.
  { eapply download_failure_secs_ge; [exact Hl|]. split.
    - unfold DOWNLOAD_FAILURE_STALL_STREAK. destruct rs; [done|]. simpl in Hstk. lia.
    - rewrite Hlast. unfold sat_sub, DOWNLOAD_FAILURE_RUN_GAP_SECS in *. lia. }
  lia.
Qed.

Example stall_counts_from_first_give_up_instance :
  590 <= stall_secs 1000 (run_ops (mjoin (retry_ops 42 <$>
    [([OpBeginPass 400], 410); ([OpBeginPass 700; OpAddFetched 5 990], 995)])) progress_default).
Proof.
  apply (stall_counts_from_first_give_up 42 [OpBeginPass 400] 410
    [([OpBeginPass 700; OpAddFetched 5 990], 995)] progress_default 1000).
  - apply default_wf.
  - reflexivity.
  - repeat constructor.
  - repeat constructor.
  - discriminate.
  - repeat split; vm_compute; discriminate.
  - split; vm_compute; discriminate.
Qed.

(** After a session begins, [stop_requested] is true exactly when a wallet-change stop was
    requested since, in any interleaving with every other method: requests aimed at an earlier
    session never stop this one, and no pass start or counter clears a request. *)
Theorem stop_requested_since_session ops p :
  Forall (fun o => is_begin_session o = false) ops -> is_u64 p.(stop_requests) ->
  count_ops is_stop_request ops < 2 ^ 64 ->
  stop_requested (run_ops ops (begin_session p)) = (0 <? count_ops is_stop_request ops).
Proof.
  intros Hops Hp Hn. unfold stop_requested.
  destruct (run_ops_stop ops (begin_session p) Hops Hp) as [-> ->]. simpl.
  pose proof (count_ops_nonneg is_stop_request ops). unfold wrap64, is_u64, u64_max in *.
  set (s := p.(stop_requests)) in *. set (n := count_ops is_stop_request ops) in *.
  destruct (Z.ltb_spec 0 n).
  - apply negb_true_iff, Z.eqb_neq. intros E.
    pose proof (Z.div_mod (s + n) (2 ^ 64) ltac:(lia)). nia.
  - apply negb_false_iff, Z.eqb_eq. replace (s + n) with s by lia. apply Z.mod_small. lia.
Qed.

Example stop_requested_since_session_instance :
  stop_requested (run_ops [OpBeginPass 3; OpRequestStop; OpBeginPass 4]
    (begin_session (request_stop_for_wallet_change progress_default))) = true.
Proof.
  apply (stop_requested_since_session [OpBeginPass 3; OpRequestStop; OpBeginPass 4]
    (request_stop_for_wallet_change progress_default)).
  - repeat constructor.
  - split; vm_compute; discriminate.
  - reflexivity.
Qed.

Definition is_rebaseline (o : Op) : bool := match o with OpRebaseline _ => true | _ => false end.

Lemma apply_op_floor o p : is_rebaseline o = false ->
  p.(progress_permille_floor) <= (apply_op o p).(progress_permille_floor).
Proof. intros Ho. destruct o; try done; op_unfold; repeat case_match; simpl; lia. Qed.

Lemma run_ops_floor ops p : Forall (fun o => is_rebaseline o = false) ops ->
  p.(progress_permille_floor) <= (run_ops ops p).(progress_permille_floor).
Proof.
  intros Hops. revert p. induction Hops as [|o ops Ho _ IH]; intros p; simpl; [lia|].
  pose proof (apply_op_floor o p Ho). specialize (IH (apply_op o p)). lia.
Qed.

(** The progress a host reads never regresses: whatever runs between two readings, short of
    a scope expansion that re-baselines the floor, the second reading is at least the first,
    and every reading stays within 0..=1000. *)
Theorem permille_reading_monotone raw1 ops raw2 p :
  wf p -> Forall (fun o => is_rebaseline o = false) ops -> 0 <= raw1 -> 0 <= raw2 ->
  let r1 := permille_floor raw1 p in
  let r2 := permille_floor raw2 (run_ops ops r1.2) in
  r1.1 <= r2.1 /\ Z.min raw1 1000 <= r1.1 /\ r1.1 <= 1000.
Proof.
  intros (_ & Hf & _) Hops H1 H2 r1 r2. subst r1 r2. simpl.
  pose proof (run_ops_floor ops (permille_floor raw1 p).2 Hops) as H. simpl in H. lia.
Qed.

Example permille_reading_monotone_instance :
  (permille_floor 400 progress_default).1 <=
    (permille_floor 10 (run_ops [OpBeginPass 7] (permille_floor 400 progress_default).2)).1 /\
  Z.min 400 1000 <= (permille_floor 400 progress_default).1 /\
  (permille_floor 400 progress_default).1 <= 1000.
Proof.
  apply (permille_reading_monotone 400 [OpBeginPass 7] 10 progress_default);
    [apply default_wf | repeat constructor | lia | lia].
Qed.

(** A give-up records or extends the run of its own block and never another's; it evicts a
    run only when it opened a ninth one, and then exactly the least recently failed of the
    others. *)
Theorem give_up_touches_one_run h now p : wf p ->
  let m := p.(download_failures) in
  let m' := (note_download_gave_up_at h now p).(download_failures) in
  m' !! h = Some (next_run m h now) /\
  forall k, k <> h -> m' !! k = m !! k \/
    (m' !! k = None /\ m !! h = None /\ Z.of_nat (size m) = MAX_DOWNLOAD_FAILURE_RUNS /\
     exists r, m !! k = Some r /\
       forall k' r', k' <> h -> m !! k' = Some r' -> r.(last_unix) <= r'.(last_unix)).
Proof. intros [Hok _]. by apply gave_up_runs. Qed.

Definition eight_runs : Progress :=
  run_ops ((fun i => OpGaveUp i (100 - i)) <$> seqZ 1 8) progress_default.

Example give_up_touches_one_run_instance :
  wf eight_runs /\
  (note_download_gave_up_at 50 200 eight_runs).(download_failures) !! 50
    = Some (next_run eight_runs.(download_failures) 50 200) /\
  (note_download_gave_up_at 50 200 eight_runs).(download_failures) !! 8 = None.
Proof.
  assert (wf eight_runs) as Hwf.
  { apply run_ops_wf; [|apply default_wf]. repeat constructor. }
  split; [exact Hwf|]. split; [apply (give_up_touches_one_run 50 200 eight_runs Hwf)|].
  vm_compute. reflexivity.
Qed.

End Progress.
