(* ===== verification/Fence.v ===== *)
(** * The decryption fence: [DecryptionFence] of [core/src/scan.rs]

    The process-wide account of the fences that wallet-change stops leave owed.  Requests,
    fence starts, completions and aborts come from any number of sessions; a trace is a
    sequence of such events, each of which is one atomic access. *)

From S2P Require Export Prelude.

Module Fence.

(** [struct DecryptionFence]. *)
Record DecryptionFence := mkFence { fence_requests : Z; paid : Z }.

(** [DecryptionFence::new]. *)
Definition fence_new : DecryptionFence := mkFence 0 0.

(** [owe]. *)
Definition owe (f : DecryptionFence) : DecryptionFence := mkFence (u64_add f.(fence_requests) 1) f.(paid).

(** [owed]. *)
Definition owed (f : DecryptionFence) : option Z :=
  if f.(fence_requests) =? f.(paid) then None else Some f.(fence_requests).

(** The end of [wait_if_owed], for a fence that read [requests] before it started. *)
Definition pay (requests : Z) (f : DecryptionFence) : DecryptionFence :=
  mkFence f.(fence_requests) (Z.max f.(paid) requests).

(** [wait_if_owed], nothing else happening meanwhile. *)
Definition wait_if_owed (f : DecryptionFence) : DecryptionFence :=
  match owed f with Some r => pay r f | None => f end.

(** ** Sessions in parallel *)

(** A wallet-change stop; a session reaching its first scan call; its fence completing, or
    being cut short by the host's abort. *)
Inductive Event := Owe | Start (id : nat) | Complete (id : nat) | Abort (id : nat).

#[export] Instance event_eq_dec : EqDecision Event.
Proof. solve_decision. Defined.

(** The account, and what each fence under way read. *)
Definition State : Type := DecryptionFence * gmap nat Z.

(** [wait_if_owed] in two steps, with everything that may come between. *)
Definition step (s : State) (e : Event) : State :=
  let '(f, w) := s in
  match e with
  | Owe => (owe f, w)
  | Start id => match owed f with Some r => (f, <[id := r]> w) | None => (f, w) end
  | Complete id => match w !! id with Some r => (pay r f, delete id w) | None => (f, w) end
  | Abort id => (f, delete id w)
  end.

Definition run (evs : list Event) : State := foldl step (fence_new, ∅) evs.

Definition owes (evs : list Event) : Z := Z.of_nat (length (filter (fun e => e = Owe) evs)).

Lemma owes_app a b : owes (a ++ b) = owes a + owes b.
Proof. unfold owes. rewrite filter_app, length_app. lia. Qed.

Lemma owes_nonneg a : 0 <= owes a.
Proof. unfold owes. lia. Qed.

Lemma owes_zero a : owes a = 0 -> Owe ∉ a.
Proof.
  intros Hz Hin. assert (Owe ∈ filter (fun e => e = Owe) a) as H by (by apply list_elem_of_filter).
  unfold owes in Hz. destruct (filter _ a); [by apply not_elem_of_nil in H|simpl in Hz; lia].
Qed.

(** A fence that completed, with what was requested before it started. *)
Definition completed (evs : list Event) (n : Z) : Prop :=
  exists t1 id t2 t3, evs = t1 ++ Start id :: t2 ++ Complete id :: t3 /\ n = owes t1.

Definition fence_inv (evs : list Event) (s : State) : Prop :=
  s.1.(fence_requests) = owes evs /\
  (s.1.(paid) = 0 \/ completed evs s.1.(paid)) /\
  forall id r, s.2 !! id = Some r -> exists t1 t2, evs = t1 ++ Start id :: t2 /\ r = owes t1.

Lemma completed_snoc evs e n : completed evs n -> completed (evs ++ [e]) n.
Proof.
  intros (t1 & id & t2 & t3 & -> & ->). exists t1, id, t2, (t3 ++ [e]). split; [|done].
  by rewrite <-!app_assoc, <-!app_comm_cons, <-!app_assoc.
Qed.

Lemma started_snoc evs e id r : (exists t1 t2, evs = t1 ++ Start id :: t2 /\ r = owes t1) ->
  exists t1 t2, evs ++ [e] = t1 ++ Start id :: t2 /\ r = owes t1.
Proof. intros (t1 & t2 & -> & ->). exists t1, (t2 ++ [e]). by rewrite <-app_assoc. Qed.

Lemma fence_inv_step evs e s : owes (evs ++ [e]) <= u64_max -> fence_inv evs s -> fence_inv (evs ++ [e]) (step s e).
Proof.
  destruct s as [f w]. intros Hb (H1 & H2 & H3). simpl in *. pose proof (owes_nonneg evs).
  assert (forall w' : gmap nat Z, (forall id r, w' !! id = Some r -> w !! id = Some r) -> forall id r, w' !! id = Some r ->
    exists t1 t2, evs ++ [e] = t1 ++ Start id :: t2 /\ r = owes t1) as Hsub.
  { intros w' Hw' id r Hl. apply started_snoc. by apply H3, Hw'. }
  assert (paid f = 0 \/ completed (evs ++ [e]) (paid f)) as H2'.
  { destruct H2; [by left|right; by apply completed_snoc]. }
  rewrite owes_app in Hb.
  destruct e as [|id|id|id]; unfold fence_inv; cbn [step].
  - simpl. rewrite H1, owes_app. change (owes [Owe]) with 1 in *.
    rewrite u64_add_small by (unfold is_u64; lia). split_and!; try done. by apply Hsub.
  - rewrite owes_app. change (owes [Start id]) with 0 in *. rewrite Z.add_0_r.
    destruct (owed f) as [r|] eqn:Eo; simpl; split_and!; try done.
    + intros id' r' [[<- <-]|[Hne Hl]]%lookup_insert_Some; [|by apply (Hsub w)].
      exists evs, []. split; [done|]. unfold owed in Eo. destruct (_ =? _); [done|]. by injection Eo as <-.
    + by apply Hsub.
  - rewrite owes_app. change (owes [Complete id]) with 0 in *. rewrite Z.add_0_r.
    destruct (w !! id) as [r|] eqn:El; simpl; split_and!; try done.
    + destruct (Z.max_spec (paid f) r) as [[_ ->]|[_ ->]]; [|done]. right.
      destruct (H3 _ _ El) as (t1 & t2 & -> & ->). exists t1, id, t2, []. split; [|done]. by rewrite <-app_assoc.
    + apply Hsub. intros id' r' [_ Hl]%lookup_delete_Some. done.
    + by apply Hsub.
  - rewrite owes_app. change (owes [Abort id]) with 0 in *. rewrite Z.add_0_r. simpl. split_and!; try done.
    apply Hsub. intros id' r' [_ Hl]%lookup_delete_Some. done.
Qed.

Lemma fence_inv_run evs : owes evs <= u64_max -> fence_inv evs (run evs).
Proof.
  induction evs as [|e evs IH] using rev_ind; intros Hb.
  - split; [done|]. split; [by left|]. done.
  - unfold run. rewrite foldl_app. apply fence_inv_step; [done|]. apply IH. rewrite owes_app in Hb.
    pose proof (owes_nonneg [e]). lia.
Qed.

(** ** Properties *)

(** A wallet-change stop is paid only by a fence that starts after it and completes: whatever the
    sessions do and however their fences interleave, when nothing is owed then either no stop was
    ever requested, or some fence started after the last request and ran to its end; a request
    made while a fence waits stays owed, an aborted fence pays nothing, and an owed fence is paid
    by the next one that completes. *)
Theorem fence_paid_by_a_later_completion evs :
  owes evs <= u64_max ->
  (owed (run evs).1 = None -> Owe ∈ evs ->
   exists t1 id t2 t3, evs = t1 ++ Start id :: t2 ++ Complete id :: t3 /\ Owe ∉ t2 ++ t3) /\
  (forall id, owed (run (evs ++ [Start id; Complete id])).1 = None).
Proof.
  intros Hb. pose proof (fence_inv_run evs Hb) as (H1 & H2 & H3). split.
  - intros Ho Hin. unfold owed in Ho. destruct (Z.eqb_spec (fence_requests (run evs).1) (paid (run evs).1)) as [Heq|]; [|done].
    destruct H2 as [H2|(t1 & id & t2 & t3 & E & Hp)].
    + exfalso. apply (owes_zero evs); [lia|done].
    + exists t1, id, t2, t3. split; [done|]. apply owes_zero. rewrite owes_app.
      pose proof (owes_nonneg t1). pose proof (owes_nonneg t2). pose proof (owes_nonneg t3).
      assert (owes evs = owes t1 + (owes t2 + owes t3)) as He; [|lia].
      rewrite E, owes_app. change (Start id :: t2 ++ Complete id :: t3) with ([Start id] ++ t2 ++ [Complete id] ++ t3).
      rewrite !owes_app. change (owes [Start id]) with 0. change (owes [Complete id]) with 0. lia.
  - intros id. unfold run. rewrite foldl_app. fold (run evs). destruct (run evs) as [f w]. cbn [foldl step].
    simpl in H1, H2.
    destruct (owed f) as [r|] eqn:Eo; cbn [step].
    + rewrite lookup_insert_eq. unfold owed, pay in *. simpl in *.
      destruct (Z.eqb_spec (fence_requests f) (paid f)) as [|Hne]; [done|]. injection Eo as <-.
      assert (paid f <= fence_requests f) as Hle.
      { rewrite H1. destruct H2 as [->|(t1 & i & t2 & t3 & -> & ->)]; [apply owes_nonneg|]. rewrite owes_app.
        pose proof (owes_nonneg (Start i :: t2 ++ Complete i :: t3)). lia. }
      by rewrite Z.max_r, Z.eqb_refl by lia.
    + destruct (w !! id) as [r|] eqn:El; [|done]. destruct (H3 id r El) as (t1 & t2 & -> & ->).
      unfold owed, pay in *. simpl. destruct (Z.eqb_spec (fence_requests f) (paid f)) as [Heq|]; [|done].
      rewrite owes_app in H1. pose proof (owes_nonneg (Start id :: t2)). rewrite Z.max_l by lia. by rewrite Heq, Z.eqb_refl.
Qed.

Lemma fence_paid_by_a_later_completion_witness :
  owed (run [Owe; Start 1; Owe; Complete 1]).1 = Some 2 /\
  owed (run [Owe; Start 1; Owe; Complete 1; Start 2; Complete 2]).1 = None.
Proof.
  split; [reflexivity|].
  exact (proj2 (fence_paid_by_a_later_completion [Owe; Start 1; Owe; Complete 1] ltac:(vm_compute; discriminate)) 2%nat).
Defined.

End Fence.
