(* ===== verification/PersistLane.v ===== *)
(** * The write-behind persist lane: [PersistLane] of [core/src/persist.rs]

    Deferred commits, one at a time and in order, on a blocking thread, with up to
    [depth] units waiting.  The wallet file with the lane's tree state is the abstract
    [S]; what a commit does to it, whether it succeeds, fails or panics, and when it
    finishes, is the parameter [commit].  A task is [Running] from its spawn until
    [run_task], which may happen at any time between the scan side's operations: an
    explicit [Event] of a schedule.  The abstract specification is the committer that
    writes the units one after the other and stops at the first failure, [serial]. *)

From S2P Require Export Progress.
Import Progress.

Module PersistLane.

(** How a commit task ends: its result, or the panic its join handle reports. *)
Inductive CommitResult := CommitOk | CommitErr (e : string) | CommitPanic (e : string).

(** An in-flight task: still running its job, or finished and not yet awaited. *)
Inductive Task (U : Type) := Running (job : U) | Finished (r : CommitResult).
Arguments Running {U} job.
Arguments Finished {U} r.

(** What running a job does: the state it leaves, its end, and the clock then. *)
Record Outcome (S : Type) := mkOutcome { oc_state : S; oc_result : CommitResult; oc_now : Z }.
Arguments mkOutcome {S} _ _ _.
Arguments oc_state {S} _.
Arguments oc_result {S} _.
Arguments oc_now {S} _.

(** [struct PersistLane].  [store] is the wallet file and tree state wherever they are
    owned; [conn]: the lane holds them ([db] and [sparse] are [Some]). *)
Record Lane (U S : Type) := mkLane {
  store : S;
  conn : bool;
  lane_progress : option Progress;
  in_flight : option (Task U);
  in_flight_span : Z * Z;
  queue : list ((Z * Z) * U);
  depth : Z;
}.
Arguments mkLane {U S} _ _ _ _ _ _ _.
Arguments store {U S} _.
Arguments conn {U S} _.
Arguments lane_progress {U S} _.
Arguments in_flight {U S} _.
Arguments in_flight_span {U S} _.
Arguments queue {U S} _.
Arguments depth {U S} _.

#[export] Instance eta_Lane {U S} : Eta (Lane U S) := fun l =>
  mkLane l.(store) l.(conn) l.(lane_progress) l.(in_flight) l.(in_flight_span) l.(queue) l.(depth).

(** [PersistLane::open], once the connection is open. *)
Definition open {U S} (s : S) (d : Z) : Lane U S := mkLane s true None None (0, 0) [] (Z.max d 1).

(** [attach_writer_gate]. *)
Definition attach_writer_gate {U S} (p : Progress) (l : Lane U S) : Lane U S :=
  l <| lane_progress := Some p |>.

(** [pending_count]. *)
Definition pending_count {U S} (l : Lane U S) : Z :=
  match l.(in_flight) with Some _ => 1 | None => 0 end + Z.of_nat (length l.(queue)).

(** The error the lane reports for a commit that did not succeed. *)
Definition commit_error (span : Z * Z) (r : CommitResult) : option SlipstreamError :=
  match r with
  | CommitOk => None
  | CommitErr e => Some (Wallet ("write-behind deferred put_blocks [" +:+ pretty span.1 +:+ "..=" +:+
                                 pretty span.2 +:+ "]: " +:+ e))
  | CommitPanic e => Some (Wallet ("write-behind persist task died (panic/cancel): " +:+ e))
  end.

Definition lane_lost : SlipstreamError :=
  Wallet "write-behind persist lane unusable (connection lost by an earlier failure)".

Section Ops.
Context {U S : Type} (commit : U -> S -> Outcome S).
Implicit Types (l : Lane U S).

(** The body of the spawned task and its join: the job runs, a success touches the
    progress, the writer gate is dropped. *)
Definition join (t : Task U) (l : Lane U S) : Lane U S * CommitResult :=
  match t with
  | Finished r => (l, r)
  | Running u =>
    let oc := commit u l.(store) in
    let p := match oc.(oc_result) with
             | CommitOk => touch oc.(oc_now) <$> l.(lane_progress) | _ => l.(lane_progress) end in
    (l <| store := oc.(oc_state) |> <| lane_progress := gate_drop <$> p |>, oc.(oc_result))
  end.

(** The task finishes in the background, before anyone awaits it. *)
Definition run_task (l : Lane U S) : Lane U S :=
  match l.(in_flight) with
  | Some t => let '(l1, r) := join t l in l1 <| in_flight := Some (Finished r) |>
  | None => l
  end.

(** [await_in_flight]. *)
Definition await_in_flight (l : Lane U S) : Lane U S * Res unit :=
  match l.(in_flight) with
  | None => (l, Ok tt)
  | Some t =>
    let '(l1, r) := join t l in
    let l2 := l1 <| in_flight := None |> in
    let l3 := match r with CommitPanic _ => l2 | _ => l2 <| conn := true |> end in
    (l3, match commit_error l.(in_flight_span) r with Some e => Err e | None => Ok tt end)
  end.

(** [spawn_next]. *)
Definition spawn_next (l : Lane U S) : Lane U S * Res unit :=
  match l.(in_flight) with
  | Some _ => (l, Ok tt)
  | None =>
    match l.(queue) with
    | [] => (l, Ok tt)
    | (span, job) :: q =>
      let l1 := l <| queue := q |> in
      if l.(conn)
      then (l1 <| conn := false |> <| lane_progress := gate_hold <$> l.(lane_progress) |>
               <| in_flight_span := span |> <| in_flight := Some (Running job) |>, Ok tt)
      else (l1, Err lane_lost)
    end
  end.

(** The loop shared by [submit_job] and [drain]: await, clear the queue on an error,
    spawn the next, while more than [bound] units are pending.  [None]: out of fuel. *)
Fixpoint reap (fuel : nat) (bound : Z) (l : Lane U S) : option (Lane U S * Res unit) :=
  if pending_count l <=? bound then Some (l, Ok tt)
  else match fuel with
  | O => None
  | Datatypes.S fuel' =>
    match await_in_flight l with
    | (l1, Err e) => Some (l1 <| queue := [] |>, Err e)
    | (l1, Ok _) =>
      match spawn_next l1 with
      | (l2, Err e) => Some (l2, Err e)
      | (l2, Ok _) => reap fuel' bound l2
      end
    end
  end.

(** Enough turns for any lane: two per queued unit and one for the task. *)
Definition reap_fuel (l : Lane U S) : nat :=
  (2 * length l.(queue) + match l.(in_flight) with Some _ => 1 | None => 0 end)%nat.

(** [submit_job]. *)
Definition submit_job (span : Z * Z) (job : U) (l : Lane U S) : option (Lane U S * Res unit) :=
  match spawn_next (l <| queue := l.(queue) ++ [(span, job)] |>) with
  | (l1, Err e) => Some (l1, Err e)
  | (l1, Ok _) => reap (reap_fuel l1) l1.(depth) l1
  end.

(** [drain]. *)
Definition drain (l : Lane U S) : option (Lane U S * Res unit) := reap (reap_fuel l) 0 l.

(** ** The specification, and runs of a lane *)

(** The committer without a lane: in order, up to the first failure. *)
Fixpoint serial (jobs : list ((Z * Z) * U)) (s : S) : S * Res unit :=
  match jobs with
  | [] => (s, Ok tt)
  | (span, u) :: jobs' =>
    let oc := commit u s in
    match commit_error span oc.(oc_result) with
    | Some e => (oc.(oc_state), Err e)
    | None => serial jobs' oc.(oc_state)
    end
  end.

(** What the scan side does, and the moments a running task finishes on its own. *)
Inductive Event := ESubmit (span : Z * Z) (job : U) | EDrain | EFinish.

Definition submitted (evs : list Event) : list ((Z * Z) * U) :=
  omap (fun ev => match ev with ESubmit sp u => Some (sp, u) | _ => None end) evs.

(** A schedule, up to the first error. *)
Fixpoint run_events (evs : list Event) (l : Lane U S) : option (Lane U S * Res unit) :=
  match evs with
  | [] => Some (l, Ok tt)
  | EFinish :: evs' => run_events evs' (run_task l)
  | ESubmit sp u :: evs' =>
    match submit_job sp u l with
    | Some (l1, Ok _) => run_events evs' l1
    | other => other
    end
  | EDrain :: evs' =>
    match drain l with
    | Some (l1, Ok _) => run_events evs' l1
    | other => other
    end
  end.

(** The barrier at the end of a range: drain on every exit, a persist error first. *)
Definition run_range (evs : list Event) (l : Lane U S) : option (Lane U S * Res unit) :=
  match run_events evs l with
  | None => None
  | Some (l1, r) =>
    match drain l1 with
    | None => None
    | Some (l2, Ok _) => Some (l2, r)
    | Some (l2, Err e) => Some (l2, Err e)
    end
  end.

(** ** The abstraction: what is still to come, done serially *)

Definition outcome (l : Lane U S) : S * Res unit :=
  match l.(in_flight) with
  | None => serial l.(queue) l.(store)
  | Some (Running u) => serial ((l.(in_flight_span), u) :: l.(queue)) l.(store)
  | Some (Finished r) =>
    match commit_error l.(in_flight_span) r with
    | Some e => (l.(store), Err e)
    | None => serial l.(queue) l.(store)
    end
  end.

(** Between operations: a lane with nothing in flight has nothing queued and its
    connection. *)
Definition lane_wf (l : Lane U S) : Prop :=
  match l.(in_flight) with None => l.(queue) = [] /\ l.(conn) = true | Some _ => True end.

(** Nothing left to do. *)
Definition idle (l : Lane U S) : Prop := l.(in_flight) = None /\ l.(queue) = [].

(** One more job at the end of a serial run. *)
Definition extend (o : S * Res unit) (span : Z * Z) (u : U) : S * Res unit :=
  match o with (s, Ok _) => serial [(span, u)] s | (s, Err e) => (s, Err e) end.

Lemma serial_snoc jobs sp u s : serial (jobs ++ [(sp, u)]) s = extend (serial jobs s) sp u.
Proof.
  revert s. induction jobs as [|[sp' u'] jobs IH]; intros s; [done|].
  cbn [serial app]. case_match; [done|]. apply IH.
Qed.

Lemma serial_app_err jobs1 jobs2 s s' e :
  serial jobs1 s = (s', Err e) -> serial (jobs1 ++ jobs2) s = (s', Err e).
Proof.
  revert s. induction jobs1 as [|[sp u] jobs1 IH]; intros s; cbn [serial app]; [done|].
  case_match; [done|]. apply IH.
Qed.

Lemma outcome_run_task l : outcome (run_task l) = outcome l.
Proof.
  unfold outcome, run_task, join. destruct (in_flight l) as [[u|r]|] eqn:E; cbn -[commit_error].
  - by destruct (commit_error _ _).
  - done.
  - by rewrite E.
Qed.

Lemma wf_run_task l : lane_wf l -> lane_wf (run_task l).
Proof. unfold lane_wf, run_task. destruct (in_flight l) as [t|] eqn:E; [|by rewrite E]. by destruct (join t l). Qed.

(** Awaiting settles the task: on success the rest is as before, on an error the
    outcome is known. *)
Lemma await_outcome l l' r : await_in_flight l = (l', r) ->
  l'.(in_flight) = None /\ l'.(queue) = l.(queue) /\ l'.(depth) = l.(depth) /\
  match r with
  | Ok _ => outcome l' = outcome l /\ (l.(in_flight) <> None -> l'.(conn) = true)
  | Err e => outcome l = (l'.(store), Err e) /\ l.(in_flight) <> None
  end.
Proof.
  unfold await_in_flight, outcome, join. destruct (in_flight l) as [[u|r0]|] eqn:E.
  - set (oc := commit u (store l)). destruct (oc_result oc) eqn:Er; cbn -[commit_error];
      intros [= <- <-]; cbn -[commit_error]; fold oc; rewrite ?Er; cbn; by split_and!.
  - destruct r0; cbn; intros [= <- <-]; cbn; by split_and!.
  - intros [= <- <-]. rewrite E. by split_and!.
Qed.

(** Spawning does not change what will be written; it fails only without a connection. *)
Lemma spawn_outcome l l' r : spawn_next l = (l', r) -> l'.(depth) = l.(depth) /\
  (l.(in_flight) <> None \/ l.(conn) = true ->
   r = Ok tt /\ outcome l' = outcome l /\ pending_count l' = pending_count l /\ lane_wf l' /\
   (l.(in_flight) = None -> (length l'.(queue) = length l.(queue) - 1)%nat)).
Proof.
  unfold spawn_next, outcome, pending_count, lane_wf. destruct (in_flight l) as [t|] eqn:E.
  { intros [= <- <-]. rewrite E. split; [done|]. by intros _. }
  destruct (queue l) as [|[sp u] q] eqn:Eq.
  { intros [= <- <-]. split; [done|]. intros [[]|Hc]; [done|]. by rewrite E, Eq. }
  destruct (conn l) eqn:Ec; intros [= <- <-]; (split; [done|]).
  - intros _. cbn -[Z.of_nat]. split_and!; try done; lia.
  - by intros [[]|].
Qed.

Lemma reap_fuel_pending l : (reap_fuel l = 0%nat -> pending_count l = 0) /\ 0 <= pending_count l.
Proof. unfold reap_fuel, pending_count. destruct (in_flight l); lia. Qed.

(** The loop: it ends, and either everything above the bound is written or the first
    error is reported with the queue dropped. *)
Lemma reap_spec fuel : forall bound l, 0 <= bound -> lane_wf l -> (reap_fuel l <= fuel)%nat ->
  exists l' r, reap fuel bound l = Some (l', r) /\ l'.(depth) = l.(depth) /\
  match r with
  | Ok _ => outcome l' = outcome l /\ lane_wf l' /\ pending_count l' <= Z.max bound 0
  | Err e => outcome l = (l'.(store), Err e) /\ idle l'
  end.
Proof.
  induction fuel as [|fuel IH]; intros bound l Hb Hwf Hf; cbn [reap].
  { destruct (reap_fuel_pending l) as [H0 _]. rewrite H0 by lia.
    destruct (Z.leb_spec 0 bound); [|lia].
    exists l, (Ok tt). rewrite H0 by lia. split_and!; try done; lia. }
  destruct (Z.leb_spec (pending_count l) bound).
  { exists l, (Ok tt). split_and!; try done; lia. }
  assert (l.(in_flight) <> None) as Hfl.
  { intros E. unfold lane_wf in Hwf. rewrite E in Hwf. destruct Hwf as [Hq _].
    unfold pending_count in H. rewrite E, Hq in H. simpl in H. lia. }
  destruct (await_in_flight l) as [l1 r1] eqn:Ea.
  destruct (await_outcome _ _ _ Ea) as (A1 & A2 & A3 & A4). destruct r1 as [[]|e].
  2: { destruct A4 as [A4 _]. eexists _, _. split; [done|]. by split_and!. }
  destruct A4 as [A4 A5]. specialize (A5 Hfl).
  destruct (spawn_next l1) as [l2 r2] eqn:Es.
  destruct (spawn_outcome _ _ _ Es) as (S1 & S2).
  destruct S2 as (-> & S2 & S3 & S4 & S5); [by right|]. specialize (S5 A1).
  destruct (IH bound l2) as (l' & r & E & Hd & Hr); [done|done| |].
  { unfold reap_fuel in *. rewrite S5, A2. destruct (in_flight l) as [t|]; [|done].
    assert (l2.(in_flight) = None \/ l1.(queue) <> []) as [->|Hq].
    { unfold spawn_next in Es. rewrite A1 in Es. destruct (queue l1) as [|[]]; [|by right].
      injection Es as <-. by left. }
    - rewrite A2 in S5. lia.
    - rewrite A2 in Hq. destruct (queue l); [done|]. simpl in *. destruct (in_flight l2); lia. }
  exists l', r. split; [done|]. split; [congruence|]. by rewrite <-A4, <-S2.
Qed.

Lemma submit_spec sp u l : lane_wf l -> 1 <= l.(depth) ->
  exists l' r, submit_job sp u l = Some (l', r) /\ l'.(depth) = l.(depth) /\
  match r with
  | Ok _ => outcome l' = extend (outcome l) sp u /\ lane_wf l' /\ pending_count l' <= l.(depth)
  | Err e => extend (outcome l) sp u = (l'.(store), Err e) /\ idle l'
  end.
Proof.
  intros Hwf Hd. unfold submit_job. set (l0 := l <| queue := l.(queue) ++ [(sp, u)] |>).
  assert (outcome l0 = extend (outcome l) sp u) as E0.
  { unfold outcome, l0. cbn -[serial commit_error]. destruct (in_flight l) as [[w|r]|].
    - rewrite app_comm_cons. apply serial_snoc.
    - case_match; [done|]. apply serial_snoc.
    - apply serial_snoc. }
  destruct (spawn_next l0) as [l1 r1] eqn:Es.
  destruct (spawn_outcome _ _ _ Es) as (S1 & S2).
  destruct S2 as (-> & S2 & _ & S4 & _).
  { unfold lane_wf in Hwf. unfold l0. cbn. destruct (in_flight l); [by left|right; tauto]. }
  destruct (reap_spec (reap_fuel l1) l1.(depth) l1) as (l' & r & E & Hd' & Hr);
    [rewrite S1; cbn; lia|done|lia|].
  exists l', r. rewrite E, <-E0, <-S2. split; [done|]. split; [by rewrite Hd', S1|].
  destruct r; [|done]. rewrite S1 in Hr. cbn in Hr. destruct Hr as (? & ? & ?). split_and!; try done. lia.
Qed.

Lemma drain_spec l : lane_wf l ->
  exists l' r, drain l = Some (l', r) /\ l'.(depth) = l.(depth) /\ outcome l = (l'.(store), r) /\
  idle l' /\ (r = Ok tt -> lane_wf l').
Proof.
  intros Hwf. destruct (reap_spec (reap_fuel l) 0 l) as (l' & r & E & Hd & Hr); [lia|done|lia|].
  exists l', r. split; [done|]. split; [done|]. destruct r as [[]|e].
  - destruct Hr as (Ho & Hw & Hp). assert (idle l') as Hi.
    { unfold pending_count in Hp. unfold idle. destruct (in_flight l'); [lia|].
      destruct (queue l'); [done|simpl in Hp; lia]. }
    split_and!; try done. rewrite <-Ho. destruct Hi as [Hi1 Hi2]. unfold outcome. by rewrite Hi1, Hi2.
  - by destruct Hr.
Qed.

Lemma drain_idle l : idle l -> drain l = Some (l, Ok tt).
Proof. intros [H1 H2]. unfold drain, reap_fuel. rewrite H1, H2. simpl. unfold pending_count. by rewrite H1, H2. Qed.

(** A schedule's effect on the outcome is that of its submissions alone. *)
Lemma run_events_spec evs : forall l s0 jobs, lane_wf l -> 1 <= l.(depth) -> outcome l = serial jobs s0 ->
  exists l' r, run_events evs l = Some (l', r) /\
  match r with
  | Ok _ => outcome l' = serial (jobs ++ submitted evs) s0 /\ lane_wf l' /\ pending_count l' <= Z.max (pending_count l) l.(depth)
  | Err e => serial (jobs ++ submitted evs) s0 = (l'.(store), Err e) /\ idle l'
  end.
Proof.
  induction evs as [|[sp u| |] evs IH]; intros l s0 jobs Hwf Hd Ho; cbn [run_events submitted omap list_omap].
  - exists l, (Ok tt). rewrite app_nil_r. split_and!; try done. lia.
  - destruct (submit_spec sp u l Hwf Hd) as (l1 & r1 & -> & Hd1 & Hr). fold (submitted evs).
    change ((sp, u) :: submitted evs) with ([(sp, u)] ++ submitted evs). rewrite Ho, <-serial_snoc in Hr.
    destruct r1 as [[]|e].
    + destruct Hr as (H1 & H2 & H3). destruct (IH l1 s0 (jobs ++ [(sp, u)])) as (l' & r & E & Hr); [done|lia|done|].
      rewrite <-app_assoc in Hr. exists l', r. split; [done|].
      destruct r; [|done]. destruct Hr as (? & ? & ?). split_and!; try done. lia.
    + destruct Hr as [H1 H2]. exists l1, (Err e). split; [done|]. split; [|done].
      rewrite app_assoc. by apply serial_app_err.
  - destruct (drain_spec l Hwf) as (l1 & r1 & -> & Hd1 & Hr & Hi & Hw). fold (submitted evs). destruct r1 as [[]|e].
    + destruct (IH l1 s0 jobs) as (l' & r & E & Hr'); [auto|lia| |].
      { rewrite <-Ho, Hr. destruct Hi as [H1 H2]. unfold outcome. by rewrite H1, H2. }
      exists l', r. split; [done|]. destruct r; [|done]. destruct Hr' as (? & ? & H3). split_and!; try done.
      destruct (reap_fuel_pending l). destruct Hi as [Hi1 Hi2]. unfold pending_count in H3 at 2.
      rewrite Hi1, Hi2 in H3. simpl in H3. lia.
    + exists l1, (Err e). split; [done|]. split; [|done]. apply serial_app_err. by rewrite <-Ho.
  - fold (submitted evs). assert (pending_count (run_task l) = pending_count l /\ (run_task l).(depth) = l.(depth)) as [Hp Hd'].
    { unfold run_task, pending_count. destruct (in_flight l) as [[w|r]|] eqn:E; cbn; by rewrite ?E. }
    destruct (IH (run_task l) s0 jobs) as (l' & r & E & Hr);
      [by apply wf_run_task|lia|by rewrite outcome_run_task|].
    rewrite Hp, Hd' in Hr. by exists l', r.
Qed.

(** ** The writer gate *)

Definition writers (l : Lane U S) : option Z := wallet_writers <$> l.(lane_progress).
Definition is_running (l : Lane U S) : bool :=
  match l.(in_flight) with Some (Running _) => true | _ => false end.

(** The gate count with nothing running: [n]; one more while a commit runs. *)
Definition gate_inv (n : Z) (l : Lane U S) : Prop :=
  forall p, l.(lane_progress) = Some p -> p.(wallet_writers) = n + (if is_running l then 1 else 0).

Lemma gate_join n t l : gate_inv n l -> 0 <= n < u64_max -> l.(in_flight) = Some t ->
  forall p, (join t l).1.(lane_progress) = Some p -> p.(wallet_writers) = n.
Proof.
  unfold gate_inv, is_running, join. intros Hg Hn E p. rewrite E in Hg. destruct t as [u|r].
  - destruct (lane_progress l) as [p0|]; cbn; [|by destruct (oc_result _)].
    specialize (Hg p0 eq_refl). intros Hp.
    assert (p.(wallet_writers) = u64_sub p0.(wallet_writers) 1) as ->.
    { destruct (oc_result _); cbn in Hp; by injection Hp as <-. }
    rewrite Hg. rewrite u64_sub_small; unfold is_u64; lia.
  - intros Hp. rewrite (Hg p Hp). lia.
Qed.

Lemma gate_await n l : gate_inv n l -> 0 <= n < u64_max -> gate_inv n (await_in_flight l).1.
Proof.
  intros Hg Hn. unfold await_in_flight. destruct (in_flight l) as [t|] eqn:E; [|done].
  pose proof (gate_join n t l Hg Hn E) as Hj. destruct (join t l) as [l1 r]. cbn in *.
  unfold gate_inv, is_running. destruct r; cbn; intros p Hp; rewrite (Hj p Hp); lia.
Qed.

Lemma gate_spawn n l : gate_inv n l -> 0 <= n < u64_max -> gate_inv n (spawn_next l).1.
Proof.
  intros Hg Hn. unfold spawn_next. destruct (in_flight l) as [t|] eqn:E; [done|].
  destruct (queue l) as [|[sp u] q]; [done|]. destruct (conn l); cbn; [|unfold gate_inv, is_running in *; cbn; by rewrite E in *].
  unfold gate_inv, is_running in *. rewrite E in Hg. cbn. intros p Hp.
  destruct (lane_progress l) as [p0|]; [|done]. injection Hp as <-. cbn. rewrite (Hg p0 eq_refl).
  rewrite u64_add_small; unfold is_u64; lia.
Qed.

Lemma gate_reap fuel n : forall bound l l' r, gate_inv n l -> 0 <= n < u64_max ->
  reap fuel bound l = Some (l', r) -> gate_inv n l'.
Proof.
  induction fuel as [|fuel IH]; intros bound l l' r Hg Hn; cbn [reap].
  { destruct (_ <=? _); [by intros [= <- <-]|done]. }
  destruct (_ <=? _); [by intros [= <- <-]|].
  pose proof (gate_await n l Hg Hn) as Ha. destruct (await_in_flight l) as [l1 [[]|e]]; cbn in Ha.
  - pose proof (gate_spawn n l1 Ha Hn) as Hs. destruct (spawn_next l1) as [l2 [[]|e]]; cbn in Hs.
    + by apply IH.
    + by intros [= <- <-].
  - by intros [= <- <-].
Qed.

Lemma gate_submit n sp u l l' r : gate_inv n l -> 0 <= n < u64_max ->
  submit_job sp u l = Some (l', r) -> gate_inv n l'.
Proof.
  intros Hg Hn. unfold submit_job. set (l0 := l <| queue := _ |>).
  assert (gate_inv n l0) as H0 by exact Hg.
  pose proof (gate_spawn n l0 H0 Hn) as Hs. destruct (spawn_next l0) as [l2 [[]|e]]; cbn in Hs.
  - by apply gate_reap.
  - by intros [= <- <-].
Qed.

Lemma gate_events evs n : forall l l' r, gate_inv n l -> 0 <= n < u64_max ->
  run_events evs l = Some (l', r) -> gate_inv n l'.
Proof.
  induction evs as [|[sp u| |] evs IH]; intros l l' r Hg Hn; cbn [run_events].
  - by intros [= <- <-].
  - destruct (submit_job sp u l) as [[l1 r1]|] eqn:E; [|done].
    apply (gate_submit n) in E; [|done..]. destruct r1; [by apply IH|by intros [= <- <-]].
  - destruct (drain l) as [[l1 r1]|] eqn:E; [|done].
    apply (gate_reap _ n) in E; [|done..]. destruct r1; [by apply IH|by intros [= <- <-]].
  - apply IH; [|done]. unfold run_task. destruct (in_flight l) as [t|] eqn:E; [|done].
    pose proof (gate_join n t l Hg Hn E) as Hj. destruct (join t l) as [l1 r1]. cbn in *.
    unfold gate_inv, is_running. cbn. intros p Hp. rewrite (Hj p Hp). lia.
Qed.

(** The whole range, closed by the barrier. *)
Lemma run_range_serial d s evs :
  exists l, run_range evs (open s d) = Some (l, (serial (submitted evs) s).2) /\
            l.(store) = (serial (submitted evs) s).1 /\ idle l.
Proof.
  destruct (run_events_spec evs (open s d) s []) as (l1 & r1 & E & Hr);
    [done|simpl; lia|done|]. unfold run_range. rewrite E. destruct r1 as [[]|e].
  - destruct Hr as (Ho & Hw & _). destruct (drain_spec l1 Hw) as (l2 & r2 & -> & _ & Hd & Hi & _).
    rewrite app_nil_l in Ho. rewrite <-Ho, Hd. exists l2. destruct r2 as [[]|e]; done.
  - destruct Hr as [Hs Hi]. rewrite (drain_idle l1 Hi). simpl in Hs. rewrite Hs.
    exists l1. done.
Qed.
End Ops.

(** ** Properties *)

(** C11: The write-behind lane refines the serial committer: at any depth, under any schedule of
    submissions, barriers and background completions, a range of scan units ends, closed by the
    barrier that every exit runs, and it leaves exactly the wallet file and the result that writing
    the units one after the other up to the first failure would leave. *)
Theorem lane_refines_serial_commits {U S} (commit : U -> S -> Outcome S) d s evs :
  exists l, run_range commit evs (open s d) =
              Some (l, (serial commit (submitted evs) s).2) /\
            l.(store) = (serial commit (submitted evs) s).1 /\ idle l.
Proof. apply run_range_serial. Qed.

(** C30: The lane bounds what is unwritten and keeps the writer gate honest: as long as no error was
    reported, at most [depth] units (at least one) wait after any schedule, and the number of
    wallet writers the host's stop waits on is one above its base exactly while a commit runs. *)
Theorem lane_bounded_and_gated {U S} (commit : U -> S -> Outcome S) d s p evs l r :
  p.(wallet_writers) < u64_max -> 0 <= p.(wallet_writers) ->
  run_events commit evs (attach_writer_gate p (open s d)) = Some (l, r) ->
  (r = Ok tt -> pending_count l <= Z.max d 1) /\
  (forall p', l.(lane_progress) = Some p' ->
     p'.(wallet_writers) = p.(wallet_writers) + (if is_running l then 1 else 0)).
Proof.
  intros Hp1 Hp2 E.
  destruct (run_events_spec commit evs (attach_writer_gate p (open s d)) s []) as (l1 & r1 & E1 & Hr);
    [done|simpl; lia|done|].
  rewrite E in E1. injection E1 as <- <-. split.
  - intros ->. destruct Hr as (_ & _ & Hr). simpl in Hr. unfold pending_count in Hr at 2. simpl in Hr. lia.
  - eapply (gate_events commit evs p.(wallet_writers)); [|lia|done]. intros p0. simpl. intros [= <-].
    simpl. lia.
Qed.

(** A commit that appends its unit to the file, and fails on unit 2. *)
Definition sample_commit (u : Z) (s : list Z) : Outcome (list Z) :=
  if u =? 2 then mkOutcome s (CommitErr "disk full") 7 else mkOutcome (s ++ [u]) CommitOk 7.
Definition sample_events : list (Event (U := Z)) :=
  [ESubmit (10, 19) 1; ESubmit (20, 29) 2; EFinish; ESubmit (30, 39) 3].

Lemma lane_bounded_and_gated_witness :
  let l := attach_writer_gate progress_default (open [] 4) in
  match run_events sample_commit sample_events l with
  | Some (l', r) => r = Ok tt /\ pending_count l' <= 4 /\ is_running l' = false
  | None => False
  end.
Proof.
  cbv zeta. destruct (run_events sample_commit sample_events _) as [[l' r]|] eqn:E; [|vm_compute in E; discriminate E].
  destruct (lane_bounded_and_gated sample_commit 4 [] progress_default sample_events l' r) as [H1 _];
    [reflexivity|vm_compute; discriminate|exact E|].
  assert (r = Ok tt) as Hr by (vm_compute in E; injection E as _ <-; reflexivity).
  split; [exact Hr|]. split; [exact (H1 Hr)|]. vm_compute in E. injection E as <- _. reflexivity.
Defined.

(** With room for more than one unit, a failed commit does not stop the next submission:
    unit 3 is taken after unit 2 has failed, and the error comes with the barrier, which
    drops unit 3 unwritten. *)
Example deep_lane_reports_at_the_barrier :
  (snd <$> run_events sample_commit
             [ESubmit (10, 19) 1; EFinish; ESubmit (20, 29) 2; EDrain] (open [] 4)) =
    Some (Err (Wallet "write-behind deferred put_blocks [20..=29]: disk full")) /\
  (snd <$> run_events sample_commit [ESubmit (20, 29) 2; EFinish; ESubmit (30, 39) 3] (open [] 2)) = Some (Ok tt) /\
  option_map (fun x => (x.1.(store), x.2))
    (run_range sample_commit [ESubmit (20, 29) 2; EFinish; ESubmit (30, 39) 3] (open [] 2)) =
    Some ([], Err (Wallet "write-behind deferred put_blocks [20..=29]: disk full")).
Proof. split_and!; vm_compute; reflexivity. Qed.

End PersistLane.
