(* ===== verification/WriteBehind.v ===== *)
(** * The write-behind facade: [WriteBehindFacade] of [core/src/persist.rs]

    While a commit is deferred the scan must not read the wallet file.  The facade
    answers the reads of a scan call from views seeded once per range and rolled
    forward with every unit the scan hands over, and stashes the unit for the lane.
    Accounts, nullifiers, outpoints, receivers, keys, block metadata and chain states
    are abstract types; the wallet database is the interface [WalletDb], whose laws are
    what a committed block does to each of these reads. *)

From S2P Require Export PersistLane.

Module WriteBehind.

(** [enum NullifierQuery]. *)
Inductive NullifierQuery := Unspent | All.

(** [unvirtualized]. *)
Definition unvirtualized (name : string) : SqliteClientError :=
  CorruptedData ("write-behind facade: `" +:+ name +:+ "` is not part of the scan_cached_blocks read surface " +:+
    "(T6.9 recon) — refusing to serve a possibly-stale read while a commit is pending").

(** ** The calls outside the scan's surface

    The rest of the three traits the facade must implement: every one of these calls is
    refused, by name. *)

Inductive RefusedRead :=
| R_get_account_ids | R_get_account | R_get_derived_account | R_validate_seed
| R_seed_relevance_to_derived_accounts | R_get_account_for_ufvk | R_list_addresses
| R_find_account_for_address | R_get_last_generated_address_matching | R_get_account_birthday
| R_get_wallet_birthday | R_get_wallet_recover_until | R_get_wallet_summary | R_chain_height
| R_get_block_hash | R_block_fully_scanned | R_get_max_height_hash | R_block_max_scanned
| R_suggest_scan_ranges | R_get_target_and_anchor_heights | R_get_tx_height | R_get_memo
| R_get_transaction | R_get_transparent_receivers | R_get_ephemeral_transparent_receivers
| R_get_transparent_balances | R_get_transparent_address_metadata | R_utxo_query_height
| R_transaction_data_requests | R_get_received_outputs.

Definition read_name (m : RefusedRead) : string :=
  match m with
  | R_get_account_ids => "get_account_ids"
  | R_get_account => "get_account"
  | R_get_derived_account => "get_derived_account"
  | R_validate_seed => "validate_seed"
  | R_seed_relevance_to_derived_accounts => "seed_relevance_to_derived_accounts"
  | R_get_account_for_ufvk => "get_account_for_ufvk"
  | R_list_addresses => "list_addresses"
  | R_find_account_for_address => "find_account_for_address"
  | R_get_last_generated_address_matching => "get_last_generated_address_matching"
  | R_get_account_birthday => "get_account_birthday"
  | R_get_wallet_birthday => "get_wallet_birthday"
  | R_get_wallet_recover_until => "get_wallet_recover_until"
  | R_get_wallet_summary => "get_wallet_summary"
  | R_chain_height => "chain_height"
  | R_get_block_hash => "get_block_hash"
  | R_block_fully_scanned => "block_fully_scanned"
  | R_get_max_height_hash => "get_max_height_hash"
  | R_block_max_scanned => "block_max_scanned"
  | R_suggest_scan_ranges => "suggest_scan_ranges"
  | R_get_target_and_anchor_heights => "get_target_and_anchor_heights"
  | R_get_tx_height => "get_tx_height"
  | R_get_memo => "get_memo"
  | R_get_transaction => "get_transaction"
  | R_get_transparent_receivers => "get_transparent_receivers"
  | R_get_ephemeral_transparent_receivers => "get_ephemeral_transparent_receivers"
  | R_get_transparent_balances => "get_transparent_balances"
  | R_get_transparent_address_metadata => "get_transparent_address_metadata"
  | R_utxo_query_height => "utxo_query_height"
  | R_transaction_data_requests => "transaction_data_requests"
  | R_get_received_outputs => "get_received_outputs"
  end.

Inductive RefusedLock :=
| L_lock_outputs | L_unlock_output | L_clear_locked_outputs | L_get_locked_outputs.

Definition lock_name (m : RefusedLock) : string :=
  match m with
  | L_lock_outputs => "lock_outputs"
  | L_unlock_output => "unlock_output"
  | L_clear_locked_outputs => "clear_locked_outputs"
  | L_get_locked_outputs => "get_locked_outputs"
  end.

Inductive RefusedWrite :=
| W_create_account | W_import_account_hd | W_import_account_ufvk | W_delete_account
| W_set_account_name | W_get_next_available_address | W_get_address_for_index | W_update_chain_tip
| W_prune_scan_queue_below | W_queue_rescan | W_put_received_transparent_utxo
| W_store_decrypted_tx | W_set_tx_trust | W_store_transactions_to_be_sent | W_truncate_to_height
| W_truncate_to_chain_state | W_rewind_to_chain_state | W_reserve_next_n_ephemeral_addresses
| W_set_transaction_status | W_schedule_next_check | W_mark_transparent_addresses_exposed
| W_notify_address_checked.

Definition write_name (m : RefusedWrite) : string :=
  match m with
  | W_create_account => "create_account"
  | W_import_account_hd => "import_account_hd"
  | W_import_account_ufvk => "import_account_ufvk"
  | W_delete_account => "delete_account"
  | W_set_account_name => "set_account_name"
  | W_get_next_available_address => "get_next_available_address"
  | W_get_address_for_index => "get_address_for_index"
  | W_update_chain_tip => "update_chain_tip"
  | W_prune_scan_queue_below => "prune_scan_queue_below"
  | W_queue_rescan => "queue_rescan"
  | W_put_received_transparent_utxo => "put_received_transparent_utxo"
  | W_store_decrypted_tx => "store_decrypted_tx"
  | W_set_tx_trust => "set_tx_trust"
  | W_store_transactions_to_be_sent => "store_transactions_to_be_sent"
  | W_truncate_to_height => "truncate_to_height"
  | W_truncate_to_chain_state => "truncate_to_chain_state"
  | W_rewind_to_chain_state => "rewind_to_chain_state"
  | W_reserve_next_n_ephemeral_addresses => "reserve_next_n_ephemeral_addresses"
  | W_set_transaction_status => "set_transaction_status"
  | W_schedule_next_check => "schedule_next_check"
  | W_mark_transparent_addresses_exposed => "mark_transparent_addresses_exposed"
  | W_notify_address_checked => "notify_address_checked"
  end.

(** What a refused call answers. *)
Definition refuse_read {A} (m : RefusedRead) : result SqliteClientError A := Err (unvirtualized (read_name m)).
Definition refuse_lock {A} (m : RefusedLock) : result SqliteClientError A := Err (unvirtualized (lock_name m)).
Definition refuse_write {A} (m : RefusedWrite) : result SqliteClientError A := Err (unvirtualized (write_name m)).

(** ** One block's deltas *)

(** [apply_nullifier_delta]: drop the spent, then append the found. *)
Definition apply_nullifier_delta {A Nf} `{EqDecision Nf} (set : list (A * Nf)) (spent : list Nf)
    (found : list (A * Nf)) : list (A * Nf) :=
  filter (fun x => x.2 ∉ spent) set ++ found.

(** [apply_outpoint_delta]: remove the spent, then insert the found, in order. *)
Definition apply_outpoint_delta {K A} `{Countable K} (set : gmap K A) (spent : list K)
    (found : list (K * A)) : gmap K A :=
  foldl (fun m kv => <[kv.1 := kv.2]> m) (foldl (fun m k => delete k m) set spent) found.

Section Facade.
Context {A Nfs Nfo K Addr Meta CS : Type} {Keys : Type}.
Context `{EqDecision Nfs} `{EqDecision Nfo} `{Countable K}.

(** A scanned transaction: spends by nullifier or outpoint, outputs with their account
    and, where known, their nullifier. *)
Record WalletTx := mkWalletTx {
  sapling_spends : list Nfs;
  sapling_outputs : list (A * option Nfs);
  orchard_spends : list Nfo;
  orchard_outputs : list (A * option Nfo);
  ironwood_spends : list Nfo;
  ironwood_outputs : list (A * option Nfo);
  transparent_spends : list K;
  transparent_outputs : list (K * option A);
}.

(** [ScannedBlock], as far as the facade reads it. *)
Record ScannedBlock := mkScannedBlock {
  sb_height : Z;
  to_block_metadata : Meta;
  transactions : list WalletTx;
}.

(** [struct PendingPersist]. *)
Record PendingPersist := mkPending {
  from_state : CS;
  blocks : list ScannedBlock;
  first_height : Z;
  last_height : Z;
}.

(** [struct WriteBehindFacade]. *)
Record Facade := mkFacade {
  ufvks : Keys;
  prior_meta_height : Z;
  prior_meta : option Meta;
  sapling_nfs : list (A * Nfs);
  orchard_nfs : list (A * Nfo);
  ironwood_nfs : list (A * Nfo);
  transparent_outpoints : gmap K A;
  transparent_receivers : Addr;
  stash : option PendingPersist;
}.

#[export] Instance eta_Facade : Eta Facade := fun f =>
  mkFacade f.(ufvks) f.(prior_meta_height) f.(prior_meta) f.(sapling_nfs) f.(orchard_nfs)
    f.(ironwood_nfs) f.(transparent_outpoints) f.(transparent_receivers) f.(stash).

(** The outputs whose nullifier is known. *)
Definition known {Nf} (outs : list (A * option Nf)) : list (A * Nf) :=
  omap (fun o => pair o.1 <$> o.2) outs.

Definition sap_spent (b : ScannedBlock) : list Nfs := mjoin (sapling_spends <$> b.(transactions)).
Definition sap_found (b : ScannedBlock) : list (A * Nfs) := mjoin ((fun tx => known tx.(sapling_outputs)) <$> b.(transactions)).
Definition orch_spent (b : ScannedBlock) : list Nfo := mjoin (orchard_spends <$> b.(transactions)).
Definition orch_found (b : ScannedBlock) : list (A * Nfo) := mjoin ((fun tx => known tx.(orchard_outputs)) <$> b.(transactions)).
Definition iw_spent (b : ScannedBlock) : list Nfo := mjoin (ironwood_spends <$> b.(transactions)).
Definition iw_found (b : ScannedBlock) : list (A * Nfo) := mjoin ((fun tx => known tx.(ironwood_outputs)) <$> b.(transactions)).
Definition t_spent (b : ScannedBlock) : list K := mjoin (transparent_spends <$> b.(transactions)).
Definition t_found (b : ScannedBlock) : list (K * A) :=
  mjoin ((fun tx => omap (fun o => pair o.1 <$> o.2) tx.(transparent_outputs)) <$> b.(transactions)).

(** The body of [put_blocks]' loop. *)
Definition advance (f : Facade) (b : ScannedBlock) : Facade :=
  f <| sapling_nfs := apply_nullifier_delta f.(sapling_nfs) (sap_spent b) (sap_found b) |>
    <| orchard_nfs := apply_nullifier_delta f.(orchard_nfs) (orch_spent b) (orch_found b) |>
    <| ironwood_nfs := apply_nullifier_delta f.(ironwood_nfs) (iw_spent b) (iw_found b) |>
    <| transparent_outpoints := apply_outpoint_delta f.(transparent_outpoints) (t_spent b) (t_found b) |>.

(** [put_blocks]: the intercept. *)
Definition put_blocks (fs : CS) (bs : list ScannedBlock) (f : Facade) : Facade * result SqliteClientError unit :=
  match f.(stash) with
  | Some _ => (f, Err (CorruptedData
      "write-behind facade: put_blocks with an occupied stash — depth-1 invariant violated"))
  | None =>
    match head bs, last bs with
    | Some first, Some lst =>
      let f1 := f <| prior_meta_height := lst.(sb_height) |> <| prior_meta := Some lst.(to_block_metadata) |> in
      let f2 := foldl advance f1 bs in
      (f2 <| stash := Some (mkPending fs bs first.(sb_height) lst.(sb_height)) |>, Ok tt)
    | _, _ => (f, Ok tt)
    end
  end.

(** [take_stash]. *)
Definition take_stash (f : Facade) : Facade * option PendingPersist := (f <| stash := None |>, f.(stash)).

(** The virtualised reads. *)
Definition get_unified_full_viewing_keys (f : Facade) : result SqliteClientError Keys := Ok f.(ufvks).
Definition block_metadata (height : Z) (f : Facade) : result SqliteClientError (option Meta) :=
  if height =? f.(prior_meta_height) then Ok f.(prior_meta)
  else Err (CorruptedData ("write-behind facade: block_metadata(" +:+ pretty height +:+
              ") outside the virtualized tail (expected " +:+ pretty f.(prior_meta_height) +:+ ")")).
Definition get_sapling_nullifiers (q : NullifierQuery) (f : Facade) : result SqliteClientError (list (A * Nfs)) :=
  match q with Unspent => Ok f.(sapling_nfs) | All => Err (unvirtualized "get_sapling_nullifiers(All)") end.
Definition get_orchard_nullifiers (q : NullifierQuery) (f : Facade) : result SqliteClientError (list (A * Nfo)) :=
  match q with Unspent => Ok f.(orchard_nfs) | All => Err (unvirtualized "get_orchard_nullifiers(All)") end.
Definition get_ironwood_nullifiers (q : NullifierQuery) (f : Facade) : result SqliteClientError (list (A * Nfo)) :=
  match q with Unspent => Ok f.(ironwood_nfs) | All => Err (unvirtualized "get_ironwood_nullifiers(All)") end.
Definition get_unspent_transparent_outpoints (f : Facade) : result SqliteClientError (gmap K A) :=
  Ok f.(transparent_outpoints).
Definition get_transparent_receiver_accounts (f : Facade) : result SqliteClientError Addr :=
  Ok f.(transparent_receivers).

(** ** The wallet database *)

(** The reads of a wallet database, each of which may fail. *)
Class WalletReads (DB : Type) := mkReads {
  db_ufvks : DB -> result SqliteClientError Keys;
  db_metadata : DB -> Z -> result SqliteClientError (option Meta);
  db_sapling : DB -> result SqliteClientError (list (A * Nfs));
  db_orchard : DB -> result SqliteClientError (list (A * Nfo));
  db_ironwood : DB -> result SqliteClientError (list (A * Nfo));
  db_outpoints : DB -> result SqliteClientError (gmap K A);
  db_receivers : DB -> result SqliteClientError Addr;
}.

Section Db.
Context {DB : Type} `{R : !WalletReads DB}.

(** [WriteBehindFacade::seed]. *)
Definition seed (db : DB) (range_start : Z) : result SqliteClientError Facade :=
  match (if 1 <=? range_start then u32_try_from (range_start - 1) else None) with
  | None => Err (CorruptedData ("write-behind facade: invalid range_start " +:+ pretty range_start))
  | Some h =>
    let? k := db_ufvks db in
    let? m := db_metadata db h in
    let? s := db_sapling db in
    let? o := db_orchard db in
    let? i := db_ironwood db in
    let? t := db_outpoints db in
    let? r := db_receivers db in
    Ok (mkFacade k h m s o i t r None)
  end.

(** [reseed_nullifiers]; a failing read leaves the views read before it replaced. *)
Definition reseed_nullifiers (db : DB) (f : Facade) : Facade * result SqliteClientError unit :=
  match f.(stash) with
  | Some _ => (f, Err (CorruptedData "write-behind facade: reseed_nullifiers with an occupied stash"))
  | None =>
    match db_sapling db with
    | Err e => (f, Err e)
    | Ok s =>
      let f := f <| sapling_nfs := s |> in
      match db_orchard db with
      | Err e => (f, Err e)
      | Ok o =>
        let f := f <| orchard_nfs := o |> in
        match db_ironwood db with
        | Err e => (f, Err e)
        | Ok i =>
          let f := f <| ironwood_nfs := i |> in
          match db_outpoints db with
          | Err e => (f, Err e)
          | Ok t =>
            let f := f <| transparent_outpoints := t |> in
            match db_receivers db with
            | Err e => (f, Err e)
            | Ok r => (f <| transparent_receivers := r |>, Ok tt)
            end
          end
        end
      end
    end
  end.

(** The spends a wallet already has on record when it commits a block: of a nullifier of each
    pool, and of an outpoint.  In a recent-first scan the spend of a note can be recorded, from a
    later block, before the block that received the note is committed. *)
Class SpendRecords := mkRecords {
  sap_recorded : DB -> ScannedBlock -> Nfs -> bool;
  orch_recorded : DB -> ScannedBlock -> Nfo -> bool;
  iw_recorded : DB -> ScannedBlock -> Nfo -> bool;
  out_recorded : DB -> ScannedBlock -> K -> bool;
}.
Context `{!SpendRecords}.

(** What committing one scanned block does to the reads, where they succeed: the laws of
    the wallet library's [put_blocks].  The unspent nullifiers lose those the block spends
    and gain those it finds, as a set, but for a found note whose spend is already on record;
    likewise the outpoints; the block gets its row and the other rows and the keys stay. *)
Class WalletDb (commit_block : ScannedBlock -> DB -> DB) : Prop := {
  law_ufvks b db : db_ufvks (commit_block b db) = db_ufvks db;
  law_metadata b db : db_metadata (commit_block b db) b.(sb_height) = Ok (Some b.(to_block_metadata));
  law_sapling b db s : db_sapling db = Ok s -> exists s', db_sapling (commit_block b db) = Ok s' /\
    forall x, x ∈ s' <-> x ∈ s /\ x.2 ∉ sap_spent b \/ x ∈ sap_found b /\ sap_recorded db b x.2 = false;
  law_orchard b db s : db_orchard db = Ok s -> exists s', db_orchard (commit_block b db) = Ok s' /\
    forall x, x ∈ s' <-> x ∈ s /\ x.2 ∉ orch_spent b \/ x ∈ orch_found b /\ orch_recorded db b x.2 = false;
  law_ironwood b db s : db_ironwood db = Ok s -> exists s', db_ironwood (commit_block b db) = Ok s' /\
    forall x, x ∈ s' <-> x ∈ s /\ x.2 ∉ iw_spent b \/ x ∈ iw_found b /\ iw_recorded db b x.2 = false;
  law_outpoints b db m : db_outpoints db = Ok m -> exists m', db_outpoints (commit_block b db) = Ok m' /\
    forall k, m' !! k = match snd <$> last (filter (fun kv => kv.1 = k) (t_found b)) with
                        | Some a => if out_recorded db b k then None else Some a
                        | None => if bool_decide (k ∈ t_spent b) then None else m !! k
                        end;
}.

(** Two sets of nullifiers listed in any order. *)
Definition same_set {X} (l1 l2 : list X) : Prop := forall x, x ∈ l1 <-> x ∈ l2.

#[export] Instance same_set_equiv {X} : Equivalence (@same_set X).
Proof. split; unfold same_set; [done|firstorder|]. intros l1 l2 l3 H1 H2 x. by rewrite H1. Qed.

(** [view] lists all of [set], and else only elements of [late]. *)
Definition upto {X} (late : X -> Prop) (view set : list X) : Prop :=
  set ⊆ view /\ forall x, x ∈ view -> x ∈ set \/ late x.

(** What a view may list beyond the database: notes and outpoints by pool. *)
Record Late := mkLate {
  late_sap : A * Nfs -> Prop; late_orch : A * Nfo -> Prop; late_iw : A * Nfo -> Prop; late_out : K -> Prop;
}.
Definition no_late : Late := mkLate (fun _ => False) (fun _ => False) (fun _ => False) (fun _ => False).

(** The facade shows the database [db], as a scan call with [from_height] after the
    facade's tail would read it, up to the notes and outpoints in [late]. *)
Record shows (late : Late) (f : Facade) (db : DB) : Prop := {
  sh_ufvks : get_unified_full_viewing_keys f = db_ufvks db;
  sh_metadata : block_metadata f.(prior_meta_height) f = db_metadata db f.(prior_meta_height);
  sh_sapling : exists s, db_sapling db = Ok s /\ upto late.(late_sap) f.(sapling_nfs) s;
  sh_orchard : exists s, db_orchard db = Ok s /\ upto late.(late_orch) f.(orchard_nfs) s;
  sh_ironwood : exists s, db_ironwood db = Ok s /\ upto late.(late_iw) f.(ironwood_nfs) s;
  sh_outpoints : exists m, db_outpoints db = Ok m /\ m ⊆ f.(transparent_outpoints) /\
    forall k, is_Some (f.(transparent_outpoints) !! k) -> is_Some (m !! k) \/ late.(late_out) k;
}.

Lemma upto_same {X} (view set : list X) : upto (fun _ => False) view set <-> same_set view set.
Proof. unfold upto, same_set. set_solver. Qed.

Lemma elem_of_nullifier_delta {Nf} `{EqDecision Nf} (set : list (A * Nf)) spent found x :
  x ∈ apply_nullifier_delta set spent found <-> x ∈ set /\ x.2 ∉ spent \/ x ∈ found.
Proof. unfold apply_nullifier_delta. rewrite elem_of_app, list_elem_of_filter. tauto. Qed.

Lemma delta_upto {Nf} `{EqDecision Nf} late (recorded : Nf -> bool) (view s s' : list (A * Nf)) spent found :
  upto late view s ->
  (forall x, x ∈ s' <-> x ∈ s /\ x.2 ∉ spent \/ x ∈ found /\ recorded x.2 = false) ->
  upto (fun x => late x \/ x ∈ found /\ recorded x.2 = true) (apply_nullifier_delta view spent found) s'.
Proof.
  intros [H1 H2] Hs. split.
  - intros x. rewrite elem_of_nullifier_delta, Hs. set_solver.
  - intros x. rewrite elem_of_nullifier_delta, Hs. destruct (recorded x.2); naive_solver.
Qed.

Lemma lookup_outpoint_delta (m : gmap K A) spent found k :
  apply_outpoint_delta m spent found !! k =
  match snd <$> last (filter (fun kv => kv.1 = k) found) with
  | Some a => Some a
  | None => if bool_decide (k ∈ spent) then None else m !! k
  end.
Proof.
  unfold apply_outpoint_delta. induction found as [|[k' a] found IH] using rev_ind.
  - simpl. revert m. induction spent as [|k' spent IH]; intros m; simpl; [done|]. rewrite IH.
    case_bool_decide; case_bool_decide; set_solver || (try done).
    + destruct (decide (k = k')) as [->|]; [by rewrite lookup_delete_eq|set_solver].
    + by rewrite lookup_delete_ne by set_solver.
  - rewrite foldl_app, filter_app, filter_cons, filter_nil. simpl.
    destruct (decide (k' = k)) as [->|].
    + by rewrite lookup_insert_eq, last_app.
    + rewrite lookup_insert_ne by done. by rewrite app_nil_r.
Qed.

Context (commit_block : ScannedBlock -> DB -> DB) `{!WalletDb commit_block}.

Definition commit_blocks (bs : list ScannedBlock) (db : DB) : DB := foldl (fun d b => commit_block b d) db bs.

(** With the commit of [b], what the facade may list too much grows by what [b] finds whose
    spend is on record. *)
Definition late_by (late : Late) (db : DB) (b : ScannedBlock) : Late := mkLate
  (fun x => late.(late_sap) x \/ x ∈ sap_found b /\ sap_recorded db b x.2 = true)
  (fun x => late.(late_orch) x \/ x ∈ orch_found b /\ orch_recorded db b x.2 = true)
  (fun x => late.(late_iw) x \/ x ∈ iw_found b /\ iw_recorded db b x.2 = true)
  (fun k => late.(late_out) k \/ k ∈ (t_found b).*1 /\ out_recorded db b k = true).
Fixpoint late_after (late : Late) (bs : list ScannedBlock) (db : DB) : Late :=
  match bs with [] => late | b :: bs' => late_after (late_by late db b) bs' (commit_block b db) end.

(** A block handled on both sides keeps the pools and outpoints in step. *)
Lemma advance_shows late f db b : shows late f db ->
  shows (late_by late db b) ((advance f b) <| prior_meta_height := b.(sb_height) |> <| prior_meta := Some b.(to_block_metadata) |>)
        (commit_block b db).
Proof.
  intros [H1 H2 (s & Es & Hs) (o & Eo & Ho) (i & Ei & Hi) (m & Em & Hm & Hl)]. constructor; cbn.
  - rewrite law_ufvks. exact H1.
  - rewrite law_metadata. unfold block_metadata. cbn. by rewrite Z.eqb_refl.
  - destruct (law_sapling b db s) as (s' & E' & Hs'); [done|]. eauto using delta_upto.
  - destruct (law_orchard b db o) as (s' & E' & Hs'); [done|]. eauto using delta_upto.
  - destruct (law_ironwood b db i) as (s' & E' & Hs'); [done|]. eauto using delta_upto.
  - destruct (law_outpoints b db m Em) as (m' & -> & Hm'). exists m'. split; [done|]. split.
    + apply map_subseteq_spec. intros k a. rewrite Hm', lookup_outpoint_delta.
      destruct (snd <$> last _); [by case_match|]. case_bool_decide; [done|]. intros Hk. by eapply lookup_weaken.
    + intros k. rewrite Hm', lookup_outpoint_delta.
      destruct (last (filter _ (t_found b))) as [[k' a]|] eqn:El; simpl.
      * destruct (out_recorded db b k) eqn:Er; [|eauto]. intros _. right. right. split; [|done].
        apply last_Some_elem_of, list_elem_of_filter in El as [Hk Hin]. simpl in Hk. subst k'.
        apply list_elem_of_fmap. by exists (k, a).
      * case_bool_decide; [intros [? [=]]|]. intros Hf. destruct (Hl k Hf); auto.
Qed.

Lemma advance_meta f b h m : advance (f <| prior_meta_height := h |> <| prior_meta := m |>) b =
  (advance f b) <| prior_meta_height := h |> <| prior_meta := m |>.
Proof. done. Qed.

Lemma advances_show bs : forall late f db lst, shows late f db -> last bs = Some lst ->
  shows (late_after late bs db) (foldl advance (f <| prior_meta_height := lst.(sb_height) |> <| prior_meta := Some lst.(to_block_metadata) |>) bs)
        (commit_blocks bs db).
Proof.
  induction bs as [|b bs IH]; intros late f db lst Hf Hl; [done|]. cbn [foldl commit_blocks late_after].
  rewrite advance_meta. destruct bs as [|b' bs].
  - simpl in Hl. injection Hl as <-. by apply advance_shows.
  - specialize (IH _ _ _ lst (advance_shows _ _ _ b Hf)). apply IH. by rewrite last_cons_cons in Hl.
Qed.

Lemma shows_stash late f db p : shows late f db -> shows late (f <| stash := p |>) db.
Proof. intros []. by constructor. Qed.

(** [put_blocks] in step with the commit of its unit. *)
Lemma put_blocks_shows fs bs late f db f' : shows late f db -> put_blocks fs bs f = (f', Ok tt) ->
  shows (late_after late bs db) f' (commit_blocks bs db).
Proof.
  intros Hf. unfold put_blocks. destruct (stash f); [done|].
  destruct (head bs) as [first|] eqn:Eh, (last bs) as [lst|] eqn:El.
  - intros [= <-]. apply shows_stash. by apply advances_show.
  - destruct bs as [|b bs]; [done|]. by apply last_None in El.
  - by destruct bs.
  - intros [= <-]. by destruct bs.
Qed.

Lemma seed_shows db range_start f : seed db range_start = Ok f ->
  shows no_late f db /\ f.(prior_meta_height) = range_start - 1 /\ f.(stash) = None.
Proof.
  unfold seed. destruct (Z.leb_spec 1 range_start); [|done].
  unfold u32_try_from. destruct (_ <=? _); [|done].
  destruct (db_ufvks db) eqn:E1; [|done]. simpl.
  destruct (db_metadata db (range_start - 1)) eqn:E2; [|done]. simpl.
  destruct (db_sapling db) eqn:E3; [|done]. simpl.
  destruct (db_orchard db) eqn:E4; [|done]. simpl.
  destruct (db_ironwood db) eqn:E5; [|done]. simpl.
  destruct (db_outpoints db) eqn:E6; [|done]. simpl.
  destruct (db_receivers db); [|done]. simpl. intros [= <-].
  split; [|done]. constructor; cbn; rewrite ?E1, ?E2, ?E6; eauto.
  - unfold block_metadata. cbn. by rewrite Z.eqb_refl.
  - eexists. split; [done|]. by apply upto_same.
  - eexists. split; [done|]. by apply upto_same.
  - eexists. split; [done|]. by apply upto_same.
Qed.

(** Where nothing is on record first, nothing is listed too much. *)
Definition late_sub (l1 l2 : Late) : Prop :=
  (forall x, l1.(late_sap) x -> l2.(late_sap) x) /\ (forall x, l1.(late_orch) x -> l2.(late_orch) x) /\
  (forall x, l1.(late_iw) x -> l2.(late_iw) x) /\ (forall k, l1.(late_out) k -> l2.(late_out) k).

Lemma shows_weaken l1 l2 f db : late_sub l1 l2 -> shows l1 f db -> shows l2 f db.
Proof.
  intros (L1 & L2 & L3 & L4) [H1 H2 (s & ? & ?) (o & ? & ?) (i & ? & ?) (m & ? & ? & ?)].
  constructor; unfold upto in *; naive_solver.
Qed.

Definition none_recorded : Prop := forall b db,
  (forall n, sap_recorded db b n = false) /\ (forall n, orch_recorded db b n = false) /\
  (forall n, iw_recorded db b n = false) /\ (forall k, out_recorded db b k = false).

Lemma late_after_none bs : none_recorded -> forall late db, late_sub (late_after late bs db) late.
Proof.
  intros Hrec. induction bs as [|b bs IH]; intros late db; [done|]. cbn [late_after].
  destruct (IH (late_by late db b) (commit_block b db)) as (L1 & L2 & L3 & L4).
  destruct (Hrec b db) as (R1 & R2 & R3 & R4). unfold late_by in *. cbn in *.
  split_and!; [intros x [|[_ Hx]]%L1|intros x [|[_ Hx]]%L2|intros x [|[_ Hx]]%L3|intros x [|[_ Hx]]%L4]; congruence.
Qed.

(** ** A range of scan calls *)

(** The scan loop's use of the facade: hand a unit over, take it out for the lane. *)
Fixpoint scan_units (units : list (CS * list ScannedBlock)) (f : Facade)
  : Facade * list PendingPersist * result SqliteClientError unit :=
  match units with
  | [] => (f, [], Ok tt)
  | (fs, bs) :: units' =>
    match put_blocks fs bs f with
    | (f1, Err e) => (f1, [], Err e)
    | (f1, Ok _) =>
      let '(f2, p) := take_stash f1 in
      let '(f3, ps, r) := scan_units units' f2 in
      (f3, option_list p ++ ps, r)
    end
  end.

Lemma late_after_app bs bs' : forall late db,
  late_after late (bs ++ bs') db = late_after (late_after late bs db) bs' (commit_blocks bs db).
Proof. induction bs as [|b bs IH]; intros late db; [done|]. apply IH. Qed.

Lemma scan_units_spec units : forall late f db, shows late f db -> f.(stash) = None ->
  exists f' ps, scan_units units f = (f', ps, Ok tt) /\ f'.(stash) = None /\
    mjoin (blocks <$> ps) = mjoin (snd <$> units) /\
    shows (late_after late (mjoin (snd <$> units)) db) f' (commit_blocks (mjoin (snd <$> units)) db).
Proof.
  induction units as [|[fs bs] units IH]; intros late f db Hf Hs; cbn [scan_units].
  { exists f, []. done. }
  assert (exists f1, put_blocks fs bs f = (f1, Ok tt) /\ shows (late_after late bs db) f1 (commit_blocks bs db) /\
            mjoin (blocks <$> option_list f1.(stash)) = bs) as (f1 & -> & Hf1 & Hst).
  { destruct (put_blocks fs bs f) as [f1 r1] eqn:E. exists f1.
    assert (r1 = Ok tt) as ->.
    { unfold put_blocks in E. rewrite Hs in E. by repeat case_match; simplify_eq. }
    split; [done|]. split; [by eapply put_blocks_shows|].
    unfold put_blocks in E. rewrite Hs in E. destruct bs as [|b bs].
    - simpl in E. injection E as <-. by rewrite Hs.
    - destruct (last (b :: bs)) eqn:El; [|by apply last_None in El].
      cbn [head] in E. injection E as <-. cbn. by rewrite app_nil_r. }
  cbn. destruct (IH (late_after late bs db) (f1 <| stash := None |>) (commit_blocks bs db)) as (f' & ps & E & Hs' & Hps & Hsh);
    [by apply shows_stash|done|].
  cbn in E. rewrite E. exists f', (option_list f1.(stash) ++ ps). split; [done|]. split; [done|].
  split; [by rewrite fmap_app, join_app, Hst, Hps|].
  rewrite late_after_app. unfold commit_blocks in *. by rewrite foldl_app.
Qed.

(** ** The facade over the lane *)

(** A deferred commit of a unit: its blocks, in order. *)
Definition commit_unit (now : Z) (p : PendingPersist) (db : DB) : PersistLane.Outcome DB :=
  PersistLane.mkOutcome (commit_blocks p.(blocks) db) PersistLane.CommitOk now.

(** [PersistLane::submit]'s span. *)
Definition unit_span (p : PendingPersist) : Z * Z := (p.(first_height), p.(last_height)).

Lemma serial_commit_units now ps db :
  PersistLane.serial (commit_unit now) ((fun p => (unit_span p, p)) <$> ps) db =
  (commit_blocks (mjoin (blocks <$> ps)) db, Ok tt).
Proof.
  revert db. induction ps as [|p ps IH]; intros db; [done|]. cbn. cbn in IH. rewrite IH.
  unfold commit_blocks. by rewrite foldl_app.
Qed.
End Db.
End Facade.

(** ** Properties *)

(** C17: What the scan reads while commits are pending covers what it would read once they are written:
    seed the facade from a wallet database, let a range of scan calls hand their units over, and
    submit these to a lane of any depth under any schedule of completions.  Every unit is taken, none
    is lost or reordered, and the facade then answers the keys and the metadata of the last block
    exactly as the wallet file does after the barrier, whatever of it is still in flight now; it lists
    every unspent nullifier of the three pools and every unspent outpoint that file lists, and
    beyond those only notes and outpoints that a block of the range received and whose spend
    the wallet had on record when it committed that block (a recent-first scan can have recorded
    the spend from a later block).  Where no spend is on record first, the views are equal
    as sets. *)
Theorem facade_shows_pending_commits {A Nfs Nfo K Addr Meta CS Keys DB}
    `{EqDecision Nfs} `{EqDecision Nfo} `{Countable K} `{!WalletReads DB} `{!SpendRecords}
    (commit_block : ScannedBlock (A := A) (Nfs := Nfs) (Nfo := Nfo) (K := K) (Meta := Meta) -> DB -> DB)
    `{!WalletDb (Addr := Addr) (Keys := Keys) commit_block}
    (db : DB) range_start f (units : list (CS * list ScannedBlock)) depth now evs :
  seed db range_start = Ok f ->
  let '(f', ps, r) := scan_units units f in
  PersistLane.submitted evs = (fun p => (unit_span p, p)) <$> ps ->
  r = Ok tt /\ mjoin (blocks <$> ps) = mjoin (snd <$> units) /\
  exists l, PersistLane.run_range (commit_unit commit_block now) evs (PersistLane.open db depth) = Some (l, Ok tt) /\
    shows (late_after commit_block no_late (mjoin (snd <$> units)) db) f' l.(PersistLane.store) /\
    (none_recorded -> shows no_late f' l.(PersistLane.store)).
Proof.
  intros Hs. destruct (seed_shows _ _ _ Hs) as (Hsh & _ & Hst).
  destruct (scan_units_spec commit_block units _ f db Hsh Hst) as (f' & ps & E & _ & Hps & Hsh').
  rewrite E. intros Hev. split; [done|]. split; [done|].
  destruct (PersistLane.run_range_serial (commit_unit commit_block now) depth db evs) as (l & Hl & Hst' & _).
  rewrite Hev, serial_commit_units in Hl, Hst'. exists l. split; [done|]. rewrite Hst', Hps. split; [exact Hsh'|].
  intros Hrec. exact (shows_weaken _ _ _ _ (late_after_none commit_block _ Hrec _ _) Hsh').
Qed.

(** A database of note rows with a spent flag and the nullifiers on record, to instantiate the
    laws: a found note whose nullifier is on record is entered as spent. *)
Record Rows := mkRows {
  row_meta : gmap Z Z;
  row_sap : list (Z * Z * bool);
  row_orch : list (Z * Z * bool);
  row_iw : list (Z * Z * bool);
  row_out : gmap Z Z;
  row_nm : list Z;
}.
Definition unspent_rows (rows : list (Z * Z * bool)) : list (Z * Z) := (filter (fun r => r.2 = false) rows).*1.
Definition put_rows (nm spent : list Z) (found : list (Z * Z)) (rows : list (Z * Z * bool)) : list (Z * Z * bool) :=
  ((fun r => (r.1, r.2 || bool_decide (r.1.2 ∈ spent))) <$> rows) ++ ((fun x => (x, bool_decide (x.2 ∈ nm))) <$> found).

#[export] Instance rows_reads : WalletReads (A := Z) (Nfs := Z) (Nfo := Z) (K := Z) (Addr := unit) (Meta := Z)
    (Keys := unit) Rows :=
  mkReads _ (fun _ => Ok tt) (fun db h => Ok (db.(row_meta) !! h)) (fun db => Ok (unspent_rows db.(row_sap)))
    (fun db => Ok (unspent_rows db.(row_orch))) (fun db => Ok (unspent_rows db.(row_iw)))
    (fun db => Ok db.(row_out)) (fun _ => Ok tt).
#[export] Instance rows_records : SpendRecords (A := Z) (Nfs := Z) (Nfo := Z) (K := Z) (Meta := Z) (DB := Rows) :=
  mkRecords (fun db _ n => bool_decide (n ∈ db.(row_nm))) (fun db _ n => bool_decide (n ∈ db.(row_nm)))
    (fun db _ n => bool_decide (n ∈ db.(row_nm))) (fun _ _ _ => false).

Definition put_block_rows (b : ScannedBlock (A := Z) (Nfs := Z) (Nfo := Z) (K := Z) (Meta := Z)) (db : Rows) : Rows :=
  let nm := db.(row_nm) in
  mkRows (<[b.(sb_height) := b.(to_block_metadata)]> db.(row_meta))
    (put_rows nm (sap_spent b) (sap_found b) db.(row_sap)) (put_rows nm (orch_spent b) (orch_found b) db.(row_orch))
    (put_rows nm (iw_spent b) (iw_found b) db.(row_iw)) (apply_outpoint_delta db.(row_out) (t_spent b) (t_found b)) nm.

Lemma elem_of_unspent_put nm spent found rows x :
  x ∈ unspent_rows (put_rows nm spent found rows) <->
  x ∈ unspent_rows rows /\ x.2 ∉ spent \/ x ∈ found /\ bool_decide (x.2 ∈ nm) = false.
Proof.
  unfold unspent_rows, put_rows. rewrite filter_app, fmap_app, elem_of_app, !list_elem_of_fmap.
  setoid_rewrite list_elem_of_filter. setoid_rewrite list_elem_of_fmap. split.
  - intros [([y fl] & -> & Hf & ([z fl'] & [= -> ->] & Hz))|([y fl] & -> & Hf & (z & [= -> ->] & Hz))].
    + left. simpl in *. apply orb_false_iff in Hf as [-> Hf]. breflect. split; [|done]. by exists (z, false).
    + by right.
  - intros [[([y fl] & -> & Hf & Hy) Hn]|[Hx Hnm]].
    + left. simpl in *. subst fl. exists (y, false). simpl. split; [done|]. split; [done|]. exists (y, false).
      simpl. by rewrite bool_decide_eq_false_2.
    + right. exists (x, false). simpl. split_and!; [done|done|]. exists x. by rewrite Hnm.
Qed.

#[export] Instance rows_db : WalletDb put_block_rows.
Proof.
  split; try done.
  - intros b db. simpl. by rewrite lookup_insert_eq.
  - intros b db s [= <-]. eexists. split; [done|]. apply elem_of_unspent_put.
  - intros b db s [= <-]. eexists. split; [done|]. apply elem_of_unspent_put.
  - intros b db s [= <-]. eexists. split; [done|]. apply elem_of_unspent_put.
  - intros b db m [= <-]. eexists. split; [done|]. intros k. apply lookup_outpoint_delta.
Qed.

(** A note found in the first unit is spent in the second, both still in flight; another found
    note's spend is on record, from a later block scanned before. *)
Definition sample_units : list (Z * list (ScannedBlock (A := Z) (Nfs := Z) (Nfo := Z) (K := Z) (Meta := Z))) :=
  [(99, [mkScannedBlock 100 1000 [mkWalletTx [] [(1, Some 7); (1, None)] [] [] [] [] [] [(5, Some 1)]]]);
   (100, [mkScannedBlock 101 1010 [mkWalletTx [7] [(1, Some 8); (1, Some 9)] [] [] [] [] [5] []]])].
Definition sample_db : Rows := mkRows {[99 := 990]} [(2, 3, false); (2, 4, true)] [] [] ∅ [9].

Lemma facade_shows_pending_commits_witness :
  match seed sample_db 100 with
  | Ok f =>
    let '(f', ps, r) := scan_units sample_units f in
    f'.(sapling_nfs) = [(2, 3); (1, 8); (1, 9)] /\ r = Ok tt /\
    exists l, PersistLane.run_range (commit_unit put_block_rows 0)
        ((fun p => PersistLane.ESubmit (unit_span p) p) <$> ps) (PersistLane.open sample_db 2) = Some (l, Ok tt) /\
      shows (late_after put_block_rows no_late (mjoin (snd <$> sample_units)) sample_db) f' l.(PersistLane.store)
  | Err _ => False
  end.
Proof.
  destruct (seed sample_db 100) as [f|] eqn:Es; [|vm_compute in Es; discriminate Es].
  pose proof (facade_shows_pending_commits put_block_rows sample_db 100 f sample_units 2 0) as H.
  destruct (scan_units sample_units f) as [[f' ps] r] eqn:E.
  destruct (H ((fun p => PersistLane.ESubmit (unit_span p) p) <$> ps) Es) as (Hr & _ & l & Hl & Hsh & _).
  { vm_compute in Es. injection Es as <-. vm_compute in E. injection E as _ <- _. reflexivity. }
  split; [|split; [exact Hr|exists l; split; [exact Hl|exact Hsh]]].
  vm_compute in Es. injection Es as <-. vm_compute in E. injection E as <- _ _. reflexivity.
Defined.

(** The facade lists the note whose spend is on record as unspent; the file, once the blocks are
    written, does not. *)
Example facade_lists_recorded_spend :
  (exists f, seed sample_db 100 = Ok f /\ (1, 9) ∈ (scan_units sample_units f).1.1.(sapling_nfs)) /\
  db_sapling (commit_blocks put_block_rows (mjoin (snd <$> sample_units)) sample_db) = Ok [(2, 3); (1, 8)].
Proof.
  split; [|vm_compute; reflexivity]. eexists. split; [reflexivity|].
  apply (bool_decide_unpack _). vm_compute. exact I.
Qed.

(** An occupied stash refuses the next unit and changes nothing. *)
Lemma put_blocks_occupied {A Nfs Nfo K Addr Meta CS Keys} `{EqDecision Nfs} `{EqDecision Nfo} `{Countable K}
    (fs : CS) bs (f : Facade (A := A) (Nfs := Nfs) (Nfo := Nfo) (K := K) (Addr := Addr) (Meta := Meta) (Keys := Keys)) :
  is_Some f.(stash) -> (put_blocks fs bs f).1 = f /\ is_ok (put_blocks fs bs f).2 = false.
Proof. intros [p Hp]. unfold put_blocks. by rewrite Hp. Qed.

End WriteBehind.
