(* ===== verification/Blocks.v ===== *)
(** * Blocks: [core/src/verify.rs], [core/src/chunk.rs], [core/src/block_source.rs]

    Compact blocks, the hash-chain continuity check between them, the transport
    chunk, the byte-budgeted queue that carries chunks from the fetch to the
    scan, and the block source that serves one chunk to the scan kernel.

    [CompactBlock] is a protobuf type of another crate: the record has the fields
    the engine reads.  Its wire size ([prost::Message::encoded_len]) is the
    section variable [encoded_len], known only to be non-negative. *)

From Stdlib Require Export Strings.Byte.
From S2P Require Export Progress.

#[export] Instance byte_eq_dec : EqDecision Byte.byte := Byte.byte_eq_dec.
Abbreviation bytes := (list Byte.byte).

(** The protobuf messages, reduced to the fields the engine reads. *)
Record CompactTx := mkCompactTx { outputs : list bytes; actions : list bytes }.
Record CompactBlock := mkCompactBlock {
  height : Z;
  hash : bytes;
  prev_hash : bytes;
  vtx : list CompactTx;
}.

(** ** [verify.rs]: hash-chain continuity *)
Module Verify.

(** [struct Continuity]. *)
Record Continuity := mkContinuity { last_hash : option bytes; last_height : option Z }.

(** [Continuity::default]. *)
Definition continuity_default : Continuity := mkContinuity None None.

(** The body of the loop of [Continuity::verify_blocks]. *)
Definition verify_block (c : Continuity) (b : CompactBlock) : Res Continuity :=
  match u32_try_from b.(height) with
  | None => Err MisbehavingServer
  | Some height_u32 =>
    let next := mkContinuity (Some b.(hash)) (Some b.(height)) in
    let check_hash :=
      match c.(last_hash) with
      | Some prev =>
        if bool_decide (b.(prev_hash) <> []) && bool_decide (b.(prev_hash) <> prev)
        then Err (Discontinuity height_u32 "prev-hash mismatch")
        else Ok next
      | None => Ok next
      end in
    match c.(last_height) with
    | Some h =>
      if negb (b.(height) =? u64_add h 1)
      then Err (Discontinuity height_u32
             ("expected height " +:+ pretty (u64_add h 1) +:+ ", got " +:+ pretty b.(height)))
      else check_hash
    | None => check_hash
    end
  end.

(** [Continuity::verify_blocks]: the state advances block by block, also when a
    later block fails. *)
Fixpoint verify_blocks (c : Continuity) (bs : list CompactBlock) : Continuity * Res unit :=
  match bs with
  | [] => (c, Ok tt)
  | b :: bs' =>
    match verify_block c b with
    | Err e => (c, Err e)
    | Ok c' => verify_blocks c' bs'
    end
  end.

(** *** What it promises *)

(** [b] may follow the frontier [c]. *)
Definition follows (c : Continuity) (b : CompactBlock) : Prop :=
  b.(height) <= u32_max /\
  (forall h, c.(last_height) = Some h -> b.(height) = h + 1) /\
  (forall p, c.(last_hash) = Some p -> b.(prev_hash) = [] \/ b.(prev_hash) = p).

Fixpoint linked (c : Continuity) (bs : list CompactBlock) : Prop :=
  match bs with
  | [] => True
  | b :: bs' => follows c b /\ linked (mkContinuity (Some b.(hash)) (Some b.(height))) bs'
  end.

(** The frontier after a run of blocks. *)
Definition frontier_of (c : Continuity) (bs : list CompactBlock) : Continuity :=
  match last bs with
  | Some b => mkContinuity (Some b.(hash)) (Some b.(height))
  | None => c
  end.

(** Heights are unsigned; the frontier only ever holds a verified height. *)
Definition block_ok (b : CompactBlock) : Prop := 0 <= b.(height) <= u64_max.
Definition continuity_ok (c : Continuity) : Prop :=
  forall h, c.(last_height) = Some h -> 0 <= h <= u32_max.

Lemma default_ok : continuity_ok continuity_default.
Proof. by intros h. Qed.

Lemma next_ok b : block_ok b -> b.(height) <= u32_max ->
  continuity_ok (mkContinuity (Some b.(hash)) (Some b.(height))).
Proof. unfold block_ok. intros ? ? h [= <-]. lia. Qed.
#[export] Hint Resolve default_ok next_ok : slip.

Lemma verify_block_spec c b : continuity_ok c -> block_ok b ->
  (follows c b /\ verify_block c b = Ok (mkContinuity (Some b.(hash)) (Some b.(height)))) \/
  (~ follows c b /\ exists e, verify_block c b = Err e /\ is_transient e = false).
Proof.
  intros Hc Hb. unfold verify_block, u32_try_from, follows.
  destruct (Z.leb_spec b.(height) u32_max) as [Hle|Hgt]; [|right; split; [lia|eauto]].
  assert (forall h, c.(last_height) = Some h -> u64_add h 1 = h + 1) as Hadd.
  { intros h Hh. apply u64_add_small. specialize (Hc h Hh). unfold is_u64, u32_max, u64_max in *. lia. }
  assert (forall p, c.(last_hash) = Some p ->
    bool_decide (b.(prev_hash) <> []) && bool_decide (b.(prev_hash) <> p) = false <->
    b.(prev_hash) = [] \/ b.(prev_hash) = p) as Hp.
  { intros p _. rewrite andb_false_iff, !bool_decide_eq_false.
    destruct (decide (b.(prev_hash) = [])), (decide (b.(prev_hash) = p)); naive_solver. }
  destruct c.(last_height) as [h|]; [rewrite (Hadd h eq_refl)|];
    [destruct (Z.eqb_spec b.(height) (h + 1)); simpl; [|right; naive_solver]|];
    (destruct c.(last_hash) as [p|]; [|left; split; [split; [done|split; intros; naive_solver]|done]]);
    specialize (Hp p eq_refl); (case_match; [right|left]); naive_solver.
Qed.

(** The check accepts exactly the linked runs, and then the frontier is the
    last block's. *)
Lemma verify_blocks_spec c bs : continuity_ok c -> Forall block_ok bs ->
  (linked c bs /\ verify_blocks c bs = (frontier_of c bs, Ok tt)) \/
  (~ linked c bs /\ exists c' e, verify_blocks c bs = (c', Err e) /\ is_transient e = false).
Proof.
  intros Hc Hbs. revert c Hc. induction Hbs as [|b bs Hb Hbs IH]; intros c Hc; simpl; [by left|].
  destruct (verify_block_spec c b Hc Hb) as [[Hf ->]|[Hf (e & -> & He)]]; [|right; naive_solver].
  destruct (IH (mkContinuity (Some b.(hash)) (Some b.(height)))) as [[Hl ->]|[Hl (c' & e & -> & He)]].
  - apply next_ok; [done|]. apply Hf.
  - left. split; [done|]. unfold frontier_of. destruct bs; [done|]. rewrite last_cons_cons.
    by destruct (last _) eqn:E; [|apply last_None in E].
  - right. naive_solver.
Qed.

(** The only errors the check raises. *)
Lemma verify_blocks_error bs : forall c c' e, verify_blocks c bs = (c', Err e) ->
  e = MisbehavingServer \/ exists a d, e = Discontinuity a d.
Proof.
  induction bs as [|b bs IH]; intros c c' e; simpl; [done|].
  destruct (verify_block c b) as [c1|e1] eqn:E; [by apply IH|]. intros [= _ <-]. revert E.
  unfold verify_block. repeat case_match; intros [= <-]; eauto.
Qed.

Lemma linked_app c xs ys : linked c (xs ++ ys) <-> linked c xs /\ linked (frontier_of c xs) ys.
Proof.
  revert c. induction xs as [|x xs IH]; intros c; simpl; [by intuition|].
  rewrite IH. unfold frontier_of.
  destruct xs as [|y xs]; [simpl; tauto|]. rewrite !last_cons_cons.
  destruct (last (y :: xs)) eqn:E; [tauto|]. by apply last_None in E.
Qed.

Lemma frontier_of_app c xs ys : frontier_of c (xs ++ ys) = frontier_of (frontier_of c xs) ys.
Proof.
  unfold frontier_of. rewrite last_app. destruct (last ys); [done|]. by destruct (last xs).
Qed.

Lemma frontier_ok c xs : continuity_ok c -> Forall block_ok xs -> linked c xs ->
  continuity_ok (frontier_of c xs).
Proof.
  revert c. induction xs as [|x xs IH]; intros c Hc Hxs Hl; [done|].
  apply Forall_cons in Hxs as [Hx Hxs]. destruct Hl as [[Hle _] Hl].
  specialize (IH _ (next_ok x Hx Hle) Hxs Hl). revert IH. unfold frontier_of.
  rewrite last_cons. by destruct (last xs).
Qed.
#[export] Hint Resolve frontier_ok : slip.

(** Linked blocks have consecutive heights. *)
Lemma linked_heights c bs h0 : linked c bs ->
  (forall b, head bs = Some b -> b.(height) = h0) ->
  height <$> bs = seqZ h0 (Z.of_nat (length bs)).
Proof.
  revert c h0. induction bs as [|b bs IH]; intros c h0 Hl Hhd; [done|].
  destruct Hl as [_ Hl]. rewrite fmap_cons. simpl length.
  rewrite Nat2Z.inj_succ, seqZ_cons by lia. rewrite Z.pred_succ.
  rewrite (Hhd b eq_refl). f_equal. apply (IH _ (Z.succ h0) Hl).
  destruct bs as [|b' bs]; [done|]. intros ? [= <-]. destruct Hl as [(_ & Hh & _) _].
  rewrite (Hh b.(height) eq_refl), (Hhd b eq_refl). lia.
Qed.

(** C33: The continuity check accepts a run of blocks exactly when its heights are consecutive from
    the frontier, fit in 32 bits and every non-empty previous hash is the hash before it; it
    then moves the frontier to the last block, and any refusal is an error the engine does not
    retry. *)
Theorem verify_blocks_iff_linked c bs : continuity_ok c -> Forall block_ok bs ->
  (linked c bs <-> (verify_blocks c bs).2 = Ok tt) /\
  (linked c bs -> (verify_blocks c bs).1 = frontier_of c bs) /\
  (forall e, (verify_blocks c bs).2 = Err e -> is_transient e = false).
Proof.
  intros Hc Hbs. destruct (verify_blocks_spec c bs Hc Hbs)
    as [[Hl ->]|[Hl (c' & e & -> & He)]]; naive_solver.
Qed.

Definition sample_block (h : Z) (prev own : Byte.byte) : CompactBlock :=
  mkCompactBlock h [own] [prev] [].

Lemma verify_blocks_iff_linked_witness :
  (linked continuity_default [sample_block 7 x01 x02; sample_block 8 x02 x03] <->
   (verify_blocks continuity_default [sample_block 7 x01 x02; sample_block 8 x02 x03]).2 = Ok tt) /\
  (verify_blocks continuity_default [sample_block 7 x01 x02; sample_block 8 x02 x03]).2 = Ok tt.
Proof.
  split; [|reflexivity].
  apply (verify_blocks_iff_linked continuity_default
    [sample_block 7 x01 x02; sample_block 8 x02 x03]).
  - apply default_ok.
  - repeat constructor; vm_compute; discriminate.
Defined.

End Verify.

(** ** [chunk.rs]: the transport chunk and its byte-budgeted queue *)
Module ChunkQueue.

(** [struct Chunk]. *)
Record Chunk := mkChunk {
  index : Z;
  blocks : list CompactBlock;
  estimated_bytes : Z;
  chunk_outputs : Z;
}.

Definition sumZ (l : list Z) : Z := foldr Z.add 0 l.

Lemma sumZ_app a b : sumZ (a ++ b) = sumZ a + sumZ b.
Proof. induction a; simpl; lia. Qed.

Lemma sumZ_nonneg l : Forall (Z.le 0) l -> 0 <= sumZ l.
Proof. induction 1; simpl; lia. Qed.

(** [Semaphore::MAX_PERMITS] ([usize::MAX >> 3]); [Semaphore::new] panics above it. *)
Definition MAX_PERMITS : Z := Z.shiftr usize_max 3.

Section WithEncoding.
Context (encoded_len : CompactBlock -> Z).

(** [Chunk::from_blocks]. *)
Definition from_blocks (index : Z) (bs : list CompactBlock) : Chunk :=
  mkChunk index bs (sumZ (encoded_len <$> bs))
    (sumZ ((fun tx => Z.of_nat (length tx.(outputs) + length tx.(actions)))
             <$> (bs ≫= vtx))).
End WithEncoding.

Definition start_height (c : Chunk) : option Z := height <$> head c.(blocks).
Definition end_height (c : Chunk) : option Z := height <$> last c.(blocks).

(** The two ends of the queue as one state: free permits, queued chunks with the
    permits they hold, permits held by the consumer, and whether the receiver
    still exists. *)
Record Queue := mkQueue {
  budget_bytes : Z;
  available : Z;
  queued : list (Chunk * Z);
  held : list Z;
  rx_open : bool;
}.

(** [chunk_queue]; [None] is the panic of [Semaphore::new]. *)
Definition chunk_queue (budget : Z) : option Queue :=
  let b := Z.max budget 1 in
  if b <=? MAX_PERMITS then Some (mkQueue b b [] [] true) else None.

(** The permits [ChunkQueueSender::send] acquires for a chunk. *)
Definition need (q : Queue) (c : Chunk) : Z :=
  default u32_max (u32_try_from (Z.max (Z.min c.(estimated_bytes) q.(budget_bytes)) 1)).

(** The end height [ChunkQueueSender::send] hands to an installed boundary
    fetcher, before it waits for the budget. *)
Definition boundary_request (fetcher_installed : bool) (c : Chunk) : option Z :=
  if fetcher_installed then end_height c else None.

Inductive Label :=
| LSend (c : Chunk)              (* [send] admitted and enqueued [c] *)
| LSendStopped (c : Chunk)       (* [send] returned [Err(Stopped)] *)
| LRecv (c : Chunk)              (* [recv] returned [c] *)
| LRelease (n : Z)               (* the consumer dropped a [ChunkPermit] *)
| LRxDrop.                       (* the receiver was dropped *)

(** One step of the queue.  A [send] whose permits are not free is not a step:
    the sender waits. *)
Inductive queue_step : Queue -> Label -> Queue -> Prop :=
| step_send q c :
    need q c <= q.(available) -> q.(rx_open) = true ->
    queue_step q (LSend c)
      (mkQueue q.(budget_bytes) (q.(available) - need q c)
         (q.(queued) ++ [(c, need q c)]) q.(held) true)
| step_send_stopped q c :
    need q c <= q.(available) -> q.(rx_open) = false ->
    queue_step q (LSendStopped c) q
| step_recv q c n rest :
    q.(queued) = (c, n) :: rest -> q.(rx_open) = true ->
    queue_step q (LRecv c)
      (mkQueue q.(budget_bytes) q.(available) rest (n :: q.(held)) true)
| step_release q n l1 l2 :
    q.(held) = l1 ++ n :: l2 ->
    queue_step q (LRelease n)
      (mkQueue q.(budget_bytes) (q.(available) + n) q.(queued) (l1 ++ l2) q.(rx_open))
| step_rx_drop q :
    q.(rx_open) = true ->
    queue_step q LRxDrop
      (mkQueue q.(budget_bytes) (q.(available) + sumZ q.(queued).*2) [] q.(held) false).

Inductive queue_steps : Queue -> list Label -> Queue -> Prop :=
| steps_refl q : queue_steps q [] q
| steps_snoc q tr q1 l q2 : queue_steps q tr q1 -> queue_step q1 l q2 -> queue_steps q (tr ++ [l]) q2.

(** *** Invariant *)

Definition in_flight (q : Queue) : Z := sumZ q.(queued).*2 + sumZ q.(held).

Definition queue_inv (q : Queue) : Prop :=
  1 <= q.(budget_bytes) /\
  q.(available) + in_flight q = q.(budget_bytes) /\
  0 <= q.(available) /\
  Forall (fun cn => cn.2 = need q cn.1) q.(queued) /\
  Forall (Z.le 1) q.(held) /\
  (q.(rx_open) = false -> q.(queued) = []).

Lemma need_bounds q c : 1 <= q.(budget_bytes) -> 1 <= need q c <= q.(budget_bytes).
Proof.
  intros Hb. unfold need, u32_try_from.
  destruct (Z.leb_spec (Z.max (Z.min c.(estimated_bytes) q.(budget_bytes)) 1) u32_max);
    simpl; unfold u32_max in *; lia.
Qed.

Lemma need_same_budget q q' c : q.(budget_bytes) = q'.(budget_bytes) -> need q c = need q' c.
Proof. intros E. unfold need. by rewrite E. Qed.

Lemma queue_inv_init b q : chunk_queue b = Some q -> queue_inv q.
Proof.
  unfold chunk_queue. case_match; [|done]. intros [= <-].
  unfold queue_inv, in_flight. simpl. repeat split; auto; lia.
Qed.

Lemma queue_step_inv q l q' : queue_step q l q' -> queue_inv q -> queue_inv q'.
Proof.
  intros Hs (Hb & Hsum & Hav & Hq & Hh & Hrx). unfold in_flight in *.
  destruct Hs as [q c Hn Ho|q c Hn Ho|q c n rest Hqe Ho|q n l1 l2 Hhe|q Ho];
    unfold queue_inv, in_flight; simpl.
  - pose proof (need_bounds q c Hb). rewrite fmap_app, sumZ_app. simpl.
    repeat split; auto; try lia; try done. apply Forall_app. split; [|by repeat constructor].
    eapply Forall_impl; [exact Hq|done].
  - repeat split; auto.
  - rewrite Hqe in *. csimpl in *. apply Forall_cons in Hq as [Hn Hq].
    repeat split; auto; try lia; try done. constructor; [|done]. simpl in Hn. rewrite Hn.
    by apply need_bounds.
  - rewrite Hhe in *. apply Forall_app in Hh as [H1 H2]. apply Forall_cons in H2 as [Hn H2].
    rewrite sumZ_app in *. simpl in *.
    repeat split; auto; try lia. apply Forall_app; auto.
  - assert (0 <= sumZ q.(queued).*2).
    { apply sumZ_nonneg, Forall_fmap. eapply Forall_impl; [exact Hq|]. intros [c n] E. simpl in *.
      pose proof (need_bounds q c Hb). lia. }
    repeat split; auto; lia.
Qed.

Lemma queue_steps_inv q tr q' : queue_steps q tr q' -> queue_inv q -> queue_inv q'.
Proof. induction 1; eauto using queue_step_inv. Qed.
#[export] Hint Resolve queue_inv_init queue_steps_inv : slip.

Lemma queue_steps_budget q tr q' : queue_steps q tr q' -> q'.(budget_bytes) = q.(budget_bytes).
Proof. induction 1 as [|q tr q1 l q2 _ IH Hs]; [done|]. by rewrite <-IH; destruct Hs. Qed.

Definition sent_of (tr : list Label) : list Chunk :=
  omap (fun l => match l with LSend c => Some c | _ => None end) tr.
Definition received_of (tr : list Label) : list Chunk :=
  omap (fun l => match l with LRecv c => Some c | _ => None end) tr.

(** Chunks leave in the order they were sent; a dropped receiver loses only the
    chunks still queued. *)
Lemma queue_steps_fifo q tr q' : queue_steps q tr q' -> q.(queued) = [] ->
  exists lost, sent_of tr = received_of tr ++ q'.(queued).*1 ++ lost /\
    (q'.(rx_open) = true -> lost = []).
Proof.
  induction 1 as [q|q tr q1 l q2 _ IH Hs]; intros Hq; [exists []; by rewrite Hq|].
  destruct (IH Hq) as (lost & E & Hl). unfold sent_of, received_of in *. rewrite !omap_app, E.
  destruct Hs as [q1 c Hn Ho|q1 c Hn Ho|q1 c n rest Hqe Ho|q1 n l1 l2 Hhe|q1 Ho]; simpl;
    rewrite ?app_nil_r; try (rewrite (Hl Ho)).
  - exists []. by rewrite !app_nil_r, fmap_app, <-app_assoc.
  - by exists lost.
  - exists []. rewrite Hqe. simpl. by rewrite !app_nil_r, <-app_assoc.
  - by exists lost.
  - exists q1.(queued).*1. by rewrite app_nil_r.
Qed.

(** Backpressure: in every reachable state of the queue the permits in flight (queued plus
    held by the consumer) never exceed the byte budget, and they cover every queued chunk's
    bytes up to the budget and the 32-bit permit cap. *)
Theorem chunk_queue_budget_bound budget q0 tr q :
  chunk_queue budget = Some q0 -> queue_steps q0 tr q ->
  in_flight q <= Z.max budget 1 /\
  Forall (fun cn => Z.min (Z.min cn.1.(estimated_bytes) (Z.max budget 1)) u32_max <= cn.2) q.(queued).
Proof.
  intros H0 Hs. pose proof (queue_steps_budget _ _ _ Hs) as Hb.
  assert (q0.(budget_bytes) = Z.max budget 1) as Hb0.
  { unfold chunk_queue in H0. case_match; by simplify_eq/=. }
  destruct (queue_steps_inv _ _ _ Hs (queue_inv_init _ _ H0)) as (H1 & Hsum & Hav & Hq & _).
  split; [lia|]. eapply Forall_impl; [exact Hq|]. intros [c n] E. simpl in *. rewrite E. unfold need, u32_try_from.
  rewrite Hb, Hb0. case_match; breflect; simpl; lia.
Qed.

Definition sample_chunk (n : Z) : Chunk := mkChunk 0 [] n 0.

Definition sample_labels : list Label := ([] ++ [LSend (sample_chunk 4)]) ++ [LRecv (sample_chunk 4)].
Definition sample_q0 : Queue := mkQueue 10 10 [] [] true.
Definition sample_q : Queue := mkQueue 10 6 [] [4] true.

Lemma sample_trace : queue_steps sample_q0 sample_labels sample_q.
Proof.
  eapply steps_snoc; [eapply steps_snoc; [apply steps_refl|]|].
  - apply step_send; [vm_compute; discriminate|reflexivity].
  - refine (step_recv _ (sample_chunk 4) 4 [] _ _); reflexivity.
Qed.

Example chunk_queue_budget_bound_instance : in_flight sample_q <= Z.max 10 1 /\ in_flight sample_q = 4.
Proof.
  split; [|reflexivity].
  apply (chunk_queue_budget_bound 10 sample_q0 sample_labels sample_q eq_refl sample_trace).
Qed.

(** C38: No deadlock and no reordering: once the consumer has released everything, any chunk,
    however large, is admitted at once; and while the receiver lives the chunks received so
    far followed by the chunks queued are exactly the chunks sent, in order. *)
Theorem chunk_queue_live_and_fifo budget q0 tr q :
  chunk_queue budget = Some q0 -> queue_steps q0 tr q -> q.(rx_open) = true ->
  (q.(queued) = [] -> q.(held) = [] -> forall c, exists q', queue_step q (LSend c) q') /\
  sent_of tr = received_of tr ++ q.(queued).*1.
Proof.
  intros H0 Hs Ho.
  destruct (queue_steps_inv _ _ _ Hs (queue_inv_init _ _ H0)) as (H1 & Hsum & Hav & Hq & _).
  split.
  - intros Eq Eh c. eexists. apply step_send; [|done].
    unfold in_flight in Hsum. rewrite Eq, Eh in Hsum. simpl in Hsum.
    pose proof (need_bounds q c H1). lia.
  - destruct (queue_steps_fifo _ _ _ Hs) as (lost & -> & Hl).
    + unfold chunk_queue in H0. case_match; by simplify_eq/=.
    + by rewrite (Hl Ho), app_nil_r.
Qed.

Lemma chunk_queue_live_and_fifo_witness :
  sent_of sample_labels = received_of sample_labels ++ sample_q.(queued).*1.
Proof.
  apply (chunk_queue_live_and_fifo 10 sample_q0 sample_labels sample_q eq_refl sample_trace).
  reflexivity.
Defined.

End ChunkQueue.

(** ** [block_source.rs]: serving one chunk to the scan kernel *)
Module BlockSource.

(** [ChainError<WalletErrT, StoppedForWalletChange>]: the block source's own
    error, or whatever error the callback returned. *)
Inductive ChainError (W : Type) : Type :=
| BlockSourceStopped
| CallbackError (w : W).
Arguments BlockSourceStopped {W}.
Arguments CallbackError {W} w.

Section Walk.
Context {St W : Type}.
(** The callback, as a state transformer that may fail. *)
Context (with_block : CompactBlock -> St -> St * result W unit).
(** What [Progress::stop_requested] reads before the [n]-th block handed out;
    [None] for a source without a stop. *)
Context (stop : option (nat -> bool)).

Definition stop_now (served : nat) : bool :=
  match stop with Some f => f served | None => false end.

Definition limit_reached (limit : option Z) (served : nat) : bool :=
  match limit with Some l => l <=? Z.of_nat served | None => false end.

(** The loop of [MemBlockSource::with_blocks]. *)
Fixpoint serve (from : Z) (limit : option Z) (served : nat) (bs : list CompactBlock) (st : St)
  : nat * St * result (ChainError W) unit :=
  match bs with
  | [] => (served, st, Ok tt)
  | b :: bs' =>
    if b.(height) <? from then serve from limit served bs' st
    else if limit_reached limit served then (served, st, Ok tt)
    else if stop_now served then (served, st, Err BlockSourceStopped)
    else
      match with_block b st with
      | (st', Ok _) => serve from limit (S served) bs' st'
      | (st', Err w) => (served, st', Err (CallbackError w))
      end
  end.

(** [BlockSource::with_blocks]. *)
Definition with_blocks (from_height : option Z) (limit : option Z) (c : ChunkQueue.Chunk) (st : St)
  : nat * St * result (ChainError W) unit :=
  serve (default 0 from_height) limit 0 c.(ChunkQueue.blocks) st.
End Walk.

(** The blocks a walk may hand out: those at or above [from], at most [limit]. *)
Definition eligible (from : Z) (limit : option Z) (bs : list CompactBlock) : list CompactBlock :=
  let l := filter (fun b => from <= b.(height)) bs in
  match limit with Some n => take (Z.to_nat n) l | None => l end.

(** A callback that records the blocks it is given and never fails. *)
Definition record_block (b : CompactBlock) (seen : list CompactBlock) : list CompactBlock * result Empty_set unit :=
  (seen ++ [b], Ok tt).

Lemma serve_record stop from limit served bs seen :
  (forall l, limit = Some l -> 0 <= l) ->
  exists n,
    let todo := match limit with
                | Some l => take (Z.to_nat l - served) (filter (fun b => from <= b.(height)) bs)
                | None => filter (fun b => from <= b.(height)) bs end in
    serve record_block stop from limit served bs seen =
      ((served + n)%nat, seen ++ take n todo,
       if (n <? length todo)%nat then Err BlockSourceStopped else Ok tt) /\
    (n <= length todo)%nat /\
    (forall k, (k < n)%nat -> stop_now stop (served + k) = false) /\
    ((n < length todo)%nat -> stop_now stop (served + n) = true).
Proof.
  intros Hlim. revert served seen. induction bs as [|b bs IH]; intros served seen; simpl.
  { exists 0%nat. destruct limit; rewrite filter_nil, ?take_nil; simpl;
      rewrite Nat.add_0_r, app_nil_r; repeat split; lia. }
  rewrite filter_cons. destruct (Z.ltb_spec b.(height) from).
  { rewrite decide_False by lia. apply IH. }
  rewrite decide_True by lia. destruct (limit_reached limit served) eqn:El.
  { exists 0%nat. destruct limit as [l|]; simpl in El; [|done]. breflect.
    replace (Z.to_nat l - served)%nat with 0%nat by lia. simpl.
    rewrite Nat.add_0_r, app_nil_r. repeat split; lia. }
  assert (forall (x : CompactBlock) l', match limit with
    | Some l => take (Z.to_nat l - served) (x :: l') | None => x :: l' end =
    x :: match limit with Some l => take (Z.to_nat l - S served) l' | None => l' end) as Ecut.
  { intros x l'. destruct limit as [l|]; simpl in El; [|done]. breflect.
    by replace (Z.to_nat l - served)%nat with (S (Z.to_nat l - S served)) by lia. }
  rewrite Ecut. destruct (stop_now stop served) eqn:Es.
  { exists 0%nat. simpl. rewrite Nat.add_0_r, app_nil_r. repeat split; [lia..|done]. }
  destruct (IH (S served) (seen ++ [b])) as (n & Hs & Hn & Hk & Hst). exists (S n).
  rewrite Hs. simpl. rewrite <-app_assoc. simpl. replace (S (served + n)) with (served + S n)%nat by lia.
  repeat split; [lia| |].
  - intros [|k] Hlt; [by rewrite Nat.add_0_r|]. replace (served + S k)%nat with (S served + k)%nat by lia.
    apply Hk. lia.
  - intros Hlt. replace (served + S n)%nat with (S served + n)%nat by lia. apply Hst. lia.
Qed.

(** A walk over a chunk hands out, in order, a prefix of the blocks at or above the start
    height (at most the limit): all of them when no stop is read, and exactly the blocks
    before the first stop reading otherwise, in which case it reports the stop. *)
Theorem with_blocks_serves_prefix stop from limit c :
  (forall l, limit = Some l -> 0 <= l) ->
  exists n,
    with_blocks record_block stop from limit c [] =
      (n, take n (eligible (default 0%Z from) limit c.(ChunkQueue.blocks)),
       if (n <? length (eligible (default 0%Z from) limit c.(ChunkQueue.blocks)))%nat
       then Err BlockSourceStopped else Ok tt) /\
    (forall k, (k < n)%nat -> stop_now stop k = false) /\
    ((n < length (eligible (default 0%Z from) limit c.(ChunkQueue.blocks)))%nat ->
       stop_now stop n = true).
Proof.
  intros Hlim. destruct (serve_record stop (default 0 from) limit 0 c.(ChunkQueue.blocks) [] Hlim)
    as (n & Hs & _ & Hk & Hst). exists n. unfold with_blocks, eligible.
  destruct limit; rewrite ?Nat.sub_0_r in *; simpl in *; repeat split; auto.
Qed.

Definition three_blocks : ChunkQueue.Chunk :=
  ChunkQueue.mkChunk 0 (Verify.sample_block 4 x00 x01 :: Verify.sample_block 5 x01 x02 ::
    [Verify.sample_block 6 x02 x03]) 30 0.

Example with_blocks_serves_prefix_instance : exists n,
  (with_blocks record_block (Some (fun k => (1 <=? k)%nat)) (Some 5) (Some 9) three_blocks []).1.1 = n /\
  n = 1%nat.
Proof.
  destruct (with_blocks_serves_prefix (Some (fun k => (1 <=? k)%nat)) (Some 5) (Some 9) three_blocks)
    as (n & Hw & _).
  - intros l [= <-]. lia.
  - exists n. split; [by rewrite Hw|]. by injection Hw.
Qed.

End BlockSource.
