(* ===== verification/Treestate.v ===== *)
(** * Local tree states: [core/src/treestate.rs]

    The boundary states of a range, derived from the scanned blocks instead of asked of
    the server.  The frontiers and the parsing of commitments belong to the tree and
    curve libraries: they are parameters, [append] answering [None] for a full tree. *)

From S2P Require Export Blocks.

Module Treestate.

(** [ChainState]: the state of the three trees after a block. *)
Record ChainState (Fs Fo Fi : Type) := mkChainState {
  block_height : Z;
  block_hash : bytes;
  final_sapling_tree : Fs;
  final_orchard_tree : Fo;
  final_ironwood_tree : Fi;
}.
Arguments mkChainState {Fs Fo Fi} _ _ _ _ _.
Arguments block_height {Fs Fo Fi} _.
Arguments block_hash {Fs Fo Fi} _.
Arguments final_sapling_tree {Fs Fo Fi} _.
Arguments final_orchard_tree {Fs Fo Fi} _.
Arguments final_ironwood_tree {Fs Fo Fi} _.

(** [struct LocalTreestate]. *)
Record LocalTreestate (Fs Fo : Type) := mkLocal { ts_sapling : Fs; ts_orchard : Fo }.
Arguments mkLocal {Fs Fo} _ _.
Arguments ts_sapling {Fs Fo} _.
Arguments ts_orchard {Fs Fo} _.

(** What the engine needs of the tree libraries: parse a commitment, append it. *)
Class Trees (Fs Fo Fi Ns No : Type) := mkTrees {
  cmu : bytes -> result string Ns;
  cmx : bytes -> result string No;
  append_sapling : Ns -> Fs -> option Fs;
  append_orchard : No -> Fo -> option Fo;
  empty_ironwood : Fi;
}.

Section Local.
Context `{T : Trees Fs Fo Fi Ns No}.

(** [LocalTreestate::seed]. *)
Definition seed (s : ChainState Fs Fo Fi) : LocalTreestate Fs Fo :=
  mkLocal s.(final_sapling_tree) s.(final_orchard_tree).

(** The loop over a transaction's outputs: parse, append. *)
Fixpoint absorb_outputs (h : Z) (outs : list bytes) (ts : LocalTreestate Fs Fo)
  : LocalTreestate Fs Fo * result string unit :=
  match outs with
  | [] => (ts, Ok tt)
  | o :: outs' =>
    match cmu o with
    | Err e => (ts, Err ("cmu parse at height " +:+ pretty h +:+ ": " +:+ e))
    | Ok n =>
      match append_sapling n ts.(ts_sapling) with
      | None => (ts, Err "sapling frontier full")
      | Some f => absorb_outputs h outs' (mkLocal f ts.(ts_orchard))
      end
    end
  end.

(** The loop over its actions. *)
Fixpoint absorb_actions (h : Z) (acts : list bytes) (ts : LocalTreestate Fs Fo)
  : LocalTreestate Fs Fo * result string unit :=
  match acts with
  | [] => (ts, Ok tt)
  | a :: acts' =>
    match cmx a with
    | Err e => (ts, Err ("cmx parse at height " +:+ pretty h +:+ ": " +:+ e))
    | Ok n =>
      match append_orchard n ts.(ts_orchard) with
      | None => (ts, Err "orchard frontier full")
      | Some f => absorb_actions h acts' (mkLocal ts.(ts_sapling) f)
      end
    end
  end.

Fixpoint absorb_txs (h : Z) (txs : list CompactTx) (ts : LocalTreestate Fs Fo)
  : LocalTreestate Fs Fo * result string unit :=
  match txs with
  | [] => (ts, Ok tt)
  | tx :: txs' =>
    match absorb_outputs h tx.(outputs) ts with
    | (ts1, Err e) => (ts1, Err e)
    | (ts1, Ok _) =>
      match absorb_actions h tx.(actions) ts1 with
      | (ts2, Err e) => (ts2, Err e)
      | (ts2, Ok _) => absorb_txs h txs' ts2
      end
    end
  end.

(** [LocalTreestate::absorb_block]. *)
Definition absorb_block (b : CompactBlock) (ts : LocalTreestate Fs Fo)
  : LocalTreestate Fs Fo * result string unit := absorb_txs b.(height) b.(vtx) ts.

(** [LocalTreestate::chain_state]: the Ironwood frontier is always the empty one. *)
Definition chain_state (h : Z) (hash : bytes) (ts : LocalTreestate Fs Fo) : ChainState Fs Fo Fi :=
  mkChainState h hash ts.(ts_sapling) ts.(ts_orchard) empty_ironwood.

(** ** Absorbing a block, in one line *)

(** Appends the commitments [cs] in order, [None] when one is malformed or the tree is full. *)
Definition append_all {N F} (parse : bytes -> result string N) (append : N -> F -> option F)
    (cs : list bytes) (f : F) : option F :=
  foldl (fun acc c => acc ≫= fun f => match parse c with Ok n => append n f | Err _ => None end) (Some f) cs.

Definition block_cmus (b : CompactBlock) : list bytes := b.(vtx) ≫= outputs.
Definition block_cmxs (b : CompactBlock) : list bytes := b.(vtx) ≫= actions.

Definition ok_state {X} (r : X * result string unit) : option X :=
  match r with (x, Ok _) => Some x | (_, Err _) => None end.

Lemma append_all_app {N F} (parse : bytes -> result string N) (append : N -> F -> option F) l1 l2 f :
  append_all parse append (l1 ++ l2) f = append_all parse append l1 f ≫= append_all parse append l2.
Proof.
  unfold append_all. rewrite foldl_app. destruct (foldl _ (Some f) l1) as [f'|]; [done|]. cbn.
  by induction l2.
Qed.

Lemma append_all_cons {N F} (parse : bytes -> result string N) (append : N -> F -> option F) c l f :
  append_all parse append (c :: l) f =
  match parse c with Ok n => append n f | Err _ => None end ≫= append_all parse append l.
Proof. apply (append_all_app parse append [c]). Qed.

Lemma absorb_outputs_spec h outs : forall ts, ok_state (absorb_outputs h outs ts) =
  (fun f => mkLocal f ts.(ts_orchard)) <$> append_all cmu append_sapling outs ts.(ts_sapling).
Proof.
  induction outs as [|o outs IH]; intros ts; [by destruct ts|]. rewrite append_all_cons. cbn [absorb_outputs].
  destruct (cmu o) as [n|]; [|done]. destruct (append_sapling n _); [|done]. apply IH.
Qed.

Lemma absorb_actions_spec h acts : forall ts, ok_state (absorb_actions h acts ts) =
  (fun f => mkLocal ts.(ts_sapling) f) <$> append_all cmx append_orchard acts ts.(ts_orchard).
Proof.
  induction acts as [|o acts IH]; intros ts; [by destruct ts|]. rewrite append_all_cons. cbn [absorb_actions].
  destruct (cmx o) as [n|]; [|done]. destruct (append_orchard n _); [|done]. apply IH.
Qed.

Lemma absorb_txs_spec h txs : forall ts, ok_state (absorb_txs h txs ts) =
  match append_all cmu append_sapling (txs ≫= outputs) ts.(ts_sapling),
        append_all cmx append_orchard (txs ≫= actions) ts.(ts_orchard) with
  | Some s, Some o => Some (mkLocal s o)
  | _, _ => None
  end.
Proof.
  induction txs as [|tx txs IH]; intros ts; [by destruct ts|].
  cbn [absorb_txs]. change ((tx :: txs) ≫= outputs) with (outputs tx ++ (txs ≫= outputs)).
  change ((tx :: txs) ≫= actions) with (actions tx ++ (txs ≫= actions)). rewrite !append_all_app.
  pose proof (absorb_outputs_spec h (outputs tx) ts) as Ho.
  destruct (absorb_outputs h (outputs tx) ts) as [ts1 [[]|e]]; cbn in Ho.
  2: { destruct (append_all cmu append_sapling (outputs tx) _); [done|]. by destruct (append_all cmx _ _ _ ≫= _). }
  destruct (append_all cmu append_sapling (outputs tx) _) as [s|]; [|done]. injection Ho as ->.
  pose proof (absorb_actions_spec h (actions tx) (mkLocal s ts.(ts_orchard))) as Ha.
  destruct (absorb_actions h (actions tx) _) as [ts2 [[]|e]]; cbn in Ha.
  2: { destruct (append_all cmx append_orchard (actions tx) _); [done|]. cbn. by destruct (append_all cmu _ _ s). }
  destruct (append_all cmx append_orchard (actions tx) _) as [o|]; [|done]. injection Ha as ->. apply IH.
Qed.

(** A block's commitments land in tree order: all its transactions' outputs in the
    Sapling frontier, all their actions in the Orchard one. *)
Lemma absorb_block_spec b ts : ok_state (absorb_block b ts) =
  match append_all cmu append_sapling (block_cmus b) ts.(ts_sapling),
        append_all cmx append_orchard (block_cmxs b) ts.(ts_orchard) with
  | Some s, Some o => Some (mkLocal s o)
  | _, _ => None
  end.
Proof. apply absorb_txs_spec. Qed.

(** ** A run of blocks *)

Fixpoint absorb_blocks (bs : list CompactBlock) (ts : LocalTreestate Fs Fo)
  : LocalTreestate Fs Fo * result string unit :=
  match bs with
  | [] => (ts, Ok tt)
  | b :: bs' =>
    match absorb_block b ts with
    | (ts1, Err e) => (ts1, Err e)
    | (ts1, Ok _) => absorb_blocks bs' ts1
    end
  end.

(** The tree states of a chain: what the server answers at each height.  Each block's
    Sapling and Orchard commitments extend the trees; the Ironwood tree is the chain's. *)
Definition chain_states (block_at : Z -> CompactBlock) (state_at : Z -> ChainState Fs Fo Fi) : Prop :=
  forall h, 0 <= h -> (state_at h).(block_height) = h /\ (state_at h).(block_hash) = (block_at h).(hash) /\
    append_all cmu append_sapling (block_cmus (block_at (h + 1))) (state_at h).(final_sapling_tree) =
      Some (state_at (h + 1)).(final_sapling_tree) /\
    append_all cmx append_orchard (block_cmxs (block_at (h + 1))) (state_at h).(final_orchard_tree) =
      Some (state_at (h + 1)).(final_orchard_tree).

Lemma absorb_chain block_at state_at n : chain_states block_at state_at -> forall h, 0 <= h ->
  absorb_blocks (block_at <$> seqZ (h + 1) (Z.of_nat n)) (seed (state_at h)) =
  (seed (state_at (h + Z.of_nat n)), Ok tt).
Proof.
  intros Hc. induction n as [|n IH]; intros h Hh; [by rewrite Z.add_0_r|].
  rewrite Nat2Z.inj_succ, seqZ_cons by lia. cbn [fmap list_fmap absorb_blocks].
  destruct (Hc h Hh) as (_ & _ & Hs & Ho).
  pose proof (absorb_block_spec (block_at (h + 1)) (seed (state_at h))) as Hb.
  cbn [ts_sapling ts_orchard seed] in Hb. rewrite Hs, Ho in Hb.
  destruct (absorb_block _ _) as [ts1 [[]|e]]; [|done]. injection Hb as ->.
  replace (Z.succ (h + 1)) with (h + 1 + 1) by lia. rewrite Z.pred_succ.
  change (mkLocal _ _) with (seed (state_at (h + 1))). rewrite IH by lia. do 3 f_equal. lia.
Qed.

End Local.

(** ** Properties *)

(** C29: Local tree states agree with the server exactly while the chain has no Ironwood notes: seeded
    with the chain's state at a height and fed the following blocks, the local frontiers give the
    chain's own state at the last of them if that state's Ironwood frontier is the empty one, and
    a state the boundary audit must reject otherwise, since the local state never tracks that pool. *)
Theorem local_state_matches_iff_no_ironwood `{Trees Fs Fo Fi Ns No} block_at state_at h n :
  chain_states block_at state_at -> 0 <= h ->
  let '(ts, r) := absorb_blocks (block_at <$> seqZ (h + 1) (Z.of_nat n)) (seed (state_at h)) in
  let b := h + Z.of_nat n in
  r = Ok tt /\
  (chain_state b (block_at b).(hash) ts = state_at b <-> (state_at b).(final_ironwood_tree) = empty_ironwood).
Proof.
  intros Hc Hh. rewrite (absorb_chain block_at state_at n Hc h Hh). split; [done|].
  destruct (Hc (h + Z.of_nat n) ltac:(lia)) as (H1 & H2 & _ & _).
  unfold chain_state, seed. destruct (state_at (h + Z.of_nat n)) as [bh hs fs fo fi]; cbn in *. subst.
  split; [by intros [= ->]|by intros ->].
Qed.

(** Frontiers that keep their leaves; the chain has an Ironwood note from block 12 on. *)
#[local] Instance leaf_trees : Trees (list bytes) (list bytes) Z bytes bytes :=
  mkTrees _ _ _ _ _ (fun b => Ok b) (fun b => Ok b)
    (fun n f => Some (f ++ [n])) (fun n f => Some (f ++ [n])) 0.
Definition leaf_block (h : Z) : CompactBlock := mkCompactBlock h [x01] [] [mkCompactTx [[x02]] []].
Definition leaf_state (h : Z) : ChainState (list bytes) (list bytes) Z :=
  mkChainState h [x01] (replicate (Z.to_nat h) [x02]) [] (if 12 <=? h then 1 else 0).

Lemma leaf_chain : chain_states leaf_block leaf_state.
Proof.
  intros h Hh. split_and!; try done. cbn. f_equal.
  replace (Z.to_nat (h + 1)) with (Z.to_nat h + 1)%nat by lia. by rewrite replicate_add.
Qed.

Lemma local_state_matches_iff_no_ironwood_witness :
  let ts := (absorb_blocks (leaf_block <$> seqZ 9 3) (seed (leaf_state 8))).1 in
  let ts' := (absorb_blocks (leaf_block <$> seqZ 9 4) (seed (leaf_state 8))).1 in
  chain_state 11 [x01] ts = leaf_state 11 /\ chain_state 12 [x01] ts' <> leaf_state 12.
Proof.
  cbv zeta. split.
  - pose proof (local_state_matches_iff_no_ironwood leaf_block leaf_state 8 3 leaf_chain ltac:(lia)) as H.
    change (Z.of_nat 3) with 3 in H. change (8 + 1) with 9 in H.
    destruct (absorb_blocks (leaf_block <$> seqZ 9 3) (seed (leaf_state 8))) as [ts r].
    destruct H as [_ H]. apply H. reflexivity.
  - pose proof (local_state_matches_iff_no_ironwood leaf_block leaf_state 8 4 leaf_chain ltac:(lia)) as H.
    change (Z.of_nat 4) with 4 in H. change (8 + 1) with 9 in H.
    destruct (absorb_blocks (leaf_block <$> seqZ 9 4) (seed (leaf_state 8))) as [ts r].
    destruct H as [_ H]. intros E. apply H in E. vm_compute in E. discriminate E.
Defined.

End Treestate.
