(* ===== verification/GraftAccumulator.v ===== *)
(** * The shard accumulator: [core/src/graft_accumulator.rs]

    A pure per-pool state machine.  Commitments stream in position order; every
    shard of [2 ^ 16] positions is buffered until an owned note appears in it
    (then it is built) or it closes without one (then it may be grafted).

    [H] is the commitment hash and [R] the retention marker of another crate: the
    accumulator only carries them.  Positions are [u64] tree positions; the
    commitment tree has at most [2 ^ 32] leaves, so no sum wraps. *)

From S2P Require Export Prelude.

Module GraftAccumulator.

Definition SHARD_BITS : Z := 16.
Definition shard_of (position : Z) : Z := Z.shiftr position SHARD_BITS.
(** [(shard + 1) << SHARD_BITS]. *)
Definition shard_end (shard : Z) : Z := Z.shiftl (shard + 1) SHARD_BITS.

Section Accumulator.
Context {H R : Type} `{!EqDecision H}.

(** [AccRow]: position, hash, retention. *)
Definition AccRow : Type := Z * H * R.
Definition pos (r : AccRow) : Z := r.1.1.
Definition row_hash (r : AccRow) : H := r.1.2.

(** [enum FeedAction]. *)
Inductive FeedAction :=
| Build (rows : list AccRow)
| CloseCleanShard (shard_index : Z) (rows : list AccRow)
| Buffer (rows : list AccRow).

(** [struct OpenShard]. *)
Record OpenShard := mkOpenShard { o_index : Z; o_rows : list AccRow; passthrough : bool }.

(** [struct ShardAccumulator]. *)
Record ShardAccumulator := mkAcc { next_position : Z; open : option OpenShard }.

(** *** [resumable_run] *)

(** [rows.truncate(rows.partition_point(..))]: the rows below [start] of an
    ascending list. *)
Fixpoint below (start : Z) (rows : list AccRow) : list AccRow :=
  match rows with
  | [] => []
  | r :: rows' => if pos r <? start then r :: below start rows' else []
  end.

(** Drops the rows before the last contiguous run: the [while] loop and the
    [drain] that follows it, walking from the front. *)
Fixpoint last_run (rows : list AccRow) : list AccRow :=
  match rows with
  | [] => []
  | r :: rows' =>
    let run := last_run rows' in
    match rows' with
    | [] => [r]
    | r' :: _ =>
      if bool_decide (length run = length rows') && (pos r + 1 =? pos r') then r :: run else run
    end
  end.

(** [resumable_run]. *)
Definition resumable_run (rows : list AccRow) (start_position : Z) (frontier_leaf : option (Z * H))
  : list AccRow * bool :=
  let total := length rows in
  let rows1 := below start_position rows in
  let ends_on_the_frontier :=
    match last rows1, frontier_leaf with
    | Some r, Some (leaf_position, leaf) =>
      (pos r + 1 =? start_position) && (pos r =? leaf_position) && bool_decide (row_hash r = leaf)
    | _, _ => false
    end in
  if negb ends_on_the_frontier then ([], (0 <? total)%nat)
  else let run := last_run rows1 in (run, (length run <? total)%nat).

(** *** The accumulator *)

(** [ShardAccumulator::seed]. *)
Definition seed (start_position : Z) (resume_rows : list AccRow) (store_has_internals : bool)
  : ShardAccumulator :=
  mkAcc start_position (Some (mkOpenShard (shard_of start_position) resume_rows store_has_internals)).

(** The rows of a slice of the stream that starts at [p]. *)
Fixpoint rows_at (p : Z) (items : list (H * R)) : list AccRow :=
  match items with
  | [] => []
  | (h, r) :: items' => (p, h, r) :: rows_at (p + 1) items'
  end.

(** Close-on-transition: the shard to work on at [p], and the actions of
    closing the one before it. *)
Definition transition (shard : Z) (o : option OpenShard) : OpenShard * list FeedAction :=
  match o with
  | Some o =>
    if o.(o_index) =? shard then (o, [])
    else
      (mkOpenShard shard [] false,
       if negb o.(passthrough) then [CloseCleanShard o.(o_index) o.(o_rows)]
       else if bool_decide (o.(o_rows) <> []) then [Build o.(o_rows)] else [])
  | None => (mkOpenShard shard [] false, [])
  end.

(** One shard's span of a feed. *)
Definition feed_span (o : OpenShard) (span : list AccRow) (has_note : bool) : OpenShard * FeedAction :=
  if o.(passthrough) then
    match o.(o_rows) with
    | [] => (o, Build span)
    | rows => (mkOpenShard o.(o_index) [] true, Build (rows ++ span))
    end
  else if has_note then (mkOpenShard o.(o_index) [] true, Build (o.(o_rows) ++ span))
  else (mkOpenShard o.(o_index) (o.(o_rows) ++ span) false, Buffer span).

(** The [while pos < end] loop of [feed].  [fuel] counts iterations; every
    iteration takes at least one item. *)
Fixpoint feed_loop (fuel : nat) (o : option OpenShard) (p end_ : Z) (items : list (H * R))
    (note_positions : list Z) : option OpenShard * list FeedAction :=
  match fuel with
  | O => (o, [])
  | S fuel' =>
    if p <? end_ then
      let shard := shard_of p in
      let '(o1, closing) := transition shard o in
      let span_end := Z.min end_ (shard_end shard) in
      let span_len := Z.to_nat (span_end - p) in
      let span := rows_at p (take span_len items) in
      let has_note := existsb (fun n => (p <=? n) && (n <? span_end)) note_positions in
      let '(o2, action) := feed_span o1 span has_note in
      let '(o3, rest) := feed_loop fuel' (Some o2) span_end end_ (drop span_len items) note_positions in
      (o3, closing ++ action :: rest)
    else (o, [])
  end.

(** [ShardAccumulator::feed]. *)
Definition feed (acc : ShardAccumulator) (start_position : Z) (items : list (H * R))
    (note_positions : list Z) : ShardAccumulator * list FeedAction :=
  let end_ := start_position + Z.of_nat (length items) in
  let '(o, actions) :=
    feed_loop (length items) acc.(open) start_position end_ items note_positions in
  (mkAcc end_ o, actions).

(** [ShardAccumulator::finish]. *)
Definition finish (acc : ShardAccumulator) : ShardAccumulator * option FeedAction :=
  match acc.(open) with
  | None => (mkAcc acc.(next_position) None, None)
  | Some o =>
    (mkAcc acc.(next_position) None,
     if bool_decide (o.(o_rows) = []) then None else Some (Build o.(o_rows)))
  end.

(** A whole range: every feed starts where the previous one ended. *)
Fixpoint feeds (acc : ShardAccumulator) (fs : list (list (H * R) * list Z))
  : ShardAccumulator * list FeedAction :=
  match fs with
  | [] => (acc, [])
  | (items, notes) :: fs' =>
    let '(acc1, a1) := feed acc acc.(next_position) items notes in
    let '(acc2, a2) := feeds acc1 fs' in
    (acc2, a1 ++ a2)
  end.

(** [seed], the feeds and [finish] of one range. *)
Definition run_range (start : Z) (resume : list AccRow) (internals : bool)
    (fs : list (list (H * R) * list Z)) : list FeedAction :=
  let '(acc, actions) := feeds (seed start resume internals) fs in
  actions ++ match (finish acc).2 with Some a => [a] | None => [] end.

(** ** Reference definitions *)

(** The rows an action hands to the tree: built, or closed for the verdict. *)
Definition settled (a : FeedAction) : list AccRow :=
  match a with Build rows => rows | CloseCleanShard _ rows => rows | Buffer _ => [] end.

(** The rows held back in the open shard. *)
Definition pending (o : option OpenShard) : list AccRow :=
  match o with Some o => o.(o_rows) | None => [] end.

(** The buffer table under the actions: [Buffer] appends, a build or a close
    settles the open shard and clears its rows. *)
Definition table_step (t : list AccRow) (a : FeedAction) : list AccRow :=
  match a with Buffer rows => t ++ rows | _ => [] end.

(** ** Arithmetic of shards *)

Lemma shard_of_div p : shard_of p = p / 65536.
Proof. unfold shard_of, SHARD_BITS. by rewrite Z.shiftr_div_pow2. Qed.

Lemma shard_end_mul s : shard_end s = (s + 1) * 65536.
Proof. unfold shard_end, SHARD_BITS. by rewrite Z.shiftl_mul_pow2. Qed.

Lemma shard_bounds p : shard_end (shard_of p - 1) <= p < shard_end (shard_of p).
Proof.
  rewrite !shard_end_mul, shard_of_div.
  pose proof (Z.div_mod p 65536 ltac:(lia)). pose proof (Z.mod_pos_bound p 65536). lia.
Qed.

Lemma shard_of_unique p s : shard_end (s - 1) <= p < shard_end s -> shard_of p = s.
Proof.
  rewrite !shard_end_mul, shard_of_div. intros Hb. symmetry.
  apply (Z.div_unique p 65536 s (p - 65536 * s)); lia.
Qed.

(** ** Rows of a slice *)

Lemma length_rows_at p items : length (rows_at p items) = length items.
Proof. revert p. induction items as [|[h r] items IH]; intros p; simpl; [done|]. by rewrite IH. Qed.

Lemma rows_at_app p a b : rows_at p (a ++ b) = rows_at p a ++ rows_at (p + Z.of_nat (length a)) b.
Proof.
  revert p. induction a as [|[h r] a IH]; intros p; simpl; [by rewrite Z.add_0_r|].
  rewrite IH. do 2 f_equal. f_equal. lia.
Qed.

Lemma rows_at_take_drop p n items : (n <= length items)%nat ->
  rows_at p items = rows_at p (take n items) ++ rows_at (p + Z.of_nat n) (drop n items).
Proof.
  intros Hn. rewrite <-(take_drop n items) at 1. rewrite rows_at_app.
  by rewrite length_take_le.
Qed.

Lemma pos_rows_at p items : pos <$> rows_at p items = seqZ p (Z.of_nat (length items)).
Proof.
  revert p. induction items as [|[h r] items IH]; intros p; [done|].
  simpl length. rewrite Nat2Z.inj_succ, seqZ_cons by lia. csimpl. f_equal.
  rewrite IH. f_equal; lia.
Qed.

(** ** The loop, one iteration at a time *)

(** The bounds of one iteration: it takes at least one item and stays in its shard. *)
Lemma span_bounds p end_ (items : list (H * R)) :
  p < end_ -> end_ = p + Z.of_nat (length items) ->
  let span_end := Z.min end_ (shard_end (shard_of p)) in
  let n := Z.to_nat (span_end - p) in
  (1 <= n <= length items)%nat /\ span_end = p + Z.of_nat n /\
  end_ = span_end + Z.of_nat (length (drop n items)).
Proof.
  intros Hp He. pose proof (shard_bounds p). simpl. rewrite length_drop. lia.
Qed.

(** An induction over the iterations of a feed: a relation between the open
    shard before, the rows fed, the actions and the open shard after holds of
    a feed when it holds of the empty one and is closed under one iteration. *)
Lemma feed_loop_ind (note_positions : list Z) (end_ : Z)
    (P : option OpenShard -> Z -> list (H * R) -> list FeedAction -> option OpenShard -> Prop) :
  (forall o p, p = end_ -> P o p [] [] o) ->
  (forall o p items acts o3 o1 closing o2 action,
     let span_end := Z.min end_ (shard_end (shard_of p)) in
     let n := Z.to_nat (span_end - p) in
     p < end_ -> end_ = p + Z.of_nat (length items) ->
     (1 <= n <= length items)%nat -> span_end = p + Z.of_nat n ->
     transition (shard_of p) o = (o1, closing) ->
     feed_span o1 (rows_at p (take n items))
       (existsb (fun x => (p <=? x) && (x <? span_end)) note_positions) = (o2, action) ->
     P (Some o2) span_end (drop n items) acts o3 ->
     P o p items (closing ++ action :: acts) o3) ->
  forall fuel o p items, end_ = p + Z.of_nat (length items) -> (length items <= fuel)%nat ->
    let res := feed_loop fuel o p end_ items note_positions in
    P o p items res.2 res.1.
Proof.
  intros Hnil Hstep fuel. induction fuel as [|fuel IH]; intros o p items He Hf; simpl.
  { destruct items; [|simpl in Hf; lia]. apply Hnil. simpl in He. lia. }
  destruct (Z.ltb_spec p end_) as [Hp|Hp].
  2:{ destruct items; [|simpl in He; lia]. apply Hnil. simpl in He. lia. }
  destruct (span_bounds p end_ items Hp He) as (Hn & Hse & He').
  destruct (transition _ _) as [o1 closing] eqn:Et.
  destruct (feed_span _ _ _) as [o2 action] eqn:Es.
  specialize (IH (Some o2) _ _ He'). rewrite length_drop in IH.
  destruct (feed_loop fuel _ _ _ _ _) as [o3 rest]. simpl in *.
  eapply Hstep; eauto. apply IH. lia.
Qed.

Lemma feed_ind acc items notes
    (P : option OpenShard -> Z -> list (H * R) -> list FeedAction -> option OpenShard -> Prop) :
  (forall o p, p = acc.(next_position) + Z.of_nat (length items) -> P o p [] [] o) ->
  (forall o p its acts o3 o1 closing o2 action,
     let end_ := acc.(next_position) + Z.of_nat (length items) in
     let span_end := Z.min end_ (shard_end (shard_of p)) in
     let n := Z.to_nat (span_end - p) in
     p < end_ -> end_ = p + Z.of_nat (length its) ->
     (1 <= n <= length its)%nat -> span_end = p + Z.of_nat n ->
     transition (shard_of p) o = (o1, closing) ->
     feed_span o1 (rows_at p (take n its))
       (existsb (fun x => (p <=? x) && (x <? span_end)) notes) = (o2, action) ->
     P (Some o2) span_end (drop n its) acts o3 ->
     P o p its (closing ++ action :: acts) o3) ->
  let res := feed acc acc.(next_position) items notes in
  P acc.(open) acc.(next_position) items res.2 res.1.(open) /\
  res.1.(next_position) = acc.(next_position) + Z.of_nat (length items).
Proof.
  intros Hnil Hstep. unfold feed.
  pose proof (feed_loop_ind notes _ P Hnil Hstep (length items) acc.(open) acc.(next_position)
    items eq_refl ltac:(lia)) as Hl. simpl in Hl.
  destruct (feed_loop _ _ _ _ _ _) as [o acts]. done.
Qed.

Lemma feed_next acc start items notes :
  (feed acc start items notes).1.(next_position) = start + Z.of_nat (length items).
Proof. unfold feed. by destruct (feed_loop _ _ _ _ _ _). Qed.

(** ** Conservation *)

Lemma transition_settles shard o o1 closing : transition shard o = (o1, closing) ->
  (closing ≫= settled) ++ o1.(o_rows) = pending o.
Proof.
  unfold transition. destruct o as [o|]; [|by intros [= <- <-]].
  case_match; [by intros [= <- <-]|]. intros [= <- <-]. simpl.
  destruct o as [i rows []]; simpl; [|by rewrite !app_nil_r].
  case_bool_decide as E; simpl; [by rewrite !app_nil_r|].
  by destruct (decide (rows = [])) as [->|].
Qed.

Lemma feed_span_settles o span hn o2 a : feed_span o span hn = (o2, a) ->
  settled a ++ o2.(o_rows) = o.(o_rows) ++ span.
Proof.
  destruct o as [i rows []]; unfold feed_span; simpl.
  - destruct rows; intros [= <- <-]; simpl; by rewrite ?app_nil_r.
  - destruct hn; intros [= <- <-]; simpl; by rewrite ?app_nil_r.
Qed.

Lemma feed_settles acc items notes :
  let res := feed acc acc.(next_position) items notes in
  (res.2 ≫= settled) ++ pending res.1.(open)
    = pending acc.(open) ++ rows_at acc.(next_position) items.
Proof.
  destruct (feed_ind acc items notes (fun o p its acts o' =>
    (acts ≫= settled) ++ pending o' = pending o ++ rows_at p its)) as [E _]; [..|exact E].
  - intros o p _. simpl. by rewrite app_nil_r.
  - intros o p its acts o3 o1 closing o2 a end_ se n Hp He Hn Hse Ht Hs IH.
    rewrite bind_app, <-(transition_settles _ _ _ _ Ht), bind_cons, <-!app_assoc, IH.
    f_equal. simpl. rewrite app_assoc, (feed_span_settles _ _ _ _ _ Hs), <-app_assoc. f_equal.
    rewrite Hse. symmetry. apply rows_at_take_drop. lia.
Qed.

(** The items of a list of feeds, as one slice. *)
Definition all_items (fs : list (list (H * R) * list Z)) : list (H * R) := fs ≫= fst.

Lemma feeds_settle acc fs :
  let res := feeds acc fs in
  (res.2 ≫= settled) ++ pending res.1.(open)
    = pending acc.(open) ++ rows_at acc.(next_position) (all_items fs).
Proof.
  revert acc. induction fs as [|[items notes] fs IH]; intros acc; simpl; [by rewrite app_nil_r|].
  pose proof (feed_settles acc items notes) as E.
  pose proof (feed_next acc acc.(next_position) items notes) as Hnext.
  destruct (feed acc _ items notes) as [acc1 a1]. specialize (IH acc1).
  destruct (feeds acc1 fs) as [acc2 a2]. simpl in *.
  rewrite bind_app, <-app_assoc, IH, app_assoc, E, <-app_assoc. f_equal.
  rewrite Hnext. unfold all_items. csimpl. by rewrite rows_at_app.
Qed.

(** ** The buffer table *)

Lemma feed_table acc items notes :
  let res := feed acc acc.(next_position) items notes in
  foldl table_step (pending acc.(open)) res.2 = pending res.1.(open).
Proof.
  destruct (feed_ind acc items notes (fun o p its acts o' =>
    foldl table_step (pending o) acts = pending o')) as [E _]; [done| |exact E].
  intros o p its acts o3 o1 closing o2 a end_ se n _ _ _ _ Ht Hs IH.
  rewrite foldl_app. simpl. rewrite <-IH. f_equal.
  assert (foldl table_step (pending o) closing = o1.(o_rows)) as ->.
  { revert Ht. unfold transition. destruct o as [[i rows pt]|]; [|by intros [= <- <-]].
    simpl. case_match; [by intros [= <- <-]|]. intros [= <- <-].
    destruct pt; simpl; [|done]. case_bool_decide as E; simpl; [done|].
    by destruct (decide (rows = [])) as [->|]. }
  revert Hs. destruct o1 as [i rows []]; unfold feed_span; simpl;
    [destruct rows|destruct (existsb _ _)]; by intros [= <- <-].
Qed.

Lemma feeds_table acc fs :
  let res := feeds acc fs in
  foldl table_step (pending acc.(open)) res.2 = pending res.1.(open).
Proof.
  revert acc. induction fs as [|[items notes] fs IH]; intros acc; simpl; [done|].
  pose proof (feed_table acc items notes) as E.
  destruct (feed acc _ items notes) as [acc1 a1]. specialize (IH acc1).
  destruct (feeds acc1 fs) as [acc2 a2]. simpl in *. by rewrite foldl_app, E.
Qed.

(** ** What a closed shard holds *)

Section Clean.
(** The positions of the wallet's own notes; the range's start and resumed rows. *)
Context (owned : Z -> Prop) (start : Z) (resume : list AccRow).

(** The first position of a shard the range has seen. *)
Definition base (shard : Z) : Z :=
  if shard =? shard_of start then start - Z.of_nat (length resume) else shard_end (shard - 1).

Definition open_ok (o : OpenShard) (p : Z) : Prop :=
  pos <$> o.(o_rows) = seqZ (p - Z.of_nat (length o.(o_rows))) (Z.of_nat (length o.(o_rows))) /\
  shard_end (o.(o_index) - 1) <= p <= shard_end o.(o_index) /\
  shard_of start <= o.(o_index) /\
  base o.(o_index) <= p - Z.of_nat (length o.(o_rows)) /\
  (o.(passthrough) = false ->
     p - Z.of_nat (length o.(o_rows)) = base o.(o_index) /\
     Forall (fun r => ~ owned (pos r)) o.(o_rows)).

Definition open_inv (o : option OpenShard) (p : Z) : Prop :=
  match o with Some o => open_ok o p | None => False end.

(** A shard handed to the graft verdict: all its positions from the first one
    the range has seen to its end, none of them an owned note. *)
Definition close_ok (a : FeedAction) : Prop :=
  match a with
  | CloseCleanShard i rows =>
    pos <$> rows = seqZ (base i) (shard_end i - base i) /\ Forall (fun r => ~ owned (pos r)) rows
  | _ => True
  end.

(** A feed is told of every owned note of its span. *)
Definition notes_told (p e : Z) (notes : list Z) : Prop :=
  forall q, p <= q < e -> owned q -> q ∈ notes.

Lemma transition_clean o p o1 closing :
  open_inv o p -> transition (shard_of p) o = (o1, closing) ->
  Forall close_ok closing /\ open_ok o1 p /\ o1.(o_index) = shard_of p.
Proof.
  destruct o as [o|]; [|done]. intros (Hpos & Hb & Hge & Hlow & Hclean). unfold transition.
  destruct (Z.eqb_spec o.(o_index) (shard_of p)) as [E|E]; intros [= <- <-]; [done|].
  pose proof (shard_bounds p) as Hsb.
  assert (p = shard_end o.(o_index)) as Hp.
  { rewrite !shard_end_mul in *. assert (o.(o_index) <> shard_of p) by done. nia. }
  assert (shard_of p = o.(o_index) + 1) as Hs.
  { apply shard_of_unique. rewrite Hp, !shard_end_mul. lia. }
  split; [|split; [|done]].
  - destruct (passthrough o) eqn:Ep; simpl; [repeat case_match; by repeat constructor|].
    destruct (Hclean eq_refl) as [Hbase Hown]. repeat constructor; [|done].
    rewrite Hpos. f_equal; lia.
  - split; [done|]. simpl. rewrite Hs. split; [rewrite Hp, !shard_end_mul; lia|].
    split; [lia|].
    assert (p - 0 = base (o.(o_index) + 1)) as Hbase.
    { unfold base. rewrite (proj2 (Z.eqb_neq _ _)) by lia. rewrite Hp, Z.sub_0_r. f_equal. lia. }
    split; [simpl; lia|]. intros _. auto.
Qed.

Lemma rows_at_owned p (items : list (H * R)) notes :
  notes_told p (p + Z.of_nat (length items)) notes ->
  existsb (fun x => (p <=? x) && (x <? p + Z.of_nat (length items))) notes = false ->
  Forall (fun r => ~ owned (pos r)) (rows_at p items).
Proof.
  intros Htold Hex. apply Forall_forall. intros r Hr Ho.
  assert (pos r ∈ seqZ p (Z.of_nat (length items))) as Hin.
  { rewrite <-pos_rows_at. apply list_elem_of_fmap. eauto. }
  apply elem_of_seqZ in Hin. apply not_true_iff_false in Hex. apply Hex, existsb_exists.
  exists (pos r). split; [apply list_elem_of_In; by apply Htold|]. lia.
Qed.

Lemma feed_span_clean o p e (items : list (H * R)) notes o2 a :
  e = p + Z.of_nat (length items) -> open_ok o p -> o.(o_index) = shard_of p -> (1 <= length items)%nat ->
  p + Z.of_nat (length items) <= shard_end (shard_of p) ->
  notes_told p (p + Z.of_nat (length items)) notes ->
  feed_span o (rows_at p items)
    (existsb (fun x => (p <=? x) && (x <? e)) notes) = (o2, a) ->
  close_ok a /\ open_ok o2 e.
Proof.
  intros -> (Hpos & Hb & Hge & Hlow & Hclean) Hi Hlen Hend Htold.
  pose proof (rows_at_owned p items notes Htold) as Hown.
  destruct o as [i rows []]; simpl in *; subst i; unfold feed_span; simpl.
  { destruct rows; intros [= <- <-]; (split; [done|]);
      (split; [done|]; simpl in *; split; [lia|]; split; [done|split; [lia|discriminate]]). }
  destruct (Hclean eq_refl) as [Hbase Hrows].
  destruct (existsb _ notes) eqn:Eh; intros [= <- <-]; (split; [done|]).
  { split; [done|]. simpl. split; [lia|]. split; [done|split; [lia|discriminate]]. }
  unfold open_ok. simpl. rewrite length_app, length_rows_at, Nat2Z.inj_add.
  split; [|split; [lia|split; [done|split; [lia|intros _; split; [lia|]]]]].
  - rewrite fmap_app, Hpos, pos_rows_at, seqZ_app by lia. f_equal; f_equal; lia.
  - apply Forall_app. auto.
Qed.

Lemma feed_clean acc items notes :
  open_inv acc.(open) acc.(next_position) ->
  notes_told acc.(next_position) (acc.(next_position) + Z.of_nat (length items)) notes ->
  let res := feed acc acc.(next_position) items notes in
  Forall close_ok res.2 /\ open_inv res.1.(open) res.1.(next_position).
Proof.
  intros Hinv Htold.
  destruct (feed_ind acc items notes (fun o p its acts o' =>
    open_inv o p -> notes_told p (p + Z.of_nat (length its)) notes ->
    Forall close_ok acts /\ open_inv o' (p + Z.of_nat (length its)))) as [E Hnext].
  - intros o p _ Ho _. simpl. by rewrite Z.add_0_r.
  - intros o p its acts o3 o1 closing o2 a end_ se n Hp He Hn Hse Ht Hs IH Ho Hto.
    destruct (transition_clean _ _ _ _ Ho Ht) as (Hc & Ho1 & Hi).
    assert (length (take n its) = n) as Hlt by (apply length_take_le; lia).
    destruct (feed_span_clean o1 p se (take n its) notes o2 a) as [Ha Ho2];
      rewrite ?Hlt; try done; try lia.
    { intros q Hq. apply Hto. lia. }
    rewrite length_drop in IH.
    replace (p + Z.of_nat (length its)) with
      (se + Z.of_nat (length its - n)) by lia.
    destruct IH as [Hacts Ho3]; [done|intros q Hq; apply Hto; lia|].
    split; [|done]. apply Forall_app. auto.
  - simpl. rewrite Hnext. by apply E.
Qed.

(** Every feed of a range that starts at [p] is told of its span's notes. *)
Fixpoint feeds_told (p : Z) (fs : list (list (H * R) * list Z)) : Prop :=
  match fs with
  | [] => True
  | (items, notes) :: fs' =>
    notes_told p (p + Z.of_nat (length items)) notes /\
    feeds_told (p + Z.of_nat (length items)) fs'
  end.

Lemma feeds_clean acc fs :
  open_inv acc.(open) acc.(next_position) ->
  feeds_told acc.(next_position) fs ->
  let res := feeds acc fs in
  Forall close_ok res.2 /\ open_inv res.1.(open) res.1.(next_position).
Proof.
  revert acc. induction fs as [|[items notes] fs IH]; intros acc Hinv Htold; simpl; [done|].
  destruct Htold as [Htold Hrest].
  destruct (feed_clean acc items notes Hinv Htold) as [Hc Hinv'].
  pose proof (feed_next acc acc.(next_position) items notes) as Hnext.
  destruct (feed acc _ items notes) as [acc1 a1]. simpl in *. rewrite <-Hnext in Hrest.
  destruct (IH acc1 Hinv' Hrest) as [Hc2 Hinv2].
  destruct (feeds acc1 fs) as [acc2 a2]. simpl in *. split; [|done]. apply Forall_app. auto.
Qed.

Lemma seed_inv internals :
  pos <$> resume = seqZ (start - Z.of_nat (length resume)) (Z.of_nat (length resume)) ->
  Forall (fun r => ~ owned (pos r)) resume ->
  open_inv (seed start resume internals).(open) (seed start resume internals).(next_position).
Proof.
  intros Hpos Hown. pose proof (shard_bounds start). simpl. split; [done|]. simpl.
  split; [lia|]. split; [lia|]. unfold base. rewrite Z.eqb_refl. split; [lia|auto].
Qed.
End Clean.

(** ** Where an action's rows lie *)

(** A contiguous run within one shard. *)
Definition one_shard (s : Z) (rows : list AccRow) : Prop :=
  (exists a, pos <$> rows = seqZ a (Z.of_nat (length rows))) /\ Forall (fun r => shard_of (pos r) = s) rows.

Definition action_rows (a : FeedAction) : list AccRow :=
  match a with Build rows => rows | CloseCleanShard _ rows => rows | Buffer rows => rows end.

Definition action_fits (a : FeedAction) : Prop :=
  match a with CloseCleanShard i rows => one_shard i rows | a => exists s, one_shard s (action_rows a) end.

(** The open shard's rows end right before [p], inside the shard. *)
Definition open_fits (o : OpenShard) (p : Z) : Prop :=
  pos <$> o.(o_rows) = seqZ (p - Z.of_nat (length o.(o_rows))) (Z.of_nat (length o.(o_rows))) /\
  Forall (fun r => shard_of (pos r) = o.(o_index)) o.(o_rows) /\
  shard_end (o.(o_index) - 1) <= p <= shard_end o.(o_index).

Lemma open_fits_one_shard o p : open_fits o p -> one_shard o.(o_index) o.(o_rows).
Proof. intros (Hpos & Hs & _). split; [eauto|done]. Qed.

Lemma transition_fits o p o1 closing : open_fits o p -> transition (shard_of p) (Some o) = (o1, closing) ->
  Forall action_fits closing /\ open_fits o1 p /\ o1.(o_index) = shard_of p.
Proof.
  intros Ho. unfold transition. destruct (Z.eqb_spec o.(o_index) (shard_of p)) as [E|E]; intros [= <- <-]; [done|].
  pose proof (shard_bounds p) as Hsb. split; [|split; [|done]].
  - apply open_fits_one_shard in Ho. destruct (passthrough o); simpl; [|apply Forall_singleton; done].
    case_bool_decide; [|constructor]. apply Forall_singleton. by exists o.(o_index).
  - split; [done|]. split; [constructor|]. simpl. lia.
Qed.

Lemma rows_at_in_shard p (items : list (H * R)) :
  p + Z.of_nat (length items) <= shard_end (shard_of p) ->
  Forall (fun r => shard_of (pos r) = shard_of p) (rows_at p items).
Proof.
  intros Hend. apply Forall_forall. intros r Hr.
  assert (pos r ∈ seqZ p (Z.of_nat (length items))) as Hin.
  { rewrite <-pos_rows_at. apply list_elem_of_fmap. eauto. }
  apply elem_of_seqZ in Hin. apply shard_of_unique. pose proof (shard_bounds p). lia.
Qed.

Lemma feed_span_fits o p (items : list (H * R)) hn o2 a :
  open_fits o p -> o.(o_index) = shard_of p -> p + Z.of_nat (length items) <= shard_end (shard_of p) ->
  feed_span o (rows_at p items) hn = (o2, a) ->
  action_fits a /\ open_fits o2 (p + Z.of_nat (length items)) /\
  forall r, r ∈ rows_at p items -> r ∈ action_rows a.
Proof.
  intros (Hpos & Hs & Hb) Hi Hend. pose proof (rows_at_in_shard p items Hend) as Hin.
  assert (pos <$> o.(o_rows) ++ rows_at p items =
    seqZ (p - Z.of_nat (length o.(o_rows))) (Z.of_nat (length (o.(o_rows) ++ rows_at p items)))) as Hall.
  { rewrite fmap_app, Hpos, pos_rows_at, length_app, length_rows_at, Nat2Z.inj_add, seqZ_app by lia.
    f_equal; f_equal; lia. }
  assert (Forall (fun r => shard_of (pos r) = shard_of p) (o.(o_rows) ++ rows_at p items)) as Hsh.
  { apply Forall_app. split; [by rewrite <-Hi|done]. }
  assert (forall b, open_fits (mkOpenShard o.(o_index) [] b) (p + Z.of_nat (length items))) as Hempty.
  { intros b. split; [done|]. split; [constructor|]. simpl. rewrite Hi in *. lia. }
  assert (one_shard (shard_of p) (o.(o_rows) ++ rows_at p items)) as Hone by (split; [eauto|done]).
  assert (one_shard (shard_of p) (rows_at p items)) as Hspan.
  { split; [|done]. exists p. by rewrite pos_rows_at, length_rows_at. }
  unfold feed_span. destruct o as [i rows []]; simpl in *.
  - destruct rows as [|row rows]; intros [= <- <-]; simpl.
    + split; [eauto|]. split; [apply Hempty|done].
    + split; [eauto|]. split; [apply Hempty|]. intros r Hr. apply elem_of_cons. right. apply elem_of_app. by right.
  - destruct hn; intros [= <- <-]; simpl.
    + split; [eauto|]. split; [apply Hempty|]. intros r Hr. apply elem_of_app. by right.
    + split; [eauto|]. split; [|done]. split; [|split]; simpl.
      * rewrite Hall. f_equal. rewrite length_app, length_rows_at. lia.
      * by rewrite Hi.
      * rewrite Hi in *. lia.
Qed.

(** One feed: every row fed is in an action, every action is a run within one shard, and the
    actions that close or build hold nothing but the open rows and the rows fed. *)
Lemma feed_fits o next items notes : open_fits o next ->
  let res := feed (mkAcc next (Some o)) next items notes in
  Forall action_fits res.2 /\
  (exists o', res.1.(open) = Some o' /\ open_fits o' res.1.(next_position)) /\
  (forall r, r ∈ rows_at next items -> exists a, a ∈ res.2 /\ r ∈ action_rows a) /\
  (forall a r, a ∈ res.2 -> r ∈ action_rows a -> r ∈ o.(o_rows) \/ r ∈ rows_at next items) /\
  (forall rows, Buffer rows ∈ res.2 -> forall r, r ∈ rows -> r ∈ rows_at next items).
Proof.
  intros Ho res.
  destruct (feed_ind (mkAcc next (Some o)) items notes (fun o p its acts o' =>
    forall oo, o = Some oo -> open_fits oo p ->
    Forall action_fits acts /\ (exists o2, o' = Some o2 /\ open_fits o2 (p + Z.of_nat (length its))) /\
    (forall r, r ∈ rows_at p its -> exists a, a ∈ acts /\ r ∈ action_rows a) /\
    (forall a r, a ∈ acts -> r ∈ action_rows a -> r ∈ oo.(o_rows) \/ r ∈ rows_at p its) /\
    (forall rows, Buffer rows ∈ acts -> forall r, r ∈ rows -> r ∈ rows_at p its))) as [E Hnext].
  - intros o' p _ oo -> Hoo. split_and!; [constructor|exists oo; by rewrite Z.add_0_r|set_solver..].
  - intros o' p its acts o3 o1 closing o2 a end_ se n Hp He Hn Hse Ht Hs IH oo -> Hoo.
    destruct (transition_fits _ _ _ _ Hoo Ht) as (Hc & Ho1 & Hi).
    assert (length (take n its) = n) as Hlt by (apply length_take_le; lia).
    assert (p + Z.of_nat (length (take n its)) <= shard_end (shard_of p)) as Hbound by (rewrite Hlt; lia).
    destruct (feed_span_fits o1 p (take n its) _ o2 a Ho1 Hi Hbound Hs) as (Ha & Ho2 & Hin).
    rewrite Hlt, <-Hse in Ho2. destruct (IH o2 eq_refl Ho2) as (Hacts & Ho3 & Hrows & Hback & Hbuf).
    pose proof (rows_at_take_drop p n its ltac:(lia)) as Hsplit. rewrite <-Hse in Hsplit.
    pose proof (transition_settles _ _ _ _ Ht) as Hset. simpl in Hset.
    assert (forall r, r ∈ o1.(o_rows) -> r ∈ oo.(o_rows)) as Ho1in.
    { intros r Hr. rewrite <-Hset. apply elem_of_app. by right. }
    assert (forall c r, c ∈ closing -> r ∈ action_rows c -> r ∈ oo.(o_rows)) as Hclose.
    { intros c r Hcin Hr. rewrite <-Hset. apply elem_of_app. left. apply list_elem_of_bind. exists c. split; [|done].
      destruct c; try done. clear -Ht Hcin. unfold transition in Ht. repeat case_match; simplify_eq/=; set_solver. }
    assert (forall r, r ∈ action_rows a -> r ∈ oo.(o_rows) \/ r ∈ rows_at p its) as Haback.
    { intros r Hr. assert (r ∈ o1.(o_rows) ++ rows_at p (take n its)) as Hr'.
      { clear -Hs Hr. unfold feed_span in Hs. destruct o1 as [i rows []]; simpl in *; [destruct rows|];
          repeat case_match; simplify_eq/=; set_solver. }
      rewrite Hsplit. set_solver. }
    assert (forall r, r ∈ o2.(o_rows) -> r ∈ oo.(o_rows) \/ r ∈ rows_at p its) as Ho2in.
    { intros r Hr. assert (r ∈ o1.(o_rows) ++ rows_at p (take n its)) as Hr'.
      { rewrite <-(feed_span_settles _ _ _ _ _ Hs). set_solver. }
      rewrite Hsplit. set_solver. }
    split_and!.
    + apply Forall_app. auto.
    + destruct Ho3 as (o4 & -> & Ho4). exists o4. split; [done|]. rewrite length_drop in Ho4.
      by replace (p + Z.of_nat (length its)) with (se + Z.of_nat (length its - n)) by lia.
    + intros r Hr. rewrite Hsplit in Hr. apply elem_of_app in Hr as [Hr|Hr].
      * exists a. split; [set_solver|by apply Hin].
      * destruct (Hrows r Hr) as (a' & Ha' & Hr'). exists a'. split; [set_solver|done].
    + intros a' r Ha' Hr. apply elem_of_app in Ha' as [Ha'|[->|Ha']%elem_of_cons].
      * left. by eapply Hclose.
      * by apply Haback.
      * destruct (Hback a' r Ha' Hr) as [Hr2|Hr2]; [by apply Ho2in|]. right. rewrite Hsplit. set_solver.
    + intros rows Hb r Hr. apply elem_of_app in Hb as [Hb|[<-|Hb]%elem_of_cons].
      * exfalso. clear -Ht Hb. unfold transition in Ht. repeat case_match; simplify_eq/=; set_solver.
      * rewrite Hsplit. clear -Hs Hr. unfold feed_span in Hs.
        destruct o1 as [i rs []]; simpl in *; [destruct rs|]; repeat case_match; simplify_eq/=; set_solver.
      * rewrite Hsplit. apply elem_of_app. right. by apply (Hbuf rows).
  - simpl in E. destruct (E o eq_refl Ho) as (E1 & (o' & E2 & E3) & E4 & E5 & E6).
    split; [done|]. split; [|done]. exists o'. split; [done|]. simpl in Hnext.
    unfold res. by rewrite Hnext.
Qed.

(** ** The resumable run *)

Lemma below_split start rows : exists post, rows = below start rows ++ post /\
  Forall (fun r => pos r < start) (below start rows) /\
  (forall r, head post = Some r -> start <= pos r).
Proof.
  induction rows as [|r rows (post & E & Hb & Hp)]; simpl; [by exists []|].
  destruct (Z.ltb_spec (pos r) start).
  - exists post. simpl. rewrite <-E. auto.
  - exists (r :: rows). repeat split; auto. intros ? [= <-]. done.
Qed.

(** The longest contiguous suffix. *)
Lemma last_run_spec rows : exists pre, rows = pre ++ last_run rows /\
  (rows <> [] -> last_run rows <> []) /\
  (forall r, head (last_run rows) = Some r ->
     pos <$> last_run rows = seqZ (pos r) (Z.of_nat (length (last_run rows))) /\
     forall x, last pre = Some x -> pos x + 1 <> pos r).
Proof.
  induction rows as [|r rows (pre & E & Hne & Hrun)]; [by exists []|].
  destruct rows as [|r' rows].
  { exists []. simpl. split; [done|]. split; [done|]. intros ? [= <-]. done. }
  specialize (Hne ltac:(done)). set (run := last_run (r' :: rows)) in *.
  change (last_run (r :: r' :: rows)) with
    (if bool_decide (length run = length (r' :: rows)) && (pos r + 1 =? pos r')
     then r :: run else run).
  destruct (_ && _) eqn:Ec.
  - breflect. assert (pre = []) as ->.
    { apply (f_equal length) in E. rewrite length_app in E. destruct pre; [done|].
      simpl in *. lia. }
    simpl in E. exists []. rewrite <-E. split; [done|]. split; [done|]. intros ? [= <-].
    split; [|done]. rewrite <-E in Hrun. destruct (Hrun r' eq_refl) as [Hc _].
    rewrite fmap_cons, Hc. simpl length.
    rewrite (Nat2Z.inj_succ (S (length rows))), (seqZ_cons (pos r)) by lia. f_equal.
    f_equal; lia.
  - exists (r :: pre). rewrite E at 1. split; [done|]. split; [done|]. intros x Hx.
    destruct (Hrun x Hx) as [Hc Hmax]. split; [done|]. intros y Hy.
    destruct pre as [|z pre]; [|apply Hmax; by rewrite last_cons_cons in Hy].
    injection Hy as <-. simpl in E. rewrite <-E in Hx. injection Hx as <-.
    rewrite <-E, bool_decide_true in Ec by done. simpl in Ec. by breflect.
Qed.
End Accumulator.

Arguments FeedAction : clear implicits.
Arguments AccRow : clear implicits.

Section Properties.
Context {H R : Type} `{!EqDecision H}.
Implicit Types (rows resume : list (AccRow H R)) (fs : list (list (H * R) * list Z)).

(** C9: Nothing is lost, duplicated or reordered: over a whole range, however the commitments are
    cut into feeds and wherever notes fall, the rows handed to the build path or to the
    graft verdict are exactly the resumed rows followed by every commitment fed, in position
    order. *)
Theorem range_settles_every_row start resume internals fs :
  run_range start resume internals fs ≫= settled = resume ++ rows_at start (all_items fs).
Proof.
  unfold run_range. pose proof (feeds_settle (seed start resume internals) fs) as E. simpl in E.
  destruct (feeds _ fs) as [acc acts]. simpl in E. rewrite <-E, bind_app. f_equal.
  unfold finish. destruct (open acc) as [o|]; simpl; [|done].
  case_bool_decide as Ho; simpl; [by rewrite Ho|]. by rewrite app_nil_r.
Qed.

(** A shard is offered for grafting only when it is safe: its rows are all the positions of the
    shard from the first one the range has seen (the shard's own start, past the range's
    first shard) to the shard's end, and none of them is a note of the wallet. *)
Theorem closed_shards_note_free (owned : Z -> Prop) start resume internals fs i rows :
  pos <$> resume = seqZ (start - Z.of_nat (length resume)) (Z.of_nat (length resume)) ->
  Forall (fun r => ~ owned (pos r)) resume ->
  feeds_told owned start fs ->
  CloseCleanShard i rows ∈ run_range start resume internals fs ->
  pos <$> rows = seqZ (base start resume i) (shard_end i - base start resume i) /\
  Forall (fun r => ~ owned (pos r)) rows.
Proof.
  intros Hres Hown Htold Hin. unfold run_range in Hin.
  destruct (feeds_clean owned start resume (seed start resume internals) fs) as [Hc _];
    [by apply seed_inv|done|].
  destruct (feeds _ fs) as [acc acts]. simpl in *. apply elem_of_app in Hin as [Hin|Hin].
  - apply (proj1 (Forall_forall _ _) Hc _ Hin).
  - unfold finish in Hin. destruct (open acc); simpl in Hin; [case_bool_decide|];
      simpl in Hin; by repeat (apply elem_of_cons in Hin as [?|Hin] || apply not_elem_of_nil in Hin).
Qed.

(** Restart safety: at every point of a range the buffer table that follows the emitted
    actions holds exactly the rows the accumulator keeps in memory for its open shard, and
    those rows stay within one shard (at most 65536). *)
Theorem buffer_table_tracks_open_shard start resume internals fs :
  pos <$> resume = seqZ (start - Z.of_nat (length resume)) (Z.of_nat (length resume)) ->
  shard_end (shard_of start - 1) <= start - Z.of_nat (length resume) ->
  let res := feeds (seed start resume internals) fs in
  foldl table_step resume res.2 = pending res.1.(open) /\
  (length (pending res.1.(open)) <= Z.to_nat 65536)%nat.
Proof.
  intros Hres Hshard res. split; [apply (feeds_table (seed start resume internals) fs)|].
  destruct (feeds_clean (fun _ => False) start resume (seed start resume internals) fs) as [_ Hinv].
  { apply seed_inv; [done|]. apply Forall_forall. tauto. }
  { generalize (next_position (seed start resume internals)).
    clear. induction fs as [|[? ?] fs IH]; intros p; simpl; [done|]. split; [by intros q|apply IH]. }
  fold res in Hinv. destruct (open res.1) as [o|]; [|done]. simpl.
  destruct Hinv as (_ & Hb & _ & Hlow & _). unfold base in Hlow.
  rewrite !shard_end_mul in *. destruct (Z.eqb_spec o.(o_index) (shard_of start)) as [Heq|_]; lia.
Qed.

(** A resumed range takes over exactly one contiguous run of buffered rows that ends right
    before its start, on the leaf its own frontier holds there; the run is as long as
    possible, rows at or above the start are left out, and the flag says whether any row was
    left out. *)
Theorem resumable_run_contiguous rows start leaf run left_out :
  resumable_run rows start leaf = (run, left_out) ->
  pos <$> run = seqZ (start - Z.of_nat (length run)) (Z.of_nat (length run)) /\
  (left_out = true <-> run <> rows) /\
  (run <> [] -> exists pre post l, rows = pre ++ run ++ post /\ last run = Some l /\
     leaf = Some (start - 1, row_hash l) /\
     (forall r, head post = Some r -> start <= pos r) /\
     (forall x r, last pre = Some x -> head run = Some r -> pos x + 1 <> pos r)).
Proof.
  unfold resumable_run. destruct (below_split start rows) as (post & E & _ & Hpost).
  set (rows1 := below start rows) in *. destruct (negb _) eqn:Ef; intros [= <- <-].
  { split; [done|]. split; [|done]. destruct rows; naive_solver. }
  breflect. destruct (last rows1) as [l|] eqn:El; [|done]. destruct leaf as [[lp lh]|]; [|done].
  breflect. destruct (last_run_spec rows1) as (pre & E1 & Hne & Hrun).
  assert (rows1 <> []) as Hn1 by (intros ->; done). specialize (Hne Hn1).
  assert (last (last_run rows1) = Some l) as Hl.
  { rewrite E1, last_app in El. destruct (last (last_run rows1)) eqn:E2; [done|].
    by apply last_None in E2. }
  destruct (head (last_run rows1)) as [hd|] eqn:Ehd; [|by apply head_None in Ehd].
  destruct (Hrun hd eq_refl) as [Hc Hmax].
  assert (pos l = pos hd + Z.of_nat (length (last_run rows1)) - 1) as Hend.
  { apply (f_equal last) in Hc. rewrite fmap_last, Hl in Hc.
    destruct (length (last_run rows1)) as [|n] eqn:En; [by apply nil_length_inv in En|].
    rewrite seqZ_S, last_snoc in Hc. simpl in Hc. injection Hc. lia. }
  split; [rewrite Hc; f_equal; lia|]. split.
  - rewrite Nat.ltb_lt. pose proof (f_equal length E) as L. pose proof (f_equal length E1) as L1.
    rewrite length_app in L, L1. split; [intros Hlt Heq; apply (f_equal length) in Heq; lia|].
    intros Hneq. destruct pre as [|x pre]; [|simpl in L1; lia].
    destruct post as [|y post]; [|simpl in L; lia].
    exfalso. apply Hneq. by rewrite E, app_nil_r.
  - intros _. exists pre, post, l. subst lp lh. rewrite app_assoc, <-E1. repeat split; auto.
    + do 2 f_equal. lia.
    + intros x r Hx Hr. simplify_eq. by apply Hmax.
Qed.
End Properties.

(** ** Concrete ranges *)

(** Three commitments across the end of shard 0, the last of them an owned note. *)
Definition sample_feeds : list (list (Z * unit) * list Z) := [([(7, tt); (8, tt)], []); ([(9, tt)], [65536])].
Definition sample_owned (q : Z) : Prop := q = 65536.

Example closed_shards_note_free_instance :
  CloseCleanShard 0 [(65533, 6, tt); (65534, 7, tt); (65535, 8, tt)]
    ∈ run_range 65534 [(65533, 6, tt)] false sample_feeds /\
  Forall (fun r => ~ sample_owned (pos r)) [(65533, 6, tt); (65534, 7, tt); (65535, 8, tt)].
Proof.
  assert (CloseCleanShard 0 [(65533, 6, tt); (65534, 7, tt); (65535, 8, tt)]
    ∈ run_range 65534 [(65533, 6, tt)] false sample_feeds) as Hin.
  { change (run_range 65534 [(65533, 6, tt)] false sample_feeds) with
      [Buffer [(65534, 7, tt); (65535, 8, tt)];
       CloseCleanShard 0 [(65533, 6, tt); (65534, 7, tt); (65535, 8, tt)];
       Build [(65536, 9, tt)]]. set_solver. }
  split; [exact Hin|].
  apply (closed_shards_note_free sample_owned 65534 [(65533, 6, tt)] false sample_feeds 0 _);
    [reflexivity| | |exact Hin].
  - repeat constructor. intros E. vm_compute in E. discriminate.
  - unfold sample_owned. simpl. split; [intros q Hq Ho; lia|]. split; [|done].
    intros q Hq ->. set_solver.
Qed.

Example buffer_table_tracks_open_shard_instance :
  foldl table_step [(4, 6, tt)] (feeds (seed 5 [(4, 6, tt)] false) [([(7, tt)], [])]).2
    = [(4, 6, tt); (5, 7, tt)] /\
  (length (pending (feeds (seed 5%Z [(4%Z, 6%Z, tt)] false) [([(7%Z, tt)], [])]).1.(open)) <= Z.to_nat 65536)%nat.
Proof.
  split; [reflexivity|].
  apply (buffer_table_tracks_open_shard 5 [(4, 6, tt)] false [([(7, tt)], [])]);
    [reflexivity|vm_compute; discriminate].
Qed.

Example resumable_run_contiguous_instance :
  resumable_run [(3, 1, tt); (5, 2, tt); (6, 3, tt); (9, 4, tt)] 7 (Some (6, 3))
    = ([(5, 2, tt); (6, 3, tt)], true) /\
  pos <$> [(5, 2, tt); (6, 3, tt)] = seqZ 5 2.
Proof.
  split; [reflexivity|].
  apply (resumable_run_contiguous [(3, 1, tt); (5, 2, tt); (6, 3, tt); (9, 4, tt)] 7 (Some (6, 3))
    [(5, 2, tt); (6, 3, tt)] true). reflexivity.
Qed.

End GraftAccumulator.
