(* ===== verification/Checkpoints.v ===== *)
(** * Retentions and the checkpoint window: [core/src/persist.rs], [core/src/graft.rs]

    Which checkpoints of a commitment stream are worth creating.  Upstream creates one
    per block and prunes the set back to the newest hundred as it goes; the engine
    computes the survivors up front and downgrades the rest.  Also the row form of a
    retention in the graft buffer, and the checkpoint heal of a flooded wallet.

    Checkpoint ids are block heights, [u32]. *)

From S2P Require Export GraftAccumulator.

Module Checkpoints.

(** [incrementalmerkletree::Marking] and [Retention<BlockHeight>]. *)
Inductive Marking := MarkNone | MarkMarked | MarkReference.
Inductive Retention := Ephemeral | Checkpoint (id : Z) (marking : Marking) | Marked | Reference.

#[export] Instance marking_eq_dec : EqDecision Marking.
Proof. solve_decision. Defined.
#[export] Instance retention_eq_dec : EqDecision Retention.
Proof. solve_decision. Defined.

Definition MAX_CHECKPOINTS : Z := 100.
Definition SPARSE_CHECKPOINT_WINDOW : Z := 100.
Definition DEEP_HISTORY_CHECKPOINT_MARGIN : Z := 10000.

(** ** Sets of ids in ascending order *)

(** [BTreeSet::iter]. *)
Definition btree_keys (s : gset Z) : list Z := merge_sort Z.le (elements s).

(** ** The window *)

(** [doomed_checkpoint_cutoff]: the hundredth newest id, when there are that many. *)
Definition doomed_checkpoint_cutoff (existing : list Z) (frontier_id : Z) (new_ids : list Z) : option Z :=
  let union : gset Z := list_to_set new_ids ∪ ({[frontier_id]} ∪ list_to_set existing) in
  reverse (btree_keys union) !! Z.to_nat (SPARSE_CHECKPOINT_WINDOW - 1).

Section Anchors.
(** [AnchorRetention::retains] of the policy in force; [None]: no policy. *)
Context (anchor_retention : option (Z -> bool)).

(** [should_retain_anchor]. *)
Definition should_retain_anchor (height : Z) : bool :=
  match anchor_retention with Some retains => retains height | None => false end.

(** What clearing the checkpoint flag leaves on a leaf. *)
Definition residue (m : Marking) : Retention := match m with MarkMarked => Marked | _ => Ephemeral end.

(** [downgrade_if_doomed]. *)
Definition downgrade_if_doomed (cutoff : Z) (r : Retention) : Retention * bool :=
  match r with
  | Checkpoint id m =>
    if (id <? cutoff) && negb (should_retain_anchor id) then (residue m, true) else (r, false)
  | _ => (r, false)
  end.

Section Streams.
Context {H : Type}.

(** A slot of a commitment slice; [None] once a build has taken it. *)
Definition Slot : Type := option (H * Retention).

(** [downgrade_doomed_checkpoints]. *)
Fixpoint downgrade_doomed_checkpoints (cutoff : Z) (commitments : list Slot) : list Slot * Z :=
  match commitments with
  | [] => ([], 0)
  | c :: cs =>
    let '(cs', n) := downgrade_doomed_checkpoints cutoff cs in
    match c with
    | None => (None :: cs', n)
    | Some (h, r) =>
      let '(r', hit) := downgrade_if_doomed cutoff r in
      (Some (h, r') :: cs', if (hit : bool) then n + 1 else n)
    end
  end.

(** The checkpoint ids of a slice. *)
Definition checkpoint_id (c : Slot) : option Z :=
  match c with Some (_, Checkpoint id _) => Some id | _ => None end.
Definition stream_ids (commitments : list Slot) : list Z := omap checkpoint_id commitments.

(** [stream_checkpoint_positions]: the last position of an id wins. *)
Definition stream_checkpoint_positions (start : Z) (commitments : list Slot) : gmap Z Z :=
  foldl (fun m (p : Z * Slot) => match checkpoint_id p.2 with Some id => <[id := p.1]> m | None => m end)
    ∅ (zip (seqZ start (Z.of_nat (length commitments))) commitments).

(** [is_deep_history]; [last + margin] is a [u32] addition of heights, which saturates. *)
Definition is_deep_history (chain_tip : option Z) (last_scanned_height : Z) : bool :=
  match chain_tip with
  | Some tip => sat_add32 last_scanned_height DEEP_HISTORY_CHECKPOINT_MARGIN <? tip
  | None => false
  end.

(** [doom_deep_history_stream]. *)
Definition doom_deep_history_stream (stream : list (H * Retention)) : list (H * Retention) :=
  (fun p => (p.1, (downgrade_if_doomed u32_max p.2).1)) <$> stream.

(** [doom_deep_rows]. *)
Definition doom_deep_rows (chain_tip : Z) (rows : list (Z * H * Retention)) : list (Z * H * Retention) :=
  (fun row =>
    match row.2 with
    | Checkpoint id _ =>
      if is_deep_history (Some chain_tip) id then (row.1, (downgrade_if_doomed u32_max row.2).1) else row
    | _ => row
    end) <$> rows.

(** [deferred_build_cutoff]. *)
Definition deferred_build_cutoff (existing : list Z) (rows : list Slot) : option Z :=
  match list_max_opt existing with
  | None => None
  | Some frontier_id => doomed_checkpoint_cutoff existing frontier_id (stream_ids rows)
  end.
End Streams.
End Anchors.
Arguments Slot H : clear implicits.

(** ** Reference: create every checkpoint, prune to the newest hundred each time *)

(** The [n] greatest ids of a set. *)
Definition newest (n : nat) (s : gset Z) : gset Z :=
  filter (fun h => (size (filter (fun x => (h < x)%Z) s) < n)%nat) s.

Definition create_and_prune (s : gset Z) (id : Z) : gset Z :=
  newest (Z.to_nat MAX_CHECKPOINTS) ({[id]} ∪ s).

(** The ids in the store after a call that creates them one by one. *)
Definition survivors (existing : list Z) (frontier_id : Z) (new_ids : list Z) : gset Z :=
  foldl create_and_prune (create_and_prune (list_to_set existing) frontier_id) new_ids.

(** A stream's slot once the call is over: a checkpoint that was pruned, and is no durable
    anchor, has lost its flag. *)
Definition settle {H} (anchors : option (Z -> bool)) (alive : gset Z) (c : Slot H) : Slot H :=
  match c with
  | Some (h, Checkpoint id m) =>
    if bool_decide (id ∈ alive) || should_retain_anchor anchors id then c else Some (h, residue m)
  | _ => c
  end.

(** ** Descending lists *)

Definition desc (s : gset Z) : list Z := reverse (btree_keys s).

Lemma elem_of_desc s x : x ∈ desc s <-> x ∈ s.
Proof. unfold desc, btree_keys. by rewrite elem_of_reverse, merge_sort_Permutation, elem_of_elements. Qed.

Lemma length_desc s : length (desc s) = size s.
Proof. unfold desc, btree_keys. by rewrite length_reverse, merge_sort_Permutation. Qed.

Lemma desc_sorted s i j x y : desc s !! i = Some x -> desc s !! j = Some y -> (i < j)%nat -> y < x.
Proof.
  intros Hi Hj Hij. unfold desc in *.
  assert (NoDup (btree_keys s)) as Hnd.
  { unfold btree_keys. rewrite merge_sort_Permutation. apply NoDup_elements. }
  pose proof (lookup_lt_Some _ _ _ Hj) as Hlt. rewrite length_reverse in Hlt.
  rewrite reverse_lookup in Hi, Hj by lia.
  assert (y <= x) as Hle.
  { eapply (StronglySorted_lookup Z.le (btree_keys s)); [|exact Hj|exact Hi|lia].
    apply (StronglySorted_merge_sort Z.le). }
  assert (y <> x); [|lia]. intros ->.
  pose proof (NoDup_lookup _ _ _ _ Hnd Hi Hj). lia.
Qed.

Lemma above_desc s i x : desc s !! i = Some x -> filter (fun y => x < y) s = list_to_set (take i (desc s)).
Proof.
  intros Hx. apply set_eq. intros y. rewrite elem_of_filter, elem_of_list_to_set, <-(elem_of_desc s y).
  split.
  - intros [Hlt [j Hj]%list_elem_of_lookup]. apply list_elem_of_lookup. exists j.
    rewrite lookup_take_lt; [done|]. destruct (decide (j < i)%nat); [done|].
    destruct (decide (i = j)) as [->|]; [simplify_eq; lia|].
    pose proof (desc_sorted s i j x y Hx Hj). lia.
  - intros [j [Hj Hlt]%lookup_take_Some]%list_elem_of_lookup.
    split; [by apply (desc_sorted s j i)|]. apply list_elem_of_lookup. eauto.
Qed.

Lemma NoDup_desc s : NoDup (desc s).
Proof.
  apply NoDup_alt. intros i j x Hi Hj. destruct (lt_eq_lt_dec i j) as [[Hlt|]|Hlt]; [|done|].
  - pose proof (desc_sorted s i j x x Hi Hj Hlt). lia.
  - pose proof (desc_sorted s j i x x Hj Hi Hlt). lia.
Qed.

Lemma size_above s i x : desc s !! i = Some x -> size (filter (fun y => x < y) s) = i.
Proof.
  intros Hx. rewrite (above_desc s i x Hx), size_list_to_set.
  - rewrite length_take. apply lookup_lt_Some in Hx. lia.
  - eapply sublist_NoDup; [apply NoDup_desc|apply sublist_take].
Qed.

(** ** The newest ids *)

Lemma newest_take n s : newest n s = list_to_set (take n (desc s)).
Proof.
  apply set_eq. intros x. unfold newest.
  rewrite elem_of_filter, elem_of_list_to_set, <-(elem_of_desc s x). split.
  - intros [Hlt [i Hi]%list_elem_of_lookup]. rewrite (size_above s i x Hi) in Hlt.
    apply list_elem_of_lookup. exists i. by rewrite lookup_take_lt.
  - intros [i [Hi Hlt]%lookup_take_Some]%list_elem_of_lookup. rewrite (size_above s i x Hi).
    split; [lia|]. apply list_elem_of_lookup. eauto.
Qed.

Lemma size_newest n s : (n <= size s)%nat -> size (newest n s) = n.
Proof.
  intros Hn. rewrite newest_take, size_list_to_set.
  - rewrite length_take, length_desc. lia.
  - eapply sublist_NoDup; [apply NoDup_desc|apply sublist_take].
Qed.

(** Above a fixed id, the newest of a set are the newest of its part above. *)
Lemma newest_above n s x : filter (fun y => x < y) (newest n s) = newest n (filter (fun y => x < y) s).
Proof.
  apply set_eq. intros y. unfold newest. rewrite !elem_of_filter.
  assert (x < y -> filter (fun z => y < z) (filter (fun z => x < z) s) = filter (fun z => y < z) s) as E.
  { intros Hxy. apply set_eq. intros z. rewrite !elem_of_filter. split; [naive_solver|]. intros []. split_and!; lia || done. }
  split.
  - intros (Hxy & Hn & Hy). by rewrite E.
  - intros (Hn & Hxy & Hy). rewrite E in Hn by done. done.
Qed.

Lemma newest_absorb n A B : newest n (newest n A ∪ B) = newest n (A ∪ B).
Proof.
  apply set_eq. intros h. unfold newest at 1 3. rewrite !elem_of_filter.
  assert (newest n A ⊆ A) as Hsub by (unfold newest; set_solver).
  assert (forall S T : gset Z, S ⊆ T -> size (filter (fun x => (h < x)%Z) S) <= size (filter (fun x => (h < x)%Z) T))%nat
    as Hmono by (intros S T HST; apply subseteq_size; set_solver).
  split.
  - intros [Hn Hh]. split; [|set_solver].
    destruct (decide (filter (fun x => (h < x)%Z) A ⊆ newest n A)) as [Hall|Hsome].
    { eapply Nat.le_lt_trans; [|exact Hn]. apply subseteq_size. set_solver. }
    exfalso. assert (exists x, x ∈ A /\ h < x /\ x ∉ newest n A) as (x & HxA & Hhx & Hx).
    { destruct (set_choose_or_empty (filter (fun x => (h < x)%Z) A ∖ newest n A)) as [[x Hx]|He].
      - exists x. set_solver.
      - exfalso. apply Hsome. intros x Hx. destruct (decide (x ∈ newest n A)); [done|]. set_solver. }
    assert (n <= size (filter (fun y => (x < y)%Z) A))%nat as Hge.
    { unfold newest in Hx. rewrite elem_of_filter in Hx. destruct (decide (n <= size (filter (fun y => (x < y)%Z) A))%nat); [done|].
      exfalso. apply Hx. split; [lia|done]. }
    pose proof (size_newest n _ Hge) as Hs. rewrite <-newest_above in Hs.
    assert (size (filter (fun y => (x < y)%Z) (newest n A)) <= size (filter (fun y => (h < y)%Z) (newest n A ∪ B)))%nat; [|lia].
    apply subseteq_size. intros y. rewrite !elem_of_filter. intros []. split; [lia|set_solver].
  - intros [Hn Hh]. pose proof (Hmono (newest n A ∪ B) (A ∪ B) ltac:(set_solver)). split; [lia|].
    apply elem_of_union in Hh as [Hh|Hh]; [|set_solver]. apply elem_of_union_l. unfold newest.
    apply elem_of_filter. split; [|done]. pose proof (Hmono A (A ∪ B) ltac:(set_solver)). lia.
Qed.

(** ** Creating and pruning one by one, in one go *)

Lemma survivors_newest existing f ids :
  survivors existing f ids = newest 100 (list_to_set ids ∪ ({[f]} ∪ list_to_set existing)).
Proof.
  unfold survivors. induction ids as [|id ids IH] using rev_ind.
  - simpl. by rewrite union_empty_l_L.
  - rewrite foldl_snoc, IH. unfold create_and_prune. change (Z.to_nat MAX_CHECKPOINTS) with 100%nat.
    rewrite (union_comm_L {[id]}), newest_absorb, list_to_set_app_L. f_equal. set_solver.
Qed.

(** The cutoff separates the survivors. *)
Lemma cutoff_spec existing f ids :
  let all : gset Z := list_to_set ids ∪ ({[f]} ∪ list_to_set existing) in
  forall id, id ∈ all ->
  (id ∈ survivors existing f ids <->
   match doomed_checkpoint_cutoff existing f ids with Some c => c <= id | None => True end).
Proof.
  intros all id Hid. rewrite survivors_newest. fold all. unfold doomed_checkpoint_cutoff. fold all.
  change (reverse (btree_keys all)) with (desc all). change (Z.to_nat _) with 99%nat.
  rewrite newest_take, elem_of_list_to_set.
  apply elem_of_desc, list_elem_of_lookup in Hid as [i Hi].
  assert (id ∈ take 100 (desc all) <-> (i < 100)%nat) as ->.
  { split.
    - intros [j [Hj Hlt]%lookup_take_Some]%list_elem_of_lookup.
      by rewrite <-(NoDup_lookup _ _ _ _ (NoDup_desc all) Hj Hi).
    - intros Hlt. apply list_elem_of_lookup. exists i. by rewrite lookup_take_lt. }
  destruct (desc all !! 99%nat) as [c|] eqn:Ec.
  - split.
    + intros Hlt. destruct (decide (i = 99)%nat) as [->|]; [simplify_eq; lia|].
      pose proof (desc_sorted all i 99 id c Hi Ec). lia.
    + intros Hle. destruct (decide (i < 100)%nat); [done|]. pose proof (desc_sorted all 99 i c id Ec Hi). lia.
  - apply lookup_ge_None in Ec. apply lookup_lt_Some in Hi. split; [done|lia].
Qed.

Lemma downgrade_settles {H} anchors c alive (cs : list (Slot H)) :
  (forall id, id ∈ stream_ids cs -> id ∈ alive <-> c <= id) ->
  (downgrade_doomed_checkpoints anchors c cs).1 = settle anchors alive <$> cs.
Proof.
  induction cs as [|[[h r]|] cs IH]; intros Hall; [done| |].
  - simpl. destruct (downgrade_doomed_checkpoints anchors c cs) as [cs' n]. csimpl in IH. csimpl.
    destruct r as [|id m| |]; csimpl;
      try (rewrite <-IH; [done|]; intros; apply Hall; csimpl; done).
    specialize (IH ltac:(intros; apply Hall; csimpl; set_solver)). rewrite <-IH.
    pose proof (Hall id ltac:(csimpl; set_solver)) as Hid.
    destruct (should_retain_anchor anchors id) eqn:Ha; simpl; [by rewrite andb_false_r, orb_true_r|].
    rewrite andb_true_r, orb_false_r. destruct (Z.ltb_spec id c).
    + rewrite bool_decide_false; [done|]. intros ?%Hid. lia.
    + rewrite bool_decide_true; [done|]. apply Hid. lia.
  - simpl. destruct (downgrade_doomed_checkpoints anchors c cs) as [cs' n]. csimpl in IH. csimpl.
    rewrite <-IH; [done|]. intros; apply Hall; csimpl; done.
Qed.

(** The positions map has exactly the stream's ids. *)
Lemma dom_positions {H} start (cs : list (Slot H)) :
  dom (stream_checkpoint_positions start cs) = list_to_set (stream_ids cs) :> gset Z.
Proof.
  unfold stream_checkpoint_positions.
  assert (forall (l : list Z) (m : gmap Z Z), length l = length cs ->
    dom (foldl (fun m (p : Z * Slot H) => match checkpoint_id p.2 with Some id => <[id := p.1]> m | None => m end)
      m (zip l cs)) = list_to_set (stream_ids cs) ∪ dom m :> gset Z) as Hgen.
  { induction cs as [|c cs IH]; intros [|p l] m Hl; try done; simpl; [set_solver|].
    rewrite IH by (simpl in Hl; lia). unfold stream_ids; csimpl. destruct (checkpoint_id c) as [id|]; [|done].
    rewrite dom_insert_L. csimpl. set_solver. }
  rewrite Hgen; [set_solver|]. rewrite length_seqZ. lia.
Qed.

Lemma downgrade_count {H} anchors c (cs : list (Slot H)) :
  (downgrade_doomed_checkpoints anchors c cs).2 =
  Z.of_nat (length (stream_ids cs)) - Z.of_nat (length (stream_ids (downgrade_doomed_checkpoints anchors c cs).1)).
Proof.
  induction cs as [|[[h r]|] cs IH]; [done| |]; simpl.
  - destruct (downgrade_doomed_checkpoints anchors c cs) as [cs' n]. csimpl in IH.
    destruct r as [|id m| |]; csimpl; try lia.
    destruct ((id <? c) && negb (should_retain_anchor anchors id)); csimpl; [|lia].
    destruct m; csimpl; lia.
  - destruct (downgrade_doomed_checkpoints anchors c cs) as [cs' n]. csimpl in IH. csimpl. lia.
Qed.

(** ** Properties *)

(** C13: Computing the surviving checkpoints up front gives what creating and pruning them gives: for
    any stored ids, frontier id and commitment stream, downgrading the stream below the cutoff
    leaves every slot exactly as it ends up when each of its checkpoints is created in turn and the
    set is pruned to its newest hundred after every one, with the durable anchors kept; and the
    count returned is the number of checkpoints that lost their flag. *)
Theorem downgrade_equals_pruning {H} anchors existing frontier_id start (cs : list (Slot H)) :
  let cutoff := doomed_checkpoint_cutoff existing frontier_id
                  (btree_keys (dom (stream_checkpoint_positions start cs))) in
  let '(out, n) := match cutoff with
                   | Some c => downgrade_doomed_checkpoints anchors c cs
                   | None => (cs, 0)
                   end in
  out = settle anchors (survivors existing frontier_id (stream_ids cs)) <$> cs /\
  n = Z.of_nat (length (stream_ids cs)) - Z.of_nat (length (stream_ids out)).
Proof.
  intros cutoff.
  assert (cutoff = doomed_checkpoint_cutoff existing frontier_id (stream_ids cs)) as Ec.
  { unfold cutoff, doomed_checkpoint_cutoff.
    replace (list_to_set (btree_keys (dom (stream_checkpoint_positions start cs))) : gset Z)
      with (list_to_set (stream_ids cs) : gset Z); [done|].
    apply set_eq. intros x. rewrite !elem_of_list_to_set. unfold btree_keys.
    by rewrite merge_sort_Permutation, elem_of_elements, dom_positions, elem_of_list_to_set. }
  pose proof (cutoff_spec existing frontier_id (stream_ids cs)) as Hspec. cbv zeta in Hspec.
  rewrite <-Ec in Hspec. destruct cutoff as [c|].
  - pose proof (downgrade_count anchors c cs) as Hn.
    pose proof (downgrade_settles anchors c (survivors existing frontier_id (stream_ids cs)) cs) as Hs.
    destruct (downgrade_doomed_checkpoints anchors c cs) as [out n]. simpl in *. split; [|done].
    apply Hs. intros id Hid. apply Hspec. set_solver.
  - split; [|lia]. rewrite <-(list_fmap_id cs) at 1. apply list_fmap_ext. intros i c Hc.
    destruct c as [[h [|id m| |]]|]; try done. simpl.
    rewrite bool_decide_true; [done|]. apply Hspec; [|done].
    apply elem_of_union_l, elem_of_list_to_set, list_elem_of_omap.
    exists (Some (h, Checkpoint id m)). split; [|done]. apply list_elem_of_lookup. eauto.
Qed.

(** A batch deep below the tip keeps no per-block checkpoint but its durable anchors. *)
Lemma deep_stream_keeps_anchors {H} anchors (stream : list (H * Retention)) id :
  id < u32_max -> id ∈ stream_ids (Some <$> doom_deep_history_stream anchors stream) ->
  should_retain_anchor anchors id = true.
Proof.
  intros Hid. unfold stream_ids. rewrite list_elem_of_omap. intros (s & Hs & E).
  apply list_elem_of_fmap in Hs as ([h r] & -> & Hin).
  apply list_elem_of_fmap in Hin as ([h0 r0] & [= -> ->] & _).
  destruct r0 as [|id0 m| |]; simpl in E; try done.
  destruct (Z.ltb_spec id0 u32_max); simpl in E.
  - destruct (should_retain_anchor anchors id0) eqn:Ea; simpl in E; [by simplify_eq|by destruct m].
  - simplify_eq. lia.
Qed.

(** A hundred and two ids, one per block: the two oldest lose their flag, an anchor keeps it. *)
Example downgrade_sample :
  let cs := (fun h => Some (h, Checkpoint h (if h =? 7 then MarkMarked else MarkNone))) <$> seqZ 7 102 in
  doomed_checkpoint_cutoff [] 6 (stream_ids cs) = Some 9 /\
  take 2 (downgrade_doomed_checkpoints None 9 cs).1 = [Some (7, Marked); Some (8, Ephemeral)] /\
  (downgrade_doomed_checkpoints None 9 cs).2 = 2 /\
  (downgrade_doomed_checkpoints (Some (fun h => h =? 8)) 9 cs).2 = 1.
Proof. vm_compute. done. Qed.
End Checkpoints.
