(* ===== verification/SparseStore.v ===== *)
(** * The in-memory shard store: [core/src/persist.rs]

    One range's commitment tree lives in memory ([SparseShardStore]): it is seeded from the
    wallet database, changed by the tree library through the [ShardStore] trait, and its
    dirty part is flushed back inside the transaction that stores the blocks.  Also the
    open-time heal of a wallet with a flood of checkpoints, generic over the trait.

    A shard is a value of the tree library ([T]), of which the store reads its index and
    whether its root is a leaf; the cap is another ([C]).  The wallet database's own store
    is the class [TreeDb].  The three pools run the same code on their own trees. *)

From S2P Require Export Checkpoints.

Module SparseStore.
Import Checkpoints.

(** [shardtree::store::Checkpoint]. *)
Record Cp := mkCp { tree_state : option Z; marks_removed : gset Z }.
#[export] Instance cp_eq_dec : EqDecision Cp.
Proof. solve_decision. Defined.

(** [enum SparseStoreError]. *)
Inductive SparseStoreError := NotPreloaded (idx : Z) | Unsupported (name : string).

(** What the store reads of a shard of the tree library. *)
Class Shard (T : Type) := mkShard {
  root_index : T -> Z;
  root_is_leaf : T -> bool;
}.

Section Store.
Context {T C : Type} `{!Shard T} (empty_cap : C).

(** [struct SparseShardStore]; the shard level is fixed per pool. *)
Record SparseShardStore := mkStore {
  db_shard_indices : gset Z;
  shards : gmap Z T;
  dirty_shards : gset Z;
  cap : C;
  cap_dirty : bool;
  checkpoints : gmap Z Cp;
  db_checkpoints : gmap Z Cp;
  retained : gset Z;
}.
#[export] Instance eta_Store : Eta SparseShardStore := fun s =>
  mkStore s.(db_shard_indices) s.(shards) s.(dirty_shards) s.(cap) s.(cap_dirty) s.(checkpoints)
    s.(db_checkpoints) s.(retained).

(** [SparseShardStore::new]. *)
Definition store_new : SparseShardStore := mkStore ∅ ∅ ∅ empty_cap false ∅ ∅ ∅.

(** [shard_has_interior]. *)
Definition shard_has_interior (idx : Z) (s : SparseShardStore) : bool :=
  match s.(shards) !! idx with
  | Some t => negb (root_is_leaf t)
  | None => bool_decide (idx ∈ s.(db_shard_indices))
  end.

(** [checkpoint_delta]: the ids to remove and the checkpoints to add, each in id order. *)
Definition changed (mem db : Cp) : bool :=
  bool_decide (mem.(tree_state) <> db.(tree_state)) || bool_decide (mem.(marks_removed) <> db.(marks_removed)).

Definition checkpoint_delta (s : SparseShardStore) : list Z * list (Z * Cp) :=
  let changes := omap (fun p : Z * Cp =>
    match s.(checkpoints) !! p.1 with
    | None => Some (p.1, None)
    | Some mem => if changed mem p.2 then Some (p.1, Some mem) else None
    end) (btree_entries s.(db_checkpoints)) in
  let fresh := filter (fun p : Z * Cp => s.(db_checkpoints) !! p.1 = None) (btree_entries s.(checkpoints)) in
  (changes.*1, omap (fun c : Z * option Cp => (fun cp => (c.1, cp)) <$> c.2) changes ++ fresh).

(** *** The [ShardStore] trait *)

Definition get_shard (idx : Z) (s : SparseShardStore) : result SparseStoreError (option T) :=
  match s.(shards) !! idx with
  | Some t => Ok (Some t)
  | None => if bool_decide (idx ∈ s.(db_shard_indices)) then Err (NotPreloaded idx) else Ok None
  end.

Definition last_shard (s : SparseShardStore) : result SparseStoreError (option T) :=
  Ok (last (btree_values s.(shards))).

Definition put_shard (subtree : T) (s : SparseShardStore) : SparseShardStore :=
  let idx := root_index subtree in
  s <| shards := <[idx := subtree]> s.(shards) |> <| dirty_shards := {[idx]} ∪ s.(dirty_shards) |>.

Definition get_shard_roots (s : SparseShardStore) : result SparseStoreError (list Z) :=
  Ok (btree_keys (s.(db_shard_indices) ∪ dom s.(shards))).

Definition truncate_shards (shard_index : Z) (s : SparseShardStore) : SparseShardStore * result SparseStoreError unit :=
  (s, Err (Unsupported "truncate_shards")).

Definition get_cap (s : SparseShardStore) : result SparseStoreError C := Ok s.(cap).
Definition put_cap (c : C) (s : SparseShardStore) : SparseShardStore := s <| cap := c |> <| cap_dirty := true |>.

Definition min_checkpoint_id (s : SparseShardStore) : result SparseStoreError (option Z) :=
  Ok (head (btree_entries s.(checkpoints)).*1).
Definition max_checkpoint_id (s : SparseShardStore) : result SparseStoreError (option Z) :=
  Ok (last (btree_entries s.(checkpoints)).*1).

Definition add_checkpoint (id : Z) (cp : Cp) (s : SparseShardStore) : SparseShardStore :=
  s <| checkpoints := <[id := cp]> s.(checkpoints) |>.

Definition checkpoint_count (s : SparseShardStore) : result SparseStoreError Z :=
  Ok (Z.of_nat (size s.(checkpoints))).

Definition get_checkpoint_at_depth (depth : nat) (s : SparseShardStore) : result SparseStoreError (option (Z * Cp)) :=
  Ok (reverse (btree_entries s.(checkpoints)) !! depth).

Definition get_checkpoint (id : Z) (s : SparseShardStore) : result SparseStoreError (option Cp) :=
  Ok (s.(checkpoints) !! id).

(** [with_checkpoints] and [for_each_checkpoint]: the entries the callback is given. *)
Definition for_each_checkpoint (limit : Z) (s : SparseShardStore) : result SparseStoreError (list (Z * Cp)) :=
  Ok (take (Z.to_nat limit) (btree_entries s.(checkpoints))).

(** [update_checkpoint_with]: the callback may fail, after it has changed the entry. *)
Definition update_checkpoint_with (id : Z) (update : Cp -> Cp * result SparseStoreError unit) (s : SparseShardStore)
  : SparseShardStore * result SparseStoreError bool :=
  match s.(checkpoints) !! id with
  | None => (s, Ok false)
  | Some cp =>
    let '(cp', r) := update cp in
    (s <| checkpoints := <[id := cp']> s.(checkpoints) |>,
     match r with Ok _ => Ok true | Err e => Err e end)
  end.

Definition remove_checkpoint (id : Z) (s : SparseShardStore) : SparseShardStore :=
  s <| checkpoints := delete id s.(checkpoints) |>.
Definition add_retained_checkpoint (id : Z) (s : SparseShardStore) : SparseShardStore :=
  s <| retained := {[id]} ∪ s.(retained) |>.
Definition remove_retained_checkpoint (id : Z) (s : SparseShardStore) : SparseShardStore :=
  s <| retained := s.(retained) ∖ {[id]} |>.
Definition retained_checkpoints (s : SparseShardStore) : result SparseStoreError (gset Z) := Ok s.(retained).
Definition truncate_checkpoints_retaining (id : Z) (s : SparseShardStore)
  : SparseShardStore * result SparseStoreError unit := (s, Err (Unsupported "truncate_checkpoints_retaining")).

(** The changes the tree library may make. *)
Inductive Op :=
| OPutShard (t : T) | OPutCap (c : C) | OAddCheckpoint (id : Z) (cp : Cp) | ORemoveCheckpoint (id : Z)
| OUpdateCheckpoint (id : Z) (update : Cp -> Cp * result SparseStoreError unit)
| OAddRetained (id : Z) | ORemoveRetained (id : Z).

Definition step (s : SparseShardStore) (o : Op) : SparseShardStore :=
  match o with
  | OPutShard t => put_shard t s
  | OPutCap c => put_cap c s
  | OAddCheckpoint id cp => add_checkpoint id cp s
  | ORemoveCheckpoint id => remove_checkpoint id s
  | OUpdateCheckpoint id f => (update_checkpoint_with id f s).1
  | OAddRetained id => add_retained_checkpoint id s
  | ORemoveRetained id => remove_retained_checkpoint id s
  end.
End Store.
Arguments SparseShardStore T C : clear implicits.
Arguments Op T C : clear implicits.

(** ** The wallet database's store, and the seed and flush of a range *)

(** The database's own store of one pool, as the seed reads it, and the two calls of a flush:
    [put_*_shards] and [ensure_retained]. *)
Class TreeDb (D T C : Type) := mkTreeDb {
  db_shard_roots : D -> result string (list Z);
  db_all_checkpoints : D -> result string (list (Z * Cp));
  db_get_shard : Z -> D -> result string (option T);
  db_get_cap : D -> result string C;
  put_shards : list T -> option C -> list Z -> list (Z * Cp) -> D -> D * result string unit;
  ensure_retained : Z -> D -> D * result string unit;
}.

Section Flush.
Context {D T C : Type} `{!Shard T} `{!TreeDb D T C} (empty_cap : C) (anchors : option (Z -> bool)).
Abbreviation Store := (SparseShardStore T C).

Fixpoint load_shards (roots : list Z) (d : D) (m : gmap Z T) : result string (gmap Z T) :=
  match roots with
  | [] => Ok m
  | idx :: roots' =>
    let? shard := db_get_shard idx d in
    load_shards roots' d (match shard with Some t => <[idx := t]> m | None => m end)
  end.

(** [seed_sapling], [seed_orchard], [seed_ironwood]. *)
Definition seed (d : D) : result string Store :=
  let store := store_new empty_cap in
  let? roots := db_shard_roots d in
  let? entries := db_all_checkpoints d in
  let cps := foldl (fun m (p : Z * Cp) => <[p.1 := p.2]> m) ∅ entries in
  let? loaded := load_shards roots d store.(shards) in
  let? c := db_get_cap d in
  Ok (store <| db_shard_indices := list_to_set roots |> <| shards := loaded |> <| cap := c |>
        <| checkpoints := cps |> <| db_checkpoints := cps |>
        <| retained := list_to_set (filter (fun id => should_retain_anchor anchors id = true) (btree_entries cps).*1) |>).

Fixpoint collect_dirty (dirty : list Z) (s : Store) : result string (list T) :=
  match dirty with
  | [] => Ok []
  | idx :: dirty' =>
    match s.(shards) !! idx with
    | None => Err ("dirty shard " +:+ pretty idx +:+ " missing from memory")
    | Some t => let? ts := collect_dirty dirty' s in Ok (t :: ts)
    end
  end.

Fixpoint mark_retained (marks : list Z) (d : D) : D * result string unit :=
  match marks with
  | [] => (d, Ok tt)
  | h :: marks' =>
    match ensure_retained h d with
    | (d', Ok _) => mark_retained marks' d'
    | (d', Err e) => (d', Err e)
    end
  end.

(** The end of a flush: memory and database agree. *)
Definition clean (s : Store) : Store :=
  s <| db_checkpoints := s.(checkpoints) |> <| dirty_shards := ∅ |> <| cap_dirty := false |>.

(** [flush_sapling], [flush_orchard], [flush_ironwood].  The caller's transaction rolls the
    database back on an error. *)
Definition flush (s : Store) (d : D) : D * result string Store :=
  let '(remove, add) := checkpoint_delta s in
  match collect_dirty (btree_keys s.(dirty_shards)) s with
  | Err e => (d, Err e)
  | Ok dirty =>
    match put_shards dirty (if s.(cap_dirty) then Some s.(cap) else None) remove add d with
    | (d1, Err e) => (d1, Err e)
    | (d1, Ok _) =>
      match mark_retained (filter (fun h => h ∈ s.(retained)) add.*1) d1 with
      | (d2, Err e) => (d2, Err e)
      | (d2, Ok _) => (d2, Ok (clean s))
      end
    end
  end.

(** *** What the database's store promises *)

(** Its contents, and that its calls read and change them as documented: a write replaces the
    shards it is given, the cap if one is given, and the removed and added checkpoints. *)
Class TreeDbLaws (shards_of : D -> gmap Z T) (cap_of : D -> C) (cps_of : D -> gmap Z Cp)
    (retained_of : D -> gset Z) : Prop := {
  shards_located d idx t : shards_of d !! idx = Some t -> root_index t = idx;
  roots_read d l : db_shard_roots d = Ok l -> list_to_set l = (dom (shards_of d) : gset Z);
  shard_read d idx r : db_get_shard idx d = Ok r -> r = shards_of d !! idx;
  cap_read d c : db_get_cap d = Ok c -> c = cap_of d;
  cps_read d l : db_all_checkpoints d = Ok l -> l = btree_entries (cps_of d);
  put_writes ts c remove add d d' : put_shards ts c remove add d = (d', Ok tt) ->
    shards_of d' = foldl (fun m t => <[root_index t := t]> m) (shards_of d) ts /\
    cap_of d' = default (cap_of d) c /\
    cps_of d' = foldl (fun m (p : Z * Cp) => <[p.1 := p.2]> m)
                  (filter (fun p : Z * Cp => p.1 ∉ remove) (cps_of d)) add /\
    retained_of d' = retained_of d;
  retain_writes h d d' : ensure_retained h d = (d', Ok tt) ->
    shards_of d' = shards_of d /\ cap_of d' = cap_of d /\ cps_of d' = cps_of d /\
    retained_of d' = {[h]} ∪ retained_of d;
}.

(** A range: rounds of changes by the tree library, each flushed. *)
Fixpoint rounds (rs : list (list (Op T C))) (s : Store) (d : D) : D * result string Store :=
  match rs with
  | [] => (d, Ok s)
  | ops :: rs' =>
    match flush (foldl step s ops) d with
    | (d', Err e) => (d', Err e)
    | (d', Ok s') => rounds rs' s' d'
    end
  end.

Context {shards_of : D -> gmap Z T} {cap_of : D -> C} {cps_of : D -> gmap Z Cp} {retained_of : D -> gset Z}.
Context `{!TreeDbLaws shards_of cap_of cps_of retained_of}.

(** Memory differs from the database only where it is marked dirty. *)
Record mirrors (s : Store) (d : D) : Prop := {
  m_checkpoints : s.(db_checkpoints) = cps_of d;
  m_shards idx : idx ∉ s.(dirty_shards) -> s.(shards) !! idx = shards_of d !! idx;
  m_cap : s.(cap_dirty) = false -> s.(cap) = cap_of d;
  m_dirty : s.(dirty_shards) ⊆ dom s.(shards);
  m_known : s.(db_shard_indices) ⊆ dom s.(shards);
  m_located idx t : s.(shards) !! idx = Some t -> root_index t = idx;
}.

Lemma step_mirrors s d o : mirrors s d -> mirrors (step s o) d.
Proof.
  intros []. destruct o as [t| | | |id f| |]; simpl; try (split; simpl; done).
  - split; simpl; try done.
    + intros idx Hidx. rewrite lookup_insert_ne by set_solver. apply m_shards0. set_solver.
    + rewrite dom_insert_L. set_solver.
    + rewrite dom_insert_L. set_solver.
    + intros idx t' [[<- <-]|[_ Hl]]%lookup_insert_Some; [done|by eapply m_located0].
  - unfold update_checkpoint_with. destruct (s.(checkpoints) !! id) as [cp|]; [|by split].
    destruct (f cp) as [cp' r]. split; simpl; done.
Qed.

Lemma steps_mirror s d ops : mirrors s d -> mirrors (foldl step s ops) d.
Proof. revert s. induction ops as [|o ops IH]; intros s Hs; [done|]. apply IH. by apply step_mirrors. Qed.

(** No shard the database has is missing from memory. *)
Lemma mirrors_get_shard s d idx : mirrors s d -> exists r, get_shard idx s = Ok r.
Proof.
  intros Hm. unfold get_shard. destruct (s.(shards) !! idx) eqn:E; [eauto|].
  rewrite bool_decide_false; [eauto|]. intros Hin%(m_known _ _ Hm). apply elem_of_dom in Hin as [? Hin]. congruence.
Qed.

(** *** Seeding *)

Lemma load_shards_spec roots d m m' : load_shards roots d m = Ok m' -> forall idx,
  m' !! idx = if bool_decide (idx ∈ roots) then match shards_of d !! idx with Some t => Some t | None => m !! idx end
              else m !! idx.
Proof.
  revert m. induction roots as [|i roots IH]; intros m Hm idx; simpl in Hm; [by simplify_eq|].
  destruct (db_get_shard i d) as [sh|e] eqn:E; simpl in Hm; [|done]. apply shard_read in E as ->.
  rewrite (IH _ Hm). destruct (decide (idx = i)) as [->|Hne].
  - rewrite (bool_decide_true (i ∈ i :: roots)) by set_solver.
    destruct (shards_of d !! i) as [t|] eqn:Es; [|by case_bool_decide].
    case_bool_decide; [done|]. by rewrite lookup_insert_eq.
  - assert (bool_decide (idx ∈ i :: roots) = bool_decide (idx ∈ roots)) as -> by (apply bool_decide_ext; set_solver).
    destruct (shards_of d !! i) as [t|]; [|done]. by rewrite lookup_insert_ne by done.
Qed.

Lemma foldl_insert_notin {V} (l : list (Z * V)) (m : gmap Z V) k :
  k ∉ l.*1 -> foldl (fun m (p : Z * V) => <[p.1 := p.2]> m) m l !! k = m !! k.
Proof.
  revert m. induction l as [|[k' v'] l IH]; intros m Hk; [done|]. csimpl in Hk. simpl.
  rewrite IH by set_solver. apply lookup_insert_ne. set_solver.
Qed.

Lemma foldl_insert_lookup {V} (l : list (Z * V)) (m : gmap Z V) k v :
  NoDup l.*1 -> (k, v) ∈ l -> foldl (fun m (p : Z * V) => <[p.1 := p.2]> m) m l !! k = Some v.
Proof.
  revert m. induction l as [|[k' v'] l IH]; intros m Hnd Hin; csimpl in *; [set_solver|].
  apply NoDup_cons in Hnd as [Hk' Hnd]. apply elem_of_cons in Hin as [[= <- <-]|Hin].
  - rewrite foldl_insert_notin by done. apply lookup_insert_eq.
  - by apply IH.
Qed.

Lemma foldl_insert_entries {V} (m : gmap Z V) :
  foldl (fun m (p : Z * V) => <[p.1 := p.2]> m) ∅ (btree_entries m) = m.
Proof.
  apply map_eq. intros k. destruct (m !! k) as [v|] eqn:E.
  - apply foldl_insert_lookup; [apply NoDup_btree_keys|]. by apply elem_of_btree_entries.
  - rewrite foldl_insert_notin; [done|]. intros ([k' v] & -> & Hin)%list_elem_of_fmap.
    apply elem_of_btree_entries in Hin. simpl in E. congruence.
Qed.

Lemma seed_mirrors d s : seed d = Ok s -> mirrors s d /\ s.(checkpoints) = cps_of d.
Proof.
  unfold seed. destruct (db_shard_roots d) as [roots|] eqn:Er; [|done]. simpl.
  destruct (db_all_checkpoints d) as [entries|] eqn:Ee; [|done]. simpl.
  destruct (load_shards roots d ∅) as [loaded|] eqn:El; [|done]. simpl.
  destruct (db_get_cap d) as [c|] eqn:Ec; [|done]. simpl. intros [= <-].
  apply cps_read in Ee as ->. apply cap_read in Ec as ->. rewrite foldl_insert_entries.
  apply roots_read in Er.
  assert (forall idx, loaded !! idx = shards_of d !! idx) as Hl.
  { intros idx. rewrite (load_shards_spec _ _ _ _ El), lookup_empty. case_bool_decide as Hin.
    - by destruct (shards_of d !! idx).
    - symmetry. apply not_elem_of_dom. rewrite <-Er, elem_of_list_to_set. done. }
  split; [|done]. split; simpl; try done; try set_solver.
  - rewrite Er. intros idx. rewrite !elem_of_dom, Hl. done.
  - intros idx t. rewrite Hl. apply shards_located.
Qed.

(** *** The checkpoint delta *)

Lemma changed_spec m db : changed m db = true <-> m <> db.
Proof.
  unfold changed. rewrite orb_true_iff, !bool_decide_eq_true. destruct m as [a b], db as [c e]; simpl.
  destruct (decide (a = c)); destruct (decide (b = e)); naive_solver.
Qed.

Lemma elem_of_remove (s : Store) id : id ∈ (checkpoint_delta s).1 <->
  exists db, s.(db_checkpoints) !! id = Some db /\ s.(checkpoints) !! id <> Some db.
Proof.
  unfold checkpoint_delta. simpl. rewrite list_elem_of_fmap. split.
  - intros ([id' o] & -> & ([i db] & Hin & E)%list_elem_of_omap). simpl in *.
    apply elem_of_btree_entries in Hin. exists db.
    destruct (s.(checkpoints) !! i) as [m|] eqn:Em; [destruct (changed m db) eqn:Ech|]; simplify_eq/=.
    + split; [done|]. rewrite Em. intros [= ->]. by apply changed_spec in Ech.
    + by rewrite Em.
  - intros (db & Hdb & Hm). destruct (s.(checkpoints) !! id) as [m|] eqn:Em.
    + exists (id, Some m). split; [done|]. apply list_elem_of_omap. exists (id, db).
      split; [by apply elem_of_btree_entries|]. simpl. rewrite Em.
      destruct (changed m db) eqn:Ech; [done|]. exfalso.
      assert (~ m <> db) as Hnn by (rewrite <-changed_spec; congruence). apply Hnn. congruence.
    + exists (id, None). split; [done|]. apply list_elem_of_omap. exists (id, db).
      split; [by apply elem_of_btree_entries|]. simpl. by rewrite Em.
Qed.

Lemma elem_of_add (s : Store) id cp : (id, cp) ∈ (checkpoint_delta s).2 <->
  s.(checkpoints) !! id = Some cp /\ s.(db_checkpoints) !! id <> Some cp.
Proof.
  unfold checkpoint_delta. simpl. rewrite elem_of_app, list_elem_of_omap, list_elem_of_filter. split.
  - intros [([i o] & ([i' db] & Hin & E)%list_elem_of_omap & Eo)|[Hnone Hin]]; simpl in *.
    + apply elem_of_btree_entries in Hin. destruct (s.(checkpoints) !! i') as [m|] eqn:Em; [|simplify_eq; done].
      destruct (changed m db) eqn:Ech; simplify_eq/=. split; [done|]. rewrite Hin. intros [= ->].
      by apply changed_spec in Ech.
    + apply elem_of_btree_entries in Hin. by rewrite Hnone.
  - intros [Hm Hdb]. destruct (s.(db_checkpoints) !! id) as [db|] eqn:E.
    + left. exists (id, Some cp). split; [|done]. apply list_elem_of_omap. exists (id, db).
      split; [by apply elem_of_btree_entries|]. simpl. rewrite Hm.
      rewrite (proj2 (changed_spec cp db)); [done|]. congruence.
    + right. split; [done|]. by apply elem_of_btree_entries.
Qed.

Lemma NoDup_add (s : Store) : NoDup (checkpoint_delta s).2.*1.
Proof.
  unfold checkpoint_delta. cbn zeta. simpl snd. rewrite fmap_app, NoDup_app. split_and!.
  - set (l := btree_entries s.(db_checkpoints)). assert (NoDup l.*1) as Hnd by apply NoDup_btree_keys.
    clearbody l. induction l as [|[i db] l IH]; simpl; [constructor|]. csimpl in Hnd.
    apply NoDup_cons in Hnd as [Hi Hnd]. specialize (IH Hnd).
    assert (forall x, x ∈ (omap (fun c : Z * option Cp => (fun cp => (c.1, cp)) <$> c.2)
      (omap (fun p : Z * Cp => match s.(checkpoints) !! p.1 with
        | None => Some (p.1, None) | Some mem => if changed mem p.2 then Some (p.1, Some mem) else None end) l)).*1 ->
      x ∈ l.*1) as Hsub.
    { intros x ([a b] & -> & ([a' o] & ([c e] & Hin & E)%list_elem_of_omap & Eo)%list_elem_of_omap)%list_elem_of_fmap.
      simpl in *. apply list_elem_of_fmap. exists (c, e). split; [|done]. simpl.
      repeat case_match; simplify_eq/=; done. }
    destruct (s.(checkpoints) !! i) as [m|]; [|done]. destruct (changed m db); [|done]. csimpl.
    apply NoDup_cons. split; [|done]. intros Hx. by apply Hi, Hsub.
  - intros x ([a b] & -> & ([a' o] & ([c e] & Hin & E)%list_elem_of_omap & Eo)%list_elem_of_omap)%list_elem_of_fmap
      ([a2 b2] & Ea & [Hnone _]%list_elem_of_filter)%list_elem_of_fmap. simpl in *.
    apply elem_of_btree_entries in Hin. repeat case_match; simplify_eq/=; congruence.
  - eapply sublist_NoDup; [apply (NoDup_btree_keys s.(checkpoints))|]. apply fmap_sublist, sublist_filter.
Qed.

Lemma delta_applies (s : Store) :
  foldl (fun m (p : Z * Cp) => <[p.1 := p.2]> m)
    (filter (fun p : Z * Cp => p.1 ∉ (checkpoint_delta s).1) s.(db_checkpoints)) (checkpoint_delta s).2
  = s.(checkpoints).
Proof.
  apply map_eq. intros id.
  destruct (decide (s.(checkpoints) !! id = s.(db_checkpoints) !! id)) as [Heq|Hne].
  - rewrite foldl_insert_notin.
    + rewrite Heq, map_lookup_filter. destruct (s.(db_checkpoints) !! id) as [db|] eqn:E; [|done].
      cbn [mbind option_bind]. rewrite option_guard_True; [done|]. cbn [fst]. rewrite elem_of_remove, E. intros (db' & [= <-] & Hx). done.
    + intros ([i cp] & -> & Hin)%list_elem_of_fmap. apply elem_of_add in Hin as [H1 H2]. simpl in Heq. congruence.
  - destruct (s.(checkpoints) !! id) as [cp|] eqn:Em.
    + apply foldl_insert_lookup; [apply NoDup_add|]. apply elem_of_add. split; [done|]. congruence.
    + rewrite foldl_insert_notin.
      * rewrite map_lookup_filter. destruct (s.(db_checkpoints) !! id) as [db|] eqn:E; [|done].
        cbn [mbind option_bind]. rewrite option_guard_False; [done|]. cbn [fst]. rewrite elem_of_remove, E, Em. naive_solver.
      * intros ([i cp] & -> & Hin)%list_elem_of_fmap. apply elem_of_add in Hin as [H1 H2]. simpl in *. congruence.
Qed.

(** *** The flush *)

Lemma collect_dirty_spec l (s : Store) ts : collect_dirty l s = Ok ts ->
  Forall2 (fun idx t => s.(shards) !! idx = Some t) l ts.
Proof.
  revert ts. induction l as [|idx l IH]; intros ts E; simpl in E; [simplify_eq; constructor|].
  destruct (s.(shards) !! idx) as [t|] eqn:Et; [|done].
  destruct (collect_dirty l s) as [ts'|]; simpl in E; [|done]. simplify_eq. constructor; [done|]. by apply IH.
Qed.

Lemma collect_dirty_ok l (s : Store) : (forall idx, idx ∈ l -> idx ∈ dom s.(shards)) -> exists ts, collect_dirty l s = Ok ts.
Proof.
  induction l as [|idx l IH]; intros Hl; simpl; [eauto|].
  destruct (elem_of_dom s.(shards) idx) as [Hd _]. destruct (Hd (Hl idx ltac:(set_solver))) as [t ->].
  destruct IH as [ts ->]; [set_solver|]. simpl. eauto.
Qed.

Lemma foldl_put_shards (s : Store) l ts (m : gmap Z T) idx :
  Forall2 (fun i t => s.(shards) !! i = Some t) l ts ->
  (forall i t, s.(shards) !! i = Some t -> root_index t = i) ->
  foldl (fun m t => <[root_index t := t]> m) m ts !! idx =
  if bool_decide (idx ∈ l) then s.(shards) !! idx else m !! idx.
Proof.
  intros Hf Hloc. revert m. induction Hf as [|i t l ts Hi Hf IH]; intros m; simpl; [done|].
  rewrite IH, (Hloc i t Hi). destruct (decide (idx = i)) as [->|Hne].
  - rewrite (bool_decide_true (i ∈ i :: l)) by set_solver. case_bool_decide; [done|]. by rewrite lookup_insert_eq.
  - assert (bool_decide (idx ∈ i :: l) = bool_decide (idx ∈ l)) as -> by (apply bool_decide_ext; set_solver).
    by rewrite lookup_insert_ne by done.
Qed.

Lemma mark_retained_spec marks d d' : mark_retained marks d = (d', Ok tt) ->
  shards_of d' = shards_of d /\ cap_of d' = cap_of d /\ cps_of d' = cps_of d /\
  retained_of d' = list_to_set marks ∪ retained_of d.
Proof.
  revert d. induction marks as [|h marks IH]; intros d E; simpl in E.
  - simplify_eq. set_solver.
  - destruct (ensure_retained h d) as [d1 [[]|]] eqn:E1; [|done]. apply retain_writes in E1 as (Hs1 & Hc1 & Hp1 & Hr1).
    destruct (IH _ E) as (-> & -> & -> & ->). rewrite Hr1. split_and!; [done..|set_solver].
Qed.

(** Memory and database agree. *)
Definition agrees (s : Store) (d : D) : Prop :=
  s.(shards) = shards_of d /\ s.(cap) = cap_of d /\ s.(checkpoints) = cps_of d /\
  s.(dirty_shards) = ∅ /\ s.(cap_dirty) = false.

Lemma flush_agrees s d d' s' : mirrors s d -> flush s d = (d', Ok s') ->
  s' = clean s /\ mirrors s' d' /\ agrees s' d' /\
  retained_of d' = list_to_set (filter (fun h => h ∈ s.(retained)) (checkpoint_delta s).2.*1) ∪ retained_of d.
Proof.
  intros Hm. unfold flush. destruct (checkpoint_delta s) as [remove add] eqn:Ed.
  destruct (collect_dirty _ s) as [ts|] eqn:Et; [|done].
  destruct (put_shards ts _ remove add d) as [d1 [[]|]] eqn:Ep; [|done].
  destruct (mark_retained _ d1) as [d2 [[]|]] eqn:Em; [|done]. intros [= <- <-].
  apply put_writes in Ep as (Hs & Hc & Hcp & Hr). apply mark_retained_spec in Em as (Hs2 & Hc2 & Hcp2 & Hr2).
  assert (s.(shards) = shards_of d2) as Es.
  { apply map_eq. intros idx. rewrite Hs2, Hs.
    rewrite (foldl_put_shards s _ _ _ _ (collect_dirty_spec _ _ _ Et) (m_located _ _ Hm)).
    case_bool_decide as Hin; [done|]. apply (m_shards _ _ Hm). intros Hd. apply Hin.
    unfold btree_keys. by rewrite merge_sort_Permutation, elem_of_elements. }
  assert (s.(cap) = cap_of d2) as Ec.
  { rewrite Hc2, Hc. destruct s.(cap_dirty) eqn:E; [done|]. by apply (m_cap _ _ Hm). }
  assert (s.(checkpoints) = cps_of d2) as Ecp.
  { rewrite Hcp2, Hcp, <-(m_checkpoints _ _ Hm), <-(delta_applies s), Ed. done. }
  split; [done|]. split; [|split].
  - split; simpl; try done.
    + intros idx _. by rewrite Es.
    + apply (m_known _ _ Hm).
    + apply (m_located _ _ Hm).
  - by split_and!.
  - simpl. by rewrite Hr2, Hr.
Qed.

(** Every id a flush adds is new to the database or removed first. *)
Lemma delta_no_conflict (s : Store) id cp : (id, cp) ∈ (checkpoint_delta s).2 ->
  id ∈ (checkpoint_delta s).1 \/ s.(db_checkpoints) !! id = None.
Proof.
  intros [Hm Hdb]%elem_of_add. destruct (s.(db_checkpoints) !! id) as [db|] eqn:E; [|by right].
  left. apply elem_of_remove. exists db. rewrite Hm. split; [done|]. congruence.
Qed.

Lemma rounds_agree rs s d d' s' : mirrors s d -> rs <> [] -> rounds rs s d = (d', Ok s') ->
  mirrors s' d' /\ agrees s' d'.
Proof.
  revert s d. induction rs as [|ops rs IH]; intros s d Hm Hrs E; [done|]. simpl in E.
  destruct (flush (foldl step s ops) d) as [d1 [s1|]] eqn:Ef; [|done].
  apply flush_agrees in Ef as (_ & Hm1 & Ha1 & _); [|by apply steps_mirror].
  destruct rs as [|ops' rs]; [simpl in E; by simplify_eq|]. by apply (IH s1 d1).
Qed.
End Flush.

(** ** The heal of a flooded wallet *)

(** What [heal_pool_checkpoints] uses of a store. *)
Class CheckpointStore (S E : Type) := mkCpStore {
  at_depth : nat -> S -> result E (option (Z * Cp));
  retained_ids : S -> result E (gset Z);
  count : S -> result E Z;
  entries_upto : Z -> S -> result E (list (Z * Cp));
  remove : Z -> S -> S * result E unit;
}.

Section Heal.
Context {S E : Type} `{!CheckpointStore S E}.

Fixpoint remove_all (ids : list Z) (s : S) : S * result E unit :=
  match ids with
  | [] => (s, Ok tt)
  | id :: ids' => match remove id s with (s', Ok _) => remove_all ids' s' | (s', Err e) => (s', Err e) end
  end.

(** [heal_pool_checkpoints]. *)
Definition heal_pool_checkpoints (s : S) : S * result E Z :=
  match at_depth 0 s with
  | Err e => (s, Err e)
  | Ok None => (s, Ok 0)
  | Ok (Some (max_id, _)) =>
    let cutoff := sat_sub max_id DEEP_HISTORY_CHECKPOINT_MARGIN in
    match retained_ids s, count s with
    | Err e, _ => (s, Err e)
    | Ok _, Err e => (s, Err e)
    | Ok kept, Ok n =>
      match entries_upto n s with
      | Err e => (s, Err e)
      | Ok entries =>
        let doomed := filter (fun id => id < cutoff /\ id ∉ kept) entries.*1 in
        match remove_all doomed s with
        | (s', Err e) => (s', Err e)
        | (s', Ok _) => (s', Ok (Z.of_nat (length doomed)))
        end
      end
    end
  end.

(** The trait's contract on checkpoints, for a store that does not fail: [cps] its entries,
    [kept] its retained ids. *)
Class CheckpointStoreLaws (cps : S -> gmap Z Cp) (kept : S -> gset Z) : Prop := {
  at_depth_read n s : at_depth n s = Ok (reverse (btree_entries (cps s)) !! n);
  retained_read s : retained_ids s = Ok (kept s);
  count_read s : count s = Ok (Z.of_nat (size (cps s)));
  entries_read n s : entries_upto n s = Ok (take (Z.to_nat n) (btree_entries (cps s)));
  remove_writes id s : exists s', remove id s = (s', Ok tt) /\ cps s' = delete id (cps s) /\ kept s' = kept s;
}.

Context {cps : S -> gmap Z Cp} {kept : S -> gset Z} `{!CheckpointStoreLaws cps kept}.

Lemma remove_all_spec ids s : exists s', remove_all ids s = (s', Ok tt) /\
  cps s' = filter (fun p : Z * Cp => p.1 ∉ ids) (cps s) /\ kept s' = kept s.
Proof.
  revert s. induction ids as [|id ids IH]; intros s; simpl.
  - exists s. split_and!; [done| |done]. symmetry. apply map_filter_id. set_solver.
  - destruct (remove_writes id s) as (s1 & -> & Hc & Hk). destruct (IH s1) as (s' & -> & Hc' & Hk').
    exists s'. split_and!; [done| |congruence]. rewrite Hc', Hc. apply map_eq. intros i.
    rewrite !map_lookup_filter. destruct (decide (i = id)) as [->|Hne].
    + rewrite lookup_delete_eq. simpl. destruct (cps s !! id); simpl; [|done].
      rewrite option_guard_False by set_solver. done.
    + rewrite lookup_delete_ne by done. destruct (cps s !! i); simpl; [|done].
      destruct (decide (i ∈ ids)).
      * rewrite !option_guard_False by set_solver. done.
      * rewrite !option_guard_True by set_solver. done.
Qed.

(** What a heal keeps: the ids within the margin of the newest one, and the retained. *)
Definition healthy (s : S) (id : Z) : Prop :=
  id ∈ kept s \/ forall m, m ∈ dom (cps s) -> m - DEEP_HISTORY_CHECKPOINT_MARGIN <= id.

Lemma newest_entry (m : gmap Z Cp) : match reverse (btree_entries m) !! 0%nat with
  | None => m = ∅
  | Some (id, cp) => m !! id = Some cp /\ forall i, i ∈ dom m -> i <= id
  end.
Proof.
  destruct (reverse (btree_entries m) !! 0%nat) as [[id cp]|] eqn:E0.
  - split.
    + apply elem_of_btree_entries, elem_of_reverse, list_elem_of_lookup. eauto.
    + intros i [cp' Hi]%elem_of_dom. apply elem_of_btree_entries, elem_of_reverse, list_elem_of_lookup in Hi as [j Hj].
      pose proof (lookup_lt_Some _ _ _ Hj) as Hlt. rewrite length_reverse in Hlt.
      destruct (decide (j = 0)%nat) as [->|]; [rewrite E0 in Hj; simplify_eq; lia|].
      rewrite reverse_lookup in E0, Hj by lia.
      apply (StronglySorted_lookup key_le (btree_entries m) (length (btree_entries m) - Datatypes.S j)
        (length (btree_entries m) - 1) (i, cp') (id, cp)); [|done|done|lia].
      apply btree_entries_sorted.
  - apply lookup_ge_None in E0. rewrite length_reverse in E0. apply map_eq. intros i. rewrite lookup_empty.
    destruct (m !! i) as [cp|] eqn:Hi; [|done]. apply elem_of_btree_entries in Hi.
    destruct (btree_entries m); [set_solver|simpl in E0; lia].
Qed.

(** The ids a heal removes, [max_id] being the newest. *)
Definition doomed_ids (max_id : Z) (s : S) : list Z :=
  filter (fun id => id < sat_sub max_id DEEP_HISTORY_CHECKPOINT_MARGIN /\ id ∉ kept s) (btree_entries (cps s)).*1.

Lemma elem_of_doomed max_id s id : id ∈ doomed_ids max_id s <->
  id ∈ dom (cps s) /\ id < sat_sub max_id DEEP_HISTORY_CHECKPOINT_MARGIN /\ id ∉ kept s.
Proof.
  unfold doomed_ids. rewrite list_elem_of_filter, list_elem_of_fmap, elem_of_dom. split.
  - intros [Hd ([i cp] & -> & Hin)]. apply elem_of_btree_entries in Hin. split; [by eexists|done].
  - intros [[cp Hcp] Hd]. split; [done|]. exists (id, cp). split; [done|]. by apply elem_of_btree_entries.
Qed.

Lemma heal_spec s : exists s' max_id, heal_pool_checkpoints s = (s', Ok (Z.of_nat (length (doomed_ids max_id s)))) /\
  cps s' = filter (fun p : Z * Cp => p.1 ∉ doomed_ids max_id s) (cps s) /\ kept s' = kept s /\
  (max_id ∈ dom (cps s) \/ cps s = ∅) /\ forall i, i ∈ dom (cps s) -> i <= max_id.
Proof.
  unfold heal_pool_checkpoints. rewrite at_depth_read. pose proof (newest_entry (cps s)) as Hnew.
  destruct (reverse (btree_entries (cps s)) !! 0%nat) as [[id cp]|] eqn:E0.
  - destruct Hnew as [Hid Hmax]. rewrite retained_read, count_read, entries_read, Nat2Z.id.
    rewrite take_ge by (rewrite length_btree_entries; lia).
    destruct (remove_all_spec (doomed_ids id s) s) as (s' & Hr & Hc & Hk).
    unfold doomed_ids in Hr. rewrite Hr. exists s', id. split_and!; try done. left. by eapply elem_of_dom_2.
  - exists s, 0. assert (doomed_ids 0 s = []) as ->.
    { unfold doomed_ids. rewrite Hnew. done. }
    split_and!; [done| |done|by right|].
    + symmetry. apply map_filter_id. set_solver.
    + rewrite Hnew, dom_empty_L. set_solver.
Qed.

Lemma heal_size max_id s s' : cps s' = filter (fun p : Z * Cp => p.1 ∉ doomed_ids max_id s) (cps s) ->
  Z.of_nat (length (doomed_ids max_id s)) = Z.of_nat (size (cps s)) - Z.of_nat (size (cps s')).
Proof.
  intros Hc.
  assert (dom (cps s') = dom (cps s) ∖ list_to_set (doomed_ids max_id s)) as Hd.
  { rewrite Hc. apply set_eq. intros i. rewrite elem_of_difference, elem_of_list_to_set, !elem_of_dom.
    rewrite map_lookup_filter. unfold is_Some. destruct (cps s !! i) as [cp|]; simpl; [|naive_solver].
    destruct (decide (i ∈ doomed_ids max_id s)).
    - rewrite option_guard_False by (intros Hn; by apply Hn). naive_solver.
    - rewrite option_guard_True by done. naive_solver. }
  rewrite <-!size_dom, Hd.
  assert (NoDup (doomed_ids max_id s)) as Hnd by (apply NoDup_filter, NoDup_btree_keys).
  assert (list_to_set (doomed_ids max_id s) ⊆ dom (cps s)) as Hsub.
  { intros i. rewrite elem_of_list_to_set, elem_of_doomed. by intros []. }
  pose proof (subseteq_size _ _ Hsub). rewrite size_difference by done.
  rewrite size_list_to_set in * by done. lia.
Qed.

(** A store in which nothing is doomed is left alone. *)
Lemma heal_idle s : (forall id, id ∈ dom (cps s) -> healthy s id) -> map_Forall (fun id _ => 0 <= id) (cps s) ->
  exists s', heal_pool_checkpoints s = (s', Ok 0) /\ cps s' = cps s.
Proof.
  intros Hh Hpos. destruct (heal_spec s) as (s' & m & Hr & Hc & Hk & Hin & Hmax).
  assert (doomed_ids m s = []) as Hnil.
  { destruct (doomed_ids m s) as [|id ids] eqn:Ed; [done|]. exfalso.
    assert (id ∈ doomed_ids m s) as Hid by (rewrite Ed; set_solver). apply elem_of_doomed in Hid as (Hd & Hlt & Hnk).
    destruct Hin as [Hin|Hempty]; [|rewrite Hempty in Hd; set_solver].
    destruct (Hh id Hd) as [?|Hm]; [done|]. specialize (Hm m Hin).
    apply elem_of_dom in Hd as [cp Hd]. pose proof (Hpos _ _ Hd). unfold sat_sub in Hlt. simpl in *. lia. }
  rewrite Hnil in Hr, Hc. exists s'. split; [done|]. rewrite Hc. apply map_filter_id. set_solver.
Qed.
End Heal.

(** The in-memory store keeps the contract. *)
#[export] Instance sparse_checkpoints {T C} : CheckpointStore (SparseShardStore T C) SparseStoreError :=
  {| at_depth := get_checkpoint_at_depth; retained_ids := retained_checkpoints; count := checkpoint_count;
     entries_upto := for_each_checkpoint; remove := fun id s => (remove_checkpoint id s, Ok tt) |}.

#[export] Instance sparse_checkpoints_laws {T C} :
  CheckpointStoreLaws (S := SparseShardStore T C) checkpoints retained.
Proof.
  split; intros; try done. eexists. split; [done|]. done.
Qed.

(** ** Properties *)

(** C12: A flush brings the database to what memory holds: for a range seeded from the database, after
    any rounds of changes by the tree library, each flushed in turn, if every write was accepted
    then shards, cap and checkpoints of the database are exactly those in memory, nothing is left
    dirty, and memory holds every shard the database knows, so no later read fails as not
    preloaded. *)
Theorem flush_writes_memory {D T C} `{!Shard T} `{!TreeDb D T C}
    {shards_of : D -> gmap Z T} {cap_of : D -> C} {cps_of : D -> gmap Z Cp} {retained_of : D -> gset Z}
    `{!TreeDbLaws shards_of cap_of cps_of retained_of} empty_cap anchors d s0 rs d' s' :
  seed empty_cap anchors d = Ok s0 -> rs <> [] -> rounds rs s0 d = (d', Ok s') ->
  s'.(shards) = shards_of d' /\ s'.(cap) = cap_of d' /\ s'.(checkpoints) = cps_of d' /\
  s'.(dirty_shards) = ∅ /\ s'.(cap_dirty) = false /\
  forall idx, get_shard idx s' = Ok (shards_of d' !! idx).
Proof.
  intros Hs Hrs Hr. destruct (seed_mirrors empty_cap anchors _ _ Hs) as [Hm _].
  destruct (rounds_agree _ _ _ _ _ Hm Hrs Hr) as [Hm' (E1 & E2 & E3 & E4 & E5)].
  split_and!; try done. intros idx. destruct (mirrors_get_shard _ _ idx Hm') as [r Hg].
  rewrite Hg, <-E1. f_equal. unfold get_shard in Hg. destruct (s'.(shards) !! idx); [by simplify_eq|].
  case_bool_decide; by simplify_eq.
Qed.

(** The heal removes exactly the flood: on any store that keeps the trait's contract it removes
    every checkpoint deeper than the margin below the newest one that is not a retained anchor,
    keeps all others and the retained set, returns how many it removed, and a second heal removes
    nothing. *)
Theorem heal_removes_exactly_the_flood {S E} `{!CheckpointStore S E} {cps : S -> gmap Z Cp} {kept : S -> gset Z}
    `{!CheckpointStoreLaws cps kept} s :
  map_Forall (fun id _ => 0 <= id) (cps s) ->
  exists s' n, heal_pool_checkpoints s = (s', Ok n) /\
    (forall id cp, cps s' !! id = Some cp <-> cps s !! id = Some cp /\ healthy (cps := cps) (kept := kept) s id) /\
    kept s' = kept s /\ n = Z.of_nat (size (cps s)) - Z.of_nat (size (cps s')) /\
    exists s'', heal_pool_checkpoints s' = (s'', Ok 0) /\ cps s'' = cps s'.
Proof.
  intros Hpos. destruct (heal_spec s) as (s' & m & Hr & Hc & Hk & Hin & Hmax).
  assert (forall id cp, cps s' !! id = Some cp <-> cps s !! id = Some cp /\ healthy (cps := cps) (kept := kept) s id) as Hlook.
  { intros id cp. rewrite Hc, map_lookup_filter_Some. cbn [fst]. rewrite elem_of_doomed.
    split; intros [Hid Hd]; (split; [done|]); pose proof (Hpos _ _ Hid) as Hp; pose proof (elem_of_dom_2 _ _ _ Hid) as Hdom.
    - destruct (decide (id ∈ kept s)); [by left|]. right. intros m' Hm'. specialize (Hmax _ Hm').
      destruct (decide (id < sat_sub m DEEP_HISTORY_CHECKPOINT_MARGIN)); [exfalso; by apply Hd|].
      unfold sat_sub in *. lia.
    - intros (_ & Hlt & Hnk). destruct Hd as [?|Hm]; [done|]. destruct Hin as [Hin|Hempty]; [|by rewrite Hempty in Hid].
      specialize (Hm m Hin). simpl in Hp. unfold sat_sub in Hlt. lia. }
  exists s', (Z.of_nat (length (doomed_ids (cps := cps) (kept := kept) m s))).
  split_and!; [done..|by apply heal_size|]. apply (heal_idle (cps := cps) (kept := kept)).
  - intros id [cp Hid]%elem_of_dom. apply Hlook in Hid as [Hid [Hh|Hh]]; [left; by rewrite Hk|right].
    intros m' [cp' Hm']%elem_of_dom. apply Hh. apply Hlook in Hm' as [Hm' _]. by eapply elem_of_dom_2.
  - intros id cp Hid. apply Hlook in Hid as [Hid _]. by apply (Hpos _ _ Hid).
Qed.

(** ** Instances *)

(** A database that is four maps, and shards that are their index and whether they are leaves. *)
Record MapDb := mkMapDb { md_shards : gmap Z (Z * bool); md_cap : Z; md_cps : gmap Z Cp; md_retained : gset Z }.
#[local] Instance pair_shard : Shard (Z * bool) := mkShard _ fst snd.
#[local] Instance map_db : TreeDb MapDb (Z * bool) Z :=
  {| db_shard_roots d := Ok (btree_entries d.(md_shards)).*1;
     db_all_checkpoints d := Ok (btree_entries d.(md_cps));
     db_get_shard idx d := Ok (match d.(md_shards) !! idx with Some (_, b) => Some (idx, b) | None => None end);
     db_get_cap d := Ok d.(md_cap);
     put_shards ts c remove add d := (mkMapDb (foldl (fun m t => <[root_index t := t]> m) d.(md_shards) ts)
       (default d.(md_cap) c) (foldl (fun m (p : Z * Cp) => <[p.1 := p.2]> m)
          (filter (fun p : Z * Cp => p.1 ∉ remove) d.(md_cps)) add) d.(md_retained), Ok tt);
     ensure_retained h d := (mkMapDb d.(md_shards) d.(md_cap) d.(md_cps) ({[h]} ∪ d.(md_retained)), Ok tt) |}.

Definition located (d : MapDb) : gmap Z (Z * bool) := map_imap (fun i (t : Z * bool) => Some (i, t.2)) d.(md_shards).

#[local] Instance map_db_laws : TreeDbLaws (D := MapDb) located md_cap md_cps md_retained.
Proof.
  split; simpl.
  - intros d idx t. unfold located. rewrite map_lookup_imap. destruct (d.(md_shards) !! idx) as [[]|]; simpl; [|done].
    by intros [= <-].
  - intros d l [= <-]. apply set_eq. intros i. rewrite elem_of_list_to_set, list_elem_of_fmap, elem_of_dom.
    unfold located. rewrite map_lookup_imap. split.
    + intros ([j t] & -> & Hin). apply elem_of_btree_entries in Hin. simpl. rewrite Hin. simpl. eauto.
    + intros [t Ht]. destruct (d.(md_shards) !! i) as [t'|] eqn:E; [|done]. exists (i, t').
      split; [done|]. by apply elem_of_btree_entries.
  - intros d idx r [= <-]. unfold located. rewrite map_lookup_imap. by destruct (d.(md_shards) !! idx) as [[]|].
  - by intros d c [= <-].
  - by intros d l [= <-].
  - intros ts c remove add d d' [= <-]. split_and!; try done. unfold located. simpl.
    generalize d.(md_shards). induction ts as [|t ts IH]; intros m; [done|]. simpl. rewrite IH. f_equal.
    apply map_eq. intros i. rewrite map_lookup_imap. destruct (decide (i = t.1)) as [->|Hne].
    + rewrite !lookup_insert_eq. by destruct t.
    + by rewrite !lookup_insert_ne, map_lookup_imap by done.
  - intros h d d' [= <-]. done.
Qed.

Definition sample_cp (p : Z) : Cp := mkCp (Some p) ∅.
Definition sample_db : MapDb := mkMapDb {[0 := (0, true); 1 := (1, false)]} 5 {[7 := sample_cp 70; 8 := sample_cp 80]} ∅.
Definition sample_rounds : list (list (Op (Z * bool) Z)) :=
  [[OPutShard (2, false); OAddRetained 9; OAddCheckpoint 9 (sample_cp 90); ORemoveCheckpoint 7]; [OPutCap 6; OAddCheckpoint 8 (sample_cp 81)]].
Abbreviation sample_seed := (seed (D := MapDb) (T := Z * bool) (C := Z) 0 (Some (fun h => h =? 9)) sample_db).

Lemma flush_writes_memory_witness :
  match sample_seed with
  | Ok s0 => match rounds sample_rounds s0 sample_db with
             | (d', Ok s') => s'.(checkpoints) = d'.(md_cps)
             | _ => False
             end
  | Err _ => False
  end.
Proof.
  destruct sample_seed as [s0|e] eqn:Es; [|vm_compute in Es; discriminate].
  destruct (rounds sample_rounds s0 sample_db) as [d' [s'|e]] eqn:Er.
  - by apply (flush_writes_memory 0 (Some (fun h => h =? 9)) sample_db s0 sample_rounds d' s' Es ltac:(done) Er).
  - vm_compute in Es. injection Es as <-. vm_compute in Er. discriminate.
Defined.

(** What the sample ends with. *)
Example flush_sample : exists s0, sample_seed = Ok s0 /\
  (rounds sample_rounds s0 sample_db).1.(md_cps) = {[8 := sample_cp 81; 9 := sample_cp 90]} /\
  (rounds sample_rounds s0 sample_db).1.(md_retained) = {[9]}.
Proof. eexists. split; [reflexivity|]. split; vm_compute; reflexivity. Qed.

Definition flooded : SparseShardStore (Z * bool) Z :=
  mkStore ∅ ∅ ∅ 0 false {[100 := sample_cp 1; 150 := sample_cp 2; 20000 := sample_cp 3]} ∅ {[150]}.

Example heal_removes_exactly_the_flood_instance : exists s' n, heal_pool_checkpoints flooded = (s', Ok n) /\
  s'.(retained) = {[150]} /\ n = 1 /\ s'.(checkpoints) !! 150 = Some (sample_cp 2) /\ s'.(checkpoints) !! 100 = None.
Proof.
  destruct (heal_removes_exactly_the_flood (cps := checkpoints) (kept := retained) flooded) as (s' & n & Hr & _ & Hk & _).
  - intros id cp Hid. simpl in Hid. repeat (apply lookup_insert_Some in Hid as [[<- _]|[_ Hid]]; [simpl; lia|]).
    by apply lookup_singleton_Some in Hid as [<- _]; simpl; lia.
  - exists s', n. split; [done|]. split; [done|]. assert (n = 1) as -> by (vm_compute in Hr; congruence).
    split; [done|]. vm_compute in Hr. injection Hr as <-. split; vm_compute; reflexivity.
Qed.
End SparseStore.
