(* ===== verification/GraftBuffer.v ===== *)
(** * The graft buffer: [core/src/graft.rs]

    The table that holds the commitments of shards still open, and the decisions of the
    pass-start sweep over it: which runs of rows no range will resume, what checks where a
    run ends, and which blocks to rescan for it.

    The table is a map from its primary key.  Its rows are written and read in encoded
    form; the hash codec is the node type's ([HashSer]).  Every statement runs on a
    connection that may refuse it ([fault]).  Positions and shard indices are below
    [2 ^ 63], where the casts to [i64] and back are the identity. *)

From S2P Require Export Errors Checkpoints.

Module GraftBuffer.
Import GraftAccumulator Checkpoints.

(** [ShieldedPool] and [pool_code]. *)
Inductive ShieldedPool := Sapling | Orchard | Ironwood.
#[export] Instance pool_eq_dec : EqDecision ShieldedPool.
Proof. solve_decision. Defined.
Definition pool_code (pool : ShieldedPool) : Z := match pool with Sapling => 2 | Orchard => 3 | Ironwood => 4 end.

Definition bytes : Type := list Byte.byte.

(** [HashSer] of a pool's node type. *)
Class HashSer (H : Type) := mkHashSer {
  hash_write : H -> result string bytes;
  hash_read : bytes -> result string H;
}.
Class HashSerLaws (H : Type) `{!HashSer H} : Prop :=
  hash_roundtrip : forall (h : H) b, hash_write h = Ok b -> hash_read b = Ok h.

(** ** Rows *)

(** [encode_retention]. *)
Definition encode_retention (r : Retention) : Z * option Z * option Z :=
  match r with
  | Ephemeral => (0, None, None)
  | Marked => (1, None, None)
  | Checkpoint id m => (2, Some id, Some (match m with MarkNone => 0 | MarkMarked => 1 | MarkReference => 2 end))
  | Reference => (3, None, None)
  end.

(** [decode_retention]. *)
Definition decode_retention (kind : Z) (checkpoint_height marking : option Z) : result SqliteClientError Retention :=
  if kind =? 0 then Ok Ephemeral
  else if kind =? 1 then Ok Marked
  else if kind =? 2 then
    match checkpoint_height with
    | None => Err (CorruptedData "graft buffer: checkpoint row without height")
    | Some h =>
      if (0 <=? h) && (h <=? u32_max) then
        let m := default 0 marking in
        if m =? 0 then Ok (Checkpoint h MarkNone)
        else if m =? 1 then Ok (Checkpoint h MarkMarked)
        else if m =? 2 then Ok (Checkpoint h MarkReference)
        else Err (CorruptedData ("graft buffer: bad marking " +:+ pretty m))
      else Err (CorruptedData "graft buffer: height out of range")
    end
  else if kind =? 3 then Ok Reference
  else Err (CorruptedData ("graft buffer: bad retention kind " +:+ pretty kind)).

(** [BufferRow]: position, hash, retention. *)
Abbreviation BufferRow H := (AccRow H Retention).

(** A row of [ext_slipstream_graft_buffer] without its key. *)
Record Enc := mkEnc { commitment : bytes; retention_kind : Z; enc_height : option Z; enc_marking : option Z }.

(** The table: pool code, shard index, position. *)
#[export] Instance key_eq_dec : EqDecision (Z * Z * Z) := _.
#[export] Instance key_countable : Countable (Z * Z * Z) := _.
Abbreviation Table := (@gmap (Z * Z * Z) key_eq_dec key_countable Enc).

(** ** Statements *)

(** The wallet file: the buffer table, and the rest of it, which the buffer's statements leave
    alone.  [crashes] lists the states the file has been in, newest first: what a process that
    dies at any point leaves behind is one of them, or the present one. *)
Record World (W : Type) := mkWorld { table : Table; wallet : W; statements : nat; crashes : list (Table * W) }.
Arguments mkWorld {W}.
Arguments table {W}.
Arguments wallet {W}.
Arguments statements {W}.
Arguments crashes {W}.
#[export] Instance eta_World {W} : Eta (World W) := fun w => mkWorld w.(table) w.(wallet) w.(statements) w.(crashes).

Section Sql.
Context {W : Type} (fault : nat -> option string).

Definition M (A : Type) : Type := World W -> World W * result SqliteClientError A.
Definition ret {A} (a : A) : M A := fun w => (w, Ok a).
Definition fail {A} (e : SqliteClientError) : M A := fun w => (w, Err e).
Definition bind {A B} (m : M A) (k : A -> M B) : M B := fun w =>
  match m w with (w', Ok a) => k a w' | (w', Err e) => (w', Err e) end.
(** The result of a call that the caller inspects instead of passing on. *)
Definition attempt {A} (m : M A) : M (result SqliteClientError A) := fun w => let '(w', r) := m w in (w', Ok r).
Definition lift {A} (r : result SqliteClientError A) : M A := fun w => (w, r).

(** One statement or transaction on the side connection: refused, or applied and durable. *)
Definition execute (f : Table -> Table) : M unit := fun w =>
  match fault w.(statements) with
  | Some e => (w <| statements := S w.(statements) |>, Err (Sqlite e))
  | None => (mkWorld (f w.(table)) w.(wallet) (S w.(statements)) ((w.(table), w.(wallet)) :: w.(crashes)), Ok tt)
  end.
Definition select {A} (f : Table -> result SqliteClientError A) : M A := fun w =>
  let w' := w <| statements := S w.(statements) |> in
  match fault w.(statements) with
  | Some e => (w', Err (Sqlite e))
  | None => (w', f w.(table))
  end.

Section Rows.
Context {H : Type} `{!HashSer H}.

Definition encode_row (row : BufferRow H) : result SqliteClientError (Z * Enc) :=
  match hash_write row.1.2 with
  | Err e => Err (CorruptedData ("graft buffer: hash ser: " +:+ e))
  | Ok b => let '(kind, height, marking) := encode_retention row.2 in Ok (row.1.1, mkEnc b kind height marking)
  end.

Fixpoint encode_rows (rows : list (BufferRow H)) : result SqliteClientError (list (Z * Enc)) :=
  match rows with
  | [] => Ok []
  | row :: rows' => let? e := encode_row row in let? es := encode_rows rows' in Ok (e :: es)
  end.

(** INSERT OR REPLACE of each row. *)
Definition insert_rows (pool : ShieldedPool) (shard : Z) (es : list (Z * Enc)) (t : Table) : Table :=
  foldl (fun t (e : Z * Enc) => <[(pool_code pool, shard, e.1) := e.2]> t) t es.

(** [append_rows]: one transaction; a row that cannot be written leaves it uncommitted. *)
Definition append_rows (pool : ShieldedPool) (shard : Z) (rows : list (BufferRow H)) : M unit :=
  match rows with
  | [] => ret tt
  | _ => match encode_rows rows with Err e => fail e | Ok es => execute (insert_rows pool shard es) end
  end.

(** The rows of one shard, by position. *)
Definition shard_rows (pool : ShieldedPool) (shard : Z) (t : Table) : list (Z * Enc) :=
  btree_entries (map_fold (fun (k : Z * Z * Z) e (m : gmap Z Enc) =>
    if bool_decide (k.1 = (pool_code pool, shard)) then <[k.2 := e]> m else m) ∅ t).

Definition decode_row (e : Z * Enc) : result SqliteClientError (BufferRow H) :=
  match hash_read e.2.(commitment) with
  | Err m => Err (CorruptedData ("graft buffer: hash de: " +:+ m))
  | Ok h => let? r := decode_retention e.2.(retention_kind) e.2.(enc_height) e.2.(enc_marking) in Ok (e.1, h, r)
  end.

Fixpoint decode_rows (es : list (Z * Enc)) : result SqliteClientError (list (BufferRow H)) :=
  match es with
  | [] => Ok []
  | e :: es' => let? row := decode_row e in let? rows := decode_rows es' in Ok (row :: rows)
  end.

(** [load_shard]. *)
Definition load_shard (pool : ShieldedPool) (shard : Z) : M (list (BufferRow H)) :=
  select (fun t => decode_rows (shard_rows pool shard t)).
End Rows.

(** [will_not_decode]. *)
Definition will_not_decode (e : SqliteClientError) : bool := match e with CorruptedData _ => true | _ => false end.

(** [buffered_shards]: the shards with rows, ascending. *)
Definition buffered_shards (pool : ShieldedPool) : M (list Z) :=
  select (fun t => Ok (btree_keys (list_to_set
    (omap (fun p : Z * Z * Z * Enc => if p.1.1.1 =? pool_code pool then Some p.1.1.2 else None) (map_to_list t))))).

(** [buffered_positions]. *)
Definition buffered_positions (pool : ShieldedPool) (shard : Z) : M (list Z) :=
  select (fun t => Ok (shard_rows pool shard t).*1).

Definition in_span (pool : ShieldedPool) (shard : Z) (span : Z * Z) (k : Z * Z * Z) : bool :=
  bool_decide (k.1 = (pool_code pool, shard)) && (span.1 <=? k.2) && (k.2 <? span.2).

(** [delete_rows_in]: the positions [span.1 .. span.2]. *)
Definition delete_rows_in (pool : ShieldedPool) (shard : Z) (span : Z * Z) : M unit :=
  execute (filter (fun p : Z * Z * Z * Enc => in_span pool shard span p.1 = false)).

(** [delete_from_position] and [delete_from_position_in]. *)
Definition delete_from_position (pool : ShieldedPool) (min_position : Z) : M unit :=
  execute (filter (fun p : Z * Z * Z * Enc => (p.1.1.1 =? pool_code pool) && (min_position <=? p.1.2) = false)).
End Sql.

Declare Scope graft_scope.
Notation "'let!' x := m 'in' k" := (bind m (fun x => k))
  (at level 10, x pattern, m at level 100, k at level 200, only parsing) : graft_scope.
Notation "m ;;; k" := (bind m (fun _ => k)) (at level 100, right associativity, only parsing) : graft_scope.

(** ** What a sequence of statements can do

    [steps P w w']: going from [w] to [w'] the file was, at every point a crash could expose, in
    a state whose table satisfies [P], and the rest of it did not change. *)

Section Steps.
Context {W : Type}.

Definition steps (P : Table -> Prop) (w w' : World W) : Prop :=
  w'.(wallet) = w.(wallet) /\ P w'.(table) /\
  exists new, w'.(crashes) = new ++ w.(crashes) /\ Forall (fun d => P d.1 /\ d.2 = w.(wallet)) new.

Definition Steps (P : Table -> Prop) {A} (m : M (W := W) A) : Prop := forall w, P w.(table) -> steps P w (m w).1.

Lemma steps_refl P w : P w.(table) -> steps P w w.
Proof. intros HP. split; [done|]. split; [done|]. by exists []. Qed.

Lemma steps_trans P w1 w2 w3 : steps P w1 w2 -> steps P w2 w3 -> steps P w1 w3.
Proof.
  intros (E1 & P1 & n1 & C1 & F1) (E2 & P2 & n2 & C2 & F2). split; [congruence|]. split; [done|].
  exists (n2 ++ n1). rewrite C2, C1, app_assoc. split; [done|]. apply Forall_app. split; [|done].
  eapply Forall_impl; [exact F2|]. intros d [? ?]. split; [done|congruence].
Qed.

Lemma Steps_ret P {A} (a : A) : Steps P (ret a).
Proof. intros w HP. by apply steps_refl. Qed.
Lemma Steps_fail P {A} e : Steps P (fail (A := A) e).
Proof. intros w HP. by apply steps_refl. Qed.
Lemma Steps_lift P {A} (r : result SqliteClientError A) : Steps P (lift r).
Proof. intros w HP. by apply steps_refl. Qed.

Lemma Steps_bind P {A B} (m : M (W := W) A) (k : A -> M B) : Steps P m -> (forall a, Steps P (k a)) -> Steps P (bind m k).
Proof.
  intros Hm Hk w HP. unfold bind. pose proof (Hm w HP) as Hs. destruct (m w) as [w1 [a|e]]; [|done]. simpl in Hs.
  eapply steps_trans; [exact Hs|]. apply Hk, Hs.
Qed.

Lemma Steps_attempt P {A} (m : M (W := W) A) : Steps P m -> Steps P (attempt m).
Proof. intros Hm w HP. unfold attempt. pose proof (Hm w HP). by destruct (m w). Qed.

Lemma Steps_execute P (fault : nat -> option string) f : (forall t, P t -> P (f t)) -> Steps P (execute fault f).
Proof.
  intros Hf w HP. unfold execute. destruct (fault w.(statements)).
  - split; [done|]. split; [done|]. by exists [].
  - split; [done|]. simpl. split; [by apply Hf|]. exists [(w.(table), w.(wallet))]. split; [done|].
    apply Forall_singleton. done.
Qed.

Lemma Steps_select P {A} (fault : nat -> option string) (f : Table -> result SqliteClientError A) : Steps P (select fault f).
Proof.
  intros w HP. unfold select. destruct (fault w.(statements)); (split; [done|split; [done|by exists []]]).
Qed.
End Steps.

Lemma pool_code_inj p q : pool_code p = pool_code q -> p = q.
Proof. by destruct p, q. Qed.
#[export] Hint Resolve Steps_ret Steps_fail Steps_lift Steps_select Steps_attempt : slip.

(** ** The table's keys *)

Lemma lookup_shard_fold (pool : ShieldedPool) (shard : Z) (t : Table) (p : Z) :
  map_fold (fun (k : Z * Z * Z) e (m : gmap Z Enc) =>
    if bool_decide (k.1 = (pool_code pool, shard)) then <[k.2 := e]> m else m) ∅ t !! p
  = t !! (pool_code pool, shard, p).
Proof.
  apply (map_fold_weak_ind (fun (m : gmap Z Enc) (t : Table) => m !! p = t !! (pool_code pool, shard, p))).
  - by rewrite !lookup_empty.
  - intros [[c s] q] e t' m Hnone IH. simpl. case_bool_decide as Hk.
    + injection Hk as -> ->. destruct (decide (q = p)) as [->|Hne].
      * rewrite lookup_insert_eq. symmetry. apply lookup_insert_eq.
      * rewrite !lookup_insert_ne by congruence. done.
    + rewrite lookup_insert_ne; [done|]. intros [= -> -> ->]. by apply Hk.
Qed.

Lemma elem_of_shard_rows (pool : ShieldedPool) (shard : Z) (t : Table) (p : Z) e :
  (p, e) ∈ shard_rows pool shard t <-> t !! (pool_code pool, shard, p) = Some e.
Proof. unfold shard_rows. by rewrite elem_of_btree_entries, lookup_shard_fold. Qed.

Lemma shard_rows_sorted (pool : ShieldedPool) shard t : StronglySorted (fun p q => p.1 < q.1) (shard_rows pool shard t).
Proof. apply btree_entries_strict. Qed.

Lemma shard_rows_unique (pool : ShieldedPool) (shard : Z) (t : Table) (l : list (Z * Enc)) : StronglySorted (fun p q => p.1 < q.1) l ->
  (forall p e, (p, e) ∈ l <-> t !! (pool_code pool, shard, p) = Some e) -> shard_rows pool shard t = l.
Proof. intros Hl Ht. apply btree_entries_unique; [done|]. intros p e. by rewrite Ht, lookup_shard_fold. Qed.

Lemma lookup_insert_rows (pool : ShieldedPool) (shard : Z) (es : list (Z * Enc)) (t : Table) (k : Z * Z * Z) : StronglySorted (fun p q => p.1 < q.1) es ->
  insert_rows pool shard es t !! k =
  match list_find (fun e : Z * Enc => k = (pool_code pool, shard, e.1)) es with
  | Some (_, e) => Some e.2
  | None => t !! k
  end.
Proof.
  unfold insert_rows. revert t. induction es as [|[p e] es IH]; intros t Hs; [done|].
  apply StronglySorted_inv in Hs as [Hs Hp]. rewrite Forall_forall in Hp. simpl. rewrite IH by done.
  destruct (decide (k = (pool_code pool, shard, p))) as [->|Hne].
  - destruct (list_find _ es) as [[i [q e']]|] eqn:Ef; simpl; [|by rewrite lookup_insert_eq].
    apply list_find_Some in Ef as (Hi & [= ->] & _). specialize (Hp _ (list_elem_of_lookup_2 _ _ _ Hi)). simpl in Hp. lia.
  - destruct (list_find _ es) as [[i [q e']]|] eqn:Ef; simpl; [done|]. by rewrite lookup_insert_ne by done.
Qed.

(** ** Rows survive the table *)

Definition valid_height (r : Retention) : Prop := match r with Checkpoint id _ => is_u32 id | _ => True end.

Lemma retention_roundtrip r : valid_height r ->
  let '(kind, height, marking) := encode_retention r in decode_retention kind height marking = Ok r.
Proof.
  unfold is_u32. destruct r as [|id m| |]; simpl; try done. unfold is_u32. intros Hid. unfold decode_retention. simpl.
  rewrite (proj2 (Z.leb_le 0 id)), (proj2 (Z.leb_le id u32_max)) by lia. simpl. by destruct m.
Qed.

Section Roundtrip.
Context {H : Type} `{!HashSer H} `{!HashSerLaws H}.

Lemma row_roundtrip (row : BufferRow H) e : valid_height row.2 -> encode_row row = Ok e -> decode_row e = Ok row.
Proof.
  destruct row as [[p h] r]. unfold encode_row, decode_row. simpl. intros Hv.
  destruct (hash_write h) as [b|] eqn:Eh; [|done]. pose proof (retention_roundtrip r Hv) as Hr.
  destruct (encode_retention r) as [[kind height] marking]. intros [= <-]. simpl.
  rewrite (hash_roundtrip _ _ Eh), Hr. done.
Qed.

Lemma rows_roundtrip (rows : list (BufferRow H)) es : Forall (fun row => valid_height row.2) rows ->
  encode_rows rows = Ok es -> decode_rows es = Ok rows /\ es.*1 = (fun row => row.1.1) <$> rows.
Proof.
  intros Hv. revert es. induction Hv as [|row rows Hr Hv IH]; intros es; simpl; [by intros [= <-]|].
  destruct (encode_row row) as [e|] eqn:Ee; [|done]. destruct (encode_rows rows) as [es'|]; [|done].
  simpl. intros [= <-]. destruct (IH es' eq_refl) as [IH1 IH2]. simpl. rewrite (row_roundtrip _ _ Hr Ee). simpl.
  rewrite IH1. simpl. split; [done|].
  change (e.1 :: es'.*1 = row.1.1 :: ((fun row : BufferRow H => row.1.1) <$> rows)). f_equal; [|done]. unfold encode_row in Ee.
  destruct (hash_write row.1.2); [|done]. destruct (encode_retention row.2) as [[]]. by simplify_eq.
Qed.
End Roundtrip.

(** ** Properties *)

(** C32: What is buffered comes back: rows appended for a shard that had none, in ascending position
    order, are read back exactly, hashes and retentions included; appending them again changes
    nothing, so a rescan is harmless; and no other pool, shard or position of the table changes. *)
Theorem buffer_roundtrip {H W} `{!HashSer H} `{!HashSerLaws H} pool shard (rows : list (BufferRow H)) (w w1 : World W) :
  StronglySorted Z.lt ((fun row => row.1.1) <$> rows) -> Forall (fun row => valid_height row.2) rows ->
  (forall p, w.(table) !! (pool_code pool, shard, p) = None) ->
  append_rows (fun _ => None) pool shard rows w = (w1, Ok tt) ->
  (load_shard (H := H) (fun _ => None) pool shard w1).2 = Ok rows /\
  (append_rows (fun _ => None) pool shard rows w1).1.(table) = w1.(table) /\
  (forall k, (forall row, row ∈ rows -> k <> (pool_code pool, shard, row.1.1)) -> w1.(table) !! k = w.(table) !! k).
Proof.
  intros Hs Hv Hnone Happ. unfold append_rows in *. destruct rows as [|row0 rows0] eqn:Erows.
  { injection Happ as <-. split_and!; [|done|done]. unfold load_shard, select. simpl.
    rewrite (shard_rows_unique pool shard w.(table) []); [done|constructor|].
    intros p e. rewrite Hnone. split; [set_solver|done]. }
  rewrite <-Erows in *. clear Erows row0 rows0. destruct (encode_rows rows) as [es|] eqn:Ee; [|done].
  unfold execute in *. injection Happ as <-. simpl. destruct (rows_roundtrip rows es Hv Ee) as [Hdec Hpos].
  assert (StronglySorted (fun p q => p.1 < q.1) es) as Hse.
  { rewrite <-Hpos in Hs. clear -Hs. induction es as [|e es IH]; [constructor|].
    apply StronglySorted_inv in Hs as [Hs He]. constructor; [by apply IH|].
    change (Forall (Z.lt e.1) es.*1) in He. rewrite Forall_forall in He. apply Forall_forall. intros q Hq. apply He.
    apply list_elem_of_fmap. eauto. }
  pose proof (fun t => lookup_insert_rows pool shard es t) as Hl.
  assert (forall k, (forall e, e ∈ es -> k <> (pool_code pool, shard, e.1)) -> list_find (fun e : Z * Enc => k = (pool_code pool, shard, e.1)) es = None) as Hout.
  { intros k Hk. apply list_find_None, Forall_forall. intros e He. by apply Hk. }
  split_and!.
  - unfold load_shard, select. simpl. rewrite (shard_rows_unique pool shard _ es); [done|done|].
    intros p e. rewrite Hl by done. destruct (list_find _ es) as [[i [q e']]|] eqn:Ef.
    + apply list_find_Some in Ef as (Hi & [= <-] & _). simpl. split.
      * intros [j Hj]%list_elem_of_lookup. destruct (decide (i = j)) as [->|Hij]; [congruence|].
        destruct (decide (i < j)%nat).
        -- pose proof (StronglySorted_lookup _ _ _ _ _ _ Hse Hi Hj ltac:(lia)) as Hlt. simpl in Hlt. lia.
        -- pose proof (StronglySorted_lookup _ _ _ _ _ _ Hse Hj Hi ltac:(lia)) as Hlt. simpl in Hlt. lia.
      * intros [= ->]. by apply list_elem_of_lookup_2 in Hi.
    + rewrite Hnone. split; [|done]. intros He. apply list_find_None in Ef. rewrite Forall_forall in Ef.
      by specialize (Ef _ He).
  - apply map_eq. intros k. rewrite !Hl by done. by destruct (list_find _ es) as [[]|].
  - intros k Hk. rewrite Hl, Hout by done || (intros e He ->; assert (e.1 ∈ es.*1) as Hin by (apply list_elem_of_fmap; eauto);
      rewrite Hpos in Hin; apply list_elem_of_fmap in Hin as (row & Er & Hrow); apply (Hk row Hrow); by rewrite Er). done.
Qed.

(** A pool whose hashes are one byte. *)
#[export] Instance byte_ser : HashSer Byte.byte :=
  mkHashSer _ (fun b => Ok [b]) (fun bs => match bs with [b] => Ok b | _ => Err "length" end).
#[export] Instance byte_ser_laws : HashSerLaws Byte.byte.
Proof. by intros h b [= <-]. Qed.

Definition sample_rows : list (BufferRow Byte.byte) :=
  [(65536, Byte.x01, Ephemeral); (65537, Byte.x02, Checkpoint 100 MarkReference); (65538, Byte.x03, Marked)].
Definition empty_world : World unit := mkWorld ∅ tt 0 [].

Lemma buffer_roundtrip_witness :
  (load_shard (H := Byte.byte) (fun _ => None) Orchard 1 (append_rows (fun _ => None) Orchard 1 sample_rows empty_world).1).2
  = Ok sample_rows.
Proof.
  apply (buffer_roundtrip Orchard 1 sample_rows empty_world (append_rows (fun _ => None) Orchard 1 sample_rows empty_world).1).
  - repeat constructor; lia.
  - repeat constructor; unfold is_u32, u32_max; lia.
  - intros p. apply lookup_empty.
  - reflexivity.
Defined.
End GraftBuffer.
