(* ===== verification/GraftRuns.v ===== *)
(** * The sweep's decisions over positions and heights: [core/src/graft.rs]

    Contiguous runs of buffered positions, the first range to seed in each shard, the runs
    nothing will resume, what checks where a run ends; the heights the scan queue counts as
    scanned; and the blocks to rescan for a run, found by two walks over the wallet's block
    metadata with a binary search in each stretch.

    A [Range] is the pair of its start and its exclusive end, a [RangeInclusive] the pair of
    its ends.  Heights are [u32] and positions below [2 ^ 32]. *)

From S2P Require Export GraftBuffer.

Module GraftRuns.
Import GraftAccumulator Checkpoints GraftBuffer.

(** ** Runs of positions *)

(** The loop body of [contiguous_runs]; the runs newest first. *)
Definition extend_runs (runs : list (Z * Z)) (p : Z) : list (Z * Z) :=
  match runs with
  | (a, b) :: runs' => if b + 1 =? p then (a, p) :: runs' else (p, p) :: runs
  | [] => [(p, p)]
  end.

(** [contiguous_runs]. *)
Definition contiguous_runs (positions : list Z) : list (Z * Z) := reverse (foldl extend_runs [] positions).

(** The loop of [first_seeders]: what is claimed, and whether an unknown start came before. *)
Definition claim (st : gmap Z (option Z) * bool) (start : option Z) : gmap Z (option Z) * bool :=
  let '(claimed, unknown_start_before) := st in
  match start with
  | None => (claimed, true)
  | Some position =>
    let shard := Z.shiftr position SHARD_BITS in
    match claimed !! shard with
    | Some _ => (claimed, unknown_start_before)
    | None => (<[shard := if unknown_start_before then None else Some position]> claimed, unknown_start_before)
    end
  end.

(** [first_seeders]. *)
Definition first_seeders (starts : list (option Z)) : gmap Z Z :=
  omap id (foldl claim (∅, false) starts).1.

Definition run_contains (run : Z * Z) (p : Z) : bool := (run.1 <=? p) && (p <=? run.2).

(** [stranded_runs]. *)
Definition stranded_runs (positions : list Z) (resume_at : option Z) : list (Z * Z) :=
  let resumed := match resume_at with Some start => if 1 <=? start then Some (start - 1) else None | None => None end in
  filter (fun run => match resumed with None => true | Some l => negb (run_contains run l) end = true)
    (contiguous_runs positions).

(** [enum EndCheck] and [end_check]. *)
Inductive EndCheck (H : Type) := LastLeaf | ShardRoot (root : H).
Arguments LastLeaf {H}.
Arguments ShardRoot {H} root.

Definition end_check {H} (run : Z * Z) (last_leaf_matches : bool) (stored_root : option H) : option (EndCheck H) :=
  if last_leaf_matches then Some LastLeaf
  else if (run.2 + 1) mod Z.shiftl 1 SHARD_BITS =? 0 then ShardRoot <$> stored_root
  else None.

(** [rows_cover_run]. *)
Fixpoint consecutive (ps : list Z) : bool :=
  match ps with
  | p :: ps' => match ps' with q :: _ => (p + 1 =? q) && consecutive ps' | [] => true end
  | [] => true
  end.
Definition rows_cover_run {H} (rows : list (Z * H * Retention)) (run : Z * Z) : bool :=
  (Z.of_nat (length rows) =? run.2 - run.1 + 1) &&
  match rows with row :: _ => row.1.1 =? run.1 | [] => false end &&
  consecutive ((fun row => row.1.1) <$> rows).

(** ** Scanned heights *)

Definition start_le (r1 r2 : Z * Z) : Prop := r1.1 <= r2.1.
#[export] Instance start_le_dec : RelDecision start_le.
Proof. intros r1 r2. unfold start_le. apply _. Defined.
#[export] Instance start_le_trans : Transitive start_le.
Proof. intros r1 r2 r3. unfold start_le. lia. Qed.
#[export] Instance start_le_total : Total start_le.
Proof. intros r1 r2. unfold start_le. lia. Qed.

(** The loop of [scanned_stretches]: the stretches, and the next height not accounted for. *)
Fixpoint stretch_loop (pending : list (Z * Z)) (next end_ : Z) : list (Z * Z) * Z :=
  match pending with
  | [] => ([], next)
  | range :: pending' =>
    let gap := if next <? range.1 then [(next, Z.min range.1 end_)] else [] in
    let next' := Z.max next range.2 in
    if end_ <=? next' then (gap, next')
    else let '(rest, n) := stretch_loop pending' next' end_ in (gap ++ rest, n)
  end.

(** [scanned_stretches]. *)
Definition scanned_stretches (pending : list (Z * Z)) (floor end_ : Z) : list (Z * Z) :=
  let '(stretches, next) := stretch_loop (merge_sort start_le pending) floor end_ in
  filter (fun s : Z * Z => s.1 < s.2) (stretches ++ (if next <? end_ then [(next, end_)] else [])).

(** ** Rescans *)

Section Rescans.
Context {E : Type} (size_at : Z -> result E (option Z)).

(** The binary search of [first_block_past]; each turn at least halves [hi - lo]. *)
Fixpoint search (fuel : nat) (position lo hi : Z) : result E (option Z) :=
  if lo <? hi then
    match fuel with
    | O => Ok None
    | S fuel' =>
      let mid := lo + (hi - lo) / 2 in
      let? size := size_at mid in
      match size with
      | Some size => if position <? size then search fuel' position lo mid else search fuel' position (mid + 1) hi
      | None => Ok None
      end
    end
  else Ok (Some lo).

(** [first_block_past]. *)
Definition first_block_past (position : Z) (stretch : Z * Z) : result E (option Z) :=
  let hi := stretch.2 - 1 in
  let? size := size_at hi in
  match size with
  | None => Ok None
  | Some size => if size <=? position then Ok None else search (Z.to_nat (hi - stretch.1)) position stretch.1 hi
  end.

(** The loop of [walk_from_newest], over the stretches newest first. *)
Fixpoint newest_loop (first last_ : Z) (stretches : list (Z * Z)) (rescans : list (Z * Z)) (past_last : option (Z * Z))
  : result E (option (list (Z * Z))) :=
  let done_ := Ok (Some (reverse (rescans ++ option_list past_last))) in
  match stretches with
  | [] => done_
  | stretch :: older =>
    let? end_size := size_at (stretch.2 - 1) in
    match end_size with
    | None => Ok None
    | Some end_size =>
      if end_size <=? first then done_
      else
        let? from := first_block_past first stretch in
        match from with
        | None => Ok None
        | Some from =>
          let? state :=
            if last_ <? end_size then
              let? to_ := first_block_past last_ stretch in
              match to_ with
              | None => Ok None
              | Some to_ => Ok (Some (rescans, Some (from, to_ + 1)))
              end
            else Ok (Some (rescans ++ option_list past_last ++ [(from, stretch.2)], None)) in
          match state with
          | None => Ok None
          | Some (rescans', past') =>
            if stretch.1 <? from then Ok (Some (reverse (rescans' ++ option_list past')))
            else newest_loop first last_ older rescans' past'
          end
        end
    end
  end.

(** [walk_from_newest]. *)
Definition walk_from_newest (run : Z * Z) (stretches : list (Z * Z)) : result E (option (list (Z * Z))) :=
  newest_loop run.1 run.2 (reverse stretches) [] None.

(** [walk_from_oldest]. *)
Fixpoint walk_from_oldest (run : Z * Z) (stretches : list (Z * Z)) : result E (option (list (Z * Z))) :=
  match stretches with
  | [] => Ok (Some [])
  | stretch :: newer =>
    let? end_size := size_at (stretch.2 - 1) in
    match end_size with
    | None => Ok None
    | Some end_size =>
      if end_size <=? run.1 then walk_from_oldest run newer
      else
        let? from := first_block_past run.1 stretch in
        match from with
        | None => Ok None
        | Some from =>
          if run.2 <? end_size then
            let? to_ := first_block_past run.2 stretch in
            match to_ with None => Ok None | Some to_ => Ok (Some [(from, to_ + 1)]) end
          else
            let? rest := walk_from_oldest run newer in
            match rest with None => Ok None | Some rest => Ok (Some ((from, stretch.2) :: rest)) end
        end
    end
  end.

(** [rescans_for]. *)
Definition rescans_for (run : Z * Z) (stretches : list (Z * Z)) : result E (option (list (Z * Z))) :=
  let? r := walk_from_newest run stretches in
  match r with
  | Some rescans => Ok (Some rescans)
  | None => walk_from_oldest run stretches
  end.
End Rescans.

(** ** Scanned stretches are what no pending range covers *)

Definition covers (r : Z * Z) (h : Z) : Prop := r.1 <= h < r.2.
Definition covered (rs : list (Z * Z)) (h : Z) : Prop := exists r, r ∈ rs /\ covers r h.

Lemma covered_cons r rs h : covered (r :: rs) h <-> covers r h \/ covered rs h.
Proof. unfold covered. setoid_rewrite elem_of_cons. naive_solver. Qed.
Lemma covered_app rs1 rs2 h : covered (rs1 ++ rs2) h <-> covered rs1 h \/ covered rs2 h.
Proof. unfold covered. setoid_rewrite elem_of_app. naive_solver. Qed.
Lemma covered_nil h : covered [] h <-> False.
Proof. unfold covered. split; [|done]. intros (r & Hr & _). set_solver. Qed.
Lemma covered_above (rs : list (Z * Z)) lo h : (forall r, r ∈ rs -> lo <= r.1) -> covered rs h -> lo <= h.
Proof. intros Hlo (r & Hr & Hc). specialize (Hlo r Hr). unfold covers in Hc. lia. Qed.

(** Ascending, disjoint, not empty. *)
Fixpoint ascending (rs : list (Z * Z)) : Prop :=
  match rs with
  | [] => True
  | r :: rs' => r.1 < r.2 /\ (forall r', r' ∈ rs' -> r.2 <= r'.1) /\ ascending rs'
  end.

Lemma gap_covers next (r : Z * Z) end_ h :
  covered (if next <? r.1 then [(next, Z.min r.1 end_)] else []) h <-> next <= h < r.1 /\ h < end_.
Proof.
  destruct (Z.ltb_spec next r.1).
  - rewrite covered_cons, covered_nil. unfold covers. simpl. lia.
  - rewrite covered_nil. lia.
Qed.

(** The whole answer of the loop, tail included. *)
Definition stretches_from (pending : list (Z * Z)) (next end_ : Z) : list (Z * Z) :=
  let '(ss, n) := stretch_loop pending next end_ in ss ++ (if n <? end_ then [(n, end_)] else []).

Lemma stretches_from_covers pending next end_ h :
  StronglySorted start_le pending -> (forall r, r ∈ pending -> r.1 <= r.2) ->
  covered (stretches_from pending next end_) h <-> next <= h < end_ /\ ~ covered pending h.
Proof.
  intros Hs Hne. unfold stretches_from. revert next. induction Hs as [|r pending Hs IH Hr]; intros next; simpl.
  { destruct (Z.ltb_spec next end_); rewrite ?covered_cons, ?covered_nil; unfold covers; simpl; lia. }
  rewrite Forall_forall in Hr. specialize (IH ltac:(set_solver)). rewrite covered_cons.
  assert (covered pending h -> r.1 <= h) as Hab by (apply covered_above; apply Hr).
  pose proof (Hne r ltac:(set_solver)). pose proof (gap_covers next r end_ h) as Hg. unfold covers.
  destruct (Z.leb_spec end_ (Z.max next r.2)).
  - destruct (Z.ltb_spec (Z.max next r.2) end_); [lia|]. rewrite app_nil_r, Hg. split.
    + intros. split; [lia|]. intros [?|Hc]; [lia|]. specialize (Hab Hc). lia.
    + intros [? Hn]. destruct (decide (h < r.1)); [lia|]. exfalso. apply Hn. left. lia.
  - specialize (IH (Z.max next r.2)). destruct (stretch_loop pending (Z.max next r.2) end_) as [rest n].
    rewrite <-app_assoc, covered_app, Hg, IH. split.
    + intros [?|[? Hn]]; (split; [lia|]); intros [?|Hc]; try lia; [|done]. specialize (Hab Hc). lia.
    + intros [? Hn]. destruct (decide (h < r.1)); [left; lia|]. right.
      assert (~ (r.1 <= h < r.2)) by naive_solver. split; [lia|naive_solver].
Qed.

Lemma stretches_from_ascending pending next end_ : (forall r, r ∈ pending -> r.1 <= r.2) ->
  ascending (filter (fun s : Z * Z => s.1 < s.2) (stretches_from pending next end_)) /\
  forall s, s ∈ filter (fun s : Z * Z => s.1 < s.2) (stretches_from pending next end_) -> next <= s.1.
Proof.
  unfold stretches_from. intros Hne. revert next. induction pending as [|r pending IH]; intros next; simpl.
  { destruct (Z.ltb_spec next end_); simpl; [|set_solver]. rewrite filter_cons_True by (simpl; lia).
    simpl. split; [split_and!; [lia|set_solver|done]|]. intros s ->%list_elem_of_singleton. simpl. lia. }
  specialize (IH ltac:(set_solver)). pose proof (Hne r ltac:(set_solver)).
  destruct (Z.leb_spec end_ (Z.max next r.2)).
  - destruct (Z.ltb_spec (Z.max next r.2) end_); [lia|]. rewrite app_nil_r.
    destruct (Z.ltb_spec next r.1); simpl; [|set_solver]. rewrite filter_cons. destruct (decide _); simpl; [|set_solver].
    split; [split_and!; [done|set_solver|done]|]. intros s ->%list_elem_of_singleton. simpl. lia.
  - destruct (IH (Z.max next r.2)) as [IH1 IH2]. destruct (stretch_loop pending (Z.max next r.2) end_) as [rest n].
    rewrite <-app_assoc. destruct (Z.ltb_spec next r.1); simpl.
    + rewrite filter_cons. destruct (decide _) as [Hd|]; simpl in *.
      * split; [split_and!; [lia| |done]|].
        -- intros s Hin. specialize (IH2 s Hin). lia.
        -- intros s [->|Hin]%elem_of_cons; [simpl; lia|]. specialize (IH2 s Hin). lia.
      * split; [done|]. intros s Hin. specialize (IH2 s Hin). lia.
    + split; [done|]. intros s Hin. specialize (IH2 s Hin). lia.
Qed.

Lemma scanned_stretches_eq pending floor end_ :
  scanned_stretches pending floor end_ =
  filter (fun s : Z * Z => s.1 < s.2) (stretches_from (merge_sort start_le pending) floor end_).
Proof. unfold scanned_stretches, stretches_from. by destruct (stretch_loop _ _ _). Qed.

Lemma covered_filter rs h : covered (filter (fun s : Z * Z => s.1 < s.2) rs) h <-> covered rs h.
Proof.
  unfold covered. setoid_rewrite list_elem_of_filter. unfold covers. split; [naive_solver|].
  intros (r & Hr & Hc). exists r. split_and!; [lia|done|lia..].
Qed.

Lemma scanned_stretches_ascending pending floor end_ : (forall r, r ∈ pending -> r.1 <= r.2) ->
  ascending (scanned_stretches pending floor end_).
Proof.
  intros Hne. rewrite scanned_stretches_eq. apply stretches_from_ascending.
  intros r. rewrite merge_sort_Permutation. apply Hne.
Qed.

Lemma scanned_stretches_covers pending floor end_ h : (forall r, r ∈ pending -> r.1 <= r.2) ->
  covered (scanned_stretches pending floor end_) h <-> floor <= h < end_ /\ ~ covered pending h.
Proof.
  intros Hne. rewrite scanned_stretches_eq, covered_filter, stretches_from_covers.
  - unfold covered at 1. setoid_rewrite merge_sort_Permutation. done.
  - apply (StronglySorted_merge_sort start_le).
  - intros r. rewrite merge_sort_Permutation. apply Hne.
Qed.

(** ** Placing a run *)

Section Placing.
Context {E : Type} (size_at : Z -> result E (option Z)) (size : Z -> Z).
(** The tree size at the end of a block, which the wallet may not know, grows with height. *)
Hypothesis known_sizes : forall h s, size_at h = Ok (Some s) -> s = size h.
Hypothesis size_mono : forall a b, a <= b -> size a <= size b.

(** The block of a stretch that the search is for. *)
Definition least (position : Z) (stretch : Z * Z) (h : Z) : Prop :=
  covers stretch h /\ position < size h /\ forall h', stretch.1 <= h' < h -> size h' <= position.

Lemma least_unique position st h1 h2 : least position st h1 -> least position st h2 -> h1 = h2.
Proof.
  intros (Hc1 & Hp1 & Hl1) (Hc2 & Hp2 & Hl2). unfold covers in *.
  destruct (Z.lt_trichotomy h1 h2) as [Hlt|[->|Hlt]]; [|done|].
  - specialize (Hl2 h1). lia.
  - specialize (Hl1 h2). lia.
Qed.

Lemma search_spec fuel position lo hi h : search size_at fuel position lo hi = Ok (Some h) ->
  lo <= hi -> position < size hi ->
  lo <= h <= hi /\ position < size h /\ forall h', lo <= h' < h -> size h' <= position.
Proof.
  revert lo hi. induction fuel as [|fuel IH]; intros lo hi; simpl; destruct (Z.ltb_spec lo hi); try done.
  { intros [= <-] ? ?. assert (lo = hi) as -> by lia. split; [lia|]. split; [done|]. intros; lia. }
  2: { intros [= <-] ? ?. assert (lo = hi) as -> by lia. split; [lia|]. split; [done|]. intros; lia. }
  pose proof (Z.div_lt (hi - lo) 2 ltac:(lia) ltac:(lia)). pose proof (Z.div_pos (hi - lo) 2 ltac:(lia) ltac:(lia)).
  set (mid := lo + (hi - lo) / 2) in *.
  destruct (size_at mid) as [[s|]|e] eqn:Es; simpl; try done. apply known_sizes in Es as ->.
  destruct (Z.ltb_spec position (size mid)); intros Hs Hle Hp.
  - destruct (IH lo mid Hs) as (G1 & G2 & G3); [lia|done|]. split; [lia|]. done.
  - destruct (IH (mid + 1) hi Hs) as (G1 & G2 & G3); [lia|done|]. split; [lia|]. split; [done|].
    intros h' Hh'. destruct (decide (h' <= mid)); [|apply G3; lia]. pose proof (size_mono h' mid). lia.
Qed.

(** Enough fuel: with every size known the search answers. *)
Lemma search_total fuel position lo hi : hi - lo <= Z.of_nat fuel ->
  (forall h, lo <= h <= hi -> exists s, size_at h = Ok (Some s)) ->
  exists h, search size_at fuel position lo hi = Ok (Some h).
Proof.
  revert lo hi. induction fuel as [|fuel IH]; intros lo hi Hf Hk; simpl; destruct (Z.ltb_spec lo hi); eauto; [lia|].
  pose proof (Z.div_lt (hi - lo) 2 ltac:(lia) ltac:(lia)). pose proof (Z.div_pos (hi - lo) 2 ltac:(lia) ltac:(lia)).
  set (mid := lo + (hi - lo) / 2) in *. destruct (Hk mid ltac:(lia)) as [s ->]. simpl.
  destruct (position <? s); apply IH; try lia; intros; apply Hk; lia.
Qed.

Lemma first_block_past_spec position st h : first_block_past size_at position st = Ok (Some h) ->
  st.1 < st.2 -> least position st h.
Proof.
  unfold first_block_past. destruct (size_at (st.2 - 1)) as [[s|]|] eqn:Es; simpl; try done.
  apply known_sizes in Es as ->. destruct (Z.leb_spec (size (st.2 - 1)) position); [done|].
  intros Hs Hst. apply search_spec in Hs as (G1 & G2 & G3); [|lia|done].
  split; [unfold covers; lia|]. done.
Qed.

Lemma first_block_past_total position st : st.1 < st.2 -> position < size (st.2 - 1) ->
  (forall h, covers st h -> exists s, size_at h = Ok (Some s)) ->
  exists h, first_block_past size_at position st = Ok (Some h).
Proof.
  intros Hst Hp Hk. unfold first_block_past. destruct (Hk (st.2 - 1)) as [s Es]; [unfold covers; lia|].
  rewrite Es. simpl. pose proof (known_sizes _ _ Es) as ->. destruct (Z.leb_spec (size (st.2 - 1)) position); [lia|].
  apply search_total; [lia|]. intros h Hh. apply Hk. unfold covers. lia.
Qed.

(** The rescans of a run, with every size known. *)
Fixpoint placed (run : Z * Z) (stretches rs : list (Z * Z)) : Prop :=
  match stretches with
  | [] => rs = []
  | st :: newer =>
    if size (st.2 - 1) <=? run.1 then placed run newer rs
    else exists from, least run.1 st from /\
      if run.2 <? size (st.2 - 1) then exists to_, least run.2 st to_ /\ rs = [(from, to_ + 1)]
      else exists rest, rs = (from, st.2) :: rest /\ placed run newer rest
  end.

Lemma placed_unique run ss rs1 rs2 : placed run ss rs1 -> placed run ss rs2 -> rs1 = rs2.
Proof.
  revert rs1 rs2. induction ss as [|st ss IH]; intros rs1 rs2; simpl; [congruence|].
  destruct (size (st.2 - 1) <=? run.1); [apply IH|]. intros (f1 & Hf1 & H1) (f2 & Hf2 & H2).
  rewrite (least_unique _ _ _ _ Hf1 Hf2) in H1. destruct (run.2 <? size (st.2 - 1)).
  - destruct H1 as (t1 & Ht1 & ->), H2 as (t2 & Ht2 & ->). by rewrite (least_unique _ _ _ _ Ht1 Ht2).
  - destruct H1 as (r1 & -> & H1), H2 as (r2 & -> & H2). by rewrite (IH _ _ H1 H2).
Qed.

Lemma placed_skip run older ss rs : (forall st, st ∈ older -> size (st.2 - 1) <= run.1) ->
  placed run (older ++ ss) rs <-> placed run ss rs.
Proof.
  induction older as [|st older IH]; intros Ho; [done|]. simpl.
  pose proof (Ho st ltac:(set_solver)). destruct (Z.leb_spec (size (st.2 - 1)) run.1); [|lia]. apply IH. set_solver.
Qed.

Lemma oldest_placed run ss rs : ascending ss -> walk_from_oldest size_at run ss = Ok (Some rs) -> placed run ss rs.
Proof.
  revert rs. induction ss as [|st ss IH]; intros rs Ha; simpl; [by intros [= <-]|]. destruct Ha as (Hst & _ & Ha).
  destruct (size_at (st.2 - 1)) as [[s|]|] eqn:Es; simpl; try done. apply known_sizes in Es as ->.
  destruct (size (st.2 - 1) <=? run.1); [by apply IH|].
  destruct (first_block_past size_at run.1 st) as [[from|]|] eqn:Ef; simpl; try done.
  apply first_block_past_spec in Ef; [|done]. destruct (run.2 <? size (st.2 - 1)).
  - destruct (first_block_past size_at run.2 st) as [[to_|]|] eqn:Et; simpl; try done.
    apply first_block_past_spec in Et; [|done]. intros [= <-]. eauto.
  - destruct (walk_from_oldest size_at run ss) as [[rest|]|] eqn:Ew; simpl; try done. intros [= <-]. eauto 6.
Qed.

Lemma ascending_app ss1 ss2 : ascending (ss1 ++ ss2) ->
  ascending ss1 /\ ascending ss2 /\ forall a b, a ∈ ss1 -> b ∈ ss2 -> a.2 <= b.1.
Proof.
  induction ss1 as [|st ss1 IH]; simpl; [intros; split_and!; [done..|set_solver]|].
  intros (Hst & Hab & Ha). destruct (IH Ha) as (H1 & H2 & H3). split_and!; [done| |done|done|].
  - intros r Hr. apply Hab. set_solver.
  - intros a b [->|Hin]%elem_of_cons Hb; [apply Hab; set_solver|by apply H3].
Qed.

(** The state of the walk after the stretches [seen], all of which end past the run's first. *)
Definition walk_inv (run : Z * Z) (seen acc : list (Z * Z)) (past : option (Z * Z)) : Prop :=
  placed run seen (reverse (acc ++ option_list past)) /\
  ((forall st, st ∈ seen -> run.2 < size (st.2 - 1)) -> acc = []).

Lemma newest_placed run older seen acc past rs : ascending (older ++ seen) -> walk_inv run seen acc past ->
  newest_loop size_at run.1 run.2 (reverse older) acc past = Ok (Some rs) -> placed run (older ++ seen) rs.
Proof.
  revert seen acc past. induction older as [|st older IH] using rev_ind; intros seen acc past Ha [Hp Hacc].
  { rewrite reverse_nil. simpl. by intros [= <-]. }
  rewrite reverse_snoc. simpl. rewrite <-(assoc_L (++)) in Ha |- *. simpl in Ha |- *.
  destruct (ascending_app _ _ Ha) as (_ & (Hst & Hseen & _) & Hold).
  assert (size (st.2 - 1) <= run.1 \/ (exists h, st.1 <= h < st.2 /\ size h <= run.1) ->
    forall o, o ∈ older -> size (o.2 - 1) <= run.1) as Hskip.
  { intros Hs o Ho. pose proof (Hold o st Ho ltac:(set_solver)). destruct Hs as [Hs|(h & Hh & Hs)].
    - pose proof (size_mono (o.2 - 1) (st.2 - 1)). lia.
    - pose proof (size_mono (o.2 - 1) h). lia. }
  destruct (size_at (st.2 - 1)) as [[s|]|] eqn:Es; simpl; try done. apply known_sizes in Es as ->.
  destruct (Z.leb_spec (size (st.2 - 1)) run.1) as [Hle|Hgt].
  { intros [= <-]. apply placed_skip; [by apply Hskip; left|]. simpl.
    destruct (Z.leb_spec (size (st.2 - 1)) run.1); [done|lia]. }
  destruct (first_block_past size_at run.1 st) as [[from|]|] eqn:Ef; simpl; try done.
  apply first_block_past_spec in Ef; [|done].
  set (step := if run.2 <? size (st.2 - 1) then _ else _).
  destruct step as [[[acc' past']|]|] eqn:Estep; simpl; try done.
  assert (walk_inv run (st :: seen) acc' past') as Hinv.
  { unfold step in Estep. unfold walk_inv. simpl. destruct (Z.leb_spec (size (st.2 - 1)) run.1); [lia|].
    destruct (Z.ltb_spec run.2 (size (st.2 - 1))) as [Hlt|Hge].
    - destruct (first_block_past size_at run.2 st) as [[to_|]|] eqn:Et; simplify_eq/=.
      apply first_block_past_spec in Et; [|done]. assert (acc' = []) as ->.
      { apply Hacc. intros o Ho. pose proof (Hseen o Ho). pose proof (size_mono (st.2 - 1) (o.2 - 1)).
        assert (st.2 <= o.2); [|lia]. assert (ascending seen) as Has by (by apply ascending_app in Ha as (_ & (_ & _ & ?) & _)).
        destruct (list_elem_of_split _ _ Ho) as (l1 & l2 & ->). apply ascending_app in Has as (_ & (Hoo & _) & _). lia. }
      split; [|done]. simpl. eauto.
    - simplify_eq/=. rewrite app_nil_r, app_assoc, reverse_snoc. split; [eauto 6|].
      intros Hall. specialize (Hall st ltac:(set_solver)). lia. }
  destruct (Z.ltb_spec st.1 from) as [Hfrom|Hfrom].
  - intros [= <-]. apply placed_skip; [|apply Hinv]. apply Hskip. right. exists st.1. split; [lia|].
    destruct Ef as (_ & _ & Hl). apply Hl. lia.
  - intros Hrest. apply (IH (st :: seen) acc' past'); done.
Qed.

Lemma rescans_placed run ss rs : ascending ss -> rescans_for size_at run ss = Ok (Some rs) -> placed run ss rs.
Proof.
  intros Ha. unfold rescans_for. destruct (walk_from_newest size_at run ss) as [[r|]|] eqn:Ew; simpl; try done.
  - intros [= <-]. rewrite <-(app_nil_r ss). eapply (newest_placed run ss [] [] None); [by rewrite app_nil_r| |exact Ew].
    split; done.
  - by apply oldest_placed.
Qed.

Lemma oldest_total run ss : ascending ss -> (forall h, covered ss h -> exists s, size_at h = Ok (Some s)) ->
  exists rs, walk_from_oldest size_at run ss = Ok (Some rs).
Proof.
  induction ss as [|st ss IH]; intros Ha Hk; simpl; [eauto|]. destruct Ha as (Hst & _ & Ha).
  destruct (Hk (st.2 - 1)) as [s Es]; [apply covered_cons; left; unfold covers; lia|]. rewrite Es. simpl.
  pose proof (known_sizes _ _ Es) as ->.
  destruct IH as [rest Hrest]; [done|intros h Hh; apply Hk, covered_cons; by right|].
  assert (forall h, covers st h -> exists s, size_at h = Ok (Some s)) as Hkst.
  { intros h Hh. apply Hk, covered_cons. by left. }
  destruct (Z.leb_spec (size (st.2 - 1)) run.1); [eauto|].
  destruct (first_block_past_total run.1 st) as [from ->]; [done..|]. simpl.
  destruct (Z.ltb_spec run.2 (size (st.2 - 1))).
  - destruct (first_block_past_total run.2 st) as [to_ ->]; [done..|]. simpl. eauto.
  - rewrite Hrest. simpl. eauto.
Qed.

Lemma search_no_error fuel p lo hi : (forall h e, size_at h <> Err e) -> exists r, search size_at fuel p lo hi = Ok r.
Proof.
  intros Hne. revert lo hi. induction fuel as [|fuel IH]; intros lo hi; simpl; destruct (lo <? hi); try by eexists.
  destruct (size_at (lo + (hi - lo) / 2)) as [[s|]|e] eqn:Es; simpl; [|by eexists|by apply Hne in Es].
  destruct (p <? s); apply IH.
Qed.

(** The walk down never fails on a wallet that answers: it answers or gives up. *)
Lemma newest_no_error run ss acc past : (forall h e, size_at h <> Err e) -> exists r,
  newest_loop size_at run.1 run.2 ss acc past = Ok r.
Proof.
  intros Hne. assert (forall p st, exists r, first_block_past size_at p st = Ok r) as Hf.
  { intros p st. unfold first_block_past. destruct (size_at (st.2 - 1)) as [[s|]|e] eqn:Es; simpl; eauto; [|by apply Hne in Es].
    destruct (s <=? p); [eauto|]. by apply search_no_error. }
  revert acc past. induction ss as [|st ss IH]; intros acc past; simpl; [eauto|].
  destruct (size_at (st.2 - 1)) as [[s|]|e] eqn:Es; simpl; eauto; [|by apply Hne in Es].
  destruct (s <=? run.1); [eauto|]. destruct (Hf run.1 st) as [[from|] ->]; simpl; [|eauto].
  destruct (run.2 <? s).
  - destruct (Hf run.2 st) as [[to_|] ->]; simpl; [|eauto]. destruct (st.1 <? from); eauto.
  - simpl. destruct (st.1 <? from); eauto.
Qed.

(** Nor does the search as a whole. *)
Lemma rescans_no_error run ss : (forall h e, size_at h <> Err e) -> exists r, rescans_for size_at run ss = Ok r.
Proof.
  intros Hne. assert (forall p st, exists r, first_block_past size_at p st = Ok r) as Hf.
  { intros p st. unfold first_block_past. destruct (size_at (st.2 - 1)) as [[s|]|e] eqn:Es; simpl; eauto; [|by apply Hne in Es].
    destruct (s <=? p); [eauto|]. by apply search_no_error. }
  unfold rescans_for, walk_from_newest. destruct (newest_no_error run (reverse ss) [] None Hne) as [[r|] ->]; simpl; [eauto|].
  induction ss as [|st ss [r IH]]; simpl; [eauto|]. destruct (size_at (st.2 - 1)) as [[s|]|e] eqn:Es; simpl; eauto; [|by apply Hne in Es].
  destruct (s <=? run.1); [eauto|]. destruct (Hf run.1 st) as [[from|] ->]; simpl; [|eauto]. destruct (run.2 <? s).
  - destruct (Hf run.2 st) as [[to_|] ->]; simpl; eauto.
  - rewrite IH. destruct r; simpl; eauto.
Qed.

(** ** What is placed covers the run, and little more *)

Lemma placed_covers run ss rs h p : ascending ss -> placed run ss rs -> covered ss h ->
  size (h - 1) <= p < size h -> run.1 <= p <= run.2 -> covered rs h.
Proof.
  revert rs. induction ss as [|st ss IH]; intros rs Ha; simpl; [by rewrite covered_nil|].
  destruct Ha as (Hst & Hab & Ha). intros Hpl Hcov Hh Hp. apply covered_cons in Hcov.
  destruct (Z.leb_spec (size (st.2 - 1)) run.1).
  - destruct Hcov as [Hc|Hc]; [|by eapply IH]. unfold covers in Hc. pose proof (size_mono h (st.2 - 1)). lia.
  - destruct Hpl as (from & Hf & Hpl).
    assert (covers st h -> from <= h) as Hge.
    { intros Hc. destruct Hf as (_ & _ & Hl). destruct (decide (from <= h)); [done|]. unfold covers in Hc.
      specialize (Hl h). lia. }
    destruct (Z.ltb_spec run.2 (size (st.2 - 1))).
    + destruct Hpl as (to_ & (Ht1 & Ht2 & Ht3) & ->). rewrite covered_cons. left. unfold covers in *. simpl.
      destruct Hcov as [Hc|(r & Hr & Hc)].
      * split; [by apply Hge|]. destruct (decide (h <= to_)); [lia|]. pose proof (size_mono to_ (h - 1)). lia.
      * specialize (Hab r Hr). pose proof (size_mono (st.2 - 1) (h - 1)). unfold covers in Hc. lia.
    + destruct Hpl as (rest & -> & Hpl). apply covered_cons. destruct Hcov as [Hc|Hc]; [left|right; by eapply IH].
      unfold covers in *. simpl. specialize (Hge Hc). lia.
Qed.

Lemma placed_precise run ss rs h : ascending ss -> placed run ss rs -> covered rs h ->
  exists st, st ∈ ss /\ covers st h /\ run.1 < size h /\ (h = st.1 \/ size (h - 1) <= run.2).
Proof.
  revert rs. induction ss as [|st ss IH]; intros rs Ha; simpl; [intros ->; by rewrite covered_nil|].
  destruct Ha as (Hst & Hab & Ha). destruct (Z.leb_spec (size (st.2 - 1)) run.1).
  - intros Hpl Hc. destruct (IH rs Ha Hpl Hc) as (s & Hs & Hr). exists s. split; [set_solver|done].
  - intros (from & (Hf1 & Hf2 & Hf3) & Hpl) Hc. destruct (Z.ltb_spec run.2 (size (st.2 - 1))).
    + destruct Hpl as (to_ & (Ht1 & Ht2 & Ht3) & ->). apply covered_cons in Hc as [Hc|Hc]; [|by apply covered_nil in Hc].
      exists st. unfold covers in *. simpl in Hc. split; [set_solver|]. split; [lia|].
      pose proof (size_mono from h). split; [lia|]. destruct (decide (h = st.1)); [by left|right]. apply Ht3. lia.
    + destruct Hpl as (rest & -> & Hpl). apply covered_cons in Hc as [Hc|Hc].
      * exists st. unfold covers in *. simpl in Hc. split; [set_solver|]. split; [lia|].
        pose proof (size_mono from h). pose proof (size_mono (h - 1) (st.2 - 1)). split; [lia|]. right. lia.
      * destruct (IH rest Ha Hpl Hc) as (s & Hs & Hr). exists s. split; [set_solver|done].
Qed.
End Placing.

(** The search depends on the sizes alone. *)
Lemma rescans_for_ext {E} (f g : Z -> result E (option Z)) run ss : (forall h, f h = g h) -> rescans_for f run ss = rescans_for g run ss.
Proof.
  intros Hfg. assert (forall fuel p lo hi, search f fuel p lo hi = search g fuel p lo hi) as Hs.
  { induction fuel as [|fuel IH]; intros p lo hi; simpl; [done|]. rewrite Hfg. destruct (g _) as [[s|]|]; simpl; [|done..]. by rewrite !IH. }
  assert (forall p st, first_block_past f p st = first_block_past g p st) as Hp.
  { intros p st. unfold first_block_past. rewrite Hfg. destruct (g _) as [[s|]|]; simpl; [|done..]. by rewrite Hs. }
  assert (forall ss acc past, newest_loop f run.1 run.2 ss acc past = newest_loop g run.1 run.2 ss acc past) as Hn.
  { clear ss. induction ss as [|st ss IH]; intros acc past; simpl; [done|]. rewrite Hfg, !Hp. destruct (g _) as [[s|]|]; simpl; [|done..].
    destruct (s <=? run.1); [done|]. destruct (first_block_past g run.1 st) as [[from|]|]; simpl; [|done..].
    destruct (run.2 <? s); simpl; [destruct (first_block_past g run.2 st) as [[to_|]|]; simpl; [|done..]|]; by rewrite IH. }
  unfold rescans_for, walk_from_newest. rewrite Hn. destruct (newest_loop g _ _ _ _ _) as [[r|]|]; simpl; [done| |done]. clear Hn.
  induction ss as [|st ss IH]; simpl; [done|]. rewrite Hfg, !Hp, IH. done.
Qed.

(** ** Contiguous runs partition the positions *)

Definition in_run (run : Z * Z) (p : Z) : Prop := run.1 <= p <= run.2.

(** Newest first, with a gap between any two. *)
Fixpoint apart (runs : list (Z * Z)) : Prop :=
  match runs with
  | [] => True
  | r :: runs' => r.1 <= r.2 /\ (forall r', r' ∈ runs' -> r'.2 + 1 < r.1) /\ apart runs'
  end.

Lemma extend_runs_spec runs p : apart runs -> (forall r, r ∈ runs -> r.2 < p) ->
  apart (extend_runs runs p) /\ (forall r, r ∈ extend_runs runs p -> r.2 <= p) /\
  forall q, (exists r, r ∈ extend_runs runs p /\ in_run r q) <-> q = p \/ exists r, r ∈ runs /\ in_run r q.
Proof.
  unfold in_run. destruct runs as [|[a b] runs]; simpl; intros Ha Hp.
  - split_and!; [lia|set_solver|done| |].
    + intros r ->%list_elem_of_singleton. simpl. lia.
    + intros q. split; [intros (r & ->%list_elem_of_singleton & Hq); simpl in Hq; left; lia|].
      intros [->|(r & Hr & _)]; [|set_solver]. exists (p, p). split; [set_solver|simpl; lia].
  - destruct Ha as (Hab & Hsep & Ha). pose proof (Hp (a, b) ltac:(set_solver)) as Hbp. simpl in Hbp.
    assert (forall r, r ∈ runs -> r.2 + 1 < a) as Hsep' by (intros r Hr; apply (Hsep r Hr)).
    destruct (Z.eqb_spec (b + 1) p) as [<-|Hne]; simpl.
    + split_and!; [lia|done|done| |].
      * intros r [->|Hr]%elem_of_cons; simpl; [lia|]. specialize (Hsep' r Hr). lia.
      * intros q. setoid_rewrite elem_of_cons. split.
        -- intros (r & [->|Hr] & Hq); simpl in *; [|eauto]. destruct (decide (q = b + 1)); [by left|right].
           exists (a, b). split; [by left|simpl; lia].
        -- intros [->|(r & [->|Hr] & Hq)]; simpl in *; [| |eauto]; (exists (a, b + 1); split; [by left|simpl; lia]).
    + split_and!; [lia| |lia|done|done| |].
      * intros r [->|Hr]%elem_of_cons; simpl; [lia|]. specialize (Hsep' r Hr). lia.
      * intros r [->|[->|Hr]%elem_of_cons]%elem_of_cons; simpl; [lia..|]. specialize (Hsep' r Hr). lia.
      * intros q. setoid_rewrite elem_of_cons. split.
        -- intros (r & [->|Hr] & Hq); simpl in *; [left; lia|right]. exists r. by split; [apply elem_of_cons|].
        -- intros [->|(r & Hr & Hq)]; [exists (p, p); split; [by left|simpl; lia]|]. exists r. split; [right|done].
           by apply elem_of_cons.
Qed.

Lemma contiguous_runs_spec ps : StronglySorted Z.lt ps ->
  apart (reverse (contiguous_runs ps)) /\
  forall q, q ∈ ps <-> exists r, r ∈ contiguous_runs ps /\ in_run r q.
Proof.
  unfold contiguous_runs. rewrite reverse_involutive. setoid_rewrite elem_of_reverse.
  assert (forall runs, apart runs -> (forall r p, r ∈ runs -> p ∈ ps -> r.2 < p) -> StronglySorted Z.lt ps ->
    apart (foldl extend_runs runs ps) /\
    forall q, (exists r, r ∈ foldl extend_runs runs ps /\ in_run r q) <-> q ∈ ps \/ exists r, r ∈ runs /\ in_run r q) as Hgen.
  { induction ps as [|p ps IH]; intros runs Ha Hlt Hs; simpl; [set_solver|].
    apply StronglySorted_inv in Hs as [Hs Hp]. rewrite Forall_forall in Hp.
    destruct (extend_runs_spec runs p) as (Ha' & Hle & Hq); [done|intros; apply Hlt; set_solver|].
    destruct (IH (extend_runs runs p)) as [Ha'' Hq']; [done| |done|].
    { intros r q Hr Hin. specialize (Hle r Hr). specialize (Hp q Hin). lia. }
    split; [done|]. intros q. rewrite Hq', Hq, elem_of_cons. naive_solver. }
  intros Hs. destruct (Hgen []) as [Ha Hq]; [done|set_solver|done|]. split; [done|].
  intros q. rewrite Hq. split; [by left|]. intros [?|(r & Hr & _)]; [done|set_solver].
Qed.

Lemma apart_unique runs r1 r2 p : apart runs -> r1 ∈ runs -> r2 ∈ runs -> in_run r1 p -> in_run r2 p -> r1 = r2.
Proof.
  unfold in_run. induction runs as [|r runs IH]; simpl; [intros _ H1; by apply elem_of_nil in H1|]. intros (_ & Hs & Ha).
  rewrite !elem_of_cons. intros [->|H1] [->|H2] P1 P2; [done| | |auto]; [specialize (Hs _ H2)|specialize (Hs _ H1)]; lia.
Qed.
Lemma contiguous_unique ps r1 r2 p : StronglySorted Z.lt ps -> r1 ∈ contiguous_runs ps -> r2 ∈ contiguous_runs ps ->
  in_run r1 p -> in_run r2 p -> r1 = r2.
Proof.
  intros [Ha _]%contiguous_runs_spec H1 H2. eapply apart_unique; [exact Ha|by apply elem_of_reverse..].
Qed.

(** ** Properties *)

(** C31: Rescanning for a run misses no block: whatever part of the wallet's tree sizes is known, if the
    search places a run then every scanned block that holds one of the run's positions is in the
    ranges it returns; and those ranges contain only scanned blocks, none that ends before the run. *)
Theorem rescans_cover_run {E} (size_at : Z -> result E (option Z)) (size : Z -> Z) pending floor end_ run rs :
  (forall h s, size_at h = Ok (Some s) -> s = size h) -> (forall a b, a <= b -> size a <= size b) ->
  (forall r, r ∈ pending -> r.1 <= r.2) ->
  rescans_for size_at run (scanned_stretches pending floor end_) = Ok (Some rs) ->
  (forall h p, floor <= h < end_ -> ~ covered pending h -> size (h - 1) <= p < size h -> in_run run p -> covered rs h) /\
  (forall h, covered rs h -> floor <= h < end_ /\ ~ covered pending h /\ run.1 < size h).
Proof.
  intros Hk Hm Hne Hr. pose proof (scanned_stretches_ascending pending floor end_ Hne) as Ha.
  pose proof (rescans_placed size_at size Hk Hm run _ rs Ha Hr) as Hp. split.
  - intros h p Hh Hpend Hhold Hrun. eapply (placed_covers size Hm); [exact Ha|exact Hp| |exact Hhold|exact Hrun].
    by apply scanned_stretches_covers.
  - intros h Hc. destruct (placed_precise size_at size Hk Hm run _ rs h Ha Hp Hc) as (st & Hst & Hc' & Hs & _).
    assert (covered (scanned_stretches pending floor end_) h) as Hcov by (by exists st).
    apply scanned_stretches_covers in Hcov as [? ?]; [|done]. done.
Qed.

(** The two walks are one specification: whenever both place a run they return the same ranges, so
    which sizes are missing never changes the answer, only whether there is one; and when the size
    of every scanned block is known there is one. *)
Theorem walks_agree {E} (size_at : Z -> result E (option Z)) (size : Z -> Z) pending floor end_ run :
  (forall h s, size_at h = Ok (Some s) -> s = size h) -> (forall a b, a <= b -> size a <= size b) ->
  (forall r, r ∈ pending -> r.1 <= r.2) -> (forall h e, size_at h <> Err e) ->
  let stretches := scanned_stretches pending floor end_ in
  (forall rs1 rs2, walk_from_newest size_at run stretches = Ok (Some rs1) ->
     walk_from_oldest size_at run stretches = Ok (Some rs2) -> rs1 = rs2) /\
  ((forall h, floor <= h < end_ -> ~ covered pending h -> exists s, size_at h = Ok (Some s)) ->
   exists rs, rescans_for size_at run stretches = Ok (Some rs)).
Proof.
  intros Hk Hm Hne Herr stretches. pose proof (scanned_stretches_ascending pending floor end_ Hne) as Ha. split.
  - intros rs1 rs2 H1 H2. eapply (placed_unique size run stretches).
    + apply (rescans_placed size_at size Hk Hm); [done|]. unfold rescans_for. by rewrite H1.
    + by apply (oldest_placed size_at size Hk).
  - intros Hall. unfold rescans_for, walk_from_newest.
    destruct (newest_no_error size_at run (reverse stretches) [] None Herr) as [[r|] ->]; simpl; [eauto|].
    apply (oldest_total size_at size Hk); [done|]. intros h Hh. apply scanned_stretches_covers in Hh as [? ?]; [|done].
    by apply Hall.
Qed.

(** *** Instances *)

(** One commitment per block, sizes missing from 50 on; two pending ranges. *)
Definition sample_size (h : Z) : Z := h.
Definition sample_size_at (h : Z) : result unit (option Z) := Ok (if h <? 50 then Some h else None).
Definition sample_pending : list (Z * Z) := [(40, 50); (20, 30)].

Example stretches_sample : scanned_stretches sample_pending 10 60 = [(10, 20); (30, 40); (50, 60)].
Proof. reflexivity. Qed.
Example newest_gives_up : walk_from_newest sample_size_at (32, 35) [(10, 20); (30, 40); (50, 60)] = Ok None.
Proof. reflexivity. Qed.

Lemma sample_known h s : sample_size_at h = Ok (Some s) -> s = sample_size h.
Proof. unfold sample_size_at. destruct (h <? 50); by intros [= <-]. Qed.
Lemma sample_ranges r : r ∈ sample_pending -> r.1 <= r.2.
Proof. intros [->| ->%list_elem_of_singleton]%elem_of_cons; simpl; lia. Qed.

Lemma rescans_cover_run_witness : exists rs,
  rescans_for sample_size_at (32, 35) (scanned_stretches sample_pending 10 60) = Ok (Some rs) /\ covered rs 33.
Proof.
  exists [(33, 37)]. split; [reflexivity|].
  apply (rescans_cover_run sample_size_at sample_size sample_pending 10 60 (32, 35) [(33, 37)]) with (p := 32).
  - apply sample_known.
  - unfold sample_size. lia.
  - apply sample_ranges.
  - reflexivity.
  - lia.
  - intros (r & [->| ->%list_elem_of_singleton]%elem_of_cons & Hc); unfold covers in Hc; simpl in Hc; lia.
  - unfold sample_size. lia.
  - unfold in_run. simpl. lia.
Defined.

Example walks_agree_instance :
  exists rs, rescans_for (fun h => Ok (Some h) : result unit (option Z)) (5, 7) (scanned_stretches sample_pending 10 60) = Ok (Some rs).
Proof.
  apply (walks_agree (fun h => Ok (Some h) : result unit (option Z)) sample_size sample_pending 10 60 (5, 7)).
  - by intros h s [= <-].
  - unfold sample_size. lia.
  - apply sample_ranges.
  - done.
  - intros h _ _. by exists h.
Qed.
End GraftRuns.
