(* ===== verification/GraftPlan.v ===== *)
(** * One pool's graft plan: [plan_pool] of [core/src/persist.rs]

    What a call of [sparse_put_blocks] decides per pool before its transaction opens: the
    accumulator is seeded from the buffer table on the range's first call, the call's
    commitments are fed to it, rows to be kept back are appended to the table, and the rest
    becomes a plan: segments to build, shards to graft from the server's roots, and the
    buffered positions to delete once the transaction has committed.

    The wallet's tree is seen through three questions the caller answers: whether a shard
    already has an interior, why the tree would refuse a buffered run ([resume_refusal], over
    the external tree library), and the server root stored for a shard. *)

From S2P Require Export GraftRuns SparseStore.

Module GraftPlan.
Import GraftAccumulator Checkpoints GraftBuffer GraftRuns.
Local Open Scope graft_scope.

Section Plan.
Context {H : Type} `{!EqDecision H} `{!HashSer H}.
Abbreviation Row := (BufferRow H).
Abbreviation Acc := (ShardAccumulator (H := H) (R := Retention)).
Abbreviation Action := (FeedAction H Retention).

(** [struct PoolPlan]. *)
Record PoolPlan := mkPlan {
  segments : list (Z * list (Slot H));
  grafts : list (Z * H);
  cleanup_spans : list (Z * (Z * Z));
  fallbacks : Z;
  verify_roots : list (Z * H);
}.
#[export] Instance eta_PoolPlan : Eta PoolPlan := fun p =>
  mkPlan p.(segments) p.(grafts) p.(cleanup_spans) p.(fallbacks) p.(verify_roots).
Definition empty_plan : PoolPlan := mkPlan [] [] [] 0 [].

(** [rows_to_segment]. *)
Definition rows_to_segment (rows : list Row) : option (Z * list (Slot H)) :=
  match rows with
  | [] => None
  | row :: _ => Some (pos row, (fun row : Row => Some (row.1.2, row.2)) <$> rows)
  end.

(** [fed_span]. *)
Definition fed_span (rows : list Row) : option (Z * (Z * Z)) :=
  match head rows, last rows with
  | Some f, Some l => Some (Z.shiftr (pos f) 16, (pos f, pos l + 1))
  | _, _ => None
  end.

(** What the caller passes along with the stream. *)
Record PoolIn := mkPoolIn {
  verify_sample : Z;
  pi_pool : ShieldedPool;
  start_position : Z;
  frontier_leaf : option (Z * H);
  stream : list (H * Retention);
  note_positions : list Z;
  store_has_shard : Z -> bool;
  tree_refuses : list Row -> option string;
  server_root : Z -> result SqliteClientError (option H);
  anchors : option (Z -> bool);
}.

Context {W : Type} (fault : nat -> option string).

(** The seed: the buffered rows of the shard, minus those fed again, and the run that ends
    on the frontier if the tree takes it. *)
Definition seed_acc (i : PoolIn) : M (W := W) Acc :=
  let shard := Z.shiftr i.(start_position) 16 in
  let fed := (i.(start_position), Z.min (i.(start_position) + Z.of_nat (length i.(stream))) (Z.shiftl (shard + 1) 16)) in
  let! loaded := attempt (load_shard fault i.(pi_pool) shard) in
  let! (resume, undecodable) :=
    match loaded with
    | Ok rows =>
      (if existsb (fun row : Row => (fed.1 <=? pos row) && (pos row <? fed.2)) rows
       then delete_rows_in fault i.(pi_pool) shard fed else ret tt) ;;;
      ret (rows, false)
    | Err e =>
      if will_not_decode e then delete_rows_in fault i.(pi_pool) shard fed ;;; ret ([], true) else fail e
    end in
  let ends_at_start :=
    match last (below i.(start_position) resume) with
    | Some row => pos row + 1 =? i.(start_position)
    | None => false
    end in
  let run := (resumable_run resume i.(start_position) i.(frontier_leaf)).1 in
  let rejected_at_start := ends_at_start && bool_decide (run = []) in
  let refusal := if bool_decide (run = []) then None else i.(tree_refuses) run in
  let refused := match refusal with Some _ => true | None => false end in
  let run := if refused then [] else run in
  let passthrough := i.(store_has_shard) shard || undecodable || rejected_at_start || refused in
  ret (seed i.(start_position) run passthrough).

(** The verdict on a closed shard. *)
Definition close_shard (i : PoolIn) (shard_index : Z) (rows : list Row) (plan : PoolPlan) : M (W := W) PoolPlan :=
  let plan := plan <| cleanup_spans := plan.(cleanup_spans) ++ option_list (fed_span rows) |> in
  let build (p : PoolPlan) := p <| segments := p.(segments) ++ option_list (rows_to_segment rows) |> in
  let contains_anchor := existsb (fun row : Row =>
    match row.2 with Checkpoint id _ => should_retain_anchor i.(anchors) id | _ => false end) rows in
  if contains_anchor then ret (build (plan <| fallbacks := plan.(fallbacks) + 1 |>))
  else
    let! root := lift (i.(server_root) shard_index) in
    match root with
    | Some root =>
      if (0 <? i.(verify_sample)) && (shard_index mod i.(verify_sample) =? 0)
      then ret (build (plan <| verify_roots := plan.(verify_roots) ++ [(shard_index, root)] |>))
      else ret (plan <| grafts := plan.(grafts) ++ [(shard_index, root)] |>)
    | None => ret (build (plan <| fallbacks := plan.(fallbacks) + 1 |>))
    end.

Definition apply_action (i : PoolIn) (a : Action) (plan : PoolPlan) : M (W := W) PoolPlan :=
  match a with
  | Build rows =>
    ret (plan <| cleanup_spans := plan.(cleanup_spans) ++ option_list (fed_span rows) |>
              <| segments := plan.(segments) ++ option_list (rows_to_segment rows) |>)
  | CloseCleanShard shard_index rows => close_shard i shard_index rows plan
  | Buffer rows =>
    match rows with
    | [] => ret plan
    | row :: _ => append_rows fault i.(pi_pool) (Z.shiftr (pos row) 16) rows ;;; ret plan
    end
  end.

Fixpoint apply_actions (i : PoolIn) (acts : list Action) (plan : PoolPlan) : M (W := W) PoolPlan :=
  match acts with
  | [] => ret plan
  | a :: acts' => let! plan' := apply_action i a plan in apply_actions i acts' plan'
  end.

(** [plan_pool].  An error leaves the accumulator as the caller had it; the range ends there. *)
Definition plan_pool (acc : option Acc) (i : PoolIn) : M (W := W) (Acc * PoolPlan) :=
  let! acc := match acc with Some a => ret a | None => seed_acc i end in
  let '(acc', acts) := feed acc i.(start_position) i.(stream) i.(note_positions) in
  let! plan := apply_actions i acts empty_plan in
  ret (acc', plan).
End Plan.

(** ** What the plan covers *)

Section Covers.
Context {H : Type} `{!EqDecision H} `{!HashSer H}.
Abbreviation Row := (BufferRow H).
Abbreviation Acc := (ShardAccumulator (H := H) (R := Retention)).
Abbreviation Action := (FeedAction H Retention).
Abbreviation Plan := (PoolPlan (H := H)).
Abbreviation In := (PoolIn (H := H)).

Definition row_key (pool : ShieldedPool) (p : Z) : Z * Z * Z := (pool_code pool, shard_of p, p).
(** Rows are filed under the shard of their position. *)
Definition well_keyed (t : Table) : Prop := forall c s p, is_Some (t !! (c, s, p)) -> s = shard_of p.

(** The plan puts position [p] into the tree. *)
Definition plan_holds (plan : Plan) (p : Z) : Prop :=
  (exists seg, seg ∈ plan.(segments) /\ seg.1 <= p < seg.1 + Z.of_nat (length seg.2)) \/
  shard_of p ∈ plan.(grafts).*1.

Definition span_held (plan : Plan) (x : Z * (Z * Z)) : Prop :=
  forall p, x.2.1 <= p < x.2.2 -> shard_of p = x.1 /\ plan_holds plan p.

Definition extends (p1 p2 : Plan) : Prop :=
  p1.(segments) ⊆ p2.(segments) /\ p1.(grafts) ⊆ p2.(grafts) /\ p1.(cleanup_spans) ⊆ p2.(cleanup_spans).

#[local] Instance extends_refl : Reflexive extends.
Proof. intros p. by split_and!. Qed.
#[local] Instance extends_trans : Transitive extends.
Proof. intros p1 p2 p3 (A1 & A2 & A3) (B1 & B2 & B3). split_and!; etrans; eauto. Qed.

Lemma extends_holds p1 p2 p : extends p1 p2 -> plan_holds p1 p -> plan_holds p2 p.
Proof.
  intros (Hs & Hg & _) [(seg & Hin & Hb)|Hin]; [left; exists seg; split; [by apply Hs|done]|right].
  apply list_elem_of_fmap in Hin as (g & -> & Hin). apply list_elem_of_fmap. exists g. split; [done|by apply Hg].
Qed.

Lemma one_shard_bounds s (rows : list Row) f l : one_shard s rows -> head rows = Some f -> last rows = Some l ->
  shard_of (pos f) = s /\ pos l + 1 = pos f + Z.of_nat (length rows) /\
  forall p, pos f <= p < pos l + 1 <-> exists r, r ∈ rows /\ pos r = p.
Proof.
  intros [[a Ha] Hs] Hf Hl. destruct rows as [|r rows]; [done|]. simpl in Hf. injection Hf as ->.
  rewrite Forall_forall in Hs. assert (pos f = a) as <-.
  { apply (f_equal head) in Ha. rewrite seqZ_cons in Ha by (simpl; lia). simpl in Ha. by injection Ha. }
  split; [apply Hs; set_solver|]. assert (pos l + 1 = pos f + Z.of_nat (length (f :: rows))) as Hlen.
  { assert (last (seqZ (pos f) (Z.of_nat (length (f :: rows)))) = Some (pos l)) as Hla.
    { rewrite <-Ha. etrans; [apply (fmap_last pos)|]. exact (f_equal (fmap pos) Hl). }
    simpl length in *. rewrite seqZ_S, last_snoc in Hla. injection Hla as Hla. lia. }
  split; [done|]. intros p. rewrite Hlen, <-elem_of_seqZ, <-Ha, list_elem_of_fmap. naive_solver.
Qed.

(** A run that is built: its span is held. *)
Lemma built_held s (rows : list Row) (plan : Plan) :
  one_shard s rows -> option_list (rows_to_segment rows) ⊆ plan.(segments) ->
  (forall r, r ∈ rows -> plan_holds plan (pos r)) /\ (forall x, x ∈ option_list (fed_span rows) -> span_held plan x).
Proof.
  intros Hone Hseg. destruct rows as [|f rows]; [split; [set_solver|simpl; set_solver]|].
  destruct (last (f :: rows)) as [l|] eqn:El; [|by apply last_None in El].
  destruct (one_shard_bounds s (f :: rows) f l Hone eq_refl El) as (Hs & Hlen & Hpos).
  assert (forall p, pos f <= p < pos l + 1 -> plan_holds plan p) as Hh.
  { intros p Hp. left. eexists. split; [apply Hseg; simpl; by left|]. simpl. rewrite length_fmap. simpl in Hlen. lia. }
  destruct Hone as [_ Hall]. rewrite Forall_forall in Hall. split.
  - intros r Hr. apply Hh, Hpos. eauto.
  - intros x Hx. unfold fed_span in Hx. rewrite El in Hx. simpl in Hx. apply list_elem_of_singleton in Hx as ->.
    intros p Hp. simpl in *. split; [|by apply Hh]. apply Hpos in Hp as (r & Hr & <-). rewrite (Hall r Hr), <-Hs. done.
Qed.

Lemma grafted_held s (rows : list Row) (plan : Plan) :
  one_shard s rows -> s ∈ plan.(grafts).*1 ->
  (forall r, r ∈ rows -> plan_holds plan (pos r)) /\ (forall x, x ∈ option_list (fed_span rows) -> span_held plan x).
Proof.
  intros Hone Hg. pose proof Hone as [_ Hall]. rewrite Forall_forall in Hall. split.
  { intros r Hr. right. by rewrite (Hall r Hr). }
  intros x Hx. unfold fed_span in Hx. destruct (head rows) as [f|] eqn:Ef; [|set_solver].
  destruct (last rows) as [l|] eqn:El; [|set_solver]. simpl in Hx. apply list_elem_of_singleton in Hx as ->.
  destruct (one_shard_bounds s rows f l Hone Ef El) as (Hs & Hlen & Hpos).
  intros p Hp. simpl in *. apply Hpos in Hp as (r & Hr & <-). rewrite (Hall r Hr). split; [done|].
  right. by rewrite (Hall r Hr).
Qed.

(** A graft of the plan: a closed shard of this feed with no durable anchor in it, whose root the
    server gave. *)
Definition graft_ok (i : In) (acts : list Action) (g : Z * H) : Prop :=
  i.(server_root) g.1 = Ok (Some g.2) /\
  exists rows, CloseCleanShard g.1 rows ∈ acts /\
    forall row id m, row ∈ rows -> row.2 = Checkpoint id m -> should_retain_anchor i.(anchors) id = false.

(** From [plan] to [plan'] the rows are taken care of, and nothing else is added. *)
Record takes (i : In) (acts : list Action) (rows : list Row) (plan plan' : Plan) : Prop := {
  t_extends : extends plan plan';
  t_held r : r ∈ rows -> plan_holds plan' (pos r);
  t_spans x : x ∈ plan'.(cleanup_spans) -> x ∈ plan.(cleanup_spans) \/ span_held plan' x;
  t_grafts g : g ∈ plan'.(grafts) -> g ∈ plan.(grafts) \/ graft_ok i acts g;
}.

Lemma built_takes i acts s (rows : list Row) (plan plan' : Plan) : one_shard s rows ->
  plan'.(segments) = plan.(segments) ++ option_list (rows_to_segment rows) -> plan'.(grafts) = plan.(grafts) ->
  plan'.(cleanup_spans) = plan.(cleanup_spans) ++ option_list (fed_span rows) -> takes i acts rows plan plan'.
Proof.
  intros Hone Es Eg Ec. destruct (built_held s rows plan' Hone) as [B1 B2]; [rewrite Es; set_solver|]. split; [|done| |].
  - unfold extends. rewrite Es, Eg, Ec. split_and!; set_solver.
  - rewrite Ec. intros x [Hx|Hx]%elem_of_app; [by left|right; by apply B2].
  - rewrite Eg. by left.
Qed.

Lemma close_shard_spec {W} i s (rows : list Row) (plan plan' : Plan) (w w' : World W) : one_shard s rows ->
  close_shard i s rows plan w = (w', Ok plan') -> w' = w /\ takes i [CloseCleanShard s rows] rows plan plan'.
Proof.
  intros Hone. unfold close_shard. destruct (existsb _ rows) eqn:Ea.
  { intros [= <- <-]. split; [done|]. by eapply built_takes. }
  destruct (i.(server_root) s) as [[root|]|e] eqn:Er; unfold bind, lift; simpl; [| |done].
  2:{ intros [= <- <-]. split; [done|]. by eapply built_takes. }
  destruct (_ && _) eqn:Ev; intros [= <- <-]; (split; [done|]); [by eapply built_takes|].
  destruct (grafted_held s rows (mkPlan plan.(segments) (plan.(grafts) ++ [(s, root)])
    (plan.(cleanup_spans) ++ option_list (fed_span rows)) plan.(fallbacks) plan.(verify_roots))) as [B1 B2];
    [done|simpl; rewrite fmap_app; set_solver|].
  split; simpl; [by unfold extends; simpl; split_and!; set_solver|done| |].
  - intros x [Hx|Hx]%elem_of_app; [by left|right; by apply B2].
  - intros g [Hg|Hg%list_elem_of_singleton]%elem_of_app; [by left|]. subst g. right. split; [done|]. exists rows.
    split; [set_solver|]. intros row id m Hrow Hid. apply not_true_iff_false in Ea.
    destruct (should_retain_anchor i.(anchors) id) eqn:Es; [|done]. exfalso. apply Ea, existsb_exists.
    exists row. split; [by apply list_elem_of_In|]. by rewrite Hid.
Qed.

(** ** The table along the way *)

(** The keys of the positions a call feeds. *)
Definition fed_key (i : In) (k : Z * Z * Z) : Prop :=
  k.1.1 = pool_code i.(pi_pool) /\ i.(start_position) <= k.2 < i.(start_position) + Z.of_nat (length i.(stream)).

(** Nothing changes but at the fed positions, and rows are filed under their shard. *)
Definition only_fed (i : In) (t0 t : Table) : Prop :=
  (forall k, ~ fed_key i k -> t !! k = t0 !! k) /\ well_keyed t.

Definition buffered (pool : ShieldedPool) (t : Table) (p : Z) : Prop := is_Some (t !! row_key pool p).

Lemma encode_rows_keys (rows : list Row) es : encode_rows rows = Ok es -> es.*1 = pos <$> rows.
Proof.
  revert es. induction rows as [|row rows IH]; intros es; simpl; [by intros [= <-]|].
  destruct (encode_row row) as [e|] eqn:Ee; [|done]. destruct (encode_rows rows) as [es'|]; [|done].
  simpl. intros [= <-]. change (e.1 :: es'.*1 = pos row :: (pos <$> rows)). rewrite (IH es' eq_refl). f_equal.
  unfold encode_row in Ee. destruct (hash_write row.1.2); [|done]. destruct (encode_retention row.2) as [[]]. by simplify_eq.
Qed.

Lemma insert_rows_lookup pool s es (t : Table) k :
  (k ∈ ((fun e : Z * Enc => (pool_code pool, s, e.1)) <$> es) -> is_Some (insert_rows pool s es t !! k)) /\
  (k ∉ ((fun e : Z * Enc => (pool_code pool, s, e.1)) <$> es) -> insert_rows pool s es t !! k = t !! k) /\
  (is_Some (t !! k) -> is_Some (insert_rows pool s es t !! k)).
Proof.
  unfold insert_rows. revert t. induction es as [|e es IH]; intros t; csimpl; [set_solver|].
  specialize (IH (<[(pool_code pool, s, e.1) := e.2]> t)) as (IH1 & IH2 & IH3). split_and!.
  - intros [->|Hk]%elem_of_cons; [|by apply IH1]. apply IH3. rewrite lookup_insert_eq. eauto.
  - intros [Hne Hk]%not_elem_of_cons. rewrite IH2 by done. by rewrite lookup_insert_ne by done.
  - intros Hs. apply IH3. destruct (decide ((pool_code pool, s, e.1) = k)) as [->|]; [rewrite lookup_insert_eq; eauto|].
    by rewrite lookup_insert_ne.
Qed.

Lemma only_fed_insert i t0 s (rows : list Row) es t : one_shard s rows -> encode_rows rows = Ok es ->
  (forall r, r ∈ rows -> i.(start_position) <= pos r < i.(start_position) + Z.of_nat (length i.(stream))) ->
  only_fed i t0 t -> only_fed i t0 (insert_rows i.(pi_pool) s es t).
Proof.
  intros [_ Hs] He Hr [Ho Hw]. apply encode_rows_keys in He. rewrite Forall_forall in Hs.
  assert (forall k, k ∈ ((fun e : Z * Enc => (pool_code i.(pi_pool), s, e.1)) <$> es) ->
    exists r, r ∈ rows /\ k = (pool_code i.(pi_pool), s, pos r)) as Hk.
  { intros k (e & -> & Hin)%list_elem_of_fmap. assert (e.1 ∈ pos <$> rows) as Hin' by (rewrite <-He; apply list_elem_of_fmap; eauto).
    apply list_elem_of_fmap in Hin' as (r & -> & Hr'). eauto. }
  split.
  - intros k Hf. rewrite (proj1 (proj2 (insert_rows_lookup _ _ _ _ _))); [by apply Ho|].
    intros (r & Hr' & ->)%Hk. apply Hf. split; [done|]. simpl. by apply Hr.
  - intros c s' p Hsome. destruct (decide ((c, s', p) ∈ ((fun e : Z * Enc => (pool_code i.(pi_pool), s, e.1)) <$> es))) as [Hin|Hin].
    + apply Hk in Hin as (r & Hr' & [= -> -> ->]). by rewrite (Hs r Hr').
    + rewrite (proj1 (proj2 (insert_rows_lookup _ _ _ _ _))) in Hsome by done. by eapply Hw.
Qed.

Lemma only_fed_delete i t0 s span t : (forall k, in_span i.(pi_pool) s span k = true -> fed_key i k) ->
  only_fed i t0 t -> only_fed i t0 (filter (fun p : Z * Z * Z * Enc => in_span i.(pi_pool) s span p.1 = false) t).
Proof.
  intros Hspan [Ho Hw]. split.
  - intros k Hf. rewrite <-(Ho k Hf). destruct (in_span i.(pi_pool) s span k) eqn:E; [by apply Hspan in E|].
    destruct (t !! k) as [e|] eqn:Ek.
    + apply map_lookup_filter_Some. done.
    + apply map_lookup_filter_None. by left.
  - intros c s' p [e He]. apply map_lookup_filter_Some in He as [He _]. by eapply Hw.
Qed.

Section Run.
Context {W : Type} (fault : nat -> option string) (i : In) (t0 : Table).

(** The actions of a feed of this call. *)
Definition action_here (a : Action) : Prop :=
  action_fits a /\ forall rows, a = Buffer rows -> forall r, r ∈ rows ->
    i.(start_position) <= pos r < i.(start_position) + Z.of_nat (length i.(stream)).

Lemma apply_action_steps a plan : action_here a -> Steps (W := W) (only_fed i t0) (apply_action fault i a plan).
Proof.
  intros [Hfit Hin]. destruct a as [rows|s rows|rows]; simpl; [apply Steps_ret| |].
  - unfold close_shard. destruct (existsb _ rows); [apply Steps_ret|].
    apply Steps_bind; [apply Steps_lift|]. intros [root|]; [|apply Steps_ret]. destruct (_ && _); apply Steps_ret.
  - destruct rows as [|row rows]; [apply Steps_ret|]. destruct Hfit as [s Hone].
    apply Steps_bind; [|intros; apply Steps_ret]. unfold append_rows.
    destruct (encode_rows (row :: rows)) as [es|] eqn:Ee; [|apply Steps_fail]. apply Steps_execute. intros t Ht.
    assert (shard_of (pos row) = s) as Es by (destruct Hone as [_ Hs]; rewrite Forall_forall in Hs; apply Hs; set_solver).
    change (Z.shiftr (pos row) 16) with (shard_of (pos row)). rewrite Es.
    eapply only_fed_insert; [exact Hone|exact Ee| |done]. by apply Hin.
Qed.

Lemma apply_actions_steps acts plan : Forall action_here acts -> Steps (W := W) (only_fed i t0) (apply_actions fault i acts plan).
Proof.
  intros Ha. revert plan. induction Ha as [|a acts Ha _ IH]; intros plan; simpl; [apply Steps_ret|].
  apply Steps_bind; [by apply apply_action_steps|done].
Qed.

(** What one action leaves: its rows in the table or in the plan. *)
Record done_with (acts : list Action) (rows : list Row) (plan plan' : Plan) (t t' : Table) : Prop := {
  d_grows k : is_Some (t !! k) -> is_Some (t' !! k);
  d_extends : extends plan plan';
  d_rows r : r ∈ rows -> buffered i.(pi_pool) t' (pos r) \/ plan_holds plan' (pos r);
  d_spans x : x ∈ plan'.(cleanup_spans) -> x ∈ plan.(cleanup_spans) \/ span_held plan' x;
  d_grafts g : g ∈ plan'.(grafts) -> g ∈ plan.(grafts) \/ graft_ok i acts g;
}.

Lemma takes_done acts rows plan plan' t : takes i acts rows plan plan' -> done_with acts rows plan plan' t t.
Proof. intros []. split; try done. intros r Hr. right. by apply t_held0. Qed.

Lemma apply_action_done a plan plan' (w w' : World W) : action_here a ->
  apply_action fault i a plan w = (w', Ok plan') ->
  done_with [a] (action_rows a) plan plan' w.(table) w'.(table).
Proof.
  intros [Hfit Hin]. destruct a as [rows|s rows|rows]; simpl.
  - intros [= <- <-]. destruct Hfit as [s Hone]. apply takes_done. by eapply built_takes.
  - intros Hc. destruct (close_shard_spec i s rows plan plan' w w' Hfit Hc) as [-> Ht]. by apply takes_done.
  - destruct rows as [|row rows]; [intros [= <- <-]; split; try done; [set_solver|by left|by left]|].
    destruct Hfit as [s Hone]. unfold bind, append_rows. destruct (encode_rows (row :: rows)) as [es|] eqn:Ee; [|done].
    unfold execute. destruct (fault _); [done|]. intros [= <- <-]. simpl.
    assert (shard_of (pos row) = s) as Es by (destruct Hone as [_ Hs]; rewrite Forall_forall in Hs; apply Hs; set_solver).
    change (Z.shiftr (pos row) 16) with (shard_of (pos row)). rewrite Es.
    split; [apply insert_rows_lookup|done| |by left|by left]. intros r Hr. left. unfold buffered, row_key.
    destruct Hone as [_ Hs]. rewrite Forall_forall in Hs. rewrite (Hs r Hr).
    apply (proj1 (insert_rows_lookup i.(pi_pool) s es w.(table) _)). apply list_elem_of_fmap.
    assert (pos r ∈ es.*1) as Hk by (rewrite (encode_rows_keys _ _ Ee); apply list_elem_of_fmap; eauto).
    apply list_elem_of_fmap in Hk as (e & -> & He). eauto.
Qed.

Lemma graft_ok_mono acts acts' g : acts ⊆ acts' -> graft_ok i acts g -> graft_ok i acts' g.
Proof. intros Hsub [Hr (rows & Hin & Ha)]. split; [done|]. exists rows. split; [by apply Hsub|done]. Qed.

Lemma span_held_mono p1 p2 x : extends p1 p2 -> span_held p1 x -> span_held p2 x.
Proof. intros He Hx p Hp. destruct (Hx p Hp). split; [done|]. by eapply extends_holds. Qed.

Lemma apply_actions_done acts plan plan' (w w' : World W) : Forall action_here acts ->
  apply_actions fault i acts plan w = (w', Ok plan') ->
  done_with acts (acts ≫= action_rows) plan plan' w.(table) w'.(table).
Proof.
  intros Ha. revert plan w. induction Ha as [|a acts Ha _ IH]; intros plan w; simpl.
  { intros [= <- <-]. split; try done; [set_solver|by left|by left]. }
  unfold bind. destruct (apply_action fault i a plan w) as [w1 [plan1|]] eqn:E1; [|done]. intros E2.
  destruct (apply_action_done _ _ _ _ _ Ha E1) as [G1 X1 R1 S1 F1]. destruct (IH _ _ E2) as [G2 X2 R2 S2 F2].
  split.
  - auto.
  - by etrans.
  - intros r [Hr|Hr]%elem_of_app; [|by apply R2]. destruct (R1 r Hr) as [Hb|Hh]; [left; by apply G2|right].
    by eapply extends_holds.
  - intros x Hx. destruct (S2 x Hx) as [Hx1|]; [|by right]. destruct (S1 x Hx1) as [|Hh]; [by left|right].
    by eapply span_held_mono.
  - intros g Hg. destruct (F2 g Hg) as [Hg1|Hok]; [|right; eapply graft_ok_mono; [|exact Hok]; set_solver].
    destruct (F1 g Hg1) as [|Hok]; [by left|right]. eapply graft_ok_mono; [|exact Hok]. set_solver.
Qed.

(** Every slot of a plan's segments is filled. *)
Definition filled (plan : Plan) : Prop := Forall (fun seg => Forall is_Some seg.2) plan.(segments).

Lemma filled_build (plan plan' : Plan) rows : filled plan ->
  plan'.(segments) = plan.(segments) ++ option_list (rows_to_segment rows) \/ plan'.(segments) = plan.(segments) -> filled plan'.
Proof.
  intros Hf [E|E]; unfold filled; rewrite E; [|done]. apply Forall_app. split; [done|].
  destruct rows as [|row rows]; [constructor|]. apply Forall_singleton. simpl. constructor; [eauto|].
  apply Forall_fmap, Forall_forall. eauto.
Qed.

Lemma apply_actions_filled acts plan plan' (w w' : World W) : filled plan ->
  apply_actions fault i acts plan w = (w', Ok plan') -> filled plan'.
Proof.
  revert plan w. induction acts as [|a acts IH]; intros plan w Hf; simpl; [by intros [= _ <-]|].
  unfold bind. destruct (apply_action fault i a plan w) as [w1 [plan1|]] eqn:E1; [|done]. apply IH. clear IH.
  destruct a as [rows|s rows|rows]; simpl in E1.
  - unfold ret in E1. simplify_eq. eapply filled_build; [exact Hf|by left].
  - eapply filled_build; [exact Hf|]. unfold close_shard, bind, lift, ret in E1. repeat (case_match; simplify_eq/=); eauto.
  - destruct rows; [unfold ret in E1; by simplify_eq|]. unfold bind, ret in E1. destruct (append_rows _ _ _ _ w) as [? [|]]; by simplify_eq.
Qed.

(** ** The seed *)

Lemma fed_span_keys shard k : shard = shard_of i.(start_position) ->
  in_span i.(pi_pool) shard (i.(start_position),
    Z.min (i.(start_position) + Z.of_nat (length i.(stream))) (Z.shiftl (shard + 1) 16)) k = true -> fed_key i k.
Proof.
  intros _. unfold in_span, fed_key. simpl. rewrite !andb_true_iff, bool_decide_eq_true. intros [[-> H1] H2]. simpl.
  breflect. split; [done|lia].
Qed.

Lemma seed_acc_steps : Steps (W := W) (only_fed i t0) (seed_acc fault i).
Proof.
  unfold seed_acc. apply Steps_bind; [apply Steps_attempt, Steps_select|]. intros loaded.
  apply Steps_bind; [|intros [resume bad]; apply Steps_ret].
  assert (Steps (W := W) (only_fed i t0) (delete_rows_in fault i.(pi_pool) (Z.shiftr i.(start_position) 16)
    (i.(start_position), Z.min (i.(start_position) + Z.of_nat (length i.(stream)))
       (Z.shiftl (Z.shiftr i.(start_position) 16 + 1) 16)))) as Hdel.
  { apply Steps_execute. intros t. apply only_fed_delete. intros k. by apply fed_span_keys. }
  destruct loaded as [rows|e].
  - apply Steps_bind; [|intros; apply Steps_ret]. destruct (existsb _ rows); [done|apply Steps_ret].
  - destruct (will_not_decode e); [|apply Steps_fail]. apply Steps_bind; [done|]. intros. apply Steps_ret.
Qed.

Lemma decode_rows_keys es (rows : list Row) : decode_rows es = Ok rows -> pos <$> rows = es.*1.
Proof.
  revert rows. induction es as [|e es IH]; intros rows; simpl; [by intros [= <-]|].
  destruct (decode_row e) as [row|] eqn:Er; [|done]. destruct (decode_rows es) as [rows'|]; [|done].
  simpl. intros [= <-]. change (pos row :: (pos <$> rows') = e.1 :: es.*1). rewrite (IH rows' eq_refl). f_equal.
  unfold decode_row in Er. destruct (hash_read _); [|done]. destruct (decode_retention _ _ _); [|done]. by simplify_eq/=.
Qed.

(** The accumulator stands at [p] with rows that end there, in their shard. *)
Definition acc_fits (a : Acc) (p : Z) : Prop :=
  a.(next_position) = p /\ exists o, a.(GraftAccumulator.open) = Some o /\ open_fits o p.

Lemma seed_acc_fits (w w' : World W) a : well_keyed w.(table) -> seed_acc fault i w = (w', Ok a) ->
  acc_fits a i.(start_position).
Proof.
  intros Hw. unfold seed_acc, bind at 1, attempt. destruct (load_shard fault i.(pi_pool) _ w) as [w1 loaded] eqn:El.
  unfold bind at 1. intros Hs.
  set (m := match loaded with Ok _ => _ | Err _ => _ end) in Hs.
  assert (forall w2 resume bad, m w1 = (w2, Ok (resume, bad)) -> Forall (fun r => shard_of (pos r) = shard_of i.(start_position)) resume) as Hrows.
  { intros w2 resume bad Hm. subst m. destruct loaded as [rows|e].
    - assert (resume = rows) as ->.
      { unfold bind, ret in Hm. match type of Hm with context [(if ?b then ?x else ?y) w1] => destruct ((if b then x else y) w1) as [w3 [u|]] end; by simplify_eq. }
      unfold load_shard, select in El. destruct (fault _); [done|]. injection El as _ Hd.
      apply Forall_forall. intros r Hr. assert (pos r ∈ pos <$> rows) as Hk by (apply list_elem_of_fmap; eauto).
      rewrite (decode_rows_keys _ _ Hd) in Hk.
      apply list_elem_of_fmap in Hk as ([p e] & -> & Hin). apply elem_of_shard_rows in Hin. simpl. symmetry. eapply Hw. eauto.
    - destruct (will_not_decode e); [|done]. unfold bind, ret in Hm.
      destruct (delete_rows_in _ _ _ _ w1) as [w3 [u|]]; simplify_eq. constructor. }
  destruct (m w1) as [w2 [[resume bad]|]]; [|done]. specialize (Hrows w2 resume bad eq_refl).
  unfold ret in Hs. injection Hs as <- <-. split; [done|]. eexists. split; [done|].
  destruct (resumable_run resume i.(start_position) i.(frontier_leaf)) as [run left] eqn:Er. simpl.
  destruct (resumable_run_contiguous _ _ _ _ _ Er) as (Hc & _ & Hsub).
  pose proof (shard_bounds i.(start_position)). unfold open_fits. simpl.
  destruct (if bool_decide (run = []) then None else _) as [why|]; simpl.
  - split; [done|]. split; [constructor|lia].
  - split; [done|]. split; [|lia]. destruct (decide (run = [])) as [->|Hne]; [constructor|].
    destruct (Hsub Hne) as (pre & post & l & -> & _). apply Forall_app in Hrows as [_ Hrows]. by apply Forall_app in Hrows as [? _].
Qed.

Lemma feed_here a : acc_fits a i.(start_position) ->
  let '(acc', acts) := feed a i.(start_position) i.(stream) i.(note_positions) in
  Forall action_here acts /\ acc_fits acc' (i.(start_position) + Z.of_nat (length i.(stream))) /\
  forall p, i.(start_position) <= p < i.(start_position) + Z.of_nat (length i.(stream)) ->
    exists r, r ∈ acts ≫= action_rows /\ pos r = p.
Proof.
  intros [Hn (o & Ho & Hfit)]. destruct a as [n op]. simpl in *. subst n op.
  pose proof (feed_fits o i.(start_position) i.(stream) i.(note_positions) Hfit) as Hf. cbn zeta in Hf.
  pose proof (feed_next (mkAcc i.(start_position) (Some o)) i.(start_position) i.(stream) i.(note_positions)) as Hnext.
  destruct (feed _ _ _ _) as [acc' acts]. simpl in *. destruct Hf as (Hact & (o' & Ho' & Hfit') & Hrows & _ & Hbuf).
  split_and!.
  - apply Forall_forall. intros a Ha. rewrite Forall_forall in Hact. split; [by apply Hact|]. intros rows -> r Hr.
    apply elem_of_seqZ. rewrite <-pos_rows_at. apply list_elem_of_fmap. eauto.
  - split; [done|]. exists o'. by rewrite <-Hnext.
  - intros p Hp. apply elem_of_seqZ in Hp. rewrite <-pos_rows_at in Hp. apply list_elem_of_fmap in Hp as (r & -> & Hr).
    destruct (Hrows r Hr) as (a & Ha & Hra). exists r. split; [|done]. apply list_elem_of_bind. eauto.
Qed.

Lemma plan_pool_steps acc (w : World W) :
  well_keyed w.(table) -> from_option (fun a => acc_fits a i.(start_position)) True acc ->
  only_fed i t0 w.(table) -> steps (only_fed i t0) w (plan_pool fault acc i w).1.
Proof.
  intros Hw Hacc H0. unfold plan_pool.
  assert (steps (only_fed i t0) w ((match acc with Some a => ret a | None => seed_acc fault i end) w).1) as Hs.
  { destruct acc; [by apply steps_refl|by apply seed_acc_steps]. }
  assert (forall w1 a, (match acc with Some a => ret a | None => seed_acc fault i end) w = (w1, Ok a) ->
    acc_fits a i.(start_position)) as Hfit.
  { intros w1 a Ha. destruct acc; [unfold ret in Ha; by simplify_eq|by eapply seed_acc_fits]. }
  unfold bind at 1. destruct ((match acc with Some a => ret a | None => seed_acc fault i end) w) as [w1 [a|e]]; [|done].
  specialize (Hfit w1 a eq_refl). pose proof (feed_here a Hfit) as Hf. eapply steps_trans; [exact Hs|].
  destruct (feed a _ _ _) as [acc' acts]. destruct Hf as [Hact _].
  refine (Steps_bind _ _ _ (apply_actions_steps acts empty_plan Hact) (fun _ => Steps_ret _ _) w1 _). apply Hs.
Qed.

(** What a plan owes its caller, against the table it leaves. *)
Record plan_sound (acts : list Action) (plan : Plan) (t : Table) : Prop := {
  ps_rows p : i.(start_position) <= p < i.(start_position) + Z.of_nat (length i.(stream)) ->
    buffered i.(pi_pool) t p \/ plan_holds plan p;
  ps_spans x : x ∈ plan.(cleanup_spans) -> span_held plan x;
  ps_grafts g : g ∈ plan.(grafts) -> graft_ok i acts g;
  ps_filled : filled plan;
}.

Lemma plan_pool_sound acc acc' plan (w w' : World W) :
  well_keyed w.(table) -> from_option (fun a => acc_fits a i.(start_position)) True acc ->
  plan_pool fault acc i w = (w', Ok (acc', plan)) ->
  acc_fits acc' (i.(start_position) + Z.of_nat (length i.(stream))) /\
  exists a, from_option (eq a) True acc /\
    plan_sound (feed a i.(start_position) i.(stream) i.(note_positions)).2 plan w'.(table).
Proof.
  intros Hw Hacc. unfold plan_pool, bind at 1.
  destruct ((match acc with Some a => ret a | None => seed_acc fault i end) w) as [w1 [a|e]] eqn:Ea; [|done].
  assert (acc_fits a i.(start_position)) as Hfit.
  { destruct acc; [unfold ret in Ea; by simplify_eq|by eapply seed_acc_fits]. }
  pose proof (feed_here a Hfit) as Hf. destruct (feed a _ _ _) as [acc2 acts] eqn:Efeed. destruct Hf as (Hact & Hfit' & Hcover).
  unfold bind. destruct (apply_actions fault i acts empty_plan w1) as [w2 [plan2|]] eqn:Eapp; [|done]. intros [= -> -> ->].
  split; [done|]. exists a. split; [destruct acc; [unfold ret in Ea; by simplify_eq|done]|]. rewrite Efeed. simpl.
  destruct (apply_actions_done _ _ _ _ _ Hact Eapp) as [_ _ Hrows Hspans Hgrafts]. split.
  - intros p Hp. destruct (Hcover p Hp) as (r & Hr & <-). by apply Hrows.
  - intros x Hx. destruct (Hspans x Hx) as [Hin|]; [by apply elem_of_nil in Hin|done].
  - intros g Hg. destruct (Hgrafts g Hg) as [Hin|]; [by apply elem_of_nil in Hin|done].
  - eapply apply_actions_filled; [|exact Eapp]. constructor.
Qed.
End Run.
End Covers.
End GraftPlan.
