(* ===== verification/Sinsemilla.v ===== *)
(** * The batched Orchard hash: [core/src/batch_sinsemilla.rs]

    [orchard_combine_batch_cpu] computes many Merkle hashes at once: all their Sinsemilla
    chains advance one half-step at a time, and the denominators of a half-step are inverted
    together with one field inversion.  A chain that meets a degenerate addition is given up
    and its hash computed by the library.

    The curve's base field and the library's own hash are arguments; a Rust panic is [None]. *)

From Stdlib Require Import Field.
From S2P Require Export Prelude.

Module Sinsemilla.

(** The operations of [pallas::Base] the file uses. *)
Class BaseField (F : Type) := mkField {
  f0 : F;
  f1 : F;
  fadd : F -> F -> F;
  fmul : F -> F -> F;
  fsub : F -> F -> F;
  fopp : F -> F;
  fdiv : F -> F -> F;
  finv : F -> F;
  f_eq_dec :: EqDecision F;
  to_repr : F -> list Z;
}.

Declare Scope base_field_scope.
Delimit Scope base_field_scope with F.
Infix "+" := fadd : base_field_scope.
Infix "*" := fmul : base_field_scope.
Infix "-" := fsub : base_field_scope.

Class FieldLaws {F} (BF : BaseField F) : Prop :=
  base_field : field_theory f0 f1 fadd fmul fsub fopp fdiv finv (@eq F).

(** [const CHUNKS]; [sinsemilla::K]. *)
Definition CHUNKS : nat := 52.
Definition K : Z := 10.
Definition BATCH : nat := 2048.

(** ** The message *)

(** The 520 bits; the arrays are 32 bytes, so an index is never out of range. *)
Definition byte_bit (b : list Z) (i : nat) : bool :=
  Z.land (Z.shiftr (nth (i / 8) b 0) (Z.of_nat (i mod 8))) 1 =? 1.
Definition message_bits (layer : Z) (left right : list Z) : list bool :=
  ((fun i => Z.land (Z.shiftr layer (Z.of_nat i)) 1 =? 1) <$> seq 0 10) ++
  (byte_bit left <$> seq 0 255) ++ (byte_bit right <$> seq 0 255).

(** One chunk: bit [k] of it is bit [c * 10 + k] of the message. *)
Definition chunk_value (bits : list bool) (c : nat) : Z :=
  foldl (fun v k => if nth (c * 10 + k) bits false then Z.lor v (Z.shiftl 1 (Z.of_nat k)) else v) 0 (seq 0 10).

(** [chunk_indices]. *)
Definition chunk_indices (layer : Z) (left right : list Z) : list Z :=
  chunk_value (message_bits layer left right) <$> seq 0 CHUNKS.

Section Batch.
Context {F : Type} `{!BaseField F}.
Local Open Scope base_field_scope.

(** [ff::Field::invert]. *)
Definition invert (x : F) : option F := if decide (x = f0) then None else Some (finv x).
Definition square (x : F) : F := x * x.

(** [struct Consts]. *)
Record Consts := mkConsts { q : F * F; s : list (F * F) }.

(** [consts]: the generators, off the curve library. *)
Definition affine_xy {Point} (coordinates : Point -> option (F * F)) (p : Point) : option (F * F) := coordinates p.
Definition le32 (m : Z) : list Z := (fun i => Z.land (Z.shiftr m (8 * i)) 255) <$> [0; 1; 2; 3]%Z.
Definition MERKLE_CRH_PERSONALIZATION : string := "z.cash:Orchard-MerkleCRH".
Definition consts {Point} (coordinates : Point -> option (F * F)) (hash_to_curve : string -> list Z -> Point)
    (Q_PERSONALIZATION S_PERSONALIZATION : string) (as_bytes : string -> list Z) : option Consts :=
  q0 ← affine_xy coordinates (hash_to_curve Q_PERSONALIZATION (as_bytes MERKLE_CRH_PERSONALIZATION));
  s0 ← mapM (fun m => affine_xy coordinates (hash_to_curve S_PERSONALIZATION (le32 m))) (seqZ 0 (2 ^ K));
  Some (mkConsts q0 s0).

(** ** [batch_invert] *)

(** The products of what comes before each element, and the product of all. *)
Fixpoint prefixes (acc : F) (xs : list F) : list F * F :=
  match xs with
  | [] => ([], acc)
  | x :: xs' => let '(prefix, total) := prefixes (acc * x) xs' in (acc :: prefix, total)
  end.

(** The walk back, last element first. *)
Definition invert_back (inv_all : F) (l : list (F * F)) : F * list F :=
  foldr (fun (p : F * F) (st : F * list F) => (st.1 * p.2, (st.1 * p.1) :: st.2)) (inv_all, []) l.

Definition batch_invert (xs : list F) : option (list F) :=
  match xs with
  | [] => Some []
  | _ =>
    let '(prefix, acc) := prefixes f1 xs in
    inv_all ← invert acc;
    Some (invert_back inv_all (zip prefix xs)).2
  end.

(** ** [walk_batch] *)

(** One index of the arrays. *)
Record Lane := mkLane { x : F; y : F; dead : bool; denom : F; other_x : F; other_y : F }.
#[export] Instance eta_Lane : Eta Lane := fun l => mkLane l.(x) l.(y) l.(dead) l.(denom) l.(other_x) l.(other_y).

Definition start_lane (c : Consts) : Lane := mkLane c.(q).1 c.(q).2 false f1 f0 f0.

(** The first loop of a half-step. *)
Definition gather (c : Consts) (chunk_i : nat) (first_half : bool) (msg : list Z) (l : Lane) : option Lane :=
  if l.(dead) then Some (l <| denom := f1 |>)
  else
    l ← (if first_half then
           m ← msg !! chunk_i;
           p ← c.(s) !! Z.to_nat m;
           Some (l <| other_x := p.1 |> <| other_y := p.2 |>)
         else Some l);
    let d := l.(other_x) - l.(x) in
    Some (if decide (d = f0) then l <| dead := true |> <| denom := f1 |> else l <| denom := d |>).

(** The second loop. *)
Definition advance (first_half : bool) (l : Lane) : Lane :=
  if l.(dead) then l
  else
    let lambda := (l.(other_y) - l.(y)) * l.(denom) in
    let x3 := square lambda - l.(x) - l.(other_x) in
    let y3 := lambda * (l.(x) - x3) - l.(y) in
    let l' := if first_half then l <| other_x := l.(x) |> <| other_y := l.(y) |> else l in
    l' <| x := x3 |> <| y := y3 |>.

Definition half_step (c : Consts) (msgs : list (list Z)) (step : nat) (lanes : list Lane) : option (list Lane) :=
  let chunk_i := (step / 2)%nat in
  let first_half := (step mod 2 =? 0)%nat in
  gathered ← mapM (fun p : list Z * Lane => gather c chunk_i first_half p.1 p.2) (zip msgs lanes);
  inverted ← batch_invert (denom <$> gathered);
  Some (zip_with (fun d l => advance first_half (l <| denom := d |>)) inverted gathered).

Definition half_steps (c : Consts) (msgs : list (list Z)) (steps : list nat) (lanes : list Lane) : option (list Lane) :=
  foldl (fun st step => ls ← st; half_step c msgs step ls) (Some lanes) steps.

Definition walk_batch (c : Consts) (msgs : list (list Z)) : option (list (option (list Z))) :=
  lanes ← half_steps c msgs (seq 0 (CHUNKS * 2)%nat) ((fun _ : list Z => start_lane c) <$> msgs);
  Some ((fun l : Lane => if l.(dead) then None else Some (to_repr l.(x))) <$> (lanes : list Lane)).

(** ** [orchard_combine_batch_cpu] *)

Section Combine.
Context {Node : Type} (combine : Z -> Node -> Node -> Node) (to_bytes : Node -> list Z) (from_bytes : list Z -> option Node).

(** [scalar_combine]. *)
Definition scalar_combine (layer : Z) (left right : list Z) : list Z :=
  match from_bytes left, from_bytes right with
  | Some l, Some r => to_bytes (combine layer l r)
  | _, _ => replicate 32 0%Z
  end.

(** [slice::chunks]. *)
Fixpoint chunks_loop {A} (fuel n : nat) (l : list A) : list (list A) :=
  match fuel, l with
  | _, [] => []
  | O, _ => []
  | S fuel', _ => take n l :: chunks_loop fuel' n (drop n l)
  end.
Definition chunks {A} (n : nat) (l : list A) : list (list A) := chunks_loop (length l) n l.

Definition combine_chunk (c : Consts) (layers : list Z) (lefts rights : list (list Z)) (chunk : list nat) : option (list (list Z)) :=
  let inputs i := (nth i layers 0%Z, nth i lefts [], nth i rights []) in
  let msgs := (fun i => let '(layer, l, r) := inputs i in chunk_indices layer l r) <$> chunk in
  walked ← walk_batch c msgs;
  Some (zip_with (fun i w =>
    match w with
    | Some bytes => bytes
    | None => let '(layer, l, r) := inputs i in scalar_combine layer l r
    end) chunk walked).

Definition orchard_combine_batch_cpu (c : Consts) (layers : list Z) (lefts rights : list (list Z)) : option (list (list Z)) :=
  if decide (length layers = length lefts /\ length layers = length rights) then
    match layers with
    | [] => Some []
    | _ => parts ← mapM (combine_chunk c layers lefts rights) (chunks BATCH (seq 0 (length layers))); Some (concat parts)
    end
  else None.
End Combine.
End Batch.
Arguments Consts : clear implicits.
Arguments Lane : clear implicits.

(** ** The reference: Sinsemilla one message at a time *)

Section Reference.
Context {F : Type} `{!BaseField F} (c : Consts F).
Local Open Scope base_field_scope.

(** Incomplete addition on affine points: undefined when the abscissas are equal. *)
Definition iadd (p1 p2 : F * F) : option (F * F) :=
  if decide (p2.1 = p1.1) then None
  else
    let lambda := fdiv (p2.2 - p1.2) (p2.1 - p1.1) in
    let x3 := lambda * lambda - p1.1 - p2.1 in
    Some (x3, lambda * (p1.1 - x3) - p1.2).

(** One chunk [m]: [(acc + S(m)) + acc]. *)
Definition absorb (r : option (F * F)) (m : Z) : option (F * F) :=
  acc ← r; p ← c.(s) !! Z.to_nat m; t ← iadd acc p; iadd t acc.
Definition chain (msg : list Z) : option (F * F) := foldl absorb (Some c.(q)) msg.
End Reference.

(** The message as a number: ten level bits, then 255 bits of each child, little-endian. *)
Fixpoint le_int (b : list Z) : Z := match b with [] => 0 | x :: b' => x + 256 * le_int b' end.
Definition message (layer : Z) (left right : list Z) : Z :=
  layer + 2 ^ 10 * (le_int left mod 2 ^ 255) + 2 ^ 265 * (le_int right mod 2 ^ 255).
Definition message_chunks (layer : Z) (left right : list Z) : list Z :=
  (fun c => (message layer left right / 2 ^ (K * Z.of_nat c)) mod 2 ^ K) <$> seq 0 CHUNKS.

Definition is_byte (b : Z) : Prop := 0 <= b < 256.

(** ** The message chunks *)

Lemma bit_of_land v i : 0 <= i -> (Z.land (Z.shiftr v i) 1 =? 1) = Z.testbit v i.
Proof.
  intros Hi. change 1 with (Z.ones 1) at 1. rewrite Z.land_ones, Z.shiftr_div_pow2 by lia.
  rewrite Z.testbit_eqb by done. done.
Qed.

Lemma testbit_concat n lo hi i : 0 <= n -> 0 <= lo < 2 ^ n -> 0 <= i ->
  Z.testbit (lo + 2 ^ n * hi) i = if i <? n then Z.testbit lo i else Z.testbit hi (i - n).
Proof.
  intros Hn Hlo Hi. destruct (Z.ltb_spec i n) as [Hlt|Hge].
  - rewrite <-(Z.mod_pow2_bits_low _ n i) by lia. f_equal. rewrite Z.mul_comm, Z.mod_add by lia. by apply Z.mod_small.
  - replace i with ((i - n) + n) at 1 by lia. rewrite <-Z.div_pow2_bits by lia. f_equal.
    rewrite Z.add_comm, Z.mul_comm, Z.div_add_l by lia. rewrite Z.div_small; lia.
Qed.

Lemma testbit_le_int b i : Forall is_byte b -> Z.testbit (le_int b) (Z.of_nat i) = byte_bit b i.
Proof.
  intros Hb. unfold byte_bit. rewrite bit_of_land by lia. revert i.
  induction Hb as [|x b Hx _ IH]; intros i; simpl le_int.
  { rewrite Z.bits_0. by destruct (i / 8)%nat; simpl; rewrite Z.bits_0. }
  change 256 with (2 ^ 8). rewrite testbit_concat by (unfold is_byte in Hx; lia).
  destruct (Z.ltb_spec (Z.of_nat i) 8) as [Hlt|Hge].
  - by rewrite Nat.div_small, Nat.mod_small by lia.
  - replace (Z.of_nat i - 8) with (Z.of_nat (i - 8)) by lia. rewrite IH.
    replace i with ((i - 8) + 1 * 8)%nat at 3 4 by lia. rewrite Nat.div_add, Nat.Div0.mod_add by lia.
    by rewrite Nat.add_1_r.
Qed.

Lemma nth_fmap_seq {A} (f : nat -> A) n i d : (i < n)%nat -> nth i (f <$> seq 0 n) d = f i.
Proof.
  intros Hi. apply nth_lookup_Some. rewrite list_lookup_fmap, lookup_seq_lt by done. done.
Qed.

Lemma message_bit layer left right i : 0 <= layer < 2 ^ 10 -> Forall is_byte left -> Forall is_byte right ->
  (i < 520)%nat -> nth i (message_bits layer left right) false = Z.testbit (message layer left right) (Z.of_nat i).
Proof.
  intros Hl Hle Hri Hi. unfold message_bits, message.
  pose proof (Z.mod_pos_bound (le_int left) (2 ^ 255)) as Hml.
  replace (layer + 2 ^ 10 * (le_int left mod 2 ^ 255) + 2 ^ 265 * (le_int right mod 2 ^ 255))
    with (layer + 2 ^ 10 * (le_int left mod 2 ^ 255 + 2 ^ 255 * (le_int right mod 2 ^ 255))) by lia.
  rewrite testbit_concat by lia. destruct (Z.ltb_spec (Z.of_nat i) 10) as [H1|H1].
  { rewrite app_nth1 by (rewrite length_fmap, length_seq; lia). rewrite nth_fmap_seq by lia. apply bit_of_land. lia. }
  rewrite app_nth2 by (rewrite length_fmap, length_seq; lia). rewrite length_fmap, length_seq.
  rewrite testbit_concat by lia. replace (Z.of_nat i - 10) with (Z.of_nat (i - 10)) by lia.
  destruct (Z.ltb_spec (Z.of_nat (i - 10)) 255) as [H2|H2].
  - rewrite app_nth1 by (rewrite length_fmap, length_seq; lia). rewrite nth_fmap_seq by lia.
    rewrite Z.mod_pow2_bits_low by lia. by rewrite testbit_le_int.
  - rewrite app_nth2 by (rewrite length_fmap, length_seq; lia). rewrite length_fmap, length_seq.
    rewrite nth_fmap_seq by lia. replace (Z.of_nat (i - 10) - 255) with (Z.of_nat (i - 10 - 255)) by lia.
    rewrite Z.mod_pow2_bits_low by lia. by rewrite testbit_le_int.
Qed.

(** A loop that sets bit [k] of its value when [f k]. *)
Lemma testbit_set_bits (f : nat -> bool) ks v n : 0 <= n ->
  Z.testbit (foldl (fun v k => if f k then Z.lor v (Z.shiftl 1 (Z.of_nat k)) else v) v ks) n =
  Z.testbit v n || existsb (fun k => f k && (Z.of_nat k =? n)) ks.
Proof.
  intros Hn. revert v. induction ks as [|k ks IH]; intros v; simpl; [by rewrite orb_false_r|].
  rewrite IH. destruct (f k); simpl; [|done]. rewrite Z.lor_spec, Z.shiftl_spec, <-orb_assoc by done. do 2 f_equal.
  destruct (Z.eqb_spec (Z.of_nat k) n) as [<-|Hne]; [by rewrite Z.sub_diag|].
  destruct (Z.lt_ge_cases (n - Z.of_nat k) 0) as [Hlt|Hge]; [by apply Z.testbit_neg_r|].
  change 1 with (2 ^ 0). apply Z.pow2_bits_false. lia.
Qed.

Lemma chunk_indices_spec layer left right : 0 <= layer < 2 ^ 10 -> Forall is_byte left -> Forall is_byte right ->
  chunk_indices layer left right = message_chunks layer left right.
Proof.
  intros Hl Hle Hri. apply list_fmap_ext. intros j c Hc. apply lookup_seq in Hc as [Hj Hc]. simpl in Hj. subst c. unfold CHUNKS in Hc.
  set (bits := message_bits layer left right).
  apply Z.bits_inj'. intros n Hn. unfold chunk_value. rewrite testbit_set_bits, Z.bits_0 by done. unfold K.
  destruct (Z.lt_ge_cases n 10) as [Hlt|Hge].
  - rewrite Z.mod_pow2_bits_low, Z.div_pow2_bits by lia.
    replace (n + 10 * Z.of_nat j) with (Z.of_nat (j * 10 + Z.to_nat n)) by lia.
    rewrite <-message_bit by (done || lia). fold bits. rewrite orb_false_l.
    apply eq_true_iff_eq. rewrite existsb_exists. split.
    + intros (k & _ & [Hb Hk]%andb_true_iff). breflect. by replace (Z.to_nat n) with k by lia.
    + intros Hb. exists (Z.to_nat n). rewrite in_seq, Hb. split; [lia|]. apply andb_true_iff. split; [done|]. by rewrite Z2Nat.id, Z.eqb_refl by done.
  - rewrite Z.mod_pow2_bits_high by lia. rewrite orb_false_l. apply not_true_iff_false. rewrite existsb_exists.
    intros (k & Hk & [_ Hkn]%andb_true_iff). rewrite in_seq in Hk. breflect. lia.
Qed.

(** ** One lane at a time *)

Section Lanes.
Context {F : Type} {BF : BaseField F} {FL : FieldLaws BF} (c : Consts F).
Local Open Scope base_field_scope.
Add Field pallas_base : base_field.

Lemma f1_f0 : f1 <> f0.
Proof. apply (F_1_neq_0 base_field). Qed.
Lemma fmul_f0 (a b : F) : a <> f0 -> b <> f0 -> a * b <> f0.
Proof. intros Ha Hb Hab. apply Hb. transitivity (finv a * (a * b)); [by field|]. rewrite Hab. by field. Qed.
Lemma fsub_f0 (a b : F) : a - b = f0 <-> a = b.
Proof. split; [|intros ->; ring]. intros Hab. transitivity ((a - b) + b); [ring|]. rewrite Hab. ring. Qed.

Lemma invert_back_spec xs acc : acc <> f0 -> Forall (fun x => x <> f0) xs ->
  (prefixes acc xs).2 <> f0 /\
  invert_back (finv (prefixes acc xs).2) (zip (prefixes acc xs).1 xs) = (finv acc, finv <$> xs).
Proof.
  intros Hacc Hxs. revert acc Hacc. induction Hxs as [|x xs Hx _ IH]; intros acc Hacc; [done|]. simpl.
  destruct (IH (acc * x)) as [Htot Hback]; [by apply fmul_f0|]. destruct (prefixes (acc * x) xs) as [ps total]. simpl in *.
  split; [done|]. unfold invert_back in *. simpl. rewrite Hback. simpl.
  f_equal; [by field|]. f_equal. by field.
Qed.

Lemma batch_invert_spec (xs : list F) : Forall (fun x => x <> f0) xs -> batch_invert xs = Some (finv <$> xs).
Proof.
  intros Hxs. destruct xs as [|x xs]; [done|]. unfold batch_invert.
  destruct (invert_back_spec (x :: xs) f1 f1_f0 Hxs) as [Htot Hback].
  destruct (prefixes f1 (x :: xs)) as [ps total]. simpl in Htot, Hback. unfold invert. rewrite decide_False by done.
  cbn -[zip fmap list_fmap]. by rewrite Hback.
Qed.

(** A half-step of one lane alone. *)
Definition lane_step (step : nat) (msg : list Z) (l : Lane F) : option (Lane F) :=
  g ← gather c (step / 2) (step mod 2 =? 0)%nat msg l;
  Some (advance (step mod 2 =? 0)%nat (g <| denom := finv g.(denom) |>)).
Definition lane_steps (steps : list nat) (msg : list Z) (l : Lane F) : option (Lane F) :=
  foldl (fun st step => l ← st; lane_step step msg l) (Some l) steps.

Lemma gather_denom chunk_i first_half msg l g : gather c chunk_i first_half msg l = Some g -> g.(denom) <> f0.
Proof.
  unfold gather. destruct (dead l); [intros [= <-]; apply f1_f0|].
  destruct (if first_half then _ else _) as [l'|]; simpl; [|done].
  destruct (decide _) as [|Hd]; intros [= <-]; [apply f1_f0|done].
Qed.

Lemma half_step_lanes msgs step lanes :
  half_step c msgs step lanes = mapM (fun p => lane_step step p.1 p.2) (zip msgs lanes).
Proof.
  unfold half_step, lane_step. generalize (step / 2)%nat (step mod 2 =? 0)%nat. intros ci fh.
  set (g := fun p : list Z * Lane F => gather c ci fh p.1 p.2). set (a := fun l => advance fh (l <| denom := finv l.(denom) |>)).
  change (mapM _ (zip msgs lanes)) with (mapM (fun p => l ← g p; Some (a l)) (zip msgs lanes)) at 2.
  transitivity (ls ← mapM g (zip msgs lanes); Some (a <$> ls)).
  - destruct (mapM g (zip msgs lanes)) as [ls|] eqn:Eg; [|done]. simpl. apply mapM_Some in Eg.
    rewrite batch_invert_spec.
    + simpl. f_equal. clear. induction ls as [|l ls IH]; [done|]. csimpl. f_equal. exact IH.
    + apply Forall_fmap. induction Eg as [|p l ps ls Hp _ IH]; constructor; [|done]. by eapply gather_denom.
  - induction (zip msgs lanes) as [|p ps IH]; [done|]. simpl. destruct (g p) as [l|]; [|done]. simpl. rewrite <-IH.
    by destruct (mapM g ps).
Qed.

Lemma half_steps_lanes msgs steps lanes : length msgs = length lanes ->
  half_steps c msgs steps lanes = mapM (fun p => lane_steps steps p.1 p.2) (zip msgs lanes).
Proof.
  intros Hlen. induction steps as [|st steps IH] using rev_ind.
  { unfold half_steps, lane_steps. simpl. revert lanes Hlen.
    induction msgs as [|m msgs IH]; intros [|l lanes] Hlen; try done. simpl. injection Hlen as Hlen.
    by rewrite <-IH. }
  assert (half_steps c msgs (steps ++ [st]) lanes = (ls ← half_steps c msgs steps lanes; half_step c msgs st ls)) as ->.
  { unfold half_steps. by rewrite foldl_app. }
  assert (forall msg l, lane_steps (steps ++ [st]) msg l = (l' ← lane_steps steps msg l; lane_step st msg l')) as Hl.
  { intros msg l. unfold lane_steps. by rewrite foldl_app. }
  rewrite IH. clear IH. transitivity (ls ← mapM (fun p => lane_steps steps p.1 p.2) (zip msgs lanes);
    mapM (fun p => lane_step st p.1 p.2) (zip msgs ls)).
  { destruct (mapM _ (zip msgs lanes)) as [ls|]; [|done]. simpl. apply half_step_lanes. }
  revert lanes Hlen. induction msgs as [|m msgs IH]; intros [|l lanes] Hlen; try done. injection Hlen as Hlen.
  simpl. rewrite Hl. specialize (IH lanes Hlen). destruct (lane_steps steps m l) as [l'|]; [|done]. simpl.
  destruct (mapM (fun p => lane_steps steps p.1 p.2) (zip msgs lanes)) as [ls|]; simpl in *.
  - by rewrite IH.
  - rewrite <-IH. by destruct (lane_step st m l').
Qed.

(** A lane that stands where the reference does. *)
Definition tracks (r : option (F * F)) (l : Lane F) : Prop :=
  match r with Some a => l.(dead) = false /\ (l.(x), l.(y)) = a | None => l.(dead) = true end.

Lemma dead_step step msg l : l.(dead) = true -> exists l', lane_step step msg l = Some l' /\ l'.(dead) = true.
Proof. intros Hd. unfold lane_step, gather, advance. rewrite Hd. simpl. rewrite Hd. eauto. Qed.

(** A live lane with its operand in place makes one incomplete addition. *)
Definition add_operand (fh : bool) (l : Lane F) : Lane F :=
  let g := if decide (l.(other_x) - l.(x) = f0) then l <| dead := true |> <| denom := f1 |>
           else l <| denom := l.(other_x) - l.(x) |> in
  advance fh (g <| denom := finv g.(denom) |>).

Lemma add_operand_spec fh l : l.(dead) = false ->
  tracks (iadd (l.(x), l.(y)) (l.(other_x), l.(other_y))) (add_operand fh l) /\
  (fh = true -> (add_operand fh l).(dead) = false ->
   ((add_operand fh l).(other_x), (add_operand fh l).(other_y)) = (l.(x), l.(y))).
Proof.
  intros Hd. unfold add_operand, iadd, advance. simpl. destruct (decide (l.(other_x) - l.(x) = f0)) as [E|E]; rewrite fsub_f0 in E.
  { rewrite decide_True by done. done. }
  rewrite decide_False by done. simpl. rewrite Hd. destruct fh; simpl; (split; [|done]); (split; [done|]);
    unfold square; rewrite !(Fdiv_def base_field); done.
Qed.

Lemma lane_first_half k msg m p l : l.(dead) = false -> msg !! k = Some m -> c.(s) !! Z.to_nat m = Some p ->
  lane_step (2 * k) msg l = Some (add_operand true (l <| other_x := p.1 |> <| other_y := p.2 |>)).
Proof.
  intros Hd Hm Hp. unfold lane_step, gather, add_operand.
  replace ((2 * k) / 2)%nat with k by (rewrite Nat.mul_comm, Nat.div_mul; lia).
  replace ((2 * k) mod 2)%nat with 0%nat by (rewrite Nat.mul_comm, Nat.Div0.mod_mul; lia).
  rewrite Hd. simpl. rewrite Hm. simpl. rewrite Hp. done.
Qed.

Lemma lane_second_half k msg l : l.(dead) = false -> lane_step (2 * k + 1) msg l = Some (add_operand false l).
Proof.
  intros Hd. unfold lane_step, gather, add_operand.
  replace ((2 * k + 1) / 2)%nat with k by (rewrite Nat.mul_comm, Nat.div_add_l by lia; simpl; lia).
  replace ((2 * k + 1) mod 2)%nat with 1%nat by (rewrite Nat.add_comm, Nat.mul_comm, Nat.Div0.mod_add; done).
  rewrite Hd. done.
Qed.

Lemma two_steps k msg m p r l : tracks r l -> msg !! k = Some m -> c.(s) !! Z.to_nat m = Some p ->
  exists l1 l2, lane_step (2 * k) msg l = Some l1 /\ lane_step (2 * k + 1) msg l1 = Some l2 /\ tracks (absorb c r m) l2.
Proof.
  intros Ht Hm Hp. unfold absorb. rewrite Hp. destruct r as [acc|].
  2:{ destruct (dead_step (2 * k) msg l Ht) as (l1 & E1 & D1). destruct (dead_step (2 * k + 1) msg l1 D1) as (l2 & E2 & D2).
      exists l1, l2. split_and!; [exact E1|exact E2|done]. }
  destruct Ht as [Hd <-]. pose proof (lane_first_half k msg m p l Hd Hm Hp) as E1.
  pose (l0 := l <| other_x := p.1 |> <| other_y := p.2 |>). destruct (add_operand_spec true l0 Hd) as [T1 O1]. fold l0 in E1.
  set (l1 := add_operand true l0) in *. clearbody l1. exists l1. simpl in O1.
  change (tracks (iadd (l.(x), l.(y)) (p.1, p.2)) l1) in T1. rewrite <-surjective_pairing in T1. cbn [mbind option_bind].
  destruct (iadd (l.(x), l.(y)) p) as [t|]; cbn [mbind option_bind].
  2:{ destruct (dead_step (2 * k + 1) msg l1 T1) as (l2 & E2 & D2). exists l2. done. }
  destruct T1 as [D1 <-]. destruct (add_operand_spec false l1 D1) as [T2 _]. rewrite (O1 eq_refl D1) in T2.
  exists (add_operand false l1). split; [exact E1|]. split; [by apply lane_second_half|exact T2].
Qed.

Lemma lane_chain msg k : Forall (fun m => is_Some (c.(s) !! Z.to_nat m)) msg -> (k <= length msg)%nat ->
  exists l, lane_steps (seq 0 (2 * k)) msg (start_lane c) = Some l /\ tracks (chain c (take k msg)) l.
Proof.
  intros Hmsg. induction k as [|k IH]; intros Hk.
  { exists (start_lane c). split; [done|]. simpl. split; [done|]. symmetry. apply surjective_pairing. }
  destruct IH as (l & El & Tl); [lia|]. destruct (lookup_lt_is_Some_2 msg k) as [m Hm]; [lia|].
  destruct (proj1 (Forall_lookup _ _) Hmsg k m Hm) as [p Hp].
  destruct (two_steps k msg m p _ l Tl Hm Hp) as (l1 & l2 & E1 & E2 & T2). exists l2. split.
  - replace (2 * S k)%nat with (2 * k + 2)%nat by lia. rewrite seq_app. unfold lane_steps in *. rewrite foldl_app, El.
    cbn [seq foldl mbind option_bind]. rewrite Nat.add_0_l, E1. cbn [mbind option_bind].
    replace (S (2 * k))%nat with (2 * k + 1)%nat by lia. exact E2.
  - rewrite (take_S_r _ _ m) by done. unfold chain. by rewrite foldl_app.
Qed.

(** All the lanes of a batch at once compute what each message's own chain does. *)
Lemma walk_batch_spec msgs :
  Forall (fun msg => length msg = CHUNKS /\ Forall (fun m => is_Some (c.(s) !! Z.to_nat m)) msg) msgs ->
  walk_batch c msgs = Some ((fun msg => (fun a => to_repr a.1) <$> chain c msg) <$> msgs).
Proof.
  intros Hmsgs. unfold walk_batch. rewrite half_steps_lanes by (by rewrite length_fmap).
  assert (exists ls, mapM (fun p => lane_steps (seq 0 (CHUNKS * 2)) p.1 p.2) (zip msgs ((fun _ : list Z => start_lane c) <$> msgs)) = Some ls /\
    ((fun l : Lane F => if l.(dead) then None else Some (to_repr l.(x))) <$> ls) =
    ((fun msg => (fun a => to_repr a.1) <$> chain c msg) <$> msgs)) as (ls & -> & Hls).
  { induction Hmsgs as [|msg msgs [Hlen Hm] _ (ls & E & Hls)]; [by exists []|].
    destruct (lane_chain msg CHUNKS Hm) as (l & El & Tl); [lia|]. rewrite Nat.mul_comm in El.
    exists (l :: ls). cbn [fmap list_fmap zip_with mapM]. cbn [fst snd]. rewrite El. cbn [mbind option_bind]. 
    rewrite E. split; [done|]. csimpl. f_equal; [|exact Hls].
    rewrite take_ge in Tl by lia. destruct (chain c msg) as [a|]; [|by rewrite Tl]. destruct Tl as [-> <-]. done. }
  simpl. f_equal. exact Hls.
Qed.
End Lanes.

(** ** The library's hash *)

Section Combine.
Context {F : Type} {BF : BaseField F} (c : Consts F).
Context {Node : Type} (combine : Z -> Node -> Node -> Node) (to_bytes : Node -> list Z) (from_bytes : list Z -> option Node).

#[local] Arguments chunk_indices : simpl never.
#[local] Arguments message_chunks : simpl never.

(** What the file relies on of [MerkleHashOrchard]: nodes have byte encodings that read back, and
    [combine] is the Sinsemilla hash of level and children wherever the chain is defined. *)
Class CombineLaws : Prop := {
  node_bytes n : Forall is_byte (to_bytes n);
  node_roundtrip n : from_bytes (to_bytes n) = Some n;
  combine_hash layer l r a : 0 <= layer < 256 ->
    chain c (message_chunks layer (to_bytes l) (to_bytes r)) = Some a -> to_bytes (combine layer l r) = to_repr a.1;
}.

Context {FL : FieldLaws BF} {CL : CombineLaws}.

Lemma chunks_concat {A} n (l : list A) : (0 < n)%nat -> concat (chunks n l) = l.
Proof.
  intros Hn. unfold chunks. assert (forall fuel (l : list A), (length l <= fuel)%nat -> concat (chunks_loop fuel n l) = l) as Hf; [|by apply Hf].
  intros fuel. induction fuel as [|fuel IH]; intros [|a l'] Hl; try done; [simpl in Hl; lia|].
  cbn [chunks_loop concat]. rewrite IH; [apply take_drop|]. rewrite length_drop. simpl in *. lia.
Qed.

Lemma chunk_in_range layer left right m : m ∈ message_chunks layer left right -> 0 <= m < 2 ^ K.
Proof. intros (j & -> & _)%list_elem_of_fmap. apply Z.mod_pos_bound. done. Qed.

Context (inputs : list (Z * Node * Node)) (Hs : Z.of_nat (length c.(s)) = 2 ^ K) (Hlayer : Forall (fun i => 0 <= i.1.1 < 256) inputs).
Abbreviation layers := ((fun i : Z * Node * Node => i.1.1) <$> inputs).
Abbreviation lefts := ((fun i : Z * Node * Node => to_bytes i.1.2) <$> inputs).
Abbreviation rights := ((fun i : Z * Node * Node => to_bytes i.2) <$> inputs).

Lemma combine_chunk_spec idx : Forall (fun i => i < length inputs)%nat idx ->
  combine_chunk combine to_bytes from_bytes c layers lefts rights idx =
  Some ((fun i => from_option (fun i => to_bytes (combine i.1.1 i.1.2 i.2)) [] (inputs !! i)) <$> idx).
Proof.
  intros Hidx. unfold combine_chunk.
  assert (forall i, (i < length inputs)%nat -> exists layer l r, inputs !! i = Some (layer, l, r) /\ 0 <= layer < 256 /\
    nth i layers 0 = layer /\ nth i lefts [] = to_bytes l /\ nth i rights [] = to_bytes r) as Hin.
  { intros i Hi. destruct (lookup_lt_is_Some_2 inputs i Hi) as [[[layer l] r] E]. exists layer, l, r.
    split; [done|]. split; [exact (proj1 (Forall_lookup _ _) Hlayer i _ E)|].
    split_and!; apply nth_lookup_Some; by rewrite list_lookup_fmap, E. }
  rewrite walk_batch_spec.
  - cbn [mbind option_bind]. f_equal. rewrite <-list_fmap_compose, zip_with_fmap_r. clear -Hidx Hin CL.
    induction Hidx as [|i idx Hi _ IH]; [done|]. cbn [fmap list_fmap zip_with]. f_equal; [|exact IH].
    destruct (Hin i Hi) as (layer & l & r & E & Hl & E1 & E2 & E3). rewrite E. unfold compose. cbv beta iota zeta.
    rewrite E1, E2, E3. cbn [from_option fst snd].
    rewrite (chunk_indices_spec layer (to_bytes l) (to_bytes r)); [|change (2 ^ 10) with 1024; lia|apply node_bytes..].
    destruct (chain c (message_chunks layer (to_bytes l) (to_bytes r))) as [a|] eqn:Ec.
    + symmetry. by apply (combine_hash layer l r a).
    + cbn [fmap option_fmap option_map]. unfold scalar_combine. by rewrite !node_roundtrip.
  - apply Forall_fmap. eapply Forall_impl; [exact Hidx|]. intros i Hi.
    destruct (Hin i Hi) as (layer & l & r & E & Hl & E1 & E2 & E3). unfold compose. cbv beta iota zeta. rewrite E1, E2, E3.
    rewrite (chunk_indices_spec layer (to_bytes l) (to_bytes r)); [|change (2 ^ 10) with 1024; lia|apply node_bytes..]. split; [by unfold message_chunks; rewrite length_fmap, length_seq|].
    apply Forall_forall. intros m Hm. apply chunk_in_range in Hm. apply lookup_lt_is_Some_2. lia.
Qed.

Lemma batch_combine_spec :
  orchard_combine_batch_cpu combine to_bytes from_bytes c layers lefts rights =
  Some ((fun i => to_bytes (combine i.1.1 i.1.2 i.2)) <$> inputs).
Proof.
  unfold orchard_combine_batch_cpu. rewrite decide_True by (by rewrite !length_fmap).
  destruct (decide (inputs = [])) as [e|Hne]; [by rewrite e|].
  assert (forall A (l : list Z) (a b : A), l <> [] -> match l with [] => a | _ => b end = b) as Hcase by (by intros A []).
  rewrite Hcase by (intros E; by apply fmap_nil_inv in E). clear Hcase.
  rewrite length_fmap. set (f := fun i => from_option (fun i => to_bytes (combine i.1.1 i.1.2 i.2)) [] (inputs !! i)).
  assert (forall parts, Forall (Forall (fun i => i < length inputs)%nat) parts ->
    mapM (combine_chunk combine to_bytes from_bytes c layers lefts rights) parts = Some ((fun part : list nat => f <$> part) <$> parts)) as Hm.
  { intros parts Hp. apply mapM_Some. apply Forall2_fmap_r, Forall_Forall2_diag.
    eapply Forall_impl; [exact Hp|]. intros part. apply combine_chunk_spec. }
  assert (forall i, i ∈ concat (chunks BATCH (seq 0 (length inputs))) -> (i < length inputs)%nat) as Hall.
  { rewrite chunks_concat by (unfold BATCH; lia). intros i Hi. apply elem_of_seq in Hi. lia. }
  rewrite Hm.
  - cbn [mbind option_bind]. f_equal.
    transitivity (f <$> concat (chunks BATCH (seq 0 (length inputs)))).
    { clear. induction (chunks BATCH _) as [|p ps IH]; [done|]. cbn [fmap list_fmap concat]. rewrite fmap_app. f_equal. exact IH. }
    rewrite chunks_concat by (unfold BATCH; lia). apply list_eq. intros j. rewrite !list_lookup_fmap.
    destruct (inputs !! j) as [i|] eqn:Ej.
    + rewrite lookup_seq_lt by (by eapply lookup_lt_Some). simpl. unfold f. rewrite Ej. done.
    + rewrite lookup_seq_ge; [done|]. by apply lookup_ge_None.
  - apply Forall_forall. intros part Hpart. apply Forall_forall. intros i Hi. apply Hall.
    apply list_elem_of_In, in_concat. exists part. by rewrite <-!list_elem_of_In.
Qed.
End Combine.

(** C15: Batched hashes are the library's: for any levels and pairs of nodes,
    [orchard_combine_batch_cpu] returns, without a panic and whatever the batch boundaries, exactly
    the bytes of [combine] of each pair in order.  Lanes that share inversions do not disturb each
    other, and a lane whose chain meets a degenerate addition gets the library's own answer. *)
Theorem batch_combine_is_combine {F} {BF : BaseField F} {FL : FieldLaws BF} (c : Consts F)
    {Node} (combine : Z -> Node -> Node -> Node) (to_bytes : Node -> list Z) (from_bytes : list Z -> option Node)
    {CL : CombineLaws c combine to_bytes from_bytes} (inputs : list (Z * Node * Node)) :
  Z.of_nat (length c.(s)) = 2 ^ K ->
  Forall (fun i => 0 <= i.1.1 < 256) inputs ->
  orchard_combine_batch_cpu combine to_bytes from_bytes c
    ((fun i => i.1.1) <$> inputs) ((fun i => to_bytes i.1.2) <$> inputs) ((fun i => to_bytes i.2) <$> inputs) =
  Some ((fun i => to_bytes (combine i.1.1 i.1.2 i.2)) <$> inputs).
Proof. intros Hs Hl. by apply batch_combine_spec. Qed.

(** *** An instance: the field of seven elements *)

Inductive F7 := e0 | e1 | e2 | e3 | e4 | e5 | e6.
Definition f7_z (a : F7) : Z := match a with e0 => 0 | e1 => 1 | e2 => 2 | e3 => 3 | e4 => 4 | e5 => 5 | e6 => 6 end.
Definition f7_of (v : Z) : F7 :=
  match v mod 7 with 0 => e0 | 1 => e1 | 2 => e2 | 3 => e3 | 4 => e4 | 5 => e5 | _ => e6 end.
#[export] Instance f7_eq_dec : EqDecision F7.
Proof. solve_decision. Defined.
Definition f7_inv (a : F7) : F7 := match a with e0 => e0 | e1 => e1 | e2 => e4 | e3 => e5 | e4 => e2 | e5 => e3 | e6 => e6 end.
#[export] Instance f7_field : BaseField F7 :=
  mkField F7 e0 e1 (fun a b => f7_of (f7_z a + f7_z b)) (fun a b => f7_of (f7_z a * f7_z b))
    (fun a b => f7_of (f7_z a - f7_z b)) (fun a => f7_of (- f7_z a))
    (fun a b => f7_of (f7_z a * f7_z (f7_inv b))) f7_inv _ (fun a => f7_z a :: replicate 31 0).
#[export] Instance f7_laws : FieldLaws f7_field.
Proof.
  split; [split| | |]; try (intros [] [] []; reflexivity); try (intros [] []; reflexivity); try (intros []; reflexivity).
  - discriminate.
  - intros [] Hp; try reflexivity. by destruct Hp.
Qed.

(** With these generators the last of the three hashes below is computed in the batch and the
    other two meet a degenerate addition. *)
Definition sample_consts : Consts F7 := mkConsts (e0, e0) ((e3, e0) :: replicate 1023 (e2, e3)).
Definition f7_read (b : list Z) : option F7 := match b with v :: _ => Some (f7_of v) | [] => None end.
(** A node is an element; where the chain is undefined the hash is some other element. *)
Definition sample_combine (layer : Z) (l r : F7) : F7 :=
  match chain sample_consts (message_chunks layer (to_repr l) (to_repr r)) with Some a => a.1 | None => e3 end.

#[export] Instance sample_combine_laws : CombineLaws sample_consts sample_combine to_repr f7_read.
Proof.
  split.
  - intros n. constructor; [destruct n; unfold is_byte; simpl; lia|]. apply Forall_replicate. unfold is_byte. lia.
  - by intros [].
  - intros layer l r a _ E. unfold sample_combine. by rewrite E.
Qed.

Lemma batch_combine_is_combine_witness :
  orchard_combine_batch_cpu sample_combine to_repr f7_read sample_consts [0; 3; 9]
    [to_repr e1; to_repr e5; to_repr e0] [to_repr e2; to_repr e5; to_repr e6] =
  Some ((fun i => to_repr (sample_combine i.1.1 i.1.2 i.2)) <$> [(0, e1, e2); (3, e5, e5); (9, e0, e6)]).
Proof.
  apply (batch_combine_is_combine sample_consts sample_combine to_repr f7_read [(0, e1, e2); (3, e5, e5); (9, e0, e6)]).
  - reflexivity.
  - repeat constructor; simpl; lia.
Defined.
End Sinsemilla.
