(* ===== verification/LookupBuild.v ===== *)
(** * Subtree builds with precomputed hashes: [core/src/lookup_build.rs], [core/src/gpu_subtree.rs]

    A fragment of commitments becomes a subtree through the tree library's own [from_iter],
    run at a hash type whose [combine] looks its answer up in a table.  The table is filled
    beforehand, a level at a time, by a batched hash; a pair that is not in it is hashed by
    the library.

    [from_iter] is generic in the hash type, and the model takes it that way: an argument
    that works at every [Hashable] type.  A Rust panic is [None]. *)

From S2P Require Export Sinsemilla Checkpoints.

Module LookupBuild.
Import Checkpoints Sinsemilla.

(** [incrementalmerkletree::Hashable]. *)
Class Hashable (H : Type) := mkHashable {
  empty_leaf : H;
  empty_root : Z -> H;
  combine : Z -> H -> H -> H;
}.

(** [shardtree::PrunableTree]: annotations on parents, retention flags on leaves. *)
Inductive PrunableTree (H : Type) :=
  | Parent (ann : option H) (left right : PrunableTree H)
  | Leaf (value : H * Z)
  | Nil.
Arguments Parent {H}.
Arguments Leaf {H}.
Arguments Nil {H}.

(** [LocatedPrunableTree]: the address is level and index. *)
Record Located (H : Type) := mkLocated { root_addr : Z * Z; root : PrunableTree H }.
Arguments mkLocated {H}.
Arguments root_addr {H}.
Arguments root {H}.

(** [const BUILD_CHUNK_SIZE]. *)
Definition BUILD_CHUNK_SIZE : nat := 1024.

Section Build.
Context {H : Type} `{!Hashable H} (to_bytes : H -> list Z) (from_bytes : list Z -> option H).

(** [combine_key]: level byte, left, right. *)
Definition combine_key (level : Z) (a b : H) : list Z := level :: to_bytes a ++ to_bytes b.

Abbreviation Precomp := (gmap (list Z) (list Z)).

(** [LookupHashOrchard] with the thread's table as it is during a build. *)
Record Lookup := mkLookup { looked : H }.
Definition lookup_combine (precomp : option Precomp) (level : Z) (a b : Lookup) : Lookup :=
  match (m ← precomp; m !! combine_key level a.(looked) b.(looked)) ≫= from_bytes with
  | Some node => mkLookup node
  | None => mkLookup (combine level a.(looked) b.(looked))
  end.
Definition lookup_hashable (precomp : option Precomp) : Hashable Lookup :=
  mkHashable Lookup (mkLookup empty_leaf) (fun level => mkLookup (empty_root level)) (lookup_combine precomp).

(** [BatchCombineFn]. *)
Context (batch : list Z -> list (list Z) -> list (list Z) -> option (list (list Z))).

Fixpoint pairs {A} (l : list A) : list (A * A) :=
  match l with a :: b :: l' => (a, b) :: pairs l' | _ => [] end.

(** One round of the loop of [precompute_shard_map]. *)
Definition precompute_level (lvl : Z) (level : list H) (map : Precomp) : option (list H * Precomp) :=
  let level := if (length level mod 2 =? 1)%nat then level ++ [empty_root lvl] else level in
  let ps := pairs level in
  parents ← batch (replicate (length ps) lvl) ((fun p => to_bytes p.1) <$> ps) ((fun p => to_bytes p.2) <$> ps);
  if decide (length ps <= length parents)%nat then
    Some ((fun x : H * H * list Z => default (combine lvl x.1.1 x.1.2) (from_bytes x.2)) <$> zip ps parents,
          foldl (fun m (x : H * H * list Z) => <[combine_key lvl x.1.1 x.1.2 := x.2]> m) map (zip ps parents))
  else None.

(** The loop, and [precompute_shard_map]; a level has at most half the nodes of the last. *)
Fixpoint precompute_loop (fuel : nat) (lvl : Z) (level : list H) (map : Precomp) : option Precomp :=
  match fuel with
  | O => Some map
  | S fuel' =>
    if (length level <=? 1)%nat then Some map
    else '(next, map') ← precompute_level lvl level map; precompute_loop fuel' (lvl + 1) next map'
  end.
Definition precompute_shard_map (leaves : list H) : option Precomp :=
  if (length leaves <=? 1)%nat then Some ∅ else precompute_loop (length leaves) 0 leaves ∅.

(** [convert_tree]. *)
Fixpoint convert_tree (t : PrunableTree Lookup) : PrunableTree H :=
  match t with
  | Parent ann l r => Parent (looked <$> ann) (convert_tree l) (convert_tree r)
  | Leaf v => Leaf (looked v.1, v.2)
  | Nil => Nil
  end.

(** [LocatedTree::from_iter] and the shape check of [LocatedTree::from_parts]. *)
Context (from_iter : forall A, Hashable A -> Z * Z -> Z -> list (A * Retention) -> option (Located A * gmap Z Z)).
Context (well_shaped : forall A, Z * Z -> PrunableTree A -> bool).
Context (SHARD_HEIGHT : Z).

Definition from_parts (addr : Z * Z) (t : PrunableTree H) : option (Located H) :=
  if well_shaped H addr t then Some (mkLocated addr t) else None.

(** [expect] on every slot of a chunk. *)
Fixpoint take_all (chunk : list (Slot H)) : option (list (H * Retention)) :=
  match chunk with
  | [] => Some []
  | None :: _ => None
  | Some i :: chunk' => items ← take_all chunk'; Some (i :: items)
  end.

(** One chunk of [build_subtrees_lookup]; [Some None]: the library made nothing of it. *)
Definition build_chunk (start : Z) (chunk : list (Slot H)) : option (option (Located H * gmap Z Z)) :=
  items ← take_all chunk;
  map ← precompute_shard_map (fst <$> items);
  match from_iter Lookup (lookup_hashable (Some map)) (start, start + Z.of_nat (length chunk)) SHARD_HEIGHT
          ((fun p : H * Retention => (mkLookup p.1, p.2)) <$> items) with
  | None => Some None
  | Some (subtree, checkpoints) =>
    converted ← from_parts subtree.(root_addr) (convert_tree subtree.(root));
    Some (Some (converted, checkpoints))
  end.

Definition build_subtrees_lookup (start_position : Z) (commitments : list (Slot H)) : option (list (Located H * gmap Z Z)) :=
  built ← mapM (fun p : nat * list (Slot H) => build_chunk (start_position + Z.of_nat (p.1 * BUILD_CHUNK_SIZE)) p.2)
            (imap pair (chunks BUILD_CHUNK_SIZE commitments));
  Some (omap id built).

(** [zcash_client_backend]'s [build_subtrees], which it replaces: the same chunks, hashed one
    pair at a time. *)
Definition build_subtrees (start_position : Z) (commitments : list (Slot H)) : option (list (Located H * gmap Z Z)) :=
  built ← mapM (fun p : nat * list (Slot H) =>
              items ← take_all p.2;
              let start := start_position + Z.of_nat (p.1 * BUILD_CHUNK_SIZE) in
              Some (from_iter H _ (start, start + Z.of_nat (length p.2)) SHARD_HEIGHT items))
            (imap pair (chunks BUILD_CHUNK_SIZE commitments));
  Some (omap id built).
End Build.

(** *** Routing *)

Section Route.
Context {H : Type} `{!Hashable H} (to_bytes : H -> list Z) (from_bytes : list Z -> option H).
Context (from_iter : forall A, Hashable A -> Z * Z -> Z -> list (A * Retention) -> option (Located A * gmap Z Z)).
Context (well_shaped : forall A, Z * Z -> PrunableTree A -> bool) (SHARD_HEIGHT : Z).
Context (orchard_combine_batch_cpu orchard_combine_batch_gpu :
  list Z -> list (list Z) -> list (list Z) -> option (list (list Z))).

(** [build_subtrees_gpu], of [gpu_subtree.rs]. *)
Definition build_subtrees_gpu := build_subtrees_lookup to_bytes from_bytes orchard_combine_batch_gpu from_iter well_shaped SHARD_HEIGHT.

(** [build_orchard_subtrees] of [persist.rs]; [feature_gpu]: compiled with the feature. *)
Definition build_orchard_subtrees (feature_gpu gpu batch : bool) (start : Z) (commitments : list (Slot H))
    : option (list (Located H * gmap Z Z)) :=
  if batch then build_subtrees_lookup to_bytes from_bytes orchard_combine_batch_cpu from_iter well_shaped SHARD_HEIGHT start commitments
  else if feature_gpu && gpu then build_subtrees_gpu start commitments
  else build_subtrees from_iter SHARD_HEIGHT start commitments.
End Route.

(** ** The table holds only true hashes *)

(** The contract of a batched hash, up to the level a chunk can reach. *)
Definition batch_contract {H} `{!Hashable H} (to_bytes : H -> list Z)
    (batch : list Z -> list (list Z) -> list (list Z) -> option (list (list Z))) : Prop :=
  forall inputs : list (Z * H * H), Forall (fun i => 0 <= i.1.1 < 256) inputs ->
    batch ((fun i => i.1.1) <$> inputs) ((fun i => to_bytes i.1.2) <$> inputs) ((fun i => to_bytes i.2) <$> inputs) =
    Some ((fun i => to_bytes (combine i.1.1 i.1.2 i.2)) <$> inputs).

(** [MerkleHashOrchard]'s encoding: 32 bytes that read back. *)
Class NodeBytes {H} (to_bytes : H -> list Z) (from_bytes : list Z -> option H) : Prop := {
  bytes_length h : length (to_bytes h) = 32%nat;
  bytes_read h : from_bytes (to_bytes h) = Some h;
}.

Section Table.
Context {H : Type} `{!Hashable H} (to_bytes : H -> list Z) (from_bytes : list Z -> option H) `{!NodeBytes to_bytes from_bytes}.

Definition sound (m : gmap (list Z) (list Z)) : Prop :=
  forall lvl a b bytes, m !! combine_key to_bytes lvl a b = Some bytes -> bytes = to_bytes (combine lvl a b).

Lemma to_bytes_inj a b : to_bytes a = to_bytes b -> a = b.
Proof using NodeBytes0. intros E. apply (f_equal from_bytes) in E. rewrite !bytes_read in E. by injection E. Qed.

Lemma combine_key_inj lvl a b lvl' a' b' :
  combine_key to_bytes lvl a b = combine_key to_bytes lvl' a' b' -> lvl = lvl' /\ a = a' /\ b = b'.
Proof using NodeBytes0.
  unfold combine_key. intros [= -> E]. apply app_inj_1 in E as [E1 E2]; [|by rewrite !bytes_length].
  by split_and!; [|apply to_bytes_inj..].
Qed.

Lemma sound_insert m lvl a b : sound m -> sound (<[combine_key to_bytes lvl a b := to_bytes (combine lvl a b)]> m).
Proof using NodeBytes0.
  intros Hm lvl' a' b' bytes. rewrite lookup_insert. case_decide as E; [|by apply Hm].
  apply combine_key_inj in E as (-> & -> & ->). by intros [= <-].
Qed.

Context (batch : list Z -> list (list Z) -> list (list Z) -> option (list (list Z))) (Hbatch : batch_contract to_bytes batch).

Lemma length_pairs {A} (l : list A) : length (pairs l) = (length l / 2)%nat.
Proof.
  assert (forall n (l : list A), (length l <= n)%nat -> length (pairs l) = (length l / 2)%nat) as Hn; [|by eapply Hn].
  intros n. induction n as [|n IH]; intros [|a [|b l']] Hl; try done; simpl in Hl; [lia..|].
  simpl length. rewrite IH by lia. replace (S (S (length l'))) with (length l' + 1 * 2)%nat by lia.
  rewrite Nat.div_add by lia. lia.
Qed.

Lemma precompute_level_spec lvl level m : 0 <= lvl < 256 -> sound m ->
  exists next m', precompute_level to_bytes from_bytes batch lvl level m = Some (next, m') /\ sound m' /\
    (2 * length next <= length level + 1)%nat.
Proof using NodeBytes0 Hbatch.
  intros Hlvl Hm. unfold precompute_level.
  set (level' := if (length level mod 2 =? 1)%nat then _ else level).
  assert (length level' <= length level + 1)%nat as Hlen.
  { unfold level'. destruct (_ =? _)%nat; rewrite ?length_app; simpl; lia. }
  pose proof (length_pairs level') as Hps. generalize dependent (pairs level'). intros ps Hps.
  assert (2 * length ps <= length level')%nat as Hps2 by (rewrite Hps; apply Nat.Div0.mul_div_le).
  pose proof (Hbatch ((fun p : H * H => (lvl, p.1, p.2)) <$> ps)) as Hb. rewrite <-!list_fmap_compose in Hb. unfold compose in Hb. cbn [fst snd] in Hb.
  assert (replicate (length ps) lvl = (fun _ : H * H => lvl) <$> ps) as ->.
  { clear. induction ps as [|p ps IH]; [done|]. csimpl. by rewrite IH. }
  rewrite Hb by (apply Forall_fmap, Forall_forall; intros; done). cbn [mbind option_bind].
  rewrite decide_True by (by rewrite length_fmap).
  eexists _, _. split; [done|]. split.
  - clear -Hm NodeBytes0. revert m Hm. induction ps as [|p ps IH]; intros m Hm; [done|]. csimpl. apply IH. by apply sound_insert.
  - rewrite length_fmap, length_zip_with, length_fmap. lia.
Qed.

Lemma precompute_loop_sound fuel k lvl level m : (length level <= 2 ^ k)%nat -> 0 <= lvl -> lvl + Z.of_nat k < 256 -> sound m ->
  exists m', precompute_loop to_bytes from_bytes batch fuel lvl level m = Some m' /\ sound m'.
Proof using NodeBytes0 Hbatch.
  revert k lvl level m. induction fuel as [|fuel IH]; intros k lvl level m Hlen H0 Hk Hm; [by exists m|]. cbn [precompute_loop].
  destruct (Nat.leb_spec (length level) 1); [by exists m|].
  destruct k as [|k]; [simpl in Hlen; lia|].
  destruct (precompute_level_spec lvl level m) as (next & m' & -> & Hm' & Hn); [lia|done|]. cbn [mbind option_bind].
  apply (IH k); [|lia..|done]. rewrite Nat.pow_succ_r' in Hlen. lia.
Qed.

(** The fuel is enough: more of it changes nothing. *)
Lemma precompute_loop_fuel fuel k lvl level m :
  (length level <= fuel)%nat -> (length level <= 2 ^ k)%nat -> 0 <= lvl -> lvl + Z.of_nat k < 256 -> sound m ->
  precompute_loop to_bytes from_bytes batch (S fuel) lvl level m = precompute_loop to_bytes from_bytes batch fuel lvl level m.
Proof using NodeBytes0 Hbatch.
  revert k lvl level m. induction fuel as [|fuel IH]; intros k lvl level m Hlen Hk H0 Hl Hm.
  { cbn [precompute_loop]. by destruct (Nat.leb_spec (length level) 1); [|lia]. }
  cbn [precompute_loop]. destruct (Nat.leb_spec (length level) 1); [done|]. destruct k as [|k]; [simpl in Hk; lia|].
  destruct (precompute_level_spec lvl level m) as (next & m' & -> & Hm' & Hn); [lia|done|]. cbn [mbind option_bind].
  rewrite Nat.pow_succ_r' in Hk. apply (IH k (lvl + 1) next m'); lia || done.
Qed.

Lemma precompute_sound leaves : (length leaves <= BUILD_CHUNK_SIZE)%nat ->
  exists m, precompute_shard_map to_bytes from_bytes batch leaves = Some m /\ sound m.
Proof using NodeBytes0 Hbatch.
  intros Hlen. unfold precompute_shard_map. destruct (Nat.leb_spec (length leaves) 1); [by exists ∅|].
  apply (precompute_loop_sound _ 10); [exact Hlen|lia|lia|done].
Qed.
End Table.

(** ** The builds agree *)

Fixpoint map_tree {A B} (f : A -> B) (t : PrunableTree A) : PrunableTree B :=
  match t with
  | Parent ann l r => Parent (f <$> ann) (map_tree f l) (map_tree f r)
  | Leaf v => Leaf (f v.1, v.2)
  | Nil => Nil
  end.
Definition map_located {A B} (f : A -> B) (t : Located A) : Located B := mkLocated t.(root_addr) (map_tree f t.(root)).

(** A map of hashes that keeps the operations. *)
Record hom {A B} (HA : Hashable A) (HB : Hashable B) (f : A -> B) : Prop := {
  hom_leaf : f empty_leaf = empty_leaf;
  hom_root lvl : f (empty_root lvl) = empty_root lvl;
  hom_combine lvl a b : f (combine lvl a b) = combine lvl (f a) (f b);
}.

(** What is relied on of the tree library: [from_iter] knows its hashes only through the trait,
    and its trees fit their addresses, which is a matter of shape. *)
Class FromIterLaws (from_iter : forall A, Hashable A -> Z * Z -> Z -> list (A * Retention) -> option (Located A * gmap Z Z))
    (well_shaped : forall A, Z * Z -> PrunableTree A -> bool) : Prop := {
  from_iter_generic A B (HA : Hashable A) (HB : Hashable B) (f : A -> B) range level items : hom HA HB f ->
    from_iter B HB range level ((fun p => (f p.1, p.2)) <$> items) =
    (fun r => (map_located f r.1, r.2)) <$> from_iter A HA range level items;
  from_iter_shaped A HA range level items r : from_iter A HA range level items = Some r ->
    well_shaped A r.1.(root_addr) r.1.(root) = true;
}.

Lemma hom_lookup {H} (HH : Hashable H) to_bytes from_bytes {NB : NodeBytes to_bytes from_bytes} m :
  sound to_bytes m -> hom HH (lookup_hashable to_bytes from_bytes (Some m)) mkLookup.
Proof.
  intros Hm. split; [done..|]. intros lvl a b. simpl. unfold lookup_combine. simpl.
  destruct (m !! combine_key to_bytes lvl a b) as [bytes|] eqn:E; [|done]. simpl. rewrite (Hm _ _ _ _ E).
  by rewrite bytes_read.
Qed.

Lemma convert_map {H} (t : PrunableTree H) : convert_tree (map_tree mkLookup t) = t.
Proof.
  induction t as [ann l IHl r IHr|[h fl]|]; simpl; [|done..]. rewrite IHl, IHr. by destruct ann.
Qed.

Lemma length_chunks {A} n (l : list A) : (0 < n)%nat -> Forall (fun c => length c <= n)%nat (chunks n l).
Proof.
  intros Hn. unfold chunks. generalize (length l). intros fuel. revert l.
  induction fuel as [|fuel IH]; intros [|a l]; simpl; constructor; [|by apply (IH (drop n (a :: l)))].
  rewrite length_take. lia.
Qed.

Lemma length_take_all {H} (chunk : list (Slot H)) items : take_all chunk = Some items -> length items = length chunk.
Proof.
  revert items. induction chunk as [|[i|] chunk IH]; intros items; simpl; [by intros [= <-]| |done].
  destruct (take_all chunk) as [is'|]; [|done]. intros [= <-]. simpl. by rewrite (IH is').
Qed.

Section Equal.
Context {H : Type} `{HH : !Hashable H} (to_bytes : H -> list Z) (from_bytes : list Z -> option H) {NB : NodeBytes to_bytes from_bytes}.
Context (from_iter : forall A, Hashable A -> Z * Z -> Z -> list (A * Retention) -> option (Located A * gmap Z Z)).
Context (well_shaped : forall A, Z * Z -> PrunableTree A -> bool) (SHARD_HEIGHT : Z) {FI : FromIterLaws from_iter well_shaped}.
Context (batch : list Z -> list (list Z) -> list (list Z) -> option (list (list Z))) (Hbatch : batch_contract to_bytes batch).

Lemma build_chunk_spec start (chunk : list (Slot H)) : (length chunk <= BUILD_CHUNK_SIZE)%nat ->
  build_chunk to_bytes from_bytes batch from_iter well_shaped SHARD_HEIGHT start chunk =
  (items ← take_all chunk; Some (from_iter H _ (start, start + Z.of_nat (length chunk)) SHARD_HEIGHT items)).
Proof using NB FI Hbatch.
  intros Hlen. unfold build_chunk. destruct (take_all chunk) as [items|] eqn:Ei; [|done]. cbn [mbind option_bind].
  destruct (precompute_sound to_bytes from_bytes batch Hbatch (fst <$> items)) as (m & -> & Hm).
  { by rewrite length_fmap, (length_take_all _ _ Ei). }
  cbn [mbind option_bind]. rewrite (from_iter_generic H Lookup HH _ mkLookup) by (by apply hom_lookup).
  destruct (from_iter H HH _ _ items) as [[t cps]|] eqn:Et; [|done]. simpl. unfold from_parts.
  rewrite convert_map. rewrite (from_iter_shaped H HH _ _ _ _ Et). by destruct t.
Qed.

Lemma build_lookup_spec start (commitments : list (Slot H)) :
  build_subtrees_lookup to_bytes from_bytes batch from_iter well_shaped SHARD_HEIGHT start commitments =
  build_subtrees from_iter SHARD_HEIGHT start commitments.
Proof using NB FI Hbatch.
  unfold build_subtrees_lookup, build_subtrees. f_equal.
  assert (0 < BUILD_CHUNK_SIZE)%nat as Hn by (unfold BUILD_CHUNK_SIZE; lia).
  pose proof (length_chunks BUILD_CHUNK_SIZE commitments Hn) as Hc.
  apply Forall_mapM_ext. apply Forall_lookup. intros j p Hp. rewrite list_lookup_imap in Hp.
  destruct (chunks BUILD_CHUNK_SIZE commitments !! j) as [chunk|] eqn:Ej; [|done]. injection Hp as <-. simpl.
  apply build_chunk_spec. exact (proj1 (Forall_lookup _ _) Hc j chunk Ej).
Qed.
End Equal.

(** C14: Whichever way the Orchard subtrees are built - batched on the CPU, offloaded to the GPU, or
    hashed one pair at a time - the subtrees and their checkpoint maps are the same, for every
    start position and every slice (a slice with an empty slot panics on every route).  It rests on
    the batched hashes meeting their contract. *)
Theorem orchard_builds_agree {H} {HH : Hashable H} (to_bytes : H -> list Z) (from_bytes : list Z -> option H)
    {NB : NodeBytes to_bytes from_bytes} from_iter well_shaped {FI : FromIterLaws from_iter well_shaped}
    SHARD_HEIGHT cpu gpu_batch feature_gpu gpu batch start (commitments : list (Slot H)) :
  batch_contract to_bytes cpu -> batch_contract to_bytes gpu_batch ->
  build_orchard_subtrees to_bytes from_bytes from_iter well_shaped SHARD_HEIGHT cpu gpu_batch feature_gpu gpu batch start commitments =
  build_subtrees from_iter SHARD_HEIGHT start commitments.
Proof.
  intros Hc Hg. unfold build_orchard_subtrees, build_subtrees_gpu. destruct batch; [by apply build_lookup_spec|].
  destruct (feature_gpu && gpu); [by apply build_lookup_spec|done].
Qed.

(** *** An instance *)

(** A library that hangs each commitment left of the rest, with the hash of both as annotation. *)
Fixpoint comb {A} (HA : Hashable A) (items : list (A * Retention)) : PrunableTree A * A :=
  match items with
  | [] => (Nil, empty_root 0)
  | (h, r) :: items' =>
    let '(t, ht) := comb HA items' in
    let flag := match r with Ephemeral => 0 | Checkpoint _ _ => 1 | Marked => 2 | Reference => 4 end in
    (Parent (Some (combine 0 h ht)) (Leaf (h, flag)) t, combine 0 h ht)
  end.
Definition comb_iter (A : Type) (HA : Hashable A) (range : Z * Z) (level : Z) (items : list (A * Retention))
    : option (Located A * gmap Z Z) :=
  match items with [] => None | _ => Some (mkLocated (level, Z.shiftr range.1 level) (comb HA items).1, ∅) end.
Definition any_shape (A : Type) (_ : Z * Z) (_ : PrunableTree A) : bool := true.

Lemma comb_map {A B} (HA : Hashable A) (HB : Hashable B) (f : A -> B) items : hom HA HB f ->
  comb HB ((fun p => (f p.1, p.2)) <$> items) = (map_tree f (comb HA items).1, f (comb HA items).2).
Proof.
  intros [Hl Hr Hc]. induction items as [|[h r] items IH]; csimpl; [by rewrite Hr|].
  rewrite IH. destruct (comb HA items) as [t ht]. simpl. by rewrite <-Hc.
Qed.

#[local] Instance comb_laws : FromIterLaws comb_iter any_shape.
Proof.
  split; [|done]. intros A B HA HB f range level items Hf. unfold comb_iter.
  destruct items as [|i items]; [done|]. change ((fun p => (f p.1, p.2)) <$> (i :: items)) with ((f i.1, i.2) :: ((fun p => (f p.1, p.2)) <$> items)).
  change ((f i.1, i.2) :: ((fun p => (f p.1, p.2)) <$> items)) with ((fun p => (f p.1, p.2)) <$> (i :: items)) at 2.
  rewrite (comb_map HA HB f (i :: items) Hf). done.
Qed.

#[local] Instance f7_hashable : Hashable F7 := mkHashable F7 e0 (fun lvl => f7_of lvl) sample_combine.
#[local] Instance f7_bytes : NodeBytes to_repr f7_read.
Proof. split; by intros []. Qed.

(** The batched hash of the engine meets the contract. *)
Lemma cpu_contract : batch_contract to_repr (orchard_combine_batch_cpu sample_combine to_repr f7_read sample_consts).
Proof. intros inputs Hl. by apply (batch_combine_spec sample_consts sample_combine to_repr f7_read inputs). Qed.

Definition sample_slots : list (Slot F7) := [Some (e1, Ephemeral); Some (e5, Marked); Some (e2, Checkpoint 7 MarkNone)].

Lemma orchard_builds_agree_witness :
  build_orchard_subtrees to_repr f7_read comb_iter any_shape 16
    (orchard_combine_batch_cpu sample_combine to_repr f7_read sample_consts)
    (orchard_combine_batch_cpu sample_combine to_repr f7_read sample_consts) false false true 70000 sample_slots =
  build_subtrees comb_iter 16 70000 sample_slots.
Proof. apply (orchard_builds_agree to_repr f7_read comb_iter any_shape); apply cpu_contract. Defined.
End LookupBuild.
