(* ===== verification/Census.v ===== *)
(** * The shard census: [core/src/census.rs]

    Per pool and pass, which shards the pass touched and which of them hold an owned note,
    for the log lines and the bench file. *)

From S2P Require Export GraftAccumulator.

Module Census.
Import GraftAccumulator.

(** [const SHARD_BITS]; [struct ShardCensus]. *)
Definition SHARD_BITS : Z := 16.
Record ShardCensus := mkCensus { touched : gset Z; noted : gset Z; commitments : Z }.
Definition census_new : ShardCensus := mkCensus ∅ ∅ 0.

(** [ShardCensus::feed]. *)
Definition feed (start_position count : Z) (note_positions : list Z) (c : ShardCensus) : ShardCensus :=
  let c :=
    if 0 <? count then
      let first := Z.shiftr start_position SHARD_BITS in
      let last := Z.shiftr (start_position + count - 1) SHARD_BITS in
      mkCensus (c.(touched) ∪ list_to_set (seqZ first (last - first + 1))) c.(noted) (u64_add c.(commitments) count)
    else c in
  mkCensus c.(touched) (c.(noted) ∪ list_to_set ((fun p => Z.shiftr p SHARD_BITS) <$> note_positions)) c.(commitments).

(** [ShardCensus::merge]. *)
Definition merge (other c : ShardCensus) : ShardCensus :=
  mkCensus (c.(touched) ∪ other.(touched)) (c.(noted) ∪ other.(noted)) (u64_add c.(commitments) other.(commitments)).

Definition shards (c : ShardCensus) : Z := Z.of_nat (size c.(touched)).
Definition noted_shards (c : ShardCensus) : Z := Z.of_nat (size c.(noted)).

(** [graftable_fraction], as numerator and denominator of the quotient it returns. *)
Definition graftable_fraction (c : ShardCensus) : Z * Z :=
  let touched := shards c in
  if touched =? 0 then (0, 1)
  else let non_graftable := Z.min (sat_add64 (noted_shards c) 1) touched in (touched - non_graftable, touched).

(** ** What it counts *)

Lemma shiftr_range a b i : a <= b -> Z.shiftr a SHARD_BITS <= i <= Z.shiftr b SHARD_BITS <->
  exists p, a <= p <= b /\ Z.shiftr p SHARD_BITS = i.
Proof.
  intros Hab. unfold SHARD_BITS. rewrite !Z.shiftr_div_pow2 by lia. change (2 ^ 16) with 65536. split.
  - intros Hi. exists (Z.max a (i * 65536)). rewrite Z.shiftr_div_pow2 by lia. change (2 ^ 16) with 65536.
    pose proof (Z.div_mod a 65536). pose proof (Z.mod_pos_bound a 65536). pose proof (Z.div_mod b 65536).
    pose proof (Z.mod_pos_bound b 65536). split; [lia|]. symmetry.
    destruct (Z.max_spec a (i * 65536)) as [[? ->]|[? ->]].
    + by rewrite Z.div_mul.
    + apply Z.div_unique with (r := a - i * 65536); lia.
  - intros (p & Hp & <-). rewrite Z.shiftr_div_pow2 by lia. change (2 ^ 16) with 65536.
    split; apply Z.div_le_mono; lia.
Qed.

Lemma feed_touched start count notes c i : 0 <= count ->
  i ∈ (feed start count notes c).(touched) <->
  i ∈ c.(touched) \/ exists p, start <= p < start + count /\ Z.shiftr p SHARD_BITS = i.
Proof.
  intros Hc. unfold feed. destruct (Z.ltb_spec 0 count) as [Hp|Hp]; cbn [touched].
  - rewrite elem_of_union, elem_of_list_to_set, elem_of_seqZ.
    assert ((Z.shiftr start SHARD_BITS <= i < Z.shiftr start SHARD_BITS +
        (Z.shiftr (start + count - 1) SHARD_BITS - Z.shiftr start SHARD_BITS + 1)) <->
      Z.shiftr start SHARD_BITS <= i <= Z.shiftr (start + count - 1) SHARD_BITS) as -> by lia.
    rewrite shiftr_range by lia. split; (intros [?|(p & ? & ?)]; [by left|right; exists p; split; [lia|done]]).
  - split; [by left|]. intros [?|(p & ? & _)]; [done|lia].
Qed.

(** The census of a pass: the calls of each range, merged range by range. *)
Definition range_census (calls : list (Z * Z * list Z)) : ShardCensus :=
  foldl (fun c (f : Z * Z * list Z) => feed f.1.1 f.1.2 f.2 c) census_new calls.
Definition pass_census (ranges : list (list (Z * Z * list Z))) : ShardCensus :=
  foldl (fun c r => merge (range_census r) c) census_new ranges.

Lemma range_touched calls i : Forall (fun f => 0 <= f.1.2) calls ->
  i ∈ (range_census calls).(touched) <->
  exists f p, f ∈ calls /\ f.1.1 <= p < f.1.1 + f.1.2 /\ Z.shiftr p SHARD_BITS = i.
Proof.
  intros Hf. unfold range_census. assert (forall c, i ∈ (foldl (fun c (f : Z * Z * list Z) => feed f.1.1 f.1.2 f.2 c) c calls).(touched) <->
    i ∈ c.(touched) \/ exists f p, f ∈ calls /\ f.1.1 <= p < f.1.1 + f.1.2 /\ Z.shiftr p SHARD_BITS = i) as Hg.
  { induction Hf as [|f fs Hf _ IH]; intros c; simpl; [set_solver|]. rewrite IH, feed_touched by done.
    split; [intros [[?|(p & ? & ?)]|(g & p & ? & ? & ?)]|intros [?|(g & p & [->|?]%elem_of_cons & ? & ?)]].
    - by left.
    - right. exists f, p. set_solver.
    - right. exists g, p. set_solver.
    - by left; left.
    - left; right. by exists p.
    - right. by exists g, p. }
  rewrite Hg. split; [intros [?|?]; [set_solver|done]|by right].
Qed.

Lemma merge_touched rs i : i ∈ (pass_census rs).(touched) <-> exists r, r ∈ rs /\ i ∈ (range_census r).(touched).
Proof.
  unfold pass_census. assert (forall c, i ∈ (foldl (fun c r => merge (range_census r) c) c rs).(touched) <->
    i ∈ c.(touched) \/ exists r, r ∈ rs /\ i ∈ (range_census r).(touched)) as Hg.
  { induction rs as [|r rs IH]; intros c; simpl; [set_solver|]. rewrite IH. simpl. set_solver. }
  rewrite Hg. set_solver.
Qed.

(** The shards a pass touched are exactly those of the positions it fed, over all its ranges and
    calls, empty calls included. *)
Theorem census_counts_fed_shards ranges i : Forall (Forall (fun f => 0 <= f.1.2)) ranges ->
  i ∈ (pass_census ranges).(touched) <->
  exists r f p, r ∈ ranges /\ f ∈ r /\ f.1.1 <= p < f.1.1 + f.1.2 /\ Z.shiftr p SHARD_BITS = i.
Proof.
  intros Hr. rewrite merge_touched. rewrite Forall_forall in Hr. split.
  - intros (r & Hin & Ht). apply range_touched in Ht as (f & p & ? & ? & ?); [|by apply Hr]. by exists r, f, p.
  - intros (r & f & p & Hin & ? & ? & ?). exists r. split; [done|]. apply range_touched; [by apply Hr|]. by exists f, p.
Qed.
End Census.
