(* ===== verification/PutBlocks.v ===== *)
(** * One call of the sparse writer: [sparse_put_blocks] of [core/src/persist.rs]

    A call takes scanned blocks that follow on from a chain state.  It plans the graft pools
    against the buffer table, then in one transaction writes the block rows, runs the three
    pools' trees in memory, flushes them and marks the blocks scanned; last it deletes the
    buffered rows the transaction made superfluous.

    The tree library, the wallet database and the block rows are arguments ([PoolLib],
    [WalletLib]); the trees in memory are the stores of [SparseStore]. *)

From S2P Require Export GraftPlan Census.

Module PutBlocks.
Import GraftAccumulator Checkpoints SparseStore GraftBuffer GraftPlan.
Local Open Scope graft_scope.

(** ** One pool *)

(** What the call uses of the tree library and of the pool's tables, for hashes [H], located
    trees [T], caps [C] and frontiers [Fr].  [build] is the pool's subtree build; for Orchard
    that is [build_orchard_subtrees], whose routes all build the same ([LookupBuild]). *)
Class PoolLib (W H T C Fr : Type) := mkPoolLib {
  pl_shard :: Shard T;
  pl_db :: TreeDb W T C;
  pl_cap : C;
  tree_size : Fr -> Z;
  frontier_value : Fr -> option (Z * H);
  build : Z -> list (Slot H) -> list (T * gmap Z Z);
  insert_frontier : Fr -> Retention -> SparseShardStore T C -> result string (SparseShardStore T C);
  insert_tree : T -> gmap Z Z -> SparseShardStore T C -> result string (SparseShardStore T C);
  tree_ensure_retained : Z -> SparseShardStore T C -> result string (SparseShardStore T C);
  empty_at : Z -> T;
  insert_frontier_nodes : Fr -> Retention -> T -> option T;
  insert_subtree : T -> T -> result string T;
  graft_leaf : Z -> H -> option T;
  root_hash : Z -> T -> option H;
  get_subtree_root : Z -> W -> result SqliteClientError (option H);
  ensure_checkpoints : list Z -> gmap Z Z -> Fr -> list (Z * Cp);
}.

Section Pool.
Context {W H T C Fr : Type} `{!EqDecision H} `{!HashSer H} (PL : PoolLib W H T C Fr).
Abbreviation Store := (SparseShardStore T C).
Abbreviation Row := (BufferRow H).
Abbreviation Plan := (PoolPlan (H := H)).

Fixpoint insert_subtrees (subtrees : list (T * gmap Z Z)) (shard : T) : option string :=
  match subtrees with
  | [] => None
  | (subtree, _) :: subtrees' =>
    match insert_subtree subtree shard with
    | Ok merged => insert_subtrees subtrees' merged
    | Err e => Some e
    end
  end.

(** [resume_refusal]. *)
Definition resume_refusal (store : Store) (frontier : Fr) (frontier_id : Z) (run : list Row) : option string :=
  first ← head run;
  let addr := shard_of (pos first) in
  match get_shard addr store with
  | Err _ => None
  | Ok held =>
    let shard := default (empty_at addr) held in
    shard ← match frontier_value frontier with
            | Some (p, _) =>
              if shard_of p =? addr then insert_frontier_nodes frontier (Checkpoint frontier_id MarkReference) shard
              else Some shard
            | None => Some shard
            end;
    insert_subtrees (build (pos first) ((fun row : Row => Some (row.1.2, row.2)) <$> run)) shard
  end.

(** An error of the tree library under a label; [map_sparse_err]. *)
Definition labelled {A} (label : string) (r : result string A) : result SqliteClientError A :=
  match r with Ok a => Ok a | Err e => Err (CorruptedData (label +:+ ": " +:+ e)) end.
Definition map_sparse_err {A} (r : result string A) : result SqliteClientError A := labelled "sparse tree" r.

Context (anchors : option (Z -> bool)).

(** The segments of a plan, each downgraded and built. *)
Fixpoint build_segments (cutoff : option Z) (segs : list (Z * list (Slot H))) : list (T * gmap Z Z) * Z :=
  match segs with
  | [] => ([], 0)
  | (seg_start, rows) :: segs' =>
    let '(rows, n) := match cutoff with Some c => downgrade_doomed_checkpoints anchors c rows | None => (rows, 0) end in
    let '(out, m) := build_segments cutoff segs' in
    (build seg_start rows ++ out, n + m)
  end.

(** The roots of a plan, put as whole shards. *)
Fixpoint install_grafts (gs : list (Z * H)) (tree : Store) : result SqliteClientError Store :=
  match gs with
  | [] => Ok tree
  | (idx, root) :: gs' =>
    match graft_leaf idx root with
    | None => Err (CorruptedData ("graft install: bad shard address " +:+ pretty idx))
    | Some located => install_grafts gs' (put_shard located tree)
    end
  end.

Fixpoint retain_all (label : string) (hs : list Z) (tree : Store) : result SqliteClientError Store :=
  match hs with
  | [] => Ok tree
  | h :: hs' => let? tree := labelled label (tree_ensure_retained h tree) in retain_all label hs' tree
  end.

(** The insert loop: a subtree's anchors are retained before it goes in. *)
Fixpoint insert_all (retaining inserting : string) (subtrees : list (T * gmap Z Z)) (tree : Store) : result SqliteClientError Store :=
  match subtrees with
  | [] => Ok tree
  | (subtree, cps) :: subtrees' =>
    let? tree := retain_all retaining (filter (fun h => should_retain_anchor anchors h = true) (btree_entries cps).*1) tree in
    let? tree := labelled inserting (insert_tree subtree cps tree) in
    insert_all retaining inserting subtrees' tree
  end.

(** The checkpoints the other pools ask for, above the oldest one kept. *)
Definition add_missing (name : string) (missing : list (Z * Cp)) (tree : Store) : result SqliteClientError Store :=
  match min_checkpoint_id tree with
  | Err _ => Err (CorruptedData "sparse tree: min checkpoint")
  | Ok None => Err (CorruptedData ("no " +:+ name +:+ " checkpoint after insert_frontier"))
  | Ok (Some min_cp) =>
    Ok (foldl (fun tree (m : Z * Cp) => if min_cp <? m.1 then add_checkpoint m.1 m.2 tree else tree) tree missing)
  end.

(** The audit of the sampled shards: verified and mismatched. *)
Definition audit (roots : list (Z * H)) (tree : Store) : Z * Z :=
  foldl (fun (a : Z * Z) (v : Z * H) =>
    match get_shard v.1 tree with
    | Ok (Some shard) =>
      match root_hash (Z.shiftl (v.1 + 1) 16) shard with
      | Some computed => if decide (computed = v.2) then (a.1 + 1, a.2) else (a.1, a.2 + 1)
      | None => a
      end
    | _ => a
    end) (0, 0) roots.

(** One pool's side of the transaction. *)
Record LaneIn := mkLaneIn {
  li_name : string;
  li_plan : option Plan;
  li_start : Z;
  li_frontier : Fr;
  li_frontier_id : Z;
  li_commitments : list (Slot H);
  li_cp_pos : gmap Z Z;
  li_missing : list (Z * Cp);
}.

Definition lane_built (i : LaneIn) (tree : Store) : result SqliteClientError (list (T * gmap Z Z) * Store * Z) :=
  let cutoff := doomed_checkpoint_cutoff (btree_entries tree.(checkpoints)).*1 i.(li_frontier_id) (btree_entries i.(li_cp_pos)).*1 in
  match i.(li_plan) with
  | None =>
    let '(commitments, downgraded) :=
      match cutoff with Some c => downgrade_doomed_checkpoints anchors c i.(li_commitments) | None => (i.(li_commitments), 0) end in
    Ok (build i.(li_start) commitments, tree, downgraded)
  | Some plan =>
    let '(out, downgraded) := build_segments cutoff plan.(segments) in
    let? tree := install_grafts plan.(grafts) tree in
    Ok (out, tree, downgraded)
  end.

Definition pool_lane (i : LaneIn) (tree : Store) : result SqliteClientError (Store * Z * (Z * Z)) :=
  let? (subtrees, tree, downgraded) := lane_built i tree in
  let? tree := map_sparse_err (insert_frontier i.(li_frontier) (Checkpoint i.(li_frontier_id) MarkReference) tree) in
  let? tree := (if should_retain_anchor anchors i.(li_frontier_id)
                then map_sparse_err (tree_ensure_retained i.(li_frontier_id) tree) else Ok tree) in
  let? tree := insert_all "sparse tree" "sparse tree" subtrees tree in
  let? tree := add_missing i.(li_name) i.(li_missing) tree in
  Ok (tree, downgraded, audit (from_option verify_roots [] i.(li_plan)) tree).

(** [insert_deferred_rows]; [None]: there was nothing to insert.  The subtrees come from the pool's
    [build]; the source calls the plain builder here, which builds what every route builds. *)
Definition insert_deferred_rows (label : string) (rows : list Row) (tree : Store) : result SqliteClientError (option Store) :=
  match rows_to_segment rows with
  | None => Ok None
  | Some (seg_start, rows) =>
    let rows := match deferred_build_cutoff (btree_entries tree.(checkpoints)).*1 rows with
                | Some cutoff => (downgrade_doomed_checkpoints anchors cutoff rows).1
                | None => rows
                end in
    let? tree := insert_all (label +:+ " retain") (label +:+ " insert") (build seg_start rows) tree in
    Ok (Some tree)
  end.
End Pool.
Arguments LaneIn : clear implicits.

(** ** The call *)

(** One pool's part of a scanned block. *)
Record BlockPart (H : Type) := mkPart { part_commitments : list (H * Retention); final_tree_size : Z }.
Arguments mkPart {H}.
Arguments part_commitments {H}.
Arguments final_tree_size {H}.

(** [ScannedBlock], with the note positions of its transactions; [ChainState]. *)
Record ScannedBlock (Hs Ho : Type) := mkBlock {
  b_height : Z;
  b_sapling : BlockPart Hs;
  b_orchard : BlockPart Ho;
  b_ironwood : BlockPart Ho;
  b_transactions : list (list Z * list Z);
}.
Arguments mkBlock {Hs Ho}.
Arguments b_height {Hs Ho}.
Arguments b_sapling {Hs Ho}.
Arguments b_orchard {Hs Ho}.
Arguments b_ironwood {Hs Ho}.
Arguments b_transactions {Hs Ho}.
Record ChainState (Fs Fo : Type) := mkChainState {
  block_height : Z;
  final_sapling_tree : Fs;
  final_orchard_tree : Fo;
  final_ironwood_tree : Fo;
}.
Arguments mkChainState {Fs Fo}.
Arguments block_height {Fs Fo}.
Arguments final_sapling_tree {Fs Fo}.
Arguments final_orchard_tree {Fs Fo}.
Arguments final_ironwood_tree {Fs Fo}.

(** What [put_blocks_rows] returns. *)
Record Rows (Hs Ho : Type) := mkRows {
  sapling_commitments : list (Slot Hs);
  orchard_commitments : list (Slot Ho);
  ironwood_commitments : list (Slot Ho);
  row_note_positions : list (ShieldedPool * Z);
  last_scanned_height : option Z;
}.
Arguments mkRows {Hs Ho}.
Arguments sapling_commitments {Hs Ho}.
Arguments orchard_commitments {Hs Ho}.
Arguments ironwood_commitments {Hs Ho}.
Arguments row_note_positions {Hs Ho}.
Arguments last_scanned_height {Hs Ho}.

(** The wallet library's calls that are not about one pool's tree. *)
Class WalletLib (W Hs Ho Fs Fo : Type) := mkWalletLib {
  chain_height : W -> result SqliteClientError (option Z);
  put_blocks_rows : ChainState Fs Fo -> list (ScannedBlock Hs Ho) -> W -> result SqliteClientError (W * Rows Hs Ho);
  notify_scan_complete : Z * Z -> list (ShieldedPool * Z) -> W -> result SqliteClientError W;
  batch_ensure_heights : list Z -> list Z -> list Z -> option (Z -> bool) -> Z * Z -> list Z * list Z * list Z;
}.

Section Call.
Context {W Hs Ho Ts To Cs Co Fs Fo : Type} `{!EqDecision Hs} `{!HashSer Hs} `{!EqDecision Ho} `{!HashSer Ho}.
Context (PS : PoolLib W Hs Ts Cs Fs) (PO PI : PoolLib W Ho To Co Fo) `{!WalletLib W Hs Ho Fs Fo}.
Context (fault : nat -> option string).
Abbreviation Block := (ScannedBlock Hs Ho).
Abbreviation State := (ChainState Fs Fo).
Abbreviation StoreS := (SparseShardStore Ts Cs).
Abbreviation StoreO := (SparseShardStore To Co).

(** [struct GraftCtx], [struct SparseTreeState]; the connection is the table of the [World]. *)
Record GraftCtx := mkCtx {
  ctx_verify_sample : Z;
  acc_sapling : option (ShardAccumulator (H := Hs) (R := Retention));
  acc_orchard : option (ShardAccumulator (H := Ho) (R := Retention));
}.
Record SparseTreeState := mkSparse {
  sapling : option StoreS;
  orchard : option StoreO;
  ironwood : option StoreO;
  anchor_retention : option (Z -> bool);
  graft : option GraftCtx;
  census_sapling : Census.ShardCensus;
  census_orchard : Census.ShardCensus;
  graft_verdict_totals : (Z * Z) * (Z * Z);
}.
#[export] Instance eta_Sparse : Eta SparseTreeState := fun s =>
  mkSparse s.(sapling) s.(orchard) s.(ironwood) s.(anchor_retention) s.(graft) s.(census_sapling) s.(census_orchard)
    s.(graft_verdict_totals).

(** The validation: the first block follows on, in height and in every pool's tree size. *)
Definition sequential (from_state : State) (b : Block) : bool :=
  (from_state.(block_height) + 1 =? b.(b_height)) &&
  (tree_size (PoolLib := PS) from_state.(final_sapling_tree) + Z.of_nat (length b.(b_sapling).(part_commitments)) =? b.(b_sapling).(final_tree_size)) &&
  (tree_size (PoolLib := PO) from_state.(final_orchard_tree) + Z.of_nat (length b.(b_orchard).(part_commitments)) =? b.(b_orchard).(final_tree_size)) &&
  (tree_size (PoolLib := PI) from_state.(final_ironwood_tree) + Z.of_nat (length b.(b_ironwood).(part_commitments)) =? b.(b_ironwood).(final_tree_size)).

Definition seeded {T C} `{!Shard T} `{!TreeDb W T C} (cap : C) (anchors : option (Z -> bool)) (s : option (SparseShardStore T C))
    : M (W := W) (SparseShardStore T C) := fun w =>
  match s with
  | Some s => (w, Ok s)
  | None => (w, match seed cap anchors w.(wallet) with Ok s => Ok s | Err e => Err (Sqlite e) end)
  end.

(** A read of the wallet. *)
Definition read {A} (f : W -> result SqliteClientError A) : M (W := W) A := fun w => (w, f w.(wallet)).

(** The inputs of one pool's plan. *)
Definition pool_in {H T C Fr} (PL : PoolLib W H T C Fr) (pool : ShieldedPool) (sample : Z) (from_state : State) (frontier : Fr)
    (str : list (H * Retention)) (notes : list Z) (anchors : option (Z -> bool)) (store : SparseShardStore T C) (w : W) : PoolIn :=
  mkPoolIn sample pool (tree_size frontier) (frontier_value frontier) str notes
    (fun s => shard_has_interior s store) (resume_refusal PL store frontier from_state.(block_height))
    (fun s => get_subtree_root s w) anchors.

(** The streams of a call, with the deep-history doom. *)
Definition sapling_stream (blocks : list Block) : list (Hs * Retention) := blocks ≫= (fun b => b.(b_sapling).(part_commitments)).
Definition orchard_stream (blocks : list Block) : list (Ho * Retention) := blocks ≫= (fun b => b.(b_orchard).(part_commitments)).
Definition ironwood_stream (blocks : list Block) : list (Ho * Retention) := blocks ≫= (fun b => b.(b_ironwood).(part_commitments)).
Definition sapling_notes (blocks : list Block) : list Z := blocks ≫= (fun b => b.(b_transactions) ≫= fst).
Definition orchard_notes (blocks : list Block) : list Z := blocks ≫= (fun b => b.(b_transactions) ≫= snd).
Definition doomed {H} (anchors : option (Z -> bool)) (deep : bool) (str : list (H * Retention)) : list (H * Retention) :=
  if deep then doom_deep_history_stream anchors str else str.

(** The plan phase. *)
Definition plan_call (ctx : GraftCtx) (from_state : State) (blocks : list Block) (anchors : option (Z -> bool))
    (sap : StoreS) (orch : StoreO) : M (W := W) (GraftCtx * PoolPlan * PoolPlan) :=
  let! chain_tip := read chain_height in
  let deep := match last blocks with Some l => is_deep_history chain_tip l.(b_height) | None => false end in
  let! db := (fun w : World W => (w, Ok w.(wallet))) in
  let! (accs, sp) := plan_pool fault ctx.(acc_sapling)
    (pool_in PS Sapling ctx.(ctx_verify_sample) from_state from_state.(final_sapling_tree)
       (doomed anchors deep (sapling_stream blocks)) (sapling_notes blocks) anchors sap db) in
  let! (acco, op) := plan_pool fault ctx.(acc_orchard)
    (pool_in PO Orchard ctx.(ctx_verify_sample) from_state from_state.(final_orchard_tree)
       (doomed anchors deep (orchard_stream blocks)) (orchard_notes blocks) anchors orch db) in
  ret (mkCtx ctx.(ctx_verify_sample) (Some accs) (Some acco), sp, op).

Definition plan_phase (graft : option GraftCtx) (from_state : State) (blocks : list Block) (anchors : option (Z -> bool))
    (sap : StoreS) (orch : StoreO) : M (W := W) (option (GraftCtx * PoolPlan * PoolPlan)) :=
  match graft with
  | None => ret None
  | Some ctx => let! p := plan_call ctx from_state blocks anchors sap orch in ret (Some p)
  end.
Definition plans_of (planned : option (GraftCtx * PoolPlan * PoolPlan)) : option (PoolPlan (H := Hs) * PoolPlan (H := Ho)) :=
  (fun p => (p.1.2, p.2)) <$> planned.

(** [transactionally]: all of it or none; the commit itself can be refused. *)
Definition transactionally {A} (f : W -> result SqliteClientError (W * A)) : M (W := W) A := fun w =>
  match f w.(wallet) with
  | Err e => (w, Err e)
  | Ok (d, a) =>
    match fault w.(statements) with
    | Some e => (w <| statements := S w.(statements) |>, Err (Sqlite e))
    | None => (mkWorld w.(table) d (S w.(statements)) ((w.(table), w.(wallet)) :: w.(crashes)), Ok a)
    end
  end.

Definition flushed {T C} `{!Shard T} `{!TreeDb W T C} (s : SparseShardStore T C) (d : W) : result SqliteClientError (W * SparseShardStore T C) :=
  match flush s d with (d', Ok s') => Ok (d', s') | (_, Err e) => Err (Sqlite e) end.

Definition notes_of (pool : ShieldedPool) (ns : list (ShieldedPool * Z)) : list Z :=
  snd <$> filter (fun n : ShieldedPool * Z => n.1 = pool) ns.

Record TxOut := mkTxOut {
  tx_sap : StoreS; tx_orch : StoreO; tx_iw : StoreO;
  tx_census_sap : Census.ShardCensus; tx_census_orch : Census.ShardCensus; tx_downgraded : Z;
}.

(** The streams the tree stage works on: doomed as a whole in deep history. *)
Definition doom_slots {H} (anchors : option (Z -> bool)) (deep : bool) (slots : list (Slot H)) : list (Slot H) :=
  if deep then (downgrade_doomed_checkpoints anchors u32_max slots).1 else slots.

(** The two sides of the join, and the third pool after it, which has no plan. *)
Definition sapling_lane (anchors : option (Z -> bool)) (plan : option (PoolPlan (H := Hs))) (from_state : State)
    (commitments : list (Slot Hs)) (cp_pos : gmap Z Z) (missing : list (Z * Cp)) (tree : StoreS) : result SqliteClientError (StoreS * Z * (Z * Z)) :=
  pool_lane PS anchors (mkLaneIn "sapling" plan (tree_size from_state.(final_sapling_tree)) from_state.(final_sapling_tree)
    from_state.(block_height) commitments cp_pos missing) tree.
Definition orchard_lane (anchors : option (Z -> bool)) (plan : option (PoolPlan (H := Ho))) (from_state : State)
    (commitments : list (Slot Ho)) (cp_pos : gmap Z Z) (missing : list (Z * Cp)) (tree : StoreO) : result SqliteClientError (StoreO * Z * (Z * Z)) :=
  pool_lane PO anchors (mkLaneIn "orchard" plan (tree_size (PoolLib := PO) from_state.(final_orchard_tree)) from_state.(final_orchard_tree)
    from_state.(block_height) commitments cp_pos missing) tree.
Definition ironwood_lane (anchors : option (Z -> bool)) (from_state : State)
    (commitments : list (Slot Ho)) (cp_pos : gmap Z Z) (missing : list (Z * Cp)) (tree : StoreO) : result SqliteClientError (StoreO * Z * (Z * Z)) :=
  pool_lane PI anchors (mkLaneIn "ironwood" None (tree_size (PoolLib := PI) from_state.(final_ironwood_tree)) from_state.(final_ironwood_tree)
    from_state.(block_height) commitments cp_pos missing) tree.

(** The transaction. *)
Definition put_tx (anchors : option (Z -> bool)) (plans : option (PoolPlan * PoolPlan)) (cs co : Census.ShardCensus)
    (sap : StoreS) (orch iw : StoreO) (from_state : State) (blocks : list Block) (d : W) : result SqliteClientError (W * TxOut) :=
  let? (d, rows) := put_blocks_rows from_state blocks d in
  match rows.(last_scanned_height) with
  | None => Ok (d, mkTxOut sap orch iw cs co 0)
  | Some last_height =>
    let? tip := chain_height d in
    let deep := is_deep_history tip last_height in
    let sapc := doom_slots anchors deep rows.(sapling_commitments) in
    let orchc := doom_slots anchors deep rows.(orchard_commitments) in
    let iwc := doom_slots anchors deep rows.(ironwood_commitments) in
    let sap_start := tree_size (PoolLib := PS) from_state.(final_sapling_tree) in
    let orch_start := tree_size (PoolLib := PO) from_state.(final_orchard_tree) in
    let iw_start := tree_size (PoolLib := PI) from_state.(final_ironwood_tree) in
    let sap_cp := stream_checkpoint_positions sap_start sapc in
    let orch_cp := stream_checkpoint_positions orch_start orchc in
    let iw_cp := stream_checkpoint_positions iw_start iwc in
    let '(es, eo, ei) := batch_ensure_heights (btree_entries sap_cp).*1 (btree_entries orch_cp).*1 (btree_entries iw_cp).*1
                           anchors (from_state.(block_height) + 1, last_height) in
    let ms := ensure_checkpoints (PoolLib := PS) es sap_cp from_state.(final_sapling_tree) in
    let mo := ensure_checkpoints (PoolLib := PO) eo orch_cp from_state.(final_orchard_tree) in
    let mi := ensure_checkpoints (PoolLib := PI) ei iw_cp from_state.(final_ironwood_tree) in
    let notes := rows.(row_note_positions) in
    let cs := Census.feed sap_start (Z.of_nat (length sapc)) (notes_of Sapling notes) cs in
    let co := Census.feed orch_start (Z.of_nat (length orchc)) (notes_of Orchard notes) co in
    let? (sap, ds, _) := sapling_lane anchors (fst <$> plans) from_state sapc sap_cp ms sap in
    let? (orch, do, _) := orchard_lane anchors (snd <$> plans) from_state orchc orch_cp mo orch in
    let? (iw, di, _) := ironwood_lane anchors from_state iwc iw_cp mi iw in
    let? (d, sap) := @flushed _ _ PS.(pl_shard) PS.(pl_db) sap d in
    let? (d, orch) := @flushed _ _ PO.(pl_shard) PO.(pl_db) orch d in
    let? (d, iw) := @flushed _ _ PI.(pl_shard) PI.(pl_db) iw d in
    let? d := notify_scan_complete (from_state.(block_height) + 1, last_height + 1) notes d in
    Ok (d, mkTxOut sap orch iw cs co (ds + do + di))
  end.

(** The clean-up after the commit. *)
Fixpoint delete_spans (pool : ShieldedPool) (spans : list (Z * (Z * Z))) : M (W := W) unit :=
  match spans with
  | [] => ret tt
  | (shard, span) :: spans' => delete_rows_in fault pool shard span ;;; delete_spans pool spans'
  end.

Definition add_verdicts (totals : (Z * Z) * (Z * Z)) (sp : PoolPlan (H := Hs)) (op : PoolPlan (H := Ho)) : (Z * Z) * (Z * Z) :=
  ((totals.1.1 + Z.of_nat (length sp.(grafts)), totals.1.2 + sp.(fallbacks)),
   (totals.2.1 + Z.of_nat (length op.(grafts)), totals.2.2 + op.(fallbacks))).

(** [sparse_put_blocks].  On an error the state in memory is dropped with its range. *)
Definition sparse_put_blocks (sparse : SparseTreeState) (from_state : State) (blocks : list Block) : M (W := W) SparseTreeState :=
  match head blocks with
  | None => ret sparse
  | Some initial_block =>
    if negb (sequential from_state initial_block) then fail NonSequentialBlocks
    else
      let anchors := sparse.(anchor_retention) in
      let! sap := @seeded _ _ PS.(pl_shard) PS.(pl_db) pl_cap anchors sparse.(sapling) in
      let! orch := @seeded _ _ PO.(pl_shard) PO.(pl_db) pl_cap anchors sparse.(orchard) in
      let! iw := @seeded _ _ PI.(pl_shard) PI.(pl_db) pl_cap anchors sparse.(ironwood) in
      let! planned := plan_phase sparse.(graft) from_state blocks anchors sap orch in
      let plans := plans_of planned in
      let! out := transactionally (put_tx anchors plans sparse.(census_sapling) sparse.(census_orchard) sap orch iw from_state blocks) in
      let done := mkSparse (Some out.(tx_sap)) (Some out.(tx_orch)) (Some out.(tx_iw)) anchors ((fun p => p.1.1) <$> planned)
                    out.(tx_census_sap) out.(tx_census_orch) sparse.(graft_verdict_totals) in
      match plans with
      | None => ret done
      | Some (sp, op) =>
        delete_spans Sapling sp.(cleanup_spans) ;;;
        delete_spans Orchard op.(cleanup_spans) ;;;
        ret (done <| graft_verdict_totals := add_verdicts sparse.(graft_verdict_totals) sp op |>)
      end
  end.

(** [finish_graft_blocking], at the end of a range that drained without error. *)
Definition take_rows {H} (f : option (FeedAction H Retention)) : list (BufferRow H) :=
  match f with Some (Build rows) => rows | _ => [] end.

Definition flush_inserted {T C} `{!Shard T} `{!TreeDb W T C} (inserted : option (SparseShardStore T C)) (d : W) : result SqliteClientError W :=
  match inserted with
  | Some tree => let? (d, _) := flushed tree d in Ok d
  | None => Ok d
  end.

Definition finish_tx (anchors : option (Z -> bool)) (sap_rows : list (BufferRow Hs)) (orch_rows : list (BufferRow Ho))
    (sap : StoreS) (orch : StoreO) (d : W) : result SqliteClientError (W * unit) :=
  let? inserted := insert_deferred_rows PS anchors "finish sapling" sap_rows sap in
  let? d := @flush_inserted _ _ PS.(pl_shard) PS.(pl_db) inserted d in
  let? inserted := insert_deferred_rows PO anchors "finish orchard" orch_rows orch in
  let? d := @flush_inserted _ _ PO.(pl_shard) PO.(pl_db) inserted d in
  Ok (d, tt).

Definition finish_err (c e : string) : SlipstreamError := Wallet ("finish_graft " +:+ c +:+ ": " +:+ e).

Definition finish_graft_blocking (sparse : SparseTreeState) : M (W := W) (result SlipstreamError unit) :=
  match sparse.(graft) with
  | None => ret (Ok tt)
  | Some ctx =>
    let sap_rows := take_rows (ctx.(acc_sapling) ≫= (fun a => (finish a).2)) in
    let orch_rows := take_rows (ctx.(acc_orchard) ≫= (fun a => (finish a).2)) in
    if bool_decide (sap_rows = []) && bool_decide (orch_rows = []) then ret (Ok tt)
    else
      match sparse.(sapling), sparse.(orchard) with
      | Some sap, Some orch =>
        let! committed := attempt (transactionally (finish_tx sparse.(anchor_retention) sap_rows orch_rows sap orch)) in
        match committed with
        | Err e => ret (Err (finish_err "txn" (sqlite_text e)))
        | Ok _ =>
          let! cleaned := attempt (delete_spans Sapling (option_list (fed_span sap_rows))) in
          match cleaned with
          | Err e => ret (Err (finish_err "cleanup sapling" (sqlite_text e)))
          | Ok _ =>
            let! cleaned := attempt (delete_spans Orchard (option_list (fed_span orch_rows))) in
            match cleaned with
            | Err e => ret (Err (finish_err "cleanup orchard" (sqlite_text e)))
            | Ok _ => ret (Ok tt)
            end
          end
        end
      | _, _ => ret (Err (finish_err "trees" "finish rows without seeded trees"))
      end
  end.
End Call.

(** ** What a pool's lane keeps and adds *)

Section Lane.
Context {W H T C Fr : Type} `{!EqDecision H} `{!HashSer H} {PL : PoolLib W H T C Fr}.
Context (covers : T -> Z -> Prop).
Abbreviation Store := (SparseShardStore T C).

(** The tree in memory has the commitment at [p], itself or under a root. *)
Definition holds (s : Store) (p : Z) : Prop := exists t, s.(shards) !! shard_of p = Some t /\ covers t p.

(** What the call relies on of the tree library: a build covers the positions it is given; the
    tree reaches its store only through the store's own operations; an insert keeps what is there
    and adds what it is given; a root put as a shard stands for the whole shard. *)
Class TreeLaws : Prop := {
  build_covers start (slots : list (Slot H)) p : Forall is_Some slots -> start <= p < start + Z.of_nat (length slots) ->
    exists t cps, (t, cps) ∈ build start slots /\ covers t p;
  frontier_steps fr r s s' : insert_frontier fr r s = Ok s' -> exists ops, s' = foldl step s ops;
  frontier_keeps fr r s s' p : insert_frontier fr r s = Ok s' -> holds s p -> holds s' p;
  retain_steps h s s' : tree_ensure_retained h s = Ok s' -> exists ops, s' = foldl step s ops;
  retain_keeps h s s' p : tree_ensure_retained h s = Ok s' -> holds s p -> holds s' p;
  tree_steps t cps s s' : insert_tree t cps s = Ok s' -> exists ops, s' = foldl step s ops;
  tree_adds t cps s s' p : insert_tree t cps s = Ok s' -> holds s p \/ covers t p -> holds s' p;
  graft_whole idx root t : graft_leaf idx root = Some t -> root_index t = idx /\ forall p, shard_of p = idx -> covers t p;
}.
Context {TL : TreeLaws}.

(** [s'] comes from [s] by the store's operations, keeps what [s] held and holds what is in [P]. *)
Definition evolves (P : Z -> Prop) (s s' : Store) : Prop :=
  (exists ops, s' = foldl step s ops) /\ forall p, holds s p \/ P p -> holds s' p.

Lemma evolves_refl (P : Z -> Prop) s : (forall p, P p -> holds s p) -> evolves P s s.
Proof. intros HP. split; [by exists []|]. intros p [?|?]; auto. Qed.

Lemma evolves_trans (P1 P2 : Z -> Prop) s1 s2 s3 : evolves P1 s1 s2 -> evolves P2 s2 s3 -> evolves (fun p => P1 p \/ P2 p) s1 s3.
Proof.
  intros [[o1 ->] H1] [[o2 ->] H2]. split; [exists (o1 ++ o2); by rewrite foldl_app|]. intros p Hp. apply H2.
  destruct Hp as [Hp|[Hp|Hp]]; [left; apply H1; by left|left; apply H1; by right|by right].
Qed.

Lemma evolves_mono (P Q : Z -> Prop) s s' : (forall p, Q p -> P p) -> evolves P s s' -> evolves Q s s'.
Proof. intros HQ [Ho Hh]. split; [done|]. intros p [?|?]; apply Hh; auto. Qed.

Lemma evolves_keep s s' : (exists ops, s' = foldl step s ops) -> (forall p, holds s p -> holds s' p) -> evolves (fun _ => False) s s'.
Proof. intros Ho Hh. split; [done|]. intros p [?|[]]; auto. Qed.

Lemma labelled_ok {A} label (r : result string A) a : labelled label r = Ok a -> r = Ok a.
Proof. destruct r; by intros [= <-]. Qed.

Lemma retain_all_evolves label hs s s' : retain_all PL label hs s = Ok s' -> evolves (fun _ => False) s s'.
Proof.
  revert s. induction hs as [|h hs IH]; intros s; simpl; [intros [= <-]; by apply evolves_refl|].
  destruct (tree_ensure_retained h s) as [s1|] eqn:E; [|done]. simpl. intros E2. eapply evolves_mono; [|eapply evolves_trans].
  2:{ apply evolves_keep; [by eapply retain_steps|]. intros p. by eapply retain_keeps. }
  2:{ by apply IH. }
  done.
Qed.

Lemma insert_all_evolves anchors l1 l2 subs s s' : insert_all PL anchors l1 l2 subs s = Ok s' ->
  evolves (fun p => exists t cps, (t, cps) ∈ subs /\ covers t p) s s'.
Proof.
  revert s. induction subs as [|[t cps] subs IH]; intros s; simpl.
  { intros [= <-]. apply evolves_refl. intros p (t & cps & Hin & _). by apply elem_of_nil in Hin. }
  destruct (retain_all PL l1 _ s) as [s1|] eqn:E1; [|done]. simpl.
  destruct (insert_tree t cps s1) as [s2|] eqn:E2; [|done]. simpl. intros E3.
  eapply evolves_mono; [|eapply evolves_trans; [by eapply retain_all_evolves|eapply evolves_trans; [|by apply IH]]].
  2:{ split; [by eapply tree_steps|]. intros p. exact (tree_adds _ _ _ _ p E2). }
  intros p (t' & cps' & [[= -> ->]|Hin]%elem_of_cons & Hc); right; [by left|right; eauto].
Qed.

Lemma install_grafts_evolves gs s s' : install_grafts PL gs s = Ok s' -> evolves (fun p => shard_of p ∈ gs.*1) s s'.
Proof.
  revert s. induction gs as [|[idx root] gs IH]; intros s; simpl.
  { intros [= <-]. apply evolves_refl. intros p Hin. by apply elem_of_nil in Hin. }
  destruct (graft_leaf idx root) as [t|] eqn:Eg; [|done]. intros E. destruct (graft_whole _ _ _ Eg) as [Hidx Hcov].
  eapply evolves_mono; [|eapply (evolves_trans (fun p => shard_of p = idx)); [|by apply IH]].
  - intros p Hp. csimpl in Hp. apply elem_of_cons in Hp as [Hp|Hp]; auto.
  - split; [by exists [OPutShard t]|]. intros p Hp. unfold holds, put_shard. simpl. rewrite Hidx.
    destruct (decide (idx = shard_of p)) as [->|Hne]; [exists t; rewrite lookup_insert_eq; auto|].
    destruct Hp as [(t' & Ht' & Hc)|Hp]; [|congruence]. exists t'. by rewrite lookup_insert_ne.
Qed.

Lemma add_missing_evolves name ms s s' : add_missing name ms s = Ok s' -> evolves (fun _ => False) s s'.
Proof.
  unfold add_missing. destruct (min_checkpoint_id s) as [[m|]|]; [|done..]. intros [= <-].
  assert (forall s, evolves (fun _ => False) s (foldl (fun tree (x : Z * Cp) => if m <? x.1 then add_checkpoint x.1 x.2 tree else tree) s ms)) as Hg; [|apply Hg].
  induction ms as [|x ms IH]; intros s1; simpl; [by apply evolves_refl|].
  destruct (m <? x.1); [|apply IH]. eapply evolves_mono; [|eapply evolves_trans; [|apply IH]]; [done|].
  apply evolves_keep; [by exists [OAddCheckpoint x.1 x.2]|done].
Qed.

Lemma downgrade_shape anchors c (slots : list (Slot H)) :
  length (downgrade_doomed_checkpoints anchors c slots).1 = length slots /\
  (Forall is_Some slots -> Forall is_Some (downgrade_doomed_checkpoints anchors c slots).1).
Proof.
  induction slots as [|[[h r]|] slots [IH1 IH2]]; simpl; [done| |];
    destruct (downgrade_doomed_checkpoints anchors c slots) as [cs n]; simpl in *.
  - destruct (downgrade_if_doomed anchors c r) as [r' hit]. simpl. split; [by rewrite IH1|].
    intros [_ Hf]%Forall_cons. constructor; [eauto|auto].
  - split; [by rewrite IH1|]. intros [[? ?] _]%Forall_cons. done.
Qed.

Lemma build_segments_covers anchors cutoff segs out n : build_segments PL anchors cutoff segs = (out, n) ->
  Forall (fun seg => Forall is_Some seg.2) segs -> forall seg p, seg ∈ segs -> seg.1 <= p < seg.1 + Z.of_nat (length seg.2) ->
  exists t cps, (t, cps) ∈ out /\ covers t p.
Proof.
  revert out n. induction segs as [|[start rows] segs IH]; intros out n; simpl; [intros _ _ seg p Hin; by apply elem_of_nil in Hin|].
  destruct (match cutoff with Some c => downgrade_doomed_checkpoints anchors c rows | None => (rows, 0) end) as [rows' k] eqn:Er.
  destruct (build_segments PL anchors cutoff segs) as [out' m] eqn:Eb. intros [= <- _] [Hrows Hsegs]%Forall_cons seg p Hin Hp.
  assert (length rows' = length rows /\ Forall is_Some rows') as [Hl Hf].
  { destruct cutoff as [c|]; [|by simplify_eq]. destruct (downgrade_shape anchors c rows) as [D1 D2]. rewrite Er in D1, D2. auto. }
  apply elem_of_cons in Hin as [->|Hin].
  - destruct (build_covers start rows' p Hf) as (t & cps & Ht & Hc); [simpl in Hp; lia|]. exists t, cps. split; [|done]. apply elem_of_app. by left.
  - destruct (IH out' m eq_refl Hsegs seg p Hin Hp) as (t & cps & Ht & Hc). exists t, cps. split; [|done]. apply elem_of_app. by right.
Qed.

(** The positions a lane is given: its stream without a plan, what the plan holds with one. *)
Definition given (i : LaneIn H Fr) (p : Z) : Prop :=
  match i.(li_plan) with
  | None => i.(li_start) <= p < i.(li_start) + Z.of_nat (length i.(li_commitments))
  | Some plan => plan_holds plan p
  end.
Definition lane_filled (i : LaneIn H Fr) : Prop :=
  match i.(li_plan) with None => Forall is_Some i.(li_commitments) | Some plan => filled plan end.

Lemma lane_built_evolves anchors i s subs s1 n : lane_filled i -> lane_built PL anchors i s = Ok (subs, s1, n) ->
  exists P, evolves P s s1 /\ forall p, given i p -> P p \/ exists t cps, (t, cps) ∈ subs /\ covers t p.
Proof.
  unfold lane_filled, given, lane_built. destruct (li_plan i) as [plan|]; intros Hf.
  - destruct (build_segments PL anchors _ (segments plan)) as [out k] eqn:Eb.
    destruct (install_grafts PL (grafts plan) s) as [s2|] eqn:Eg; [|done]. simpl. intros [= -> -> _].
    exists (fun p => shard_of p ∈ (grafts plan).*1). split; [by apply install_grafts_evolves|].
    intros p [(seg & Hin & Hp)|Hp]; [right|by left]. by eapply build_segments_covers.
  - destruct (match doomed_checkpoint_cutoff _ _ _ with Some c => _ | None => _ end) as [cs k] eqn:Ec. intros [= <- <- _].
    assert (length cs = length i.(li_commitments) /\ Forall is_Some cs) as [Hl Hs].
    { destruct (doomed_checkpoint_cutoff _ _ _) as [c|]; [|by simplify_eq].
      destruct (downgrade_shape anchors c i.(li_commitments)) as [D1 D2]. rewrite Ec in D1, D2. auto. }
    exists (fun _ => False). split; [by apply evolves_refl|]. intros p Hp. right. apply build_covers; [done|lia].
Qed.

Lemma pool_lane_evolves anchors i s s' n a : lane_filled i -> pool_lane PL anchors i s = Ok (s', n, a) -> evolves (given i) s s'.
Proof.
  intros Hf. unfold pool_lane. destruct (lane_built PL anchors i s) as [[[subs s1] k]|] eqn:E1; [|done]. simpl.
  destruct (insert_frontier _ _ s1) as [s2|] eqn:E2; [|done]. simpl.
  destruct (if should_retain_anchor anchors i.(li_frontier_id) then _ else _) as [s3|] eqn:E3; [|done]. simpl.
  destruct (insert_all PL anchors _ _ subs s3) as [s4|] eqn:E4; [|done]. simpl.
  destruct (add_missing _ _ s4) as [s5|] eqn:E5; [|done]. simpl. intros [= <- _ _].
  destruct (lane_built_evolves _ _ _ _ _ _ Hf E1) as (P & HP & Hg).
  assert (evolves (fun _ => False) s2 s3) as H3.
  { destruct (should_retain_anchor anchors _); [|simplify_eq; by apply evolves_refl]. apply labelled_ok in E3.
    apply evolves_keep; [by eapply retain_steps|]. intros p. by eapply retain_keeps. }
  assert (evolves (fun _ => False) s1 s2) as H2.
  { apply evolves_keep; [by eapply frontier_steps|]. intros p. by eapply frontier_keeps. }
  eapply evolves_mono; [|eapply evolves_trans; [exact HP|]; eapply evolves_trans; [exact H2|]; eapply evolves_trans; [exact H3|];
    eapply evolves_trans; [by eapply insert_all_evolves|by eapply add_missing_evolves]].
  intros p Hp. destruct (Hg p Hp) as [?|?]; [by left|]. right; right; right; by left.
Qed.

(** A run of rows, one per position from the first. *)
Definition run_of (rows : list (BufferRow H)) (p : Z) : Prop := exists row, row ∈ rows /\ pos row = p.

Lemma insert_deferred_evolves anchors label rows s a s' :
  pos <$> rows = seqZ a (Z.of_nat (length rows)) -> insert_deferred_rows PL anchors label rows s = Ok s' ->
  match s' with Some s' => evolves (run_of rows) s s' | None => rows = [] end.
Proof.
  intros Hrows. unfold insert_deferred_rows. destruct rows as [|row rows]; [by intros [= <-]|]. cbn [rows_to_segment].
  set (all := row :: rows) in *. set (slots := (fun row : BufferRow H => Some (row.1.2, row.2)) <$> all : list (Slot H)).
  set (slots' := match deferred_build_cutoff _ slots with Some c => _ | None => slots end).
  destruct (insert_all PL anchors _ _ (build (pos row) slots') s) as [s1|] eqn:Ei; [|done]. cbn [result_bind]. intros [= <-].
  eapply evolves_mono; [|by eapply insert_all_evolves].
  assert (length slots' = length all /\ Forall is_Some slots') as [Hlen Hsome].
  { assert (Forall is_Some slots) as Hf by (apply Forall_fmap, Forall_forall; intros; cbn; eauto).
    unfold slots'. destruct (deferred_build_cutoff _ slots) as [c|]; [|split; [by unfold slots; rewrite length_fmap|done]].
    destruct (downgrade_shape anchors c slots) as [D1 D2]. split; [by rewrite D1; unfold slots; rewrite length_fmap|by apply D2]. }
  assert (pos row = a) as Ha.
  { unfold all in Hrows. cbn [length] in Hrows. rewrite seqZ_cons in Hrows by lia. csimpl in Hrows. by injection Hrows. }
  intros p (r & Hr & <-). apply build_covers; [done|]. rewrite Hlen, Ha. apply elem_of_seqZ. rewrite <-Hrows.
  apply list_elem_of_fmap. eauto.
Qed.

Lemma fed_span_run i (rows : list (BufferRow H)) x p : one_shard i rows -> x ∈ option_list (fed_span rows) -> x.2.1 <= p < x.2.2 -> run_of rows p.
Proof.
  intros Hone Hx Hp. unfold fed_span in Hx. destruct (head rows) as [f|] eqn:Ef; [|by apply elem_of_nil in Hx].
  destruct (last rows) as [l|] eqn:El; [|by apply elem_of_nil in Hx].
  destruct (one_shard_bounds i rows f l Hone Ef El) as (_ & _ & Hpos).
  cbn in Hx. apply list_elem_of_singleton in Hx as ->. by apply Hpos.
Qed.

(** The rows the range's end builds are one run of the open shard. *)
Lemma taken_one_shard (acc : option (ShardAccumulator (H := H) (R := Retention))) z : from_option (fun a => acc_fits a z) True acc ->
  exists i, one_shard i (take_rows (acc ≫= (fun a => (finish a).2))).
Proof.
  assert (exists i, one_shard i ([] : list (BufferRow H))) as Hnil by (exists 0; split; [by exists 0|constructor]).
  destruct acc as [a|]; [|done]. intros (_ & o & Ho & Hf). cbn. unfold finish. rewrite Ho. cbn.
  destruct (bool_decide _); cbn; [done|]. exists o.(o_index). by eapply open_fits_one_shard.
Qed.

(** *** Against the database *)

(** What a pool's tables hold. *)
Record TreeView := mkView { v_shards : W -> gmap Z T; v_cap : W -> C; v_cps : W -> gmap Z Cp; v_retained : W -> gset Z }.
Context (v : TreeView) {DL : TreeDbLaws v.(v_shards) v.(v_cap) v.(v_cps) v.(v_retained)}.

Definition same_tree (d d' : W) : Prop :=
  v.(v_shards) d' = v.(v_shards) d /\ v.(v_cap) d' = v.(v_cap) d /\ v.(v_cps) d' = v.(v_cps) d.
Definition in_tree (d : W) (p : Z) : Prop := exists t, v.(v_shards) d !! shard_of p = Some t /\ covers t p.

(** A store with nothing left to write. *)
Definition in_step (s : Store) (d : W) : Prop :=
  mirrors (shards_of := v.(v_shards)) (cap_of := v.(v_cap)) (cps_of := v.(v_cps)) s d /\ s.(dirty_shards) = ∅.

Lemma same_tree_trans d1 d2 d3 : same_tree d1 d2 -> same_tree d2 d3 -> same_tree d1 d3.
Proof. intros (A & B & D) (A' & B' & D'). unfold same_tree. by rewrite A', B', D'. Qed.

Lemma in_step_same s d d' : same_tree d d' -> in_step s d -> in_step s d'.
Proof. intros (E1 & E2 & E3) [[] Hd]. split; [|done]. split; [by rewrite E3|by rewrite E1|by rewrite E2|done..]. Qed.

Lemma in_tree_same d d' p : same_tree d d' -> in_tree d' p <-> in_tree d p.
Proof. intros (E1 & _). unfold in_tree. by rewrite E1. Qed.

Lemma in_step_holds s d p : in_step s d -> holds s p <-> in_tree d p.
Proof. intros [[] Hd]. unfold holds, in_tree. rewrite m_shards0; [done|]. by rewrite Hd. Qed.

Lemma seed_in_step cap anchors d s : seed cap anchors d = Ok s -> in_step s d.
Proof.
  intros E. split; [by eapply seed_mirrors|]. unfold seed in E.
  repeat match type of E with result_bind ?r _ = _ => destruct r; simpl in E; [|done] end. by simplify_eq.
Qed.

Lemma flushed_in_step P s d d1 s1 d2 s2 : in_step s d -> same_tree d d1 -> evolves P s s1 -> flushed s1 d1 = Ok (d2, s2) ->
  in_step s2 d2 /\ forall p, in_tree d p \/ P p -> in_tree d2 p.
Proof.
  intros Hs Hsame [[ops ->] Hh] Hf. pose proof (in_step_same _ _ _ Hsame Hs) as [Hm _]. unfold flushed in Hf.
  destruct (flush (foldl step s ops) d1) as [d' [s'|]] eqn:E; simplify_eq.
  apply flush_agrees in E as (-> & Hm2 & (Ha & _ & _ & Hd & _) & _); [|by apply steps_mirror].
  split; [by split|]. intros p Hp. rewrite <-(in_step_holds s d p Hs) in Hp. apply Hh in Hp as (t & Ht & Hc).
  exists t. split; [|done]. by rewrite <-Ha.
Qed.

(** A change that a flush of the pool cannot make, as its two calls do not make it. *)
Definition spares (R : W -> W -> Prop) : Prop :=
  (forall ts c rm add d d' r, put_shards ts c rm add d = (d', r) -> R d d') /\
  (forall h d d' r, ensure_retained h d = (d', r) -> R d d').

Lemma spares_mono (R R' : W -> W -> Prop) : (forall d d', R d d' -> R' d d') -> spares R -> spares R'.
Proof. intros Hm [H1 H2]. split; eauto. Qed.

Lemma mark_retained_spares R marks d d' r : PreOrder R -> spares R -> mark_retained marks d = (d', r) -> R d d'.
Proof.
  intros HR [_ He]. revert d. induction marks as [|h marks IH]; intros d; simpl; [intros [= <- _]; reflexivity|].
  destruct (ensure_retained h d) as [d1 [u|]] eqn:E; [|intros [= <- _]; by eapply He].
  intros E2. transitivity d1; [by eapply He|by apply IH].
Qed.

Lemma flushed_spares R s d d' s' : PreOrder R -> spares R -> flushed s d = Ok (d', s') -> R d d'.
Proof.
  intros HR Hsp. unfold flushed, flush. destruct (checkpoint_delta s) as [rm add]. destruct (collect_dirty _ s); [|done].
  destruct (put_shards _ _ rm add d) as [d1 [u|]] eqn:E1; [|done].
  destruct (mark_retained _ d1) as [d2 [u2|]] eqn:E2; [|done]. intros [= <- _].
  transitivity d1; [by eapply (proj1 Hsp)|by eapply mark_retained_spares].
Qed.

(** The insert and flush of deferred rows. *)
Lemma deferred_in_step R anchors label rows a s d d' o : PreOrder R -> spares R -> in_step s d ->
  pos <$> rows = seqZ a (Z.of_nat (length rows)) -> insert_deferred_rows PL anchors label rows s = Ok o ->
  flush_inserted o d = Ok d' -> R d d' /\ forall p, in_tree d p \/ run_of rows p -> in_tree d' p.
Proof.
  intros HR Hsp Hst Hrows Hi. apply insert_deferred_evolves with (a := a) in Hi; [|done]. unfold flush_inserted. destruct o as [s1|].
  - destruct (flushed s1 d) as [[d1 s2]|] eqn:Ef; [|done]. intros [= <-]. split; [by eapply flushed_spares|].
    by eapply flushed_in_step.
  - subst rows. intros [= <-]. split; [reflexivity|]. intros p [|(r & Hr & _)]; [done|]. by apply elem_of_nil in Hr.
Qed.
End Lane.
Arguments TreeView : clear implicits.

(** ** Nothing scanned is lost

    A block is scanned once the wallet's scan queue says so; from then on no pass fetches it
    again.  So at every moment a crash could expose, a commitment of a scanned block must be in
    its pool's tree or in the buffer table. *)

Section Safety.
Context {W Hs Ho Ts To Cs Co Fs Fo : Type} `{!EqDecision Hs} `{!HashSer Hs} `{!EqDecision Ho} `{!HashSer Ho}.
Context (PS : PoolLib W Hs Ts Cs Fs) (PO PI : PoolLib W Ho To Co Fo) `{!WalletLib W Hs Ho Fs Fo}.
Context (fault : nat -> option string).
Abbreviation Block := (ScannedBlock Hs Ho).
Abbreviation State := (ChainState Fs Fo).
Abbreviation Sparse := (SparseTreeState (Hs := Hs) (Ho := Ho) (Ts := Ts) (To := To) (Cs := Cs) (Co := Co)).

(** How to read the wallet: each pool's tree, and which heights are scanned. *)
Record WalletView := mkWalletView {
  cover_s : Ts -> Z -> Prop; cover_o : To -> Z -> Prop; cover_i : To -> Z -> Prop;
  view_s : TreeView W Ts Cs; view_o : TreeView W To Co; view_i : TreeView W To Co;
  scanned : W -> Z -> Prop;
}.
Context (V : WalletView).

Definition covered (pool : ShieldedPool) (d : W) (p : Z) : Prop :=
  match pool with
  | Sapling => in_tree V.(cover_s) V.(view_s) d p
  | Orchard => in_tree V.(cover_o) V.(view_o) d p
  | Ironwood => in_tree V.(cover_i) V.(view_i) d p
  end.

(** A step that leaves a pool's tree alone and marks nothing scanned. *)
Definition quiet {T C} (v : TreeView W T C) (d d' : W) : Prop := same_tree v d d' /\ forall h, scanned V d' h -> scanned V d h.
Definition quiet2 {T1 C1 T2 C2} (v1 : TreeView W T1 C1) (v2 : TreeView W T2 C2) (d d' : W) : Prop := quiet v1 d d' /\ quiet v2 d d'.

#[local] Instance quiet2_preorder {T1 C1 T2 C2} (v1 : TreeView W T1 C1) (v2 : TreeView W T2 C2) : PreOrder (quiet2 v1 v2).
Proof.
  split; [by intros d|]. intros d1 d2 d3 [[A1 A2] [B1 B2]] [[A1' A2'] [B1' B2']].
  split; (split; [by eapply same_tree_trans|auto]).
Qed.

(** What the call relies on of the wallet library: each pool's tables are their own; the rows
    stage writes no tree, marks nothing scanned, and hands back the blocks' commitments in
    order; the scan-queue update marks the heights it is given. *)
Class WalletLaws : Prop := {
  laws_s :: TreeDbLaws (Shard0 := PS.(pl_shard)) (TreeDb0 := PS.(pl_db)) V.(view_s).(v_shards) V.(view_s).(v_cap) V.(view_s).(v_cps) V.(view_s).(v_retained);
  laws_o :: TreeDbLaws (Shard0 := PO.(pl_shard)) (TreeDb0 := PO.(pl_db)) V.(view_o).(v_shards) V.(view_o).(v_cap) V.(view_o).(v_cps) V.(view_o).(v_retained);
  laws_i :: TreeDbLaws (Shard0 := PI.(pl_shard)) (TreeDb0 := PI.(pl_db)) V.(view_i).(v_shards) V.(view_i).(v_cap) V.(view_i).(v_cps) V.(view_i).(v_retained);
  tree_s :: TreeLaws (PL := PS) V.(cover_s);
  tree_o :: TreeLaws (PL := PO) V.(cover_o);
  tree_i :: TreeLaws (PL := PI) V.(cover_i);
  spares_s : spares (PL := PS) (quiet2 V.(view_o) V.(view_i));
  spares_o : spares (PL := PO) (quiet2 V.(view_s) V.(view_i));
  spares_i : spares (PL := PI) (quiet2 V.(view_s) V.(view_o));
  rows_quiet fs bs d d' rows : put_blocks_rows fs bs d = Ok (d', rows) ->
    quiet V.(view_s) d d' /\ quiet V.(view_o) d d' /\ quiet V.(view_i) d d';
  rows_streams fs bs d d' rows : put_blocks_rows fs bs d = Ok (d', rows) ->
    rows.(sapling_commitments) = Some <$> sapling_stream bs /\ rows.(orchard_commitments) = Some <$> orchard_stream bs /\
    rows.(ironwood_commitments) = Some <$> ironwood_stream bs /\
    rows.(last_scanned_height) = b_height <$> last bs;
  notify_marks range notes d d' : notify_scan_complete range notes d = Ok d' ->
    same_tree V.(view_s) d d' /\ same_tree V.(view_o) d d' /\ same_tree V.(view_i) d d' /\
    forall h, scanned V d' h -> scanned V d h \/ range.1 <= h < range.2;
}.
Context {WL : WalletLaws}.

(** *** The transaction *)

Record stores_in_step (sap : SparseShardStore Ts Cs) (orch iw : SparseShardStore To Co) (d : W) : Prop := {
  step_s : in_step (PL := PS) V.(view_s) sap d;
  step_o : in_step (PL := PO) V.(view_o) orch d;
  step_i : in_step (PL := PI) V.(view_i) iw d;
}.

(** What the transaction is given per pool. *)
Definition given_tx (plans : option (PoolPlan (H := Hs) * PoolPlan (H := Ho))) (fs : State) (bs : list Block) (pool : ShieldedPool) (p : Z) : Prop :=
  match pool, plans with
  | Sapling, Some (sp, _) => plan_holds sp p
  | Orchard, Some (_, op) => plan_holds op p
  | Sapling, None => let s := tree_size (PoolLib := PS) fs.(final_sapling_tree) in s <= p < s + Z.of_nat (length (sapling_stream bs))
  | Orchard, None => let s := tree_size (PoolLib := PO) fs.(final_orchard_tree) in s <= p < s + Z.of_nat (length (orchard_stream bs))
  | Ironwood, _ => let s := tree_size (PoolLib := PI) fs.(final_ironwood_tree) in s <= p < s + Z.of_nat (length (ironwood_stream bs))
  end.

Lemma doom_slots_shape {H} anchors deep (str : list (H * Retention)) :
  length (doom_slots anchors deep (Some <$> str)) = length str /\ Forall is_Some (doom_slots anchors deep (Some <$> str)).
Proof.
  assert (Forall is_Some (Some <$> str : list (Slot H))) as Hsome by (apply Forall_fmap, Forall_forall; eauto).
  unfold doom_slots. destruct deep; [|split; [by rewrite length_fmap|done]].
  destruct (downgrade_shape anchors u32_max (Some <$> str)) as [-> D2]. split; [by rewrite length_fmap|auto].
Qed.

Lemma put_tx_spec anchors plans cs co sap orch iw fs bs d d' out :
  bs <> [] -> stores_in_step sap orch iw d -> from_option (fun p => filled p.1 /\ filled p.2) True plans ->
  put_tx PS PO PI anchors plans cs co sap orch iw fs bs d = Ok (d', out) ->
  stores_in_step out.(tx_sap) out.(tx_orch) out.(tx_iw) d' /\
  (forall pool p, covered pool d p \/ given_tx plans fs bs pool p -> covered pool d' p) /\
  (forall h, scanned V d' h -> scanned V d h \/ exists l, last bs = Some l /\ fs.(block_height) < h <= l.(b_height)).
Proof.
  intros Hbs [S1 S2 S3] Hfill. unfold put_tx, sapling_lane, orchard_lane, ironwood_lane. destruct (put_blocks_rows fs bs d) as [[d0 rows]|] eqn:Er; [|done].
  destruct (rows_quiet _ _ _ _ _ Er) as ([Q1 Q0] & [Q2 _] & [Q3 _]). destruct (rows_streams _ _ _ _ _ Er) as (R1 & R2 & R3 & R4).
  cbn [result_bind]. rewrite R4. destruct (last bs) as [l|] eqn:El; [|by apply last_None in El]. cbn [fmap option_fmap option_map].
  destruct (chain_height d0) as [tip|] eqn:Et; [|done]. cbn [result_bind]. rewrite R1, R2, R3.
  destruct (batch_ensure_heights _ _ _ _ _) as [[es eo] ei].
  destruct (pool_lane PS anchors _ sap) as [[[sap1 ds] a1]|] eqn:L1; [|done]. cbn [result_bind].
  destruct (pool_lane PO anchors _ orch) as [[[orch1 do] a2]|] eqn:L2; [|done]. cbn [result_bind].
  destruct (pool_lane PI anchors _ iw) as [[[iw1 di] a3]|] eqn:L3; [|done]. cbn [result_bind].
  destruct (flushed sap1 d0) as [[d1 sap2]|] eqn:F1; [|done]. cbn [result_bind].
  destruct (flushed orch1 d1) as [[d2 orch2]|] eqn:F2; [|done]. cbn [result_bind].
  destruct (flushed iw1 d2) as [[d3 iw2]|] eqn:F3; [|done]. cbn [result_bind].
  destruct (notify_scan_complete _ _ d3) as [d4|] eqn:N; [|done]. cbn [result_bind]. intros [= <- <-].
  apply (pool_lane_evolves V.(cover_s)) in L1; [|by destruct plans as [[]|]; [apply Hfill|apply doom_slots_shape]].
  apply (pool_lane_evolves V.(cover_o)) in L2; [|by destruct plans as [[]|]; [apply Hfill|apply doom_slots_shape]].
  apply (pool_lane_evolves V.(cover_i)) in L3; [|apply doom_slots_shape].
  destruct (flushed_spares _ _ _ _ _ _ spares_s F1) as [[X1o Z1] [X1i _]].
  destruct (flushed_spares _ _ _ _ _ _ spares_o F2) as [[X2s Z2] [X2i _]].
  destruct (flushed_spares _ _ _ _ _ _ spares_i F3) as [[X3s Z3] [X3o _]].
  destruct (notify_marks _ _ _ _ N) as (N1 & N2 & N3 & N4). cbn [fst snd] in N4.
  destruct (flushed_in_step V.(cover_s) V.(view_s) _ _ _ _ _ _ _ S1 Q1 L1 F1) as [I1 C1].
  destruct (flushed_in_step V.(cover_o) V.(view_o) _ _ _ _ _ _ _ S2 (same_tree_trans _ _ _ _ Q2 X1o) L2 F2) as [I2 C2].
  destruct (flushed_in_step V.(cover_i) V.(view_i) _ _ _ _ _ _ _ S3
    (same_tree_trans _ _ _ _ Q3 (same_tree_trans _ _ _ _ X1i X2i)) L3 F3) as [I3 C3].
  assert (same_tree V.(view_s) d1 d4) as T1 by (repeat (eapply same_tree_trans; [eassumption|]); done).
  assert (same_tree V.(view_o) d2 d4) as T2 by (repeat (eapply same_tree_trans; [eassumption|]); done).
  split; [split; [by eapply in_step_same|by eapply in_step_same|by eapply in_step_same]|]. split.
  - intros pool p Hp. destruct pool; cbn [covered] in *.
    + apply (in_tree_same _ _ _ _ _ T1). apply C1. destruct Hp as [|Hp]; [by left|right].
      unfold given_tx in Hp. unfold given. destruct plans as [[sp op]|]; [done|]. cbn. by rewrite (proj1 (doom_slots_shape _ _ _)).
    + apply (in_tree_same _ _ _ _ _ T2). apply C2. destruct Hp as [|Hp]; [by left|right].
      unfold given_tx in Hp. unfold given. destruct plans as [[sp op]|]; [done|]. cbn. by rewrite (proj1 (doom_slots_shape _ _ _)).
    + apply (in_tree_same _ _ _ _ _ N3). apply C3. destruct Hp as [|Hp]; [by left|right].
      unfold given_tx in Hp. unfold given. cbn. rewrite (proj1 (doom_slots_shape _ _ _)). by destruct plans as [[sp op]|].
  - intros h Hh. destruct (N4 h Hh) as [Hold|Hnew]; [left; auto|]. right. exists l. split; [done|lia].
Qed.

(** *** Crash points *)

(** The block a position's commitment is in. *)
Context (block_of : ShieldedPool -> Z -> Z).

Definition safe (t : Table) (d : W) : Prop :=
  forall pool p, scanned V d (block_of pool p) -> covered pool d p \/ buffered pool t p.

(** Every state of the file from [w] to [w'] satisfies [Q]. *)
Definition always (Q : Table -> W -> Prop) (w w' : World W) : Prop :=
  Q w'.(table) w'.(wallet) /\
  exists new, w'.(crashes) = new ++ w.(crashes) /\ Forall (fun c => Q c.1 c.2) new.

Lemma always_refl (Q : Table -> W -> Prop) w : Q w.(table) w.(wallet) -> always Q w w.
Proof. intros HQ. split; [done|]. by exists []. Qed.
Lemma always_trans Q w1 w2 w3 : always Q w1 w2 -> always Q w2 w3 -> always Q w1 w3.
Proof.
  intros [_ (n1 & C1 & F1)] [HQ (n2 & C2 & F2)]. split; [done|]. exists (n2 ++ n1). rewrite C2, C1, app_assoc.
  split; [done|]. by apply Forall_app.
Qed.
Lemma steps_always (P : Table -> Prop) (Q : Table -> W -> Prop) w w' : (forall t, P t -> Q t w.(wallet)) -> steps P w w' -> always Q w w'.
Proof.
  intros HPQ (E & HP & n & C & F). split; [rewrite E; auto|]. exists n. split; [done|].
  eapply Forall_impl; [exact F|]. intros [t d] [Ht Hd]. cbn [fst snd] in *. subst d. auto.
Qed.

Lemma safe_only_fed {H} (i : PoolIn (H := H)) t0 t d : only_fed i t0 t ->
  (forall p, i.(start_position) <= p < i.(start_position) + Z.of_nat (length i.(stream)) -> ~ scanned V d (block_of i.(pi_pool) p)) ->
  safe t0 d -> safe t d.
Proof.
  intros [Hk _] Hun Hsafe pool p Hsc. destruct (Hsafe pool p Hsc) as [|Hb]; [by left|right].
  unfold buffered in *. rewrite Hk; [done|]. intros [Hc Hp]. cbn [row_key fst snd] in Hc, Hp.
  apply pool_code_inj in Hc as ->. by eapply Hun.
Qed.

(** *** The plan phase *)

Definition in_call (fs : State) (bs : list Block) (h : Z) : Prop :=
  exists l, last bs = Some l /\ fs.(block_height) < h <= l.(b_height).
(** The call's blocks sit where the chain has them. *)
Definition placed (fs : State) (bs : list Block) : Prop :=
  forall pool p, in_call fs bs (block_of pool p) <-> given_tx None fs bs pool p.

Definition ctx_fits (ctx : GraftCtx (Hs := Hs) (Ho := Ho)) (zs zo : Z) : Prop :=
  from_option (fun a => acc_fits a zs) True ctx.(acc_sapling) /\ from_option (fun a => acc_fits a zo) True ctx.(acc_orchard).

Lemma length_doomed {H} anchors deep (str : list (H * Retention)) : length (doomed anchors deep str) = length str.
Proof. unfold doomed, doom_deep_history_stream. destruct deep; [by rewrite length_fmap|done]. Qed.

(** One pool's plan on the way. *)
Lemma plan_one {H} `{!EqDecision H} `{!HashSer H} (i : PoolIn (H := H)) acc (w w' : World W) r :
  well_keyed w.(table) -> safe w.(table) w.(wallet) -> from_option (fun a => acc_fits a i.(start_position)) True acc ->
  (forall p, i.(start_position) <= p < i.(start_position) + Z.of_nat (length i.(stream)) -> ~ scanned V w.(wallet) (block_of i.(pi_pool) p)) ->
  plan_pool fault acc i w = (w', r) ->
  always safe w w' /\ w'.(wallet) = w.(wallet) /\ only_fed i w.(table) w'.(table) /\
  forall acc' plan, r = Ok (acc', plan) ->
    acc_fits acc' (i.(start_position) + Z.of_nat (length i.(stream))) /\ exists acts, plan_sound i acts plan w'.(table).
Proof.
  intros Hk Hsf Hacc Hun E. assert (only_fed i w.(table) w.(table)) as H0 by done.
  pose proof (plan_pool_steps fault i w.(table) acc w Hk Hacc H0) as Hst. rewrite E in Hst. cbn [fst] in Hst.
  split; [|split; [apply Hst|split; [apply Hst|]]].
  - eapply steps_always; [|exact Hst]. intros t Ht. by eapply safe_only_fed.
  - intros acc' plan ->. destruct (plan_pool_sound fault i acc acc' plan w w' Hk Hacc E) as (Hfit & a & _ & Hps). eauto.
Qed.

Lemma plan_call_spec ctx fs bs anchors sap orch (w w' : World W) r :
  let zs := tree_size (PoolLib := PS) fs.(final_sapling_tree) in let zo := tree_size (PoolLib := PO) fs.(final_orchard_tree) in
  well_keyed w.(table) -> safe w.(table) w.(wallet) -> ctx_fits ctx zs zo -> placed fs bs ->
  (forall h, in_call fs bs h -> ~ scanned V w.(wallet) h) ->
  plan_call PS PO fault ctx fs bs anchors sap orch w = (w', r) ->
  always safe w w' /\ w'.(wallet) = w.(wallet) /\ well_keyed w'.(table) /\
  forall ctx' sp op, r = Ok (ctx', sp, op) ->
    ctx_fits ctx' (zs + Z.of_nat (length (sapling_stream bs))) (zo + Z.of_nat (length (orchard_stream bs))) /\
    (filled sp /\ filled op) /\
    (forall pool p, given_tx None fs bs pool p -> buffered pool w'.(table) p \/ given_tx (Some (sp, op)) fs bs pool p) /\
    (forall x, x ∈ sp.(cleanup_spans) -> span_held sp x) /\ (forall x, x ∈ op.(cleanup_spans) -> span_held op x).
Proof.
  intros zs zo Hk Hsf [Ha1 Ha2] Hpl Hun. unfold plan_call, bind at 1, read.
  destruct (chain_height w.(wallet)) as [tip|]; [|intros [= <- <-]; split_and!; [by apply always_refl|done..]].
  set (deep := match last bs with Some l => is_deep_history tip l.(b_height) | None => false end).
  unfold bind at 1. set (i1 := pool_in PS Sapling _ _ _ _ _ _ _ _). unfold bind at 1.
  assert (forall pool p, given_tx None fs bs pool p -> ~ scanned V w.(wallet) (block_of pool p)) as Hun'.
  { intros pool p Hp. apply Hun. by apply Hpl. }
  destruct (plan_pool fault ctx.(acc_sapling) i1 w) as [w1 r1] eqn:E1.
  destruct (plan_one i1 _ w w1 r1 Hk Hsf Ha1) as (A1 & W1 & O1 & P1); [|exact E1|].
  { intros p Hp. apply (Hun' Sapling). unfold i1 in Hp. cbn in Hp. by rewrite length_doomed in Hp. }
  destruct r1 as [[acc1 sp]|]; [|intros [= <- <-]; split_and!; [done|done|apply O1|done]].
  destruct (P1 _ _ eq_refl) as (F1 & acts1 & S1). clear P1.
  set (i2 := pool_in PO Orchard _ _ _ _ _ _ _ _). unfold bind at 1.
  destruct (plan_pool fault ctx.(acc_orchard) i2 w1) as [w2 r2] eqn:E2.
  destruct (plan_one i2 _ w1 w2 r2 (proj2 O1) (proj1 A1) Ha2) as (A2 & W2 & O2 & P2); [|exact E2|].
  { intros p Hp. rewrite W1. apply (Hun' Orchard). unfold i2 in Hp. cbn in Hp. by rewrite length_doomed in Hp. }
  assert (always safe w w2) as A by (by eapply always_trans).
  destruct r2 as [[acc2 op]|]; [|intros [= <- <-]; split_and!; [done|congruence|apply O2|done]].
  destruct (P2 _ _ eq_refl) as (F2 & acts2 & S2). clear P2. intros [= <- <-]. split_and!; [done|congruence|apply O2|].
  intros ctx' sp' op' [= <- <- <-]. destruct S1 as [R1 X1 _ L1]. destruct S2 as [R2 X2 _ L2]. split_and!; [..|exact X1|exact X2].
  - unfold i1 in F1. unfold i2 in F2. cbn [pool_in start_position stream] in F1, F2. rewrite length_doomed in F1. rewrite length_doomed in F2. by split.
  - done.
  - done.
  - intros pool p Hp. destruct pool; [| |by right].
    + destruct (R1 p) as [Hb|Hh]; [unfold i1; cbn; by rewrite length_doomed| |by right].
      left. unfold buffered in *. unfold i1 in Hb. cbn in Hb. rewrite (proj1 O2); [done|]. intros [Hc _]. done.
    + destruct (R2 p) as [Hb|Hh]; [unfold i2; cbn; by rewrite length_doomed|by left|by right].
Qed.

(** What the phase hands on, whether the range grafts or not. *)
Record plan_ready (planned : option (GraftCtx * PoolPlan * PoolPlan)) (fs : State) (bs : list Block) (zs zo : Z) (t : Table) : Prop := {
  pr_filled : from_option (fun p => filled p.1 /\ filled p.2) True (plans_of planned);
  pr_ctx ctx : (fun p => p.1.1) <$> planned = Some ctx -> ctx_fits ctx zs zo;
  pr_given pool p : given_tx None fs bs pool p -> buffered pool t p \/ given_tx (plans_of planned) fs bs pool p;
  pr_spans sp op : plans_of planned = Some (sp, op) ->
    (forall x, x ∈ sp.(cleanup_spans) -> span_held sp x) /\ (forall x, x ∈ op.(cleanup_spans) -> span_held op x);
}.

Lemma plan_phase_spec g fs bs anchors sap orch (w w' : World W) r :
  let zs := tree_size (PoolLib := PS) fs.(final_sapling_tree) in let zo := tree_size (PoolLib := PO) fs.(final_orchard_tree) in
  well_keyed w.(table) -> safe w.(table) w.(wallet) -> (forall ctx, g = Some ctx -> ctx_fits ctx zs zo) -> placed fs bs ->
  (forall h, in_call fs bs h -> ~ scanned V w.(wallet) h) ->
  plan_phase PS PO fault g fs bs anchors sap orch w = (w', r) ->
  always safe w w' /\ w'.(wallet) = w.(wallet) /\ well_keyed w'.(table) /\
  forall planned, r = Ok planned ->
    plan_ready planned fs bs (zs + Z.of_nat (length (sapling_stream bs))) (zo + Z.of_nat (length (orchard_stream bs))) w'.(table).
Proof.
  intros zs zo Hk Hsf Hctx Hpl Hun. unfold plan_phase. destruct g as [ctx|].
  - unfold bind. destruct (plan_call PS PO fault ctx fs bs anchors sap orch w) as [w5 r5] eqn:E5.
    destruct (plan_call_spec _ _ _ _ _ _ _ _ _ Hk Hsf (Hctx _ eq_refl) Hpl Hun E5) as (A5 & W5 & K5 & P5).
    destruct r5 as [[[ctx' sp1] op1]|]; intros [= <- <-]; (split_and!; [done..|]); [|done].
    destruct (P5 _ _ _ eq_refl) as (Q1 & Q2 & Q3 & Q4 & Q5). intros planned [= <-]. split; cbn.
    + done.
    + by intros ? [= <-].
    + done.
    + by intros sp1' op1' [= <- <-].
  - intros [= <- <-]. split_and!; [by apply always_refl|done..|]. intros planned [= <-]. split; cbn; [done..|auto|done].
Qed.

(** *** The clean-up *)

(** A delete is safe over positions that are in the tree or whose block is to be scanned again. *)
Lemma delete_rows_steps pool shard span d :
  (forall p, span.1 <= p < span.2 -> covered pool d p \/ ~ scanned V d (block_of pool p)) ->
  Steps (W := W) (fun t => safe t d /\ well_keyed t) (delete_rows_in fault pool shard span).
Proof.
  intros Hc. apply Steps_execute. intros t [Hsf Hk]. split.
  - intros q p Hsc. destruct (Hsf q p Hsc) as [|[e He]]; [by left|].
    destruct (in_span pool shard span (row_key q p)) eqn:Ei.
    + left. unfold in_span, row_key in Ei. cbn [fst snd] in Ei. rewrite !andb_true_iff, bool_decide_eq_true in Ei.
      destruct Ei as [[[= Hq _] H1] H2]. apply pool_code_inj in Hq as ->. breflect.
      destruct (Hc p) as [|Hns]; [lia|done|by destruct (Hns Hsc)].
    + right. exists e. apply map_lookup_filter_Some. done.
  - intros c s' p [e He]. apply map_lookup_filter_Some in He as [He _]. by eapply Hk.
Qed.

Lemma delete_spans_steps pool spans d : (forall x p, x ∈ spans -> x.2.1 <= p < x.2.2 -> covered pool d p) ->
  Steps (W := W) (fun t => safe t d /\ well_keyed t) (delete_spans fault pool spans).
Proof.
  induction spans as [|[shard span] spans IH]; intros Hc; cbn [delete_spans]; [apply Steps_ret|].
  apply Steps_bind; [|intros; apply IH; intros x p Hx; apply Hc; by apply elem_of_cons; right].
  apply delete_rows_steps. intros p Hp. left. apply (Hc (shard, span)); [by apply elem_of_cons; left|done].
Qed.

(** *** The call *)

(** The state a call starts from: stores in step with the wallet, accumulators at the positions
    that come next, nothing lost. *)
Record ready (sp : Sparse) (zs zo : Z) (w : World W) : Prop := {
  rd_s s : sp.(sapling) = Some s -> in_step (PL := PS) V.(view_s) s w.(wallet);
  rd_o s : sp.(orchard) = Some s -> in_step (PL := PO) V.(view_o) s w.(wallet);
  rd_i s : sp.(ironwood) = Some s -> in_step (PL := PI) V.(view_i) s w.(wallet);
  rd_ctx ctx : sp.(graft) = Some ctx -> ctx_fits ctx zs zo;
  rd_keys : well_keyed w.(table);
  rd_safe : safe w.(table) w.(wallet);
}.

Lemma seeded_spec {H T C Fr} (PL : PoolLib W H T C Fr) (v : TreeView W T C)
    {DL : TreeDbLaws v.(v_shards) v.(v_cap) v.(v_cps) v.(v_retained)} anchors o (w w' : World W) r :
  (forall s, o = Some s -> in_step (PL := PL) v s w.(wallet)) ->
  @seeded W T C PL.(pl_shard) PL.(pl_db) pl_cap anchors o w = (w', r) ->
  w' = w /\ forall s, r = Ok s -> in_step (PL := PL) v s w.(wallet).
Proof.
  intros Ho1. unfold seeded. destruct o as [s|]; intros [= <- <-]; (split; [done|]); intros s1 Er.
  - injection Er as <-. by apply Ho1.
  - destruct (seed _ _ _) as [s2|] eqn:E; [|done]. injection Er as <-. by eapply seed_in_step.
Qed.

(** The commit: the file goes from a safe state to a safe state in one step. *)
Lemma commit_spec anchors plans cs co sap orch iw fs bs (w w' : World W) r :
  bs <> [] -> stores_in_step sap orch iw w.(wallet) -> from_option (fun p => filled p.1 /\ filled p.2) True plans ->
  placed fs bs -> safe w.(table) w.(wallet) ->
  (forall pool p, given_tx None fs bs pool p -> buffered pool w.(table) p \/ given_tx plans fs bs pool p) ->
  transactionally fault (put_tx PS PO PI anchors plans cs co sap orch iw fs bs) w = (w', r) ->
  always safe w w' /\ w'.(table) = w.(table) /\ forall out, r = Ok out ->
    stores_in_step out.(tx_sap) out.(tx_orch) out.(tx_iw) w'.(wallet) /\
    (forall pool p, given_tx plans fs bs pool p -> covered pool w'.(wallet) p) /\
    (forall h, scanned V w'.(wallet) h -> scanned V w.(wallet) h \/ in_call fs bs h).
Proof.
  intros Hbs Hst Hfill Hpl Hsf Hgiven. unfold transactionally.
  destruct (put_tx _ _ _ _ _ _ _ _ _ _ _ _ w.(wallet)) as [[d out]|] eqn:Et.
  2:{ intros [= <- <-]. split_and!; [by apply always_refl|done|done]. }
  destruct (fault w.(statements)); [intros [= <- <-]; split_and!; [by split; [|exists []]|done|done]|].
  intros [= <- <-]. destruct (put_tx_spec _ _ _ _ _ _ _ _ _ _ _ _ Hbs Hst Hfill Et) as (S & Cv & Sc).
  split_and!; [|done|]; cbn [table wallet crashes].
  - split; cbn [table wallet crashes].
    + intros pool p Hsc. destruct (Sc _ Hsc) as [Hold|Hnew].
      * destruct (Hsf pool p Hold); [left; apply Cv; by left|by right].
      * apply Hpl in Hnew. destruct (Hgiven pool p Hnew); [by right|left; apply Cv; by right].
    + exists [(w.(table), w.(wallet))]. split; [done|]. by apply Forall_singleton.
  - intros out' [= <-]. split_and!; [done|auto|done].
Qed.

Lemma sparse_put_blocks_spec sp fs bs (w w' : World W) r :
  let zs := tree_size (PoolLib := PS) fs.(final_sapling_tree) in let zo := tree_size (PoolLib := PO) fs.(final_orchard_tree) in
  ready sp zs zo w -> placed fs bs -> (forall h, in_call fs bs h -> ~ scanned V w.(wallet) h) ->
  sparse_put_blocks PS PO PI fault sp fs bs w = (w', r) ->
  always safe w w' /\ well_keyed w'.(table) /\ forall sp', r = Ok sp' ->
    ready sp' (zs + Z.of_nat (length (sapling_stream bs))) (zo + Z.of_nat (length (orchard_stream bs))) w' /\
    forall h, scanned V w'.(wallet) h -> scanned V w.(wallet) h \/ in_call fs bs h.
Proof.
  intros zs zo Hr Hpl Hun. pose proof Hr as [R1 R2 R3 R4 R5 R6]. unfold sparse_put_blocks.
  destruct bs as [|b bs'] eqn:Eb.
  { intros [= <- <-]. split; [by apply always_refl|]. split; [done|]. intros sp' [= <-]. cbn. rewrite !Z.add_0_r. auto. }
  assert (bs <> []) as Hbs by (by subst bs). rewrite <-Eb in *. replace (head bs) with (Some b) by (by subst bs). clear Eb bs'.
  destruct (negb _); [intros [= <- <-]; split_and!; [by apply always_refl|done|done]|].
  set (anchors := sp.(anchor_retention)).
  unfold bind at 1. destruct (seeded _ anchors sp.(sapling) w) as [w1 r1] eqn:E1.
  destruct (seeded_spec PS V.(view_s) _ _ _ _ _ R1 E1) as [-> S1]. destruct r1 as [sap|]; [|intros [= <- <-]; split_and!; [by apply always_refl|done|done]].
  unfold bind at 1. destruct (seeded _ anchors sp.(orchard) w) as [w2 r2] eqn:E2.
  destruct (seeded_spec PO V.(view_o) _ _ _ _ _ R2 E2) as [-> S2]. destruct r2 as [orch|]; [|intros [= <- <-]; split_and!; [by apply always_refl|done|done]].
  unfold bind at 1. destruct (seeded _ anchors sp.(ironwood) w) as [w3 r3] eqn:E3.
  destruct (seeded_spec PI V.(view_i) _ _ _ _ _ R3 E3) as [-> S3]. destruct r3 as [iw|]; [|intros [= <- <-]; split_and!; [by apply always_refl|done|done]].
  assert (stores_in_step sap orch iw w.(wallet)) as Hst by (split; auto).
  unfold bind at 1. destruct (plan_phase PS PO fault sp.(graft) fs bs anchors sap orch w) as [w4 r4] eqn:E4.
  destruct (plan_phase_spec _ _ _ _ _ _ _ _ _ R5 R6 R4 Hpl Hun E4) as (A4 & W4 & K4 & P4).
  destruct r4 as [planned|]; [|intros [= <- <-]; split_and!; [done|done|done]].
  destruct (P4 _ eq_refl) as [Hfill Hctx Hgiven Hspan]. clear P4. cbv zeta.
  unfold bind at 1. destruct (transactionally _ _ w4) as [w5 r5] eqn:E5. rewrite <-W4 in Hst.
  destruct (commit_spec _ _ _ _ _ _ _ _ _ _ _ _ Hbs Hst Hfill Hpl (proj1 A4) Hgiven E5) as (A5 & T5 & P5).
  assert (always safe w w5) as A by (by eapply always_trans).
  destruct r5 as [out|]; [|intros [= <- <-]; split_and!; [done|by rewrite T5|done]]. destruct (P5 _ eq_refl) as ([O1 O2 O3] & Cv & Sc). clear P5.
  assert (forall h, scanned V w5.(wallet) h -> scanned V w.(wallet) h \/ in_call fs bs h) as Sc' by (by rewrite W4 in Sc).
  assert (forall w6 totals, w6.(wallet) = w5.(wallet) -> well_keyed w6.(table) -> safe w6.(table) w6.(wallet) ->
    ready (mkSparse (Some out.(tx_sap)) (Some out.(tx_orch)) (Some out.(tx_iw)) anchors ((fun p => p.1.1) <$> planned)
      out.(tx_census_sap) out.(tx_census_orch) totals) (zs + Z.of_nat (length (sapling_stream bs)))
      (zo + Z.of_nat (length (orchard_stream bs))) w6) as Hready.
  { intros w6 totals W6 K6 S6. rewrite <-W6 in O1, O2, O3. split; cbn; [by intros ? [= <-]..| |done|done]. exact Hctx. }
  destruct (plans_of planned) as [[sp1 op1]|].
  2:{ intros [= <- <-]. split; [done|]. split; [by rewrite T5|]. intros sp' [= <-]. split; [|done]. apply Hready; [done|by rewrite T5|apply A]. }
  destruct (Hspan _ _ eq_refl) as [X1 X2].
  assert (Steps (W := W) (fun t => safe t w5.(wallet) /\ well_keyed t)
    (bind (delete_spans fault Sapling sp1.(cleanup_spans)) (fun _ => delete_spans fault Orchard op1.(cleanup_spans)))) as Hdel.
  { apply Steps_bind; [|intros _]; apply delete_spans_steps; intros x p Hx Hp.
    - apply (Cv Sapling). by apply (X1 x Hx).
    - apply (Cv Orchard). by apply (X2 x Hx). }
  intros E6. destruct (Hdel w5) as (W6 & [S6 K6] & n6 & C6 & F6); [split; [apply A|by rewrite T5]|].
  assert (always safe w (bind (delete_spans fault Sapling sp1.(cleanup_spans)) (fun _ => delete_spans fault Orchard op1.(cleanup_spans)) w5).1) as A6.
  { eapply always_trans; [exact A|]. split; [by rewrite W6|]. exists n6. split; [done|].
    eapply Forall_impl; [exact F6|]. intros [t d] [[Hs1 _] Hd]. cbn [fst snd] in *. by subst d. }
  unfold bind in E6, A6, W6, S6, K6.
  destruct (delete_spans fault Sapling _ w5) as [w6 [u|]]; [|injection E6 as <- <-; by split_and!].
  destruct (delete_spans fault Orchard _ w6) as [w7 [u2|]]; [|injection E6 as <- <-; by split_and!].
  cbn [fst] in *. injection E6 as <- <-. split; [done|]. split; [done|]. intros sp' [= <-]. split; [|by rewrite W6].
  apply Hready; [done|done|by rewrite W6].
Qed.

(** *** The range's end *)

Lemma finish_tx_spec anchors ixs ixo sap_rows orch_rows sap orch (d d' : W) u :
  in_step (PL := PS) V.(view_s) sap d -> in_step (PL := PO) V.(view_o) orch d -> one_shard ixs sap_rows -> one_shard ixo orch_rows ->
  finish_tx PS PO anchors sap_rows orch_rows sap orch d = Ok (d', u) ->
  (forall pool p, covered pool d p -> covered pool d' p) /\ (forall h, scanned V d' h -> scanned V d h) /\
  (forall p, run_of sap_rows p -> covered Sapling d' p) /\ (forall p, run_of orch_rows p -> covered Orchard d' p).
Proof.
  intros S1 S2 [[a1 R1] _] [[a2 R2] _]. unfold finish_tx.
  destruct (insert_deferred_rows PS _ _ sap_rows sap) as [o1|] eqn:I1; [|done]. cbn [result_bind].
  destruct (flush_inserted o1 d) as [d1|] eqn:F1; [|done]. cbn [result_bind].
  destruct (insert_deferred_rows PO _ _ orch_rows orch) as [o2|] eqn:I2; [|done]. cbn [result_bind].
  destruct (flush_inserted o2 d1) as [d2|] eqn:F2; [|done]. cbn [result_bind]. intros [= <- _].
  destruct (deferred_in_step V.(cover_s) V.(view_s) _ _ _ _ _ _ _ _ _ _ spares_s S1 R1 I1 F1) as [[[X1o Z1] [X1i _]] C1].
  destruct (deferred_in_step V.(cover_o) V.(view_o) _ _ _ _ _ _ _ _ _ _ spares_o (in_step_same _ _ _ _ X1o S2) R2 I2 F2) as [[[X2s Z2] [X2i _]] C2].
  split_and!; [|by auto|..].
  - intros pool p Hp. destruct pool; cbn [covered] in *.
    + apply (in_tree_same _ _ _ _ _ X2s), C1. by left.
    + apply C2. left. by apply (in_tree_same _ _ _ _ _ X1o).
    + by apply (in_tree_same _ _ _ _ _ X2i), (in_tree_same _ _ _ _ _ X1i).
  - intros p Hp. apply (in_tree_same _ _ _ _ _ X2s), C1. by right.
  - intros p Hp. apply C2. by right.
Qed.

Lemma finish_safe sp zs zo (w w' : World W) r : ready sp zs zo w ->
  finish_graft_blocking PS PO fault sp w = (w', r) -> always safe w w' /\ well_keyed w'.(table).
Proof.
  intros [R1 R2 _ R4 R5 R6]. unfold finish_graft_blocking. destruct (sp.(graft)) as [ctx|]; [|intros [= <- _]; by split; [apply always_refl|]].
  destruct (R4 _ eq_refl) as [Fs1 Fo1]. destruct (taken_one_shard _ _ Fs1) as [ixs Os]. destruct (taken_one_shard _ _ Fo1) as [ixo Oo].
  set (srows := take_rows (ctx.(acc_sapling) ≫= _)) in *. set (orows := take_rows (ctx.(acc_orchard) ≫= _)) in *.
  destruct (_ && _); [intros [= <- _]; by split; [apply always_refl|]|].
  destruct (sp.(sapling)) as [sap|]; [|intros [= <- _]; by split; [apply always_refl|]].
  destruct (sp.(orchard)) as [orch|]; [|intros [= <- _]; by split; [apply always_refl|]].
  unfold bind at 1, attempt at 1, transactionally.
  destruct (finish_tx _ _ _ _ _ _ _ _) as [[d u]|] eqn:Et; [|intros [= <- _]; by split; [apply always_refl|]].
  destruct (fault w.(statements)); [intros [= <- _]; by split; [split; [|exists []]|]|].
  destruct (finish_tx_spec _ _ _ _ _ _ _ _ _ _ (R1 _ eq_refl) (R2 _ eq_refl) Os Oo Et) as (Cv & Sc & Cs1 & Co1).
  set (w1 := mkWorld _ _ _ _). assert (safe w1.(table) w1.(wallet)) as Hs1.
  { intros pool p Hp. destruct (R6 pool p (Sc _ Hp)); [left; auto|by right]. }
  assert (always safe w w1) as A1 by (split; [done|]; exists [(w.(table), w.(wallet))]; split; [done|by apply Forall_singleton]).
  intros E.
  assert (Steps (W := W) (fun t => safe t d /\ well_keyed t) (delete_spans fault Sapling (option_list (fed_span srows)))) as D1
    by (apply delete_spans_steps; intros x p Hx Hp; apply Cs1; by eapply fed_span_run).
  assert (Steps (W := W) (fun t => safe t d /\ well_keyed t) (delete_spans fault Orchard (option_list (fed_span orows)))) as D2
    by (apply delete_spans_steps; intros x p Hx Hp; apply Co1; by eapply fed_span_run).
  assert (steps (fun t => safe t d /\ well_keyed t) w1 w') as Hst.
  { replace w' with (w', r).1 by done. rewrite <-E. refine (Steps_bind _ _ _ _ _ _ _); [by apply Steps_attempt| |done].
    intros [v|e]; [|apply Steps_ret]. apply Steps_bind; [by apply Steps_attempt|]. intros [v'|e]; apply Steps_ret. }
  split; [|apply Hst]. eapply always_trans; [exact A1|]. eapply (steps_always (fun t => safe t d /\ well_keyed t)); [by intros t []|exact Hst].
Qed.

(** *** The range *)

(** The calls of one range, up to the first error. *)
Fixpoint put_calls (sp : Sparse) (calls : list (State * list Block)) : M (W := W) Sparse :=
  match calls with
  | [] => ret sp
  | (fs, bs) :: calls' => bind (sparse_put_blocks PS PO PI fault sp fs bs) (fun sp' => put_calls sp' calls')
  end.

(** A range: its calls, and the finish once they have all gone through. *)
Definition put_range (sp : Sparse) (calls : list (State * list Block)) : M (W := W) (result SlipstreamError unit) :=
  bind (put_calls sp calls) (fun sp' => finish_graft_blocking PS PO fault sp').

(** Calls that continue each other from the pools' positions [zs] and [zo]. *)
Fixpoint linked (zs zo : Z) (calls : list (State * list Block)) : Prop :=
  match calls with
  | [] => True
  | (fs, bs) :: calls' =>
    tree_size (PoolLib := PS) fs.(final_sapling_tree) = zs /\ tree_size (PoolLib := PO) fs.(final_orchard_tree) = zo /\
    placed fs bs /\ Forall (fun c => forall h, in_call fs bs h -> ~ in_call c.1 c.2 h) calls' /\
    linked (zs + Z.of_nat (length (sapling_stream bs))) (zo + Z.of_nat (length (orchard_stream bs))) calls'
  end.

Lemma put_calls_safe sp zs zo calls (w w' : World W) r : ready sp zs zo w -> linked zs zo calls ->
  Forall (fun c => forall h, in_call c.1 c.2 h -> ~ scanned V w.(wallet) h) calls ->
  put_calls sp calls w = (w', r) -> always safe w w' /\ well_keyed w'.(table) /\ forall sp', r = Ok sp' -> exists zs' zo', ready sp' zs' zo' w'.
Proof.
  revert sp zs zo w. induction calls as [|[fs bs] calls IH]; intros sp zs zo w Hr Hl Hun; cbn [put_calls].
  { intros [= <- <-]. split; [apply always_refl, Hr|]. split; [apply Hr|]. intros sp' [= <-]. eauto. }
  destruct Hl as (<- & <- & Hpl & Hdis & Hl). apply Forall_cons in Hun as [Hun Huns]. unfold bind.
  destruct (sparse_put_blocks PS PO PI fault sp fs bs w) as [w1 r1] eqn:E1.
  destruct (sparse_put_blocks_spec _ _ _ _ _ _ Hr Hpl Hun E1) as (A1 & K1 & P1).
  destruct r1 as [sp1|]; [|by intros [= <- <-]]. destruct (P1 _ eq_refl) as [Hr1 Sc]. intros E2.
  edestruct (IH sp1) as (A2 & K2 & P2); [exact Hr1|exact Hl| |exact E2|split_and!; [eapply always_trans; [exact A1|exact A2]|exact K2|exact P2]].
  apply Forall_forall. intros c Hc h Hh Hsc. destruct (Sc h Hsc) as [Hold|Hnew].
  - rewrite Forall_forall in Huns. by apply (Huns c Hc h).
  - rewrite Forall_forall in Hdis. by apply (Hdis c Hc h).
Qed.

Lemma put_range_safe sp zs zo calls (w w' : World W) r : ready sp zs zo w -> linked zs zo calls ->
  Forall (fun c => forall h, in_call c.1 c.2 h -> ~ scanned V w.(wallet) h) calls ->
  put_range sp calls w = (w', r) -> always safe w w' /\ well_keyed w'.(table).
Proof.
  intros Hr Hl Hun. unfold put_range, bind. destruct (put_calls sp calls w) as [w1 r1] eqn:E1.
  destruct (put_calls_safe _ _ _ _ _ _ _ Hr Hl Hun E1) as (A1 & K1 & P1). destruct r1 as [sp1|]; [|intros [= <- <-]; by split].
  destruct (P1 _ eq_refl) as (zs' & zo' & Hr1). intros E2. destruct (finish_safe _ _ _ _ _ _ Hr1 E2) as [A2 K2].
  split; [by eapply always_trans|exact K2].
Qed.

Definition fresh_sparse (anchors : option (Z -> bool)) (graft_sample : option Z) : Sparse :=
  mkSparse None None None anchors ((fun n => mkCtx n None None) <$> graft_sample) Census.census_new Census.census_new ((0, 0), (0, 0)).
Lemma fresh_ready anchors graft_sample zs zo (w : World W) : safe w.(table) w.(wallet) -> well_keyed w.(table) ->
  ready (fresh_sparse anchors graft_sample) zs zo w.
Proof. intros Hsf Hk. split; cbn; [done..| |done|done]. intros ctx Hc. destruct graft_sample; [|done]. injection Hc as <-. by split. Qed.
End Safety.

(** C5: No commitment of a scanned block is ever lost.  Take a wallet file in which each commitment of
    a scanned block is in its pool's tree or in the buffer table, and any range of calls of
    [sparse_put_blocks] on it, grafting or not, over unscanned blocks that continue each other,
    with [finish_graft_blocking] after the last call.
    Then at every point at which the process could die - before, between and after the
    statements, whichever of them fail - and when the range ends, with success or an error,
    the file is such a file again. *)
Theorem scanned_is_never_lost {W Hs Ho Ts To Cs Co Fs Fo : Type} `{!EqDecision Hs} `{!HashSer Hs} `{!EqDecision Ho} `{!HashSer Ho}
    (PS : PoolLib W Hs Ts Cs Fs) (PO PI : PoolLib W Ho To Co Fo) `{!WalletLib W Hs Ho Fs Fo} (V : WalletView) {WL : WalletLaws PS PO PI V}
    (fault : nat -> option string) (block_of : ShieldedPool -> Z -> Z) anchors graft_sample zs zo calls (w w' : World W) r :
  safe V block_of w.(table) w.(wallet) -> well_keyed w.(table) ->
  linked PS PO PI block_of zs zo calls ->
  Forall (fun c => forall h, in_call c.1 c.2 h -> ~ scanned V w.(wallet) h) calls ->
  put_range PS PO PI fault (fresh_sparse anchors graft_sample) calls w = (w', r) ->
  always (safe V block_of) w w'.
Proof.
  intros Hsf Hk Hl Hun E. refine (proj1 (put_range_safe PS PO PI fault V block_of _ zs zo calls w w' r _ Hl Hun E)).
  by apply fresh_ready.
Qed.

(** ** An instance

    Shards are their index and the positions they hold ([None]: a root for all of them); the
    wallet is one such tree per pool and a set of scanned heights, of a chain of ten blocks. *)

Definition MiniShard : Type := Z * option (gset Z).
Record PoolDb := mkPoolDb { pd_shards : gmap Z MiniShard; pd_cap : Z; pd_cps : gmap Z Cp; pd_retained : gset Z }.
Record MiniWallet := mkMini { mini : ShieldedPool -> PoolDb; mini_scanned : gset Z }.
Definition set_pool (pool : ShieldedPool) (db : PoolDb) (w : MiniWallet) : MiniWallet :=
  mkMini (fun q => if decide (q = pool) then db else w.(mini) q) w.(mini_scanned).

#[local] Instance mini_shard : Shard MiniShard := mkShard _ fst (fun t => bool_decide (t.2 = None)).
Definition mini_db (pool : ShieldedPool) : TreeDb MiniWallet MiniShard Z :=
  {| db_shard_roots w := Ok (btree_entries (w.(mini) pool).(pd_shards)).*1;
     db_all_checkpoints w := Ok (btree_entries (w.(mini) pool).(pd_cps));
     db_get_shard idx w := Ok ((fun t : MiniShard => (idx, t.2)) <$> (w.(mini) pool).(pd_shards) !! idx);
     db_get_cap w := Ok (w.(mini) pool).(pd_cap);
     put_shards ts c remove add w :=
       let d := w.(mini) pool in
       (set_pool pool (mkPoolDb (foldl (fun m t => <[root_index t := t]> m) d.(pd_shards) ts) (default d.(pd_cap) c)
          (foldl (fun m (p : Z * Cp) => <[p.1 := p.2]> m) (filter (fun p : Z * Cp => p.1 ∉ remove) d.(pd_cps)) add) d.(pd_retained)) w, Ok tt);
     ensure_retained h w :=
       let d := w.(mini) pool in (set_pool pool (mkPoolDb d.(pd_shards) d.(pd_cap) d.(pd_cps) ({[h]} ∪ d.(pd_retained))) w, Ok tt) |}.

Definition merge_shard (t : MiniShard) (old : option MiniShard) : MiniShard :=
  (t.1, match t.2, old with
        | Some x, Some (_, Some y) => Some (x ∪ y)
        | Some x, None => Some x
        | _, _ => None
        end).
Definition mini_covers (t : MiniShard) (p : Z) : Prop := t.1 = shard_of p /\ match t.2 with None => True | Some x => p ∈ x end.

Definition mini_lib (pool : ShieldedPool) : PoolLib MiniWallet Byte.byte MiniShard Z Z :=
  {| pl_shard := mini_shard;
     pl_db := mini_db pool;
     pl_cap := 0;
     tree_size fr := fr;
     frontier_value _ := None;
     build start slots := (fun p => ((shard_of p, Some {[p]}), ∅)) <$> seqZ start (Z.of_nat (length slots));
     insert_frontier fr r s := match r with Checkpoint id _ => Ok (add_checkpoint id (mkCp (Some fr) ∅) s) | _ => Ok s end;
     insert_tree t _ s := Ok (put_shard (merge_shard t (s.(shards) !! root_index t)) s);
     tree_ensure_retained h s := Ok (add_retained_checkpoint h s);
     empty_at idx := (idx, Some ∅);
     insert_frontier_nodes _ _ t := Some t;
     insert_subtree t s := Ok (merge_shard t (Some s));
     graft_leaf idx _ := Some (idx, None);
     root_hash _ _ := None;
     get_subtree_root _ _ := Ok None;
     ensure_checkpoints _ _ _ := [] |}.

#[local] Instance mini_wallet : WalletLib MiniWallet Byte.byte Byte.byte Z Z :=
  {| chain_height _ := Ok (Some 10);
     put_blocks_rows _ bs w := Ok (w, mkRows (Some <$> sapling_stream bs) (Some <$> orchard_stream bs) (Some <$> ironwood_stream bs)
       [] (b_height <$> last bs));
     notify_scan_complete range _ w := Ok (mkMini w.(mini) (w.(mini_scanned) ∪ list_to_set (seqZ range.1 (range.2 - range.1))));
     batch_ensure_heights _ _ _ _ _ := ([], [], []) |}.

Definition mini_view (pool : ShieldedPool) : TreeView MiniWallet MiniShard Z :=
  mkView (fun w => map_imap (fun i (t : MiniShard) => Some (i, t.2)) (w.(mini) pool).(pd_shards))
    (fun w => (w.(mini) pool).(pd_cap)) (fun w => (w.(mini) pool).(pd_cps)) (fun w => (w.(mini) pool).(pd_retained)).
Definition mini_views : WalletView :=
  mkWalletView mini_covers mini_covers mini_covers (mini_view Sapling) (mini_view Orchard) (mini_view Ironwood)
    (fun w h => 1 <= h <= 10 /\ h ∈ w.(mini_scanned)).

Lemma mini_db_laws pool : TreeDbLaws (TreeDb0 := mini_db pool) (mini_view pool).(v_shards) (mini_view pool).(v_cap)
  (mini_view pool).(v_cps) (mini_view pool).(v_retained).
Proof.
  split; cbn [mini_db db_shard_roots db_get_shard db_get_cap db_all_checkpoints put_shards ensure_retained mini_view v_shards v_cap v_cps v_retained].
  - intros d idx t. rewrite map_lookup_imap. destruct (_ !! idx) as [[]|]; simpl; [|done]. by intros [= <-].
  - intros d l [= <-]. apply set_eq. intros i. rewrite elem_of_list_to_set, list_elem_of_fmap, elem_of_dom, map_lookup_imap. split.
    + intros ([j t] & -> & Hin). apply elem_of_btree_entries in Hin. simpl. rewrite Hin. simpl. eauto.
    + intros [t Ht]. destruct ((d.(mini) pool).(pd_shards) !! i) as [t'|] eqn:E; [|done]. exists (i, t').
      split; [done|]. by apply elem_of_btree_entries.
  - intros d idx r [= <-]. rewrite map_lookup_imap. by destruct (_ !! idx) as [[]|].
  - by intros d c [= <-].
  - by intros d l [= <-].
  - intros ts c remove add d d' [= <-]. unfold set_pool. cbn. rewrite decide_True by done. split_and!; try done. cbn.
    generalize (d.(mini) pool).(pd_shards). induction ts as [|t ts IH]; intros m; [done|]. simpl. rewrite IH. f_equal.
    apply map_eq. intros i. rewrite map_lookup_imap. destruct (decide (i = t.1)) as [->|Hne].
    + rewrite !lookup_insert_eq. by destruct t.
    + by rewrite !lookup_insert_ne, map_lookup_imap by done.
  - intros h d d' [= <-]. unfold set_pool. cbn. rewrite decide_True by done. done.
Qed.

Lemma mini_tree_laws pool : TreeLaws (PL := mini_lib pool) mini_covers.
Proof.
  split; cbn [mini_lib build insert_frontier insert_tree tree_ensure_retained graft_leaf].
  - intros start slots p _ Hp. exists (shard_of p, Some {[p]}), ∅. split; [|unfold mini_covers; simpl; set_solver].
    apply list_elem_of_fmap. exists p. split; [done|]. by apply elem_of_seqZ.
  - intros fr r s s' E. destruct r; injection E as <-; [by exists []| |by exists []|by exists []]. by eexists [OAddCheckpoint _ _].
  - intros fr r s s' p E. by destruct r; injection E as <-.
  - intros h s s' [= <-]. by exists [OAddRetained h].
  - by intros h s s' p [= <-].
  - intros t cps s s' [= <-]. by eexists [OPutShard _].
  - intros t cps s s' p [= <-] Hp. unfold holds, put_shard in *. cbn [root_index mini_shard fst merge_shard].
    set (m := merge_shard t _). change (exists t0, <[t.1 := m]> s.(shards) !! shard_of p = Some t0 /\ mini_covers t0 p).
    destruct (decide (t.1 = shard_of p)) as [E|Hne].
    + rewrite <-E, lookup_insert_eq. eexists. split; [done|]. rewrite <-E in Hp. unfold mini_covers in *. unfold m, merge_shard. cbn [fst snd].
      split; [done|]. destruct t.2 as [x|] eqn:Et; [|by destruct (s.(shards) !! t.1) as [[]|]].
      destruct Hp as [(t' & Ht' & _ & Hc)|[_ Hc]].
      * rewrite Ht'. destruct t' as [j [y|]]; simpl in *; [set_solver|done].
      * destruct (s.(shards) !! t.1) as [[j [y|]]|]; [set_solver|done|done].
    + rewrite lookup_insert_ne by done. by destruct Hp as [Hp|[Hc _]].
  - intros idx root t [= <-]. split; [done|]. by intros p <-.
Qed.

Lemma mini_spares pool q1 q2 : q1 <> pool -> q2 <> pool ->
  spares (PL := mini_lib pool) (quiet2 mini_views (mini_view q1) (mini_view q2)).
Proof.
  intros H1 H2. split; cbn [mini_lib pl_db mini_db put_shards ensure_retained].
  - intros ts c rm add d d' r [= <- _]. unfold quiet2, quiet, same_tree, set_pool. cbn. rewrite !decide_False by done. done.
  - intros h d d' r [= <- _]. unfold quiet2, quiet, same_tree, set_pool. cbn. rewrite !decide_False by done. done.
Qed.

#[local] Instance mini_laws : WalletLaws (mini_lib Sapling) (mini_lib Orchard) (mini_lib Ironwood) mini_views.
Proof.
  split; [apply mini_db_laws..|apply mini_tree_laws|apply mini_tree_laws|apply mini_tree_laws|by apply mini_spares|by apply mini_spares|by apply mini_spares| | |].
  - by intros fs bs d d' rows [= <- <-].
  - by intros fs bs d d' rows [= <- <-].
  - intros range notes d d' [= <-]. split_and!; [done..|]. cbn. intros h [Hb Hh]. apply elem_of_union in Hh as [?|Hh]; [by left|right].
    apply elem_of_list_to_set, elem_of_seqZ in Hh. lia.
Qed.

#[local] Instance byte_dec : EqDecision Byte.byte := Byte.byte_eq_dec.

(** Two blocks, in one call each, scanned with grafting on by a wallet that has nothing. *)
Definition item (b : Byte.byte) : Byte.byte * Retention := (b, Ephemeral).
Definition block1 : ScannedBlock Byte.byte Byte.byte :=
  mkBlock 1 (mkPart [item Byte.x01; item Byte.x02] 2) (mkPart [item Byte.x03] 1) (mkPart [] 0) [([], [0])].
Definition block2 : ScannedBlock Byte.byte Byte.byte :=
  mkBlock 2 (mkPart [item Byte.x04] 3) (mkPart [] 1) (mkPart [item Byte.x05] 1) [].
Definition sample_calls : list (ChainState Z Z * list (ScannedBlock Byte.byte Byte.byte)) :=
  [(mkChainState 0 0 0 0, [block1]); (mkChainState 1 2 1 0, [block2])].
Definition sample_block_of (pool : ShieldedPool) (p : Z) : Z :=
  match pool with
  | Sapling => if (p =? 0) || (p =? 1) then 1 else if p =? 2 then 2 else 0
  | Orchard => if p =? 0 then 1 else 0
  | Ironwood => if p =? 0 then 2 else 0
  end.
Definition empty_pool : PoolDb := mkPoolDb ∅ 0 ∅ ∅.
Definition empty_world : World MiniWallet := mkWorld ∅ (mkMini (fun _ => empty_pool) ∅) 0 [].

Lemma sample_linked : linked (mini_lib Sapling) (mini_lib Orchard) (mini_lib Ironwood) sample_block_of 0 0 sample_calls.
Proof.
  assert (forall fs b pool p lo hi h0, fs.(block_height) = h0 -> b.(b_height) = h0 + 1 ->
    given_tx (mini_lib Sapling) (mini_lib Orchard) (mini_lib Ironwood) None fs [b] pool p <-> lo <= p < hi ->
    (sample_block_of pool p = h0 + 1 <-> lo <= p < hi) ->
    in_call fs [b] (sample_block_of pool p) <->
    given_tx (mini_lib Sapling) (mini_lib Orchard) (mini_lib Ironwood) None fs [b] pool p) as Hpl.
  { intros fs b pool p lo hi h0 E0 E1 -> <-. unfold in_call. split.
    - intros (l & [= <-] & Hl). rewrite E0, E1 in Hl. lia.
    - intros ->. exists b. split; [done|]. lia. }
  split_and!; [done|done| | |split_and!; [done|done| |constructor|done]].
  - intros pool p. destruct pool; [apply (Hpl _ _ _ _ 0 2 0)|apply (Hpl _ _ _ _ 0 1 0)|apply (Hpl _ _ _ _ 0 0 0)];
      try done; cbn; repeat case_match; breflect; lia.
  - apply Forall_singleton. intros h (l & [= <-] & Hl) (l' & [= <-] & Hl'). cbn in *. lia.
  - intros pool p. destruct pool; [apply (Hpl _ _ _ _ 2 3 1)|apply (Hpl _ _ _ _ 1 1 1)|apply (Hpl _ _ _ _ 0 1 1)];
      try done; cbn; repeat case_match; breflect; lia.
Qed.

Lemma empty_well_keyed : well_keyed ∅.
Proof. intros c s p [e He]. by apply lookup_empty_Some in He. Qed.

Lemma scanned_is_never_lost_witness : exists w',
  put_range (mini_lib Sapling) (mini_lib Orchard) (mini_lib Ironwood) (fun _ => None) (fresh_sparse None (Some 0)) sample_calls empty_world = (w', Ok (Ok tt)) /\
  scanned mini_views w'.(wallet) 2 /\ always (safe mini_views sample_block_of) empty_world w'.
Proof.
  destruct (put_range (mini_lib Sapling) (mini_lib Orchard) (mini_lib Ironwood) (fun _ => None) (fresh_sparse None (Some 0)) sample_calls empty_world)
    as [w' r] eqn:E.
  assert (r = Ok (Ok tt)) as Hr by (change r with (w', r).2; rewrite <-E; vm_compute; reflexivity).
  assert (bool_decide (2 ∈ w'.(wallet).(mini_scanned)) = true) as Hs by (change w' with (w', r).1; rewrite <-E; vm_compute; reflexivity).
  subst r. exists w'. split; [reflexivity|]. split; [split; [lia|by apply bool_decide_eq_true in Hs]|].
  apply (scanned_is_never_lost (mini_lib Sapling) (mini_lib Orchard) (mini_lib Ironwood) mini_views (fun _ => None) sample_block_of
    None (Some 0) 0 0 sample_calls empty_world w' (Ok (Ok tt))).
  - intros pool p [_ Hp]. change (sample_block_of pool p ∈ (∅ : gset Z)) in Hp. destruct (not_elem_of_empty _ Hp).
  - apply empty_well_keyed.
  - apply sample_linked.
  - repeat constructor; intros h _ [_ Hh]; change (h ∈ (∅ : gset Z)) in Hh; destruct (not_elem_of_empty _ Hh).
  - exact E.
Defined.
End PutBlocks.
