(* ===== verification/Reconcile.v ===== *)
(** * Reconciliation: [core/src/reconcile.rs]

    The two read-side views as queries over the tables they name, and the two readers of them
    (the migrations that create the views are in [Migrations]).  Of upstream's tables and of its
    [v_transactions] only the columns the views read are kept, with the outputs [v_transactions]
    sums; what upstream puts in them is stated as laws where a theorem needs it.  [NULL] equals
    nothing. *)

From S2P Require Export Errors GraftBuffer.

Module Reconcile.
Import GraftBuffer.

#[export] Instance byte_dec : EqDecision Byte.byte := Byte.byte_eq_dec.
#[export] Instance byte_countable : Countable Byte.byte := inj_countable Byte.to_N Byte.of_N Byte.of_to_N.
#[export] Instance bytes_dec : EqDecision bytes := _.
#[export] Instance bytes_countable : Countable bytes := _.

Record NullifierRow := mkNullifier { spend_pool : Z; nf : bytes; nm_height : Z; nm_index : Z }.
Record LocatorRow := mkLocator { tl_height : Z; tl_index : Z; tl_txid : bytes }.
Record ReceivedNote := mkNote { note_nf : option bytes; note_value : Z; note_account : bytes; note_txid : bytes }.
Record TransparentOutput := mkUtxo { u_value : Z; u_account : bytes; u_txid : bytes; u_index : Z }.
Record TxRow := mkTxRow { t_txid : bytes; t_mined : option Z }.
Record VTx := mkVTx { vt_account : bytes; vt_txid : bytes; account_balance_delta : Z; vt_mined : option Z }.
Record Db := mkDb {
  transactions : list TxRow;
  tx_locator_map : list LocatorRow;
  nullifier_map : list NullifierRow;
  received_notes : ShieldedPool -> list ReceivedNote;
  transparent_received_outputs : list TransparentOutput;
  v_transactions : list VTx;
}.

(** ** [ext_slipstream_v_tx_reconciled] *)

Definition received (db : Db) (p : ShieldedPool) (n : bytes) : bool :=
  existsb (fun r => bool_decide (r.(note_nf) = Some n)) (db.(received_notes) p).
(** The arms of the view, by pool: a spend whose pool has no arm is not looked at. *)
Definition dangling (arms : list ShieldedPool) (db : Db) (nm : NullifierRow) : bool :=
  existsb (fun p => (nm.(spend_pool) =? pool_code p) && negb (received db p nm.(nf))) arms.
Definition located (db : Db) (nm : NullifierRow) (txid : bytes) : bool :=
  existsb (fun tl => (tl.(tl_height) =? nm.(nm_height)) && (tl.(tl_index) =? nm.(nm_index)) && bool_decide (tl.(tl_txid) = txid))
    db.(tx_locator_map).
Definition reconciled (arms : list ShieldedPool) (db : Db) (txid : bytes) : bool :=
  negb (existsb (fun nm => located db nm txid && dangling arms db nm) db.(nullifier_map)).
Record ViewRow := mkViewRow { r_txid : bytes; r_mined : option Z; r_reconciled : bool }.
Definition reconcile_view (arms : list ShieldedPool) (db : Db) : list ViewRow :=
  (fun t => mkViewRow t.(t_txid) t.(t_mined) (reconciled arms db t.(t_txid))) <$> db.(transactions).
Definition RECONCILE_ARMS : list ShieldedPool := [Sapling; Orchard; Ironwood].
Definition tx_reconciled_view (db : Db) : list ViewRow := reconcile_view RECONCILE_ARMS db.

(** ** [ext_slipstream_v_recovery_balance] *)

Definition counted (db : Db) (vt : VTx) : bool :=
  bool_decide (is_Some vt.(vt_mined)) &&
  negb (existsb (fun r => bool_decide (r.(r_txid) = vt.(vt_txid)) && negb r.(r_reconciled)) (tx_reconciled_view db)).
(** [SUM] grouped by account; a sum that leaves [i64] at any point fails the query. *)
Definition fits_i64 (x : Z) : bool := (- 2 ^ 63 <=? x) && (x <? 2 ^ 63).
Definition sum_row (acc : result string (gmap bytes Z)) (vt : VTx) : result string (gmap bytes Z) :=
  let? m := acc in
  let x := default 0 (m !! vt.(vt_account)) + vt.(account_balance_delta) in
  if fits_i64 x then Ok (<[vt.(vt_account) := x]> m) else Err "integer overflow".
Definition recovery_balance_view (db : Db) : result string (gmap bytes Z) :=
  foldl sum_row (Ok ∅) (filter (fun vt => counted db vt = true) db.(v_transactions)).

(** [recovery_balances]. *)
Definition recovery_balances (db : Db) : result string (list (bytes * Z)) :=
  let? m := recovery_balance_view db in Ok (map_to_list m).
(** [visible_mined_tx_count]. *)
Definition visible_mined_tx_count (db : Db) (reconciled_only : bool) : Z :=
  Z.of_nat (length (filter (fun r => bool_decide (is_Some r.(r_mined)) && (negb reconciled_only || r.(r_reconciled)) = true)
    (tx_reconciled_view db))).

(** ** What the views show *)

(** The specification: some observed spend at the transaction has a note not yet received. *)
Definition unlinked (db : Db) (txid : bytes) : Prop :=
  exists p n h i, mkNullifier (pool_code p) n h i ∈ db.(nullifier_map) /\ mkLocator h i txid ∈ db.(tx_locator_map) /\
    forall r, r ∈ db.(received_notes) p -> r.(note_nf) <> Some n.

Lemma existsb_elem {A} (f : A -> bool) l : existsb f l = true <-> exists x, x ∈ l /\ f x = true.
Proof. rewrite existsb_exists. by setoid_rewrite list_elem_of_In. Qed.
Lemma existsb_none {A} (f : A -> bool) l : existsb f l = false <-> forall x, x ∈ l -> f x = false.
Proof.
  split.
  - intros H x Hx. apply not_true_is_false. intros Hf. apply not_true_iff_false in H. apply H, existsb_elem. eauto.
  - intros H. apply not_true_is_false. intros (x & Hx & Hf)%existsb_elem. by rewrite H in Hf.
Qed.
Lemma not_received db p n : received db p n = false <-> forall r, r ∈ db.(received_notes) p -> r.(note_nf) <> Some n.
Proof. unfold received. rewrite existsb_none. by setoid_rewrite bool_decide_eq_false. Qed.
Lemma located_spec db nm txid :
  located db nm txid = true <-> mkLocator nm.(nm_height) nm.(nm_index) txid ∈ db.(tx_locator_map).
Proof.
  unfold located. rewrite existsb_elem. split.
  - intros ([h i t] & Hin & H). cbn in H. breflect. by subst.
  - intros H. eexists. split; [done|]. cbn. by rewrite !Z.eqb_refl, bool_decide_true.
Qed.
Lemma dangling_spec db nm : dangling RECONCILE_ARMS db nm = true <->
  exists p, nm.(spend_pool) = pool_code p /\ received db p nm.(nf) = false.
Proof.
  unfold dangling. rewrite existsb_elem. split.
  - intros (p & _ & H). breflect. eauto.
  - intros (p & -> & H). exists p. rewrite Z.eqb_refl, H. split; [|done]. destruct p; unfold RECONCILE_ARMS; set_solver.
Qed.
Lemma reconciled_iff db txid : reconciled RECONCILE_ARMS db txid = false <-> unlinked db txid.
Proof.
  unfold reconciled. rewrite negb_false_iff, existsb_elem. split.
  - intros ([c n h i] & Hnm & H). apply andb_true_iff in H as [Hl%located_spec (p & Hc & Hr)%dangling_spec]. cbn in *. subst.
    exists p, n, h, i. by rewrite <- not_received.
  - intros (p & n & h & i & Hnm & Hl & Hr%not_received). eexists. split; [done|].
    rewrite (proj2 (located_spec db (mkNullifier (pool_code p) n h i) txid) Hl). cbn [andb]. apply dangling_spec. by exists p.
Qed.
Lemma counted_spec db vt : counted db vt = true <->
  is_Some vt.(vt_mined) /\ ((exists t, t ∈ db.(transactions) /\ t.(t_txid) = vt.(vt_txid)) -> ~ unlinked db vt.(vt_txid)).
Proof.
  unfold counted, tx_reconciled_view, reconcile_view. rewrite andb_true_iff, bool_decide_eq_true, negb_true_iff, existsb_none.
  setoid_rewrite list_elem_of_fmap. rewrite <- reconciled_iff. split.
  - intros [Hm H]. split; [done|]. intros (t & Ht & E) Hr. specialize (H _ ltac:(eauto)). cbn in H.
    rewrite E, bool_decide_true, Hr in H by done. done.
  - intros [Hm H]. split; [done|]. intros r (t & -> & Ht). cbn. case_bool_decide as E; [|done].
    cbn. apply negb_false_iff, not_false_iff_true. intros Hr. rewrite E in Hr. apply H; eauto.
Qed.

(** Receiving more notes never hides a transaction again. *)
Lemma received_notes_only_reconcile db notes txid :
  (forall p, db.(received_notes) p ⊆ notes p) ->
  unlinked (mkDb db.(transactions) db.(tx_locator_map) db.(nullifier_map) notes db.(transparent_received_outputs)
    db.(v_transactions)) txid -> unlinked db txid.
Proof. intros Hn (p & n & h & i & H1 & H2 & H3). exists p, n, h, i. cbn in *. split_and!; [done..|]. intros r Hr. apply H3. by apply Hn. Qed.


(** ** The balance *)

Fixpoint zsum (l : list Z) : Z := match l with [] => 0 | x :: l' => x + zsum l' end.
Lemma zsum_app l l' : zsum (l ++ l') = zsum l + zsum l'.
Proof. induction l; cbn; lia. Qed.
Lemma zsum_perm l l' : l ≡ₚ l' -> zsum l = zsum l'.
Proof. induction 1; cbn; lia. Qed.
(** The counted deltas of an account. *)
Definition counted_of (db : Db) (a : bytes) : list VTx :=
  filter (fun vt => vt.(vt_account) = a) (filter (fun vt => counted db vt = true) db.(v_transactions)).

Definition small_deltas (l : list VTx) : Prop := zsum ((fun vt => Z.abs vt.(account_balance_delta)) <$> l) < 2 ^ 63.
Lemma zsum_abs (P : VTx -> Prop) `{!forall x, Decision (P x)} l :
  Z.abs (zsum (account_balance_delta <$> filter P l)) <= zsum ((fun vt => Z.abs vt.(account_balance_delta)) <$> l).
Proof.
  induction l as [|x l IH]; [done|]. rewrite filter_cons. rewrite (fmap_cons _ x l). cbn [zsum]. case_decide; rewrite ?fmap_cons; cbn [zsum]; lia.
Qed.
Lemma zsum_filter_abs (P : VTx -> Prop) `{!forall x, Decision (P x)} l :
  zsum ((fun vt => Z.abs vt.(account_balance_delta)) <$> filter P l) <= zsum ((fun vt => Z.abs vt.(account_balance_delta)) <$> l).
Proof.
  induction l as [|x l IH]; [done|]. rewrite filter_cons. rewrite (fmap_cons _ x l). cbn [zsum].
  case_decide; rewrite ?fmap_cons; cbn [zsum]; lia.
Qed.
Lemma sum_rows_ok l : small_deltas l ->
  exists m, foldl sum_row (Ok ∅) l = Ok m /\
    forall a, m !! a = if bool_decide (filter (fun vt => vt.(vt_account) = a) l = []) then None
                       else Some (zsum (account_balance_delta <$> filter (fun vt => vt.(vt_account) = a) l)).
Proof.
  induction l as [|x l IH] using rev_ind; [by exists ∅|]. intros Hs. unfold small_deltas in *. rewrite fmap_app, zsum_app in Hs.
  cbn in Hs. destruct IH as (m & E & Hm); [lia|]. rewrite foldl_snoc, E. cbn [sum_row result_bind].
  assert (default 0 (m !! x.(vt_account)) = zsum (account_balance_delta <$> filter (fun vt => vt.(vt_account) = x.(vt_account)) l)) as ->.
  { rewrite Hm. case_bool_decide as He; [by rewrite He|done]. }
  pose proof (zsum_abs (fun vt => vt.(vt_account) = x.(vt_account)) l) as Ha.
  assert (fits_i64 (zsum (account_balance_delta <$> filter (fun vt => vt.(vt_account) = x.(vt_account)) l) + x.(account_balance_delta)) = true) as ->.
  { unfold fits_i64. apply andb_true_iff. rewrite Z.leb_le, Z.ltb_lt. lia. }
  eexists. split; [done|]. intros a. rewrite filter_app, filter_cons, filter_nil. destruct (decide (x.(vt_account) = a)) as [->|Hne].
  - rewrite lookup_insert_eq, bool_decide_false by (by intros []%app_eq_nil). f_equal. rewrite fmap_app, zsum_app. cbn. lia.
  - by rewrite lookup_insert_ne, app_nil_r by done.
Qed.

(** *** A wallet on its chain *)

Section Chain.
(** The nullifiers a transaction reveals, and every note of the wallet on the chain. *)
Context (spends : bytes -> list (ShieldedPool * bytes)) (wallet_notes : ShieldedPool -> list ReceivedNote).
(** The outpoints a transaction's transparent inputs name, and every transparent output of the
    wallet on the chain. *)
Context (inputs : bytes -> list (bytes * Z)) (wallet_outputs : list TransparentOutput).

Definition spent_by (txid : bytes) (p : ShieldedPool) (n : ReceivedNote) : bool :=
  existsb (fun s => bool_decide (s.1 = p) && bool_decide (n.(note_nf) = Some s.2)) (spends txid).
Definition outpoint (o : TransparentOutput) : bytes * Z := (o.(u_txid), o.(u_index)).
(** What a transaction changes in an account, over the notes and the outputs given. *)
Definition transparent_delta (outputs : list TransparentOutput) (a txid : bytes) : Z :=
  zsum (u_value <$> filter (fun o => o.(u_account) = a /\ o.(u_txid) = txid) outputs) -
  zsum (u_value <$> filter (fun o => o.(u_account) = a /\ outpoint o ∈ inputs txid) outputs).
Definition shielded_delta (notes : ShieldedPool -> list ReceivedNote) (a txid : bytes) : Z :=
  zsum ((fun p => zsum (note_value <$> filter (fun n => n.(note_account) = a /\ n.(note_txid) = txid) (notes p)) -
                  zsum (note_value <$> filter (fun n => n.(note_account) = a /\ spent_by txid p n = true) (notes p)))
        <$> RECONCILE_ARMS).
Definition delta_over (notes : ShieldedPool -> list ReceivedNote) (outputs : list TransparentOutput) (a txid : bytes) : Z :=
  shielded_delta notes a txid + transparent_delta outputs a txid.
Definition final_delta (a txid : bytes) : Z := delta_over wallet_notes wallet_outputs a txid.

(** What upstream's scan keeps true of its tables, whatever part of the chain is scanned. *)
Record scanned_part (db : Db) : Prop := mkScanned {
  (** Received notes are notes of the wallet, and a nullifier names one note. *)
  part_notes : forall p, exists seen : ReceivedNote -> bool, db.(received_notes) p ≡ₚ filter (fun n => seen n = true) (wallet_notes p);
  part_unique : forall p n n', n ∈ wallet_notes p -> n' ∈ wallet_notes p -> is_Some n.(note_nf) -> n.(note_nf) = n'.(note_nf) -> n = n';
  part_outputs : exists seen : TransparentOutput -> bool,
    db.(transparent_received_outputs) ≡ₚ filter (fun o => seen o = true) wallet_outputs;
  (** [v_transactions] lists wallet transactions, with the delta of the notes and transparent
      outputs received so far. *)
  part_txs : forall vt, vt ∈ db.(v_transactions) -> exists t, t ∈ db.(transactions) /\ t.(t_txid) = vt.(vt_txid);
  part_delta : forall vt, vt ∈ db.(v_transactions) ->
    vt.(account_balance_delta) = delta_over db.(received_notes) db.(transparent_received_outputs) vt.(vt_account) vt.(vt_txid);
  (** A block is scanned whole: a mined transaction's own notes and outputs are in. *)
  part_own : forall vt p n, vt ∈ db.(v_transactions) -> is_Some vt.(vt_mined) -> n ∈ wallet_notes p ->
    n.(note_txid) = vt.(vt_txid) -> n ∈ db.(received_notes) p;
  part_own_outputs : forall vt o, vt ∈ db.(v_transactions) -> is_Some vt.(vt_mined) -> o ∈ wallet_outputs ->
    o.(u_txid) = vt.(vt_txid) -> o ∈ db.(transparent_received_outputs);
  (** Its transparent inputs are linked by outpoint when it is scanned: the outputs they name
      are in by then. *)
  part_inputs : forall vt o, vt ∈ db.(v_transactions) -> is_Some vt.(vt_mined) -> o ∈ wallet_outputs ->
    outpoint o ∈ inputs vt.(vt_txid) -> o ∈ db.(transparent_received_outputs);
  (** Its spends are tracked, until their notes are in. *)
  part_spends : forall vt p n, vt ∈ db.(v_transactions) -> is_Some vt.(vt_mined) -> (p, n) ∈ spends vt.(vt_txid) ->
    (exists h i, mkNullifier (pool_code p) n h i ∈ db.(nullifier_map) /\ mkLocator h i vt.(vt_txid) ∈ db.(tx_locator_map)) \/
    (forall note, note ∈ wallet_notes p -> note.(note_nf) = Some n -> note ∈ db.(received_notes) p);
}.

Lemma filter_seen {A} (P : A -> Prop) `{!forall x, Decision (P x)} (seen : A -> bool) (l : list A) :
  (forall n, n ∈ l -> P n -> seen n = true) -> filter P (filter (fun n => seen n = true) l) = filter P l.
Proof.
  intros Hp. induction l as [|x l IH]; [done|]. rewrite (filter_cons _ x l), (filter_cons P x l).
  assert (filter P (filter (fun n => seen n = true) l) = filter P l) as IH' by (apply IH; intros; apply Hp; [by right|done]).
  destruct (decide (P x)) as [HP|HP].
  - rewrite decide_True by (apply Hp; [by left|done]). rewrite filter_cons, decide_True by done. by rewrite IH'.
  - case_decide; [|done]. by rewrite filter_cons, decide_False.
Qed.
Lemma sum_received {A} (value : A -> Z) (part whole : list A) (P : A -> Prop) `{!forall x, Decision (P x)} :
  (exists seen : A -> bool, part ≡ₚ filter (fun n => seen n = true) whole) ->
  (forall n, n ∈ whole -> P n -> n ∈ part) ->
  zsum (value <$> filter P part) = zsum (value <$> filter P whole).
Proof.
  intros [seen Hs] Hp. rewrite <- (filter_seen P seen whole).
  - apply zsum_perm. by rewrite Hs.
  - intros n Hn HP. specialize (Hp n Hn HP). rewrite Hs in Hp. by apply list_elem_of_filter in Hp as [? _].
Qed.

(** A note a counted transaction spends is in. *)
Lemma counted_spends_received db vt p n : scanned_part db -> vt ∈ db.(v_transactions) -> counted db vt = true ->
  n ∈ wallet_notes p -> spent_by vt.(vt_txid) p n = true -> n ∈ db.(received_notes) p.
Proof.
  intros Hdb Hvt [Hm Hc]%counted_spec Hn ([q x] & Hs & H)%existsb_elem. breflect. cbn in *. subst q.
  destruct (part_spends _ Hdb vt p x Hvt Hm Hs) as [(h & i & Hnm & Hl)|Hin]; [|by apply Hin].
  destruct (received db p x) eqn:Er.
  - apply existsb_elem in Er as (r & Hr & Hx%bool_decide_eq_true_1). destruct (part_notes _ Hdb p) as [seen Hseen].
    assert (r ∈ wallet_notes p) as Hw by (rewrite Hseen in Hr; by apply list_elem_of_filter in Hr as [_ ?]).
    rewrite (part_unique _ Hdb p n r Hn Hw); [done| |congruence]. eexists. by eauto.
  - exfalso. apply Hc; [by apply (part_txs _ Hdb)|]. exists p, x, h, i. by rewrite <- not_received.
Qed.
Lemma counted_delta_final db vt : scanned_part db -> vt ∈ db.(v_transactions) -> counted db vt = true ->
  vt.(account_balance_delta) = final_delta vt.(vt_account) vt.(vt_txid).
Proof.
  intros Hdb Hvt Hc. rewrite (part_delta _ Hdb vt Hvt). pose proof Hc as [Hm _]%counted_spec.
  unfold final_delta, delta_over. apply f_equal2.
  - unfold shielded_delta. f_equal. apply list_fmap_ext. intros _ p _. cbn beta.
    apply f_equal2; (apply sum_received; [by apply (part_notes _ Hdb)|]); intros n Hn [_ Ht].
    + by apply (part_own _ Hdb vt).
    + by apply (counted_spends_received db vt).
  - unfold transparent_delta. apply f_equal2; (apply sum_received; [by apply (part_outputs _ Hdb)|]); intros o Ho [_ Ht].
    + by apply (part_own_outputs _ Hdb vt).
    + by apply (part_inputs _ Hdb vt).
Qed.

End Chain.

(** *** A restore of one account *)

(** The wallet receives 50 in [tx 1]; [tx 2] spends it for 45 of change; [tx 3] spends the change
    elsewhere. *)
Definition id_of (b : Byte.byte) : bytes := [b].
Definition demo_account : bytes := [Byte.xaa].
Definition note1 : ReceivedNote := mkNote (Some (id_of Byte.x11)) 50 demo_account (id_of Byte.x01).
Definition note2 : ReceivedNote := mkNote (Some (id_of Byte.x12)) 45 demo_account (id_of Byte.x02).
Definition demo_spends (txid : bytes) : list (ShieldedPool * bytes) :=
  if bool_decide (txid = id_of Byte.x02) then [(Orchard, id_of Byte.x11)]
  else if bool_decide (txid = id_of Byte.x03) then [(Orchard, id_of Byte.x12)] else [].
Definition demo_notes (p : ShieldedPool) : list ReceivedNote := match p with Orchard => [note1; note2] | _ => [] end.
(** The recent block of [tx 2] is scanned first: its change shows, its spend is not linked. *)
Definition recent_first : Db :=
  mkDb [mkTxRow (id_of Byte.x02) (Some 200)] [mkLocator 200 0 (id_of Byte.x02)] [mkNullifier 3 (id_of Byte.x11) 200 0]
    (fun p => match p with Orchard => [note2] | _ => [] end) []
    [mkVTx demo_account (id_of Byte.x02) 45 (Some 200)].
(** Then the older block of [tx 1]. *)
Definition then_older : Db :=
  mkDb [mkTxRow (id_of Byte.x01) (Some 100); mkTxRow (id_of Byte.x02) (Some 200)]
    [mkLocator 100 0 (id_of Byte.x01); mkLocator 200 0 (id_of Byte.x02)] [mkNullifier 3 (id_of Byte.x11) 200 0]
    demo_notes [] [mkVTx demo_account (id_of Byte.x01) 50 (Some 100); mkVTx demo_account (id_of Byte.x02) (-5) (Some 200)].

(** No transaction here has transparent inputs or outputs. *)
Definition no_inputs (txid : bytes) : list (bytes * Z) := [].
Lemma recent_first_scanned : scanned_part demo_spends demo_notes no_inputs [] recent_first.
Proof.
  split; try (by intros ? ? ? ? ?%not_elem_of_nil); try (by exists (fun _ => true)).
  - intros p. exists (fun n => bool_decide (n.(note_nf) = Some (id_of Byte.x12))). by destruct p.
  - intros p n n' Hn Hn' _. destruct p; [set_solver| |set_solver]. cbn in Hn, Hn'.
    rewrite !elem_of_cons, !elem_of_nil in Hn, Hn'. destruct Hn as [->|[->|[]]], Hn' as [->|[->|[]]]; done.
  - intros vt ->%list_elem_of_singleton. eexists. split; [by left|done].
  - intros vt ->%list_elem_of_singleton. reflexivity.
  - intros vt p n ->%list_elem_of_singleton _ Hn. destruct p; [set_solver| |set_solver]. cbn in Hn. rewrite !elem_of_cons, elem_of_nil in Hn.
    destruct Hn as [->|[->|[]]]; [done|by left].
  - intros vt p n ->%list_elem_of_singleton _ [= -> ->]%list_elem_of_singleton. left. exists 200, 0. split; by left.
Qed.
(** With both blocks scanned the change no longer reads as a receipt. *)
Example older_block_links :
  visible_mined_tx_count recent_first true = 0 /\ visible_mined_tx_count recent_first false = 1 /\
  recovery_balances then_older = Ok [(demo_account, 45)] /\ visible_mined_tx_count then_older true = 2.
Proof. repeat split; vm_compute; reflexivity. Qed.
(** While the block of [tx 3] is not scanned the balance shows what [tx 3] has spent: it can exceed
    the final balance, here 0. *)
Example recovery_balance_can_exceed_final :
  recovery_balances then_older = Ok [(demo_account, 45)] /\
  zsum (final_delta demo_spends demo_notes no_inputs [] demo_account <$> [id_of Byte.x01; id_of Byte.x02; id_of Byte.x03]) = 0.
Proof. split; vm_compute; reflexivity. Qed.
(** [tx 2] also spends a transparent output of 30 that is not on record yet: no nullifier marks
    it, so it is counted, at 0 and not at the -30 of its final delta. *)
Definition unlinked_input : Db :=
  mkDb [mkTxRow (id_of Byte.x02) (Some 200)] [mkLocator 200 0 (id_of Byte.x02)] [] (fun _ => []) []
    [mkVTx demo_account (id_of Byte.x02) 0 (Some 200)].
Definition demo_output : TransparentOutput := mkUtxo 30 demo_account (id_of Byte.x01) 0.
Example unlinked_transparent_spend_is_counted :
  let inputs txid := if bool_decide (txid = id_of Byte.x02) then [(id_of Byte.x01, 0)] else [] in
  recovery_balances unlinked_input = Ok [(demo_account, 0)] /\
  final_delta (fun _ => []) (fun _ => []) inputs [demo_output] demo_account (id_of Byte.x02) = -30.
Proof. split; vm_compute; reflexivity. Qed.
End Reconcile.
