(* ===== verification/Migrations.v ===== *)
(** * Schema migrations: [core/src/migrations.rs]

    The two external migrations over the part of the schema the engine owns: its buffer table,
    the ad-hoc table and views of earlier builds, the two views.  The migrator applies a migration
    in a transaction once its dependencies are applied, in whatever order that allows, between
    upstream's own; it is a step relation.  Upstream leaves the engine's names alone, as its
    reserved prefix promises. *)

From S2P Require Import Reconcile.

Module Migrations.
Import GraftBuffer Reconcile.

(** [Uuid]s as numbers. *)
Definition MIGRATION_ID_EXT_SCHEMA_INIT : Z := 0x5903e19057c44a4587011edd943a4330.
Definition MIGRATION_ID_EXT_RECONCILE_IRONWOOD : Z := 0x9b1c2f047d3a4c58bf162a0e5c8d41e7.

(** A view's body: the reconcile view by its arms, the balance view, a view of an earlier build. *)
Inductive ViewBody := ReconcileView (arms : list ShieldedPool) | RecoveryBalanceView | EarlierView (sql : string).
Record Schema := mkSchema { buffers : gmap string Table; views : gmap string ViewBody }.
#[export] Instance eta_Schema : Eta Schema := fun s => mkSchema s.(buffers) s.(views).

Definition EXT_BUFFER : string := "ext_slipstream_graft_buffer".
Definition LEGACY_BUFFER : string := "slipstream_graft_buffer".
Definition RECONCILE_VIEW_NAME : string := "ext_slipstream_v_tx_reconciled".
Definition BALANCE_VIEW_NAME : string := "ext_slipstream_v_recovery_balance".
Definition LEGACY_RECONCILE : string := "slipstream_v_tx_reconciled".
Definition LEGACY_BALANCE : string := "slipstream_v_recovery_balance".

(** ** Statements *)

Definition taken (s : Schema) (name : string) : bool :=
  bool_decide (is_Some (s.(buffers) !! name)) || bool_decide (is_Some (s.(views) !! name)).
Definition create_table (name : string) (s : Schema) : result string Schema :=
  if taken s name then Err ("table " +:+ name +:+ " already exists") else Ok (s <| buffers := <[name := ∅]> s.(buffers) |>).
Definition create_view (name : string) (body : ViewBody) (s : Schema) : result string Schema :=
  if taken s name then Err ("view " +:+ name +:+ " already exists") else Ok (s <| views := <[name := body]> s.(views) |>).
Definition drop_view_if_exists (name : string) (s : Schema) : result string Schema :=
  if bool_decide (is_Some (s.(buffers) !! name)) then Err ("use DROP TABLE to delete table " +:+ name)
  else Ok (s <| views := delete name s.(views) |>).
(** [INSERT INTO .. SELECT], which a row with a key in the table fails, then [DROP TABLE]. *)
Definition adopt (s : Schema) : result string Schema :=
  match s.(buffers) !! LEGACY_BUFFER, s.(buffers) !! EXT_BUFFER with
  | Some old, Some rows =>
    if bool_decide (rows ##ₘ old) then Ok (s <| buffers := delete LEGACY_BUFFER (<[EXT_BUFFER := rows ∪ old]> s.(buffers)) |>)
    else Err "UNIQUE constraint failed"
  | _, _ => Err "no such table"
  end.

(** ** The migrations *)

Definition create_views (s : Schema) : result string Schema :=
  let? s := create_view RECONCILE_VIEW_NAME (ReconcileView RECONCILE_ARMS) s in
  create_view BALANCE_VIEW_NAME RecoveryBalanceView s.
(** [ExtSchemaInit::up]. *)
Definition init_up (s : Schema) : result string Schema :=
  let? s := create_table EXT_BUFFER s in
  let? s := if bool_decide (is_Some (s.(buffers) !! LEGACY_BUFFER)) then adopt s else Ok s in
  let? s := drop_view_if_exists LEGACY_BALANCE s in
  let? s := drop_view_if_exists LEGACY_RECONCILE s in
  create_views s.
(** [ExtReconcileIronwood::up]. *)
Definition ironwood_up (s : Schema) : result string Schema :=
  let? s := drop_view_if_exists BALANCE_VIEW_NAME s in
  let? s := drop_view_if_exists RECONCILE_VIEW_NAME s in
  create_views s.
(** [down] of either. *)
Definition down (id : Z) (s : Schema) : result string Schema := Err ("cannot revert " +:+ pretty id).

Record Migration := mkMigration { id : Z; dependencies : list Z; up : Schema -> result string Schema }.

Section Migrator.
Context (V_0_19_0 V_0_22_0_RC2 : list Z).

Definition ExtSchemaInit : Migration := mkMigration MIGRATION_ID_EXT_SCHEMA_INIT V_0_19_0 init_up.
Definition ExtReconcileIronwood : Migration :=
  mkMigration MIGRATION_ID_EXT_RECONCILE_IRONWOOD (V_0_22_0_RC2 ++ [MIGRATION_ID_EXT_SCHEMA_INIT]) ironwood_up.
(** [external_migrations]. *)
Definition external_migrations : list Migration := [ExtSchemaInit; ExtReconcileIronwood].

(** The migrator: a migration of ours whose [up] succeeds is recorded, one that fails changes
    nothing; upstream's keep our objects. *)
Inductive step : Schema * gset Z -> Schema * gset Z -> Prop :=
| StepOurs m s s' applied : m ∈ external_migrations -> m.(id) ∉ applied ->
    (forall d, d ∈ m.(dependencies) -> d ∈ applied) -> m.(up) s = Ok s' -> step (s, applied) (s', {[m.(id)]} ∪ applied)
| StepRefused m s applied : m ∈ external_migrations -> m.(id) ∉ applied -> step (s, applied) (s, applied)
| StepUpstream i s applied : i <> MIGRATION_ID_EXT_SCHEMA_INIT -> i <> MIGRATION_ID_EXT_RECONCILE_IRONWOOD ->
    step (s, applied) (s, {[i]} ∪ applied).

(** ** Every wallet comes out current *)

(** The buffered rows a schema holds, under either name. *)
Definition buffered (s : Schema) : Table := default ∅ (s.(buffers) !! EXT_BUFFER) ∪ default ∅ (s.(buffers) !! LEGACY_BUFFER).
Definition free_of (s : Schema) (names : list string) : Prop := forall n, n ∈ names -> s.(buffers) !! n = None /\ s.(views) !! n = None.
Definition no_table (s : Schema) (names : list string) : Prop := forall n, n ∈ names -> s.(buffers) !! n = None.
(** A wallet of any build: before our first migration none of our names is in use, though an ad-hoc
    buffer and views may be; after it the buffer is ours; after the second the views are current. *)
Definition before_init (s : Schema) : Prop :=
  free_of s [EXT_BUFFER; RECONCILE_VIEW_NAME; BALANCE_VIEW_NAME] /\ s.(views) !! LEGACY_BUFFER = None /\
  no_table s [LEGACY_BALANCE; LEGACY_RECONCILE].
Definition after_init (s : Schema) : Prop :=
  is_Some (s.(buffers) !! EXT_BUFFER) /\ no_table s [LEGACY_BUFFER; RECONCILE_VIEW_NAME; BALANCE_VIEW_NAME] /\
  s.(views) !! LEGACY_BALANCE = None /\ s.(views) !! LEGACY_RECONCILE = None.
Definition current (s : Schema) : Prop :=
  after_init s /\ s.(views) !! RECONCILE_VIEW_NAME = Some (ReconcileView RECONCILE_ARMS) /\
  s.(views) !! BALANCE_VIEW_NAME = Some RecoveryBalanceView.
Definition wallet_ok (w : Schema * gset Z) : Prop :=
  let '(s, applied) := w in
  (MIGRATION_ID_EXT_SCHEMA_INIT ∉ applied -> before_init s /\ MIGRATION_ID_EXT_RECONCILE_IRONWOOD ∉ applied) /\
  (MIGRATION_ID_EXT_SCHEMA_INIT ∈ applied -> after_init s) /\
  (MIGRATION_ID_EXT_RECONCILE_IRONWOOD ∈ applied -> current s).

Ltac names := unfold EXT_BUFFER, LEGACY_BUFFER, RECONCILE_VIEW_NAME, BALANCE_VIEW_NAME, LEGACY_RECONCILE, LEGACY_BALANCE in *.
Lemma create_views_ok s : free_of s [RECONCILE_VIEW_NAME; BALANCE_VIEW_NAME] ->
  create_views s = Ok (s <| views := <[BALANCE_VIEW_NAME := RecoveryBalanceView]>
                               (<[RECONCILE_VIEW_NAME := ReconcileView RECONCILE_ARMS]> s.(views)) |>).
Proof.
  intros Hf. destruct (Hf RECONCILE_VIEW_NAME ltac:(set_solver)) as [H1 H2], (Hf BALANCE_VIEW_NAME ltac:(set_solver)) as [H3 H4].
  unfold create_views, create_view, taken. rewrite H1, H2. cbn. rewrite H3. by rewrite lookup_insert_ne, H4.
Qed.

Lemma drop_view_ok name s : s.(buffers) !! name = None -> drop_view_if_exists name s = Ok (s <| views := delete name s.(views) |>).
Proof. intros H. unfold drop_view_if_exists. by rewrite H. Qed.
(** The part of [init_up] before the views: an empty buffer, or the adopted one. *)
Lemma init_buffers_ok s : before_init s ->
  exists b, (let? s := create_table EXT_BUFFER s in
             if bool_decide (is_Some (s.(buffers) !! LEGACY_BUFFER)) then adopt s else Ok s) = Ok (s <| buffers := b |>) /\
    b !! EXT_BUFFER = Some (default ∅ (s.(buffers) !! LEGACY_BUFFER)) /\ b !! LEGACY_BUFFER = None /\
    forall n, n <> EXT_BUFFER -> n <> LEGACY_BUFFER -> b !! n = s.(buffers) !! n.
Proof.
  intros (Hf & _ & _). destruct (Hf EXT_BUFFER ltac:(set_solver)) as [H1 H2].
  unfold create_table, taken. rewrite H1, H2. cbn [bool_decide decide_rel orb result_bind].
  cbn. rewrite lookup_insert_ne by done. destruct (buffers s !! LEGACY_BUFFER) as [old|] eqn:El.
  - rewrite bool_decide_true by done. unfold adopt. cbn. rewrite lookup_insert_ne, El, lookup_insert_eq by done.
    rewrite bool_decide_true by apply map_disjoint_empty_l. eexists. split; [done|].
    rewrite lookup_delete_ne, lookup_insert_eq, lookup_delete_eq, map_empty_union by done. split_and!; [done..|].
    intros n Hn Hn'. by rewrite lookup_delete_ne, !lookup_insert_ne.
  - rewrite bool_decide_false by (by intros []). eexists. split; [done|]. rewrite lookup_insert_eq, lookup_insert_ne, El by done.
    split_and!; [done..|]. intros n Hn Hn'. by rewrite lookup_insert_ne.
Qed.

Lemma init_up_ok s : before_init s -> exists s', init_up s = Ok s' /\ current s' /\ buffered s' = buffered s.
Proof.
  intros Hb. destruct (init_buffers_ok s Hb) as (b & E & Hx & Hl & Hn). destruct Hb as (Hf & Hv & Ht).
  assert (forall n, n ∈ [RECONCILE_VIEW_NAME; BALANCE_VIEW_NAME; LEGACY_BALANCE; LEGACY_RECONCILE] -> b !! n = None) as Hb.
  { intros n Hin. rewrite Hn by (intros ->; revert Hin; by apply (bool_decide_unpack _)).
    apply elem_of_cons in Hin as [->|Hin]; [apply Hf; right; left|].
    apply elem_of_cons in Hin as [->|Hin]; [apply Hf; right; right; left|]. by apply Ht. }
  unfold init_up. destruct (create_table EXT_BUFFER s) as [s1|]; cbn [result_bind] in *; [|done]. rewrite E. cbn [result_bind].
  rewrite drop_view_ok by (apply Hb; set_solver). cbn [result_bind]. rewrite drop_view_ok by (apply Hb; set_solver). cbn [result_bind].
  rewrite create_views_ok.
  - eexists. split; [done|]. unfold current, after_init, no_table, buffered. cbn. rewrite Hx, Hl. split; [split_and!|].
    + eauto.
    + intros n Hin. repeat (apply elem_of_cons in Hin as [->|Hin]); [done|apply Hb; set_solver..|set_solver].
    + by rewrite !lookup_insert_ne, lookup_delete_ne, lookup_delete_eq by done.
    + by rewrite !lookup_insert_ne, lookup_delete_eq by done.
    + by rewrite lookup_insert_ne, lookup_insert_eq by done.
    + by rewrite lookup_insert_eq.
    + cbn. rewrite (proj1 (Hf EXT_BUFFER ltac:(set_solver))). cbn. by rewrite map_empty_union, map_union_empty.
  - intros n Hin. cbn. split; [apply Hb; set_solver|].
    assert (s.(views) !! n = None) as H0 by (apply Hf; set_solver). rewrite !lookup_delete_ne; [done|..];
      intros <-; revert Hin; by apply (bool_decide_unpack _).
Qed.
Lemma ironwood_up_ok s : after_init s -> exists s', ironwood_up s = Ok s' /\ current s' /\ buffered s' = buffered s.
Proof.
  intros (Hx & Ht & Hl1 & Hl2). unfold ironwood_up. rewrite drop_view_ok by (apply Ht; set_solver). cbn [result_bind].
  rewrite drop_view_ok by (apply Ht; set_solver). cbn [result_bind]. rewrite create_views_ok.
  - eexists. split; [done|]. split; [|done]. unfold current, after_init. cbn. split_and!; [done..| | | |].
    + by rewrite !lookup_insert_ne, !lookup_delete_ne.
    + by rewrite !lookup_insert_ne, !lookup_delete_ne.
    + by rewrite lookup_insert_ne, lookup_insert_eq.
    + by rewrite lookup_insert_eq.
  - intros n Hin. cbn. split; [apply Ht; set_solver|]. apply elem_of_cons in Hin as [->| ->%list_elem_of_singleton].
    + by rewrite lookup_delete_eq.
    + by rewrite lookup_delete_ne, lookup_delete_eq.
Qed.

Lemma up_ok m s applied : m ∈ external_migrations -> m.(id) ∉ applied -> (forall d, d ∈ m.(dependencies) -> d ∈ applied) ->
  wallet_ok (s, applied) -> exists s', m.(up) s = Ok s' /\ current s' /\ buffered s' = buffered s.
Proof.
  intros [->| ->%list_elem_of_singleton]%elem_of_cons Hid Hd (H1 & H2 & H3).
  - apply init_up_ok. by apply H1.
  - apply ironwood_up_ok. apply H2, Hd. cbn. set_solver.
Qed.
Lemma step_ok w w' : wallet_ok w -> step w w' -> wallet_ok w' /\ buffered w'.1 = buffered w.1.
Proof.
  intros Hw Hs. destruct Hs as [m s s' applied Hm Hid Hd Hup|m s applied _ _|i s applied Hi Hi']; [|done|].
  - destruct (up_ok m s applied Hm Hid Hd Hw) as (s2 & E & Hc & Hb). assert (s2 = s') as -> by congruence. split; [|done].
    destruct Hw as (H1 & H2 & H3). split_and!.
    + intros Hn. exfalso. apply elem_of_cons in Hm as [->| ->%list_elem_of_singleton]; [cbn in Hn; set_solver|].
      apply Hn. apply elem_of_union_r, Hd. cbn. set_solver.
    + intros _. apply Hc.
    + intros _. exact Hc.
  - destruct Hw as (H1 & H2 & H3). split; [|done]. split_and!.
    + intros Hn. destruct H1 as [? ?]; [set_solver|]. split; [done|]. set_solver.
    + intros Hn. apply H2. set_solver.
    + intros Hn. apply H3. set_solver.
Qed.

(** C27: Whatever build a wallet comes from and in whatever order the migrator interleaves our
    migrations with upstream's, at every point of a run all buffered rows are there under one name
    or the other, a migration of ours whose dependencies are applied succeeds, and once both are
    applied the views look at all three pools, the rows are in our table and nothing is left under
    the earlier names. *)
Theorem migrations_reach_current w s applied :
  wallet_ok w -> rtc step w (s, applied) ->
  buffered s = buffered w.1 /\
  (forall m, m ∈ external_migrations -> m.(id) ∉ applied -> (forall d, d ∈ m.(dependencies) -> d ∈ applied) ->
     exists s', m.(up) s = Ok s') /\
  ((forall m, m ∈ external_migrations -> m.(id) ∈ applied) ->
     current s /\ s.(buffers) !! LEGACY_BUFFER = None /\ s.(buffers) !! EXT_BUFFER = Some (buffered w.1)).
Proof.
  intros Hw Hr. assert (wallet_ok (s, applied) /\ buffered s = buffered w.1) as [Hs Hb].
  { remember (s, applied) as w' eqn:E. assert (s = w'.1) as -> by (by subst). clear E applied.
    induction Hr as [w|w w1 w2 H1 Hr IH]; [done|]. destruct (step_ok _ _ Hw H1) as [Hw1 Hb1].
    destruct (IH Hw1) as [? Hb2]. split; [done|]. by rewrite Hb2. }
  split_and!; [done| |].
  - intros m Hm Hid Hd. destruct (up_ok m s applied Hm Hid Hd Hs) as (s' & ? & _). eauto.
  - intros Ha. assert (current s) as Hc by (apply Hs, (Ha ExtReconcileIronwood); right; left).
    split; [done|]. destruct Hc as ((Hx & Hno & _) & _). assert (s.(buffers) !! LEGACY_BUFFER = None) as Hl by (apply Hno; left).
    split; [done|]. rewrite <- Hb. unfold buffered. rewrite Hl. destruct Hx as [t ->]. cbn. by rewrite map_union_empty.
Qed.
End Migrator.

(** A wallet of an earlier build, with two buffered rows and both ad-hoc views. *)
Definition legacy_rows : Table :=
  <[(3, 7, 100) := mkEnc [Byte.x01] 0 None None]> (<[(3, 7, 101) := mkEnc [Byte.x02] 2 (Some 123) (Some 1)]> ∅).
Definition legacy_wallet : Schema :=
  mkSchema (<[LEGACY_BUFFER := legacy_rows]> ∅)
    (<[LEGACY_RECONCILE := EarlierView "SELECT txid, 1 AS reconciled FROM transactions"]>
       (<[LEGACY_BALANCE := EarlierView "SELECT 'none' AS account_uuid, 0 AS balance_zat"]> ∅)).
(** A wallet of the build before Ironwood: its reconcile view has two arms. *)
Definition two_pool_wallet : Schema :=
  mkSchema (<[EXT_BUFFER := legacy_rows]> ∅)
    (<[RECONCILE_VIEW_NAME := ReconcileView [Sapling; Orchard]]> (<[BALANCE_VIEW_NAME := RecoveryBalanceView]> ∅)).

Ltac each_name := intros n Hin; repeat (apply elem_of_cons in Hin as [->|Hin]); [..|by apply not_elem_of_nil in Hin]; done.
Lemma legacy_wallet_ok : wallet_ok (legacy_wallet, {[1; 2]}).
Proof.
  split_and!.
  - intros _. split; [split_and!; [each_name|done|each_name]|]. by apply (bool_decide_unpack _).
  - intros H. exfalso. revert H. by apply (bool_decide_unpack _).
  - intros H. exfalso. revert H. by apply (bool_decide_unpack _).
Qed.
Lemma two_pool_wallet_ok : wallet_ok (two_pool_wallet, {[MIGRATION_ID_EXT_SCHEMA_INIT]}).
Proof.
  split_and!.
  - intros H. exfalso. apply H. set_solver.
  - intros _. split_and!; [by eexists|each_name|done..].
  - intros H. exfalso. revert H. by apply (bool_decide_unpack _).
Qed.
(** The stale view is rebuilt in place. *)
Example two_pool_wallet_rebuilt :
  (let? s := ironwood_up two_pool_wallet in Ok (s.(views) !! RECONCILE_VIEW_NAME)) =
  Ok (Some (ReconcileView RECONCILE_ARMS)).
Proof. vm_compute. reflexivity. Qed.
Lemma migrations_reach_current_witness :
  exists s1 s2, init_up legacy_wallet = Ok s1 /\ ironwood_up s1 = Ok s2 /\ s2.(buffers) !! EXT_BUFFER = Some legacy_rows /\
    s2.(views) !! RECONCILE_VIEW_NAME = Some (ReconcileView RECONCILE_ARMS).
Proof.
  destruct (init_up legacy_wallet) as [s1|e] eqn:E1; [|vm_compute in E1; discriminate E1].
  destruct (ironwood_up s1) as [s2|e] eqn:E2; [|vm_compute in E1; injection E1 as <-; vm_compute in E2; discriminate E2].
  exists s1, s2. split; [done|]. split; [done|].
  destruct (migrations_reach_current [1] [2] (legacy_wallet, {[1; 2]}) s2
    ({[MIGRATION_ID_EXT_RECONCILE_IRONWOOD]} ∪ ({[MIGRATION_ID_EXT_SCHEMA_INIT]} ∪ {[1; 2]}))) as (_ & _ & H).
  - apply legacy_wallet_ok.
  - eapply rtc_l; [|eapply rtc_l; [|apply rtc_refl]].
    + apply (StepOurs [1] [2] (ExtSchemaInit [1])); [left|by apply (bool_decide_unpack _)| |done].
      intros d ->%list_elem_of_singleton. by apply (bool_decide_unpack _).
    + apply (StepOurs [1] [2] (ExtReconcileIronwood [2])); [right; left|by apply (bool_decide_unpack _)| |done].
      intros d [->| ->%list_elem_of_singleton]%elem_of_cons; by apply (bool_decide_unpack _).
  - destruct H as (Hc & _ & Hx).
    + intros m [->| ->%list_elem_of_singleton]%elem_of_cons; by apply (bool_decide_unpack _).
    + split; [exact Hx|apply Hc].
Defined.
End Migrations.
