(* ===== verification/FetchPlan.v ===== *)
(** * The fetch plan: [core/src/fetch.rs]

    [FetchPlan] cuts a block range into plan chunks that the workers claim from a
    shared cursor.  [WireFailoverArm] carries the thresholds of the wire-collapse
    detector; rates and seconds are the kernel's IEEE binary64 numbers. *)

From S2P Require Export Blocks.

#[local] Set Warnings "-inexact-float".

(** [struct WireFailoverArm] and its [Default]. *)
Record WireFailoverArm := mkWireFailoverArm {
  stall_secs : Z;
  collapse_fraction : float;
  painful_mbps : float;
  floor_mbps : float;
}.

Definition wire_failover_default : WireFailoverArm := mkWireFailoverArm 12 0.15 2.0 0.2.

Definition DEFAULT_CHUNK_SPLIT_BYTES : Z := 8 * 1024 * 1024.

Module FetchPlan.

(** [struct FetchPlan]; [end_] is inclusive, [chunk_timeout] in seconds. *)
Record FetchPlan := mkFetchPlan {
  start : Z;
  end_ : Z;
  chunk_blocks : Z;
  streams : Z;
  retries_per_chunk : Z;
  chunk_timeout : Z;
  split_bytes : Z;
  failover : option WireFailoverArm;
}.

(** [FetchPlan::new]; [None] is one of its two assertion panics. *)
Definition new (start end_ chunk_blocks streams : Z) : option FetchPlan :=
  if (start <=? end_) && (0 <? chunk_blocks)
  then Some (mkFetchPlan start end_ chunk_blocks streams 3 120 DEFAULT_CHUNK_SPLIT_BYTES None)
  else None.

Definition chunk_count (p : FetchPlan) : Z :=
  div_ceil (u64_add (u64_sub p.(end_) p.(start)) 1) p.(chunk_blocks).

Definition chunk_range (p : FetchPlan) (index : Z) : Z * Z :=
  let s := u64_add p.(start) (u64_mul index p.(chunk_blocks)) in
  let e := Z.min (u64_sub (u64_add s p.(chunk_blocks)) 1) p.(end_) in
  (s, e).

(** [usize] is 64 bits wide, so the conversion of the chunk count never saturates. *)
Definition worker_count (p : FetchPlan) : Z := Z.min (Z.max p.(streams) 1) (chunk_count p).

(** [claim_chunk]: the shared cursor after the [fetch_add], and the claim. *)
Definition claim_chunk (p : FetchPlan) (next : Z) : Z * option (Z * Z * Z) :=
  let index := next in
  (u64_add next 1,
   if chunk_count p <=? index then None
   else let '(s, e) := chunk_range p index in Some (index, s, e)).

(** A plan over block heights: they and the chunk length fit in 32 bits. *)
Definition plan_ok (p : FetchPlan) : Prop :=
  0 <= p.(start) <= p.(end_) /\ p.(end_) <= u32_max /\ 1 <= p.(chunk_blocks) <= u32_max.

(** The claims of [n] successive [fetch_add]s of the cursor, whichever workers
    make them. *)
Fixpoint claims (p : FetchPlan) (n : nat) (next : Z) : list (option (Z * Z * Z)) :=
  match n with
  | O => []
  | S n' => let '(next', c) := claim_chunk p next in c :: claims p n' next'
  end.

Definition blocks_of (c : Z * Z * Z) : list Z := let '(_, s, e) := c in seqZ s (e - s + 1).

(** ** Bounds *)

Lemma chunk_count_eq p : plan_ok p ->
  chunk_count p = div_ceil (p.(end_) - p.(start) + 1) p.(chunk_blocks).
Proof.
  intros (H1 & H2 & H3). unfold chunk_count. unfold u32_max in *.
  rewrite u64_sub_small by (unfold is_u64, u64_max; lia).
  by rewrite u64_add_small by (unfold is_u64, u64_max; lia).
Qed.

Lemma chunk_count_spec p : plan_ok p ->
  (chunk_count p - 1) * p.(chunk_blocks) < p.(end_) - p.(start) + 1
    <= chunk_count p * p.(chunk_blocks).
Proof.
  intros Hp. rewrite chunk_count_eq by done. destruct Hp as (H1 & H2 & H3).
  apply div_ceil_spec; lia.
Qed.

Lemma chunk_count_bounds p : plan_ok p -> 1 <= chunk_count p <= 2 ^ 32.
Proof.
  intros Hp. pose proof (chunk_count_spec p Hp) as Hs. destruct Hp as (H1 & H2 & H3).
  unfold u32_max in *. split; [nia|]. nia.
Qed.

Lemma chunk_range_eq p i : plan_ok p -> 0 <= i < chunk_count p ->
  chunk_range p i = (p.(start) + i * p.(chunk_blocks),
    Z.min (p.(start) + (i + 1) * p.(chunk_blocks) - 1) p.(end_)).
Proof.
  intros Hp Hi. pose proof (chunk_count_spec p Hp) as Hs. destruct Hp as (H1 & H2 & H3).
  unfold chunk_range, u32_max in *.
  assert (0 <= i * p.(chunk_blocks) <= u64_max) by (unfold u64_max; nia).
  rewrite (u64_mul_small i) by (unfold is_u64; lia).
  assert (p.(start) + i * p.(chunk_blocks) <= 2 ^ 33) by nia.
  rewrite (u64_add_small p.(start)) by (unfold is_u64, u64_max; nia).
  rewrite u64_add_small by (unfold is_u64, u64_max; nia).
  rewrite u64_sub_small by (unfold is_u64, u64_max; nia). f_equal. f_equal. lia.
Qed.

(** Chunk [i] is within the plan and not empty. *)
Lemma chunk_range_bounds p i s e : plan_ok p -> 0 <= i < chunk_count p -> chunk_range p i = (s, e) ->
  p.(start) <= s <= e /\ e <= p.(end_) /\ e - s < p.(chunk_blocks) /\
  (i = chunk_count p - 1 -> e = p.(end_)) /\ (i = 0 -> s = p.(start)).
Proof.
  intros Hp Hi. rewrite chunk_range_eq by done. intros [= <- <-].
  pose proof (chunk_count_spec p Hp) as Hs. destruct Hp as (H1 & H2 & H3).
  repeat split; try nia.
Qed.

(** Chunk [i + 1] starts right after chunk [i]. *)
Lemma chunk_range_next p i s e : plan_ok p -> 0 <= i -> i + 1 < chunk_count p ->
  chunk_range p i = (s, e) -> (chunk_range p (i + 1)).1 = e + 1.
Proof.
  intros Hp Hi Hlt. rewrite !chunk_range_eq by (done || lia). intros [= <- <-].
  pose proof (chunk_count_spec p Hp) as Hs. destruct Hp as (H1 & H2 & H3). simpl. nia.
Qed.

Definition range_blocks (p : FetchPlan) (i : Z) : list Z :=
  seqZ (chunk_range p i).1 ((chunk_range p i).2 - (chunk_range p i).1 + 1).

Lemma range_blocks_prefix p n : plan_ok p -> Z.of_nat n <= chunk_count p ->
  mjoin (range_blocks p <$> seqZ 0 (Z.of_nat n)) =
    seqZ p.(start) (Z.min (Z.of_nat n * p.(chunk_blocks)) (p.(end_) - p.(start) + 1)).
Proof.
  intros Hp. induction n as [|n IH]; intros Hn.
  { destruct Hp as (H1 & _ & H3). simpl. by rewrite Z.min_l by lia. }
  rewrite seqZ_S, fmap_app, join_app, IH by lia. csimpl. rewrite app_nil_r.
  unfold range_blocks. rewrite chunk_range_eq by (done || lia). simpl.
  pose proof (chunk_count_spec p Hp) as Hs. destruct Hp as (H1 & H2 & H3).
  assert (Z.of_nat (S n) * p.(chunk_blocks) = Z.of_nat n * p.(chunk_blocks) + p.(chunk_blocks)) as Hm by lia.
  assert (0 <= Z.of_nat n * p.(chunk_blocks)) by lia.
  assert (Z.of_nat n * p.(chunk_blocks) < p.(end_) - p.(start) + 1) by nia.
  rewrite Z.min_l by lia.
  replace (Z.min (Z.of_nat (S n) * p.(chunk_blocks)) (p.(end_) - p.(start) + 1)) with
    (Z.of_nat n * p.(chunk_blocks) + Z.min p.(chunk_blocks)
       (p.(end_) - p.(start) + 1 - Z.of_nat n * p.(chunk_blocks))) by lia.
  rewrite (seqZ_app p.(start) (Z.of_nat n * p.(chunk_blocks))) by lia. f_equal. f_equal; lia.
Qed.

Lemma claims_eq p n next : plan_ok p -> 0 <= next -> next + Z.of_nat n <= 2 ^ 63 ->
  claims p n next = (fun i => if chunk_count p <=? i then None
                              else Some (i, (chunk_range p i).1, (chunk_range p i).2))
                    <$> seqZ next (Z.of_nat n).
Proof.
  intros Hp. revert next. induction n as [|n IH]; intros next H0 Hn; [done|].
  rewrite Nat2Z.inj_succ, seqZ_cons by lia. rewrite Z.pred_succ. csimpl. f_equal.
  rewrite u64_add_small by (unfold is_u64, u64_max; lia). rewrite IH by lia. by rewrite Z.add_1_r.
Qed.

(** Whatever the number of workers and the order they claim in, the claimed plan chunks cover
    the requested blocks exactly once, in order: claiming until the cursor runs out yields
    each block of [start..=end] once, and every further claim yields nothing. *)
Theorem claims_partition_range p n : plan_ok p -> chunk_count p <= Z.of_nat n <= 2 ^ 63 ->
  mjoin (blocks_of <$> omap id (claims p n 0)) = seqZ p.(start) (p.(end_) - p.(start) + 1).
Proof.
  intros Hp Hn. rewrite claims_eq by (done || lia).
  replace (Z.of_nat n) with (Z.of_nat (Z.to_nat (chunk_count p)) + (Z.of_nat n - chunk_count p)) by
    (pose proof (chunk_count_bounds p Hp); lia).
  pose proof (chunk_count_bounds p Hp) as Hb.
  rewrite seqZ_app, fmap_app, omap_app, fmap_app, join_app by lia.
  rewrite <-(app_nil_r (seqZ p.(start) _)). f_equal.
  - transitivity (mjoin (range_blocks p <$> seqZ 0 (Z.of_nat (Z.to_nat (chunk_count p))))).
    + f_equal. assert (Forall (fun i => 0 <= i < chunk_count p)
        (seqZ 0 (Z.of_nat (Z.to_nat (chunk_count p))))) as Hall.
      { apply Forall_forall. intros i Hi%elem_of_seqZ. lia. }
      induction Hall as [|i l Hi _ IH]; [done|]. csimpl.
      rewrite (proj2 (Z.leb_gt _ _)) by lia. csimpl. by rewrite <-IH.
    + rewrite range_blocks_prefix by (done || lia). f_equal.
      pose proof (chunk_count_spec p Hp). lia.
  - assert (Forall (fun i => chunk_count p <= i)
      (seqZ (0 + Z.of_nat (Z.to_nat (chunk_count p))) (Z.of_nat n - chunk_count p))) as Hall.
    { apply Forall_forall. intros i Hi%elem_of_seqZ. lia. }
    induction Hall as [|i l Hi _ IH]; [done|]. csimpl. by rewrite (proj2 (Z.leb_le _ _)) by lia.
Qed.

Definition sample_plan : FetchPlan := mkFetchPlan 100 124 10 4 3 120 1000 None.

Example claims_partition_range_instance :
  mjoin (blocks_of <$> omap id (claims sample_plan 5 0)) = seqZ 100 25.
Proof.
  apply (claims_partition_range sample_plan 5).
  - repeat split; vm_compute; discriminate.
  - split; vm_compute; discriminate.
Qed.

(** A fetch starts at least one worker, at most one per plan chunk, and at most the configured
    number of streams (one when none is configured). *)
Theorem worker_count_bounds p : plan_ok p ->
  1 <= worker_count p <= chunk_count p /\ worker_count p <= Z.max p.(streams) 1.
Proof. intros Hp. pose proof (chunk_count_bounds p Hp). unfold worker_count. lia. Qed.

Example worker_count_bounds_instance :
  1 <= worker_count sample_plan <= chunk_count sample_plan /\
  worker_count sample_plan <= Z.max (streams sample_plan) 1.
Proof. apply worker_count_bounds. repeat split; vm_compute; discriminate. Qed.

End FetchPlan.
