(* ===== verification/WireDetector.v ===== *)
(** * The wire-collapse detector and the fetch statistics: [core/src/fetch.rs]

    [WireDetector] watches the reorder stage: sub-chunk arrivals and seconds spent
    waiting with nothing arriving.  It raises [WireCollapse] on a full stall or on
    a collapsed rate, and only after a warm-up.  All rates and clocks are IEEE
    binary64, evaluated by the kernel; the properties quantify over every float,
    NaN and infinities included. *)

From S2P Require Export FetchPlan.

(** [x as f64] for an unsigned integer: round to nearest, ties to even. *)
Definition u64_as_f64 (x : Z) : float := SF2Prim (binary_normalize prec emax x 0 false).

Module WireDetector.
Local Open Scope float_scope.
#[local] Set Warnings "-inexact-float".

Definition MIB : float := 1024.0 * 1024.0.

(** [struct WireDetector]. *)
Record WireDetector := mkWireDetector {
  arm : WireFailoverArm;
  samples : list (float * Z);
  cum_bytes : Z;
  starve_secs : Z;
  best_window_mbps : float;
}.

Definition DETECT_WINDOW_S : float := 10.0.
Definition DETECT_WARMUP_S : float := 15.0.
Definition DETECT_WARMUP_BYTES : Z := 4 * 1024 * 1024.

Definition new (arm : WireFailoverArm) : WireDetector := mkWireDetector arm [] 0 0 0.0.

Definition warmed_up (d : WireDetector) (now_s : float) : bool :=
  (DETECT_WARMUP_S <? now_s) && (DETECT_WARMUP_BYTES <? d.(cum_bytes))%Z.

(** Bytes at the window start: the last sample at or before [cut]. *)
Fixpoint window_base (cut : float) (samples_rev : list (float * Z)) : Z :=
  match samples_rev with
  | [] => 0
  | (t, b) :: rest => if t <=? cut then b else window_base cut rest
  end.

Definition window_mbps (d : WireDetector) (now_s : float) : option float :=
  let cut := now_s - DETECT_WINDOW_S in
  if cut <=? 0.0 then None
  else
    let base := window_base cut (reverse d.(samples)) in
    Some (u64_as_f64 (sat_sub d.(cum_bytes) base) / MIB / DETECT_WINDOW_S).

(** [f64::min] and [f64::max]: the other operand when one is NaN. *)
Definition fmin (a b : float) : float := if is_nan a then b else if is_nan b then a else if a <? b then a else b.
Definition fmax (a b : float) : float := if is_nan a then b else if is_nan b then a else if a <? b then b else a.

(** The verdict of an arrival that is past the warm-up. *)
Definition collapsed (a : WireFailoverArm) (best rate : float) : bool :=
  ((rate <? a.(collapse_fraction) * best) && (rate <? a.(painful_mbps))) || (rate <? a.(floor_mbps)).

(** [WireDetector::arrival]. *)
Definition arrival (bytes : Z) (now_s : float) (d : WireDetector) : WireDetector * Res unit :=
  let cum := u64_add d.(cum_bytes) bytes in
  let d1 := mkWireDetector d.(arm) (d.(samples) ++ [(now_s, cum)]) cum 0 d.(best_window_mbps) in
  match window_mbps d1 now_s with
  | None => (d1, Ok tt)
  | Some rate =>
    let best := if d1.(best_window_mbps) <? rate then rate else d1.(best_window_mbps) in
    let d2 := mkWireDetector d1.(arm) d1.(samples) d1.(cum_bytes) d1.(starve_secs) best in
    if negb (warmed_up d2 now_s) then (d2, Ok tt)
    else
      let relative_floor := d2.(arm).(collapse_fraction) * best in
      if collapsed d2.(arm) best rate
      then (d2, Err (WireCollapse rate
              (fmax (fmin relative_floor d2.(arm).(painful_mbps)) d2.(arm).(floor_mbps))))
      else (d2, Ok tt)
  end.

(** [WireDetector::starve_tick]. *)
Definition starve_tick (now_s : float) (d : WireDetector) : WireDetector * Res unit :=
  let d1 := mkWireDetector d.(arm) d.(samples) d.(cum_bytes) (u64_add d.(starve_secs) 1)
              d.(best_window_mbps) in
  if warmed_up d1 now_s && (d1.(arm).(stall_secs) <=? d1.(starve_secs))%Z
  then (d1, Err (WireCollapse 0.0 d1.(arm).(floor_mbps)))
  else (d1, Ok tt).

(** One observation of the reorder stage. *)
Inductive Obs := Arrived (bytes : Z) (now_s : float) | Starved (now_s : float).

Definition observe (d : WireDetector) (o : Obs) : WireDetector * Res unit :=
  match o with Arrived b t => arrival b t d | Starved t => starve_tick t d end.

Definition obs_time (o : Obs) : float := match o with Arrived _ t => t | Starved t => t end.

(** The detector over a sequence of observations, up to the first error. *)
Fixpoint watch (d : WireDetector) (os : list Obs) : WireDetector * Res unit :=
  match os with
  | [] => (d, Ok tt)
  | o :: os' =>
    match observe d o with
    | (d', Ok _) => watch d' os'
    | (d', Err e) => (d', Err e)
    end
  end.

(** ** [FetchStats] *)

(** [struct FetchStats]; [elapsed] in seconds. *)
Record FetchStats := mkFetchStats {
  st_blocks : Z;
  st_bytes : Z;
  elapsed : float;
  wire_samples : list (float * Z);
}.

Definition blocks_per_sec (s : FetchStats) : float :=
  if 0.0 <? s.(elapsed) then u64_as_f64 s.(st_blocks) / s.(elapsed) else 0.0.

Definition megabytes_per_sec (s : FetchStats) : float :=
  if 0.0 <? s.(elapsed) then u64_as_f64 s.(st_bytes) / MIB / s.(elapsed) else 0.0.

(** The inner [while] of [worst_window_mbps]: the first sample, from [later] on,
    at least a window after [t]; with the samples from it on. *)
Fixpoint window_end (window_s t : float) (later : list (float * Z)) : option (float * Z * list (float * Z)) :=
  match later with
  | [] => None
  | (t', b) :: rest => if t' - t <? window_s then window_end window_s t rest else Some (t', b, later)
  end.

(** The outer loop: [cur] are the samples from index [i] on, [later] those from
    index [j] on; [j] never moves back and stays past [i], and the last sample
    starts no window. *)
Fixpoint worst_loop (window_s : float) (cur later : list (float * Z)) (worst : float) : float :=
  match cur with
  | [] => worst
  | (t, b) :: cur' =>
    match cur' with
    | [] => worst
    | _ =>
      let later := if (S (length cur') <=? length later)%nat then cur' else later in
      match window_end window_s t later with
      | None => worst
      | Some (t', b', later') =>
        worst_loop window_s cur' later' (fmin worst (u64_as_f64 (sat_sub b' b) / MIB / (t' - t)))
      end
    end
  end.

Definition worst_window_mbps (s : FetchStats) (window_s : float) : float :=
  let all := (0.0, 0%Z) :: s.(wire_samples) in
  if (length all <? 2)%nat then megabytes_per_sec s
  else
    let worst := worst_loop window_s all (drop 1 all) infinity in
    if is_finite worst then worst else megabytes_per_sec s.

(** ** Properties *)

(** Whether an observation fires, given the state before it. *)
Definition fires (d : WireDetector) (o : Obs) : bool := negb (is_ok (observe d o).2).

Lemma observe_arm d o : (observe d o).1.(arm) = d.(arm).
Proof.
  destruct o; simpl; unfold arrival, starve_tick; repeat case_match; simplify_eq/=; done.
Qed.

Lemma observe_starve d o : (observe d o).1.(starve_secs) =
  match o with Arrived _ _ => 0%Z | Starved _ => u64_add d.(starve_secs) 1 end.
Proof. destruct o; simpl; unfold arrival, starve_tick; repeat case_match; simplify_eq/=; done. Qed.

Lemma observe_cum d o : (observe d o).1.(cum_bytes) =
  match o with Arrived b _ => u64_add d.(cum_bytes) b | Starved _ => d.(cum_bytes) end.
Proof. destruct o; simpl; unfold arrival, starve_tick; repeat case_match; simplify_eq/=; done. Qed.

Lemma watch_app d os1 os2 : watch d (os1 ++ os2) =
  match (watch d os1).2 with Ok _ => watch (watch d os1).1 os2 | Err e => ((watch d os1).1, Err e) end.
Proof.
  revert d. induction os1 as [|o os1 IH]; intros d; simpl; [done|].
  destruct (observe d o) as [d' [[]|e]]; [apply IH|done].
Qed.

(** An observation never fires before the warm-up. *)
Lemma observe_cold d o : warmed_up (observe d o).1 (obs_time o) = false -> (observe d o).2 = Ok tt.
Proof.
  destruct o; simpl; unfold arrival, starve_tick; repeat case_match; simplify_eq/=; breflect;
    unfold warmed_up in *; simpl in *; intros; try congruence; done.
Qed.

(** Bytes arrived in a sequence of observations. *)
Definition arrived_bytes (os : list Obs) : Z :=
  foldr (fun o n => match o with Arrived b _ => (b + n)%Z | Starved _ => n end) 0%Z os.

Definition obs_ok (o : Obs) : Prop := match o with Arrived b _ => (0 <= b)%Z | Starved _ => True end.

Lemma arrived_bytes_nonneg os : Forall obs_ok os -> (0 <= arrived_bytes os)%Z.
Proof. induction 1 as [|[] ? ? ? ?]; simpl in *; lia. Qed.

Lemma watch_quiet_bytes os : Forall obs_ok os -> forall d,
  (0 <= d.(cum_bytes))%Z -> (d.(cum_bytes) + arrived_bytes os <= DETECT_WARMUP_BYTES)%Z ->
  (watch d os).2 = Ok tt.
Proof.
  induction 1 as [|o os Ho Hos IH]; intros d Hd Hb; simpl; [done|].
  pose proof (arrived_bytes_nonneg os Hos). unfold DETECT_WARMUP_BYTES in *.
  assert ((observe d o).1.(cum_bytes) + arrived_bytes os <= 4 * 1024 * 1024 /\
          0 <= (observe d o).1.(cum_bytes))%Z as [Hb' Hd'].
  { rewrite observe_cum. destruct o; simpl in *; [|lia].
    rewrite u64_add_small by (unfold is_u64, u64_max; lia). lia. }
  pose proof (observe_cold d o) as Hc. unfold warmed_up, DETECT_WARMUP_BYTES in Hc.
  rewrite (proj2 (Z.ltb_ge _ _)), andb_false_r in Hc by lia. specialize (Hc eq_refl).
  destruct (observe d o) as [d' r]. simpl in *. subst r. by apply IH.
Qed.

Lemma watch_quiet_time os : Forall (fun o => (DETECT_WARMUP_S <? obs_time o) = false) os ->
  forall d, (watch d os).2 = Ok tt.
Proof.
  induction 1 as [|o os Ho _ IH]; intros d; simpl; [done|].
  pose proof (observe_cold d o) as Hc. unfold warmed_up in Hc. rewrite Ho in Hc.
  specialize (Hc eq_refl). destruct (observe d o) as [d' r]. simpl in *. subst r. apply IH.
Qed.

(** The detector never fires during the connect and ramp grace: whatever it observes, a pass
    that is at most 15 seconds old, or has received at most 4 MiB, is never failed over. *)
Theorem detector_grace a os : Forall obs_ok os ->
  Forall (fun o => (DETECT_WARMUP_S <? obs_time o) = false) os \/
  (arrived_bytes os <= DETECT_WARMUP_BYTES)%Z ->
  (watch (new a) os).2 = Ok tt.
Proof.
  intros Hok [Ht|Hb]; [by apply watch_quiet_time|]. apply watch_quiet_bytes; simpl; [done|lia|lia].
Qed.

Example detector_grace_instance :
  (watch (new wire_failover_default) [Arrived 100 20.0; Starved 21.0; Starved 60.0]).2 = Ok tt.
Proof.
  apply detector_grace; [repeat constructor; simpl; lia|]. right. vm_compute. discriminate.
Qed.

Lemma starve_run d ts : Forall (fun t => (DETECT_WARMUP_S <? t) = true) ts ->
  (DETECT_WARMUP_BYTES < d.(cum_bytes))%Z -> (0 <= d.(starve_secs) < d.(arm).(stall_secs))%Z ->
  (d.(starve_secs) + Z.of_nat (length ts) < 2 ^ 63)%Z ->
  (watch d (Starved <$> ts)).2 =
    if (d.(arm).(stall_secs) <=? d.(starve_secs) + Z.of_nat (length ts))%Z
    then Err (WireCollapse 0.0 d.(arm).(floor_mbps)) else Ok tt.
Proof.
  intros Hts. revert d. induction Hts as [|t ts Ht _ IH]; intros d Hb Hst Hn; csimpl.
  { rewrite (proj2 (Z.leb_gt _ _)); [done|lia]. }
  simpl in Hn. unfold starve_tick, warmed_up. simpl.
  rewrite Ht, (proj2 (Z.ltb_lt _ _)) by done. simpl.
  rewrite (u64_add_small d.(starve_secs)) by (unfold is_u64, u64_max; lia).
  destruct (Z.leb_spec d.(arm).(stall_secs) (d.(starve_secs) + 1)); simpl.
  - rewrite (proj2 (Z.leb_le _ _)); [done|lia].
  - rewrite IH by (simpl; lia || done). simpl. replace (d.(starve_secs) + 1 + Z.of_nat (length ts))%Z
      with (d.(starve_secs) + Z.of_nat (S (length ts)))%Z by lia. done.
Qed.

(** The stall trigger is exact: past the warm-up, a reorder stage that waits with nothing
    arriving fails over on the [stall_secs]-th consecutive starved second, with a measured rate
    of zero, and not before; an arrival restarts the count. *)
Theorem stall_fires_exactly d bytes t ts :
  Forall (fun t => (DETECT_WARMUP_S <? t) = true) ts ->
  let d1 := (arrival bytes t d).1 in
  (DETECT_WARMUP_BYTES < d1.(cum_bytes))%Z -> (1 <= d.(arm).(stall_secs))%Z ->
  (Z.of_nat (length ts) < 2 ^ 63)%Z ->
  (watch d1 (Starved <$> ts)).2 =
    if (d.(arm).(stall_secs) <=? Z.of_nat (length ts))%Z
    then Err (WireCollapse 0.0 d.(arm).(floor_mbps)) else Ok tt.
Proof.
  intros Hts d1 Hb Hst Hn.
  assert (d1.(arm) = d.(arm)) as Ha by apply (observe_arm d (Arrived bytes t)).
  assert (d1.(starve_secs) = 0%Z) as Hs by apply (observe_starve d (Arrived bytes t)).
  pose proof (starve_run d1 ts Hts Hb) as Hr. rewrite Ha, Hs in Hr. apply Hr; lia.
Qed.

Example stall_fires_exactly_instance :
  (watch (arrival 5000000 20.0 (new wire_failover_default)).1
     (Starved <$> [21.0; 22.0; 23.0; 24.0; 25.0; 26.0; 27.0; 28.0; 29.0; 30.0; 31.0; 32.0])).2
  = Err (WireCollapse 0.0 0.2).
Proof.
  apply (stall_fires_exactly (new wire_failover_default) 5000000 20.0
    [21.0; 22.0; 23.0; 24.0; 25.0; 26.0; 27.0; 28.0; 29.0; 30.0; 31.0; 32.0]).
  - repeat constructor.
  - vm_compute. reflexivity.
  - vm_compute. discriminate.
  - vm_compute. reflexivity.
Qed.

(** The starved seconds since the last arrival. *)
Fixpoint trailing (os : list Obs) (n : Z) : Z :=
  match os with
  | [] => n
  | Arrived _ _ :: os' => trailing os' 0%Z
  | Starved _ :: os' => trailing os' (n + 1)%Z
  end.

Lemma observe_err d o e : (observe d o).2 = Err e ->
  match o with
  | Starved _ => (d.(arm).(stall_secs) <= u64_add d.(starve_secs) 1)%Z
  | Arrived _ t => exists rate fl, e = WireCollapse rate fl /\
      ((rate <? d.(arm).(painful_mbps)) || (rate <? d.(arm).(floor_mbps))) = true
  end.
Proof.
  destruct o as [b t|t]; simpl; unfold arrival, starve_tick.
  - repeat case_match; simplify_eq/=; try done; intros [= <-]; eexists _, _; (split; [done|]);
    match goal with Hc : collapsed _ _ _ = true |- _ =>
      unfold collapsed in Hc; apply orb_true_iff in Hc as [Hc| ->]; [|by rewrite orb_true_r];
      by apply andb_true_iff in Hc as [_ ->] end.
  - case_match eqn:E; simpl; [|done]. intros _. apply andb_true_iff in E as [_ E]. simpl in E.
    by apply Z.leb_le in E.
Qed.

Lemma watch_err a os e : forall d n, d.(arm) = a -> d.(starve_secs) = n ->
  (0 <= n)%Z -> (n + Z.of_nat (length os) < 2 ^ 63)%Z -> (watch d os).2 = Err e ->
  exists os1 o os2, os = os1 ++ o :: os2 /\
    match o with
    | Starved _ => (a.(stall_secs) <= trailing (os1 ++ [o]) n)%Z
    | Arrived _ _ => exists rate fl, e = WireCollapse rate fl /\
        ((rate <? a.(painful_mbps)) || (rate <? a.(floor_mbps))) = true
    end.
Proof.
  induction os as [|o os IH]; intros d n Ha Hn H0 Hlen Hw; simpl in *; [done|].
  pose proof (observe_arm d o) as Ha'. pose proof (observe_starve d o) as Hs'.
  pose proof (observe_err d o) as He. destruct (observe d o) as [d' [[]|e']]; simpl in *.
  - rewrite Ha in Ha'. destruct (IH d' _ Ha' eq_refl) as (os1 & x & os2 & -> & Hx); [..|done|].
    + rewrite Hs'. destruct o; [lia|]. unfold u64_add, wrap64. apply Z.mod_pos_bound. lia.
    + rewrite Hs'. destruct o; [lia|]. rewrite Hn, u64_add_small by (unfold is_u64, u64_max; lia). lia.
    + exists (o :: os1), x, os2. split; [done|]. destruct x; [done|]. simpl.
      rewrite Hs' in Hx. destruct o; [done|]. rewrite Hn, u64_add_small in Hx by
        (unfold is_u64, u64_max; lia). done.
  - simplify_eq. specialize (He e eq_refl). exists [], o, os. split; [done|]. destruct o; simpl in *.
    + done.
    + rewrite u64_add_small in He by (unfold is_u64, u64_max; lia). done.
Qed.

(** A failover is always the wire's doing: when the detector fires over a whole pass, either the
    firing observation was preceded by [stall_secs] starved seconds without an arrival, or it
    is an arrival whose measured window rate is below the painful rate or the floor. *)
Theorem detector_fires_for_cause a os e :
  (Z.of_nat (length os) < 2 ^ 63)%Z -> (watch (new a) os).2 = Err e ->
  exists os1 o os2, os = os1 ++ o :: os2 /\
    match o with
    | Starved _ => (a.(stall_secs) <= trailing (os1 ++ [o]) 0)%Z
    | Arrived _ _ => exists rate fl, e = WireCollapse rate fl /\
        ((rate <? a.(painful_mbps)) || (rate <? a.(floor_mbps))) = true
    end.
Proof. intros Hn Hw. by eapply (watch_err a os e (new a) 0%Z). Qed.

(** A fast start and then a trickle. *)
Definition collapse_trace : list Obs := [Arrived 104857600 11.0; Arrived 1048576 30.0].

Example detector_fires_for_cause_instance : exists os1 o os2,
  collapse_trace = os1 ++ o :: os2.
Proof.
  destruct (detector_fires_for_cause wire_failover_default collapse_trace
    (WireCollapse 0.1 (fmax (fmin (0.15 * 10.0) 2.0) 0.2))) as (os1 & o & os2 & E & _).
  - reflexivity.
  - vm_compute. reflexivity.
  - exists os1, o, os2. exact E.
Qed.

End WireDetector.
