(* ===== verification/FetchPump.v ===== *)
(** * The worker side of the fetch: [core/src/fetch.rs]

    A worker streams one plan chunk at a time, splits the stream into
    byte-budgeted sub-chunks and hands them to the reorder stage; a failed attempt
    resumes after the last block handed on.

    A block stream is the list of its events; what the environment decides is an
    input: whether the hand-on deadline has elapsed when a block arrives, the
    permit the ahead gate grants ([grant]), whether the reorder stage still
    listens ([send_ok]), how a request opens and whether a reconnect succeeds. *)

From S2P Require Export WireDetector.

Module FetchPump.

(** ** [AheadGate] *)

Definition AHEAD_BUDGET_FACTOR : Z := 8.

(** [struct AheadGate] and [AheadGate::new]: the semaphore's permits and the cap. *)
Record AheadGate := mkAheadGate { gate_permits : Z; cap : Z }.
Definition gate_new (c : Z) : AheadGate :=
  let c := Z.max c 1 in mkAheadGate (Z.min c ChunkQueue.MAX_PERMITS) c.

(** The permits [AheadGate::admit] asks for. *)
Definition gate_need (g : AheadGate) (bytes : Z) : Z :=
  default u32_max (u32_try_from (Z.max (Z.min bytes g.(cap)) 1)).

(** One turn of the loop of [AheadGate::admit]: the floor it reads, and how its bounded
    acquisition ends. *)
Inductive Acquire := Acquired | Closed | Elapsed.
Record Poll := mkPoll { poll_floor : Z; poll_acquire : Acquire }.

(** [AheadGate::admit]: [None] while it is still waiting; otherwise the permit it
    returns ([Some None]: exempt, or shutting down). *)
Fixpoint gate_admit (g : AheadGate) (plan_index bytes : Z) (polls : list Poll) : option (option Z) :=
  match polls with
  | [] => None
  | p :: polls' =>
    if plan_index <=? p.(poll_floor) then Some None
    else match p.(poll_acquire) with
         | Acquired => Some (Some (gate_need g bytes))
         | Closed => Some None
         | Elapsed => gate_admit g plan_index bytes polls'
         end
  end.

(** ** Sub-chunks *)

(** [struct SubChunk]; [permit] is the ahead-budget permit it carries. *)
Record SubChunk := mkSubChunk {
  plan_index : Z;
  sub_index : Z;
  is_last : bool;
  sc_bytes : Z;
  sc_blocks : list CompactBlock;
  permit : option Z;
}.

(** [struct ChunkSplitter]. *)
Record ChunkSplitter := mkSplitter { split_at : Z; acc : list CompactBlock; acc_bytes : Z }.

Definition splitter_new (split_bytes : Z) : ChunkSplitter := mkSplitter split_bytes [] 0.

(** [struct PlanChunkCursor]. *)
Record PlanChunkCursor := mkCursor {
  c_plan_index : Z;
  c_end : Z;
  resume_from : Z;
  next_sub_index : Z;
  emitted_this_attempt : bool;
}.

#[export] Instance eta_Cursor : Eta PlanChunkCursor := fun c =>
  mkCursor c.(c_plan_index) c.(c_end) c.(resume_from) c.(next_sub_index) c.(emitted_this_attempt).

(** [enum PumpOutcome]. *)
Inductive PumpOutcome := Completed | ConsumerGone.

(** What a block stream does next: a block (with the reading of the deadline
    test after it, and the clock), an error status, or silence until the idle
    timeout.  A list that ends is a clean end of stream. *)
Inductive StreamEvent :=
| EvBlock (b : CompactBlock) (deadline_elapsed : bool) (now : Z)
| EvStatus (status : string)
| EvIdle.

(** How the request of an attempt opens. *)
Inductive OpenResult :=
| OpenTimeout
| OpenError (status : string)
| Opened (events : list StreamEvent).

(** One attempt at a plan chunk, with the outcome of the reconnect that follows
    it if it fails. *)
Record Attempt := mkAttempt { at_open : OpenResult; at_reconnect : Res unit }.

Section Pump.
Context (encoded_len : CompactBlock -> Z).
(** The permit granted to, and the fate of the send of, sub-chunk
    [(plan_index, sub_index)]. *)
Context (grant : Z -> Z -> option Z) (send_ok : Z -> Z -> bool).
Context (fmt_f2 : float -> string).

(** [ChunkSplitter::push]. *)
Definition push (s : ChunkSplitter) (b : CompactBlock)
  : ChunkSplitter * option (list CompactBlock * Z) :=
  let n := encoded_len b in
  if bool_decide (s.(acc) <> []) && (s.(split_at) <? s.(acc_bytes) + n)
  then (mkSplitter s.(split_at) [b] n, Some (s.(acc), s.(acc_bytes)))
  else (mkSplitter s.(split_at) (s.(acc) ++ [b]) (s.(acc_bytes) + n), None).

(** [ChunkSplitter::finish]. *)
Definition splitter_finish (s : ChunkSplitter) : option (list CompactBlock * Z) :=
  if bool_decide (s.(acc) = []) then None else Some (s.(acc), s.(acc_bytes)).

(** [ChunkSplitter::take_partial]. *)
Definition take_partial (s : ChunkSplitter) : ChunkSplitter * option (list CompactBlock * Z) :=
  if bool_decide (s.(acc) = []) then (s, None)
  else (mkSplitter s.(split_at) [] 0, Some (s.(acc), s.(acc_bytes))).

(** [ChunkSplitter::last_height]. *)
Definition splitter_last_height (s : ChunkSplitter) : option Z := height <$> last s.(acc).

(** The worker's state: its cursor, the sub-chunks it has handed on, and the
    shared progress it stamps. *)
Record PumpState := mkPump {
  cursor : PlanChunkCursor;
  out : list SubChunk;
  progress : option Progress.Progress;
}.

(** [emit_sub_chunk]: the cursor moves only on a successful handoff. *)
Definition emit_sub_chunk (ps : PumpState) (blocks : list CompactBlock) (bytes : Z) (last_ : bool)
  : PumpState * bool :=
  let c := ps.(cursor) in
  let sub := mkSubChunk c.(c_plan_index) c.(next_sub_index) last_ bytes blocks
               (grant c.(c_plan_index) c.(next_sub_index)) in
  if send_ok c.(c_plan_index) c.(next_sub_index) then
    let c1 := match height <$> last blocks with
              | Some h => c <| resume_from := u64_add h 1 |>
              | None => c
              end in
    (mkPump (c1 <| next_sub_index := c1.(next_sub_index) + 1 |>
                <| emitted_this_attempt := true |>)
       (ps.(out) ++ [sub]) ps.(progress), true)
  else (ps, false).

(** [flush_then_fail]. *)
Definition flush_then_fail (tail : option (list CompactBlock * Z)) (ps : PumpState)
    (err : SlipstreamError) : PumpState * Res PumpOutcome :=
  match tail with
  | Some (blocks, bytes) =>
    if bool_decide (height <$> last blocks <> Some ps.(cursor).(c_end)) then
      match emit_sub_chunk ps blocks bytes false with
      | (ps', true) => (ps', Err err)
      | (ps', false) => (ps', Ok ConsumerGone)
      end
    else (ps, Err err)
  | None => (ps, Err err)
  end.

Definition ctx (c : PlanChunkCursor) : string :=
  "block stream " +:+ pretty c.(resume_from) +:+ ".." +:+ pretty c.(c_end) +:+
  " (plan chunk " +:+ pretty c.(c_plan_index) +:+ ")".

(** The loop of [pump_block_stream]; [ctx0] is formatted once, before it. *)
Fixpoint pump_loop (ctx0 : string) (events : list StreamEvent) (sp : ChunkSplitter) (ps : PumpState)
  : PumpState * Res PumpOutcome :=
  match events with
  | [] =>
    match splitter_finish sp with
    | Some (blocks, bytes) =>
      if bool_decide (height <$> last blocks = Some ps.(cursor).(c_end)) then
        match emit_sub_chunk ps blocks bytes true with
        | (ps', true) => (ps', Ok Completed)
        | (ps', false) => (ps', Ok ConsumerGone)
        end
      else
        flush_then_fail (Some (blocks, bytes)) ps
          (Transport (ctx0 +:+ ": stream ended short at " +:+
             pretty (default (sat_sub ps.(cursor).(resume_from) 1) (height <$> last blocks)) +:+
             ", expected " +:+ pretty ps.(cursor).(c_end)))
    | None =>
      flush_then_fail None ps
        (Transport (ctx0 +:+ ": stream ended short at " +:+
           pretty (sat_sub ps.(cursor).(resume_from) 1) +:+
           ", expected " +:+ pretty ps.(cursor).(c_end)))
    end
  | EvIdle :: _ =>
    flush_then_fail (splitter_finish sp) ps
      (Transport (ctx0 +:+ ": stream idle timeout (30s without a message)"))
  | EvStatus status :: _ =>
    flush_then_fail (splitter_finish sp) ps (Transport (ctx0 +:+ ": " +:+ status))
  | EvBlock b deadline_elapsed now :: events' =>
    let ps := mkPump ps.(cursor) ps.(out) (Progress.touch now <$> ps.(progress)) in
    match push sp b with
    | (sp', Some (blocks, bytes)) =>
      match emit_sub_chunk ps blocks bytes false with
      | (ps', true) => pump_loop ctx0 events' sp' ps'
      | (ps', false) => (ps', Ok ConsumerGone)
      end
    | (sp', None) =>
      if deadline_elapsed && bool_decide (splitter_last_height sp' <> Some ps.(cursor).(c_end)) then
        match take_partial sp' with
        | (sp'', Some (blocks, bytes)) =>
          match emit_sub_chunk ps blocks bytes false with
          | (ps', true) => pump_loop ctx0 events' sp'' ps'
          | (ps', false) => (ps', Ok ConsumerGone)
          end
        | (sp'', None) => pump_loop ctx0 events' sp'' ps
        end
      else pump_loop ctx0 events' sp' ps
    end
  end.

(** [pump_block_stream]. *)
Definition pump_block_stream (events : list StreamEvent) (split_bytes : Z) (ps : PumpState)
  : PumpState * Res PumpOutcome :=
  pump_loop (ctx ps.(cursor)) events (splitter_new split_bytes) ps.

(** [open_and_pump]. *)
Definition open_and_pump (o : OpenResult) (split_bytes : Z) (ps : PumpState)
  : PumpState * Res PumpOutcome :=
  let c := ps.(cursor) in
  let req := "get_block_range " +:+ pretty c.(resume_from) +:+ ".." +:+ pretty c.(c_end) in
  match o with
  | OpenTimeout => (ps, Err (Transport (req +:+ ": timed out after 30s")))
  | OpenError status => (ps, Err (Transport (req +:+ ": " +:+ status)))
  | Opened events => pump_block_stream events split_bytes ps
  end.

(** How the retry loop of one plan chunk ends; [ChunkPending]: the attempts
    given are used up and it is still retrying. *)
Inductive ChunkOutcome := ChunkDone | ChunkGone | ChunkFailed (e : SlipstreamError) | ChunkPending.

(** The inner loop of [worker]: attempts at one plan chunk. *)
Fixpoint attempt_loop (plan : FetchPlan.FetchPlan) (index s e : Z) (attempt : Z)
    (ps : PumpState) (attempts : list Attempt) : PumpState * ChunkOutcome :=
  match attempts with
  | [] => (ps, ChunkPending)
  | a :: attempts' =>
    let attempt := attempt + 1 in
    let ps := mkPump (ps.(cursor) <| emitted_this_attempt := false |>) ps.(out) ps.(progress) in
    match open_and_pump a.(at_open) plan.(FetchPlan.split_bytes) ps with
    | (ps', Ok Completed) => (ps', ChunkDone)
    | (ps', Ok ConsumerGone) => (ps', ChunkGone)
    | (ps', Err err) =>
      let attempt := if ps'.(cursor).(emitted_this_attempt) then 0 else attempt in
      if plan.(FetchPlan.retries_per_chunk) <? attempt then
        (ps', ChunkFailed (Transport
           ("plan chunk " +:+ pretty index +:+ " (" +:+ pretty s +:+ ".." +:+ pretty e +:+
            ") failed after " +:+ pretty attempt +:+ " zero-progress attempts: " +:+ display fmt_f2 err)))
      else
        match a.(at_reconnect) with
        | Err err' => (ps', ChunkFailed err')
        | Ok _ => attempt_loop plan index s e attempt ps' attempts'
        end
    end
  end.

(** The delay before the next attempt, in milliseconds. *)
Definition backoff_ms (attempt : Z) : Z :=
  sat_mul64 250 (Z.shiftl 1 (Z.min (sat_sub attempt 1) 10)).

Definition fresh_cursor (index s e : Z) : PlanChunkCursor := mkCursor index e s 0 false.

(** One claimed plan chunk, from a fresh cursor. *)
Definition fetch_chunk (plan : FetchPlan.FetchPlan) (claim : Z * Z * Z)
    (p : option Progress.Progress) (attempts : list Attempt) : PumpState * ChunkOutcome :=
  let '(index, s, e) := claim in
  attempt_loop plan index s e 0 (mkPump (fresh_cursor index s e) [] p) attempts.

(** ** What a pump hands on *)

Definition wire_size (bs : list CompactBlock) : Z := ChunkQueue.sumZ (encoded_len <$> bs).

(** Within the byte budget, or a single block. *)
Definition fits (split : Z) (bs : list CompactBlock) : Prop :=
  wire_size bs <= split \/ length bs = 1%nat.

(** The cursor moves from [c] to [c'] by handing on [subs]. *)
Inductive emits (split : Z) : PlanChunkCursor -> list SubChunk -> PlanChunkCursor -> Prop :=
| emits_nil c : emits split c [] c
| emits_cons c bs b l pm subs c' :
    last bs = Some b -> fits split bs ->
    emits split (mkCursor c.(c_plan_index) c.(c_end) (u64_add b.(height) 1)
                   (c.(next_sub_index) + 1) true) subs c' ->
    emits split c (mkSubChunk c.(c_plan_index) c.(next_sub_index) l (wire_size bs) bs pm :: subs) c'.

Lemma emits_app split c subs c1 subs' c' :
  emits split c subs c1 -> emits split c1 subs' c' -> emits split c (subs ++ subs') c'.
Proof. induction 1; simpl; [done|]. intros. econstructor; eauto. Qed.

Lemma emits_snoc split c subs c1 s c' :
  emits split c subs c1 -> emits split c1 [s] c' -> emits split c (subs ++ [s]) c'.
Proof. apply emits_app. Qed.

(** The blocks a stream delivers before it fails or ends. *)
Fixpoint ev_blocks (events : list StreamEvent) : list CompactBlock :=
  match events with
  | EvBlock b _ _ :: events' => b :: ev_blocks events'
  | _ => []
  end.

Definition not_last (s : SubChunk) : Prop := s.(is_last) = false.
Definition ends_at (e : Z) (s : SubChunk) : Prop := height <$> last s.(sc_blocks) = Some e.

(** The outcome agrees with what was handed on: the marked last sub-chunk is
    there exactly when the stream completed; otherwise what was handed on last
    is not known to reach the end. *)
Definition outcome_ok (e : Z) (subs : list SubChunk) (rest : list CompactBlock)
    (r : Res PumpOutcome) : Prop :=
  match r with
  | Ok Completed => rest = [] /\ exists init l, subs = init ++ [l] /\
      Forall not_last init /\ l.(is_last) = true /\ ends_at e l
  | _ => Forall not_last subs /\
      (rest <> [] \/ forall l, last subs = Some l -> ~ ends_at e l)
  end.

Definition splitter_ok (sp : ChunkSplitter) : Prop :=
  sp.(acc_bytes) = wire_size sp.(acc) /\ (sp.(acc) = [] \/ fits sp.(split_at) sp.(acc)).

Lemma wire_size_snoc bs b : wire_size (bs ++ [b]) = wire_size bs + encoded_len b.
Proof. unfold wire_size. rewrite fmap_app, ChunkQueue.sumZ_app. simpl. lia. Qed.

Lemma push_ok sp b sp' o : splitter_ok sp -> push sp b = (sp', o) ->
  splitter_ok sp' /\ sp'.(split_at) = sp.(split_at) /\ sp'.(acc) <> [] /\
  match o with
  | Some (bs, n) => bs = sp.(acc) /\ bs <> [] /\ n = wire_size bs /\ sp'.(acc) = [b]
  | None => sp'.(acc) = sp.(acc) ++ [b]
  end.
Proof.
  intros [Hb Hf]. unfold push. destruct (_ && _) eqn:E; intros [= <- <-]; simpl.
  - breflect. repeat split; try done; unfold wire_size, fits; simpl; [lia|]. by right; right.
  - assert (sp.(acc) ++ [b] <> []) by (intros Hn; by apply app_nil in Hn as [_ ?]).
    repeat split; try done; simpl; [by rewrite wire_size_snoc, Hb|]. right.
    destruct (decide (sp.(acc) = [])) as [->|Hne]; [by right|].
    rewrite bool_decide_true in E by done. simpl in E. breflect. left.
    rewrite wire_size_snoc. lia.
Qed.

(** A handoff either moves the cursor by one sub-chunk or leaves everything alone. *)
Lemma emit_ok split ps bs n l ps' ok : bs <> [] -> n = wire_size bs -> fits split bs ->
  emit_sub_chunk ps bs n l = (ps', ok) ->
  if ok then exists s, ps'.(out) = ps.(out) ++ [s] /\ emits split ps.(cursor) [s] ps'.(cursor) /\
               s.(is_last) = l /\ s.(sc_blocks) = bs
  else ps' = ps.
Proof.
  intros Hne -> Hf. unfold emit_sub_chunk. case_match; intros [= <- <-]; [|done].
  destruct (last bs) as [b|] eqn:El; [|by apply last_None in El].
  eexists. split; [reflexivity|]. simpl. split; [|done]. econstructor; [done..|]. constructor.
Qed.

Lemma emits_end split c subs c' : emits split c subs c' ->
  c'.(c_end) = c.(c_end) /\ c'.(c_plan_index) = c.(c_plan_index).
Proof. induction 1; simpl in *; naive_solver. Qed.

Lemma flush_ok split tail ps err ps' r :
  match tail with Some (bs, n) => bs <> [] /\ n = wire_size bs /\ fits split bs | None => True end ->
  flush_then_fail tail ps err = (ps', r) ->
  exists subs rest, ps'.(out) = ps.(out) ++ subs /\ emits split ps.(cursor) subs ps'.(cursor) /\
    default [] (fst <$> tail) = (subs ≫= sc_blocks) ++ rest /\
    outcome_ok ps.(cursor).(c_end) subs rest r.
Proof.
  intros Ht. unfold flush_then_fail. destruct tail as [[bs n]|].
  2:{ intros [= <- <-]. exists [], []. rewrite app_nil_r.
      split; [done|]. split; [constructor|]. split; [done|]. split; [constructor|by right]. }
  destruct Ht as (Hne & Hn & Hf). case_bool_decide as Eh.
  2:{ intros [= <- <-]. exists [], bs. rewrite app_nil_r.
      split; [done|]. split; [constructor|]. split; [done|]. split; [constructor|by left]. }
  destruct (emit_sub_chunk ps bs n false) as [ps1 ok] eqn:Ee.
  apply (emit_ok split) in Ee; [|done..]. destruct ok; intros [= <- <-].
  - destruct Ee as (s & Ho & He & Hl & Hb). exists [s], []. rewrite app_nil_r. csimpl.
    rewrite Hb, app_nil_r. split; [done|]. split; [done|]. split; [done|].
    split; [by repeat constructor|]. right. intros ? [= <-]. unfold ends_at. by rewrite Hb.
  - subst ps1. exists [], bs. rewrite app_nil_r.
    split; [done|]. split; [constructor|]. split; [done|]. split; [constructor|by left].
Qed.

(** A tail that the splitter flushes. *)
Lemma finish_tail sp : splitter_ok sp ->
  match splitter_finish sp with
  | Some (bs, n) => bs = sp.(acc) /\ bs <> [] /\ n = wire_size bs /\ fits sp.(split_at) bs
  | None => sp.(acc) = []
  end.
Proof.
  intros [Hb Hf]. unfold splitter_finish. case_bool_decide; [done|].
  repeat split; try done. by destruct Hf.
Qed.

(** Prepending what was handed on before. *)
Lemma outcome_ok_app e xs subs rest r : Forall not_last xs ->
  (subs = [] -> rest <> []) -> outcome_ok e subs rest r -> outcome_ok e (xs ++ subs) rest r.
Proof.
  intros Hx Hs. destruct r as [[]|]; simpl.
  - intros (-> & init & l & -> & Hi & Hl). split; [done|]. exists (xs ++ init), l.
    rewrite app_assoc. split; [done|]. split; [by apply Forall_app|done].
  - intros [Hn Hr]. split; [by apply Forall_app|]. rewrite last_app. destruct Hr as [Hr|Hr]; [by left|].
    destruct (last subs) eqn:E; [by right|]. apply last_None in E. left. auto.
  - intros [Hn Hr]. split; [by apply Forall_app|]. rewrite last_app. destruct Hr as [Hr|Hr]; [by left|].
    destruct (last subs) eqn:E; [by right|]. apply last_None in E. left. auto.
Qed.

(** What one pump of a stream does, whatever the stream delivers: the
    sub-chunks handed on are a prefix of the blocks received, in order. *)
Definition pump_spec (split : Z) (ps : PumpState) (blocks : list CompactBlock)
    (res : PumpState * Res PumpOutcome) : Prop :=
  exists subs rest, res.1.(out) = ps.(out) ++ subs /\
    emits split ps.(cursor) subs res.1.(cursor) /\
    blocks = (subs ≫= sc_blocks) ++ rest /\
    outcome_ok ps.(cursor).(c_end) subs rest res.2.

Lemma pump_spec_step split ps ps1 s bs blocks res :
  ps1.(out) = ps.(out) ++ [s] -> emits split ps.(cursor) [s] ps1.(cursor) ->
  s.(is_last) = false -> s.(sc_blocks) = bs ->
  blocks <> [] \/ ~ ends_at ps.(cursor).(c_end) s ->
  pump_spec split ps1 blocks res -> pump_spec split ps (bs ++ blocks) res.
Proof.
  intros Ho He Hl <- Hb (subs & rest & Ho' & He' & -> & Hout).
  destruct (emits_end _ _ _ _ He) as [Hend _]. rewrite Hend in Hout.
  exists (s :: subs), rest. rewrite Ho', Ho, <-app_assoc. split; [done|].
  split; [by apply (emits_app _ _ [s] _ _ _ He)|]. rewrite bind_cons, <-app_assoc. split; [done|].
  destruct (decide (subs = [])) as [->|Hne].
  - destruct (decide (rest = [])) as [->|Hr]; [|by apply (outcome_ok_app _ [s] []); [repeat constructor|..]].
    destruct Hb as [Hb|Hb]; [done|]. destruct res as [? [[]|]]; simpl in *.
    + destruct Hout as (_ & init & l & E & _). by destruct init.
    + split; [by repeat constructor|]. right. by intros ? [= <-].
    + split; [by repeat constructor|]. right. by intros ? [= <-].
  - by apply (outcome_ok_app _ [s]); [repeat constructor|..].
Qed.

Lemma flush_spec split tail ps err :
  match tail with Some (bs, n) => bs <> [] /\ n = wire_size bs /\ fits split bs | None => True end ->
  pump_spec split ps (default [] (fst <$> tail)) (flush_then_fail tail ps err).
Proof.
  intros Ht. destruct (flush_then_fail tail ps err) as [ps' r] eqn:E.
  by apply (flush_ok split) in E.
Qed.

(** The splitter's buffer, flushed on the way out. *)
Lemma flush_finish_spec sp ps err : splitter_ok sp ->
  pump_spec sp.(split_at) ps sp.(acc) (flush_then_fail (splitter_finish sp) ps err).
Proof.
  intros Hok. pose proof (finish_tail sp Hok) as Ht.
  destruct (splitter_finish sp) as [[bs n]|].
  - destruct Ht as (-> & Hne & -> & Hf). by apply (flush_spec _ (Some (_, _))).
  - rewrite Ht. by apply (flush_spec _ None).
Qed.

(** A handoff in the middle of the stream. *)
Lemma emit_then_spec split ps bs n blocks (k : PumpState -> PumpState * Res PumpOutcome) :
  bs <> [] -> n = wire_size bs -> fits split bs ->
  blocks <> [] \/ height <$> last bs <> Some ps.(cursor).(c_end) ->
  (forall ps', pump_spec split ps' blocks (k ps')) ->
  pump_spec split ps (bs ++ blocks)
    (match emit_sub_chunk ps bs n false with
     | (ps', true) => k ps'
     | (ps', false) => (ps', Ok ConsumerGone)
     end).
Proof.
  intros Hne Hn Hf Hend Hk. destruct (emit_sub_chunk ps bs n false) as [ps1 ok] eqn:Ee.
  apply (emit_ok split) in Ee; [|done..]. destruct ok.
  - destruct Ee as (s & Ho & He & Hl & Hb). eapply pump_spec_step; eauto.
    unfold ends_at. rewrite Hb. done.
  - subst. exists [], (bs ++ blocks). rewrite app_nil_r. simpl.
    split; [done|]. split; [constructor|]. split; [done|]. split; [constructor|].
    left. intros E. by apply app_nil in E as [? _].
Qed.

Lemma take_partial_ok sp : splitter_ok sp -> sp.(acc) <> [] ->
  take_partial sp = (mkSplitter sp.(split_at) [] 0, Some (sp.(acc), wire_size sp.(acc))) /\
  fits sp.(split_at) sp.(acc).
Proof.
  intros [Hb Hf] Hne. unfold take_partial. rewrite bool_decide_false by done.
  rewrite Hb. by destruct Hf.
Qed.

Lemma pump_loop_spec ctx0 events sp ps : splitter_ok sp ->
  pump_spec sp.(split_at) ps (sp.(acc) ++ ev_blocks events) (pump_loop ctx0 events sp ps).
Proof.
  revert sp ps. induction events as [|ev events IH]; intros sp ps Hok; cbn [pump_loop ev_blocks].
  { rewrite app_nil_r. pose proof (finish_tail sp Hok) as Ht.
    destruct (splitter_finish sp) as [[bs n]|]; [|rewrite Ht; by apply (flush_spec _ None)].
    destruct Ht as (-> & Hne & -> & Hf). case_bool_decide as Eh; [|by apply (flush_spec _ (Some (_, _)))].
    destruct (emit_sub_chunk ps _ _ true) as [ps1 ok] eqn:Ee.
    apply (emit_ok sp.(split_at)) in Ee; [|done..]. destruct ok.
    - destruct Ee as (s & Ho & He & Hl & Hb). exists [s], []. csimpl. rewrite Hb, !app_nil_r.
      split; [done|]. split; [done|]. split; [done|]. split; [done|]. exists [], s.
      split; [done|]. split; [constructor|]. split; [done|]. unfold ends_at. by rewrite Hb.
    - subst. exists [], sp.(acc). rewrite app_nil_r. simpl.
      split; [done|]. split; [constructor|]. split; [done|]. split; [constructor|by left]. }
  destruct ev as [b dl now|status|];
    [|rewrite app_nil_r; by apply flush_finish_spec|rewrite app_nil_r; by apply flush_finish_spec].
  (* The stamp of the progress clock changes nothing else. *)
  set (ps0 := mkPump ps.(cursor) ps.(out) (Progress.touch now <$> ps.(progress))).
  match goal with |- pump_spec ?s _ ?x ?y => change (pump_spec s ps0 x y) end.
  destruct (push sp b) as [sp' o] eqn:Ep.
  destruct (push_ok sp b sp' o Hok Ep) as (Hok' & Hsp & Hne' & Ho). rewrite <-Hsp.
  destruct o as [[bs n]|].
  - destruct Ho as (-> & Hne & -> & Hacc).
    apply (emit_then_spec _ ps0 _ _ _ (pump_loop ctx0 events sp')); [done|done| |by left|].
    + destruct Hok as [_ [?|?]]; [done|]. by rewrite Hsp.
    + intros ps'. specialize (IH sp' ps' Hok'). by rewrite Hacc in IH.
  - replace (sp.(acc) ++ b :: ev_blocks events) with (sp'.(acc) ++ ev_blocks events)
      by (rewrite Ho, <-app_assoc; done).
    destruct (_ && _) eqn:Ed; [|by apply IH]. breflect.
    destruct (take_partial_ok sp' Hok' Hne') as [-> Hf].
    apply (emit_then_spec _ ps0 _ _ _ (pump_loop ctx0 events _)); [done|done|done|by right|].
    intros ps'. apply (IH (mkSplitter sp'.(split_at) [] 0) ps'). split; [done|by left].
Qed.

Lemma open_and_pump_spec o split ps :
  pump_spec split ps (match o with Opened events => ev_blocks events | _ => [] end)
    (open_and_pump o split ps).
Proof.
  destruct o as [| |events]; simpl.
  1,2: exists [], []; rewrite app_nil_r; simpl;
    (split; [done|]; split; [constructor|]; split; [done|]; split; [constructor|by right]).
  apply (pump_loop_spec _ _ (splitter_new split) ps). split; [done|by left].
Qed.

(** ** Across attempts *)

Definition sub_ok (split plan : Z) (s : SubChunk) : Prop :=
  s.(plan_index) = plan /\ s.(sc_blocks) <> [] /\
  s.(sc_bytes) = wire_size s.(sc_blocks) /\ fits split s.(sc_blocks).

(** Where a worker resumes after [subs]. *)
Definition resume_after (from : Z) (subs : list SubChunk) : Z :=
  match last subs ≫= (fun s => last s.(sc_blocks)) with
  | Some b => u64_add b.(height) 1
  | None => from
  end.

(** [subs] moved the cursor from [c] to [c'], over any number of attempts. *)
Definition handed (split : Z) (c : PlanChunkCursor) (subs : list SubChunk) (c' : PlanChunkCursor) : Prop :=
  sub_index <$> subs = seqZ c.(next_sub_index) (Z.of_nat (length subs)) /\
  c'.(next_sub_index) = c.(next_sub_index) + Z.of_nat (length subs) /\
  c'.(c_plan_index) = c.(c_plan_index) /\ c'.(c_end) = c.(c_end) /\
  Forall (sub_ok split c.(c_plan_index)) subs /\
  c'.(resume_from) = resume_after c.(resume_from) subs.

Lemma resume_after_app split plan from xs ys : Forall (sub_ok split plan) ys ->
  resume_after from (xs ++ ys) = resume_after (resume_after from xs) ys.
Proof.
  intros Hy. unfold resume_after. rewrite last_app. destruct (last ys) as [y|] eqn:E; simpl; [|done].
  destruct (last y.(sc_blocks)) eqn:E2; simpl; [done|]. exfalso. apply last_None in E2.
  apply last_Some in E as [l ->]. apply Forall_app in Hy as [_ Hy]. apply Forall_cons in Hy as [Hy _].
  by destruct Hy as (_ & ? & _).
Qed.

Lemma handed_app split c xs c1 ys c' :
  handed split c xs c1 -> handed split c1 ys c' -> handed split c (xs ++ ys) c'.
Proof.
  intros (S1 & N1 & P1 & E1 & F1 & R1) (S2 & N2 & P2 & E2 & F2 & R2). unfold handed.
  rewrite fmap_app, S1, S2, N1, length_app, Nat2Z.inj_add, seqZ_app by lia.
  rewrite P1 in F2. rewrite (resume_after_app split c.(c_plan_index)) by done. rewrite <-R1.
  repeat split; try congruence; try lia. by apply Forall_app.
Qed.

Lemma emits_handed split c subs c' : emits split c subs c' ->
  handed split c subs c' /\ (subs = [] -> c' = c) /\ (subs <> [] -> c'.(emitted_this_attempt) = true).
Proof.
  induction 1 as [c|c bs b l pm subs c' Hl Hf He (IH & Hn & Hfl)].
  { unfold handed. simpl. repeat split; try done; lia. }
  set (s := mkSubChunk _ _ _ _ _ _). split; [|split; [done|]].
  - refine (handed_app split c [s] _ subs c' _ IH). unfold handed, resume_after. simpl.
    rewrite Hl. repeat split; try done. apply Forall_singleton.
    repeat split; try done. intros E. simpl in E. by rewrite E in Hl.
  - intros _. destruct subs; [by rewrite (Hn eq_refl)|by apply Hfl].
Qed.

Definition reset (ps : PumpState) : PumpState :=
  mkPump (ps.(cursor) <| emitted_this_attempt := false |>) ps.(out) ps.(progress).

Lemma handed_reset split c subs c' :
  handed split (c <| emitted_this_attempt := false |>) subs c' -> handed split c subs c'.
Proof. done. Qed.

Definition marked_last (e : Z) (subs : list SubChunk) : Prop :=
  exists init l, subs = init ++ [l] /\ Forall not_last init /\ l.(is_last) = true /\ ends_at e l.

(** One attempt, from the worker's point of view. *)
Lemma attempt_spec o split ps ps' r : open_and_pump o split (reset ps) = (ps', r) ->
  exists subs rest, ps'.(out) = ps.(out) ++ subs /\ handed split ps.(cursor) subs ps'.(cursor) /\
    (match o with Opened events => ev_blocks events | _ => [] end) = (subs ≫= sc_blocks) ++ rest /\
    outcome_ok ps.(cursor).(c_end) subs rest r /\
    (ps'.(cursor).(emitted_this_attempt) = true <-> subs <> []).
Proof.
  intros E. pose proof (open_and_pump_spec o split (reset ps)) as Hs. rewrite E in Hs.
  destruct Hs as (subs & rest & Ho & He & Hb & Hout). exists subs, rest. simpl in *.
  destruct (emits_handed _ _ _ _ He) as (Hh & Hn & Hf).
  split; [done|]. split; [by apply handed_reset|]. split; [done|]. split; [done|].
  split; [|done]. intros Ht Hs. rewrite (Hn Hs) in Ht. done.
Qed.

Lemma attempt_loop_spec plan index s e attempts : forall attempt ps ps' r,
  attempt_loop plan index s e attempt ps attempts = (ps', r) ->
  exists subs, ps'.(out) = ps.(out) ++ subs /\
    handed plan.(FetchPlan.split_bytes) ps.(cursor) subs ps'.(cursor) /\
    match r with
    | ChunkDone => marked_last ps.(cursor).(c_end) subs
    | _ => Forall not_last subs
    end.
Proof.
  induction attempts as [|a attempts IH]; intros attempt ps ps' r; cbn [attempt_loop].
  { intros [= <- <-]. exists []. rewrite app_nil_r. split; [done|]. split; [|constructor].
    unfold handed. simpl. repeat split; try done; lia. }
  fold (reset ps). destruct (open_and_pump _ _ (reset ps)) as [ps1 r1] eqn:E.
  destruct (attempt_spec _ _ _ _ _ E) as (subs & rest & Ho & Hh & _ & Hout & _).
  destruct r1 as [[]|err].
  - intros [= <- <-]. exists subs. split; [done|]. split; [done|]. by destruct Hout as [_ ?].
  - intros [= <- <-]. exists subs. split; [done|]. split; [done|]. by destruct Hout.
  - destruct Hout as [Hnl _].
    destruct (_ <? _); [by intros [= <- <-]; exists subs|].
    destruct (at_reconnect a); [|by intros [= <- <-]; exists subs].
    intros Hr. apply IH in Hr as (subs2 & Ho2 & Hh2 & Hr2).
    exists (subs ++ subs2). rewrite Ho2, Ho, <-app_assoc. split; [done|].
    split; [by eapply handed_app|]. destruct Hh as (_ & _ & _ & He & _). rewrite He in Hr2.
    destruct r; try by apply Forall_app.
    destruct Hr2 as (init & l & -> & Hi & Hl). exists (subs ++ init), l.
    rewrite <-app_assoc. split; [done|]. split; [by apply Forall_app|done].
Qed.

(** ** Against a server that serves one chain *)

Section Honest.
Context (chain : Z -> CompactBlock) (Hchain : forall h, (chain h).(height) = h).

(** The stream delivers blocks of the chain from the requested height on, and
    may break off anywhere. *)
Definition from_chain (from e : Z) (o : OpenResult) : Prop :=
  exists n, 0 <= n /\ from + n <= e + 1 /\
    (match o with Opened events => ev_blocks events | _ => [] end) = chain <$> seqZ from n.

(** Every attempt is served from the height it asks for. *)
Fixpoint honest (split : Z) (ps : PumpState) (attempts : list Attempt) : Prop :=
  match attempts with
  | [] => True
  | a :: attempts' =>
    from_chain ps.(cursor).(resume_from) ps.(cursor).(c_end) a.(at_open) /\
    honest split (open_and_pump a.(at_open) split (reset ps)).1 attempts'
  end.

Lemma resume_after_blocks split plan from subs : Forall (sub_ok split plan) subs ->
  resume_after from subs =
    match last (subs ≫= sc_blocks) with Some b => u64_add b.(height) 1 | None => from end.
Proof.
  intros Hs. unfold resume_after. destruct (last subs) as [s|] eqn:E; simpl.
  - apply last_Some in E as [l ->]. apply Forall_app in Hs as [_ Hs].
    apply Forall_cons in Hs as [(_ & Hne & _) _]. rewrite bind_app. csimpl. rewrite app_nil_r, last_app.
    destruct (last (sc_blocks s)) eqn:E2; [done|]. by apply last_None in E2.
  - by apply last_None in E as ->.
Qed.

(** What one attempt against the chain hands on. *)
Definition advanced (c : PlanChunkCursor) (subs : list SubChunk) (c' : PlanChunkCursor) : Prop :=
  subs ≫= sc_blocks = chain <$> seqZ c.(resume_from) (c'.(resume_from) - c.(resume_from)) /\
  c.(resume_from) <= c'.(resume_from) /\
  (subs <> [] -> c.(resume_from) < c'.(resume_from)).

Lemma honest_attempt o split ps ps' r :
  0 <= ps.(cursor).(resume_from) <= ps.(cursor).(c_end) -> ps.(cursor).(c_end) <= u32_max ->
  from_chain ps.(cursor).(resume_from) ps.(cursor).(c_end) o ->
  open_and_pump o split (reset ps) = (ps', r) ->
  exists subs, ps'.(out) = ps.(out) ++ subs /\ handed split ps.(cursor) subs ps'.(cursor) /\
    advanced ps.(cursor) subs ps'.(cursor) /\
    (ps'.(cursor).(emitted_this_attempt) = true -> subs <> []) /\
    match r with
    | Ok Completed => ps'.(cursor).(resume_from) = ps.(cursor).(c_end) + 1
    | _ => ps'.(cursor).(resume_from) <= ps.(cursor).(c_end)
    end.
Proof.
  intros Hc He (n & Hn & Hle & Hb) E.
  destruct (attempt_spec _ _ _ _ _ E) as (subs & rest & Ho & Hh & Hb' & Hout & Hem).
  exists subs. split; [done|]. split; [done|]. rewrite Hb' in Hb. symmetry in Hb.
  apply fmap_seqZ_split in Hb as (Hx & Hr & Hlen); [|done].
  destruct Hh as (_ & _ & _ & _ & Hok & Hres). rewrite (resume_after_blocks _ _ _ _ Hok) in Hres.
  set (xs := subs ≫= sc_blocks) in *. set (f := ps.(cursor).(resume_from)) in *.
  assert (forall l, last subs = Some l -> exists b, last l.(sc_blocks) = Some b /\ last xs = Some b) as Hlast.
  { intros l Hl. apply last_Some in Hl as [init ->]. apply Forall_app in Hok as [_ Hok].
    apply Forall_cons in Hok as [(_ & Hne & _) _]. unfold xs. rewrite bind_app. csimpl.
    rewrite app_nil_r, last_app. destruct (last (sc_blocks l)) as [b|] eqn:E2; [by exists b|].
    by apply last_None in E2. }
  assert (ps'.(cursor).(resume_from) = f + Z.of_nat (length xs) /\
    (xs <> [] -> height <$> last xs = Some (f + Z.of_nat (length xs) - 1))) as [Hf Hh].
  { destruct (decide (xs = [])) as [E0|Hne].
    { rewrite E0 in Hres |- *. simpl in *. split; [lia|done]. }
    assert (0 < Z.of_nat (length xs)) by (destruct xs; simpl; [done|lia]).
    assert (last xs = Some (chain (f + Z.of_nat (length xs) - 1))) as El
      by (rewrite Hx at 1; by apply last_fmap_seqZ).
    rewrite El in Hres |- *. simpl. rewrite Hchain in *. split; [|done]. rewrite Hres.
    rewrite u64_add_small; [lia|]. unfold is_u64, u64_max, u32_max in *. lia. }
  split; [|split; [by apply Hem|]].
  - split.
    { fold xs f. rewrite Hf.
      by replace (f + Z.of_nat (length xs) - f) with (Z.of_nat (length xs)) by lia. }
    fold f. split; [lia|]. intros Hne.
    destruct (last subs) as [l|] eqn:El; [|by apply last_None in El].
    destruct (Hlast l eq_refl) as (b & _ & Hb). rewrite Hf. destruct xs; simpl; [done|lia].
  - assert (rest <> [] \/ (forall l, last subs = Some l -> ~ ends_at ps.(cursor).(c_end) l) ->
      ps'.(cursor).(resume_from) <= ps.(cursor).(c_end)) as Hshort.
    { intros [Hne|Hne].
      { assert (0 < Z.of_nat (length rest)) by (destruct rest; simpl; [done|lia]). lia. }
      destruct (last subs) as [l|] eqn:El; [|apply last_None in El; subst subs; simpl in *; lia].
      destruct (Hlast l eq_refl) as (b & Hb1 & Hb2). specialize (Hne l eq_refl).
      unfold ends_at in Hne. rewrite Hb1, <-Hb2 in Hne.
      rewrite Hh in Hne by (intros E0; by rewrite E0 in Hb2).
      assert (f + Z.of_nat (length xs) - 1 <> ps.(cursor).(c_end)) by congruence. lia. }
    destruct r as [[]|]; [|apply Hshort, Hout|apply Hshort, Hout].
    destruct Hout as (_ & init & l & -> & _ & _ & Hend). unfold ends_at in Hend.
    destruct (Hlast l) as (b & Hb1 & Hb2); [by rewrite last_snoc|].
    rewrite Hb1, <-Hb2 in Hend. rewrite Hh in Hend by (intros E0; by rewrite E0 in Hb2).
    injection Hend. lia.
Qed.

Lemma advanced_app c xs c1 ys c' : advanced c xs c1 -> advanced c1 ys c' -> advanced c (xs ++ ys) c'.
Proof.
  intros (B1 & L1 & S1) (B2 & L2 & S2). unfold advanced. rewrite bind_app, B1, B2. split; [|split; [lia|]].
  - replace (c'.(resume_from) - c.(resume_from)) with
      ((c1.(resume_from) - c.(resume_from)) + (c'.(resume_from) - c1.(resume_from))) by lia.
    rewrite seqZ_app, fmap_app by lia. do 3 f_equal. lia.
  - intros Hne. destruct xs; [specialize (S2 Hne); lia|]. specialize (S1 ltac:(done)). lia.
Qed.

Lemma honest_loop plan index s e attempts : forall attempt ps ps' r,
  0 <= ps.(cursor).(resume_from) <= ps.(cursor).(c_end) -> ps.(cursor).(c_end) <= u32_max ->
  honest plan.(FetchPlan.split_bytes) ps attempts ->
  attempt_loop plan index s e attempt ps attempts = (ps', r) ->
  exists subs, ps'.(out) = ps.(out) ++ subs /\ advanced ps.(cursor) subs ps'.(cursor) /\
    (r = ChunkDone -> ps'.(cursor).(resume_from) = ps.(cursor).(c_end) + 1).
Proof.
  induction attempts as [|a attempts IH]; intros attempt ps ps' r Hc He Hhon; cbn [attempt_loop].
  { intros [= <- <-]. exists []. rewrite app_nil_r. split; [done|]. split; [|done].
    unfold advanced. rewrite Z.sub_diag. repeat split; try done; lia. }
  destruct Hhon as [Hs Hhon]. fold (reset ps).
  destruct (open_and_pump _ _ (reset ps)) as [ps1 r1] eqn:E.
  destruct (honest_attempt _ _ _ _ _ Hc He Hs E) as (subs & Ho & Hh & Ha & _ & Hr1). simpl in Hhon.
  destruct r1 as [[]|err]; [by intros [= <- <-]; exists subs..|].
  destruct (_ <? _); [by intros [= <- <-]; exists subs|].
  destruct (at_reconnect a); [|by intros [= <- <-]; exists subs].
  destruct Hh as (_ & _ & _ & Hend & _). intros Hr.
  apply IH in Hr as (subs2 & Ho2 & Ha2 & Hr2); [|rewrite Hend; destruct Ha; lia|by rewrite Hend|done].
  exists (subs ++ subs2). rewrite Ho2, Ho, <-app_assoc. split; [done|].
  split; [by eapply advanced_app|]. by rewrite <-Hend.
Qed.

(** How much work is left: blocks still to hand on, and retries of the
    current zero-progress budget. *)
Definition work_left (plan : FetchPlan.FetchPlan) (c : PlanChunkCursor) (attempt : Z) : Z :=
  (c.(c_end) + 1 - c.(resume_from)) * (plan.(FetchPlan.retries_per_chunk) + 1)
  + (plan.(FetchPlan.retries_per_chunk) + 1 - attempt).

Lemma loop_terminates plan index s e attempts : forall attempt ps,
  0 <= ps.(cursor).(resume_from) <= ps.(cursor).(c_end) -> ps.(cursor).(c_end) <= u32_max ->
  0 <= plan.(FetchPlan.retries_per_chunk) ->
  0 <= attempt <= plan.(FetchPlan.retries_per_chunk) ->
  honest plan.(FetchPlan.split_bytes) ps attempts ->
  (attempt_loop plan index s e attempt ps attempts).2 = ChunkPending ->
  Z.of_nat (length attempts) < work_left plan ps.(cursor) attempt.
Proof.
  induction attempts as [|a attempts IH]; intros attempt ps Hc He Hret Hat Hhon; cbn [attempt_loop].
  { intros _. unfold work_left. simpl. nia. }
  destruct Hhon as [Hs Hhon]. fold (reset ps).
  destruct (open_and_pump _ _ (reset ps)) as [ps1 r1] eqn:E.
  destruct (honest_attempt _ _ _ _ _ Hc He Hs E) as (subs & Ho & Hh & Ha & Hem & Hr1). simpl in Hhon.
  destruct r1 as [[]|err]; [done|done|].
  destruct Hh as (_ & _ & _ & Hend & _). destruct Ha as (_ & Hle & Hlt).
  set (attempt1 := if emitted_this_attempt (cursor ps1) then 0 else attempt + 1).
  destruct (Z.ltb_spec plan.(FetchPlan.retries_per_chunk) attempt1); [done|].
  destruct (at_reconnect a); [|done]. intros Hp.
  apply IH in Hp; [|rewrite Hend; lia|by rewrite Hend|done| |done].
  2:{ unfold attempt1. destruct (emitted_this_attempt _); lia. }
  unfold work_left in *. rewrite Hend in Hp. simpl length. unfold attempt1 in *.
  destruct (emitted_this_attempt _); [specialize (Hlt (Hem eq_refl)); nia|nia].
Qed.
End Honest.
End Pump.

(** ** One plan chunk *)

Lemma fetch_chunk_spec encoded_len grant send_ok fmt plan i s e p attempts :
  let res := fetch_chunk encoded_len grant send_ok fmt plan (i, s, e) p attempts in
  let subs := res.1.(out) in
  sub_index <$> subs = seqZ 0 (Z.of_nat (length subs)) /\
  Forall (sub_ok encoded_len plan.(FetchPlan.split_bytes) i) subs /\
  match res.2 with ChunkDone => marked_last e subs | _ => Forall not_last subs end.
Proof.
  unfold fetch_chunk. destruct (attempt_loop _ _ _ _ _ _ _ _ _ _ _) as [ps' r] eqn:E.
  apply attempt_loop_spec in E as (subs & Ho & (Hs & _ & _ & _ & Hf & _) & Hr). simpl in *.
  rewrite Ho. auto.
Qed.

Lemma fetch_chunk_blocks encoded_len grant send_ok fmt plan i s e p attempts chain :
  (forall h, (chain h).(height) = h) -> 0 <= s <= e -> e <= u32_max ->
  honest encoded_len grant send_ok chain plan.(FetchPlan.split_bytes)
    (mkPump (fresh_cursor i s e) [] p) attempts ->
  let res := fetch_chunk encoded_len grant send_ok fmt plan (i, s, e) p attempts in
  let next := res.1.(cursor).(resume_from) in
  res.1.(out) ≫= sc_blocks = chain <$> seqZ s (next - s) /\ s <= next /\
  (res.2 = ChunkDone -> next = e + 1).
Proof.
  intros Hch Hs He Hhon. unfold fetch_chunk.
  destruct (attempt_loop _ _ _ _ _ _ _ _ _ _ _) as [ps' r] eqn:E.
  eapply honest_loop in E as (subs & Ho & (Hb & Hle & _) & Hr); eauto. simpl in *. rewrite Ho. auto.
Qed.

(** ** Properties *)

(** Whatever a server streams and however attempts fail, the sub-chunks a worker hands on for a
    plan chunk carry its index and dense sub-indices from zero, are never empty, stay within
    the byte budget or hold a single block, and report their true size; exactly the final one
    of a completed chunk is marked last, and it ends at the chunk's end. *)
Theorem fetch_chunk_well_formed encoded_len grant send_ok fmt plan i s e p attempts :
  let res := fetch_chunk encoded_len grant send_ok fmt plan (i, s, e) p attempts in
  let subs := res.1.(out) in
  sub_index <$> subs = seqZ 0 (Z.of_nat (length subs)) /\
  Forall (sub_ok encoded_len plan.(FetchPlan.split_bytes) i) subs /\
  match res.2 with ChunkDone => marked_last e subs | _ => Forall not_last subs end.
Proof. apply fetch_chunk_spec. Qed.

(** C23: Against a server that serves one chain from the height it is asked for, and that may stall,
    fail or cut the stream anywhere any number of times, a completed plan chunk has handed on
    each of its blocks exactly once and in order; an unfinished one, a prefix of them. *)
Theorem fetch_chunk_exact encoded_len grant send_ok fmt plan i s e p attempts chain :
  (forall h, (chain h).(height) = h) -> 0 <= s <= e -> e <= u32_max ->
  honest encoded_len grant send_ok chain plan.(FetchPlan.split_bytes)
    (mkPump (fresh_cursor i s e) [] p) attempts ->
  let res := fetch_chunk encoded_len grant send_ok fmt plan (i, s, e) p attempts in
  let next := res.1.(cursor).(resume_from) in
  res.1.(out) ≫= sc_blocks = chain <$> seqZ s (next - s) /\ s <= next /\
  (res.2 = ChunkDone -> next = e + 1).
Proof. apply fetch_chunk_blocks. Qed.

(** C24: The retry loop of a plan chunk ends: against such a server it never makes more attempts than
    (blocks + 1) times (retry budget + 1), whether or not it succeeds. *)
Theorem fetch_chunk_terminates encoded_len grant send_ok fmt plan i s e p attempts chain :
  (forall h, (chain h).(height) = h) -> 0 <= s <= e -> e <= u32_max ->
  0 <= plan.(FetchPlan.retries_per_chunk) ->
  honest encoded_len grant send_ok chain plan.(FetchPlan.split_bytes)
    (mkPump (fresh_cursor i s e) [] p) attempts ->
  (e - s + 2) * (plan.(FetchPlan.retries_per_chunk) + 1) <= Z.of_nat (length attempts) ->
  (fetch_chunk encoded_len grant send_ok fmt plan (i, s, e) p attempts).2 <> ChunkPending.
Proof.
  intros Hch Hs He Hret Hhon Hlen Hp. unfold fetch_chunk in Hp.
  apply (loop_terminates _ _ _ _ chain Hch) in Hp; simpl; try done; try lia.
  unfold work_left in Hp. simpl in Hp. lia.
Qed.

(** *** A concrete flaky server *)

Definition sample_chain (h : Z) : CompactBlock := mkCompactBlock h [] [] [].
Definition sample_len (b : CompactBlock) : Z := 4.
Definition sample_plan : FetchPlan.FetchPlan := FetchPlan.mkFetchPlan 10 14 5 1 1 120 8 None.
Definition deliver (h : Z) : StreamEvent := EvBlock (sample_chain h) false 0.
(** Two blocks, then an error; nothing; the rest. *)
Definition flaky : list Attempt :=
  [mkAttempt (Opened [deliver 10; deliver 11; deliver 12; EvStatus "unavailable"]) (Ok tt);
   mkAttempt OpenTimeout (Ok tt);
   mkAttempt (Opened [deliver 13; deliver 14]) (Ok tt)].
Definition dead : list Attempt := replicate 12 (mkAttempt (Opened []) (Ok tt)).

Definition sample_run (attempts : list Attempt) : PumpState * ChunkOutcome :=
  fetch_chunk sample_len (fun _ _ => None) (fun _ _ => true) (fun _ => "") sample_plan (0, 10, 14) None attempts.

Ltac served n := split; [exists n; repeat split; vm_compute; (reflexivity || discriminate)|].

Lemma fetch_chunk_exact_witness :
  (sample_run flaky).2 = ChunkDone /\
  (sample_run flaky).1.(out) ≫= sc_blocks =
    sample_chain <$> seqZ 10 ((sample_run flaky).1.(cursor).(resume_from) - 10).
Proof.
  split; [vm_compute; reflexivity|].
  apply (fetch_chunk_exact sample_len (fun _ _ => None) (fun _ _ => true) (fun _ => "") sample_plan
    0 10 14 None flaky sample_chain).
  - reflexivity.
  - lia.
  - vm_compute. discriminate.
  - cbn [honest flaky]. served 3. served 0. served 2. exact I.
Defined.

Lemma fetch_chunk_terminates_witness : (sample_run dead).2 <> ChunkPending.
Proof.
  apply (fetch_chunk_terminates sample_len (fun _ _ => None) (fun _ _ => true) (fun _ => "") sample_plan
    0 10 14 None dead sample_chain).
  - reflexivity.
  - lia.
  - vm_compute. discriminate.
  - vm_compute. discriminate.
  - unfold dead. cbn [replicate honest]. do 12 served 0. exact I.
  - vm_compute. discriminate.
Defined.

(** The permits of the gate cover every request on a 64-bit target. *)
Lemma gate_need_bounds c bytes : 1 <= gate_need (gate_new c) bytes <= (gate_new c).(gate_permits).
Proof.
  unfold gate_need, gate_new, u32_try_from, u32_max. cbn [cap gate_permits].
  assert (ChunkQueue.MAX_PERMITS = 2 ^ 61 - 1) as -> by reflexivity.
  case_match eqn:E; breflect; simpl; lia.
Qed.

(** The ahead gate cannot deadlock: what a sub-chunk asks for never exceeds the gate's permits,
    so it is granted once the buffered sub-chunks drain; and a worker whose plan chunk is, or
    becomes, the release floor passes without a permit at its next look at the floor. *)
Theorem ahead_gate_never_blocks_the_floor c i bytes polls p rest :
  1 <= gate_need (gate_new c) bytes <= (gate_new c).(gate_permits) /\
  (i <= p.(poll_floor) ->
   (forall q, q ∈ polls -> q.(poll_floor) < i /\ q.(poll_acquire) = Elapsed) ->
   gate_admit (gate_new c) i bytes (polls ++ p :: rest) = Some None).
Proof.
  split; [apply gate_need_bounds|]. intros Hi Hq.
  induction polls as [|q polls IH]; simpl; [by rewrite (proj2 (Z.leb_le _ _))|].
  destruct (Hq q) as [Hlt ->]; [set_solver|]. rewrite (proj2 (Z.leb_gt _ _)) by done.
  apply IH. intros q' Hq'. apply Hq. set_solver.
Qed.

Example ahead_gate_never_blocks_the_floor_instance :
  gate_admit (gate_new 64) 3 10 ([mkPoll 1 Elapsed; mkPoll 2 Elapsed] ++ [mkPoll 3 Acquired]) = Some None.
Proof.
  apply (ahead_gate_never_blocks_the_floor 64 3 10 [mkPoll 1 Elapsed; mkPoll 2 Elapsed]
    (mkPoll 3 Acquired) []).
  - vm_compute. discriminate.
  - intros q [->|[->|[]%not_elem_of_nil]%elem_of_cons]%elem_of_cons; vm_compute; done.
Qed.

End FetchPump.
