(* ===== verification/FetchRelease.v ===== *)
(** * The reorder stage and the whole fetch: [core/src/fetch.rs]

    The reorder stage receives sub-chunks in any cross-worker order and releases
    them strictly in (plan, sub) order, continuity-verified, into the chunk queue.
    [supervise_fetch] watches the workers meanwhile; [run_fetch] checks that every
    plan chunk was released.

    What the environment decides is an input: the arrivals and one-second
    timeouts of the channel with the clock readings taken there, whether the
    chunk queue still accepts a chunk ([queue_ok]), and the order in which worker
    and release results are observed.  Log lines and their counters are left out. *)

From S2P Require Export FetchPump.
Import FetchPump.

Module FetchRelease.

(** [struct ReleaseSummary]. *)
Record ReleaseSummary := mkSummary {
  s_blocks : Z;
  s_bytes : Z;
  plans_released : Z;
  s_wire_samples : list (float * Z);
}.

Definition key (s : SubChunk) : Z * Z := (s.(plan_index), s.(sub_index)).

(** The locals of [release_ordered] with the shared cells it writes: the queue
    it sends into, the gate's floor, [unreleased_from] and the progress. *)
Record Release := mkRelease {
  summary : ReleaseSummary;
  continuity : Verify.Continuity;
  pending : gmap (Z * Z) SubChunk;
  next : Z * Z;
  emitted_chunks : Z;
  wire_cum : Z;
  detector : option WireDetector.WireDetector;
  queue : list ChunkQueue.Chunk;
  floor : Z;
  unreleased_from : Z;
  rel_progress : option Progress.Progress;
}.

#[export] Instance eta_Release : Eta Release := fun r =>
  mkRelease r.(summary) r.(continuity) r.(pending) r.(next) r.(emitted_chunks) r.(wire_cum)
    r.(detector) r.(queue) r.(floor) r.(unreleased_from) r.(rel_progress).

(** What the channel delivers: a second without an arrival, or a sub-chunk; with
    the seconds since the fetch began (read twice on an arrival) and, for the
    progress stamps, the wall clock. *)
Inductive RecvEvent :=
| RecvTimeout (t : float)
| RecvSub (s : SubChunk) (t1 t2 : float) (now : Z).

Section Release.
Context (encoded_len : CompactBlock -> Z).
(** Whether the chunk queue takes the chunk with this index. *)
Context (queue_ok : Z -> bool).

Definition release_init (start : Z) (failover : option WireFailoverArm)
    (p : option Progress.Progress) : Release :=
  mkRelease (mkSummary 0 0 0 []) Verify.continuity_default ∅ (0, 0) 0 0
    (WireDetector.new <$> failover) [] 0 start p.

(** The key released after [s]: the next plan chunk once its last sub-chunk is
    out. *)
Definition next_key (k : Z * Z) (s : SubChunk) : Z * Z :=
  if s.(is_last) then (s.(plan_index) + 1, 0) else (k.1, k.2 + 1).

(** The body of the inner loop: release one sub-chunk. *)
Definition release_sub (now : Z) (r : Release) (s : SubChunk) : Release * Res unit :=
  match Verify.verify_blocks r.(continuity) s.(sc_blocks) with
  | (c, Err e) => (r <| continuity := c |>, Err e)
  | (c, Ok _) =>
    let released_from := height <$> head s.(sc_blocks) in
    let released_through := height <$> last s.(sc_blocks) in
    let chunk := ChunkQueue.from_blocks encoded_len r.(emitted_chunks) s.(sc_blocks) in
    let n := Z.of_nat (length chunk.(ChunkQueue.blocks)) in
    let sm := r.(summary) in
    let sm1 := mkSummary (sm.(s_blocks) + n) (sm.(s_bytes) + chunk.(ChunkQueue.estimated_bytes))
                 sm.(plans_released) sm.(s_wire_samples) in
    let r1 := r <| continuity := c |> <| summary := sm1 |>
                <| rel_progress := Progress.add_fetched n now <$> r.(rel_progress) |> in
    if queue_ok r.(emitted_chunks) then
      let r2 := r1 <| queue := r.(queue) ++ [chunk] |>
                   <| unreleased_from := match released_through with
                                         | Some h => u64_add h 1 | None => r.(unreleased_from) end |>
                   <| rel_progress :=
                        match released_from, released_through with
                        | Some f, Some l => Progress.note_blocks_released f l <$> r1.(rel_progress)
                        | _, _ => r1.(rel_progress)
                        end |>
                   <| emitted_chunks := r.(emitted_chunks) + 1 |>
                   <| next := next_key r.(next) s |> in
      (if s.(is_last)
       then r2 <| summary := mkSummary sm1.(s_blocks) sm1.(s_bytes) (sm1.(plans_released) + 1)
                               sm1.(s_wire_samples) |>
               <| floor := s.(plan_index) + 1 |>
       else r2, Ok tt)
    else (r1, Err Stopped)
  end.

(** [while let Some(sub) = pending.remove(&next)].  Every turn removes an entry,
    so [fuel] above the size of [pending] is enough. *)
Fixpoint drain (fuel : nat) (now : Z) (r : Release) : Release * Res unit :=
  match fuel with
  | O => (r, Ok tt)
  | S fuel' =>
    match r.(pending) !! r.(next) with
    | None => (r, Ok tt)
    | Some s =>
      match release_sub now (r <| pending := delete r.(next) r.(pending) |>) s with
      | (r', Ok _) => drain fuel' now r'
      | (r', Err e) => (r', Err e)
      end
    end
  end.

Definition run_detector (f : WireDetector.WireDetector -> WireDetector.WireDetector * Res unit)
    (r : Release) : Release * Res unit :=
  match r.(detector) with
  | None => (r, Ok tt)
  | Some d => let '(d', res) := f d in (r <| detector := Some d' |>, res)
  end.

(** One turn of the outer loop. *)
Definition receive (r : Release) (ev : RecvEvent) : Release * Res unit :=
  match ev with
  | RecvTimeout t => run_detector (WireDetector.starve_tick t) r
  | RecvSub s t1 t2 now =>
    let cum := u64_add r.(wire_cum) s.(sc_bytes) in
    let sm := r.(summary) in
    let r1 := r <| wire_cum := cum |>
                <| summary := mkSummary sm.(s_blocks) sm.(s_bytes) sm.(plans_released)
                                (sm.(s_wire_samples) ++ [(t1, cum)]) |> in
    match run_detector (WireDetector.arrival s.(sc_bytes) t2) r1 with
    | (r2, Err e) => (r2, Err e)
    | (r2, Ok _) =>
      let r3 := r2 <| pending := <[key s := s]> r2.(pending) |> in
      drain (S (size r3.(pending))) now r3
    end
  end.

(** [release_ordered]: until an error, or until every worker is gone. *)
Fixpoint release_ordered (r : Release) (evs : list RecvEvent) : Release * Res ReleaseSummary :=
  match evs with
  | [] => (r, Ok r.(summary))
  | ev :: evs' =>
    match receive r ev with
    | (r', Ok _) => release_ordered r' evs'
    | (r', Err e) => (r', Err e)
    end
  end.

(** ** Supervision *)

(** [note_give_up]. *)
Definition note_give_up (p : option Progress.Progress) (unreleased plan_end now : Z)
  : option Progress.Progress :=
  match p with
  | Some p => Some (if unreleased <=? plan_end
                    then Progress.note_download_gave_up_at unreleased now p else p)
  | None => None
  end.

(** What the [select!] observes: a worker's result ([WorkerPanicked] for a join
    error) with the [unreleased_from], the progress and the clock it then
    reads, or the release's result. *)
Inductive SuperviseEvent :=
| WorkerFinished
| WorkerFailed (e : SlipstreamError) (unreleased now : Z)
| WorkerPanicked (msg : string) (unreleased now : Z)
| ReleaseFinished (res : Res ReleaseSummary).

(** [supervise_fetch]; [None]: still running.  [workers] counts those not joined. *)
Fixpoint supervise_fetch (workers : nat) (released : option ReleaseSummary)
    (failover : option WireFailoverArm) (p : option Progress.Progress) (plan_end : Z)
    (evs : list SuperviseEvent) : option (option Progress.Progress * Res ReleaseSummary) :=
  match workers, released with
  | O, Some sm => Some (p, Ok sm)
  | _, _ =>
    match evs with
    | [] => None
    | WorkerFinished :: evs' => supervise_fetch (pred workers) released failover p plan_end evs'
    | WorkerFailed e unreleased now :: _ =>
      let p' := note_give_up p unreleased plan_end now in
      Some (p', Err (match failover with
                     | Some arm => WireCollapse 0 arm.(floor_mbps)
                     | None => e end))
    | WorkerPanicked msg unreleased now :: _ =>
      Some (note_give_up p unreleased plan_end now, Err (Transport ("worker panicked: " +:+ msg)))
    | ReleaseFinished (Ok sm) :: evs' => supervise_fetch workers (Some sm) failover p plan_end evs'
    | ReleaseFinished (Err e) :: _ => Some (p, Err e)
    end
  end.

(** The end of [run_fetch]. *)
Definition fetch_result (plan : FetchPlan.FetchPlan) (elapsed : float) (res : Res ReleaseSummary)
  : Res WireDetector.FetchStats :=
  let? sm := res in
  if negb (sm.(plans_released) =? FetchPlan.chunk_count plan)
  then Err (Transport ("fetch incomplete: released " +:+ pretty sm.(plans_released) +:+ "/" +:+
              pretty (FetchPlan.chunk_count plan) +:+ " plan chunks"))
  else Ok (WireDetector.mkFetchStats sm.(s_blocks) sm.(s_bytes) elapsed sm.(s_wire_samples)).

(** ** What has been released *)

Definition blocks_of (subs : list SubChunk) : list CompactBlock := subs ≫= sc_blocks.

(** Release order from key [k] on. *)
Fixpoint well_ordered (k : Z * Z) (subs : list SubChunk) : Prop :=
  match subs with
  | [] => True
  | s :: subs' => key s = k /\ well_ordered (next_key k s) subs'
  end.

Definition key_after (k : Z * Z) (subs : list SubChunk) : Z * Z := foldl next_key k subs.

Definition last_count (subs : list SubChunk) : Z :=
  Z.of_nat (length (filter (fun s => s.(is_last) = true) subs)).

(** What the scanner has been given is [subs], in release order and linked. *)
Definition queue_safe (q : list ChunkQueue.Chunk) (subs : list SubChunk) : Prop :=
  q ≫= ChunkQueue.blocks = blocks_of subs /\
  ChunkQueue.index <$> q = seqZ 0 (Z.of_nat (length q)) /\
  Verify.linked Verify.continuity_default (blocks_of subs) /\
  well_ordered (0, 0) subs.

Definition released_ok (start : Z) (r : Release) (subs : list SubChunk) : Prop :=
  queue_safe r.(queue) subs /\
  r.(continuity) = Verify.frontier_of Verify.continuity_default (blocks_of subs) /\
  r.(next) = key_after (0, 0) subs /\
  r.(emitted_chunks) = Z.of_nat (length r.(queue)) /\
  r.(summary).(plans_released) = last_count subs /\
  r.(summary).(s_blocks) = Z.of_nat (length (blocks_of subs)) /\
  r.(floor) = r.(next).1 /\
  r.(unreleased_from) = resume_after start subs.

Definition subs_ok (subs : list SubChunk) : Prop :=
  Forall (fun s => s.(sc_blocks) <> [] /\ Forall Verify.block_ok s.(sc_blocks)) subs.

(** [pending] is keyed by its sub-chunks and holds only arrived ones. *)
Definition pending_ok (arrived : list SubChunk) (m : gmap (Z * Z) SubChunk) : Prop :=
  forall k s, m !! k = Some s -> key s = k /\ s ∈ arrived.

Lemma well_ordered_app k xs ys :
  well_ordered k (xs ++ ys) <-> well_ordered k xs /\ well_ordered (key_after k xs) ys.
Proof using Type. clear encoded_len queue_ok. revert k. induction xs as [|x xs IH]; intros k; simpl; [tauto|]. rewrite IH. tauto. Qed.

Lemma blocks_of_app xs ys : blocks_of (xs ++ ys) = blocks_of xs ++ blocks_of ys.
Proof. apply bind_app. Qed.

Lemma blocks_of_singleton s : blocks_of [s] = s.(sc_blocks).
Proof. unfold blocks_of. csimpl. apply app_nil_r. Qed.

Lemma last_count_app xs ys : last_count (xs ++ ys) = last_count xs + last_count ys.
Proof. unfold last_count. rewrite filter_app, length_app. lia. Qed.

Lemma blocks_of_ok subs : subs_ok subs -> Forall Verify.block_ok (blocks_of subs).
Proof. induction 1 as [|s subs [_ Hs] _ IH]; [constructor|]. apply Forall_app. auto. Qed.

Lemma resume_after_snoc start subs s b : last s.(sc_blocks) = Some b ->
  resume_after start (subs ++ [s]) = u64_add b.(height) 1.
Proof. intros Hb. unfold resume_after. rewrite last_snoc. simpl. by rewrite Hb. Qed.

Lemma queue_safe_snoc q subs s :
  queue_safe q subs -> key s = key_after (0, 0) subs ->
  Verify.linked (Verify.frontier_of Verify.continuity_default (blocks_of subs)) s.(sc_blocks) ->
  queue_safe (q ++ [ChunkQueue.from_blocks encoded_len (Z.of_nat (length q)) s.(sc_blocks)]) (subs ++ [s]).
Proof.
  intros (Hq & Hi & Hl & Hw) Hk Hls. unfold queue_safe.
  rewrite bind_app, Hq, blocks_of_app, blocks_of_singleton, fmap_app, Hi, length_app. csimpl.
  rewrite app_nil_r. split; [done|]. split.
  - rewrite Nat.add_1_r, seqZ_S. done.
  - split; [by apply Verify.linked_app|]. apply well_ordered_app. simpl. auto.
Qed.

Lemma release_sub_ok start now r subs s r' res :
  released_ok start r subs -> subs_ok subs -> subs_ok [s] -> key s = r.(next) ->
  release_sub now r s = (r', res) ->
  r'.(pending) = r.(pending) /\
  match res with
  | Ok _ => released_ok start r' (subs ++ [s])
  | Err _ => r'.(queue) = r.(queue)
  end.
Proof.
  intros (Hq & Hc & Hn & Hem & Hpl & Hbl & Hfl & Hun) Hsubs Hs Hk.
  apply Forall_cons in Hs as [[Hne Hs] _]. unfold release_sub.
  assert (Verify.continuity_ok r.(continuity)) as Hcok.
  { rewrite Hc. apply Verify.frontier_ok; [apply Verify.default_ok|by apply blocks_of_ok|apply Hq]. }
  destruct (Verify.verify_blocks_spec _ _ Hcok Hs) as [[Hl ->]|[_ (c' & e & -> & _)]];
    [|by intros [= <- <-]].
  destruct (queue_ok _); [|by intros [= <- <-]].
  destruct (last s.(sc_blocks)) as [b|] eqn:Elast; [|by apply last_None in Elast].
  destruct (head s.(sc_blocks)) as [b0|] eqn:Ehead; [|by apply head_None in Ehead].
  rewrite Hc in Hl |- *. rewrite Hn in Hk |- *. rewrite Hem.
  pose proof (queue_safe_snoc _ _ _ Hq Hk Hl) as Hq'.
  intros Hr. unfold released_ok. rewrite (resume_after_snoc _ _ _ _ Elast).
  unfold key_after. rewrite foldl_app, last_count_app, blocks_of_app, blocks_of_singleton, length_app.
  rewrite Verify.frontier_of_app. fold (key_after (0, 0) subs).
  assert (last_count [s] = if s.(is_last) then 1 else 0) as Hlc.
  { unfold last_count. rewrite filter_cons, filter_nil. by destruct (is_last s). }
  rewrite Hlc. cbn [foldl]. destruct (is_last s) eqn:El; injection Hr as <- <-; (split; [done|]);
    unfold next_key; rewrite El; simpl; (split; [done|]); rewrite ?length_app; simpl;
    repeat split; try done; try lia.
  by rewrite Hfl, Hn.
Qed.

Lemma drain_ok start now arrived fuel : forall r subs r' res,
  released_ok start r subs -> subs_ok subs -> subs ⊆ arrived -> subs_ok arrived ->
  pending_ok arrived r.(pending) ->
  drain fuel now r = (r', res) ->
  exists subs', subs' ⊆ arrived /\ subs_ok subs' /\ queue_safe r'.(queue) subs' /\
    (res = Ok tt -> released_ok start r' subs' /\ pending_ok arrived r'.(pending) /\
      ((size r.(pending) < fuel)%nat -> r'.(pending) !! r'.(next) = None)).
Proof.
  induction fuel as [|fuel IH]; intros r subs r' res Hrel Hsubs Hsub Harr Hp; simpl.
  { intros [= <- <-]. exists subs. do 2 (split; [done|]). split; [apply Hrel|]. intros _.
    do 2 (split; [done|]). lia. }
  destruct (r.(pending) !! r.(next)) as [s|] eqn:E.
  2:{ intros [= <- <-]. exists subs. do 2 (split; [done|]). split; [apply Hrel|]. done. }
  destruct (Hp _ _ E) as [Hk Hs].
  assert (subs_ok [s]) as Hsok.
  { apply Forall_singleton. apply (proj1 (Forall_forall _ _) Harr s Hs). }
  set (r0 := r <| pending := delete r.(next) r.(pending) |>).
  destruct (release_sub now _ s) as [r1 res1] eqn:Er.
  destruct (release_sub_ok start now r0 subs s r1 res1 Hrel Hsubs Hsok Hk Er) as [Hpend Hres].
  destruct res1 as [u|e].
  2:{ intros [= <- <-]. exists subs. do 2 (split; [done|]). rewrite Hres. split; [apply Hrel|done]. }
  intros Hd. assert (subs ++ [s] ⊆ arrived) as Hsub' by set_solver.
  destruct (IH r1 (subs ++ [s]) r' res) as (subs' & H1 & H2 & H3 & H4); try done.
  - by apply Forall_app.
  - rewrite Hpend. simpl. intros k s' Hl. apply lookup_delete_Some in Hl as [_ Hl]. by apply Hp.
  - exists subs'. do 3 (split; [done|]). intros Hok. destruct (H4 Hok) as (H5 & H6 & H7).
    do 2 (split; [done|]). intros Hf. apply H7. rewrite Hpend. simpl.
    rewrite map_size_delete_Some by eauto.
    assert (size r.(pending) <> 0%nat); [|lia]. intros H0%map_size_empty_inv.
    rewrite H0 in E. by rewrite lookup_empty in E.
Qed.

Lemma run_detector_frame f r r' res : run_detector f r = (r', res) ->
  r'.(queue) = r.(queue) /\ r'.(pending) = r.(pending) /\ r'.(next) = r.(next) /\
  forall start subs, released_ok start r subs -> released_ok start r' subs.
Proof.
  unfold run_detector. destruct (detector r); [|by intros [= <- <-]].
  destruct (f w) as [d' res']. by intros [= <- <-].
Qed.

Definition arrival_of (ev : RecvEvent) : list SubChunk :=
  match ev with RecvSub s _ _ _ => [s] | RecvTimeout _ => [] end.
Definition arrivals (evs : list RecvEvent) : list SubChunk := evs ≫= arrival_of.

(** The state between two receives. *)
Definition release_inv (start : Z) (arrived : list SubChunk) (r : Release) (subs : list SubChunk) : Prop :=
  released_ok start r subs /\ subs_ok subs /\ subs ⊆ arrived /\
  pending_ok arrived r.(pending) /\ r.(pending) !! r.(next) = None.

Lemma release_inv_init start failover p : release_inv start [] (release_init start failover p) [].
Proof.
  unfold release_inv, released_ok, queue_safe, release_init. simpl.
  repeat split; try done; try constructor.
Qed.

Lemma receive_ok start arrived r subs ev r' res :
  release_inv start arrived r subs -> subs_ok (arrived ++ arrival_of ev) ->
  receive r ev = (r', res) ->
  exists subs', subs' ⊆ arrived ++ arrival_of ev /\ queue_safe r'.(queue) subs' /\
    (res = Ok tt -> release_inv start (arrived ++ arrival_of ev) r' subs').
Proof.
  intros (Hrel & Hsubs & Hsub & Hp & Hnone) Harr. destruct ev as [t|s t1 t2 now]; cbn [receive arrival_of].
  - rewrite app_nil_r. intros Hd. apply run_detector_frame in Hd as (Hq & Hpe & Hn & Hf).
    exists subs. split; [done|]. rewrite Hq. split; [apply Hrel|]. intros _. split; [by apply Hf|].
    do 2 (split; [done|]). by rewrite Hpe, Hn.
  - destruct (run_detector _ _) as [r2 res2] eqn:Ed.
    apply run_detector_frame in Ed as (Hq & Hpe & Hn & Hf).
    assert (released_ok start r2 subs) as Hrel2 by (by apply Hf).
    assert (subs ⊆ arrived ++ [s]) as Hsub2 by set_solver.
    destruct res2 as [u|e].
    2:{ intros [= <- <-]. exists subs. split; [done|]. rewrite Hq. split; [apply Hrel|done]. }
    intros Hdr. set (r3 := r2 <| pending := <[key s := s]> r2.(pending) |>) in *.
    assert (pending_ok (arrived ++ [s]) r3.(pending)) as Hp3.
    { simpl. rewrite Hpe. intros k s' [[<- <-]|[_ Hl]]%lookup_insert_Some; [set_solver|].
      destruct (Hp _ _ Hl). set_solver. }
    destruct (drain_ok start now (arrived ++ [s]) _ r3 subs r' res Hrel2 Hsubs Hsub2 Harr Hp3 Hdr)
      as (subs' & H1 & H2 & H3 & H4).
    exists subs'. do 2 (split; [done|]). intros Hok. destruct (H4 Hok) as (H5 & H6 & H7).
    do 4 (split; [done|]). apply H7. lia.
Qed.

Lemma release_ordered_ok start evs : forall arrived r subs r' res,
  release_inv start arrived r subs -> subs_ok (arrived ++ arrivals evs) ->
  release_ordered r evs = (r', res) ->
  exists subs', subs' ⊆ arrived ++ arrivals evs /\ queue_safe r'.(queue) subs' /\
    forall sm, res = Ok sm -> sm = r'.(summary) /\
      release_inv start (arrived ++ arrivals evs) r' subs'.
Proof.
  induction evs as [|ev evs IH]; intros arrived r subs r' res Hinv Harr; simpl.
  { rewrite app_nil_r. intros [= <- <-]. exists subs. destruct Hinv as (Hrel & Hs & Hsub & Hp & Hn).
    split; [done|]. split; [apply Hrel|]. by intros ? [= <-]. }
  unfold arrivals in *. rewrite bind_cons, app_assoc in *.
  destruct (receive r ev) as [r1 res1] eqn:E.
  destruct (receive_ok start arrived r subs ev r1 res1 Hinv) as (subs1 & H1 & H2 & H3); [|done|].
  { by apply Forall_app in Harr as [? _]. }
  destruct res1 as [[]|e].
  - intros Hr. by eapply IH; eauto.
  - intros [= <- <-]. exists subs1. split; [set_solver|]. by split.
Qed.
End Release.

(** ** Release order *)

(** Lexicographic order of keys, the order of [BTreeMap<(usize, usize), _>]. *)
Definition key_lt (a b : Z * Z) : Prop := a.1 < b.1 \/ (a.1 = b.1 /\ a.2 < b.2).

Lemma next_key_lt k s : key s = k -> key_lt k (next_key k s).
Proof.
  intros <-. unfold key_lt, next_key, key. destruct (is_last s); simpl; [left|right]; lia.
Qed.

Lemma key_lt_irrefl k : ~ key_lt k k.
Proof. unfold key_lt. lia. Qed.

Lemma key_lt_trans a b c : key_lt a b -> key_lt b c -> key_lt a c.
Proof. unfold key_lt. lia. Qed.

Lemma well_ordered_above k subs s : well_ordered k subs -> s ∈ subs -> k = key s \/ key_lt k (key s).
Proof.
  revert k. induction subs as [|x subs IH]; intros k; [by intros _ ?%not_elem_of_nil|].
  intros [Hk Hw] [->|Hs]%elem_of_cons; [by left|]. right. pose proof (next_key_lt k x Hk) as Hlt.
  destruct (IH _ Hw Hs) as [<-|Hlt']; [done|]. by eapply key_lt_trans.
Qed.

Lemma well_ordered_tail k s subs s' : well_ordered k (s :: subs) -> s' ∈ subs -> key_lt (key s) (key s').
Proof.
  intros [Hk Hw] Hs. rewrite Hk. pose proof (next_key_lt k s Hk) as Hlt.
  destruct (well_ordered_above _ _ _ Hw Hs) as [<-|Hlt']; [done|]. by eapply key_lt_trans.
Qed.

(** What is released comes before what is next. *)
Lemma well_ordered_before k subs s : well_ordered k subs -> s ∈ subs -> key_lt (key s) (key_after k subs).
Proof.
  revert s. induction subs as [|x subs IH] using rev_ind; intros s; [by intros _ ?%not_elem_of_nil|].
  intros [Hw [Hk _]]%well_ordered_app Hs. unfold key_after. rewrite foldl_app.
  fold (key_after k subs). pose proof (next_key_lt _ _ Hk) as Hlt.
  apply elem_of_app in Hs as [Hs|Hs].
  - eapply key_lt_trans; [by apply IH|done].
  - apply list_elem_of_singleton in Hs. subst. by rewrite Hk.
Qed.

(** The sub-chunk with the next key is the first unreleased one. *)
Lemma well_ordered_head k rel rest s : well_ordered k (rel ++ rest) -> s ∈ rel ++ rest ->
  key s = key_after k rel -> exists rest', rest = s :: rest'.
Proof.
  intros [Hw1 Hw2]%well_ordered_app Hs Hk. apply elem_of_app in Hs as [Hs|Hs].
  - destruct (key_lt_irrefl (key s)). rewrite Hk at 2. by apply well_ordered_before.
  - destruct rest as [|x rest]; [by apply not_elem_of_nil in Hs|]. exists rest. f_equal.
    apply elem_of_cons in Hs as [->|Hs]; [done|]. destruct (key_lt_irrefl (key s)).
    pose proof (well_ordered_tail _ _ _ _ Hw2 Hs) as Hlt. destruct Hw2 as [Hx _].
    by rewrite Hx, <-Hk in Hlt.
Qed.

Lemma well_ordered_next k xs s ys : well_ordered k (xs ++ s :: ys) -> key_after k xs = key s.
Proof. intros Hw. apply well_ordered_app in Hw as [_ [Hk _]]. done. Qed.

(** Keys determine sub-chunks. *)
Lemma well_ordered_inj k subs s s' : well_ordered k subs -> s ∈ subs -> s' ∈ subs ->
  key s = key s' -> s = s'.
Proof.
  intros Hw Hs Hs' He. apply list_elem_of_split in Hs as (l1 & l2 & ->).
  destruct (well_ordered_head k l1 (s :: l2) s' Hw Hs') as [l [= ? ?]]; [|done].
  rewrite <-He. symmetry. by apply well_ordered_next in Hw.
Qed.

(** The plan chunk being released is the number of completed ones. *)
Lemma key_after_count k subs : well_ordered k subs -> (key_after k subs).1 = k.1 + last_count subs.
Proof.
  revert k. induction subs as [|s subs IH]; intros k; [intros _; unfold last_count; simpl; lia|].
  intros [Hk Hw]. change (key_after k (s :: subs)) with (key_after (next_key k s) subs).
  rewrite (IH _ Hw). change (s :: subs) with ([s] ++ subs). rewrite last_count_app.
  unfold next_key, last_count at 2. rewrite filter_cons, filter_nil. subst k.
  destruct (is_last s); simpl; lia.
Qed.

(** ** Every sub-chunk in its place *)
Section Exact.
Context (encoded_len : CompactBlock -> Z) (queue_ok : Z -> bool) (start : Z).
Context (failover : option WireFailoverArm).
(** What the workers hand on, in release order. *)
Context (total : list SubChunk).
Context (Hwo : well_ordered (0, 0) total) (Hok : subs_ok total).
Context (Hlinked : Verify.linked Verify.continuity_default (blocks_of total)).

(** [rel] is released, and what else has arrived is pending. *)
Definition buffered (arrived : list SubChunk) (r : Release) (rel rest : list SubChunk) : Prop :=
  total = rel ++ rest /\ released_ok start r rel /\ rel ⊆ arrived /\
  pending_ok arrived r.(pending) /\
  forall s, s ∈ arrived -> s ∈ rest -> r.(pending) !! key s = Some s.

(** The queue refused the chunk after the released ones: its receiver is gone. *)
Definition refused (r : Release) (e : SlipstreamError) : Prop :=
  e = Stopped /\ queue_ok (Z.of_nat (length r.(queue))) = false /\
  exists rel rest, total = rel ++ rest /\ queue_safe r.(queue) rel.

Lemma release_next now r rel s rest : total = rel ++ s :: rest -> released_ok start r rel ->
  exists r' res, release_sub encoded_len queue_ok now r s = (r', res) /\ r'.(detector) = r.(detector) /\
    r'.(pending) = r.(pending) /\
    match res with Ok _ => released_ok start r' (rel ++ [s]) | Err e => refused r' e end.
Proof.
  intros Ht Hrel. assert (subs_ok rel /\ subs_ok [s]) as [Hr Hs].
  { unfold subs_ok in *. rewrite Ht in Hok. apply Forall_app in Hok as [? Hs].
    apply Forall_cons in Hs as [? _]. split; [done|]. by apply Forall_singleton. }
  assert (key s = r.(next)) as Hk.
  { destruct Hrel as (_ & _ & -> & _). rewrite Ht in Hwo. by apply well_ordered_next in Hwo. }
  destruct (release_sub encoded_len queue_ok now r s) as [r' res] eqn:E.
  destruct (release_sub_ok _ _ _ _ _ _ _ _ _ Hrel Hr Hs Hk E) as [Hp Hres]. exists r', res.
  revert E. unfold release_sub.
  assert (Verify.linked r.(continuity) s.(sc_blocks)) as Hl.
  { destruct Hrel as (_ & -> & _). rewrite Ht, blocks_of_app in Hlinked.
    apply Verify.linked_app in Hlinked as [_ Hl]. unfold blocks_of in Hl. rewrite bind_cons in Hl.
    by apply Verify.linked_app in Hl as [? _]. }
  assert (Verify.continuity_ok r.(continuity)) as Hc.
  { destruct Hrel as (Hq & -> & _). apply Verify.frontier_ok; [apply Verify.default_ok|by apply blocks_of_ok|apply Hq]. }
  apply Forall_singleton in Hs as [_ Hs].
  destruct (Verify.verify_blocks_spec _ _ Hc Hs) as [[_ ->]|[Hn _]]; [|done].
  destruct (queue_ok r.(emitted_chunks)) eqn:Eq.
  - destruct (is_last s); intros [= <- <-]; split_and!; try done; by destruct Hres.
  - intros [= <- <-]. split_and!; try done. unfold refused. simpl.
    destruct Hrel as (Hq & _ & _ & Hem & _). rewrite <-Hem. split_and!; try done. by exists rel, (s :: rest).
Qed.

Lemma drain_exact now arrived fuel : forall r rel rest, arrived ⊆ total ->
  buffered arrived r rel rest ->
  exists r' res, drain encoded_len queue_ok fuel now r = (r', res) /\ r'.(detector) = r.(detector) /\
    match res with
    | Ok _ => (exists rel' rest', buffered arrived r' rel' rest') /\
        ((size r.(pending) < fuel)%nat -> r'.(pending) !! r'.(next) = None)
    | Err e => refused r' e
    end.
Proof.
  induction fuel as [|fuel IH]; intros r rel rest Harr Hb; cbn [drain].
  { exists r, (Ok tt). split_and!; [done|done|eauto|lia]. }
  destruct (r.(pending) !! r.(next)) as [s|] eqn:E; [|exists r, (Ok tt); by split_and!; eauto].
  destruct Hb as (Ht & Hrel & Hsub & Hp & Hall). destruct (Hp _ _ E) as [Hk Hs].
  assert (exists rest', rest = s :: rest') as [rest' ->].
  { rewrite Ht in Hwo. apply (well_ordered_head (0, 0) rel); [done|rewrite <-Ht; by apply Harr|].
    rewrite Hk. apply Hrel. }
  set (r0 := r <| pending := delete r.(next) r.(pending) |>).
  destruct (release_next now r0 rel s rest' Ht Hrel) as (r1 & res1 & Er & Hd1 & Hp1 & Hrel1).
  match goal with |- context [release_sub _ _ now ?x s] => change x with r0 end. rewrite Er.
  destruct res1 as [u|e]; [|by exists r1, (Err e)].
  destruct (IH r1 (rel ++ [s]) rest' Harr) as (r' & res & Ed & Hd & Hres).
  { split_and!; [by rewrite <-app_assoc|done|set_solver| |].
    - rewrite Hp1. simpl. intros k s' Hl. apply lookup_delete_Some in Hl as [_ Hl]. by apply Hp.
    - intros s' H1 H2. rewrite Hp1. simpl. rewrite lookup_delete_ne; [apply Hall; set_solver|].
      rewrite <-Hk. intros He. rewrite Ht in Hwo. apply well_ordered_app in Hwo as [_ Hw2].
      pose proof (well_ordered_tail _ _ _ _ Hw2 H2) as Hlt. rewrite He in Hlt. by apply key_lt_irrefl in Hlt. }
  exists r', res. split; [done|]. split; [by rewrite Hd, Hd1|]. destruct res as [u'|e]; [|done].
  destruct Hres as [Hb' Hf]. split; [done|]. intros Hsz. apply Hf. rewrite Hp1. simpl.
  rewrite map_size_delete_Some by eauto.
  assert (size r.(pending) <> 0%nat); [|lia]. intros H0%map_size_empty_inv.
  rewrite H0 in E. by rewrite lookup_empty in E.
Qed.

(** What the detector observes of the channel. *)
Definition observed (ev : RecvEvent) : WireDetector.Obs :=
  match ev with
  | RecvTimeout t => WireDetector.Starved t
  | RecvSub s _ t2 _ => WireDetector.Arrived s.(sc_bytes) t2
  end.

(** The detector after the events [seen], none of which it fired on. *)
Definition calm (seen : list RecvEvent) (d : option WireDetector.WireDetector) : Prop :=
  match failover with
  | None => d = None
  | Some arm => exists d', d = Some d' /\ WireDetector.watch (WireDetector.new arm) (observed <$> seen) = (d', Ok tt)
  end.

(** The armed detector fires with [e] on the last event of [seen]. *)
Definition fired (seen : list RecvEvent) (e : SlipstreamError) : Prop :=
  exists arm d, failover = Some arm /\
    WireDetector.watch (WireDetector.new arm) (observed <$> seen) = (d, Err e).

Lemma run_detector_calm seen ev r : calm seen r.(detector) ->
  exists r' res, run_detector (fun d => WireDetector.observe d (observed ev)) r = (r', res) /\
    match res with
    | Ok _ => calm (seen ++ [ev]) r'.(detector) /\ r' = r <| detector := r'.(detector) |>
    | Err e => fired (seen ++ [ev]) e /\ r'.(queue) = r.(queue)
    end.
Proof.
  unfold calm, run_detector. destruct failover as [arm|] eqn:Ef.
  - intros (d & -> & Hw).
    destruct (WireDetector.observe d (observed ev)) as [d' [[]|e]] eqn:Eo; (eexists _, _; split; [done|]).
    + split; [|done]. exists d'. split; [done|]. rewrite fmap_app, WireDetector.watch_app, Hw. csimpl. by rewrite Eo.
    + split; [|done]. exists arm, d'. split; [done|]. rewrite fmap_app, WireDetector.watch_app, Hw. csimpl. by rewrite Eo.
  - intros Hd. rewrite Hd. eexists _, _. split; [done|]. split; [done|]. destruct r. by simpl in *; subst.
Qed.

(** Between two receives: everything contiguous is released, and the detector is calm. *)
Definition settled (seen : list RecvEvent) (r : Release) : Prop :=
  (exists rel rest, buffered (arrivals seen) r rel rest) /\ r.(pending) !! r.(next) = None /\
  calm seen r.(detector).

(** The release ended with [e] on the last event of [seen], with a prefix of [total] released. *)
Definition ended (seen : list RecvEvent) (r : Release) (e : SlipstreamError) : Prop :=
  refused r e \/ fired seen e /\ exists rel rest, total = rel ++ rest /\ queue_safe r.(queue) rel.

Lemma arrivals_snoc seen ev : arrivals (seen ++ [ev]) = arrivals seen ++ arrival_of ev.
Proof. unfold arrivals. rewrite bind_app. csimpl. by rewrite app_nil_r. Qed.

(** An arrival releases every sub-chunk it makes contiguous. *)
Lemma receive_exact seen r ev : arrivals (seen ++ [ev]) ⊆ total -> settled seen r ->
  exists r' res, receive encoded_len queue_ok r ev = (r', res) /\
    match res with Ok _ => settled (seen ++ [ev]) r' | Err e => ended (seen ++ [ev]) r' e end.
Proof.
  intros Harr ((rel & rest & Hb) & Hnone & Hcalm). rewrite arrivals_snoc in Harr.
  unfold settled, ended. rewrite arrivals_snoc.
  destruct Hb as (Ht & Hrel & Hsub & Hp & Hall).
  destruct ev as [t|s t1 t2 now]; cbn [receive arrival_of] in *.
  { rewrite app_nil_r. destruct (run_detector_calm seen (RecvTimeout t) r Hcalm) as (r' & res & E & Hres).
    exists r', res. split; [exact E|]. destruct res as [u|e].
    - destruct Hres as [Hc Hr']. split_and!; [|by rewrite Hr'|done]. exists rel, rest.
      unfold buffered. rewrite Hr'. by split_and!.
    - right. split; [apply Hres|]. exists rel, rest. rewrite (proj2 Hres). split; [done|apply Hrel]. }
  set (r1 := _ <| summary := _ |>).
  destruct (run_detector_calm seen (RecvSub s t1 t2 now) r1 Hcalm) as (r2 & res2 & E2 & Hres2).
  assert (run_detector (WireDetector.arrival s.(sc_bytes) t2) r1 = (r2, res2)) as -> by exact E2.
  destruct res2 as [u|e].
  2:{ exists r2, (Err e). split; [done|]. right. split; [apply Hres2|]. exists rel, rest.
      rewrite (proj2 Hres2). split; [done|apply Hrel]. }
  destruct Hres2 as [Hc2 Hr2]. set (r3 := r2 <| pending := _ |>).
  assert (r2.(pending) = r.(pending)) as Hp2 by (by rewrite Hr2).
  destruct (drain_exact now (arrivals seen ++ [s]) (S (size r3.(pending))) r3 rel rest)
    as (r' & res & Ed & Hd & Hres); [done| |].
  { split_and!; [done|unfold r3; by rewrite Hr2|set_solver| |]; simpl; rewrite Hp2.
    - intros k s' [[<- <-]|[_ Hl]]%lookup_insert_Some; [set_solver|]. destruct (Hp _ _ Hl). set_solver.
    - intros s' Hs' Hr. destruct (decide (key s' = key s)) as [He|Hne].
      + rewrite He, lookup_insert_eq. f_equal. symmetry. apply (well_ordered_inj (0, 0) total); try done.
        * rewrite Ht. set_solver.
        * set_solver.
      + rewrite lookup_insert_ne by done. apply Hall; [|done]. set_solver. }
  exists r', res. split; [done|]. destruct res as [u'|e]; [|by left].
  destruct Hres as [Hb' Hf]. split_and!; [done|apply Hf; lia|]. by rewrite Hd.
Qed.

Lemma release_ordered_exact evs : forall seen r, arrivals (seen ++ evs) ⊆ total -> settled seen r ->
  exists r' res, release_ordered encoded_len queue_ok r evs = (r', res) /\
    match res with
    | Ok sm => sm = r'.(summary) /\ settled (seen ++ evs) r'
    | Err e => exists pre post, evs = pre ++ post /\ ended (seen ++ pre) r' e
    end.
Proof.
  induction evs as [|ev evs IH]; intros seen r Harr Hs; cbn [release_ordered].
  { exists r, (Ok r.(summary)). by rewrite app_nil_r. }
  assert (seen ++ ev :: evs = (seen ++ [ev]) ++ evs) as Hcons by (by rewrite <-app_assoc). rewrite Hcons in *.
  destruct (receive_exact seen r ev) as (r1 & res1 & -> & H1); [|done|].
  { intros x Hx. apply Harr. unfold arrivals. rewrite bind_app. set_solver. }
  destruct res1 as [u|e].
  - destruct (IH (seen ++ [ev]) r1 Harr H1) as (r' & res & -> & Hres). exists r', res. split; [done|].
    destruct res as [sm|e]; [done|]. destruct Hres as (pre & post & -> & He). exists (ev :: pre), post.
    split; [done|]. by rewrite <-app_assoc in He.
  - exists r1, (Err e). split; [done|]. by exists [ev], evs.
Qed.

Lemma settled_init p : settled [] (release_init start failover p).
Proof.
  split_and!; [|done|].
  - exists [], total. split; [done|]. split; [apply (release_inv_init start failover p)|]. split_and!; try done.
    by intros s ?%not_elem_of_nil.
  - unfold calm, release_init. cbn [detector]. destruct failover as [arm|]; [|done].
    by exists (WireDetector.new arm).
Qed.

(** What is released is the longest prefix of [total] that has arrived. *)
Lemma settled_longest seen r : settled seen r -> exists rel rest,
  total = rel ++ rest /\ released_ok start r rel /\ forall s, head rest = Some s -> s ∉ arrivals seen.
Proof using Hwo.
  clear Hok Hlinked queue_ok encoded_len. intros ((rel & rest & Ht & Hrel & Hsub & _ & Hall) & Hn & _).
  exists rel, rest. split_and!; try done. intros s Hs Hin.
  destruct rest as [|x rest]; [done|]. injection Hs as ->.
  assert (key s = r.(next)) as Hk.
  { destruct Hrel as (_ & _ & -> & _). rewrite Ht in Hwo. by apply well_ordered_next in Hwo. }
  rewrite <-Hk, (Hall s) in Hn; [done|done|set_solver].
Qed.
End Exact.

(** ** The whole fetch *)

(** A plan chunk's sub-chunks are in release order. *)
Lemma open_chunk_ordered i subs : forall j,
  sub_index <$> subs = seqZ j (Z.of_nat (length subs)) -> Forall (fun s => s.(plan_index) = i) subs ->
  Forall not_last subs ->
  well_ordered (i, j) subs /\ key_after (i, j) subs = (i, j + Z.of_nat (length subs)).
Proof.
  induction subs as [|s subs IH]; intros j Hs Hi Hn; [simpl; split; [done|f_equal; lia]|].
  rewrite length_cons, Nat2Z.inj_succ, seqZ_cons, Z.pred_succ in Hs by lia. csimpl in Hs.
  injection Hs as <- Hs2. apply Forall_cons in Hi as [<- Hi]. apply Forall_cons in Hn as [Hl Hn].
  cbn [well_ordered]. destruct (IH (Z.succ s.(sub_index))) as [Hw Hk]; [done..|].
  assert (next_key (s.(plan_index), s.(sub_index)) s = (s.(plan_index), Z.succ s.(sub_index))) as Hnk.
  { unfold next_key. by rewrite Hl. }
  unfold key_after. cbn [foldl]. rewrite Hnk. fold (key_after (s.(plan_index), Z.succ s.(sub_index)) subs).
  rewrite Hk. split; [done|]. f_equal. simpl. lia.
Qed.

Lemma last_count_open subs : Forall not_last subs -> last_count subs = 0.
Proof.
  unfold last_count, not_last. induction 1 as [|s subs Hs _ IH]; [done|].
  by rewrite filter_cons_False by congruence.
Qed.

Lemma done_chunk_ordered e i subs :
  sub_index <$> subs = seqZ 0 (Z.of_nat (length subs)) -> Forall (fun s => s.(plan_index) = i) subs ->
  marked_last e subs ->
  well_ordered (i, 0) subs /\ key_after (i, 0) subs = (i + 1, 0) /\ last_count subs = 1.
Proof.
  intros Hs Hi (init & l & -> & Hn & Hl & _). rewrite fmap_app, length_app in Hs. csimpl in Hs.
  rewrite Nat2Z.inj_add, seqZ_app in Hs by lia. apply app_inj_1 in Hs as [Hs1 Hs2];
    [|rewrite length_fmap, length_seqZ; lia].
  apply Forall_app in Hi as [Hi1 Hi2]. apply Forall_cons in Hi2 as [Hi2 _].
  destruct (open_chunk_ordered i init 0 Hs1 Hi1 Hn) as [Hw Hk].
  assert (seqZ (0 + Z.of_nat (length init)) (Z.of_nat 1) = [Z.of_nat (length init)]) as Hone.
  { change (Z.of_nat 1) with 1. by rewrite seqZ_cons. }
  rewrite Hone in Hs2. injection Hs2 as Hs2.
  assert (key l = (i, Z.of_nat (length init))) as Hkl by (unfold key; congruence).
  split; [apply well_ordered_app; rewrite Hk; simpl; by rewrite Hkl|].
  split; [unfold key_after in *; rewrite foldl_app, Hk; simpl; unfold next_key; by rewrite Hl, Hi2|].
  rewrite last_count_app, (last_count_open _ Hn). unfold last_count.
  by rewrite filter_cons_True, filter_nil by done.
Qed.

Section Fetch.
Context (encoded_len : CompactBlock -> Z) (grant : Z -> Z -> option Z) (send_ok : Z -> Z -> bool).
Context (fmt : float -> string) (queue_ok : Z -> bool).
Context (plan : FetchPlan.FetchPlan) (Hplan : FetchPlan.plan_ok plan).
(** What the worker that claims plan chunk [i] meets, and the progress it finds. *)
Context (attempts : Z -> list Attempt) (prog : Z -> option Progress.Progress).

(** The worker that claims plan chunk [i]. *)
Definition work (i : Z) : PumpState * ChunkOutcome :=
  fetch_chunk encoded_len grant send_ok fmt plan
    (i, (FetchPlan.chunk_range plan i).1, (FetchPlan.chunk_range plan i).2) (prog i) (attempts i).
Definition handed_on (i : Z) : list SubChunk := (work i).1.(out).
Definition all_chunks : list Z := seqZ 0 (FetchPlan.chunk_count plan).
(** Everything the workers hand on, in plan order. *)
Definition total_work : list SubChunk := all_chunks ≫= handed_on.

Lemma handed_on_ok i :
  sub_index <$> handed_on i = seqZ 0 (Z.of_nat (length (handed_on i))) /\
  Forall (fun s => s.(plan_index) = i) (handed_on i) /\
  Forall (fun s => s.(sc_blocks) <> []) (handed_on i) /\
  ((work i).2 = ChunkDone -> marked_last (FetchPlan.chunk_range plan i).2 (handed_on i)) /\
  Forall (fun s => s.(is_last) = true -> ends_at (FetchPlan.chunk_range plan i).2 s) (handed_on i).
Proof.
  unfold handed_on, work.
  destruct (fetch_chunk_spec encoded_len grant send_ok fmt plan i (FetchPlan.chunk_range plan i).1
    (FetchPlan.chunk_range plan i).2 (prog i) (attempts i)) as (H1 & H2 & H3).
  destruct (fetch_chunk _ _ _ _ _ _ _ _) as [ps res]; simpl in *.
  split; [done|]. split; [eapply Forall_impl; [exact H2|]; by intros s (? & _)|].
  split; [eapply Forall_impl; [exact H2|]; by intros s (? & ? & _)|]. split; [by intros ->|].
  assert (forall l, Forall not_last l -> Forall (fun s => s.(is_last) = true ->
    ends_at (FetchPlan.chunk_range plan i).2 s) l) as Hnl.
  { intros l Hl. eapply Forall_impl; [exact Hl|]. unfold not_last. intros s Hs. simpl. congruence. }
  destruct res; [|by apply Hnl..]. destruct H3 as (init & l & -> & Hn & _ & He).
  apply Forall_app. split; [by apply Hnl|]. by apply Forall_singleton.
Qed.

Lemma total_ordered n : (forall i, 0 <= i < Z.of_nat n -> (work i).2 = ChunkDone) ->
  well_ordered (0, 0) (seqZ 0 (Z.of_nat n) ≫= handed_on) /\
  key_after (0, 0) (seqZ 0 (Z.of_nat n) ≫= handed_on) = (Z.of_nat n, 0) /\
  last_count (seqZ 0 (Z.of_nat n) ≫= handed_on) = Z.of_nat n.
Proof.
  induction n as [|n IH]; intros Hd; [done|]. rewrite seqZ_S, bind_app. csimpl. rewrite app_nil_r.
  destruct IH as (Hw & Hk & Hl); [intros; apply Hd; lia|].
  destruct (handed_on_ok (Z.of_nat n)) as (H1 & H2 & _ & H4 & _).
  destruct (done_chunk_ordered _ _ _ H1 H2 (H4 (Hd (Z.of_nat n) ltac:(lia)))) as (Hw' & Hk' & Hl').
  rewrite Z.add_0_l, last_count_app, Hl, Hl'. split; [apply well_ordered_app; by rewrite Hk|].
  split; [|lia]. unfold key_after in *. rewrite foldl_app, Hk, Hk'. f_equal. lia.
Qed.

Section Chain.
Context (chain : Z -> CompactBlock) (Hheight : forall h, (chain h).(height) = h).
Context (Hlinks : forall h, (chain (h + 1)).(prev_hash) = (chain h).(hash)).

Lemma linked_chain s n : 0 <= s -> s + n <= u32_max + 1 ->
  Verify.linked Verify.continuity_default (chain <$> seqZ s n).
Proof.
  intros Hs Hn. destruct (decide (0 <= n)) as [Hp|Hp]; [|by rewrite seqZ_nil by lia].
  rewrite <-(Z2Nat.id n Hp) in Hn |- *. induction (Z.to_nat n) as [|m IH]; [done|].
  rewrite seqZ_S, fmap_app. csimpl. apply Verify.linked_app. split; [apply IH; lia|].
  simpl. split; [|done]. unfold Verify.frontier_of.
  destruct m as [|m]; [by split; [rewrite Hheight; lia|]|].
  rewrite last_fmap_seqZ by lia. unfold Verify.follows. simpl. rewrite !Hheight.
  split; [lia|]. split; [intros h [= <-]; lia|]. intros p [= <-]. right.
  rewrite <-Hlinks. do 2 f_equal. lia.
Qed.

(** Each plan chunk is completed, against a server that serves the chain. *)
Definition chunk_served (i : Z) : Prop :=
  honest encoded_len grant send_ok chain plan.(FetchPlan.split_bytes)
    (mkPump (fresh_cursor i (FetchPlan.chunk_range plan i).1 (FetchPlan.chunk_range plan i).2)
       [] (prog i)) (attempts i) /\
  (work i).2 = ChunkDone.
Context (Hserved : forall i, 0 <= i < FetchPlan.chunk_count plan -> chunk_served i).

Lemma handed_on_blocks i : 0 <= i < FetchPlan.chunk_count plan ->
  blocks_of (handed_on i) = chain <$> FetchPlan.range_blocks plan i.
Proof.
  intros Hi. destruct (Hserved i Hi) as [Hh Hd]. unfold FetchPlan.range_blocks, handed_on, work in *.
  destruct (FetchPlan.chunk_range plan i) as [s e] eqn:E. cbn [fst snd] in *.
  destruct (FetchPlan.chunk_range_bounds _ _ _ _ Hplan Hi E) as (H1 & H2 & _). destruct Hplan as (H3 & H4 & _).
  destruct (fetch_chunk_blocks encoded_len grant send_ok fmt plan i s e (prog i) (attempts i) chain)
    as (Hb & _ & Hn); [done|lia|lia|done|].
  rewrite (Hn Hd) in Hb. unfold blocks_of. rewrite Hb. f_equal. f_equal. lia.
Qed.

Lemma total_blocks :
  blocks_of total_work = chain <$> seqZ plan.(FetchPlan.start)
                           (plan.(FetchPlan.end_) - plan.(FetchPlan.start) + 1).
Proof.
  pose proof (FetchPlan.chunk_count_bounds _ Hplan) as Hc.
  pose proof (FetchPlan.chunk_count_spec _ Hplan) as Hs.
  pose proof (FetchPlan.range_blocks_prefix plan (Z.to_nat (FetchPlan.chunk_count plan)) Hplan) as Hr.
  rewrite Z2Nat.id, Z.min_r in Hr by lia. rewrite <-Hr by lia. clear Hr.
  unfold total_work, all_chunks.
  assert (Forall (fun i => 0 <= i < FetchPlan.chunk_count plan) (seqZ 0 (FetchPlan.chunk_count plan))) as Hall.
  { apply Forall_forall. intros i Hi%elem_of_seqZ. lia. }
  induction Hall as [|i l Hi _ IH]; [done|]. rewrite bind_cons, blocks_of_app, IH. csimpl.
  by rewrite handed_on_blocks, fmap_app.
Qed.

Lemma total_ok : subs_ok total_work.
Proof.
  assert (Forall Verify.block_ok (blocks_of total_work)) as Hb.
  { rewrite total_blocks. apply Forall_fmap, Forall_forall. intros h Hh%elem_of_seqZ.
    unfold Verify.block_ok. simpl. rewrite Hheight. destruct Hplan as (H3 & H4 & _).
    unfold u32_max, u64_max in *. lia. }
  assert (Forall (fun s => s.(sc_blocks) <> []) total_work) as Hne.
  { unfold total_work. apply Forall_bind, Forall_forall. intros i _. apply handed_on_ok. }
  unfold subs_ok. apply Forall_and. split; [done|]. apply Forall_forall. intros s Hs.
  apply Forall_forall. intros b Hbs. rewrite Forall_forall in Hb. apply Hb.
  unfold blocks_of. apply list_elem_of_bind. eauto.
Qed.

(** Once everything has arrived, the whole range is released, unless the queue refused a chunk
    or the armed detector fired. *)
Lemma fetch_exact_lemma failover evs p t :
  (forall s, s ∈ arrivals evs <-> s ∈ total_work) ->
  exists r res, release_ordered encoded_len queue_ok
              (release_init plan.(FetchPlan.start) failover p) evs = (r, res) /\
    match res with
    | Ok sm => queue_safe r.(queue) total_work /\
        sm.(s_blocks) = plan.(FetchPlan.end_) - plan.(FetchPlan.start) + 1 /\
        fetch_result plan t (Ok sm) = Ok (WireDetector.mkFetchStats sm.(s_blocks) sm.(s_bytes) t sm.(s_wire_samples))
    | Err e => exists pre post, evs = pre ++ post /\ ended queue_ok failover total_work pre r e
    end.
Proof.
  intros Harr. pose proof (FetchPlan.chunk_count_bounds _ Hplan) as Hc.
  destruct (total_ordered (Z.to_nat (FetchPlan.chunk_count plan))) as (Hw & _ & Hl).
  { intros i Hi. apply Hserved. lia. }
  rewrite Z2Nat.id in Hw, Hl by lia. fold all_chunks in Hw, Hl. fold total_work in Hw, Hl.
  destruct Hplan as (H3 & H4 & _).
  destruct (release_ordered_exact encoded_len queue_ok plan.(FetchPlan.start) failover total_work Hw total_ok)
    with (evs := evs) (seen := @nil RecvEvent) (r := release_init plan.(FetchPlan.start) failover p)
    as (r & res & E & Hres).
  { rewrite total_blocks. apply linked_chain; lia. }
  { intros s. apply Harr. }
  { apply settled_init. }
  exists r, res. split; [done|]. destruct res as [sm|e]; [|done]. destruct Hres as [-> Hs].
  destruct (settled_longest _ _ _ Hw _ _ Hs) as (rel & rest & Ht & Hrel & Hhead).
  assert (rest = []) as ->.
  { destruct rest as [|s rest]; [done|]. destruct (Hhead s eq_refl). apply Harr. rewrite Ht. set_solver. }
  rewrite app_nil_r in Ht. rewrite <-Ht in Hrel.
  destruct Hrel as (Hq & _ & _ & _ & Hpl & Hbl & _). split; [done|].
  split; [rewrite Hbl, total_blocks, length_fmap, length_seqZ; lia|].
  unfold fetch_result. simpl. by rewrite Hpl, Hl, Z.eqb_refl.
Qed.
End Chain.

(** ** Against any server *)

Definition from_workers (subs : list SubChunk) : Prop :=
  forall s, s ∈ subs -> Forall Verify.block_ok s.(sc_blocks) /\
    exists i, 0 <= i < FetchPlan.chunk_count plan /\ s ∈ handed_on i.

Lemma from_workers_ok subs : from_workers subs -> subs_ok subs.
Proof.
  intros Hf. apply Forall_forall. intros s Hs. destruct (Hf s Hs) as (Hb & i & Hi & Hin).
  destruct (handed_on_ok i) as (_ & _ & Hne & _). rewrite Forall_forall in Hne. split; [by apply Hne|done].
Qed.

(** Once every plan chunk is out, the last sub-chunk released ends the plan. *)
Lemma complete_release_ends subs : from_workers subs -> well_ordered (0, 0) subs ->
  last_count subs = FetchPlan.chunk_count plan ->
  height <$> last (blocks_of subs) = Some plan.(FetchPlan.end_).
Proof.
  intros Hf Hw Hc. pose proof (FetchPlan.chunk_count_bounds _ Hplan) as Hb.
  destruct subs as [|l subs _] using rev_ind; [unfold last_count in Hc; simpl in Hc; lia|].
  pose proof (key_after_count _ _ Hw) as Hk. unfold key_after in Hk. rewrite foldl_app in Hk. simpl in Hk.
  fold (key_after (0, 0) subs) in Hk. apply well_ordered_next in Hw. rewrite Hw, Hc in Hk.
  destruct (Hf l) as (_ & i & Hi & Hin); [set_solver|].
  destruct (handed_on_ok i) as (_ & Hpi & Hne & _ & He).
  rewrite Forall_forall in Hpi, Hne, He. specialize (Hpi l Hin). unfold next_key, key in Hk.
  destruct (is_last l) eqn:El; simpl in Hk; [|lia]. specialize (He l Hin El).
  destruct (FetchPlan.chunk_range plan i) as [s e] eqn:E.
  destruct (FetchPlan.chunk_range_bounds _ _ _ _ Hplan Hi E) as (_ & _ & _ & Hend & _).
  rewrite Hend in He by lia. unfold ends_at in He.
  rewrite blocks_of_app, blocks_of_singleton, last_app. simpl in He.
  by destruct (last (sc_blocks l)).
Qed.

Lemma complete_fetch_safe failover evs p t r res st : from_workers (arrivals evs) ->
  release_ordered encoded_len queue_ok (release_init plan.(FetchPlan.start) failover p) evs = (r, res) ->
  exists subs, subs ⊆ arrivals evs /\ queue_safe r.(queue) subs /\
    (fetch_result plan t res = Ok st ->
     height <$> last (blocks_of subs) = Some plan.(FetchPlan.end_) /\
     st.(WireDetector.st_blocks) = Z.of_nat (length (blocks_of subs)) /\
     r.(unreleased_from) = u64_add plan.(FetchPlan.end_) 1).
Proof.
  intros Hf Hr. pose proof (from_workers_ok _ Hf) as Hok.
  destruct (release_ordered_ok encoded_len queue_ok plan.(FetchPlan.start) evs [] _ [] r res
    (release_inv_init _ failover p) Hok Hr) as (subs & Hsub & Hq & Hres).
  exists subs. do 2 (split; [done|]). unfold fetch_result. destruct res as [sm|]; simpl; [|done].
  destruct (Hres sm eq_refl) as [-> (Hrel & Hsok & _)].
  destruct Hrel as (_ & _ & _ & _ & Hpl & Hbl & _ & Hun).
  destruct (Z.eqb_spec r.(summary).(plans_released) (FetchPlan.chunk_count plan)) as [He|]; simpl; [|done].
  intros [= <-]. assert (height <$> last (blocks_of subs) = Some plan.(FetchPlan.end_)) as Hend.
  { apply complete_release_ends; [|apply Hq|congruence]. intros s Hs. by apply Hf, Hsub. }
  split; [done|]. split; [done|]. rewrite Hun. unfold resume_after.
  destruct (last subs) as [l|] eqn:El; [|by apply last_None in El; subst subs].
  apply last_Some in El as [init ->]. rewrite blocks_of_app, blocks_of_singleton, last_app in Hend.
  apply Forall_app in Hsok as [_ Hsok]. apply Forall_singleton in Hsok as [Hne _]. simpl.
  destruct (last (sc_blocks l)) eqn:E2; [|by apply last_None in E2]. by injection Hend as ->.
Qed.
End Fetch.

(** ** Properties *)

(** C2: A fetch delivers exactly the requested blocks.  When the workers complete every plan chunk
    against servers of one hash-linked chain, with any failures, stalls, cuts and retries on
    the way, and their sub-chunks reach the reorder stage in any order, then the reorder stage
    puts the blocks [start..=end] into the chunk queue each exactly once, in height order, in
    densely numbered chunks, and the fetch succeeds with their count; unless the chunk queue's
    receiver is gone, which ends the fetch as stopped, or the plan armed the wire failover and its
    detector fired on what it observed of the channel, which ends it with the detector's
    error.  Also then the queue holds a gapless beginning of the range, in densely numbered
    chunks. *)
Theorem fetch_delivers_range encoded_len grant send_ok fmt queue_ok plan attempts prog chain evs p t :
  FetchPlan.plan_ok plan ->
  (forall h, (chain h).(height) = h) -> (forall h, (chain (h + 1)).(prev_hash) = (chain h).(hash)) ->
  (forall i, 0 <= i < FetchPlan.chunk_count plan ->
     chunk_served encoded_len grant send_ok fmt plan attempts prog chain i) ->
  (forall s, s ∈ arrivals evs <-> s ∈ total_work encoded_len grant send_ok fmt plan attempts prog) ->
  let '(r, res) :=
    release_ordered encoded_len queue_ok (release_init plan.(FetchPlan.start) plan.(FetchPlan.failover) p) evs in
  let n := plan.(FetchPlan.end_) - plan.(FetchPlan.start) + 1 in
  ChunkQueue.index <$> r.(queue) = seqZ 0 (Z.of_nat (length r.(queue))) /\
  match res with
  | Ok _ => r.(queue) ≫= ChunkQueue.blocks = chain <$> seqZ plan.(FetchPlan.start) n /\
      exists st, fetch_result plan t res = Ok st /\ st.(WireDetector.st_blocks) = n
  | Err e => r.(queue) ≫= ChunkQueue.blocks `prefix_of` chain <$> seqZ plan.(FetchPlan.start) n /\
      ((e = Stopped /\ queue_ok (Z.of_nat (length r.(queue))) = false) \/
       exists arm d pre post, plan.(FetchPlan.failover) = Some arm /\ evs = pre ++ post /\
         WireDetector.watch (WireDetector.new arm) (observed <$> pre) = (d, Err e))
  end.
Proof.
  intros Hp Hh Hl Hs Ha.
  destruct (fetch_exact_lemma encoded_len grant send_ok fmt queue_ok plan Hp attempts prog chain Hh Hl Hs
    plan.(FetchPlan.failover) evs p t Ha) as (r & res & -> & Hres). intros n. unfold n.
  rewrite <-(total_blocks encoded_len grant send_ok fmt plan Hp attempts prog chain Hh Hs).
  destruct res as [sm|e].
  - destruct Hres as ((Hb & Hi & _) & Hn & Hf). split; [done|]. split; [done|]. rewrite Hf. eauto.
  - destruct Hres as (pre & post & -> & [(-> & Hq & rel & rest & -> & (Hb & Hi & _))|
      ((arm & d & Harm & Hw) & rel & rest & -> & (Hb & Hi & _))]);
      (split; [done|]); rewrite Hb, blocks_of_app; (split; [by eexists|]); [by left|right].
    by exists arm, d, pre, post.
Qed.

(** *** A concrete fetch: two plan chunks, the second handed on first *)

Definition linked_sample (h : Z) : CompactBlock := mkCompactBlock h [Byte.x07] [Byte.x07] [].
Definition small_plan : FetchPlan.FetchPlan := FetchPlan.mkFetchPlan 10 13 2 2 1 120 4 (Some wire_failover_default).
Definition linked_deliver (h : Z) : StreamEvent := EvBlock (linked_sample h) false 0.
Definition small_attempts (i : Z) : list Attempt :=
  if i =? 0 then [mkAttempt (Opened [linked_deliver 10; EvIdle]) (Ok tt);
                  mkAttempt (Opened [linked_deliver 11]) (Ok tt)]
  else [mkAttempt (Opened [linked_deliver 12; linked_deliver 13]) (Ok tt)].
Definition small_work (i : Z) : list SubChunk :=
  handed_on sample_len (fun _ _ => None) (fun _ _ => true) (fun _ => "") small_plan small_attempts
    (fun _ => None) i.
Definition small_arrivals : list RecvEvent :=
  (fun s => RecvSub s 0 0 0) <$> reverse (small_work 1) ++ reverse (small_work 0).

Lemma small_plan_ok : FetchPlan.plan_ok small_plan.
Proof. repeat split; vm_compute; discriminate. Qed.

Lemma small_served i : 0 <= i < FetchPlan.chunk_count small_plan ->
  chunk_served sample_len (fun _ _ => None) (fun _ _ => true) (fun _ => "") small_plan small_attempts
    (fun _ => None) linked_sample i.
Proof.
  change (FetchPlan.chunk_count small_plan) with 2. intros Hi.
  assert (i = 0 \/ i = 1) as [-> | ->] by lia; (split; [|vm_compute; reflexivity]).
  - cbn [small_attempts Z.eqb honest]. served 1. served 1. exact I.
  - cbn [small_attempts Z.eqb Pos.eqb honest]. served 2. exact I.
Qed.

Lemma small_arrivals_all s : s ∈ arrivals small_arrivals <->
  s ∈ total_work sample_len (fun _ _ => None) (fun _ _ => true) (fun _ => "") small_plan small_attempts
        (fun _ => None).
Proof.
  assert (total_work sample_len (fun _ _ => None) (fun _ _ => true) (fun _ => "") small_plan small_attempts
    (fun _ => None) = reverse (arrivals small_arrivals)) as -> by (vm_compute; reflexivity).
  by rewrite elem_of_reverse.
Qed.

Lemma fetch_delivers_range_witness :
  let '(r, res) := release_ordered sample_len (fun _ => true)
                     (release_init 10 (Some wire_failover_default) None) small_arrivals in
  is_ok res = true /\ ChunkQueue.index <$> r.(queue) = seqZ 0 (Z.of_nat (length r.(queue))) /\
  r.(queue) ≫= ChunkQueue.blocks = linked_sample <$> seqZ 10 4 /\
  exists st, fetch_result small_plan 1 res = Ok st /\ st.(WireDetector.st_blocks) = 4.
Proof.
  pose proof (fetch_delivers_range sample_len (fun _ _ => None) (fun _ _ => true) (fun _ => "") (fun _ => true)
    small_plan small_attempts (fun _ => None) linked_sample small_arrivals None 1) as H.
  specialize (H ltac:(repeat split; vm_compute; discriminate) ltac:(reflexivity) ltac:(reflexivity)
    small_served small_arrivals_all).
  change (release_init (FetchPlan.start small_plan) (FetchPlan.failover small_plan) None)
    with (release_init 10 (Some wire_failover_default) None) in H.
  destruct (release_ordered sample_len (fun _ => true) (release_init 10 (Some wire_failover_default) None)
    small_arrivals) as [r res] eqn:E.
  destruct res as [sm|e].
  - split; [reflexivity|]. exact H.
  - exfalso. apply (f_equal (fun x => is_ok x.2)) in E. vm_compute in E. discriminate E.
Defined.

(** C3: Whatever the servers send, and in whatever order the workers' sub-chunks arrive, the scanner
    is given only blocks that arrived, in (plan, sub) order, with consecutive heights and every
    stated previous hash matching, in densely numbered chunks, also when the fetch fails
    midway; and a fetch that reports success has reached the end of the plan and counts
    exactly the blocks it gave. *)
Theorem released_blocks_linked encoded_len grant send_ok fmt queue_ok plan attempts prog failover evs p t r res :
  FetchPlan.plan_ok plan ->
  from_workers encoded_len grant send_ok fmt plan attempts prog (arrivals evs) ->
  release_ordered encoded_len queue_ok (release_init plan.(FetchPlan.start) failover p) evs = (r, res) ->
  exists subs, subs ⊆ arrivals evs /\ well_ordered (0, 0) subs /\
    r.(queue) ≫= ChunkQueue.blocks = blocks_of subs /\
    ChunkQueue.index <$> r.(queue) = seqZ 0 (Z.of_nat (length r.(queue))) /\
    Verify.linked Verify.continuity_default (blocks_of subs) /\
    forall st, fetch_result plan t res = Ok st ->
      height <$> last (blocks_of subs) = Some plan.(FetchPlan.end_) /\
      st.(WireDetector.st_blocks) = Z.of_nat (length (blocks_of subs)) /\
      r.(unreleased_from) = u64_add plan.(FetchPlan.end_) 1.
Proof.
  intros Hp Hf Hr. pose (st0 := WireDetector.mkFetchStats 0 0 t []).
  destruct (fetch_result plan t res) as [st|e] eqn:E.
  - destruct (complete_fetch_safe _ _ _ _ _ _ Hp _ _ failover evs p t r res st Hf Hr)
      as (subs & H1 & (H2 & H3 & H4 & H5) & H6).
    exists subs. split_and!; try done. intros st' [= <-]. by apply H6.
  - destruct (complete_fetch_safe _ _ _ _ _ _ Hp _ _ failover evs p t r res st0 Hf Hr)
      as (subs & H1 & (H2 & H3 & H4 & H5) & H6).
    exists subs. split_and!; done.
Qed.

Lemma small_from_workers :
  from_workers sample_len (fun _ _ => None) (fun _ _ => true) (fun _ => "") small_plan small_attempts
    (fun _ => None) (arrivals small_arrivals).
Proof.
  intros s Hs. apply small_arrivals_all in Hs. split.
  - pose proof (total_ok sample_len (fun _ _ => None) (fun _ _ => true) (fun _ => "") small_plan small_plan_ok
      small_attempts (fun _ => None) linked_sample ltac:(done) small_served) as Hok.
    unfold subs_ok in Hok. rewrite Forall_forall in Hok. by apply Hok.
  - unfold total_work, all_chunks in Hs. apply list_elem_of_bind in Hs as (i & Hi & Hs).
    exists i. split; [by apply elem_of_seqZ in Hs|done].
Qed.

Lemma released_blocks_linked_witness :
  let '(r, res) := release_ordered sample_len (fun i => i <? 1) (release_init 10 None None) small_arrivals in
  res = Err Stopped /\ exists subs, subs ⊆ arrivals small_arrivals /\ well_ordered (0, 0) subs /\
    r.(queue) ≫= ChunkQueue.blocks = blocks_of subs.
Proof.
  destruct (release_ordered sample_len (fun i => i <? 1) (release_init 10 None None) small_arrivals)
    as [r res] eqn:E.
  split; [vm_compute in E; by injection E as _ <-|].
  destruct (released_blocks_linked sample_len (fun _ _ => None) (fun _ _ => true) (fun _ => "")
    (fun i => i <? 1) small_plan small_attempts (fun _ => None) None small_arrivals None 1 r res)
    as (subs & H1 & H2 & H3 & _).
  - repeat split; vm_compute; discriminate.
  - apply small_from_workers.
  - exact E.
  - exists subs. auto.
Defined.

(** *** Supervision *)

(** Nothing in [ev] ends the fetch. *)
Definition benign (ev : SuperviseEvent) : bool :=
  match ev with WorkerFinished | ReleaseFinished (Ok _) => true | _ => false end.
Fixpoint finished_workers (evs : list SuperviseEvent) : nat :=
  match evs with
  | [] => 0
  | WorkerFinished :: evs' => S (finished_workers evs')
  | _ :: evs' => finished_workers evs'
  end.

(** What ends a failed fetch, and what it leaves behind. *)
Definition failure_ok (failover : option WireFailoverArm) (p p' : option Progress.Progress) (plan_end : Z)
    (e : SlipstreamError) (ev : SuperviseEvent) : Prop :=
  match ev with
  | WorkerFailed e0 unreleased now =>
    p' = note_give_up p unreleased plan_end now /\
    e = match failover with Some arm => WireCollapse 0 arm.(floor_mbps) | None => e0 end
  | WorkerPanicked msg unreleased now =>
    p' = note_give_up p unreleased plan_end now /\ e = Transport ("worker panicked: " +:+ msg)
  | ReleaseFinished (Err e0) => p' = p /\ e = e0
  | _ => False
  end.

Lemma supervise_spec failover p plan_end evs : forall workers released p' res,
  supervise_fetch workers released failover p plan_end evs = Some (p', res) ->
  match res with
  | Ok sm => p' = p /\ exists pre rest, evs = pre ++ rest /\ forallb benign pre = true /\
      (workers <= finished_workers pre)%nat /\ (released = Some sm \/ ReleaseFinished (Ok sm) ∈ pre)
  | Err e => exists pre ev rest, evs = pre ++ ev :: rest /\ forallb benign pre = true /\
      failure_ok failover p p' plan_end e ev
  end.
Proof.
  induction evs as [|ev evs IH]; intros workers released p' res.
  { destruct workers, released; simpl; try done. intros [= <- <-]. split; [done|].
    exists [], []. auto. }
  destruct (decide (workers = 0%nat /\ is_Some released)) as [[-> [sm ->]]|Hrun].
  { simpl. intros [= <- <-]. split; [done|]. exists [], (ev :: evs). auto. }
  assert (supervise_fetch workers released failover p plan_end (ev :: evs) =
    match ev with
    | WorkerFinished => supervise_fetch (pred workers) released failover p plan_end evs
    | ReleaseFinished (Ok sm) => supervise_fetch workers (Some sm) failover p plan_end evs
    | _ => supervise_fetch 1 None failover p plan_end (ev :: evs)
    end) as ->.
  { destruct workers, released; try done; [destruct Hrun; eauto|..]; by destruct ev as [| | |[]]. }
  assert (forall workers' released' e0, benign e0 = true ->
    (workers <= workers' + finished_workers [e0])%nat ->
    (forall sm, released' = Some sm -> released = Some sm \/ e0 = ReleaseFinished (Ok sm)) ->
    supervise_fetch workers' released' failover p plan_end evs = Some (p', res) ->
    match res with
    | Ok sm => p' = p /\ exists pre rest, e0 :: evs = pre ++ rest /\ forallb benign pre = true /\
        (workers <= finished_workers pre)%nat /\ (released = Some sm \/ ReleaseFinished (Ok sm) ∈ pre)
    | Err e => exists pre ev' rest, e0 :: evs = pre ++ ev' :: rest /\ forallb benign pre = true /\
        failure_ok failover p p' plan_end e ev'
    end) as Hstep.
  { intros w' r' e0 Hb Hw Hrel Hs. apply IH in Hs. destruct res as [sm|e].
    - destruct Hs as (-> & pre & rest & -> & Hben & Hfin & Hr). split; [done|].
      exists (e0 :: pre), rest. split; [done|]. split; [simpl; by rewrite Hb|]. split.
      + change (e0 :: pre) with ([e0] ++ pre). destruct e0; simpl in *; lia.
      + destruct Hr as [->|Hr]; [|right; by right]. destruct (Hrel sm eq_refl) as [|<-]; [by left|].
        right. by left.
    - destruct Hs as (pre & ev' & rest & -> & Hben & Hf). exists (e0 :: pre), ev', rest.
      split; [done|]. split; [simpl; by rewrite Hb|done]. }
  destruct ev as [|e0 u now|msg u now|[sm|e0]].
  - apply Hstep; [done|simpl; lia|by left].
  - simpl. intros [= <- <-]. by exists [], (WorkerFailed e0 u now), evs.
  - simpl. intros [= <- <-]. by exists [], (WorkerPanicked msg u now), evs.
  - apply Hstep; [done|simpl; lia|]. intros sm' [= <-]. by right.
  - simpl. intros [= <- <-]. by exists [], (ReleaseFinished (Err e0)), evs.
Qed.

(** The supervisor reports success only after every worker and the reorder stage have finished
    without an error; the first error of any of them ends the fetch at once, is reported as a
    full wire stall when a failover is armed and a worker gave up, and records the give-up at
    the first unreleased height, unless everything was already released. *)
Theorem supervise_first_error_wins workers failover p plan_end evs p' res :
  supervise_fetch workers None failover p plan_end evs = Some (p', res) ->
  match res with
  | Ok sm => p' = p /\ exists pre rest, evs = pre ++ rest /\ forallb benign pre = true /\
      (workers <= finished_workers pre)%nat /\ ReleaseFinished (Ok sm) ∈ pre
  | Err e => exists pre ev rest, evs = pre ++ ev :: rest /\ forallb benign pre = true /\
      failure_ok failover p p' plan_end e ev
  end.
Proof.
  intros Hs. apply supervise_spec in Hs. destruct res as [sm|e]; [|done].
  destruct Hs as (-> & pre & rest & ? & ? & ? & [?|?]); [done|]. split; [done|]. by exists pre, rest.
Qed.

Example supervise_first_error_wins_instance :
  exists pre ev rest,
    [WorkerFinished; WorkerFailed (Transport "reset") 7 1; WorkerFinished] = pre ++ ev :: rest /\
    forallb benign pre = true /\
    failure_ok (Some wire_failover_default) None None 9 (WireCollapse 0 wire_failover_default.(floor_mbps)) ev.
Proof.
  apply (supervise_first_error_wins 2 (Some wire_failover_default) None 9
    [WorkerFinished; WorkerFailed (Transport "reset") 7 1; WorkerFinished] None
    (Err (WireCollapse 0 wire_failover_default.(floor_mbps)))).
  vm_compute. reflexivity.
Qed.
End FetchRelease.
