(* ===== verification/Handle.v ===== *)
(** * The host's handle: [core/src/ffi_handle.rs]

    The event ring, the two bounded waits of a stop or start with the record of
    unfinished passes, the supervisor that turns a panic into an error state, and
    the snapshot a host polls.

    A pass is its number.  What the environment decides is an input: which passes
    have finished, how many wallet writers run and what the clock says at each
    10 ms poll, and the time each wait took.  Log lines are left out. *)

From S2P Require Export Errors Progress.
Import Progress.

Module Handle.

(** ** Events *)

(** [struct FfiSlipstreamEvent]. *)
Record FfiSlipstreamEvent := mkEvent { tag : Z; value : Z }.
#[export] Instance event_eq_dec : EqDecision FfiSlipstreamEvent.
Proof. solve_decision. Defined.

(** [enum SyncState]. *)
Inductive SyncState := Idle | Syncing | SError (code : Z) | Done.
#[export] Instance sync_state_eq_dec : EqDecision SyncState.
Proof. solve_decision. Defined.

Definition EVENT_RING_CAP : Z := 64.

(** Started and progress events are pure pacing; the others a host acts on once. *)
Definition droppable (e : FfiSlipstreamEvent) : bool := (e.(tag) =? 1) || (e.(tag) =? 2).

(** [push_event_bounded]. *)
Definition push_event_bounded (ring : list FfiSlipstreamEvent) (e : FfiSlipstreamEvent)
  : list FfiSlipstreamEvent :=
  (if EVENT_RING_CAP <=? Z.of_nat (length ring)
   then delete (default 0%nat (fst <$> list_find (fun ev => droppable ev = true) ring)) ring
   else ring) ++ [e].

Definition push_all (ring : list FfiSlipstreamEvent) (es : list FfiSlipstreamEvent)
  : list FfiSlipstreamEvent := foldl push_event_bounded ring es.

(** ** The handle *)

(** The fields of [struct SlipstreamHandle] that its methods read or write. *)
Record SlipstreamHandle := mkHandle {
  h_progress : Progress;
  h_state : SyncState;
  h_events : list FfiSlipstreamEvent;
  h_task : option Z;
  unfinished_passes : list Z;
}.

#[export] Instance eta_Handle : Eta SlipstreamHandle := fun h =>
  mkHandle h.(h_progress) h.(h_state) h.(h_events) h.(h_task) h.(unfinished_passes).

(** [SlipstreamHandle::push_event]. *)
Definition push_event (e : FfiSlipstreamEvent) (h : SlipstreamHandle) : SlipstreamHandle :=
  h <| h_events := push_event_bounded h.(h_events) e |>.

(** How a supervised task ended. *)
Inductive JoinOutcome := JoinedOk | Cancelled | Panicked.

(** The supervisor task of [spawn_supervised]. *)
Definition supervise (o : JoinOutcome) (h : SlipstreamHandle) : SlipstreamHandle :=
  match o with
  | JoinedOk | Cancelled => h
  | Panicked => push_event (mkEvent 4 2) (h <| h_state := SError 2 |>)
  end.

(** ** The two bounded waits *)

(** One poll of a wait: what it finds, and the clock when it looks at the deadline. *)
Record SettlePoll := mkSettlePoll { sp_finished : list Z; sp_now : Z }.
Record DrainPoll := mkDrainPoll { dp_writers : Z; dp_now : Z }.

(** [deadline.is_some_and(|deadline| now >= deadline)]; no deadline when adding
    the budget to the clock overflows. *)
Definition past (deadline : option Z) (now : Z) : bool :=
  match deadline with Some d => d <=? now | None => false end.

(** The loop of [settle_passes]; [None]: still waiting. *)
Fixpoint settle_loop (deadline : option Z) (unfinished : list Z) (polls : list SettlePoll)
  : option (list Z * bool) :=
  match polls with
  | [] => None
  | p :: polls' =>
    let unfinished := filter (fun id => id ∉ p.(sp_finished)) unfinished in
    if bool_decide (unfinished = []) then Some (unfinished, true)
    else if past deadline p.(sp_now) then Some (unfinished, false)
    else settle_loop deadline unfinished polls'
  end.

(** [settle_passes]: the aborted pass joins the record first. *)
Definition settle_passes (task : option Z) (unfinished : list Z) (deadline : option Z)
    (polls : list SettlePoll) : option (list Z * bool) :=
  settle_loop deadline (unfinished ++ match task with Some id => [id] | None => [] end) polls.

(** [drain_wallet_writers]. *)
Fixpoint drain_wallet_writers (deadline : option Z) (polls : list DrainPoll) : option bool :=
  match polls with
  | [] => None
  | p :: polls' =>
    if 0 <? p.(dp_writers) then
      if past deadline p.(dp_now) then Some false else drain_wallet_writers deadline polls'
    else Some true
  end.

(** [struct StopReport]; the waits in milliseconds. *)
Record StopReport := mkStopReport {
  settled : bool;
  drained : bool;
  settle_wait : Z;
  drain_wait : Z;
}.

(** [StopReport::quiescent]. *)
Definition quiescent (r : StopReport) : bool := r.(settled) && r.(drained).

(** [struct FfiSlipstreamStopReport] and its [From<StopReport>]. *)
Record FfiSlipstreamStopReport := mkFfiStopReport {
  f_settled : Z; f_drained : Z; settle_ms : Z; drain_ms : Z;
}.
Definition ffi_stop_report (r : StopReport) : FfiSlipstreamStopReport :=
  mkFfiStopReport (if r.(settled) then 1 else 0) (if r.(drained) then 1 else 0)
    (Z.min r.(settle_wait) u64_max) (Z.min r.(drain_wait) u64_max).

(** What the environment shows the two waits of one stop or start. *)
Record Waits := mkWaits {
  w_settle_deadline : option Z;
  w_settle : list SettlePoll;
  w_settle_wait : Z;
  w_drain_deadline : option Z;
  w_drain : list DrainPoll;
  w_drain_wait : Z;
}.

(** [settle_then_drain], which [quiesce_before_start] is. *)
Definition settle_then_drain (w : Waits) (h : SlipstreamHandle) : option (SlipstreamHandle * StopReport) :=
  match settle_passes h.(h_task) h.(unfinished_passes) w.(w_settle_deadline) w.(w_settle) with
  | None => None
  | Some (unfinished, settled) =>
    match drain_wallet_writers w.(w_drain_deadline) w.(w_drain) with
    | None => None
    | Some drained =>
      Some (h <| h_task := None |> <| unfinished_passes := unfinished |>,
            mkStopReport settled drained w.(w_settle_wait) w.(w_drain_wait))
    end
  end.
Definition quiesce_before_start := settle_then_drain.

(** [stop_and_report], which [stop] is. *)
Definition stop_and_report (w : Waits) (h : SlipstreamHandle) : option (SlipstreamHandle * StopReport) :=
  match settle_then_drain w h with
  | None => None
  | Some (h', r) => Some (h' <| h_state := Idle |>, r)
  end.
Definition stop := stop_and_report.

(** [stop_for_wallet_change]: the request goes out before the abort. *)
Definition stop_for_wallet_change (w : Waits) (h : SlipstreamHandle) : option (SlipstreamHandle * StopReport) :=
  stop_and_report w (h <| h_progress := request_stop_for_wallet_change h.(h_progress) |>).

(** ** The snapshot *)

(** [struct FfiSlipstreamSnapshot]. *)
Record FfiSlipstreamSnapshot := mkSnapshot {
  s_chain_tip : Z;
  s_fetched_blocks : Z;
  s_scanned_blocks : Z;
  s_enhanced_txs : Z;
  s_current_range_end : Z;
  s_state : Z;
  s_pass_total_blocks : Z;
  s_spendable_hint : Z;
  s_ranges_completed : Z;
  s_is_recovering : Z;
  s_progress_permille : Z;
  s_stalled_seconds : Z;
  s_tx_set_version : Z;
}.

(** [u64::checked_div(..).unwrap_or(0)]. *)
Definition div_or_0 (a b : Z) : Z := if b =? 0 then 0 else a / b.

(** [pass_permille] of [derive_snapshot]. *)
Definition pass_permille (p : Progress) : Z :=
  let pass_total := p.(pass_total_blocks) in
  let fetched_capped := Z.min (sat_sub p.(fetched_blocks) p.(pass_base_fetched)) pass_total in
  let scanned_capped := Z.min (sat_sub p.(scanned_blocks) p.(pass_base_scanned)) pass_total in
  div_or_0 (sat_mul64 (sat_add64 fetched_capped scanned_capped) 1000) (sat_mul64 pass_total 2).

(** [raw_permille] of [derive_snapshot]. *)
Definition raw_permille (p : Progress) : Z :=
  match pass_start_permille p with
  | Some start =>
    let start := Z.min start 1000 in
    let climb := div_or_0 (sat_mul64 (sat_sub 1000 start) (pass_permille p)) 1000 in
    sat_add64 start climb
  | None => pass_permille p
  end.

(** [derive_snapshot]: it also folds the reading into the floor. *)
Definition derive_snapshot (now : Z) (p : Progress) (state : SyncState) : Progress * FfiSlipstreamSnapshot :=
  let state_u8 := match state with Idle => 0 | Syncing => 1 | SError _ => 2 | Done => 3 end in
  let '(progress_permille, p') :=
    permille_floor (match state with Done => 1000 | _ => raw_permille p end) p in
  let is_recovering_u8 :=
    match state with Done | SError _ => 0 | _ => if recovering p then 1 else 0 end in
  let stalled_seconds :=
    match state with
    | Syncing => default u32_max (u32_try_from (stall_secs now p))
    | _ => 0 end in
  (p', mkSnapshot p.(chain_tip) p.(fetched_blocks) p.(scanned_blocks) p.(enhanced_txs)
         p.(current_range_end) state_u8 p.(pass_total_blocks) p.(spendable_hint)
         p.(ranges_completed) is_recovering_u8 progress_permille stalled_seconds p.(tx_set_version)).

(** [SlipstreamHandle::snapshot]. *)
Definition snapshot (now : Z) (h : SlipstreamHandle) : SlipstreamHandle * FfiSlipstreamSnapshot :=
  let '(p, s) := derive_snapshot now h.(h_progress) h.(h_state) in (h <| h_progress := p |>, s).

(** ** The event ring *)

Definition criticals (es : list FfiSlipstreamEvent) : list FfiSlipstreamEvent :=
  filter (fun e => droppable e = false) es.

Lemma delete_sublist {A} i (l : list A) : delete i l `sublist_of` l.
Proof. apply sublist_delete. Qed.

(** A full ring with a droppable event loses the oldest such event and nothing else. *)
Lemma criticals_delete_droppable ring i e :
  ring !! i = Some e -> droppable e = true -> criticals (delete i ring) = criticals ring.
Proof.
  intros Hi He. rewrite <-(take_drop_middle ring i e Hi) at 2.
  rewrite delete_take_drop. unfold criticals. rewrite !filter_app. rewrite (filter_cons_False _ e) by (by rewrite He).
  done.
Qed.

(** With nothing droppable the ring is all critical. *)
Lemma criticals_all ring : list_find (fun ev => droppable ev = true) ring = None -> criticals ring = ring.
Proof.
  intros Hn%list_find_None. unfold criticals. induction Hn as [|e ring He _ IH]; [done|].
  apply not_true_is_false in He. rewrite filter_cons_True by done. by rewrite IH.
Qed.

Lemma length_delete_lt {A} i (l : list A) : (i < length l)%nat -> length (delete i l) = pred (length l).
Proof.
  intros Hi. apply lookup_lt_is_Some in Hi as [x Hx]. rewrite length_delete by eauto. lia.
Qed.

(** The index [push_event_bounded] evicts is in the ring. *)
Lemma evict_index ring : EVENT_RING_CAP <= Z.of_nat (length ring) ->
  (default 0%nat (fst <$> list_find (fun ev => droppable ev = true) ring) < length ring)%nat.
Proof.
  unfold EVENT_RING_CAP. intros Hl. destruct (list_find _ ring) as [[i x]|] eqn:E; simpl; [|lia].
  apply list_find_Some in E as (Hi & _). by apply lookup_lt_Some in Hi.
Qed.

Lemma push_length ring e : Z.of_nat (length ring) <= EVENT_RING_CAP ->
  Z.of_nat (length (push_event_bounded ring e)) <= EVENT_RING_CAP.
Proof.
  intros Hl. unfold push_event_bounded. destruct (Z.leb_spec EVENT_RING_CAP (Z.of_nat (length ring))) as [Hc|Hc].
  - rewrite length_app, length_delete_lt by (by apply evict_index). simpl.
    unfold EVENT_RING_CAP in *. lia.
  - rewrite length_app. simpl. unfold EVENT_RING_CAP in *. lia.
Qed.

Lemma push_sublist ring e : push_event_bounded ring e `sublist_of` ring ++ [e].
Proof.
  unfold push_event_bounded. apply sublist_app; [|done]. case_match; [apply delete_sublist|done].
Qed.

Lemma criticals_push ring e : Z.of_nat (length (criticals ring)) < EVENT_RING_CAP ->
  criticals (push_event_bounded ring e) = criticals ring ++ criticals [e].
Proof.
  intros Hc. unfold push_event_bounded. unfold criticals at 1. rewrite filter_app.
  fold (criticals [e]). f_equal. destruct (Z.leb_spec EVENT_RING_CAP (Z.of_nat (length ring))); [|done].
  destruct (list_find _ ring) as [[i x]|] eqn:E; simpl.
  - apply list_find_Some in E as (Hi & Hx & _). by eapply criticals_delete_droppable.
  - apply criticals_all in E. rewrite E in Hc. lia.
Qed.

Lemma push_all_spec es : forall ring,
  Z.of_nat (length ring) <= EVENT_RING_CAP ->
  Z.of_nat (length (criticals (ring ++ es))) < EVENT_RING_CAP ->
  criticals (push_all ring es) = criticals (ring ++ es) /\
  Z.of_nat (length (push_all ring es)) <= EVENT_RING_CAP /\
  push_all ring es `sublist_of` ring ++ es.
Proof.
  induction es as [|e es IH]; intros ring Hl Hc; simpl; [by rewrite app_nil_r in *|].
  assert (criticals (ring ++ e :: es) = criticals ring ++ criticals [e] ++ criticals es) as Hsplit.
  { unfold criticals. change (e :: es) with ([e] ++ es). by rewrite !filter_app. }
  assert (criticals (push_event_bounded ring e) = criticals ring ++ criticals [e]) as Hp.
  { apply criticals_push. rewrite Hsplit, !length_app in Hc. lia. }
  destruct (IH (push_event_bounded ring e)) as (H1 & H2 & H3).
  - by apply push_length.
  - unfold criticals in *. rewrite filter_app, Hp. by rewrite Hsplit, app_assoc in Hc.
  - rewrite H1, Hsplit. split.
    { unfold criticals in *. by rewrite filter_app, Hp, app_assoc. }
    split; [done|]. rewrite H3. change (e :: es) with ([e] ++ es). rewrite app_assoc.
    apply sublist_app; [apply push_sublist|done].
Qed.

(** No event a host must act on is lost to pacing events: as long as fewer than 64 done, error or
    found-transactions events are outstanding, all of them are in the ring, in order, however
    many started and progress events were pushed between; and the ring never grows past 64,
    never duplicates and never reorders. *)
Theorem event_ring_keeps_criticals es :
  Z.of_nat (length (criticals es)) < EVENT_RING_CAP ->
  criticals (push_all [] es) = criticals es /\
  Z.of_nat (length (push_all [] es)) <= EVENT_RING_CAP /\
  push_all [] es `sublist_of` es.
Proof. intros Hc. apply (push_all_spec es []); [vm_compute; discriminate|done]. Qed.

Example event_ring_keeps_criticals_instance :
  let es := mkEvent 3 7 :: replicate 70 (mkEvent 2 0) in
  criticals (push_all [] es) = [mkEvent 3 7] /\ Z.of_nat (length (push_all [] es)) <= EVENT_RING_CAP.
Proof.
  destruct (event_ring_keeps_criticals (mkEvent 3 7 :: replicate 70 (mkEvent 2 0))) as (H1 & H2 & _).
  - vm_compute. reflexivity.
  - split; [exact H1|exact H2].
Qed.

(** ** Stops and starts *)

(** What a host does with a handle: a stop, a wallet-change stop, or a start,
    which quiesces and then spawns the pass [id]. *)
Inductive HostOp :=
| HStop (w : Waits)
| HStopForWalletChange (w : Waits)
| HStart (w : Waits) (id : Z).

Definition waits_of (o : HostOp) : Waits :=
  match o with HStop w | HStopForWalletChange w | HStart w _ => w end.
Definition spawns (o : HostOp) : list Z := match o with HStart _ id => [id] | _ => [] end.

(** The passes a wait saw finished. *)
Definition seen_by (o : HostOp) : list Z := (waits_of o).(w_settle) ≫= sp_finished.

Definition host_op (o : HostOp) (h : SlipstreamHandle) : option (SlipstreamHandle * StopReport) :=
  match o with
  | HStop w => stop w h
  | HStopForWalletChange w => stop_for_wallet_change w h
  | HStart w id =>
    match quiesce_before_start w h with
    | None => None
    | Some (h', r) => Some (h' <| h_task := Some id |> <| h_state := Syncing |>, r)
    end
  end.

(** A sequence of host operations; the reports are in the order they were made. *)
Fixpoint host_ops (os : list HostOp) (h : SlipstreamHandle) : option (SlipstreamHandle * list StopReport) :=
  match os with
  | [] => Some (h, [])
  | o :: os' =>
    match host_op o h with
    | None => None
    | Some (h', r) =>
      match host_ops os' h' with None => None | Some (h'', rs) => Some (h'', r :: rs) end
    end
  end.

(** Every pass ever spawned is running, on record, or was seen finished. *)
Definition accounted (spawned seen : list Z) (h : SlipstreamHandle) : Prop :=
  forall id, id ∈ spawned -> h.(h_task) = Some id \/ id ∈ h.(unfinished_passes) \/ id ∈ seen.

Lemma settle_loop_spec deadline polls : forall unfinished rest ok,
  settle_loop deadline unfinished polls = Some (rest, ok) ->
  rest ⊆ unfinished /\ (ok = true <-> rest = []) /\
  (forall id, id ∈ unfinished -> id ∈ rest \/ id ∈ polls ≫= sp_finished) /\
  (ok = false -> exists p, p ∈ polls /\ past deadline p.(sp_now) = true).
Proof.
  induction polls as [|p polls IH]; intros unfinished rest ok; simpl; [done|].
  set (u := filter _ unfinished). assert (u ⊆ unfinished) as Hu by (intros ? [_ ?]%list_elem_of_filter; done).
  assert (forall id, id ∈ unfinished -> id ∈ u \/ id ∈ p.(sp_finished)) as Hin.
  { intros id Hid. destruct (decide (id ∈ p.(sp_finished))); [by right|left].
    apply list_elem_of_filter. done. }
  case_bool_decide as He.
  { intros [= <- <-]. split_and!; try done. intros id Hid. set_solver. }
  destruct (past _ _) eqn:Ep.
  { intros [= <- <-]. split; [done|]. split; [split; [done|intros; congruence]|].
    split; [intros id Hid; set_solver|]. intros _. exists p. split; [left|done]. }
  intros Hs. apply IH in Hs as (H1 & H2 & H3 & H4). split; [set_solver|]. split; [done|]. split.
  - intros id Hid. destruct (Hin id Hid) as [Hd|Hd]; [destruct (H3 id Hd)|]; set_solver.
  - intros Hok. destruct (H4 Hok) as (q & Hq & Hpast). exists q. split; [by right|done].
Qed.

(** The drain's looks up to its last one, [p]: every earlier look found a wallet writer before
    the deadline. *)
Definition last_look (deadline : option Z) (polls : list DrainPoll) (p : DrainPoll) : Prop :=
  exists pre rest, polls = pre ++ p :: rest /\
    Forall (fun q => 0 < q.(dp_writers) /\ past deadline q.(dp_now) = false) pre.

Lemma drain_looks deadline polls : forall ok, drain_wallet_writers deadline polls = Some ok ->
  exists p, last_look deadline polls p /\
    if ok then p.(dp_writers) <= 0 else 0 < p.(dp_writers) /\ past deadline p.(dp_now) = true.
Proof.
  induction polls as [|p polls IH]; intros ok; simpl; [done|].
  destruct (Z.ltb_spec 0 p.(dp_writers)) as [Hw|Hw].
  - destruct (past deadline p.(dp_now)) eqn:Ep.
    + intros [= <-]. exists p. split; [by exists [], polls|done].
    + intros (q & (pre & rest & -> & Hpre) & Hq)%IH. exists q. split; [|done].
      exists (p :: pre), rest. split; [done|by constructor].
  - intros [= <-]. exists p. split; [by exists [], polls|done].
Qed.

Lemma settle_then_drain_spec w h h' r spawned seen :
  accounted spawned seen h -> settle_then_drain w h = Some (h', r) ->
  accounted spawned (seen ++ (w.(w_settle) ≫= sp_finished)) h' /\ h'.(h_task) = None /\
  (r.(settled) = true <-> h'.(unfinished_passes) = []) /\
  (r.(settled) = false -> exists p, p ∈ w.(w_settle) /\ past w.(w_settle_deadline) p.(sp_now) = true) /\
  drain_wallet_writers w.(w_drain_deadline) w.(w_drain) = Some r.(drained).
Proof.
  intros Hacc. unfold settle_then_drain, settle_passes.
  destruct (settle_loop _ _ _) as [[rest ok]|] eqn:E; [|done].
  destruct (drain_wallet_writers _ _) as [dr|]; [|done]. intros [= <- <-].
  apply settle_loop_spec in E as (_ & H2 & H3 & H4). simpl. split_and!; try done.
  intros id Hid. right. simpl. destruct (Hacc id Hid) as [Ht|[Hu|Hs]]; [| |set_solver].
  - rewrite Ht in H3. destruct (H3 id); [set_solver|by left|set_solver].
  - destruct (H3 id); [set_solver|by left|set_solver].
Qed.

Lemma host_op_spec o h h' r spawned seen :
  accounted spawned seen h -> host_op o h = Some (h', r) ->
  accounted (spawned ++ spawns o) (seen ++ seen_by o) h' /\
  (r.(settled) = true <-> h'.(unfinished_passes) = []) /\
  (spawns o = [] -> h'.(h_task) = None /\ h'.(h_state) = Idle) /\
  (r.(settled) = false -> exists p, p ∈ (waits_of o).(w_settle) /\
     past (waits_of o).(w_settle_deadline) p.(sp_now) = true) /\
  drain_wallet_writers (waits_of o).(w_drain_deadline) (waits_of o).(w_drain) = Some r.(drained).
Proof.
  intros Hacc. unfold seen_by. destruct o as [w|w|w id]; cbn [host_op spawns waits_of].
  - unfold stop, stop_and_report. destruct (settle_then_drain w h) as [[h1 r1]|] eqn:E; [|done].
    intros [= <- <-]. destruct (settle_then_drain_spec _ _ _ _ _ _ Hacc E) as (H1 & H2 & H3 & H4 & H5).
    rewrite app_nil_r. by split_and!.
  - unfold stop_for_wallet_change, stop_and_report. set (h0 := h <| h_progress := _ |>).
    destruct (settle_then_drain w h0) as [[h1 r1]|] eqn:E; [|done].
    intros [= <- <-]. destruct (settle_then_drain_spec w h0 _ _ spawned seen Hacc E) as (H1 & H2 & H3 & H4 & H5).
    rewrite app_nil_r. by split_and!.
  - unfold quiesce_before_start. destruct (settle_then_drain w h) as [[h1 r1]|] eqn:E; [|done].
    intros [= <- <-]. destruct (settle_then_drain_spec _ _ _ _ _ _ Hacc E) as (H1 & H2 & H3 & H4 & H5).
    split_and!; try done. intros i [Hi|Hi]%elem_of_app; simpl.
    + destruct (H1 i Hi) as [Ht|[Hu|Hs]]; [congruence|by auto|by auto].
    + apply list_elem_of_singleton in Hi as ->. by left.
Qed.

Lemma host_ops_accounted os : forall h spawned seen h' rs,
  accounted spawned seen h -> host_ops os h = Some (h', rs) ->
  accounted (spawned ++ (os ≫= spawns)) (seen ++ (os ≫= seen_by)) h'.
Proof.
  induction os as [|o os IH]; intros h spawned seen h' rs Hacc; simpl.
  { intros [= <- <-]. by rewrite !app_nil_r. }
  destruct (host_op o h) as [[h1 r]|] eqn:E; [|done].
  destruct (host_ops os h1) as [[h2 rs']|] eqn:E2; [|done]. intros [= <- <-].
  destruct (host_op_spec _ _ _ _ _ _ Hacc E) as [H1 _]. rewrite !app_assoc. by eapply IH.
Qed.

Definition handle_open (p : Progress) : SlipstreamHandle := mkHandle p Idle [] None [].

(** C21: A stop's report is what it saw: after any history of starts, stops and timed-out waits on a
    handle, a stop that reports the wallet file quiescent has seen every pass the host ever
    started on it finish, and its last look at the wallet writers found none; a stop that does
    not report it was made to by a deadline that passed, with a pass still on the record or a
    wallet writer running at its last look; and a stop leaves the engine idle with no running
    pass, whatever the waits found. *)
Theorem quiescent_stop_saw_every_pass os o p h h' rs r :
  host_ops os (handle_open p) = Some (h, rs) -> host_op o h = Some (h', r) -> spawns o = [] ->
  h'.(h_task) = None /\ h'.(h_state) = Idle /\
  let w := waits_of o in
  if quiescent r then
    (forall id, id ∈ os ≫= spawns -> id ∈ (os ++ [o]) ≫= seen_by) /\
    exists look, last_look w.(w_drain_deadline) w.(w_drain) look /\ look.(dp_writers) <= 0
  else
    (h'.(unfinished_passes) <> [] /\
     exists look, look ∈ w.(w_settle) /\ past w.(w_settle_deadline) look.(sp_now) = true) \/
    exists look, last_look w.(w_drain_deadline) w.(w_drain) look /\ 0 < look.(dp_writers) /\
      past w.(w_drain_deadline) look.(dp_now) = true.
Proof.
  intros Hos Ho Hsp. assert (accounted [] [] (handle_open p)) as H0 by (intros id ?%not_elem_of_nil; done).
  pose proof (host_ops_accounted _ _ _ _ _ _ H0 Hos) as Hacc.
  destruct (host_op_spec _ _ _ _ _ _ Hacc Ho) as (H1 & H2 & H3 & H4 & H5).
  destruct (H3 Hsp) as [Ht Hst]. do 2 (split; [done|]). intros w.
  apply drain_looks in H5 as (look & Hlook & Hl). fold w in H4, Hlook.
  unfold quiescent. destruct (settled r) eqn:Es; simpl; [|left; split; [|by apply H4]].
  - destruct (drained r); [|right; by exists look]. split; [|by exists look].
    intros id Hid. rewrite bind_app. csimpl. rewrite app_nil_r.
    destruct (H1 id) as [Hr|[Hr|Hr]]; [set_solver|congruence| |done].
    rewrite (proj1 H2 eq_refl) in Hr. by apply not_elem_of_nil in Hr.
  - intros Hu. apply H2 in Hu. congruence.
Qed.

(** A pass that outlives one stop's budget is answered for by the next one. *)
Definition slow_waits (fin : list Z) (now : Z) : Waits :=
  mkWaits (Some 10) [mkSettlePoll fin now] now (Some 10) [mkDrainPoll 0 now] 0.

Lemma quiescent_stop_saw_every_pass_witness :
  exists h rs h', host_ops [HStart (slow_waits [] 0) 1; HStop (slow_waits [] 11)] (handle_open progress_default)
    = Some (h, rs) /\ quiescent (default (mkStopReport true true 0 0) (last rs)) = false /\
  host_op (HStop (slow_waits [1] 3)) h = Some (h', mkStopReport true true 3 0) /\
  h'.(h_task) = None /\ exists look, last_look (Some 10) [mkDrainPoll 0 3] look /\ look.(dp_writers) <= 0.
Proof.
  do 3 eexists. split; [reflexivity|]. split; [reflexivity|]. split; [reflexivity|].
  destruct (quiescent_stop_saw_every_pass [HStart (slow_waits [] 0) 1; HStop (slow_waits [] 11)]
    (HStop (slow_waits [1] 3)) progress_default _ _ _ (mkStopReport true true 3 0) eq_refl eq_refl eq_refl) as (H1 & _ & H3).
  split; [exact H1|exact (proj2 H3)].
Defined.

(** ** The snapshot *)

Definition counters_ok (p : Progress) : Prop :=
  0 <= p.(fetched_blocks) /\ 0 <= p.(scanned_blocks) /\ is_u64 p.(pass_total_blocks).

Lemma div_or_0_bound a b c : 0 <= a -> 0 <= b -> a <= c * b -> 0 <= c -> 0 <= div_or_0 a b <= c.
Proof.
  intros Ha Hb Hab Hc. unfold div_or_0. destruct (Z.eqb_spec b 0); [lia|].
  split; [apply Z.div_pos; lia|]. apply Z.div_le_upper_bound; lia.
Qed.

Lemma pass_permille_bound p : counters_ok p -> 0 <= pass_permille p <= 1000.
Proof.
  intros (Hf & Hs & Ht). unfold pass_permille, is_u64 in *.
  apply div_or_0_bound; unfold sat_mul64, sat_add64, sat_sub, u64_max in *; lia.
Qed.

Lemma raw_permille_bound p : wf p -> counters_ok p -> 0 <= raw_permille p <= 1000.
Proof.
  intros (_ & _ & Hst & _) Hc. pose proof (pass_permille_bound p Hc) as Hp.
  unfold raw_permille, pass_start_permille.
  destruct (Z.eqb_spec p.(pass_start_permille_raw) u64_max); [done|].
  destruct Hst as [?|Hst]; [done|]. set (st := Z.min _ 1000).
  assert (0 <= st <= 1000) as Hb by lia.
  pose proof (div_or_0_bound (sat_mul64 (sat_sub 1000 st) (pass_permille p)) 1000 (1000 - st)) as Hd.
  unfold sat_mul64, sat_sub, sat_add64, u64_max in *. nia.
Qed.

(** Every snapshot a host reads is presentable: the progress is within 0..=1000, is 1000 once a
    pass is done, is at least where the pass began, and never below what was reported before;
    the restoring flag is down in the terminal states and the stall clock runs only while
    syncing. *)
Theorem snapshot_presentable now p state :
  wf p -> counters_ok p ->
  let '(p', s) := derive_snapshot now p state in
  0 <= s.(s_progress_permille) <= 1000 /\
  p.(progress_permille_floor) <= s.(s_progress_permille) /\
  p' = p <| progress_permille_floor := s.(s_progress_permille) |> /\
  (state = Done -> s.(s_progress_permille) = 1000) /\
  (state <> Done -> forall st, pass_start_permille p = Some st -> Z.min st 1000 <= s.(s_progress_permille)) /\
  (s.(s_is_recovering) = 1 <-> recovering p = true /\ (state = Idle \/ state = Syncing)) /\
  (state <> Syncing -> s.(s_stalled_seconds) = 0).
Proof.
  intros Hwf Hc. pose proof (raw_permille_bound p Hwf Hc) as Hr.
  pose proof Hwf as (_ & Hfl & Hst & _). pose proof (pass_permille_bound p Hc) as Hpp.
  assert (forall st, pass_start_permille p = Some st -> Z.min st 1000 <= raw_permille p) as Hstart.
  { intros st Hs. revert Hr. unfold raw_permille. rewrite Hs.
    unfold pass_start_permille in Hs. destruct (_ =? _) eqn:E; [done|]. injection Hs as <-. breflect.
    set (x := Z.min _ 1000) in *. assert (0 <= x <= 1000) by (destruct Hst; [done|lia]).
    pose proof (div_or_0_bound (sat_mul64 (sat_sub 1000 x) (pass_permille p)) 1000 (1000 - x)) as Hd.
    unfold sat_mul64, sat_sub, sat_add64, u64_max in *. nia. }
  unfold derive_snapshot, permille_floor. destruct state; simpl; split_and!; try done; try lia;
    try (intros; destruct (recovering p); naive_solver); try (intros; naive_solver).
  - intros _ st Hs. specialize (Hstart st Hs). lia.
  - intros _ st Hs. specialize (Hstart st Hs). lia.
  - intros _ st Hs. specialize (Hstart st Hs). lia.
Qed.

Definition mid_pass : Progress :=
  run_ops [OpBeginPass 5; OpSetPassTotal 100; OpPassStart 900; OpAddFetched 60 6; OpAddScanned 20 7;
           OpSetRecovering true] progress_default.

Example snapshot_presentable_instance :
  let '(p', s) := derive_snapshot 10 mid_pass Syncing in
  s.(s_progress_permille) = 940 /\ 0 <= s.(s_progress_permille) <= 1000.
Proof.
  assert (wf mid_pass) as Hwf by (apply run_ops_wf; [repeat constructor; discriminate|apply default_wf]).
  assert (counters_ok mid_pass) as Hc by (repeat split; vm_compute; discriminate).
  pose proof (snapshot_presentable 10 mid_pass Syncing Hwf Hc) as H.
  destruct (derive_snapshot 10 mid_pass Syncing) as [p' s] eqn:E. destruct H as [H _].
  split; [|exact H]. apply (f_equal (fun x => x.2.(s_progress_permille))) in E.
  vm_compute in E. symmetry. exact E.
Qed.

End Handle.
