(* ===== verification/Config.v ===== *)
(** * Configuration and endpoint choice: [core/src/config.rs], [core/src/probe.rs]

    Endpoints and their URI form, the engine configuration with its validation and
    memory scaling, and the ranking that commits a pass to one server.

    The network, the wallet path and the anchor policy of [EngineConfig] are left
    out: nothing modelled reads them.  What a probe measured is an input. *)

From Stdlib Require Import Ascii.
From S2P Require Export Errors FetchPlan Blocks.

Module Config.

(** ** Endpoints *)

(** [struct Endpoint]. *)
Record Endpoint := mkEndpoint { host : string; port : Z; tls : bool }.
#[export] Instance endpoint_eq_dec : EqDecision Endpoint.
Proof. solve_decision. Defined.

(** [Endpoint::uri]. *)
Definition uri (e : Endpoint) : string :=
  (if e.(tls) then "https" else "http") +:+ "://" +:+ e.(host) +:+ ":" +:+ pretty e.(port).

(** [str::strip_prefix]. *)
Fixpoint strip_prefix (p s : string) : option string :=
  match p, s with
  | EmptyString, _ => Some s
  | String a p', String b s' => if bool_decide (a = b) then strip_prefix p' s' else None
  | String _ _, EmptyString => None
  end.

(** [strip_suffix('/').unwrap_or(..)]. *)
Fixpoint strip_slash (s : string) : string :=
  match s with
  | EmptyString => EmptyString
  | String "/"%char EmptyString => EmptyString
  | String c s' => String c (strip_slash s')
  end.

(** [str::rsplit_once]: at the last occurrence. *)
Fixpoint rsplit_once (c : Ascii.ascii) (s : string) : option (string * string) :=
  match s with
  | EmptyString => None
  | String a s' =>
    match rsplit_once c s' with
    | Some (l, r) => Some (String a l, r)
    | None => if bool_decide (a = c) then Some (EmptyString, s') else None
    end
  end.

(** [u16::from_str]: an optional [+], then at least one decimal digit. *)
Definition digit_of (a : Ascii.ascii) : option Z :=
  let n := Z.of_nat (Ascii.nat_of_ascii a) in
  if (48 <=? n) && (n <=? 57) then Some (n - 48) else None.
Fixpoint parse_digits (s : string) (acc : Z) : option Z :=
  match s with
  | EmptyString => Some acc
  | String a s' =>
    match digit_of a with
    | Some d => let acc := acc * 10 + d in if acc <=? 65535 then parse_digits s' acc else None
    | None => None
    end
  end.
Definition parse_u16 (s : string) : option Z :=
  match s with
  | EmptyString => None
  | String "+"%char EmptyString => None
  | String "+"%char s' => parse_digits s' 0
  | _ => parse_digits s 0
  end.

(** Which of its error messages [parse_uri] returns. *)
Inductive UriError := NoScheme | NoPort | EmptyHost | BadPort.

(** [Endpoint::parse_uri]. *)
Definition parse_uri (s : string) : result UriError Endpoint :=
  let? (tls, rest) :=
    match strip_prefix "https://" s with
    | Some r => Ok (true, r)
    | None => match strip_prefix "http://" s with Some r => Ok (false, r) | None => Err NoScheme end
    end in
  match rsplit_once ":"%char (strip_slash rest) with
  | None => Err NoPort
  | Some (h, p) =>
    if bool_decide (h = "") then Err EmptyHost
    else match parse_u16 p with
         | None => Err BadPort
         | Some port => Ok (mkEndpoint h port tls)
         end
  end.

(** ** The engine configuration *)

(** [struct EngineConfig]. *)
Record EngineConfig := mkEngineConfig {
  endpoint : Endpoint;
  alternate_endpoints : list Endpoint;
  wire_failover : bool;
  fetch_streams : Z;
  chunk_blocks : Z;
  memory_budget_bytes : Z;
  chunk_split_bytes : Z;
  scan_batch_target_ms : option Z;
  enhance_every_chunks : Z;
  sparse_persistence : bool;
  write_behind : bool;
  gpu_subtree : bool;
  graft_subtree : bool;
  graft_verify_sample : Z;
  batch_combine : bool;
  local_treestate : bool;
  treestate_verify_sample : Z;
  persist_depth : Z;
}.

#[export] Instance eta_EngineConfig : Eta EngineConfig := fun c =>
  mkEngineConfig c.(endpoint) c.(alternate_endpoints) c.(wire_failover) c.(fetch_streams)
    c.(chunk_blocks) c.(memory_budget_bytes) c.(chunk_split_bytes) c.(scan_batch_target_ms)
    c.(enhance_every_chunks) c.(sparse_persistence) c.(write_behind) c.(gpu_subtree)
    c.(graft_subtree) c.(graft_verify_sample) c.(batch_combine) c.(local_treestate)
    c.(treestate_verify_sample) c.(persist_depth).

Definition MiB : Z := 1024 * 1024.
Definition DEFAULT_FETCH_STREAMS : Z := 4.
Definition DEFAULT_CHUNK_BLOCKS : Z := 10000.
Definition DEFAULT_MEMORY_BUDGET : Z := 256 * 1024 * 1024.
Definition DEFAULT_ENHANCE_EVERY_CHUNKS : Z := 3.

(** [EngineConfig::new]. *)
Definition config_new (e : Endpoint) : EngineConfig :=
  mkEngineConfig e [] true DEFAULT_FETCH_STREAMS DEFAULT_CHUNK_BLOCKS DEFAULT_MEMORY_BUDGET
    DEFAULT_CHUNK_SPLIT_BYTES None DEFAULT_ENHANCE_EVERY_CHUNKS true true false true 16 true false 1 1.

(** [EngineConfig::validate]. *)
Definition validate (c : EngineConfig) : Res unit :=
  if bool_decide (c.(endpoint).(host) = "") then Err (Config "endpoint host is empty")
  else if c.(fetch_streams) =? 0 then Err (Config "fetch_streams must be >= 1")
  else if c.(chunk_blocks) <? 100 then Err (Config "chunk_blocks must be >= 100")
  else if c.(memory_budget_bytes) <? 16 * MiB then Err (Config "memory_budget_bytes must be >= 16 MiB")
  else if c.(chunk_split_bytes) <? MiB then Err (Config "chunk_split_bytes must be >= 1 MiB")
  else if match c.(scan_batch_target_ms) with Some ms => ms <? 500 | None => false end
  then Err (Config "scan_batch_target_ms must be >= 500 ms")
  else if c.(enhance_every_chunks) =? 0 then Err (Config "enhance_every_chunks must be >= 1")
  else if c.(write_behind) && negb c.(sparse_persistence)
  then Err (Config "write_behind requires sparse_persistence (the deferred commit runs the sparse put_blocks path)")
  else if c.(graft_subtree) && negb c.(sparse_persistence)
  then Err (Config "graft_subtree requires sparse_persistence (the graft verdict lives in the sparse build path)")
  else if c.(graft_subtree) && negb c.(write_behind)
  then Err (Config "graft_subtree requires write_behind (the graft plan runs in the persist lane; the inline path never grafts — v0.4 plan Task 7b rev 2)")
  else if c.(gpu_subtree) && negb c.(sparse_persistence)
  then Err (Config "gpu_subtree requires sparse_persistence (the GPU build replaces the sparse subtree build)")
  else if (c.(persist_depth) =? 0) || (64 <? c.(persist_depth))
  then Err (Config "persist_depth must be in 1..=64")
  else Ok tt.

Definition SMALL_DEVICE_MEMORY_BUDGET : Z := 64 * 1024 * 1024.
Definition SMALL_DEVICE_CHUNK_SPLIT_BYTES : Z := 4 * 1024 * 1024.
Definition SMALL_DEVICE_THRESHOLD_BYTES : Z := Z.shiftl 3 30.

(** [EngineConfig::scaled_for_device_memory]. *)
Definition scaled_for_device_memory (total_memory_bytes : Z) (c : EngineConfig) : EngineConfig :=
  if (0 <? total_memory_bytes) && (total_memory_bytes <? SMALL_DEVICE_THRESHOLD_BYTES)
  then c <| memory_budget_bytes := SMALL_DEVICE_MEMORY_BUDGET |>
         <| chunk_split_bytes := SMALL_DEVICE_CHUNK_SPLIT_BYTES |>
  else c.

(** ** The endpoint probe *)

Definition TIP_FRESHNESS_SLACK : Z := 10.

(** [struct ProbeResult], without the endpoint it is about. *)
Record ProbeResult := mkProbeResult { tip : option Z; sample_mbps : option float }.

(** The loop of [rank]. *)
Fixpoint rank_loop (best_tip : Z) (i : nat) (chosen : option (nat * float)) (rs : list ProbeResult)
  : option (nat * float) :=
  match rs with
  | [] => chosen
  | r :: rs' =>
    let chosen :=
      match r.(tip) with
      | None => chosen
      | Some t =>
        if u64_add t TIP_FRESHNESS_SLACK <? best_tip then chosen
        else
          let rate := default (-1)%float r.(sample_mbps) in
          match chosen with
          | Some (_, best_rate) => if (rate <=? best_rate)%float then chosen else Some (i, rate)
          | None => Some (i, rate)
          end
      end in
    rank_loop best_tip (S i) chosen rs'
  end.

(** [rank]. *)
Definition rank (rs : list ProbeResult) : nat :=
  match list_max_opt (omap tip rs) with
  | None => 0%nat
  | Some best_tip => default 0%nat (fst <$> rank_loop best_tip 0 None rs)
  end.

(** [Vec::swap_remove]: the element, or a panic. *)
Definition swap_remove {A} (l : list A) (i : nat) : option A := l !! i.

(** [EngineConfig::with_selected_endpoint]: [probe] is what the probe measured. *)
Definition with_selected_endpoint (via_tor : bool) (probe : list Endpoint -> list ProbeResult)
    (c : EngineConfig) : option EngineConfig :=
  if bool_decide (c.(alternate_endpoints) = []) || via_tor then Some c
  else
    let endpoints := c.(endpoint) :: c.(alternate_endpoints) in
    match swap_remove endpoints (rank (probe endpoints)) with
    | Some e => Some (c <| endpoint := e |>)
    | None => None
    end.

(** ** URIs *)

Definition port_ok (p : Z) : Prop := 0 <= p <= 65535.

Fixpoint all_digits (s : string) : Prop :=
  match s with EmptyString => True | String a s' => is_Some (digit_of a) /\ all_digits s' end.

Lemma digit_of_char x : (x < 10)%N -> digit_of (pretty_N_char x) = Some (Z.of_N x).
Proof.
  intros Hx. assert (x = 0 \/ x = 1 \/ x = 2 \/ x = 3 \/ x = 4 \/ x = 5 \/ x = 6 \/ x = 7 \/ x = 8 \/ x = 9)%N
    as Hc by lia. by repeat destruct Hc as [->|Hc]; [..|subst].
Qed.

Lemma pretty_go_parse x : forall s, (x <= 65535)%N ->
  parse_digits (pretty_N_go x s) 0 = parse_digits s (Z.of_N x) /\
  (all_digits s -> all_digits (pretty_N_go x s)) /\ (s <> "" -> pretty_N_go x s <> "").
Proof.
  induction (N.lt_wf_0 x) as [x _ IH]; intros s Hx.
  destruct (decide (x = 0)%N) as [->|Hne]; [done|]. rewrite pretty_N_go_step by lia.
  pose proof (N.div_mod x 10 ltac:(done)) as Hdm. pose proof (N.mod_lt x 10 ltac:(done)) as Hm.
  assert (x / 10 < x)%N as Hlt by (apply N.div_lt; lia).
  assert (x / 10 <= 65535)%N as Hle by (clear -Hlt Hx; lia).
  destruct (IH (x / 10)%N Hlt (String (pretty_N_char (x mod 10)) s) Hle) as (H1 & H2 & H3).
  rewrite H1. cbn [parse_digits]. rewrite digit_of_char by done.
  replace (Z.of_N (x / 10) * 10 + Z.of_N (x mod 10)) with (Z.of_N x) by lia.
  destruct (Z.leb_spec (Z.of_N x) 65535); [|lia]. split; [done|].
  split; [|by intros _; apply H3]. intros Hd. apply H2. simpl. rewrite digit_of_char by done. eauto.
Qed.

Lemma all_digits_facts s : all_digits s -> rsplit_once ":"%char s = None /\ strip_slash s = s.
Proof.
  induction s as [|a s IH]; simpl; [done|]. intros [[d Ha] Hs]. destruct (IH Hs) as [-> ->].
  split; [destruct (decide (a = ":"%char)) as [->|?]; [done|by rewrite bool_decide_false]|].
  destruct a as [[] [] [] [] [] [] [] []]; done.
Qed.

Lemma port_facts p : port_ok p ->
  parse_u16 (pretty p) = Some p /\ rsplit_once ":"%char (pretty p) = None /\
  strip_slash (pretty p) = pretty p /\ pretty p <> "".
Proof.
  unfold port_ok. intros Hp. assert (pretty p = pretty (Z.to_N p)) as -> by (by destruct p; try lia).
  unfold pretty, pretty_N. case_decide as E.
  { assert (p = 0) as -> by lia. done. }
  destruct (pretty_go_parse (Z.to_N p) "" ltac:(lia)) as (H1 & H2 & _).
  specialize (H2 I). destruct (all_digits_facts _ H2) as [H4 H5].
  assert (pretty_N_go (Z.to_N p) "" <> "") as Hne.
  { rewrite pretty_N_go_step by lia. apply pretty_go_parse; [|done].
    pose proof (N.div_lt (Z.to_N p) 10 ltac:(lia) ltac:(done)). lia. }
  split_and!; try done. revert H1 H2 Hne. simpl. rewrite Z2N.id by lia.
  destruct (pretty_N_go (Z.to_N p) "") as [|a s]; [done|]. intros H1 [[d Ha] _] _.
  unfold parse_u16. by destruct a as [[] [] [] [] [] [] [] []].
Qed.

Lemma rsplit_once_app l r : rsplit_once ":"%char r = None ->
  rsplit_once ":"%char (l +:+ ":" +:+ r) = Some (l, r).
Proof.
  intros Hr. change (":" +:+ r) with (String ":"%char r). induction l as [|a l IH].
  - change ("" +:+ String ":"%char r) with (String ":"%char r). cbn [rsplit_once]. by rewrite Hr.
  - change (String a l +:+ String ":"%char r) with (String a (l +:+ String ":"%char r)).
    cbn [rsplit_once]. by rewrite IH.
Qed.

Lemma strip_slash_app l r : r <> "" -> strip_slash r = r -> strip_slash (l +:+ r) = l +:+ r.
Proof.
  intros Hne Hr. induction l as [|a l IH]; [done|].
  change (String a l +:+ r) with (String a (l +:+ r)). cbn [strip_slash]. rewrite IH.
  destruct (l +:+ r) eqn:E; [|by destruct a as [[] [] [] [] [] [] [] []]].
  destruct l; [|done]. by destruct Hne.
Qed.

Lemma string_app_assoc (a b c : string) : (a +:+ b) +:+ c = a +:+ b +:+ c.
Proof. induction a as [|x a IH]; [done|]. change (String x ((a +:+ b) +:+ c) = String x (a +:+ b +:+ c)). by rewrite IH. Qed.

Lemma strip_slash_snoc s : strip_slash (s +:+ "/") = s.
Proof.
  induction s as [|a s IH]; [done|].
  change (strip_slash (String a (s +:+ "/")) = String a s). cbn [strip_slash]. rewrite IH.
  destruct s; by destruct a as [[] [] [] [] [] [] [] []].
Qed.

(** Endpoint URIs round-trip: parsing what [uri] prints gives the endpoint back, for every
    non-empty host, colons included, every 16-bit port and both schemes; and a trailing slash
    is tolerated. *)
Theorem endpoint_uri_roundtrip e : e.(host) <> "" -> port_ok e.(port) ->
  parse_uri (uri e) = Ok e /\ parse_uri (uri e +:+ "/") = Ok e.
Proof.
  intros Hh Hp. destruct (port_facts _ Hp) as (H1 & H2 & H3 & H4). destruct e as [h p tls]. simpl in *.
  assert (strip_slash (h +:+ ":" +:+ pretty p) = h +:+ ":" +:+ pretty p) as Hs.
  { apply strip_slash_app; [done|]. change (":" +:+ pretty p) with ((":" : string) +:+ pretty p).
    by apply strip_slash_app. }
  assert (strip_slash ((h +:+ ":" +:+ pretty p) +:+ "/") = h +:+ ":" +:+ pretty p) as Hs'.
  { by apply strip_slash_snoc. }
  assert (forall rest, strip_slash rest = h +:+ ":" +:+ pretty p ->
    parse_uri ((if tls then "https" else "http") +:+ "://" +:+ rest) = Ok (mkEndpoint h p tls)) as Hparse.
  { intros rest Hr. assert (parse_uri ((if tls then "https" else "http") +:+ "://" +:+ rest) =
      match rsplit_once ":"%char (strip_slash rest) with
      | None => Err NoPort
      | Some (h, p) =>
        if bool_decide (h = "") then Err EmptyHost
        else match parse_u16 p with None => Err BadPort | Some port => Ok (mkEndpoint h port tls) end
      end) as -> by (by destruct tls).
    rewrite Hr, (rsplit_once_app h (pretty p) H2), bool_decide_false by done. by rewrite H1. }
  unfold uri. cbn [host port Config.tls]. split; [by apply Hparse|].
  rewrite !(string_app_assoc (if tls then _ else _)), (string_app_assoc "://"). by apply Hparse.
Qed.

Example endpoint_uri_roundtrip_instance :
  parse_uri (uri (mkEndpoint "eu.zec.rocks" 443 true)) = Ok (mkEndpoint "eu.zec.rocks" 443 true) /\
  uri (mkEndpoint "eu.zec.rocks" 443 true) = "https://eu.zec.rocks:443".
Proof.
  split; [|vm_compute; reflexivity].
  apply (endpoint_uri_roundtrip (mkEndpoint "eu.zec.rocks" 443 true)); [discriminate|].
  split; vm_compute; discriminate.
Qed.

(** A bracketed IPv6 literal with a port is accepted, brackets and all, as a host name; only one
    without a port fails in the port parse. *)
Theorem ipv6_literal_accepted (h : string) p : port_ok p ->
  parse_uri ("http://[" +:+ h +:+ "]:" +:+ pretty p) = Ok (mkEndpoint ("[" +:+ h +:+ "]") p false) /\
  parse_uri "http://[::1]" = Err BadPort.
Proof.
  intros Hp. split; [|vm_compute; reflexivity].
  destruct (port_facts _ Hp) as (H1 & H2 & H3 & H4).
  set (host := "[" +:+ h +:+ "]").
  assert ("http://[" +:+ h +:+ "]:" +:+ pretty p = "http://" +:+ host +:+ ":" +:+ pretty p) as ->.
  { unfold host. by rewrite !string_app_assoc. }
  assert (strip_slash (host +:+ ":" +:+ pretty p) = host +:+ ":" +:+ pretty p) as Hs.
  { apply strip_slash_app; [done|]. change (":" +:+ pretty p) with ((":" : string) +:+ pretty p).
    by apply strip_slash_app. }
  unfold parse_uri. change (strip_prefix "https://" ("http://" +:+ ?x)) with (@None string).
  change (strip_prefix "http://" ("http://" +:+ host +:+ ":" +:+ pretty p)) with (Some (host +:+ ":" +:+ pretty p)).
  cbn [result_bind]. rewrite Hs, (rsplit_once_app host (pretty p) H2), bool_decide_false by done. by rewrite H1.
Qed.

Example ipv6_literal_accepted_instance :
  parse_uri "http://[::1]:9067" = Ok (mkEndpoint "[::1]" 9067 false).
Proof. apply (ipv6_literal_accepted "::1" 9067). split; vm_compute; discriminate. Qed.

(** ** Validation *)

(** What a valid configuration promises. *)
Record Valid (c : EngineConfig) : Prop := mkValid {
  v_host : c.(endpoint).(host) <> "";
  v_streams : c.(fetch_streams) <> 0;
  v_chunk : 100 <= c.(chunk_blocks);
  v_memory : 16 * MiB <= c.(memory_budget_bytes);
  v_split : MiB <= c.(chunk_split_bytes);
  v_batch : forall ms, c.(scan_batch_target_ms) = Some ms -> 500 <= ms;
  v_enhance : c.(enhance_every_chunks) <> 0;
  v_write_behind : c.(write_behind) = true -> c.(sparse_persistence) = true;
  v_graft : c.(graft_subtree) = true -> c.(sparse_persistence) = true /\ c.(write_behind) = true;
  v_gpu : c.(gpu_subtree) = true -> c.(sparse_persistence) = true;
  v_depth : c.(persist_depth) <> 0 /\ c.(persist_depth) <= 64;
}.

Lemma validate_valid c : validate c = Ok tt <-> Valid c.
Proof.
  split.
  - unfold validate. intros Hv. repeat (case_match; [done|]).
    assert (forall ms, c.(scan_batch_target_ms) = Some ms -> 500 <= ms) as Hb.
    { intros ms E. rewrite E in *. breflect. lia. }
    breflect. destruct (write_behind c) eqn:?, (sparse_persistence c) eqn:?, (graft_subtree c) eqn:?,
      (gpu_subtree c) eqn:?; try done; constructor; try done; congruence.
  - intros [H1 H2 H3 H4 H5 H6 H7 H8 H9 H10 [H11 H12]]. unfold validate.
    rewrite bool_decide_false by done. rewrite (proj2 (Z.eqb_neq _ _) H2).
    rewrite (proj2 (Z.ltb_ge _ _) H3), (proj2 (Z.ltb_ge _ _) H4), (proj2 (Z.ltb_ge _ _) H5).
    replace (match c.(scan_batch_target_ms) with Some ms => ms <? 500 | None => false end) with false
      by (destruct (scan_batch_target_ms c) as [ms|] eqn:E; [symmetry; apply Z.ltb_ge; by apply H6|done]).
    rewrite (proj2 (Z.eqb_neq _ _) H7), (proj2 (Z.eqb_neq _ _) H11), (proj2 (Z.ltb_ge _ _) H12).
    destruct (write_behind c), (sparse_persistence c), (graft_subtree c), (gpu_subtree c); naive_solver.
Qed.

Lemma validate_error c e : validate c = Err e -> exists m, e = Config m.
Proof. unfold validate. intros H. repeat case_match; simplify_eq; eauto. Qed.

(** A validated configuration can run a pass: it meets every stated bound, stays valid when
    another named endpoint is committed or when it is derated for a small device, gives any
    range of block heights a fetch plan, and its chunk queue opens for any budget a semaphore
    can hold. *)
Theorem validated_config_runs c mem start end_ :
  validate c = Ok tt -> c.(chunk_blocks) <= u32_max -> c.(memory_budget_bytes) <= ChunkQueue.MAX_PERMITS ->
  0 <= start <= end_ -> end_ <= u32_max ->
  let c' := scaled_for_device_memory mem c in
  Valid c /\ (forall e, validate (c <| endpoint := e |>) = Ok tt \/ e.(host) = "") /\ validate c' = Ok tt /\
  (exists plan, FetchPlan.new start end_ c'.(chunk_blocks) c'.(fetch_streams) = Some plan /\ FetchPlan.plan_ok plan) /\
  (exists q, ChunkQueue.chunk_queue c'.(memory_budget_bytes) = Some q).
Proof.
  intros Hv Hb Hm Hs He c'. apply validate_valid in Hv. split; [done|]. split.
  { intros e. destruct (decide (e.(host) = "")); [by right|left]. apply validate_valid.
    by destruct Hv; constructor. }
  assert (Valid c') as Hv'.
  { unfold c', scaled_for_device_memory. case_match; [|done]. by destruct Hv; constructor. }
  split; [by apply validate_valid|].
  assert (c'.(chunk_blocks) = c.(chunk_blocks)) as Hcb by (unfold c', scaled_for_device_memory; by case_match).
  assert (c'.(memory_budget_bytes) <= ChunkQueue.MAX_PERMITS) as Hmb.
  { unfold c', scaled_for_device_memory. case_match; [|done]. vm_compute. discriminate. }
  destruct Hv' as [_ Hst Hch Hme _ _ _ _ _ _ _]. rewrite Hcb in *. split.
  - unfold FetchPlan.new. rewrite (proj2 (Z.leb_le _ _)), (proj2 (Z.ltb_lt _ _)) by lia. simpl.
    eexists. split; [reflexivity|]. unfold FetchPlan.plan_ok. simpl. lia.
  - unfold ChunkQueue.chunk_queue. rewrite Z.max_l by (unfold MiB in *; lia).
    rewrite (proj2 (Z.leb_le _ _)) by done. eauto.
Qed.

Example validated_config_runs_instance :
  let c := config_new (mkEndpoint "zec.rocks" 443 true) in
  validate (scaled_for_device_memory (Z.shiftl 2 30) c) = Ok tt.
Proof.
  apply (validated_config_runs (config_new (mkEndpoint "zec.rocks" 443 true)) (Z.shiftl 2 30) 419200 2500000).
  - vm_compute. reflexivity.
  - vm_compute. discriminate.
  - vm_compute. discriminate.
  - lia.
  - vm_compute. discriminate.
Qed.

(** ** The ranking *)

Definition rate (r : ProbeResult) : float := default (-1)%float r.(sample_mbps).
(** The tip is fresh enough. *)
Definition qualifies (best_tip : Z) (r : ProbeResult) : bool :=
  match r.(tip) with Some t => negb (u64_add t TIP_FRESHNESS_SLACK <? best_tip) | None => false end.

Section Rank.
Context (all : list ProbeResult) (best_tip : Z).
(** Measured rates are numbers: the comparison of any two is decided, and orders them. *)
Context (Htotal : forall a b, a ∈ all -> b ∈ all ->
           (rate a <=? rate b)%float = true \/ (rate b <=? rate a)%float = true).
Context (Htrans : forall a b c, a ∈ all -> b ∈ all -> c ∈ all ->
           (rate a <=? rate b)%float = true -> (rate b <=? rate c)%float = true ->
           (rate a <=? rate c)%float = true).

Definition best_of (seen : list ProbeResult) (chosen : option (nat * float)) : Prop :=
  match chosen with
  | None => forall r, r ∈ seen -> qualifies best_tip r = false
  | Some (k, x) => exists r, seen !! k = Some r /\ qualifies best_tip r = true /\ x = rate r /\
      forall j r', seen !! j = Some r' -> qualifies best_tip r' = true ->
        (rate r' <=? x)%float = true /\ ((j < k)%nat -> (x <=? rate r')%float = false)
  end.

Lemma best_of_skip seen chosen r : best_of seen chosen -> qualifies best_tip r = false ->
  best_of (seen ++ [r]) chosen.
Proof.
  intros Hb Hr. destruct chosen as [[k x]|]; simpl in *.
  - destruct Hb as (r0 & Hk & Hq & Hx & Hall). exists r0. split; [by apply lookup_app_l_Some|].
    do 2 (split; [done|]). intros j r' Hj Hq'.
    apply lookup_app_Some in Hj as [Hj|[_ Hj]]; [by apply Hall|].
    apply list_lookup_singleton_Some in Hj as [_ <-]. congruence.
  - intros r' [Hr'|Hr']%elem_of_app; [by apply Hb|]. apply list_elem_of_singleton in Hr' as ->. done.
Qed.

Lemma best_of_keep seen k x r : seen ++ [r] ⊆ all -> best_of seen (Some (k, x)) ->
  (rate r <=? x)%float = true -> best_of (seen ++ [r]) (Some (k, x)).
Proof.
  intros Hs (r0 & Hk & Hq & Hx & Hall) Hr. exists r0. split; [by apply lookup_app_l_Some|].
  do 2 (split; [done|]). intros j r' Hj Hq'.
  apply lookup_app_Some in Hj as [Hj|[Hj0 Hj]]; [by apply Hall|].
  apply list_lookup_singleton_Some in Hj as [Hj <-]. split; [done|].
  apply lookup_lt_Some in Hk. lia.
Qed.

Lemma best_of_new seen chosen r : seen ++ [r] ⊆ all -> best_of seen chosen ->
  qualifies best_tip r = true ->
  match chosen with Some (_, x) => (rate r <=? x)%float = false | None => True end ->
  best_of (seen ++ [r]) (Some (length seen, rate r)).
Proof.
  intros Hs Hb Hq Hr. assert (r ∈ all) as Hin by set_solver. exists r.
  split; [rewrite lookup_app_r by lia; by rewrite Nat.sub_diag|]. do 2 (split; [done|]).
  intros j r' Hj Hq'. apply lookup_app_Some in Hj as [Hj|[Hj0 Hj]].
  - assert (r' ∈ all) as Hin' by (apply list_elem_of_lookup_2 in Hj; set_solver).
    destruct chosen as [[k x]|]; simpl in Hb.
    + destruct Hb as (r0 & Hk & _ & -> & Hall). destruct (Hall j r' Hj Hq') as [Hle _].
      assert (r0 ∈ all) as Hin0 by (apply list_elem_of_lookup_2 in Hk; set_solver).
      assert ((rate r0 <=? rate r)%float = true) as H0r
        by (destruct (Htotal r r0 Hin Hin0); congruence).
      split; [by eapply (Htrans r' r0 r)|]. intros _. apply not_true_is_false. intros Hc.
      assert ((rate r <=? rate r0)%float = true) by (by eapply (Htrans r r' r0)). congruence.
    + apply list_elem_of_lookup_2 in Hj. rewrite Hb in Hq' by done. done.
  - apply list_lookup_singleton_Some in Hj as [Hj <-]. split; [by destruct (Htotal r r Hin Hin)|lia].
Qed.

Lemma rank_loop_best rest : forall seen chosen, seen ++ rest = all ->
  best_of seen chosen -> best_of all (rank_loop best_tip (length seen) chosen rest).
Proof.
  induction rest as [|r rest IH]; intros seen chosen Hs Hb; cbn [rank_loop].
  { by rewrite app_nil_r in Hs; subst. }
  assert (seen ++ [r] ⊆ all) as Hsub by (rewrite <-Hs; set_solver).
  replace (S (length seen)) with (length (seen ++ [r])) by (rewrite length_app; simpl; lia).
  apply IH; [by rewrite <-app_assoc|].
  destruct (tip r) as [t|] eqn:Et; [|apply best_of_skip; [done|]; unfold qualifies; by rewrite Et].
  destruct (u64_add t TIP_FRESHNESS_SLACK <? best_tip) eqn:Ef.
  { apply best_of_skip; [done|]. unfold qualifies. by rewrite Et, Ef. }
  assert (qualifies best_tip r = true) as Hq by (unfold qualifies; by rewrite Et, Ef).
  fold (rate r). destruct chosen as [[k x]|].
  - destruct (rate r <=? x)%float eqn:El; [by apply best_of_keep|]. by apply (best_of_new _ (Some (k, x))).
  - by apply (best_of_new _ None).
Qed.
End Rank.

(** Some endpoint with the best tip qualifies. *)
Lemma best_tip_qualifies rs best : list_max_opt (omap tip rs) = Some best ->
  (forall r t, r ∈ rs -> r.(tip) = Some t -> 0 <= t <= u32_max) ->
  exists r, r ∈ rs /\ qualifies best r = true.
Proof.
  intros Hm Ht. pose proof (list_max_opt_spec (omap tip rs)) as Hs. rewrite Hm in Hs.
  destruct Hs as [Hin _]. apply list_elem_of_omap in Hin as (r & Hr & Hb). exists r. split; [done|].
  specialize (Ht r best Hr Hb). unfold qualifies. rewrite Hb. unfold TIP_FRESHNESS_SLACK, u32_max in *.
  rewrite u64_add_small by (unfold is_u64, u64_max; lia). apply negb_true_iff, Z.ltb_ge. lia.
Qed.

(** The measured rates are numbers, so that comparing any of them is decided and
    transitive, and the tips are block heights. *)
Definition readings_ok (rs : list ProbeResult) : bool :=
  forallb (fun a => forallb (fun b => (rate a <=? rate b)%float || (rate b <=? rate a)%float) rs) rs &&
  forallb (fun a => forallb (fun b => forallb (fun c =>
    negb (rate a <=? rate b)%float || negb (rate b <=? rate c)%float || (rate a <=? rate c)%float) rs) rs) rs &&
  forallb (fun r => match r.(tip) with Some t => (0 <=? t) && (t <=? u32_max) | None => true end) rs.

Lemma forallb_elem {A} (f : A -> bool) l x : forallb f l = true -> x ∈ l -> f x = true.
Proof. rewrite forallb_forall. intros H Hx. by apply H, list_elem_of_In. Qed.

Lemma readings_total rs a b : readings_ok rs = true -> a ∈ rs -> b ∈ rs ->
  (rate a <=? rate b)%float = true \/ (rate b <=? rate a)%float = true.
Proof.
  unfold readings_ok. intros H Ha Hb. breflect. apply orb_true_iff.
  by apply (forallb_elem _ rs b (forallb_elem _ rs a H Ha)).
Qed.

Lemma readings_trans rs a b c : readings_ok rs = true -> a ∈ rs -> b ∈ rs -> c ∈ rs ->
  (rate a <=? rate b)%float = true -> (rate b <=? rate c)%float = true -> (rate a <=? rate c)%float = true.
Proof.
  unfold readings_ok. intros H Ha Hb Hc H1 H2. breflect.
  pose proof (forallb_elem _ rs c (forallb_elem _ rs b (forallb_elem _ rs a H3 Ha) Hb) Hc) as Ht.
  simpl in Ht. by rewrite H1, H2 in Ht.
Qed.

Lemma readings_tips rs r t : readings_ok rs = true -> r ∈ rs -> r.(tip) = Some t -> 0 <= t <= u32_max.
Proof.
  unfold readings_ok. intros H Hr Ht. breflect. pose proof (forallb_elem _ rs r H0 Hr) as Hb.
  simpl in Hb. rewrite Ht in Hb. breflect. done.
Qed.

(** The probe commits to the fastest fresh server: the one chosen answered with a tip within ten
    blocks of the best, no other such server sampled a higher rate, and every such server
    listed before it sampled a lower one, so ties keep the configured order; with no answer at
    all the preferred endpoint stays. *)
Theorem rank_fastest_fresh rs :
  readings_ok rs = true ->
  match list_max_opt (omap tip rs) with
  | None => rank rs = 0%nat
  | Some best => exists r, rs !! rank rs = Some r /\ qualifies best r = true /\
      forall j r', rs !! j = Some r' -> qualifies best r' = true ->
        (rate r' <=? rate r)%float = true /\
        ((j < rank rs)%nat -> (rate r <=? rate r')%float = false)
  end.
Proof.
  intros Hok. pose proof (fun a b => readings_total rs a b Hok) as Htot.
  pose proof (fun a b c => readings_trans rs a b c Hok) as Htr.
  pose proof (fun r t => readings_tips rs r t Hok) as Ht. unfold rank. destruct (list_max_opt (omap tip rs)) as [best|] eqn:E; [|done].
  pose proof (rank_loop_best rs best Htot Htr rs [] None eq_refl ltac:(intros r ?%not_elem_of_nil; done)) as Hb.
  simpl in Hb. destruct (rank_loop best 0 None rs) as [[k x]|]; simpl in *.
  - destruct Hb as (r & Hk & Hq & -> & Hall). eauto.
  - destruct (best_tip_qualifies rs best E Ht) as (r & Hr & Hq). rewrite Hb in Hq by done. done.
Qed.

Definition sample_probe : list ProbeResult :=
  [mkProbeResult (Some 100) (Some 1.5%float); mkProbeResult (Some 80) (Some 9%float);
   mkProbeResult (Some 98) (Some 3%float); mkProbeResult (Some 99) (Some 3%float); mkProbeResult None None].

Example rank_fastest_fresh_instance :
  rank sample_probe = 2%nat /\ exists r, sample_probe !! rank sample_probe = Some r.
Proof.
  split; [vm_compute; reflexivity|].
  destruct (rank_fastest_fresh sample_probe) as (r & Hr & _).
  - vm_compute. reflexivity.
  - exists r. exact Hr.
Qed.

Lemma rank_loop_lt best rs : forall i chosen k x,
  match chosen with Some (c, _) => (c < i)%nat | None => True end ->
  rank_loop best i chosen rs = Some (k, x) -> (k < i + length rs)%nat.
Proof.
  induction rs as [|r rs IH]; intros i chosen k x Hc; cbn [rank_loop].
  { intros ->. simpl. lia. }
  intros Hr. apply IH in Hr; [simpl; lia|]. repeat case_match; simplify_eq; try done; lia.
Qed.

Lemma rank_lt rs : rs <> [] -> (rank rs < length rs)%nat.
Proof.
  intros Hne. assert (0 < length rs)%nat by (destruct rs; simpl; [done|lia]).
  unfold rank. destruct (list_max_opt _) as [best|]; [|done].
  destruct (rank_loop best 0 None rs) as [[k x]|] eqn:E; simpl; [|done].
  by apply rank_loop_lt in E.
Qed.

(** Endpoint selection only ever picks a configured server and changes nothing else; without
    alternates it keeps the configured one, and over Tor no probe is made. *)
Theorem selection_commits_configured via_tor probe c :
  (forall es, length (probe es) = length es) ->
  exists c', with_selected_endpoint via_tor probe c = Some c' /\
    c' = c <| endpoint := c'.(endpoint) |> /\
    c'.(endpoint) ∈ c.(endpoint) :: c.(alternate_endpoints) /\
    (via_tor = true \/ c.(alternate_endpoints) = [] -> c' = c).
Proof.
  intros Hp. unfold with_selected_endpoint.
  destruct (bool_decide _ || via_tor) eqn:E.
  { exists c. split; [done|]. split; [by destruct c|]. split; [by left|done]. }
  apply orb_false_iff in E as [E ->]. breflect. set (es := _ :: _).
  assert (rank (probe es) < length es)%nat as Hlt.
  { rewrite <-(Hp es). apply rank_lt. intros Hn. specialize (Hp es). by rewrite Hn in Hp. }
  apply lookup_lt_is_Some in Hlt as [e He]. unfold swap_remove. rewrite He. eexists. split; [done|].
  split; [done|]. split; [simpl; by apply list_elem_of_lookup_2 in He|]. by intros [?|?].
Qed.

Example selection_commits_configured_instance :
  let c := (config_new (mkEndpoint "a" 1 true)) <| alternate_endpoints := [mkEndpoint "b" 2 true] |> in
  let probe es := take (length es) [mkProbeResult None None; mkProbeResult (Some 5) None] ++
                  replicate (length es - 2) (mkProbeResult None None) in
  exists c', with_selected_endpoint false probe c = Some c' /\ c'.(endpoint) = mkEndpoint "b" 2 true.
Proof.
  intros c probe. destruct (selection_commits_configured false probe c) as (c' & Hc & _).
  - intros es. unfold probe. rewrite length_app, length_take, length_replicate. simpl. lia.
  - exists c'. split; [exact Hc|]. vm_compute in Hc. injection Hc as <-. reflexivity.
Qed.

End Config.
