(* ===== verification/Probe.v ===== *)
(** * The endpoint probe: [core/src/probe.rs]

    One timed race over the configured servers.  Time is in nanoseconds since the probe started;
    computation takes none.  A server is what its calls answer and after how long, or never; a
    task may die.  [timeout] hands over an answer that is there by the time the budget runs out,
    and otherwise returns at that time. *)

From S2P Require Export Config WireDetector.

Module Probe.
Import Config WireDetector.

Definition DEFAULT_PROBE_BUDGET : Z := 1200 * 1000000.
Definition PROBE_SAMPLE_BLOCKS : Z := 100.

Inductive Answer (A : Type) := After (delay : Z) (a : A) | Never.
#[global] Arguments After {A} delay a.
#[global] Arguments Never {A}.

(** What one server does: the connection, its tip, the opening of the block stream, and the
    stream's messages; [None] ends the stream, as does the end of the list. *)
Record Server := mkServer {
  on_connect : Answer (Res unit);
  on_latest : Answer (Res Z);
  on_range : Z -> Z -> Answer (Res unit);
  on_message : Z -> Z -> list (Answer (Res (option Z)));
}.
Definition delay_ok {A} (a : Answer A) : Prop := match a with After d _ => 0 <= d | Never => True end.

(** [remaining]. *)
Definition remaining (deadline now : Z) : Z := sat_sub deadline now.
(** [timeout(remaining(deadline), future)]: the time it returns and the answer, if in time. *)
Definition timeout {A} (deadline now : Z) (a : Answer A) : Z * option A :=
  match a with
  | After d x => if d <=? remaining deadline now then (now + d, Some x) else (now + remaining deadline now, None)
  | Never => (now + remaining deadline now, None)
  end.

(** [sample_range_bytes]. *)
Fixpoint sample_loop (deadline now bytes : Z) (messages : list (Answer (Res (option Z)))) : Z * Z :=
  match messages with
  | [] => (now, bytes)
  | m :: messages' =>
    match timeout deadline now m with
    | (now', Some (Ok (Some len))) => sample_loop deadline now' (u64_add bytes len) messages'
    | (now', _) => (now', bytes)
    end
  end.
Definition sample_range_bytes (s : Server) (start end_ deadline now : Z) : Z * Z :=
  match timeout deadline now (s.(on_range) start end_) with
  | (now', Some (Ok _)) => sample_loop deadline now' 0 (s.(on_message) start end_)
  | (now', _) => (now', 0)
  end.

(** [Duration::as_secs_f64]. *)
Definition as_secs_f64 (nanos : Z) : float := (u64_as_f64 (nanos / 1000000000) + u64_as_f64 (nanos mod 1000000000) / 1000000000)%float.
(** [probe_one]. *)
Definition probe_one (s : Server) (deadline now : Z) : Z * ProbeResult :=
  let result := mkProbeResult None None in
  match timeout deadline now s.(on_connect) with
  | (now, Some (Ok _)) =>
    match timeout deadline now s.(on_latest) with
    | (now, Some (Ok t)) =>
      let start := sat_sub t (PROBE_SAMPLE_BLOCKS - 1) in
      let '(now', bytes) := sample_range_bytes s start t deadline now in
      let secs := as_secs_f64 (now' - now) in
      (now', mkProbeResult (Some t)
         (if (0 <? bytes) && (0 <? secs)%float then Some (u64_as_f64 bytes / (1024 * 1024) / secs)%float else None))
    | (now, _) => (now, result)
    end
  | (now, _) => (now, result)
  end.

(** A spawned probe runs, or its task dies at some time. *)
Inductive Task := Runs (s : Server) | Panics (at_time : Z).
Definition run_task (deadline : Z) (t : Task) : Z * ProbeResult :=
  match t with Runs s => probe_one s deadline 0 | Panics at_time => (at_time, mkProbeResult None None) end.
(** [probe_endpoints]: readings in the order of the endpoints, the winner, the time taken. *)
Definition probe_endpoints (task : Endpoint -> Task) (endpoints : list Endpoint) (budget : Z)
  : list ProbeResult * nat * Z :=
  let runs := run_task budget ∘ task <$> endpoints in
  let results := snd <$> runs in
  (results, rank results, foldr Z.max 0 (fst <$> runs)).

(** ** The budget holds *)

Definition server_ok (s : Server) : Prop :=
  delay_ok s.(on_connect) /\ delay_ok s.(on_latest) /\
  forall start end_, delay_ok (s.(on_range) start end_) /\ Forall delay_ok (s.(on_message) start end_).
Definition task_ok (budget : Z) (t : Task) : Prop :=
  match t with Runs s => server_ok s | Panics at_time => 0 <= at_time <= budget end.

Lemma timeout_bound {A} deadline now (a : Answer A) : delay_ok a -> now <= deadline ->
  now <= (timeout deadline now a).1 <= deadline.
Proof.
  intros Ha Hn. unfold timeout, remaining, sat_sub. destruct a as [d x|]; cbn in *; [|lia].
  destruct (Z.leb_spec d (Z.max 0 (deadline - now))); cbn; lia.
Qed.
Lemma sample_loop_bound deadline ms : forall now bytes, Forall delay_ok ms -> now <= deadline ->
  now <= (sample_loop deadline now bytes ms).1 <= deadline.
Proof.
  induction ms as [|m ms IH]; intros now bytes Hm Hn; cbn [sample_loop]; [cbn; lia|].
  apply Forall_cons in Hm as [Hd Hm]. pose proof (timeout_bound deadline now m Hd Hn) as Hb.
  destruct (timeout deadline now m) as [now' [[[len|]|]|]]; cbn [fst] in *; try lia.
  pose proof (IH now' (u64_add bytes len) Hm ltac:(lia)). lia.
Qed.
Lemma probe_one_bound s deadline now : server_ok s -> now <= deadline -> now <= (probe_one s deadline now).1 <= deadline.
Proof.
  intros (Hc & Hl & Hr) Hn. unfold probe_one.
  pose proof (timeout_bound deadline now _ Hc Hn) as H1. destruct (timeout deadline now s.(on_connect)) as [n1 [[u|]|]]; cbn [fst] in *; try lia.
  pose proof (timeout_bound deadline n1 _ Hl ltac:(lia)) as H2. destruct (timeout deadline n1 s.(on_latest)) as [n2 [[t|]|]]; cbn [fst] in *; try lia.
  unfold sample_range_bytes. destruct (Hr (sat_sub t (PROBE_SAMPLE_BLOCKS - 1)) t) as [Ho Hm].
  pose proof (timeout_bound deadline n2 _ Ho ltac:(lia)) as H3.
  destruct (timeout deadline n2 _) as [n3 [[u'|]|]]; cbn [fst] in *; try lia.
  pose proof (sample_loop_bound deadline _ n3 0 Hm ltac:(lia)). destruct (sample_loop _ _ _ _); cbn [fst] in *. lia.
Qed.

(** A server's answers up to its tip, all in time, give its tip. *)
Definition tip_in_time (budget : Z) (t : Task) : option Z :=
  match t with
  | Runs (mkServer (After d (Ok _)) (After d' (Ok tip)) _ _) => if (d <=? budget) && (d + d' <=? budget) then Some tip else None
  | _ => None
  end.
Lemma run_task_tip budget t : 0 <= budget -> task_ok budget t -> (run_task budget t).2.(tip) = tip_in_time budget t.
Proof.
  intros Hb Hok. destruct t as [[c l r m]|p]; [|done]. destruct Hok as (Hc & Hl & _). cbn in Hc, Hl. unfold run_task, probe_one, tip_in_time. cbn [on_connect on_latest].
  unfold timeout, remaining, sat_sub. destruct c as [d [u|e]|]; [|by destruct (d <=? _)|done]. cbn in Hc.
  rewrite Z.sub_0_r, Z.max_r by lia. destruct (Z.leb_spec d budget); [|by destruct l as [? []|]]. cbn [andb Z.add].
  destruct l as [d' [t|e]|]; [|by destruct (d' <=? _)|done]. cbn in Hl. rewrite Z.max_r by lia.
  replace (d' <=? budget - (0 + d)) with (d + d' <=? budget) by (destruct (Z.leb_spec (d + d') budget), (Z.leb_spec d' (budget - (0 + d))); lia).
  destruct (d + d' <=? budget); [|done]. by destruct (sample_range_bytes _ _ _ _ _).
Qed.

(** C28: The probe never holds up a pass: whatever the servers do, also when one never answers, it
    returns within its budget, with one reading per endpoint in their order, a winner among them,
    and a tip in a reading exactly when that server's connection and tip answer came in time; with
    no tip at all the winner is the preferred endpoint. *)
Theorem probe_within_budget task endpoints budget :
  endpoints <> [] -> 0 <= budget -> (forall e, e ∈ endpoints -> task_ok budget (task e)) ->
  let '(results, chosen, elapsed) := probe_endpoints task endpoints budget in
  0 <= elapsed <= budget /\ (chosen < length endpoints)%nat /\
  tip <$> results = tip_in_time budget ∘ task <$> endpoints /\
  ((forall e, e ∈ endpoints -> tip_in_time budget (task e) = None) -> chosen = 0%nat).
Proof.
  intros Hne Hb Hok. unfold probe_endpoints.
  assert (tip <$> (snd <$> (run_task budget ∘ task <$> endpoints)) = tip_in_time budget ∘ task <$> endpoints) as Htips.
  { rewrite <- !list_fmap_compose. apply list_fmap_ext. intros i e He%list_elem_of_lookup_2. cbn. by apply run_task_tip; auto. }
  split_and!; [| | |exact Htips|].
  - clear. induction endpoints; cbn; lia.
  - clear Htips Hne. induction endpoints as [|e es IH]; [done|]. cbn [fmap list_fmap foldr compose].
    assert (0 <= (run_task budget (task e)).1 <= budget) as H1.
    { pose proof (Hok e ltac:(by left)) as Ht. destruct (task e) as [s|p]; [|exact Ht]. by apply probe_one_bound. }
    specialize (IH ltac:(intros; apply Hok; by right)). apply Z.max_lub; [apply H1|exact IH].
  - assert (length endpoints = length (snd <$> (run_task budget ∘ task <$> endpoints))) as -> by (by rewrite !length_fmap).
    apply rank_lt. by destruct endpoints.
  - intros Hnone. unfold rank. assert (omap tip (snd <$> (run_task budget ∘ task <$> endpoints)) = []) as ->; [|done].
    revert Htips. generalize (snd <$> (run_task budget ∘ task <$> endpoints)). clear Hne Hok.
    induction endpoints as [|e es IH]; intros [|r rs] E; try done. cbn in E. injection E as E1 E2. cbn [omap list_omap].
    rewrite E1, (Hnone e) by left. apply IH; [|done]. intros e' He'. apply Hnone. by right.
Qed.

(** Three servers: one answers with a tip and a hundred blocks, one never, one after the budget. *)
Definition demo_server (delay tip : Z) : Server :=
  mkServer (After delay (Ok tt)) (After 1000000 (Ok tip)) (fun _ _ => After 1000000 (Ok tt))
    (fun _ _ => replicate 100 (After 100000 (Ok (Some 2000))) ++ [After 0 (Ok None)]).
Definition demo_task (e : Endpoint) : Task :=
  if bool_decide (e.(host) = "fast") then Runs (demo_server 50000000 1000)
  else if bool_decide (e.(host) = "late") then Runs (demo_server 1300000000 1000)
  else Runs (mkServer Never Never (fun _ _ => Never) (fun _ _ => [])).
Lemma demo_server_ok delay t : 0 <= delay -> server_ok (demo_server delay t).
Proof.
  intros H. split_and!; [done..|]. intros start end_. split; [done|]. apply Forall_app. split; [by apply Forall_replicate|by repeat constructor].
Qed.
Lemma probe_within_budget_witness :
  let '(results, chosen, elapsed) :=
    probe_endpoints demo_task [mkEndpoint "late" 1 true; mkEndpoint "dead" 1 true; mkEndpoint "fast" 1 true] DEFAULT_PROBE_BUDGET in
  chosen = 2%nat /\ elapsed = DEFAULT_PROBE_BUDGET /\ tip <$> results = [None; None; Some 1000].
Proof.
  pose proof (probe_within_budget demo_task [mkEndpoint "late" 1 true; mkEndpoint "dead" 1 true; mkEndpoint "fast" 1 true]
    DEFAULT_PROBE_BUDGET ltac:(done) ltac:(done)) as H.
  destruct (probe_endpoints _ _ _) as [[results chosen] elapsed] eqn:E. destruct H as (_ & _ & H & _).
  - intros e _. unfold demo_task. repeat case_bool_decide; [by apply demo_server_ok..|]. repeat split; cbn; auto.
  - rewrite H. vm_compute in E. injection E as <- <- <-. repeat split.
Defined.
End Probe.
