(* ===== verification/Throttle.v ===== *)
(** * The bandwidth throttle: [core/src/throttle.rs]

    The token bucket that the proxy's connections share, and the copy of one connection's
    server-to-client direction through it.  Token counts are IEEE binary64.  The readings of the
    cap and of the clock, one pair per turn of the wait loop, are inputs, as are the outcomes of the
    reads and writes; the bucket's lock makes a turn atomic. *)

From S2P Require Export WireDetector Probe.

Module Throttle.
Import WireDetector.

Definition UNCAPPED : Z := u64_max.
Definition READ_BUF : Z := 16 * 1024.
Record BucketState := mkBucket { tokens : float; last : Z }.

(** One turn of [consume]: [None]: the bytes are granted, or the seconds to sleep. *)
Definition turn (n cap now : Z) (s : BucketState) : BucketState * option float :=
  if cap =? UNCAPPED then (s, None)
  else
    let cap := u64_as_f64 (Z.max cap 1) in
    let t := fmin (s.(tokens) + Probe.as_secs_f64 (sat_sub now s.(last)) * cap)%float cap in
    if (u64_as_f64 n <=? t)%float then (mkBucket (t - u64_as_f64 n)%float now, None)
    else (mkBucket t now, Some (fmin ((u64_as_f64 n - t) / cap) 0.05)%float).

(** [TokenBucket::consume], over the readings of its turns: the sleeps made, and whether it
    returned; [false]: the readings ran out in the loop. *)
Fixpoint consume (n : Z) (readings : list (Z * Z)) (s : BucketState) : BucketState * list float * bool :=
  match readings with
  | [] => (s, [], false)
  | (cap, now) :: readings' =>
    match turn n cap now s with
    | (s', None) => (s', [], true)
    | (s', Some wait) => let '(s'', waits, done) := consume n readings' s' in (s'', wait :: waits, done)
    end
  end.

(** The server-to-client copy of [proxy_connection]: what is written to the client. *)
Inductive ReadEnd := ReadBytes (bytes : list Byte.byte) | ReadEof | ReadError.
Fixpoint pump (reads : list (ReadEnd * list (Z * Z) * bool)) (s : BucketState) : BucketState * list (list Byte.byte) :=
  match reads with
  | [] => (s, [])
  | (ReadBytes bytes, readings, write_ok) :: reads' =>
    match consume (Z.of_nat (length bytes)) readings s with
    | (s', _, false) => (s', [])
    | (s', _, true) => if write_ok : bool then let '(s'', out) := pump reads' s' in (s'', bytes :: out) else (s', [])
    end
  | (_, _, _) :: _ => (s, [])
  end.

(** ** Floats compare as a total order *)

Lemma SF_lt_cycle x y z : SFcompare x y = Some Lt -> SFcompare y z = Some Lt -> SFcompare z x = Some Lt \/ SFcompare z x = Some Eq -> False.
Proof.
  destruct x as [[]|[]| |[] mx ex], y as [[]|[]| |[] my ey], z as [[]|[]| |[] mz ez]; cbn; try (by intros; naive_solver).
  all: destruct (Z.compare_spec ex ey), (Z.compare_spec ey ez), (Z.compare_spec ez ex); try lia; try (by intros; naive_solver).
  all: change (Pos.compare_cont Eq mx my) with (mx ?= my)%positive; change (Pos.compare_cont Eq my mz) with (my ?= mz)%positive;
    change (Pos.compare_cont Eq mz mx) with (mz ?= mx)%positive.
  all: destruct (Pos.compare_spec mx my), (Pos.compare_spec my mz), (Pos.compare_spec mz mx); cbn; try lia; naive_solver.
Qed.
Lemma ltb_SF x y : (x <? y)%float = true <-> SFcompare (Prim2SF x) (Prim2SF y) = Some Lt.
Proof. rewrite ltb_spec. unfold SFltb. destruct (SFcompare _ _) as [[]|]; naive_solver. Qed.
Lemma leb_SF x y : (x <=? y)%float = true <-> SFcompare (Prim2SF x) (Prim2SF y) = Some Lt \/ SFcompare (Prim2SF x) (Prim2SF y) = Some Eq.
Proof. rewrite leb_spec. unfold SFleb. destruct (SFcompare _ _) as [[]|]; naive_solver. Qed.
Lemma lt_not_le x y : (x <? y)%float = true -> (y <=? x)%float = false.
Proof.
  intros Hxy%ltb_SF. apply not_true_is_false. intros Hyx%leb_SF. revert Hxy Hyx. generalize (Prim2SF x) as a, (Prim2SF y) as b.
  intros [[]|[]| |[] ma ea] [[]|[]| |[] mb eb]; cbn; try (by intros; naive_solver).
  all: destruct (Z.compare_spec ea eb), (Z.compare_spec eb ea); try lia; try (by intros; naive_solver).
  all: change (Pos.compare_cont Eq ma mb) with (ma ?= mb)%positive; change (Pos.compare_cont Eq mb ma) with (mb ?= ma)%positive.
  all: destruct (Pos.compare_spec ma mb), (Pos.compare_spec mb ma); cbn; try lia; naive_solver.
Qed.
Lemma lt_nan x y : (x <? y)%float = true -> is_nan x = false.
Proof.
  intros Hlt. unfold is_nan. apply ltb_SF in Hlt. rewrite FloatAxioms.eqb_spec. unfold SFeqb. revert Hlt.
  destruct (Prim2SF x) as [[]|[]| |[] m e]; cbn; try done; intros _; rewrite Z.compare_refl, Pos.compare_cont_refl; done.
Qed.

(** A refill never leaves more than the cap. *)
Lemma refill_capped a cap n : (cap <? n)%float = true -> (n <=? fmin a cap)%float = false.
Proof.
  intros Hc. pose proof (lt_not_le _ _ Hc) as Hn. unfold fmin. rewrite (lt_nan _ _ Hc).
  destruct (is_nan a); [done|]. destruct (a <? cap)%float eqn:Ha; [|done].
  apply not_true_is_false. intros Hle. apply ltb_SF in Ha, Hc. apply leb_SF in Hle. by eapply SF_lt_cycle.
Qed.

(** ** The bucket *)

(** A cap below the size of a read starves the connection: the bucket never holds more than one
    second's worth of the cap, so while the cap stays below the [n] bytes asked for, no number of
    turns, however long apart, grants them. *)
Theorem small_cap_starves n readings s :
  Forall (fun r => r.1 <> UNCAPPED /\ (u64_as_f64 (Z.max r.1 1) <? u64_as_f64 n)%float = true) readings ->
  (consume n readings s).2 = false /\ length (consume n readings s).1.2 = length readings.
Proof.
  revert s. induction readings as [|[cap now] rs IH]; intros s H; [done|]. apply Forall_cons in H as [[Hu Hc] H].
  cbn [consume]. unfold turn. cbn [fst] in Hu, Hc. rewrite (proj2 (Z.eqb_neq _ _) Hu). cbv zeta.
  rewrite refill_capped by done. match goal with |- context [consume n rs ?s'] => destruct (IH s' H) as [H1 H2]; destruct (consume n rs s') as [[s2 ws] b] end.
  cbn in *. split; [done|by rewrite H2].
Qed.
(** The smallest cap the tool takes, one kilobyte per second, against a full read. *)
Lemma small_cap_starves_witness :
  (consume READ_BUF (replicate 1000 (1024, 10 ^ 12)) (mkBucket 0 0)).2 = false.
Proof.
  apply (small_cap_starves READ_BUF (replicate 1000 (1024, 10 ^ 12)) (mkBucket 0 0)).
  apply Forall_replicate. split; [discriminate|vm_compute; reflexivity].
Defined.
(** At or above a read's size it goes through after one second. *)
Example full_cap_grants : (consume READ_BUF [(16384, 0); (16384, 10 ^ 9)] (mkBucket 0 0)).2 = true.
Proof. vm_compute. reflexivity. Qed.

(** What reaches the client is what the server sent, in order, without a gap. *)
Lemma pump_prefix reads : forall s, (pump reads s).2 `prefix_of` omap (fun r => match r.1.1 with ReadBytes b => Some b | _ => None end) reads.
Proof.
  induction reads as [|[[[b| |] rs] ok] reads IH]; intros s; cbn [pump]; try apply prefix_nil.
  cbn [omap list_omap fst]. destruct (consume _ rs s) as [[s1 ws] []]; [|apply prefix_nil]. destruct ok; [|apply prefix_nil].
  specialize (IH s1). destruct (pump reads s1) as [s2 out]. by apply prefix_cons.
Qed.
End Throttle.
