(* ===== verification/PassReport.v ===== *)
(** * What a pass reports: [lane_stats] of [core/src/persist.rs], [wire_mbps_avg] of
    [core/src/report.rs] and the census block of [core/src/census.rs]

    The commits of a process add their timings to ten counters that only grow; a pass takes them
    when it starts and when it ends and reports the difference. *)

From S2P Require Export Census Probe.

Module PassReport.
Import WireDetector.

(** ** The persistence counters *)

(** [lane_stats::Totals]; the arguments of [lane_stats::record], in its order. *)
Record LaneTotals := mkLaneTotals {
  calls : Z; rows_ms : Z; tree_join_ms : Z; flush_ms : Z; downgrade_ms : Z;
  build_ms : Z; frontier_ms : Z; insert_ms : Z; ensure_ms : Z; downgraded : Z;
}.
Record Sample := mkSample {
  s_rows_ms : Z; s_tree_join_ms : Z; s_flush_ms : Z; s_downgraded : Z; s_downgrade_ms : Z;
  s_build_ms : Z; s_frontier_ms : Z; s_insert_ms : Z; s_ensure_ms : Z;
}.
Definition lane_zero : LaneTotals := mkLaneTotals 0 0 0 0 0 0 0 0 0 0.

(** [lane_stats::record]: [fetch_add] on each counter, which wraps. *)
Definition lane_record (s : Sample) (t : LaneTotals) : LaneTotals :=
  mkLaneTotals (u64_add t.(calls) 1) (u64_add t.(rows_ms) s.(s_rows_ms)) (u64_add t.(tree_join_ms) s.(s_tree_join_ms))
    (u64_add t.(flush_ms) s.(s_flush_ms)) (u64_add t.(downgrade_ms) s.(s_downgrade_ms))
    (u64_add t.(build_ms) s.(s_build_ms)) (u64_add t.(frontier_ms) s.(s_frontier_ms))
    (u64_add t.(insert_ms) s.(s_insert_ms)) (u64_add t.(ensure_ms) s.(s_ensure_ms))
    (u64_add t.(downgraded) s.(s_downgraded)).

(** [Totals::delta_since]. *)
Definition lane_delta (t start : LaneTotals) : LaneTotals :=
  mkLaneTotals (sat_sub t.(calls) start.(calls)) (sat_sub t.(rows_ms) start.(rows_ms))
    (sat_sub t.(tree_join_ms) start.(tree_join_ms)) (sat_sub t.(flush_ms) start.(flush_ms))
    (sat_sub t.(downgrade_ms) start.(downgrade_ms)) (sat_sub t.(build_ms) start.(build_ms))
    (sat_sub t.(frontier_ms) start.(frontier_ms)) (sat_sub t.(insert_ms) start.(insert_ms))
    (sat_sub t.(ensure_ms) start.(ensure_ms)) (sat_sub t.(downgraded) start.(downgraded)).

(** ** The pass's figures *)

(** [wire_mbps_avg]: bytes and fetch time, in nanoseconds. *)
Definition wire_mbps_avg (wire_bytes fetch_elapsed : Z) : float :=
  let fetch_s := Probe.as_secs_f64 fetch_elapsed in
  if (0 <? fetch_s)%float then (u64_as_f64 wire_bytes / (1024 * 1024) / fetch_s)%float else 0%float.

(** [struct PoolCensusOut] and its conversion from a census. *)
Record PoolCensusOut := mkPoolOut { out_shards : Z; out_noted_shards : Z; out_commitments : Z; out_graftable : float }.
Definition pool_census_out (c : Census.ShardCensus) : PoolCensusOut :=
  let '(part, whole) := Census.graftable_fraction c in
  mkPoolOut (Census.shards c) (Census.noted_shards c) c.(Census.commitments) (u64_as_f64 part / u64_as_f64 whole)%float.

(** ** A pass reports its own commits *)

(** What the counters hold of [s], and what a list of samples adds to each. *)
Definition sample_totals (s : Sample) : LaneTotals :=
  mkLaneTotals 1 s.(s_rows_ms) s.(s_tree_join_ms) s.(s_flush_ms) s.(s_downgrade_ms) s.(s_build_ms) s.(s_frontier_ms)
    s.(s_insert_ms) s.(s_ensure_ms) s.(s_downgraded).
Definition lane_fields : list (LaneTotals -> Z) :=
  [calls; rows_ms; tree_join_ms; flush_ms; downgrade_ms; build_ms; frontier_ms; insert_ms; ensure_ms; downgraded].
Definition added (f : LaneTotals -> Z) (ss : list Sample) : Z := foldr (fun s n => f (sample_totals s) + n) 0 ss.

Lemma record_adds f s t : f ∈ lane_fields -> f (lane_record s t) = u64_add (f t) (f (sample_totals s)).
Proof. intros Hf. repeat (apply elem_of_cons in Hf as [->|Hf]; [reflexivity|]). by apply elem_of_nil in Hf. Qed.
Lemma delta_subs f t u : f ∈ lane_fields -> f (lane_delta t u) = sat_sub (f t) (f u).
Proof. intros Hf. repeat (apply elem_of_cons in Hf as [->|Hf]; [reflexivity|]). by apply elem_of_nil in Hf. Qed.

Lemma records_add f ss t : f ∈ lane_fields -> 0 <= f t -> f t + added f ss <= u64_max ->
  Forall (fun s => 0 <= f (sample_totals s)) ss ->
  f (foldl (fun t s => lane_record s t) t ss) = f t + added f ss.
Proof.
  intros Hf. revert t. induction ss as [|s ss IH]; intros t Ht Hm Hs; cbn [foldl added foldr] in *; [lia|].
  apply Forall_cons in Hs as [H1 H2]. fold (added f ss) in *.
  assert (0 <= added f ss) as Hn by (clear -H2; induction H2; cbn; [lia|]; fold (added f l); lia).
  assert (u64_add (f t) (f (sample_totals s)) = f t + f (sample_totals s)) as E by (unfold u64_add; apply wrap64_small; split; lia).
  rewrite IH; rewrite ?(record_adds f), ?E by done; try lia. done.
Qed.

(** Each counter of a pass's report is the sum over the commits between its two readings, whatever
    earlier passes of the process left in the counters, as long as the counter has not wrapped. *)
Theorem pass_reports_own_commits f before during : f ∈ lane_fields ->
  Forall (fun s => 0 <= f (sample_totals s)) (before ++ during) -> added f (before ++ during) <= u64_max ->
  let start := foldl (fun t s => lane_record s t) lane_zero before in
  f (lane_delta (foldl (fun t s => lane_record s t) start during) start) = added f during.
Proof.
  intros Hf Hs Hm start. apply Forall_app in Hs as [H1 H2].
  assert (f lane_zero = 0) as Z0 by (repeat (apply elem_of_cons in Hf as [->|Hf]; [reflexivity|]); by apply elem_of_nil in Hf).
  assert (added f (before ++ during) = added f before + added f during) as Ha.
  { clear. induction before as [|s b IH]; [done|]. cbn. fold (added f (b ++ during)) (added f b). rewrite IH. lia. }
  assert (forall l, Forall (fun s => 0 <= f (sample_totals s)) l -> 0 <= added f l) as Hp.
  { intros l Hl. induction Hl; cbn; [lia|]. fold (added f l). lia. }
  pose proof (Hp _ H1). pose proof (Hp _ H2).
  assert (f start = added f before) as Es by (unfold start; rewrite records_add; [lia|done|lia|lia|done]).
  rewrite delta_subs, records_add by (done || lia). unfold sat_sub. lia.
Qed.
Example pass_reports_own_commits_instance :
  let s := mkSample 10 20 5 0 0 15 2 3 1 in
  rows_ms (lane_delta (lane_record s (lane_record s lane_zero)) (lane_record s lane_zero)) = 10 /\
  wire_mbps_avg 2097152 2000000000 = 1%float.
Proof. by vm_compute. Qed.
End PassReport.
