(* ===== verification/Connector.v ===== *)
(** * Connections: [core/src/connector.rs], [connect] of [core/src/grpc.rs]

    Which calls go over Tor, the bounded retries of both ways to connect, and the
    connection opened on first use.

    What a dial or a circuit build meets is an input; the errors of the transport
    library are its texts.  A client is the channel it talks over. *)

From S2P Require Export Config.
Import Config.

Module Connector.

(** ** The Tor policy *)

Inductive ConnPurpose := BulkFetch | MetadataUnique | MetadataDefault.
Inductive TorMode := Isolated | DefaultCircuit.
#[export] Instance tor_mode_eq_dec : EqDecision TorMode.
Proof. solve_decision. Defined.

(** [tor_mode]: [None] is direct. *)
Definition tor_mode (p : ConnPurpose) : option TorMode :=
  match p with
  | BulkFetch => None
  | MetadataUnique => Some Isolated
  | MetadataDefault => Some DefaultCircuit
  end.

(** What a client talks over: a direct channel, or Tor on a fresh isolated circuit
    or on the client's default one. *)
Inductive LwdClient := Direct | OverTor (mode : TorMode).

(** ** Direct connections *)

(** What one direct dial meets. *)
Record Dial := mkDial { uri_error : option string; tls_error : option string; dial_error : option string }.

(** [grpc::connect]. *)
Definition connect (ep : Endpoint) (d : Dial) : Res LwdClient :=
  match d.(uri_error) with
  | Some e => Err (Transport ("endpoint uri: " +:+ e))
  | None =>
    match (if ep.(tls) then d.(tls_error) else None) with
    | Some e => Err (Transport ("tls config: " +:+ e))
    | None =>
      match d.(dial_error) with
      | Some e => Err (Transport ("connect " +:+ ep.(host) +:+ ": " +:+ e))
      | None => Ok Direct
      end
    end
  end.

Definition DIRECT_CONNECT_ATTEMPTS : Z := 6.

(** Seconds before the next attempt. *)
Definition direct_connect_backoff (attempt : Z) : Z := Z.shiftl 1 (Z.min (sat_sub attempt 1) 4).

(** [retry_transient]: the waits made, and the result; [None]: the tries given are
    used up and it is still retrying. *)
Fixpoint retry_transient {T} (attempts : Z) (backoff : Z -> Z) (attempt : Z) (ops : list (Res T))
  : list Z * option (Res T) :=
  match ops with
  | [] => ([], None)
  | Ok v :: _ => ([], Some (Ok v))
  | Err e :: ops' =>
    if negb (is_transient e) || (attempts <=? attempt) then ([], Some (Err e))
    else let '(waits, res) := retry_transient attempts backoff (attempt + 1) ops' in
         (backoff attempt :: waits, res)
  end.

(** [connect_direct_with_retry]. *)
Definition connect_direct_with_retry (ep : Endpoint) (dials : list Dial) : list Z * option (Res LwdClient) :=
  retry_transient DIRECT_CONNECT_ATTEMPTS direct_connect_backoff 1 (connect ep <$> dials).

(** ** Connections over Tor *)

Definition TOR_CONNECT_ATTEMPTS : nat := 3.

(** How one circuit build and connect ends. *)
Inductive Circuit := Connected | CircuitFailed (e : string) | CircuitTimeout.

(** The loop of [TorConn::connect]; [n]: the attempts left. *)
Fixpoint circuit_loop (n : nat) (mode : TorMode) (last_err : option string) (cs : list Circuit)
  : option (Res LwdClient) :=
  match n with
  | O => Some (Err (Transport (default "tor connect: failed to obtain a circuit" last_err)))
  | S n' =>
    match cs with
    | [] => None
    | Connected :: _ => Some (Ok (OverTor mode))
    | CircuitFailed e :: cs' => circuit_loop n' mode (Some ("tor connect: " +:+ e)) cs'
    | CircuitTimeout :: cs' =>
      circuit_loop n' mode (Some "tor connect: circuit build exceeded 15s") cs'
    end
  end.

(** [TorConn::connect]. *)
Definition tor_connect (mode : TorMode) (bad_uri : option string) (cs : list Circuit) : option (Res LwdClient) :=
  match bad_uri with
  | Some e => Some (Err (Config ("bad endpoint uri for tor: " +:+ e)))
  | None => circuit_loop TOR_CONNECT_ATTEMPTS mode None cs
  end.

(** [connect_via]; [tor]: what the Tor client meets, if there is one. *)
Definition connect_via (ep : Endpoint) (tor : option (option string * list Circuit)) (purpose : ConnPurpose)
    (dials : list Dial) : option (Res LwdClient) :=
  match tor, tor_mode purpose with
  | Some (bad_uri, cs), Some mode => tor_connect mode bad_uri cs
  | _, _ => (connect_direct_with_retry ep dials).2
  end.

(** ** Connections opened on first use *)

(** [struct LazyConnection] and [LazyConnection::get]; [connecting]: what a connect
    would give.  The flag says whether it was called. *)
Definition lazy_get {C} (client : option C) (connecting : Res C) : option C * Res C * bool :=
  match client with
  | Some c => (Some c, Ok c, false)
  | None =>
    match connecting with
    | Ok c => (Some c, Ok c, true)
    | Err e => (None, Err e, true)
    end
  end.

(** Uses in a row: what each gave, and whether it connected. *)
Fixpoint lazy_gets {C} (client : option C) (connecting : list (Res C)) : list (Res C * bool) :=
  match connecting with
  | [] => []
  | r :: rs => let '(client', res, called) := lazy_get client r in (res, called) :: lazy_gets client' rs
  end.

(** ** Errors *)

(** A direct connect only ever fails with a transport error. *)
Lemma connect_transport ep d e : connect ep d = Err e -> is_transient e = true.
Proof. unfold connect. repeat case_match; by intros [= <-]. Qed.

Lemma retry_transient_in {T} attempts backoff ops : forall attempt waits (res : Res T),
  retry_transient attempts backoff attempt ops = (waits, Some res) -> res ∈ ops.
Proof.
  induction ops as [|[v|e] ops IH]; intros attempt waits res; simpl; [done|intros [= <- <-]; left|].
  destruct (_ || _); [intros [= <- <-]; left|].
  destruct (retry_transient _ _ _ ops) as [w r] eqn:E. intros [= <- ->]. right. by eapply IH.
Qed.

Lemma direct_connect_transport ep dials waits e :
  connect_direct_with_retry ep dials = (waits, Some (Err e)) -> is_transient e = true.
Proof.
  intros Hc. apply retry_transient_in in Hc. apply list_elem_of_fmap in Hc as (d & Hd & _).
  by eapply connect_transport.
Qed.

(** ** The retries of a direct connect *)

(** From attempt [attempt] on, with every failure transient: the first success within the
    attempts left, or the last failure; a wait after each failure but the last. *)
Lemma retry_transient_spec {T} attempts backoff ops : forall attempt waits (res : option (Res T)),
  (forall e, Err e ∈ ops -> is_transient e = true) -> attempt <= attempts ->
  retry_transient attempts backoff attempt ops = (waits, res) ->
  exists k, waits = backoff <$> seqZ attempt (Z.of_nat k) /\ attempt + Z.of_nat k <= attempts /\
    (forall i r, (i < k)%nat -> ops !! i = Some r -> exists e, r = Err e) /\
    match res with
    | Some (Ok v) => ops !! k = Some (Ok v)
    | Some (Err e) => ops !! k = Some (Err e) /\ attempt + Z.of_nat k = attempts
    | None => length ops = k
    end.
Proof.
  induction ops as [|[v|e] ops IH]; intros attempt waits res Ht Ha; simpl.
  - intros [= <- <-]. exists 0%nat. split_and!; try done; try lia.
  - intros [= <- <-]. exists 0%nat. split_and!; try done; try lia.
  - rewrite (Ht e) by left. simpl. destruct (Z.leb_spec attempts attempt) as [Hle|Hlt].
    { intros [= <- <-]. exists 0%nat. split_and!; try done; try lia. }
    destruct (retry_transient attempts backoff (attempt + 1) ops) as [w r] eqn:E. intros [= <- ->].
    destruct (IH (attempt + 1) w res) as (k & -> & Hk & Hpre & Hres); [|lia|done|].
    { intros e' He'. apply Ht. by right. }
    exists (S k). split; [|split; [lia|split]].
    + rewrite Nat2Z.inj_succ, (seqZ_cons attempt) by lia. csimpl. by rewrite Z.pred_succ.
    + intros [|i] r0 Hi; simpl; [intros [= <-]; eauto|]. apply Hpre. lia.
    + destruct res as [[v|e0]|]; simpl; [done| |lia]. destruct Hres as [? ?]. split; [done|lia].
Qed.

(** A direct connect tries at most six times, waiting 1, 2, 4, 8 and 16 seconds between, so it
    outlives an outage of 31 seconds and no more; it gives the first success, or else the
    sixth failure. *)
Theorem direct_connect_bounded ep dials : (6 <= length dials)%nat ->
  exists k res, connect_direct_with_retry ep dials = (take k [1; 2; 4; 8; 16], Some res) /\ (k <= 5)%nat /\
    (connect ep <$> dials) !! k = Some res /\ (is_ok res = false -> k = 5%nat) /\
    forall i d, (i < k)%nat -> dials !! i = Some d -> is_ok (connect ep d) = false.
Proof.
  intros Hd. unfold connect_direct_with_retry.
  destruct (retry_transient DIRECT_CONNECT_ATTEMPTS direct_connect_backoff 1 (connect ep <$> dials))
    as [waits res] eqn:E.
  apply retry_transient_spec in E as (k & -> & Hk & Hpre & Hres); [| |done].
  2: { intros e (d & Hc & _)%list_elem_of_fmap. by eapply connect_transport. }
  assert (DIRECT_CONNECT_ATTEMPTS = 6) as HA by done.
  destruct res as [res|]; [|rewrite length_fmap in Hres; lia]. exists k, res. split_and!.
  - do 2 f_equal. destruct k as [|[|[|[|[|[|k]]]]]]; [reflexivity..|lia].
  - lia.
  - by destruct res as [v|e]; [|destruct Hres].
  - destruct res as [v|e]; [done|]. intros _. lia.
  - intros i d Hi Hl. destruct (Hpre i (connect ep d) Hi) as [e ->]; [by rewrite list_lookup_fmap, Hl|done].
Qed.

(** ** Tor *)

Lemma circuit_loop_spec mode cs : forall n last_err res, circuit_loop n mode last_err cs = Some res ->
  res = Ok (OverTor mode) \/ exists e, res = Err e /\ is_transient e = true.
Proof.
  induction cs as [|c cs IH]; intros [|n] last_err res; simpl; try done.
  1,2: intros [= <-]; eauto. destruct c; [intros [= <-]; by left|apply IH..].
Qed.

Lemma circuit_loop_ends mode cs : forall n last_err, (n <= length cs)%nat ->
  is_Some (circuit_loop n mode last_err cs).
Proof.
  induction cs as [|c cs IH]; intros [|n] last_err; simpl; try (by eauto); try lia.
  intros Hn. destruct c; [by eauto|apply IH; lia..].
Qed.

(** ** Properties *)

(** C40: Tor is never bypassed: with a Tor client every wallet-identifying call talks over Tor, on a
    fresh isolated circuit where the policy asks for one, or fails; it never falls back to a
    direct connection, and three circuits decide it.  The bulk download and every call without
    a Tor client dial directly, six dials decide them, and what fails there may be retried. *)
Theorem tor_never_bypassed ep tor purpose dials res :
  connect_via ep tor purpose dials = Some res ->
  match tor, tor_mode purpose with
  | Some _, Some mode => res = Ok (OverTor mode) \/ exists e, res = Err e
  | _, _ => res = Ok Direct \/ exists e, res = Err e /\ is_transient e = true
  end /\
  (tor_mode purpose = None <-> purpose = BulkFetch) /\
  (forall u cs, (3 <= length cs)%nat -> purpose <> BulkFetch ->
     is_Some (connect_via ep (Some (u, cs)) purpose dials)) /\
  ((6 <= length dials)%nat -> is_Some (connect_via ep tor BulkFetch dials) /\
     is_Some (connect_via ep None purpose dials)).
Proof.
  intros Hc. split; [|split; [by destruct purpose|split]].
  - unfold connect_via in Hc.
    assert ((connect_direct_with_retry ep dials).2 = Some res ->
      res = Ok Direct \/ exists e, res = Err e /\ is_transient e = true) as Hdir.
    { destruct (connect_direct_with_retry ep dials) as [w r] eqn:E. simpl. intros ->.
      destruct res as [[|m]|e]; [by left| |right; eauto using direct_connect_transport].
      apply retry_transient_in, list_elem_of_fmap in E as (d & Hd & _). exfalso. revert Hd.
      unfold connect. by repeat case_match. }
    destruct tor as [[u cs]|]; [|by apply Hdir]. destruct (tor_mode purpose) as [mode|]; [|by apply Hdir].
    unfold tor_connect in Hc. destruct u; [injection Hc as <-; right; by eexists|].
    destruct (circuit_loop_spec _ _ _ _ _ Hc) as [?|(e & ? & _)]; [by left|right; by exists e].
  - intros u cs Hcs Hp. unfold connect_via, tor_connect.
    destruct purpose; [done|..]; cbn [tor_mode]; destruct u; eauto using circuit_loop_ends.
  - intros Hd. destruct (direct_connect_bounded ep dials Hd) as (k & r & E & _).
    unfold connect_via. rewrite E. split; [by destruct tor as [[]|]|]. simpl. eauto.
Qed.

Lemma tor_never_bypassed_witness :
  connect_via (mkEndpoint "zec.rocks" 443 true) (Some (None, [CircuitTimeout; CircuitFailed "reset"; Connected]))
    MetadataUnique [] = Some (Ok (OverTor Isolated)) /\
  (tor_mode MetadataUnique = None <-> MetadataUnique = BulkFetch).
Proof.
  split; [reflexivity|].
  exact (proj1 (proj2 (tor_never_bypassed (mkEndpoint "zec.rocks" 443 true)
    (Some (None, [CircuitTimeout; CircuitFailed "reset"; Connected])) MetadataUnique []
    (Ok (OverTor Isolated)) eq_refl))).
Defined.

(** A connection is opened at most once: uses connect until the first success, and every use
    after it gives that client without connecting. *)
Lemma lazy_gets_connect_once {C} (rs : list (Res C)) (c : C) :
  lazy_gets (Some c) rs = replicate (length rs) (Ok c, false).
Proof. induction rs as [|r rs IH]; simpl; [done|]. by rewrite IH. Qed.

Theorem lazy_connection_opens_once {C} (rs pre post : list (Res C)) (c : C) :
  rs = pre ++ Ok c :: post -> Forall (fun r => is_ok r = false) pre ->
  lazy_gets None rs = ((fun r => (r, true)) <$> pre) ++ (Ok c, true) :: replicate (length post) (Ok c, false).
Proof.
  intros -> Hpre. induction Hpre as [|r pre Hr _ IH]; simpl; [by rewrite lazy_gets_connect_once|].
  destruct r; [done|]. simpl. by rewrite IH.
Qed.

End Connector.
