(* ===== verification/Grpc.v ===== *)
(** * Calls to the server: [core/src/grpc.rs]

    Deadlines, the collection of a streamed answer, the mapping of statuses to results, the
    retries of a tree state fetch, and the network counters.

    What a call meets is an input: an answer, a status of the RPC library (its code, its
    message and its text), or the deadline. *)

From S2P Require Export Connector.
From Stdlib Require String.
Import Progress Connector.

Module Grpc.
Local Open Scope Z_scope.

Definition UNARY_TIMEOUT : Z := 30.
Definition STREAM_IDLE_TIMEOUT : Z := 30.

(** [tonic::Code], as far as it is looked at, and [tonic::Status]. *)
Inductive Code := NotFound | Unknown | Internal | OtherCode.
#[export] Instance code_eq_dec : EqDecision Code.
Proof. solve_decision. Defined.
Record Status := mkStatus { code : Code; message : string; status_text : string }.

(** What a unary call, or the headers of a streamed one, meets. *)
Inductive Unary (A : Type) := Answered (a : A) | Refused (s : Status) | Elapsed.
Arguments Answered {A} a.
Arguments Refused {A} s.
Arguments Elapsed {A}.

Definition transport_err (context e : string) : SlipstreamError := Transport (context +:+ ": " +:+ e).

(** [with_unary_timeout]. *)
Definition with_unary_timeout {A} (context : string) (u : Unary A) : Res A :=
  match u with
  | Answered a => Ok a
  | Refused s => Err (transport_err context s.(status_text))
  | Elapsed => Err (Transport (context +:+ ": timed out after " +:+ pretty UNARY_TIMEOUT +:+ "s"))
  end.

(** ** Streams *)

(** What each wait for the next message meets; the stream ends after the last. *)
Inductive Item (T : Type) := Message (t : T) | ErrorItem (s : Status) | Idle.
Arguments Message {T} t.
Arguments ErrorItem {T} s.
Arguments Idle {T}.

(** [next_with_idle_timeout]: the item, and the rest of the stream. *)
Definition next_with_idle_timeout {T} (context : string) (stream : list (Item T)) : Res (option (result Status T * list (Item T))) :=
  match stream with
  | [] => Ok None
  | Message t :: rest => Ok (Some (Ok t, rest))
  | ErrorItem s :: rest => Ok (Some (Err s, rest))
  | Idle :: _ => Err (Transport (context +:+ ": stream idle timeout (" +:+ pretty STREAM_IDLE_TIMEOUT +:+ "s without a message)"))
  end.

Section Collect.
Context (clock : nat -> Z).

(** Where the liveness stamps go; [ticks] numbers the clock's readings. *)
Record Stamps := mkStamps { stamped : option Progress; ticks : nat }.
Definition stamp (st : Stamps) : Stamps :=
  match st.(stamped) with
  | Some p => mkStamps (Some (touch (clock st.(ticks)) p)) (S st.(ticks))
  | None => st
  end.

(** [collect_stream]; [fuel]: the turns of its loop, one more than the stream's items. *)
Fixpoint collect_loop {T U} (fuel : nat) (context stream_label : string) (f : T -> Res U) (stream : list (Item T)) (collected : list U) (st : Stamps)
    : Stamps * Res (list U) :=
  match fuel with
  | O => (st, Ok collected)
  | S fuel' =>
    match next_with_idle_timeout context stream with
    | Err e => (st, Err e)
    | Ok None => (st, Ok collected)
    | Ok (Some (Err s, _)) => (st, Err (Transport (stream_label +:+ ": " +:+ s.(status_text))))
    | Ok (Some (Ok t, rest)) =>
      let st := stamp st in
      match f t with
      | Err e => (st, Err e)
      | Ok u => collect_loop fuel' context stream_label f rest (collected ++ [u]) st
      end
    end
  end.
Definition collect_stream {T U} (context stream_label : string) (f : T -> Res U) (stream : list (Item T)) (st : Stamps) : Stamps * Res (list U) :=
  collect_loop (S (length stream)) context stream_label f stream [] st.

(** A streamed call: the headers, then the messages. *)
Definition streamed {T U} (context stream_label : string) (f : T -> Res U) (call : Unary (list (Item T))) (st : Stamps) : Stamps * Res (list U) :=
  match with_unary_timeout context call with
  | Err e => (st, Err e)
  | Ok stream => collect_stream context stream_label f stream st
  end.

(** [get_taddress_txids] and [get_address_utxos]. *)
Definition get_taddress_txids {T} (call : Unary (list (Item T))) : Stamps -> Stamps * Res (list T) :=
  streamed "get_taddress_txids" "taddress txid stream" Ok call.
Definition get_address_utxos {T} (call : Unary (list (Item T))) : Stamps -> Stamps * Res (list T) :=
  streamed "get_address_utxos" "utxo stream" Ok call.

(** ** Subtree roots *)

Record SubtreeRoot := mkRoot { root_hash : list Byte.byte; completing_block_height : Z }.
Record SubtreeRootStart := mkStart { sapling : Z; orchard : Z; ironwood : Z }.
Definition start_default : SubtreeRootStart := mkStart 0 0 0.
Record SubtreeRoots (Hs Ho : Type) := mkRoots { roots_sapling : list (Z * Hs); roots_orchard : list (Z * Ho); roots_ironwood : list (Z * Ho) }.
#[global] Arguments mkRoots {Hs Ho}.
#[global] Arguments roots_sapling {Hs Ho}.
#[global] Arguments roots_orchard {Hs Ho}.
#[global] Arguments roots_ironwood {Hs Ho}.

(** One root; [as u32] keeps the low 32 bits of the height. *)
Definition read_root {H} (hash_read : list Byte.byte -> result string H) (label : string) (r : SubtreeRoot) : Res (Z * H) :=
  match hash_read r.(root_hash) with
  | Err e => Err (Transport (label +:+ " root: " +:+ e))
  | Ok node => Ok (r.(completing_block_height) mod 2 ^ 32, node)
  end.

(** [collect_subtree_roots]; [answer]: what the server answers to a request from an index. *)
Definition collect_subtree_roots {H} (hash_read : list Byte.byte -> result string H) (answer : Z -> Unary (list (Item SubtreeRoot)))
    (start_index : Z) (label : string) (st : Stamps) : Stamps * Res (list (Z * H)) :=
  match u32_try_from start_index with
  | None => (st, Err (Wallet (label +:+ " subtree index " +:+ pretty start_index +:+ " exceeds u32")))
  | Some i =>
    streamed ("get_subtree_roots(" +:+ label +:+ " from " +:+ pretty start_index +:+ ")") "subtree root stream"
      (read_root hash_read label) (answer i) st
  end.

(** [get_subtree_roots_from], [get_subtree_roots]. *)
Definition get_subtree_roots_from {Hs Ho} (read_s : list Byte.byte -> result string Hs) (read_o : list Byte.byte -> result string Ho)
    (ans_s ans_o ans_i : Z -> Unary (list (Item SubtreeRoot))) (start : SubtreeRootStart) (st : Stamps) : Stamps * Res (SubtreeRoots Hs Ho) :=
  match collect_subtree_roots read_s ans_s start.(sapling) "sapling" st with
  | (st, Err e) => (st, Err e)
  | (st, Ok rs) =>
    match collect_subtree_roots read_o ans_o start.(orchard) "orchard" st with
    | (st, Err e) => (st, Err e)
    | (st, Ok ro) =>
      match collect_subtree_roots read_o ans_i start.(ironwood) "ironwood" st with
      | (st, Err e) => (st, Err e)
      | (st, Ok ri) => (st, Ok (mkRoots rs ro ri))
      end
    end
  end.
Definition get_subtree_roots {Hs Ho} (read_s : list Byte.byte -> result string Hs) (read_o : list Byte.byte -> result string Ho)
    (ans_s ans_o ans_i : Z -> Unary (list (Item SubtreeRoot))) (st : Stamps) : Stamps * Res (SubtreeRoots Hs Ho) :=
  get_subtree_roots_from read_s read_o ans_s ans_o ans_i start_default st.

(** ** Tree states *)

Definition TREESTATE_RETRY_MAX : Z := 2.
(** Seconds. *)
Definition treestate_retry_backoff (attempt : Z) : Z := if attempt =? 1 then 1 else 3.

(** [retry_get_tree_state]: the waits made, the stamps and the result; [tries]: per attempt,
    what the connect gave and what the call met.  [None]: the tries given are used up. *)
Fixpoint retry_get_tree_state {A} (attempt : Z) (tries : list (Res LwdClient * Unary A)) (st : Stamps) : list Z * Stamps * option (Res A) :=
  match tries with
  | [] => ([], st, None)
  | (connected, call) :: tries' =>
    match connected with
    | Err e => ([], st, Some (Err e))
    | Ok _ =>
      match with_unary_timeout "get_tree_state" call with
      | Ok ts => ([], stamp st, Some (Ok ts))
      | Err e =>
        if is_transient e && (attempt <? TREESTATE_RETRY_MAX) then
          let attempt := attempt + 1 in
          let '(waits, st, r) := retry_get_tree_state attempt tries' st in
          (treestate_retry_backoff attempt :: waits, st, r)
        else ([], st, Some (Err e))
      end
    end
  end.
End Collect.

(** ** Transactions *)

(** [str::to_lowercase] on ASCII text, [str::contains]. *)
Definition lower (c : Ascii.ascii) : Ascii.ascii :=
  let n := Ascii.nat_of_ascii c in if (65 <=? n)%nat && (n <=? 90)%nat then Ascii.ascii_of_nat (n + 32) else c.
Fixpoint to_lowercase (s : string) : string :=
  match s with EmptyString => EmptyString | String c s' => String (lower c) (to_lowercase s') end.
Definition contains (s pat : string) : bool := match String.index 0 pat s with Some _ => true | None => false end.

(** [get_transaction]. *)
Definition says_not_found (s : Status) : bool :=
  bool_decide (s.(code) = NotFound) ||
  ((bool_decide (s.(code) = Unknown) || bool_decide (s.(code) = Internal)) &&
   (contains (to_lowercase s.(message)) "not found" || contains (to_lowercase s.(message)) "no such transaction")).
Definition get_transaction {A} (call : Unary A) : Res (option A) :=
  match call with
  | Elapsed => Err (Transport ("get_transaction: timed out after " +:+ pretty UNARY_TIMEOUT +:+ "s"))
  | Answered a => Ok (Some a)
  | Refused s => if says_not_found s then Ok None else Err (transport_err "get_transaction" s.(status_text))
  end.

(** [open_mempool_stream], which has no deadline of its own. *)
Definition open_mempool_stream {A} (call : result Status A) : Res A :=
  match call with Ok a => Ok a | Err s => Err (Transport ("get_mempool_stream: " +:+ s.(status_text))) end.

(** ** Counters *)

(** [net_stats]. *)
Inductive NetEvent := DirectChannel | TorChannel | GetLatestBlock | GetSubtreeRoots | GetBlockRange | GetTreeState
  | GetAddressUtxos | GetTaddressTxids | GetTransaction | GetMempoolStream.
#[export] Instance net_event_eq_dec : EqDecision NetEvent.
Proof. solve_decision. Defined.
Record Totals := mkTotals {
  direct_channels : Z; tor_channels : Z; get_latest_block : Z; n_subtree_roots : Z; get_block_range : Z;
  n_tree_state : Z; n_address_utxos : Z; n_taddress_txids : Z; n_transaction : Z; get_mempool_stream : Z;
}.
Definition of_counts (f : NetEvent -> Z) : Totals :=
  mkTotals (f DirectChannel) (f TorChannel) (f GetLatestBlock) (f GetSubtreeRoots) (f GetBlockRange)
    (f GetTreeState) (f GetAddressUtxos) (f GetTaddressTxids) (f GetTransaction) (f GetMempoolStream).
Definition counter (t : Totals) (e : NetEvent) : Z :=
  match e with
  | DirectChannel => t.(direct_channels) | TorChannel => t.(tor_channels) | GetLatestBlock => t.(get_latest_block)
  | GetSubtreeRoots => t.(n_subtree_roots) | GetBlockRange => t.(get_block_range) | GetTreeState => t.(n_tree_state)
  | GetAddressUtxos => t.(n_address_utxos) | GetTaddressTxids => t.(n_taddress_txids) | GetTransaction => t.(n_transaction)
  | GetMempoolStream => t.(get_mempool_stream)
  end.
Definition record (e : NetEvent) (t : Totals) : Totals :=
  of_counts (fun e' => if decide (e' = e) then u64_add (counter t e') 1 else counter t e').
Definition channels (t : Totals) : Z := sat_add64 t.(direct_channels) t.(tor_channels).
Definition delta_since (t start : Totals) : Totals := of_counts (fun e => sat_sub (counter t e) (counter start e)).

(** ** Unary calls *)

(** [get_lightd_info], [send_transaction], [get_latest_block_height], [get_tree_state]: the request
    each makes and the count it leaves. *)
Definition get_lightd_info {A} (call : Unary A) : Res A := with_unary_timeout "get_lightd_info" call.
Record RawTransaction := mkRaw { raw_data : list Byte.byte; raw_height : Z }.
Record SendResponse := mkSendResponse { error_code : Z; error_message : string }.
Definition send_transaction (call : RawTransaction -> Unary SendResponse) (tx_bytes : list Byte.byte) : Res (Z * string) :=
  let? resp := with_unary_timeout "send_transaction" (call (mkRaw tx_bytes 0)) in
  Ok (resp.(error_code), resp.(error_message)).
Definition get_latest_block_height (call : Unary Z) (t : Totals) : Totals * Res Z :=
  (record GetLatestBlock t, with_unary_timeout "get_latest_block" call).
Definition get_tree_state {A} (call : Z -> Unary A) (height : Z) (t : Totals) : Totals * Res A :=
  (record GetTreeState t, with_unary_timeout "get_tree_state" (call height)).

(** A unary call that fails fails transiently: the session retries it. *)
Lemma unary_error_transient {A} context (u : Unary A) e : with_unary_timeout context u = Err e -> is_transient e = true.
Proof. destruct u; cbn; intros [= <-]; done. Qed.

(** ** Streams: all or an error *)

Section Spec.
Context (clock : nat -> Z).

Lemma collect_loop_spec {T U} ctx label (f : T -> Res U) stream : forall fuel acc st st' r, (length stream < fuel)%nat ->
  collect_loop clock fuel ctx label f stream acc st = (st', r) ->
  exists ts, st' = Nat.iter (length ts) (stamp clock) st /\
    match r with
    | Ok us => stream = Message <$> ts /\ exists new, us = acc ++ new /\ Forall2 (fun t u => f t = Ok u) ts new
    | Err _ => (Message <$> ts) `prefix_of` stream
    end.
Proof.
  induction stream as [|[t|s|] stream IH]; intros [|fuel] acc st st' r Hf; cbn [length collect_loop next_with_idle_timeout] in *; try lia.
  - intros [= <- <-]. exists []. split; [done|]. split; [done|]. exists []. by rewrite app_nil_r.
  - destruct (f t) as [u|e] eqn:Ef.
    + intros E. apply IH in E as (ts & -> & Hr); [|lia]. exists (t :: ts). split; [cbn [length]; by rewrite Nat.iter_succ_r|].
      destruct r as [us|]; [|by apply prefix_cons]. destruct Hr as (-> & new & -> & Hall). split; [done|].
      exists (u :: new). rewrite <-app_assoc. split; [done|]. by constructor.
    + intros [= <- <-]. exists [t]. split; [done|]. apply (prefix_app_r [Message t] [Message t] stream). done.
  - intros [= <- <-]. exists []. split; [done|]. apply prefix_nil.
  - intros [= <- <-]. exists []. split; [done|]. apply prefix_nil.
Qed.

(** A streamed answer is complete or an error: what is returned is every message of a stream
    that ended cleanly, in order, each accepted; each message that arrived was stamped, also
    on the way to an error. *)
Theorem collect_all_or_error {T U} ctx label (f : T -> Res U) stream st st' r :
  collect_stream clock ctx label f stream st = (st', r) ->
  exists ts, st' = Nat.iter (length ts) (stamp clock) st /\
    match r with
    | Ok us => stream = Message <$> ts /\ Forall2 (fun t u => f t = Ok u) ts us
    | Err _ => (Message <$> ts) `prefix_of` stream
    end.
Proof.
  intros E. apply collect_loop_spec in E as (ts & Hst & Hr); [|lia]. exists ts. split; [done|].
  destruct r; [|done]. destruct Hr as (Hs & new & -> & Hall). done.
Qed.

(** The [i]-th root of a pool's answer, from [start] on, is read from the [i]-th message; a start
    that does not fit the request's field is refused without a call. *)
Theorem subtree_roots_in_order {H} (hash_read : list Byte.byte -> result string H) answer start label st st' rs :
  collect_subtree_roots clock hash_read answer start label st = (st', Ok rs) ->
  start <= u32_max /\ exists ms, answer start = Answered (Message <$> ms) /\
    Forall2 (fun m r => r.1 = m.(completing_block_height) mod 2 ^ 32 /\ hash_read m.(root_hash) = Ok r.2) ms rs.
Proof.
  unfold collect_subtree_roots, u32_try_from. destruct (Z.leb_spec start u32_max) as [Hle|]; [|done].
  unfold streamed. destruct (answer start) as [stream| |]; [|done|done]. cbn [with_unary_timeout]. intros E.
  apply collect_all_or_error in E as (ts & _ & -> & Hall). split; [done|]. exists ts. split; [done|].
  eapply Forall2_impl; [exact Hall|]. intros m [h n]. unfold read_root. destruct (hash_read m.(root_hash)); [|done]. by intros [= <- <-].
Qed.

(** ** Tree states *)

(** A tree state fetch makes at most three calls, waiting one and then three seconds between; it
    gives the first answer, or the error of the call it stopped at. *)
Theorem treestate_retry_bounded {A} (tries : list (Res LwdClient * Unary A)) st : (3 <= length tries)%nat ->
  Forall (fun t => is_ok t.1 = true) tries ->
  exists k res st', retry_get_tree_state clock 0 tries st = (take k [1; 3], st', Some res) /\ (k <= 2)%nat /\
    ((fun t => with_unary_timeout "get_tree_state" t.2) <$> tries) !! k = Some res /\ (is_ok res = false -> k = 2%nat).
Proof.
  assert (forall (t : Unary A) e, with_unary_timeout "get_tree_state" t = Err e -> is_transient e = true) as Htr.
  { intros [] e; cbn; by intros [= <-]. }
  intros Hl Hc. destruct tries as [|[[c1|] u1] [|[[c2|] u2] [|[[c3|] u3] tries]]]; cbn -[with_unary_timeout] in Hl; try lia;
    repeat match goal with H : Forall _ (_ :: _) |- _ => apply Forall_cons in H as [? H] end; cbn -[with_unary_timeout] in *; try done.
  destruct (with_unary_timeout "get_tree_state" u1) as [a|e1] eqn:E1; [exists 0%nat; eexists _, _; cbn -[with_unary_timeout]; split_and!; [done|lia|done|done]|].
  rewrite (Htr _ _ E1). cbn -[with_unary_timeout]. destruct (with_unary_timeout "get_tree_state" u2) as [a|e2] eqn:E2; [exists 1%nat; eexists _, _; cbn -[with_unary_timeout]; split_and!; [done|lia|done|done]|].
  rewrite (Htr _ _ E2). cbn -[with_unary_timeout]. exists 2%nat. destruct (with_unary_timeout "get_tree_state" u3) as [a|e3] eqn:E3.
  - eexists _, _. cbn -[with_unary_timeout]. split_and!; [done|lia|done|done].
  - rewrite (Htr _ _ E3). cbn -[with_unary_timeout]. eexists _, _. split_and!; [done|lia|done|done].
Qed.
End Spec.

(** ** Counters *)

Definition recorded (es : list NetEvent) (t : Totals) : Totals := foldl (fun t e => record e t) t es.
Definition times (e : NetEvent) (es : list NetEvent) : Z := Z.of_nat (length (filter (fun x => x = e) es)).

Lemma counter_of_counts f e : counter (of_counts f) e = f e.
Proof. by destruct e. Qed.

(** A pass's delta is the number of events of each kind during it, as long as no counter wraps. *)
Theorem delta_counts_pass es t e : (forall e, 0 <= counter t e /\ counter t e + Z.of_nat (length es) <= u64_max) ->
  counter (delta_since (recorded es t) t) e = times e es.
Proof.
  intros Ht. unfold delta_since. rewrite counter_of_counts. cut (counter (recorded es t) e = counter t e + times e es).
  { intros ->. unfold sat_sub, times. lia. }
  revert t Ht. induction es as [|x es IH]; intros t Ht; [unfold times; cbn; lia|]. change (recorded (x :: es) t) with (recorded es (record x t)).
  assert (forall y, counter (record x t) y = counter t y + if decide (y = x) then 1 else 0) as Hr.
  { intros y. unfold record. rewrite counter_of_counts. destruct (decide (y = x)) as [->|]; [|lia].
    rewrite u64_add_small; [done|]. pose proof (Ht x) as [? Hx]. cbn [length] in Hx. unfold is_u64, u64_max in *. lia. }
  rewrite IH.
  - rewrite Hr. unfold times. rewrite filter_cons. destruct (decide (e = x)), (decide (x = e)); try congruence; cbn [length]; lia.
  - intros y. rewrite Hr. pose proof (Ht y). cbn [length] in *. destruct (decide (y = x)); lia.
Qed.

Example lightwalletd_not_found : get_transaction (A := unit) (Refused (mkStatus Unknown "Transaction Not Found" "")) = Ok None.
Proof. reflexivity. Qed.
End Grpc.
