(* ===== verification/Oracle.v ===== *)
(** * The database oracle: [semantic_diff] of [core/src/oracle.rs]

    Compares two wallet databases table by table, each row by a canonical text, as multisets; in
    three tables only the rows of a window of heights below the highest one.  A database is a map
    from table names to columns and rows.  A statement can fail; the fault is an input.

    Text is given as the program decodes it.  How a REAL prints ([debug_f64]), what a quoted name
    that is no column reads as ([quoted]: its own text in a default SQLite, or nothing) and the
    wallet library's retention are arguments. *)

From Stdlib Require Import Permutation Ascii.
From S2P Require Export Errors.
From S2P Require Import Grpc.

Module Oracle.

Inductive Value := VNull | VInteger (i : Z) | VReal (r : float) | VText (t : string) | VBlob (b : list Byte.byte).
Record Table := mkTable { columns : list string; rows : list (list Value) }.
Abbreviation Db := (gmap string Table).

Definition ALLOWLIST : list (string * string) := [("accounts", "uuid")].
Definition TRANSIENT_WINDOW_TABLES : list string := ["nullifier_map"; "tx_locator_map"; "transparent_spend_locator_map"].

(** [struct TableDiff], [struct DiffReport]. *)
Record TableDiff := mkDiff { table : string; rows_a : Z; rows_b : Z; only_in_a : list string; only_in_b : list string }.
Definition diff_is_clean (d : TableDiff) : bool :=
  bool_decide (d.(only_in_a) = []) && bool_decide (d.(only_in_b) = []) && (d.(rows_a) =? d.(rows_b)).
Definition report_is_clean (report : list TableDiff) : bool := forallb diff_is_clean report.

(** [render], with its text padded to 40 characters. *)
Fixpoint spaces (n : nat) : string := match n with O => "" | S n => " " +:+ spaces n end.
Definition pad40 (s : string) : string := s +:+ spaces (40 - String.length s).
Definition newline : string := String (Ascii.ascii_of_nat 10) EmptyString.
Definition render_diff (t : TableDiff) : string :=
  if diff_is_clean t then "  OK   " +:+ pad40 t.(table) +:+ " " +:+ pretty t.(rows_a) +:+ " rows" +:+ newline
  else
    "  DIFF " +:+ pad40 t.(table) +:+ " A=" +:+ pretty t.(rows_a) +:+ " B=" +:+ pretty t.(rows_b) +:+
    " (+A " +:+ pretty (length t.(only_in_a)) +:+ " / +B " +:+ pretty (length t.(only_in_b)) +:+ ")" +:+ newline +:+
    String.concat "" ((fun r => "       only-in-A: " +:+ r +:+ newline) <$> take 5 t.(only_in_a)) +:+
    String.concat "" ((fun r => "       only-in-B: " +:+ r +:+ newline) <$> take 5 t.(only_in_b)).
Definition render (report : list TableDiff) : string := String.concat "" (render_diff <$> report).

Definition wallet_err (context e : string) : SlipstreamError := Wallet ("oracle " +:+ context +:+ ": " +:+ e).

(** ** Canonical rows *)

Definition hex_digit (n : N) : Ascii.ascii := Ascii.ascii_of_N (if (n <? 10)%N then 48 + n else 87 + n).
Definition hex_byte (b : Byte.byte) : string :=
  String (hex_digit (Byte.to_N b / 16)) (String (hex_digit (Byte.to_N b mod 16)) EmptyString).
Fixpoint hex (b : list Byte.byte) : string := match b with [] => "" | x :: b' => hex_byte x +:+ hex b' end.

(** The statements of a diff, by the side they run on ([true]: A). *)
Inductive Stmt := ListTables (side : bool) | TableInfo (side : bool) (t : string) | MaxHeight (side : bool) (t : string)
  | Select (side : bool) (t : string).

Section Diff.
Context (debug_f64 : float -> string) (quoted : string -> option Value) (SPEND_MAP_RETENTION_BLOCKS : Z) (fault : Stmt -> option string).

(** [canonical_value]. *)
Definition canonical_value (v : Value) : string :=
  match v with
  | VNull => "NULL"
  | VInteger i => pretty i
  | VReal r => debug_f64 r
  | VText t => "'" +:+ t +:+ "'"
  | VBlob b => "x'" +:+ hex b +:+ "'"
  end.
Fixpoint canonical_row (cols : list string) (vs : list Value) : string :=
  match cols, vs with
  | col :: cols', v :: vs' => col +:+ "=" +:+ canonical_value v +:+ "|" +:+ canonical_row cols' vs'
  | _, _ => ""
  end.

(** ** Statements *)

(** [name NOT LIKE 'sqlite_%']: the pattern's underscore is any character, and letters match in
    either case. *)
Definition like_sqlite (name : string) : bool :=
  String.prefix "sqlite" (Grpc.to_lowercase name) && (7 <=? String.length name)%nat.
Definition visible_tables (db : Db) : list string :=
  merge_sort String.le (filter (fun n => like_sqlite n = false) (map_to_list db).*1).
Definition list_tables (side : bool) (db : Db) : Res (list string) :=
  match fault (ListTables side) with Some e => Err (wallet_err "list tables" e) | None => Ok (visible_tables db) end.

(** [table_columns]: no rows for a table that is not there. *)
Definition compared (t c : string) : bool := negb (bool_decide ((t, c) ∈ ALLOWLIST)).
Definition table_columns (side : bool) (db : Db) (t : string) : Res (list string) :=
  match fault (TableInfo side t) with
  | Some e => Err (wallet_err "table_info" e)
  | None => Ok (filter (fun c => compared t c = true) (from_option columns [] (db !! t)))
  end.

(** A column of a row. *)
Definition field (t : Table) (row : list Value) (c : string) : option Value :=
  match list_find (fun x => x = c) t.(columns) with
  | Some (i, _) => row !! i
  | None => quoted c
  end.
Definition is_column (t : Table) (c : string) : bool := bool_decide (c ∈ t.(columns)).

(** A REAL against an integer, exactly. *)
Definition real_vs (r : float) (i : Z) : comparison :=
  match Prim2SF r with
  | SpecFloat.S754_zero _ => 0 ?= i
  | SpecFloat.S754_infinity neg => if neg then Lt else Gt
  | SpecFloat.S754_nan => Lt
  | SpecFloat.S754_finite neg m e =>
    let m' := if neg then Zneg m else Zpos m in
    if 0 <=? e then m' * 2 ^ e ?= i else m' ?= i * 2 ^ (- e)
  end.
(** SQLite's order: NULL, numbers, text, blobs.  Among texts and among blobs either may count as
    the greater: neither reads as a height. *)
Definition sql_greater (v w : Value) : bool :=
  match v, w with
  | VNull, _ => false
  | _, VNull => true
  | VInteger i, VInteger j => j <? i
  | VInteger i, VReal r => match real_vs r i with Lt => true | _ => false end
  | VReal r, VInteger i => match real_vs r i with Gt => true | _ => false end
  | VReal r, VReal q => PrimFloat.ltb q r
  | (VInteger _ | VReal _), (VText _ | VBlob _) => false
  | VText _, (VInteger _ | VReal _) => true
  | VText _, (VText _ | VBlob _) => false
  | VBlob _, VBlob _ => false
  | VBlob _, _ => true
  end.
(** [MAX(block_height)] as an [Option<u32>]: text, blobs and numbers that are no [u32] do not
    convert. *)
Definition height_of (t : Table) (row : list Value) : Value := default VNull (field t row "block_height").
Definition sql_max (vs : list Value) : Value := foldl (fun m v => if sql_greater v m then v else m) VNull vs.
Definition max_of (side : bool) (db : Db) (t : string) : Res (option Z) :=
  match fault (MaxHeight side t), db !! t with
  | Some e, _ => Err (wallet_err "max height" e)
  | None, None => Err (wallet_err "max height" "no such table")
  | None, Some tb =>
    if is_column tb "block_height" then
      match sql_max (height_of tb <$> tb.(rows)) with
      | VNull => Ok None
      | VInteger h => if (0 <=? h) && (h <=? u32_max) then Ok (Some h) else Err (wallet_err "max height" "range")
      | _ => Err (wallet_err "max height" "type")
      end
    else Err (wallet_err "max height" "no such column")
  end.
Definition omax (a b : option Z) : option Z :=
  match a, b with Some x, Some y => Some (Z.max x y) | Some x, None => Some x | None, o => o end.
(** [transient_window_floor]. *)
Definition transient_window_floor (a b : Db) (t : string) : Res (option Z) :=
  let? ma := max_of true a t in
  let? mb := max_of false b t in
  Ok ((fun h => sat_sub h SPEND_MAP_RETENTION_BLOCKS) <$> omax ma mb).

(** [WHERE block_height >= h], by SQLite's order of types. *)
Definition at_or_above (h : Z) (v : Value) : bool :=
  match v with
  | VNull => false
  | VInteger i => h <=? i
  | VReal r => match real_vs r h with Lt => false | _ => true end
  | VText _ | VBlob _ => true
  end.

(** [row_multiset], as the canonical rows in the order they come; a select list without a column
    does not parse. *)
Definition canonical_rows (side : bool) (db : Db) (t : string) (cols : list string) (min_height : option Z) : Res (list string) :=
  match fault (Select side t), cols, db !! t with
  | Some e, _, _ => Err (wallet_err "select" e)
  | None, [], _ => Err (wallet_err "select" "syntax error")
  | None, _, None => Err (wallet_err "select" "no such table")
  | None, _, Some tb =>
    let chosen := match min_height with
                  | None => Some tb.(rows)
                  | Some h => if is_column tb "block_height"
                              then Some (filter (fun row => at_or_above h (height_of tb row) = true) tb.(rows)) else None
                  end in
    match chosen ≫= mapM (fun row => mapM (field tb row) cols) with
    | Some vss => Ok (canonical_row cols <$> vss)
    | None => Err (wallet_err "select" "no such column")
    end
  end.
Definition count_row (m : gmap string Z) (row : string) : gmap string Z := <[row := default 0 (m !! row) + 1]> m.
Definition multiset (canon : list string) : gmap string Z := foldl count_row ∅ canon.
Definition row_multiset (side : bool) (db : Db) (t : string) (cols : list string) (min_height : option Z) : Res (gmap string Z) :=
  let? canon := canonical_rows side db t cols min_height in Ok (multiset canon).

(** ** The diff *)

Definition unwrap_or {A} (d : A) (r : Res A) : A := match r with Ok a => a | Err _ => d end.
Definition total (m : gmap string Z) : Z := foldr Z.add 0 (map_to_list m).*2.
(** The rows of [m] beyond those of [m'], each as often. *)
Definition surplus (m m' : gmap string Z) : list string :=
  merge_sort String.le (mjoin ((fun p => replicate (Z.to_nat (p.2 - default 0 (m' !! p.1))) p.1) <$> map_to_list m)).

Definition window (a b : Db) (t : string) : option Z :=
  if bool_decide (t ∈ TRANSIENT_WINDOW_TABLES) then unwrap_or None (transient_window_floor a b t) else None.
Definition diff_table (a b : Db) (t : string) : Res TableDiff :=
  let? cols := match table_columns true a t with Ok cols => Ok cols | Err _ => table_columns false b t end in
  let min_height := window a b t in
  let ms_a := unwrap_or ∅ (row_multiset true a t cols min_height) in
  let ms_b := unwrap_or ∅ (row_multiset false b t cols min_height) in
  Ok (mkDiff t (total ms_a) (total ms_b) (surplus ms_a ms_b) (surplus ms_b ms_a)).
Fixpoint diff_tables (a b : Db) (ts : list string) : Res (list TableDiff) :=
  match ts with
  | [] => Ok []
  | t :: ts' => let? d := diff_table a b t in let? ds := diff_tables a b ts' in Ok (d :: ds)
  end.
Definition union_tables (ta tb : list string) : list string :=
  merge_sort String.le (foldl (fun ts t => if bool_decide (t ∈ ts) then ts else ts ++ [t]) ta tb).
(** [semantic_diff]. *)
Definition semantic_diff (opened_a opened_b : option string) (a b : Db) : Res (list TableDiff) :=
  match opened_a, opened_b with
  | Some e, _ => Err (wallet_err "open A" e)
  | None, Some e => Err (wallet_err "open B" e)
  | None, None =>
    let? ta := list_tables true a in
    let? tb := list_tables false b in
    diff_tables a b (union_tables ta tb)
  end.
End Diff.

(** ** Counting rows *)

Abbreviation count := (count_occ String.string_dec).

Lemma multiset_lookup canon r :
  multiset canon !! r = if (count canon r =? 0)%nat then None else Some (Z.of_nat (count canon r)).
Proof.
  induction canon as [|x canon IH] using rev_ind; [done|].
  unfold multiset. rewrite foldl_snoc. fold (multiset canon). unfold count_row.
  rewrite count_occ_app. cbn [count_occ]. destruct (decide (x = r)) as [->|Hne].
  - rewrite lookup_insert_eq, IH. destruct (String.string_dec r r) as [_|]; [|done].
    destruct (Nat.eqb_spec (count canon r) 0) as [->|]; [done|].
    replace (count canon r + 1 =? 0)%nat with false by (symmetry; apply Nat.eqb_neq; lia).
    cbn [default from_option]. f_equal. unfold id. lia.
  - rewrite lookup_insert_ne, IH by done. destruct (String.string_dec x r); [done|]. by rewrite Nat.add_0_r.
Qed.
Lemma multiset_count canon r : default 0 (multiset canon !! r) = Z.of_nat (count canon r).
Proof. rewrite multiset_lookup. destruct (Nat.eqb_spec (count canon r) 0) as [->|]; done. Qed.

Lemma multiset_eq l l' : multiset l = multiset l' <-> Permutation l l'.
Proof.
  rewrite (Permutation_count_occ String.string_dec). split.
  - intros E r. apply Nat2Z.inj. by rewrite <- !multiset_count, E.
  - intros E. apply map_eq. intros r. by rewrite !multiset_lookup, E.
Qed.

Lemma total_delete m r : total m = default 0 (m !! r) + total (delete r m).
Proof.
  destruct (m !! r) as [n|] eqn:E; [|by rewrite delete_id]. unfold total. cbn [default from_option].
  rewrite <- (insert_delete_id m r n E) at 1.
  assert (forall l l' : list (string * Z), Permutation l l' -> foldr Z.add 0 l.*2 = foldr Z.add 0 l'.*2) as Hp.
  { intros l l' H. induction H; cbn [fmap list_fmap foldr]; lia. }
  rewrite (Hp _ _ (map_to_list_insert (delete r m) r n (lookup_delete_eq m r))). done.
Qed.

(** The counts of a table add up to its rows. *)
Lemma total_multiset canon : total (multiset canon) = Z.of_nat (length canon).
Proof.
  induction canon as [|x canon IH] using rev_ind; [done|].
  unfold multiset. rewrite foldl_snoc. fold (multiset canon). unfold count_row.
  rewrite (total_delete _ x), lookup_insert_eq, delete_insert_eq, length_app. cbn [default from_option length].
  rewrite (total_delete _ x) in IH. unfold id in *. lia.
Qed.

Definition entry_surplus (m' : gmap string Z) (p : string * Z) : list string :=
  replicate (Z.to_nat (p.2 - default 0 (m' !! p.1))) p.1.
Lemma count_replicate n (x r : string) : count (replicate n x) r = if String.string_dec x r then n else O.
Proof. induction n; cbn [replicate count_occ]; destruct (String.string_dec x r); congruence. Qed.
Lemma count_entries m' l r : NoDup l.*1 ->
  count (mjoin (entry_surplus m' <$> l)) r =
  match list_to_map (M := gmap string Z) l !! r with Some n => Z.to_nat (n - default 0 (m' !! r)) | None => O end.
Proof.
  induction l as [|[x n] l IH]; [done|]. intros [Hx Hnd]%NoDup_cons.
  rewrite fmap_cons. change (mjoin (?a :: ?l)) with (a ++ mjoin l).
  rewrite count_occ_app, (IH Hnd). unfold entry_surplus at 1. rewrite count_replicate. cbn [fst snd list_to_map uncurry foldr].
  destruct (String.string_dec x r) as [->|Hne].
  - rewrite lookup_insert_eq. rewrite (not_elem_of_list_to_map_1 l r Hx). lia.
  - by rewrite lookup_insert_ne.
Qed.

(** A row is listed as often as one side has it beyond the other. *)
Lemma count_surplus l l' r : count (surplus (multiset l) (multiset l')) r = (count l r - count l' r)%nat.
Proof.
  unfold surplus. rewrite (proj1 (Permutation_count_occ String.string_dec _ _) (merge_sort_Permutation String.le _)).
  change (count (mjoin (entry_surplus (multiset l') <$> map_to_list (multiset l))) r = (count l r - count l' r)%nat).
  rewrite count_entries by apply NoDup_fst_map_to_list. rewrite list_to_map_to_list, multiset_count, multiset_lookup.
  destruct (Nat.eqb_spec (count l r) 0) as [->|]; [done|]. lia.
Qed.
Lemma surplus_nil l l' : surplus (multiset l) (multiset l') = [] <-> forall r, (count l r <= count l' r)%nat.
Proof.
  split.
  - intros E r. assert (H := count_surplus l l' r). rewrite E in H. cbn [count_occ] in H. lia.
  - intros H. apply (count_occ_inv_nil String.string_dec). intros r. rewrite count_surplus. specialize (H r). lia.
Qed.

(** The diff of two row lists. *)
Definition diff_of (t : string) (l l' : list string) : TableDiff :=
  mkDiff t (total (multiset l)) (total (multiset l')) (surplus (multiset l) (multiset l')) (surplus (multiset l') (multiset l)).
Lemma diff_of_clean t l l' : diff_is_clean (diff_of t l l') = true <-> Permutation l l'.
Proof.
  unfold diff_is_clean, diff_of. cbn. rewrite !andb_true_iff, !bool_decide_eq_true, !surplus_nil, Z.eqb_eq, !total_multiset.
  rewrite (Permutation_count_occ String.string_dec). split.
  - intros [[H1 H2] _] r. specialize (H1 r). specialize (H2 r). lia.
  - intros H. split; [split; intros r; rewrite (H r); lia|].
    f_equal. apply Permutation_length. by apply (Permutation_count_occ String.string_dec).
Qed.

(** ** Canonical text *)

(** Text without the separator. *)
Fixpoint nobar (s : string) : bool :=
  match s with EmptyString => true | String c s' => negb (Ascii.eqb c "|"%char) && nobar s' end.
Definition plain (v : Value) : bool :=
  match v with VReal _ => false | VText t => nobar t | _ => true end.

Lemma nobar_app s s' : nobar (s +:+ s') = nobar s && nobar s'.
Proof. induction s as [|c s IH]; [done|]. change (String c s +:+ s') with (String c (s +:+ s')). cbn [nobar]. by rewrite IH, andb_assoc. Qed.
Lemma split_bar s s' u u' : nobar s -> nobar s' -> s +:+ "|" +:+ u = s' +:+ "|" +:+ u' -> s = s' /\ u = u'.
Proof.
  revert s'. induction s as [|c s IH]; intros [|c' s'] H H' E.
  - by injection E.
  - injection E as <- _. done.
  - injection E as -> _. done.
  - injection E as <- E. apply andb_True in H as [_ H], H' as [_ H']. by destruct (IH _ H H' E) as [-> ->].
Qed.

(** A decimal numeral: digits after an optional sign. *)
Definition numeral_char (c : Ascii.ascii) : bool :=
  let n := Ascii.N_of_ascii c in ((48 <=? n) && (n <=? 57))%N || Ascii.eqb c "-"%char.
Fixpoint numeral (s : string) : bool := match s with EmptyString => true | String c s' => numeral_char c && numeral s' end.
Lemma pretty_char_numeral x : (x < 10)%N -> numeral_char (pretty_N_char x) = true.
Proof. intros. assert (x = 0 \/ x = 1 \/ x = 2 \/ x = 3 \/ x = 4 \/ x = 5 \/ x = 6 \/ x = 7 \/ x = 8 \/ x = 9)%N by lia. naive_solver. Qed.
Lemma pretty_go_numeral x : forall s, numeral s = true -> numeral (pretty_N_go x s) = true /\ (s <> "" -> pretty_N_go x s <> "").
Proof.
  induction (N.lt_wf_0 x) as [x _ IH]. intros s Hs.
  destruct (decide (x = 0)%N) as [->|]; [by rewrite pretty_N_go_0|]. rewrite pretty_N_go_step by lia.
  destruct (IH (x / 10)%N (N.div_lt x 10 ltac:(lia) ltac:(lia)) (String (pretty_N_char (x mod 10)) s)) as [H1 H2].
  { cbn. rewrite pretty_char_numeral, Hs; [done|]. by apply N.mod_lt. }
  split; [done|]. intros _. by apply H2.
Qed.
Lemma pretty_N_numeral (x : N) : numeral (pretty x) = true /\ pretty x <> "".
Proof.
  unfold pretty, pretty_N. case_decide; [done|]. split; [by apply pretty_go_numeral|].
  rewrite pretty_N_go_step by lia. apply pretty_go_numeral; [|done]. cbn. by rewrite pretty_char_numeral by (by apply N.mod_lt).
Qed.
Lemma pretty_numeral (i : Z) : numeral (pretty i) = true /\ pretty i <> "".
Proof. destruct i; [done|apply pretty_N_numeral|]. split; [|done]. apply (proj1 (pretty_N_numeral (Npos p))). Qed.
Lemma numeral_nobar s : numeral s = true -> nobar s.
Proof.
  induction s as [|c s IH]; [done|]. cbn. rewrite andb_true_iff. intros [Hc Hs].
  apply andb_True. split; [|by apply IH]. destruct (Ascii.eqb_spec c "|"%char) as [->|]; [done|done].
Qed.

(** Two hex digits give their byte back. *)
Definition unhex (c : Ascii.ascii) : N := let n := Ascii.N_of_ascii c in (if n <? 58 then n - 48 else n - 87)%N.
Lemma unhex_byte b :
  match hex_byte b with String h (String l EmptyString) => (16 * unhex h + unhex l = Byte.to_N b)%N | _ => False end
  /\ nobar (hex_byte b).
Proof. by destruct b. Qed.
Lemma hex_byte_inj b b' : hex_byte b = hex_byte b' -> b = b'.
Proof.
  intros E. destruct (unhex_byte b) as [H _], (unhex_byte b') as [H' _]. rewrite E in H.
  unfold hex_byte in H, H'. rewrite H in H'. apply (f_equal Byte.of_N) in H'. rewrite !Byte.of_to_N in H'. by simplify_eq.
Qed.
Lemma hex_inj b : forall b', hex b = hex b' -> b = b'.
Proof.
  induction b as [|x b IH]; intros [|x' b']; cbn; intros E; try done.
  injection E as E1 E2 E3. f_equal; [|by apply IH]. apply hex_byte_inj. unfold hex_byte. by rewrite E1, E2.
Qed.
Lemma hex_nobar b : nobar (hex b).
Proof. induction b; [done|]. cbn [hex]. rewrite nobar_app. apply andb_True. split; [apply unhex_byte|done]. Qed.

Lemma app_quote_inj s s' : s +:+ "'" = s' +:+ "'" -> s = s'.
Proof.
  revert s'. induction s as [|c s IH]; intros [|c' s']; cbn; intros E; simplify_eq; try done.
  - by destruct s'.
  - by destruct s.
  - f_equal. by apply IH.
Qed.

Section Facts.
Context (debug_f64 : float -> string) (quoted : string -> option Value) (SPEND_MAP_RETENTION_BLOCKS : Z).

Lemma canonical_value_nobar v : plain v -> nobar (canonical_value debug_f64 v).
Proof.
  destruct v; cbn [canonical_value plain]; try done.
  - intros _. apply numeral_nobar, pretty_numeral.
  - intros H. change (nobar (t +:+ "'")). rewrite nobar_app. apply andb_True. done.
  - intros _. change (nobar (hex b +:+ "'")). rewrite nobar_app. apply andb_True. split; [apply hex_nobar|done].
Qed.
Lemma canonical_value_inj v v' : plain v -> plain v' -> canonical_value debug_f64 v = canonical_value debug_f64 v' -> v = v'.
Proof.
  assert (forall i c s, pretty (i : Z) = String c s -> numeral_char c = true) as Hn.
  { intros i c s E. destruct (pretty_numeral i) as [H _]. rewrite E in H. by apply andb_true_iff in H as [H _]. }
  destruct v, v'; cbn [canonical_value plain]; try done; intros _ _ E;
    try (apply Hn in E; discriminate E); try (symmetry in E; apply Hn in E; discriminate E).
  - f_equal. by apply (inj pretty).
  - f_equal. injection E as E. by apply app_quote_inj.
  - f_equal. injection E as E. apply hex_inj. by apply app_quote_inj.
Qed.
Lemma string_app_inv_head (s : string) u u' : s +:+ u = s +:+ u' -> u = u'.
Proof. induction s; cbn; intros E; simplify_eq; auto. Qed.

(** The canonical text of rows of one shape tells them apart. *)
Lemma canonical_row_inj cols : forall vs vs', length vs = length cols -> length vs' = length cols ->
  forallb plain vs -> forallb plain vs' ->
  canonical_row debug_f64 cols vs = canonical_row debug_f64 cols vs' -> vs = vs'.
Proof.
  induction cols as [|c cols IH]; intros [|v vs] [|v' vs']; cbn [length]; try done.
  intros Hl Hl'. cbn [forallb]. intros [Hv Hvs]%andb_True [Hv' Hvs']%andb_True E. cbn [canonical_row] in E.
  apply string_app_inv_head in E. apply (string_app_inv_head "=") in E.
  apply split_bar in E as [E1 E2]; [|by apply canonical_value_nobar..].
  rewrite (canonical_value_inj v v') by done. f_equal. apply IH; auto.
Qed.

(** ** The diff *)

Abbreviation no_fault := (fun _ : Stmt => None).
Abbreviation diff := (semantic_diff debug_f64 quoted SPEND_MAP_RETENTION_BLOCKS).
Abbreviation crows := (canonical_rows debug_f64 quoted).
Abbreviation floor_of fault := (window quoted SPEND_MAP_RETENTION_BLOCKS fault).

(** The columns a table is compared on, and its rows as compared; [side] is [true] for A. *)
Definition compared_columns (a : Db) (t : string) : list string :=
  filter (fun c => compared t c = true) (from_option columns [] (a !! t)).
Definition rows_of (fault : Stmt -> option string) (side : bool) (a b : Db) (t : string) : list string :=
  unwrap_or [] (crows fault side (if side then a else b) t (compared_columns a t) (floor_of fault a b t)).

Lemma unwrap_multiset fault side db t cols h :
  unwrap_or ∅ (row_multiset debug_f64 quoted fault side db t cols h) = multiset (unwrap_or [] (crows fault side db t cols h)).
Proof. unfold row_multiset. by destruct (crows fault side db t cols h). Qed.
Lemma diff_table_rows fault a b t : fault (TableInfo true t) = None ->
  diff_table debug_f64 quoted SPEND_MAP_RETENTION_BLOCKS fault a b t =
  Ok (diff_of t (rows_of fault true a b t) (rows_of fault false a b t)).
Proof.
  intros Hf. unfold diff_table, table_columns. rewrite Hf. cbn [result_bind]. by rewrite !unwrap_multiset.
Qed.
Lemma diff_tables_rows fault a b ts : (forall t, fault (TableInfo true t) = None) ->
  diff_tables debug_f64 quoted SPEND_MAP_RETENTION_BLOCKS fault a b ts =
  Ok ((fun t => diff_of t (rows_of fault true a b t) (rows_of fault false a b t)) <$> ts).
Proof.
  intros Hf. induction ts as [|t ts IH]; [done|]. cbn [diff_tables]. by rewrite diff_table_rows, IH.
Qed.

Lemma elem_of_union_fold (tb : list string) : forall (ta : list string) (t : string),
  t ∈ foldl (fun ts t => if bool_decide (t ∈ ts) then ts else ts ++ [t]) ta tb <-> t ∈ ta \/ t ∈ tb.
Proof.
  induction tb as [|x tb IH]; intros ta t; cbn [foldl]; [set_solver|].
  rewrite IH. case_bool_decide; set_solver.
Qed.
Lemma elem_of_union_tables ta tb t : t ∈ union_tables ta tb <-> t ∈ ta \/ t ∈ tb.
Proof. unfold union_tables. rewrite (merge_sort_Permutation String.le). apply elem_of_union_fold. Qed.
Lemma elem_of_visible (db : Db) t : t ∈ visible_tables db <-> is_Some (db !! t) /\ like_sqlite t = false.
Proof.
  unfold visible_tables. rewrite (merge_sort_Permutation String.le), list_elem_of_filter, list_elem_of_fmap.
  split.
  - intros [Hl ([t' tb] & -> & H%elem_of_map_to_list)]. eauto.
  - intros [[tb H] Hl]. split; [done|]. exists (t, tb). split; [done|]. by apply elem_of_map_to_list.
Qed.

(** Without a fault in listing the schema, the diff covers every table of either side. *)
Definition lists (fault : Stmt -> option string) : Prop :=
  (forall side, fault (ListTables side) = None) /\ (forall t, fault (TableInfo true t) = None).
Lemma diff_report fault a b : lists fault ->
  diff fault None None a b =
  Ok ((fun t => diff_of t (rows_of fault true a b t) (rows_of fault false a b t)) <$>
      union_tables (visible_tables a) (visible_tables b)).
Proof.
  intros [Hl Hi]. unfold semantic_diff, list_tables. rewrite !Hl. cbn [result_bind]. by apply diff_tables_rows.
Qed.
Lemma clean_iff_rows fault a b : lists fault ->
  exists report, diff fault None None a b = Ok report /\
    (report_is_clean report = true <->
     forall t, t ∈ visible_tables a \/ t ∈ visible_tables b ->
       Permutation (rows_of fault true a b t) (rows_of fault false a b t)).
Proof.
  intros Hl. eexists. split; [by apply diff_report|]. unfold report_is_clean.
  rewrite forallb_forall. setoid_rewrite <- elem_of_union_tables. split.
  - intros H t Ht. apply diff_of_clean with (t := t). apply H. apply list_elem_of_In.
    apply list_elem_of_fmap. eauto.
  - intros H d Hd. apply list_elem_of_In, list_elem_of_fmap in Hd as (t & -> & Ht). by apply diff_of_clean, H.
Qed.

(** *** Databases of one schema *)

(** The values of a row that are compared, and the rows a window keeps. *)
Definition kept (t : string) (tb : Table) (row : list Value) : list Value :=
  (filter (fun p => compared t p.1 = true) (zip tb.(columns) row)).*2.
Definition in_window (h : option Z) (tb : Table) : list (list Value) :=
  match h with
  | None => tb.(rows)
  | Some h => filter (fun row => at_or_above h (height_of quoted tb row) = true) tb.(rows)
  end.
Definition compared_rows (h : option Z) (t : string) (tb : Table) : list (list Value) :=
  kept t tb <$> in_window h tb.
(** A table as a migration makes it: distinct columns, full rows, printable values, a column to
    compare and, in the windowed tables, a height. *)
Definition table_ok (t : string) (tb : Table) : Prop :=
  NoDup tb.(columns) /\
  Forall (fun row => length row = length tb.(columns) /\ forallb plain row) tb.(rows) /\
  filter (fun c => compared t c = true) tb.(columns) <> [] /\
  (t ∈ TRANSIENT_WINDOW_TABLES -> "block_height" ∈ tb.(columns)).
Definition same_schema (a b : Db) : Prop := forall t, columns <$> a !! t = columns <$> b !! t.

Lemma field_zip (tb : Table) row c : NoDup tb.(columns) -> length row = length tb.(columns) -> forall v,
  (c, v) ∈ zip tb.(columns) row -> field quoted tb row c = Some v.
Proof.
  intros Hnd Hl v [i Hi]%list_elem_of_lookup. apply lookup_zip_with_Some in Hi as (c' & v' & [= -> ->] & Hc & Hv).
  unfold field. rewrite (proj2 (list_find_Some _ _ i c')); [done|].
  split_and!; [done..|]. intros j y Hj Hlt ->. assert (j = i) by (by eapply NoDup_lookup). lia.
Qed.
Lemma mapM_fields (tb : Table) row (P : string -> bool) : NoDup tb.(columns) -> length row = length tb.(columns) ->
  mapM (field quoted tb row) (filter (fun c => P c = true) tb.(columns)) =
  Some ((filter (fun p => P p.1 = true) (zip tb.(columns) row)).*2).
Proof.
  intros Hnd Hl. apply mapM_Some_2.
  assert (forall c v, (c, v) ∈ zip tb.(columns) row -> field quoted tb row c = Some v) as Hf by (intros; by apply field_zip).
  revert Hf. generalize (field quoted tb row) as f. revert row Hl. generalize tb.(columns) as cs. clear.
  induction cs as [|c cs IH]; intros [|v vs]; cbn [length]; try done; intros Hl f Hf.
  cbn [zip zip_with]. rewrite !filter_cons. cbn [fst].
  assert (Forall2 (fun x y => f x = Some y) (filter (fun c => P c = true) cs) ((filter (fun p => P p.1 = true) (zip cs vs)).*2)).
  { apply IH; [lia|]. intros c' v' H. apply Hf. by right. }
  repeat case_decide; try done. constructor; [|done]. apply Hf. by left.
Qed.

(** On a well-formed table the select reads the compared values of the rows in the window. *)
Lemma crows_ok side db t tb h : db !! t = Some tb -> table_ok t tb -> (h <> None -> t ∈ TRANSIENT_WINDOW_TABLES) ->
  crows no_fault side db t (filter (fun c => compared t c = true) tb.(columns)) h =
  Ok (canonical_row debug_f64 (filter (fun c => compared t c = true) tb.(columns)) <$> compared_rows h t tb).
Proof.
  intros Hdb (Hnd & Hrows & Hne & Hh) Hw. unfold canonical_rows. rewrite Hdb.
  destruct (filter (fun c => compared t c = true) tb.(columns)) as [|c0 cs] eqn:Ec; [done|]. rewrite <- Ec. clear Hne.
  assert (match h with
          | None => Some tb.(rows)
          | Some h => if is_column tb "block_height"
                      then Some (filter (fun row => at_or_above h (height_of quoted tb row) = true) tb.(rows)) else None
          end = Some (in_window h tb)) as ->.
  { destruct h as [h|]; [|done]. unfold is_column. rewrite bool_decide_true; [done|]. by apply Hh, Hw. }
  assert (mapM (fun row => mapM (field quoted tb row) (filter (fun c => compared t c = true) tb.(columns))) (in_window h tb)
          = Some (compared_rows h t tb)) as Hm.
  { apply mapM_Some_2. unfold compared_rows. apply Forall2_fmap_r, Forall_Forall2_diag.
    assert (Forall (fun row => length row = length tb.(columns) /\ forallb plain row) (in_window h tb)) as Hw'.
    { destruct h; [|done]. apply Forall_forall. intros row [_ Hr]%list_elem_of_filter. by eapply Forall_forall in Hrows. }
    eapply Forall_impl; [exact Hw'|]. intros row [Hl _]. by apply mapM_fields. }
  cbn [mbind option_bind]. by rewrite Hm.
Qed.
Lemma kept_plain t tb row : length row = length tb.(columns) -> forallb plain row ->
  length (kept t tb row) = length (filter (fun c => compared t c = true) tb.(columns)) /\ forallb plain (kept t tb row).
Proof.
  unfold kept. generalize tb.(columns) as cs. intros cs. revert row.
  induction cs as [|c cs IH]; intros [|v vs]; cbn [length]; try done; intros Hl Hp.
  cbn [forallb] in Hp. apply andb_True in Hp as [Hv Hvs]. destruct (IH vs ltac:(lia) Hvs) as [H1 H2].
  cbn [zip zip_with]. rewrite !filter_cons. cbn [fst]. case_decide; [|done].
  cbn [fmap list_fmap length forallb snd]. split; [f_equal; exact H1|]. by apply andb_True.
Qed.
Lemma perm_fmap_inj {A B} (f : A -> B) (P : A -> Prop) (l l' : list A) :
  (forall x y, P x -> P y -> f x = f y -> x = y) -> Forall P l -> Forall P l' -> f <$> l ≡ₚ f <$> l' -> l ≡ₚ l'.
Proof.
  intros Hinj Hl Hl' Hp. destruct (Permutation_map_inv f l' Hp) as (l3 & E & Hp3).
  rewrite Hp3. rewrite Hp3 in Hl'. apply reflexive_eq. clear Hp Hp3 l'.
  revert l3 E Hl'. induction Hl as [|x l Hx Hl IH]; intros [|y l3] E Hl'; try done.
  cbn in E. injection E as E1 E2. inv Hl'. f_equal; [by apply Hinj|by apply IH].
Qed.

Lemma in_window_rows h tb (P : list Value -> Prop) : Forall P tb.(rows) -> Forall P (in_window h tb).
Proof.
  intros H. destruct h; [|done]. apply Forall_forall. intros row [_ Hr]%list_elem_of_filter. by eapply Forall_forall in H.
Qed.
Lemma compared_rows_plain h t tb : table_ok t tb ->
  Forall (fun vs => length vs = length (filter (fun c => compared t c = true) tb.(columns)) /\ forallb plain vs)
    (compared_rows h t tb).
Proof.
  intros (_ & Hrows & _). apply Forall_fmap. eapply Forall_impl; [by apply in_window_rows|].
  intros row [Hl Hp]. by apply kept_plain.
Qed.

(** A table of both sides: its canonical rows agree exactly when its compared rows do. *)
Lemma table_rows_iff a b t ta tb : a !! t = Some ta -> b !! t = Some tb -> table_ok t ta -> table_ok t tb ->
  columns ta = columns tb ->
  rows_of no_fault true a b t ≡ₚ rows_of no_fault false a b t <->
  compared_rows (floor_of no_fault a b t) t ta ≡ₚ compared_rows (floor_of no_fault a b t) t tb.
Proof.
  intros Ha Hb Hta Htb Hcols.
  assert (floor_of no_fault a b t <> None -> t ∈ TRANSIENT_WINDOW_TABLES) as Hw by (unfold window; by case_bool_decide).
  unfold rows_of, compared_columns. rewrite Ha. cbn [from_option].
  rewrite (crows_ok true a t ta _ Ha Hta Hw), Hcols, (crows_ok false b t tb _ Hb Htb Hw). cbn [unwrap_or].
  split; [|by intros ->]. apply (perm_fmap_inj _ (fun vs => length vs = length (filter (fun c => compared t c = true) tb.(columns)) /\ forallb plain vs) _ _
    (fun x y Hx Hy => canonical_row_inj _ x y (proj1 Hx) (proj1 Hy) (proj2 Hx) (proj2 Hy))).
  - rewrite <- Hcols. by apply compared_rows_plain.
  - by apply compared_rows_plain.
Qed.

(** C26: Two databases of one schema whose compared texts hold no bar and whose columns hold no
    floats: the oracle reports, and its verdict is CLEAN exactly when every table holds the same
    rows as often on both sides, the excluded columns left out and, in the three windowed tables,
    the rows below the window. *)
Theorem oracle_clean_iff_same_rows a b :
  same_schema a b ->
  (forall t tb, like_sqlite t = false -> a !! t = Some tb \/ b !! t = Some tb -> table_ok t tb) ->
  exists report, diff no_fault None None a b = Ok report /\
    (report_is_clean report = true <->
     forall t ta tb, like_sqlite t = false -> a !! t = Some ta -> b !! t = Some tb ->
       let floor := floor_of no_fault a b t in
       compared_rows floor t ta ≡ₚ compared_rows floor t tb).
Proof.
  intros Hs Hok. destruct (clean_iff_rows no_fault a b ltac:(done)) as (report & -> & Hc).
  exists report. split; [done|]. rewrite Hc. clear Hc report.
  assert (forall t ta tb, a !! t = Some ta -> b !! t = Some tb -> columns ta = columns tb) as Hcols.
  { intros t ta tb Ha Hb. specialize (Hs t). rewrite Ha, Hb in Hs. by injection Hs. }
  split.
  - intros H t ta tb Hl Ha Hb. apply table_rows_iff; eauto. apply H. left. apply elem_of_visible. eauto.
  - intros H t Ht. assert (exists ta tb, a !! t = Some ta /\ b !! t = Some tb /\ like_sqlite t = false) as (ta & tb & Ha & Hb & Hl).
    { specialize (Hs t). rewrite !elem_of_visible in Ht.
      destruct (a !! t), (b !! t); try discriminate Hs; [naive_solver|]. destruct Ht as [[[? ?] _]|[[? ?] _]]; done. }
    apply (table_rows_iff a b t ta tb); eauto.
Qed.

(** *** The window *)

Definition height_value (v : Value) : Prop := v = VNull \/ exists h, v = VInteger h /\ is_u32 h.
Definition greatest (vs : list Value) (m : Value) : Prop :=
  match m with
  | VNull => forall v, v ∈ vs -> v = VNull
  | VInteger h => VInteger h ∈ vs /\ is_u32 h /\ forall h', VInteger h' ∈ vs -> h' <= h
  | _ => False
  end.
Lemma sql_max_greatest vs : Forall height_value vs -> greatest vs (sql_max vs).
Proof.
  induction vs as [|v vs IH] using rev_ind; [intros _ v; set_solver|].
  intros [Hvs Hv]%Forall_app. specialize (IH Hvs). pose proof (proj1 (Forall_singleton _ _) Hv) as Hh. clear Hv Hvs. unfold sql_max in *. rewrite foldl_snoc.
  destruct (foldl _ VNull vs) as [|m| | |]; try done; destruct Hh as [->|(h & -> & Hu)]; cbn [sql_greater greatest] in *.
  - intros v. rewrite elem_of_app, list_elem_of_singleton. naive_solver.
  - split_and!; [set_solver|done..|]. intros h'. rewrite elem_of_app, list_elem_of_singleton.
    intros [H%IH|H]; [done|]. simplify_eq. lia.
  - destruct IH as (H1 & H2 & H3). split_and!; [set_solver|done..|]. intros h'. rewrite elem_of_app, list_elem_of_singleton. naive_solver.
  - destruct IH as (H1 & H2 & H3). destruct (Z.ltb_spec m h); cbn [greatest].
    + split_and!; [set_solver|done..|]. intros h'. rewrite elem_of_app, list_elem_of_singleton.
      intros [Hh%H3|Hh]; [lia|]. simplify_eq. lia.
    + split_and!; [set_solver|done..|]. intros h'. rewrite elem_of_app, list_elem_of_singleton.
      intros [Hh%H3|Hh]; [lia|]. simplify_eq. lia.
Qed.
Lemma max_of_greatest side (db : Db) t tb : db !! t = Some tb -> "block_height" ∈ tb.(columns) ->
  Forall height_value (height_of quoted tb <$> tb.(rows)) ->
  exists m, max_of quoted no_fault side db t = Ok m /\ greatest (height_of quoted tb <$> tb.(rows)) (from_option VInteger VNull m).
Proof.
  intros Hdb Hc Hv%sql_max_greatest. unfold max_of, is_column. rewrite Hdb, bool_decide_true by done.
  destruct (sql_max _) as [|h| | |]; try done; [by exists None|]. exists (Some h). split; [|done].
  destruct Hv as (_ & [Hlo Hhi] & _). by rewrite !(proj2 (Z.leb_le _ _)).
Qed.

(** In a windowed table with heights, the floor is the highest height of either side less the
    retention: a row within the retention of every height of both databases is always compared. *)
Theorem oracle_window_keeps_recent a b t ta tb :
  t ∈ TRANSIENT_WINDOW_TABLES -> a !! t = Some ta -> b !! t = Some tb ->
  "block_height" ∈ ta.(columns) -> "block_height" ∈ tb.(columns) ->
  let heights := (height_of quoted ta <$> ta.(rows)) ++ (height_of quoted tb <$> tb.(rows)) in
  Forall height_value heights ->
  match floor_of no_fault a b t with
  | None => forall v, v ∈ heights -> v = VNull
  | Some floor => exists top, VInteger top ∈ heights /\ floor = sat_sub top SPEND_MAP_RETENTION_BLOCKS /\
      forall h, VInteger h ∈ heights ->
        h <= top /\ (at_or_above floor (VInteger h) = true <-> top - SPEND_MAP_RETENTION_BLOCKS <= h)
  end.
Proof.
  intros Ht Ha Hb Hca Hcb heights Hv. pose proof Hv as [Hva Hvb]%Forall_app. unfold window. rewrite bool_decide_true by done.
  destruct (max_of_greatest true a t ta Ha Hca Hva) as (ma & Ea & Ga).
  destruct (max_of_greatest false b t tb Hb Hcb Hvb) as (mb & Eb & Gb).
  unfold transient_window_floor. rewrite Ea, Eb. cbn [result_bind unwrap_or].
  assert (forall top, VInteger top ∈ heights -> (forall h, VInteger h ∈ heights -> h <= top) ->
    exists top', VInteger top' ∈ heights /\ sat_sub top SPEND_MAP_RETENTION_BLOCKS = sat_sub top' SPEND_MAP_RETENTION_BLOCKS /\
      forall h, VInteger h ∈ heights -> h <= top' /\
        (at_or_above (sat_sub top SPEND_MAP_RETENTION_BLOCKS) (VInteger h) = true <-> top' - SPEND_MAP_RETENTION_BLOCKS <= h)) as Hw.
  { intros top H1 H2. exists top. split_and!; [done..|]. intros h Hh. split; [by apply H2|]. cbn [at_or_above]. rewrite Z.leb_le.
    eapply Forall_forall in Hv as [?|(h' & ? & Hu)]; [..|exact Hh]; [done|]. simplify_eq. destruct Hu. unfold sat_sub. lia. }
  destruct ma as [ha|], mb as [hb|]; cbn [omax fmap option_fmap option_map greatest from_option] in *.
  - apply Hw; destruct Ga as (A1 & _ & A3), Gb as (B1 & _ & B3).
    + destruct (Z.max_spec ha hb) as [[_ ->]|[_ ->]]; unfold heights; set_solver.
    + intros h [H%A3|H%B3]%elem_of_app; lia.
  - apply Hw; destruct Ga as (A1 & _ & A3); [unfold heights; set_solver|].
    intros h [H%A3|H%Gb]%elem_of_app; done.
  - apply Hw; destruct Gb as (B1 & _ & B3); [unfold heights; set_solver|].
    intros h [H%Ga|H%B3]%elem_of_app; done.
  - intros v [H%Ga|H%Gb]%elem_of_app; done.
Qed.

(** *** The report of one table *)

(** Whatever the two sides hold, a table's entry counts the rows of both sides and lists, in
    order, each row as often as one side has it beyond the other; a select that fails counts as
    no rows. *)
Theorem oracle_diff_exact fault a b t :
  (forall t, fault (TableInfo true t) = None) ->
  exists d, diff_table debug_f64 quoted SPEND_MAP_RETENTION_BLOCKS fault a b t = Ok d /\
    d.(table) = t /\
    d.(rows_a) = Z.of_nat (length (rows_of fault true a b t)) /\ d.(rows_b) = Z.of_nat (length (rows_of fault false a b t)) /\
    (forall r, count d.(only_in_a) r = (count (rows_of fault true a b t) r - count (rows_of fault false a b t) r)%nat) /\
    (forall r, count d.(only_in_b) r = (count (rows_of fault false a b t) r - count (rows_of fault true a b t) r)%nat) /\
    Sorted String.le d.(only_in_a) /\ Sorted String.le d.(only_in_b).
Proof.
  intros Hf. eexists. split; [by apply diff_table_rows|]. cbn [table rows_a rows_b only_in_a only_in_b diff_of].
  rewrite !total_multiset. split_and!; try done; try (intros r; apply count_surplus); apply Sorted_merge_sort; apply _.
Qed.

(** *** Where the verdict is weaker than equality *)

(** A table that only B has reads as clean, whatever it holds: A's schema query answers without
    columns and without an error, so B's columns are not asked for, and a select without columns
    fails on both sides. *)
Lemma table_only_in_b_reads_clean fault a b t : (forall s, fault s = None) -> a !! t = None ->
  diff_table debug_f64 quoted SPEND_MAP_RETENTION_BLOCKS fault a b t = Ok (mkDiff t 0 0 [] []).
Proof.
  intros Hf Ha. rewrite diff_table_rows by done. unfold rows_of, compared_columns. rewrite Ha. cbn [from_option].
  unfold canonical_rows. rewrite !Hf. done.
Qed.
(** A table that only A has shows as a full diff. *)
Lemma table_only_in_a_is_diff a b t tb : a !! t = Some tb -> b !! t = None -> table_ok t tb ->
  t ∉ TRANSIENT_WINDOW_TABLES ->
  rows_of no_fault true a b t = canonical_row debug_f64 (filter (fun c => compared t c = true) tb.(columns)) <$> compared_rows None t tb /\
  rows_of no_fault false a b t = [].
Proof.
  intros Ha Hb Hok Hw. unfold rows_of, compared_columns, window. rewrite Ha, bool_decide_false by done. cbn [from_option].
  rewrite (crows_ok true a t tb None Ha Hok) by done. split; [done|].
  unfold canonical_rows. rewrite Hb. by destruct (filter _ _).
Qed.
End Facts.

(** Text is not escaped: two rows whose texts hold the separator can have one canonical form. *)
Lemma texts_with_bars_collide debug_f64 :
  canonical_row debug_f64 ["a"; "b"] [VText "p'|b='q"; VText "r"] =
  canonical_row debug_f64 ["a"; "b"] [VText "p"; VText "q'|b='r"].
Proof. reflexivity. Qed.

(** ** Two small wallets *)

Definition accounts_of (uuid : string) : Table := mkTable ["id"; "uuid"; "name"] [[VInteger 1; VText uuid; VText "main"]].
Definition nullifiers_of (old : Z) : Table :=
  mkTable ["block_height"; "nf"] [[VInteger old; VBlob [Byte.x01]]; [VInteger 2000; VBlob [Byte.x0a; Byte.xff]]; [VInteger 1990; VNull]].
Definition small_wallet (uuid : string) (old : Z) : Db :=
  <["accounts" := accounts_of uuid]> (<["nullifier_map" := nullifiers_of old]> ∅).
Definition small_diff (a b : Db) : Res (list TableDiff) :=
  semantic_diff (fun _ => "") (fun c => Some (VText c)) 100 (fun _ => None) None None a b.

(** A row of the window that differs is listed on both sides. *)
Example small_diff_lists :
  small_diff (small_wallet "u1" 1995) (small_wallet "u2" 1996) =
  Ok [mkDiff "accounts" 1 1 [] [];
      mkDiff "nullifier_map" 3 3 ["block_height=1995|nf=x'01'|"] ["block_height=1996|nf=x'01'|"]].
Proof. vm_compute. reflexivity. Qed.
(** A second row of B in a table A does not have is not reported. *)
Example small_diff_misses :
  small_diff (<["accounts" := accounts_of "u"]> ∅) (small_wallet "u" 1995) =
  Ok [mkDiff "accounts" 1 1 [] []; mkDiff "nullifier_map" 0 0 [] []].
Proof. vm_compute. reflexivity. Qed.

Lemma small_wallet_lookup uuid old t tb : small_wallet uuid old !! t = Some tb ->
  (t = "accounts" /\ tb = accounts_of uuid) \/ (t = "nullifier_map" /\ tb = nullifiers_of old).
Proof.
  unfold small_wallet. intros [[<- <-]|[_ [[<- <-]|[_ H]]%lookup_insert_Some]]%lookup_insert_Some; [by left|by right|done].
Qed.
Lemma small_table_ok uuid old t tb : nobar uuid -> small_wallet uuid old !! t = Some tb -> table_ok t tb.
Proof.
  intros Hu [[-> ->]|[-> ->]]%small_wallet_lookup; (split_and!; [by apply (bool_decide_unpack _)| |done|]).
  - repeat constructor. cbn [forallb plain]. repeat (apply andb_True; split; [done|]). done.
  - intros H. exfalso. revert H. by apply (bool_decide_unpack _).
  - repeat constructor.
  - intros _. by apply (bool_decide_unpack _).
Qed.
(** Two wallets that differ in the account's random id and below the window read as clean. *)
Lemma oracle_clean_iff_same_rows_witness :
  exists report, small_diff (small_wallet "u1" 7) (small_wallet "u2" 8) = Ok report /\ report_is_clean report = true /\
    compared_rows (fun c => Some (VText c)) (Some 1900) "nullifier_map" (nullifiers_of 7) ≡ₚ
    compared_rows (fun c => Some (VText c)) (Some 1900) "nullifier_map" (nullifiers_of 8).
Proof.
  destruct (oracle_clean_iff_same_rows (fun _ => "") (fun c => Some (VText c)) 100 (small_wallet "u1" 7) (small_wallet "u2" 8))
    as (report & E & Hiff).
  - intros t. unfold small_wallet. destruct (decide (t = "accounts")) as [->|]; [done|].
    rewrite !(lookup_insert_ne _ "accounts") by done. by destruct (decide (t = "nullifier_map")) as [->|]; [|rewrite !lookup_insert_ne].
  - intros t tb _ [H|H]; by eapply small_table_ok in H.
  - exists report. split; [done|]. assert (report_is_clean report = true) as Hc.
    { vm_compute in E. injection E as <-. reflexivity. }
    split; [done|]. exact (proj1 Hiff Hc "nullifier_map" (nullifiers_of 7) (nullifiers_of 8) eq_refl eq_refl eq_refl).
Defined.
Lemma oracle_diff_exact_witness :
  exists d, diff_table (fun _ => "") (fun c => Some (VText c)) 100 (fun _ => None)
      (small_wallet "u1" 1995) (small_wallet "u2" 1996) "nullifier_map" = Ok d /\ d.(rows_a) = 3.
Proof.
  destruct (oracle_diff_exact (fun _ => "") (fun c => Some (VText c)) 100 (fun _ => None)
      (small_wallet "u1" 1995) (small_wallet "u2" 1996) "nullifier_map" (fun _ => eq_refl)) as (d & E & _ & Ha & _).
  exists d. split; [done|]. rewrite Ha. vm_compute. reflexivity.
Defined.
Lemma oracle_window_keeps_recent_witness :
  exists top, 1900 = sat_sub top 100 /\ top = 2000.
Proof.
  pose proof (oracle_window_keeps_recent (fun c => Some (VText c)) 100 (small_wallet "u1" 7) (small_wallet "u2" 8)
    "nullifier_map" (nullifiers_of 7) (nullifiers_of 8)) as H.
  destruct H as (top & _ & E & _); try (by apply (bool_decide_unpack _)); try done.
  - cbn. repeat (apply Forall_cons; split; [right; eexists; (split; [reflexivity|]); unfold is_u32, u32_max; lia|]). apply Forall_nil_2.
  - exists top. change (1900 = sat_sub top 100) in E. split; [done|]. unfold sat_sub in E. lia.
Defined.
End Oracle.
