(* ===== verification/Network.v ===== *)
(** * Network parameters and the provisioning anchor: [core/src/network.rs], [core/src/anchor.rs]

    A network is a stock one, whose parameters are the protocol library's, or a custom chain
    with its own activation heights.  The anchor is what a host creating or restoring a wallet
    asks for before the first pass. *)

From S2P Require Export Grpc.
Import Config Connector Grpc.

Module Network.

Inductive NetworkUpgrade := Overwinter | Sapling | Blossom | Heartwood | Canopy | Nu5 | Nu6 | Nu6_1 | Nu6_2 | Nu6_3 | Nu7.
Inductive NetworkType := Main | Test | Regtest.
Inductive StockNetwork := MainNetwork | TestNetwork.

(** What the protocol library says of the stock networks, and how it reads an activation height. *)
Class Protocol := mkProtocol {
  stock_type : StockNetwork -> NetworkType;
  stock_activation : StockNetwork -> NetworkUpgrade -> option Z;
  is_nu_active : (NetworkUpgrade -> option Z) -> NetworkUpgrade -> Z -> bool;
}.
Class ProtocolLaws `{!Protocol} : Prop :=
  nu_active_from : forall act nu h, is_nu_active act nu h = match act nu with Some a => a <=? h | None => false end.

(** [struct CustomActivations]. *)
Record CustomActivations := mkActivations {
  overwinter : option Z; sapling_at : option Z; blossom : option Z; heartwood : option Z; canopy : option Z;
  nu5 : option Z; nu6 : option Z; nu6_1 : option Z; nu6_2 : option Z; nu6_3 : option Z; nu7 : option Z;
}.
Definition all_from_genesis : CustomActivations :=
  mkActivations (Some 1) (Some 1) (Some 1) (Some 1) (Some 1) (Some 1) (Some 1) (Some 1) (Some 1) (Some 1) None.

(** [enum SlipstreamNetwork]. *)
Inductive SlipstreamNetwork := Standard (n : StockNetwork) | Custom (constants : NetworkType) (heights : CustomActivations).

Section Parameters.
Context `{!Protocol}.

Definition network_type (net : SlipstreamNetwork) : NetworkType :=
  match net with Standard n => stock_type n | Custom constants _ => constants end.

Definition activation_height (net : SlipstreamNetwork) (nu : NetworkUpgrade) : option Z :=
  match net with
  | Standard n => stock_activation n nu
  | Custom _ heights =>
    match nu with
    | Overwinter => heights.(overwinter) | Sapling => heights.(sapling_at) | Blossom => heights.(blossom)
    | Heartwood => heights.(heartwood) | Canopy => heights.(canopy) | Nu5 => heights.(nu5) | Nu6 => heights.(nu6)
    | Nu6_1 => heights.(nu6_1) | Nu6_2 => heights.(nu6_2) | Nu6_3 => heights.(nu6_3) | Nu7 => heights.(nu7)
    end
  end.

(** A genesis chain runs every deployed upgrade from its first block, and not NU7. *)
Lemma genesis_active `{!ProtocolLaws} constants nu h : is_nu_active (activation_height (Custom constants all_from_genesis)) nu h = true <->
  1 <= h /\ nu <> Nu7.
Proof. rewrite nu_active_from. destruct nu; cbn; rewrite ?Z.leb_le; naive_solver. Qed.
End Parameters.

(** ** The anchor *)

Definition ANCHOR_MAX_REORG_BLOCKS : Z := 100.
Definition i32_max : Z := 2 ^ 31 - 1.

Inductive AnchorIntent := Restore (birthday fallback_checkpoint : Z) | New.
(** The height and payload of a tree state. *)
Record TreeState (A : Type) := mkTreeState { ts_height : Z; ts_rest : A }.
Arguments mkTreeState {A}.
Arguments ts_height {A}.
Arguments ts_rest {A}.
Record Anchor (A : Type) := mkAnchor { anchor_height : Z; treestate : option (TreeState A) }.
Arguments mkAnchor {A}.
Arguments anchor_height {A}.
Arguments treestate {A}.

(** [usable_height], [offline_anchor]. *)
Definition usable_height (height : Z) : option Z := if height <=? i32_max then Some height else None.
Definition offline_anchor {A} (intent : AnchorIntent) : Anchor A :=
  match intent with
  | Restore birthday fallback_checkpoint => mkAnchor (Z.max fallback_checkpoint (sat_add64 birthday 1)) None
  | New => mkAnchor 0 None
  end.

(** [client_via]: [None] while the circuits or dials given do not decide it; one dial decides a
    direct connect. *)
Definition client_via (ep : Endpoint) (tor : option (option string * list Circuit)) (dials : list Dial) : option (option LwdClient) :=
  match tor with
  | Some _ => match connect_via ep tor MetadataUnique dials with
              | Some (Ok c) => Some (Some c)
              | Some (Err _) => Some None
              | None => None
              end
  | None => match dials with
            | d :: _ => Some (match connect ep d with Ok c => Some c | Err _ => None end)
            | [] => None
            end
  end.

Section Anchor.
Context {A : Type} (ep : Endpoint) (tor : option (option string * list Circuit)) (dials : list Dial).
(** What the server answers. *)
Context (latest_block : Unary Z) (tree_state : Z -> Unary (TreeState A)).

(** [tip_via], with the channels the calls went over. *)
Definition latest (c : LwdClient) : option Z :=
  match with_unary_timeout "get_latest_block" latest_block with Ok h => usable_height h | Err _ => None end.
Definition tip_via : option (option Z * list LwdClient) :=
  match client_via ep tor dials with
  | None => None
  | Some None => Some (None, [])
  | Some (Some c) => Some (latest c, [c])
  end.

(** The fetch for a new wallet. *)
Definition fetch_anchor (sapling_activation : Z) : option (option (Anchor A) * list LwdClient) :=
  match client_via ep tor dials with
  | None => None
  | Some None => Some (None, [])
  | Some (Some c) =>
    match latest c with
    | None => Some (None, [c])
    | Some tip =>
      let at_ := Z.max (sat_sub tip ANCHOR_MAX_REORG_BLOCKS) sapling_activation in
      Some (match with_unary_timeout "get_tree_state" (tree_state at_) with
            | Err _ => None
            | Ok ts =>
              match usable_height ts.(ts_height) with
              | Some h => if h =? at_ then Some (mkAnchor ts.(ts_height) (Some ts)) else None
              | None => None
              end
            end, [c; c])
    end
  end.

(** [restore_anchor]: the anchor, and the channel of each call. *)
Definition restore_anchor `{!Protocol} (network : SlipstreamNetwork) (intent : AnchorIntent) : option (Anchor A * list LwdClient) :=
  match intent with
  | Restore _ _ =>
    match tip_via with
    | None => None
    | Some (Some tip, calls) => Some (mkAnchor tip None, calls)
    | Some (None, calls) => Some (offline_anchor intent, calls)
    end
  | New =>
    let sapling_activation := default 0 (activation_height network Sapling) in
    match fetch_anchor sapling_activation with
    | None => None
    | Some (Some anchor, calls) => Some (anchor, calls)
    | Some (None, calls) => Some (offline_anchor intent, calls)
    end
  end.

Lemma client_via_decides : match tor with Some (_, cs) => (3 <= length cs)%nat | None => (1 <= length dials)%nat end ->
  exists o, client_via ep tor dials = Some o /\ forall c, o = Some c -> c = match tor with Some _ => OverTor Isolated | None => Direct end.
Proof.
  unfold client_via. destruct tor as [[u cs]|]; intros Hl.
  - unfold connect_via. cbn [tor_mode]. unfold tor_connect. destruct u as [u|]; [by exists None|].
    destruct (circuit_loop_ends Isolated cs TOR_CONNECT_ATTEMPTS None Hl) as [r Hr]. rewrite Hr.
    destruct (circuit_loop_spec _ _ _ _ _ Hr) as [->|(e & -> & _)]; eexists; (split; [done|]); [by intros c [= <-]|done].
  - destruct dials as [|d ds]; [cbn in Hl; lia|]. eexists. split; [done|]. intros c. unfold connect. repeat case_match; by intros; simplify_eq.
Qed.

Lemma latest_usable c tip : latest c = Some tip -> latest_block = Answered tip /\ tip <= i32_max.
Proof.
  unfold latest. destruct latest_block as [h| |]; cbn; [|done|done]. unfold usable_height.
  destruct (Z.leb_spec h i32_max); [by intros [= <-]|done].
Qed.
End Anchor.

(** Provisioning always answers.  A restore gets the server's tip, which fits a host's [i32], or, when
    the server cannot be used, a height no lower than the bundled checkpoint and above the
    birthday, so it is never taken for a new wallet.  A new wallet gets the tree state 100 blocks
    under the tip and not under Sapling's activation, or nothing.  With Tor asked for, every call
    goes over an isolated circuit; a Tor that fails is an unreachable server. *)
Theorem anchor_policy `{!Protocol} {A} ep tor dials latest_block (tree_state : Z -> Unary (TreeState A)) network intent :
  match tor with Some (_, cs) => (3 <= length cs)%nat | None => (1 <= length dials)%nat end ->
  exists a calls, restore_anchor ep tor dials latest_block tree_state network intent = Some (a, calls) /\
    Forall (fun c => c = match tor with Some _ => OverTor Isolated | None => Direct end) calls /\
    match intent with
    | Restore birthday checkpoint =>
      a.(treestate) = None /\
      ((latest_block = Answered a.(anchor_height) /\ a.(anchor_height) <= i32_max) \/
       (checkpoint <= a.(anchor_height) /\ (birthday < u64_max -> birthday < a.(anchor_height))))
    | New =>
      a = mkAnchor 0 None \/
      exists tip ts, latest_block = Answered tip /\ tip <= i32_max /\
        tree_state a.(anchor_height) = Answered ts /\ a.(treestate) = Some ts /\ ts.(ts_height) = a.(anchor_height) /\
        a.(anchor_height) = Z.max (sat_sub tip 100) (default 0 (activation_height network Sapling)) /\ a.(anchor_height) <= i32_max
    end.
Proof.
  intros Hl. destruct (client_via_decides ep tor dials Hl) as (o & Ho & Hc). unfold restore_anchor.
  destruct intent as [birthday checkpoint|].
  - unfold tip_via. rewrite Ho.
    assert (checkpoint <= Z.max checkpoint (sat_add64 birthday 1) /\ (birthday < u64_max -> birthday < Z.max checkpoint (sat_add64 birthday 1))) as Hoff
      by (unfold sat_add64; lia).
    destruct o as [c|]; [|by do 2 eexists; split; [done|]; split; [constructor|]; split; [done|right]].
    destruct (latest latest_block c) as [tip|] eqn:El.
    + apply latest_usable in El as [-> Hle]. do 2 eexists. split; [done|]. split; [repeat constructor; by apply Hc|]. auto.
    + do 2 eexists. split; [done|]. split; [repeat constructor; by apply Hc|]. split; [done|by right].
  - unfold fetch_anchor. rewrite Ho. destruct o as [c|]; [|do 2 eexists; split; [done|]; split; [constructor|by left]].
    destruct (latest latest_block c) as [tip|] eqn:El; [|do 2 eexists; split; [done|]; split; [repeat constructor; by apply Hc|by left]].
    apply latest_usable in El as [-> Hle]. cbv zeta. set (at_ := Z.max (sat_sub tip ANCHOR_MAX_REORG_BLOCKS) _).
    assert (Forall (fun c => c = match tor with Some _ => OverTor Isolated | None => Direct end) [c; c]) as Hcalls
      by (repeat constructor; by apply Hc).
    destruct (tree_state at_) as [ts| |] eqn:Ets; cbn [with_unary_timeout]; [|by do 2 eexists; split; [done|]; split; [|left]..].
    unfold usable_height. destruct (Z.leb_spec ts.(ts_height) i32_max) as [Hts|]; [|by do 2 eexists; split; [done|]; split; [|left]].
    destruct (Z.eqb_spec ts.(ts_height) at_) as [Heq|]; [|by do 2 eexists; split; [done|]; split; [|left]].
    do 2 eexists. split; [done|]. split; [done|]. right. exists tip, ts. cbn. rewrite Heq. split_and!; try done. lia.
Qed.

#[local] Instance sample_protocol : Protocol :=
  mkProtocol (fun n => match n with MainNetwork => Main | TestNetwork => Test end) (fun _ nu => match nu with Sapling => Some 419200 | _ => None end)
    (fun act nu h => match act nu with Some a => a <=? h | None => false end).
Example anchor_policy_instance : restore_anchor (mkEndpoint "zec.rocks" 443 true) (Some (None, [CircuitTimeout; CircuitTimeout; CircuitTimeout])) []
    (Answered 3000000) (fun h => Answered (mkTreeState h tt)) (Standard MainNetwork) (Restore 2500000 2400000)
  = Some (mkAnchor 2500001 None, []).
Proof. reflexivity. Qed.
End Network.
