(* ===== verification/Cli.v ===== *)
(** * The command line tool: [cli/src/main.rs]

    The readers of its arguments, the configurations its commands build from them, and what the
    [oracle] command does with two syncs and a diff.  Argument text is ASCII.  A failed reading is the error
    it names; the commands print it and exit with status 2.  The sync and the diff are arguments,
    as is the library's key decoder. *)

From S2P Require Export Config Network.
From S2P Require Import Grpc Oracle Reconcile.
From Stdlib Require Import Ascii.

Module Cli.
Import Config Network.

(** ** Text *)

(** [str::trim], [str::split_once] with a character and with [..], [str::split]. *)
Definition is_space (c : Ascii.ascii) : bool := let n := Ascii.nat_of_ascii c in ((9 <=? n) && (n <=? 13) || (n =? 32))%nat.
Fixpoint trim_start (s : string) : string :=
  match s with String c s' => if is_space c then trim_start s' else s | EmptyString => EmptyString end.
Fixpoint trim_end_matches (p : Ascii.ascii -> bool) (s : string) : string :=
  match s with
  | EmptyString => EmptyString
  | String c s' =>
    match trim_end_matches p s' with
    | EmptyString => if p c then EmptyString else String c EmptyString
    | t => String c t
    end
  end.
Definition trim (s : string) : string := trim_end_matches is_space (trim_start s).
Fixpoint split_once (c : Ascii.ascii) (s : string) : option (string * string) :=
  match s with
  | EmptyString => None
  | String a s' => if bool_decide (a = c) then Some (EmptyString, s') else
                   match split_once c s' with Some (l, r) => Some (String a l, r) | None => None end
  end.
Fixpoint split_at_text (pat s : string) : option (string * string) :=
  match strip_prefix pat s with
  | Some r => Some (EmptyString, r)
  | None => match s with
            | EmptyString => None
            | String a s' => match split_at_text pat s' with Some (l, r) => Some (String a l, r) | None => None end
            end
  end.
Fixpoint split (c : Ascii.ascii) (s : string) : list string :=
  match s with
  | EmptyString => [EmptyString]
  | String a s' =>
    if bool_decide (a = c) then EmptyString :: split c s'
    else match split c s' with p :: ps => String a p :: ps | [] => [String a EmptyString] end
  end.

(** [FromStr] of an unsigned integer up to [max]. *)
Inductive IntError := Empty | InvalidDigit | PosOverflow.
Fixpoint parse_uint_digits (max : Z) (s : string) (acc : Z) : result IntError Z :=
  match s with
  | EmptyString => Ok acc
  | String a s' =>
    match digit_of a with
    | None => Err InvalidDigit
    | Some d => if acc * 10 + d <=? max then parse_uint_digits max s' (acc * 10 + d) else Err PosOverflow
    end
  end.
Definition parse_uint (max : Z) (s : string) : result IntError Z :=
  match s with
  | EmptyString => Err Empty
  | String "+"%char EmptyString => Err InvalidDigit
  | String "+"%char s' => parse_uint_digits max s' 0
  | _ => parse_uint_digits max s 0
  end.

(** ** Arguments *)

Inductive ArgError :=
| ServerScheme | ServerPort | BadPort (e : IntError)
| RangeInclusive | RangeForm | BadStart (e : IntError) | BadEnd (e : IntError) | RangeOrder
| ExpectedPair (part : string) | BadHeight (part : string) (e : IntError) | UnknownUpgrade (key : string)
| InvalidUfvk (e : string) | BirthdayRange (birthday : Z) | UfvkNeedsBirthday.

Definition with_error {E A} (f : E -> ArgError) (r : result E A) : result ArgError A := match r with Ok a => Ok a | Err e => Err (f e) end.

(** [parse_server]. *)
Definition parse_server (s : string) : result ArgError Endpoint :=
  let? (tls, rest) := match strip_prefix "https://" s with
                      | Some r => Ok (true, r)
                      | None => match strip_prefix "http://" s with Some r => Ok (false, r) | None => Err ServerScheme end
                      end in
  match split_once ":"%char (trim_end_matches (Ascii.eqb "/"%char) rest) with
  | None => Err ServerPort
  | Some (host, port) => let? port := with_error BadPort (parse_uint 65535 port) in Ok (mkEndpoint host port tls)
  end.

(** [parse_range]. *)
Definition parse_range (s : string) : result ArgError (Z * Z) :=
  if Grpc.contains s "..=" then Err RangeInclusive
  else
    match split_at_text ".." s with
    | None => Err RangeForm
    | Some (a, b) =>
      let? start := with_error BadStart (parse_uint u64_max (trim a)) in
      let? end_ := with_error BadEnd (parse_uint u64_max (trim b)) in
      if end_ <? start then Err RangeOrder else Ok (start, end_)
    end.

(** [parse_custom_heights]. *)
#[export] Instance eta_CustomActivations : Eta CustomActivations := fun h =>
  mkActivations h.(overwinter) h.(sapling_at) h.(blossom) h.(heartwood) h.(canopy) h.(nu5) h.(nu6) h.(nu6_1) h.(nu6_2) h.(nu6_3) h.(nu7).
Definition no_activations : CustomActivations := mkActivations None None None None None None None None None None None.
Definition set_activation (key : string) (height : Z) (h : CustomActivations) : option CustomActivations :=
  let v := Some height in
  if bool_decide (key = "overwinter") then Some (h <| overwinter := v |>)
  else if bool_decide (key = "sapling") then Some (h <| sapling_at := v |>)
  else if bool_decide (key = "blossom") then Some (h <| blossom := v |>)
  else if bool_decide (key = "heartwood") then Some (h <| heartwood := v |>)
  else if bool_decide (key = "canopy") then Some (h <| canopy := v |>)
  else if bool_decide (key = "nu5") then Some (h <| nu5 := v |>)
  else if bool_decide (key = "nu6") then Some (h <| nu6 := v |>)
  else if bool_decide (key = "nu6_1") then Some (h <| nu6_1 := v |>)
  else if bool_decide (key = "nu6_2") then Some (h <| nu6_2 := v |>)
  else if bool_decide (key = "nu6_3") then Some (h <| nu6_3 := v |>)
  else if bool_decide (key = "nu7") then Some (h <| nu7 := v |>)
  else None.
Definition apply_part (part : string) (h : CustomActivations) : result ArgError CustomActivations :=
  if bool_decide (part = "genesis") then Ok all_from_genesis
  else
    match split_once "="%char part with
    | None => Err (ExpectedPair part)
    | Some (key, val) =>
      let? height := with_error (BadHeight part) (parse_uint u32_max (trim val)) in
      match set_activation (trim key) height h with Some h => Ok h | None => Err (UnknownUpgrade (trim key)) end
    end.
Fixpoint apply_parts (parts : list string) (h : CustomActivations) : result ArgError CustomActivations :=
  match parts with
  | [] => Ok h
  | p :: ps => let? h := apply_part p h in apply_parts ps h
  end.
Definition parse_custom_heights (spec : string) : result ArgError CustomActivations :=
  apply_parts (filter (fun p => p <> "") (trim <$> split ","%char spec)) no_activations.

(** [NetworkArg], [resolve_network]. *)
Inductive NetworkArg := ArgMain | ArgTest.
Definition to_network (a : NetworkArg) : StockNetwork := match a with ArgMain => MainNetwork | ArgTest => TestNetwork end.
Definition to_network_type (a : NetworkArg) : NetworkType := match a with ArgMain => Main | ArgTest => Test end.
Definition resolve_network (a : NetworkArg) (custom_heights : option string) : result ArgError SlipstreamNetwork :=
  match custom_heights with
  | None => Ok (Standard (to_network a))
  | Some spec => let? heights := parse_custom_heights spec in Ok (Custom (to_network_type a) heights)
  end.

(** [parse_account], [validate_sync_args]. *)
Section Accounts.
Context {Key : Type} (decode : string -> result string Key).
Definition parse_account (ufvk : string) (birthday : Z) : result ArgError (Key * Z) :=
  let? key := with_error InvalidUfvk (decode ufvk) in
  match u32_try_from birthday with Some b => Ok (key, b) | None => Err (BirthdayRange birthday) end.
Definition validate_sync_args (ufvk : option string) (birthday : option Z) : result ArgError (list (Key * Z)) :=
  match ufvk, birthday with
  | Some u, Some b => let? a := parse_account u b in Ok [a]
  | None, None => Ok []
  | Some _, None => Err UfvkNeedsBirthday
  | None, Some _ => Ok []
  end.
End Accounts.

(** ** Display *)

Definition event_tag_name (tag : Z) : string :=
  if tag =? 1 then "SyncStarted" else if tag =? 2 then "SyncProgress" else if tag =? 3 then "SyncDone"
  else if tag =? 4 then "SyncError" else if tag =? 5 then "FoundTransactions" else "Unknown".
Definition pad8 (s : string) : string := Nat.iter (8 - String.length s) (fun t => "0" +:+ t) s.
Definition zec_display (zat : Z) : string :=
  let a := Z.abs zat in
  (if zat <? 0 then "-" else "") +:+ pretty (a / 100000000) +:+ "." +:+ pad8 (pretty (a mod 100000000)).
Definition uuid_prefix (b : list Byte.byte) : string := Oracle.hex (take 4 b).

(** The balances of a [watch] line: the recovery view while recovering, the wallet's summary else. *)
Definition watch_balances (is_recovering : bool) (db : option Reconcile.Db) (summary : option (list (list Byte.byte * Z)))
  : list (string * Z * string) :=
  if is_recovering then
    match db with
    | Some db => match Reconcile.recovery_balances db with
                 | Ok rows => (fun r => (uuid_prefix r.1, r.2, "Σ reconciled (recovering)")) <$> rows
                 | Err _ => []
                 end
    | None => []
    end
  else (fun r => (uuid_prefix r.1, Z.min r.2 (2 ^ 63 - 1), "upstream summary")) <$> default [] summary.
Definition watch_visible (is_recovering : bool) (db : option Reconcile.Db) : Z :=
  match db with Some db => Z.min (Reconcile.visible_mined_tx_count db is_recovering) (2 ^ 63 - 1) | None => -1 end.

(** ** Configurations *)

(** The settings of [cmd_sync], [cmd_bench] and of the two runs of [cmd_oracle]. *)
Record SyncArgs := mkSyncArgs {
  a_streams : Z; a_chunk : Z; a_sparse : bool; a_split : Z; a_budget : Z; a_write_behind : bool; a_gpu : bool; a_depth : Z;
}.
Definition sync_config (e : Endpoint) (a : SyncArgs) : EngineConfig :=
  let cfg := config_new e in
  cfg <| fetch_streams := a.(a_streams) |> <| chunk_blocks := a.(a_chunk) |> <| sparse_persistence := a.(a_sparse) |>
      <| chunk_split_bytes := a.(a_split) |> <| memory_budget_bytes := a.(a_budget) |>
      <| write_behind := a.(a_write_behind) && a.(a_sparse) |> <| gpu_subtree := a.(a_gpu) && a.(a_sparse) |>
      <| graft_subtree := cfg.(graft_subtree) && a.(a_sparse) |> <| persist_depth := a.(a_depth) |>.
Definition bench_config (e : Endpoint) (alternates : list Endpoint) (graft gpu batch local : bool) (verify depth graft_sample : Z) : EngineConfig :=
  (config_new e) <| gpu_subtree := gpu |> <| graft_subtree := graft |> <| local_treestate := local |>
    <| treestate_verify_sample := verify |> <| persist_depth := depth |> <| graft_verify_sample := graft_sample |>
    <| batch_combine := batch |> <| alternate_endpoints := alternates |>.
Definition mk_cfg (e : Endpoint) (streams chunk : Z) (sparse write_behind_ gpu : bool) (depth : Z) : EngineConfig :=
  (config_new e) <| fetch_streams := streams |> <| chunk_blocks := chunk |> <| sparse_persistence := sparse |>
    <| write_behind := write_behind_ |> <| gpu_subtree := gpu |> <| persist_depth := depth |>.

(** [cmd_throttle_proxy]'s cap, in a release build. *)
Definition throttle_cap (cap_kbps : Z) : Z := if cap_kbps =? 0 then u64_max else u64_mul cap_kbps 1024.

(** ** The oracle command *)

Inductive Verdict := Identical | Diverged | Failed (e : SlipstreamError) | TipSkew (a b : Z) | Refused.
Definition exit_code (v : Verdict) : Z :=
  match v with Identical => 0 | Diverged => 1 | Failed _ => 1 | TipSkew _ _ => 3 | Refused => 2 end.

Section OracleCmd.
(** [sync]: how a sync into wallet A or B with a configuration ends, by its tip. *)
Context (gpu_feature : bool) (sync : bool -> EngineConfig -> Res Z) (diff : Res (list Oracle.TableDiff)).
Definition cmd_oracle (server : string) (fresh_a fresh_b account_ok : bool) (sparse_b write_behind_b gpu_b : bool) (depth_b streams chunk : Z) : Verdict :=
  match parse_server server with
  | Err _ => Refused
  | Ok e =>
    if (write_behind_b && negb sparse_b) || (gpu_b && negb sparse_b) || (gpu_b && negb gpu_feature) || negb fresh_a || negb fresh_b || negb account_ok
    then Refused
    else
      match sync true (mk_cfg e streams chunk false false false 1) with
      | Err err => Failed err
      | Ok tip_a =>
        match sync false (mk_cfg e streams chunk sparse_b write_behind_b gpu_b depth_b) with
        | Err err => Failed err
        | Ok tip_b =>
          if negb (tip_a =? tip_b) then TipSkew tip_a tip_b
          else match diff with
               | Err err => Failed err
               | Ok report => if Oracle.report_is_clean report then Identical else Diverged
               end
        end
      end
  end.
End OracleCmd.

(** ** Configurations that no sync accepts *)

(** The graft needs both the sparse path and write-behind. *)
Lemma graft_needs_both c : c.(graft_subtree) = true -> c.(sparse_persistence) && c.(write_behind) = false ->
  exists m, validate c = Err (Config m).
Proof.
  intros Hg Hsw. unfold validate. rewrite Hg. cbn [andb].
  destruct (sparse_persistence c), (write_behind c); try discriminate Hsw; cbn [negb andb]; repeat (case_match; try (by eexists)).
Qed.

Lemma sync_config_eq e a : sync_config e a =
  mkEngineConfig e [] true a.(a_streams) a.(a_chunk) a.(a_budget) a.(a_split) None DEFAULT_ENHANCE_EVERY_CHUNKS a.(a_sparse)
    (a.(a_write_behind) && a.(a_sparse)) (a.(a_gpu) && a.(a_sparse)) a.(a_sparse) 16 true false 1 a.(a_depth).
Proof. reflexivity. Qed.

(** C37: The write-behind kill switch of [sync] does not work: with the sparse path on and
    write-behind off, whatever the other settings, the configuration keeps the graft on and is
    refused.  With the sparse path off, or write-behind on, it is refused only for a setting out of
    its own range. *)
Theorem write_behind_kill_switch_refused e a :
  (a.(a_sparse) = true -> a.(a_write_behind) = false -> exists m, validate (sync_config e a) = Err (Config m)) /\
  (a.(a_sparse) = false \/ a.(a_write_behind) = true -> e.(host) <> "" -> 1 <= a.(a_streams) -> 100 <= a.(a_chunk) ->
     16 * MiB <= a.(a_budget) -> MiB <= a.(a_split) -> 1 <= a.(a_depth) <= 64 -> validate (sync_config e a) = Ok tt).
Proof.
  split.
  - intros Hs Hw. apply graft_needs_both; cbn; by rewrite Hs, ?Hw.
  - intros Hsw Hh H1 H2 H3 H4 H5. rewrite sync_config_eq. unfold validate. cbn [endpoint host fetch_streams chunk_blocks
      memory_budget_bytes chunk_split_bytes scan_batch_target_ms enhance_every_chunks sparse_persistence write_behind gpu_subtree graft_subtree persist_depth].
    rewrite bool_decide_false by done.
    rewrite (proj2 (Z.eqb_neq a.(a_streams) 0)), (proj2 (Z.ltb_ge a.(a_chunk) 100)), (proj2 (Z.ltb_ge a.(a_budget) (16 * MiB))), (proj2 (Z.ltb_ge a.(a_split) MiB)) by lia.
    rewrite (proj2 (Z.eqb_neq a.(a_depth) 0)), (proj2 (Z.ltb_ge 64 _)) by lia.
    destruct a as [? ? [] ? ? [] [] ?]; cbn in *; try done; by destruct Hsw.
Qed.

(** C36: The [oracle] command never compares: its first run turns the sparse path and write-behind
    off and leaves the graft on, a configuration every sync refuses, so whatever the arguments it
    ends refused or failed, without a sync of the second wallet. *)
Theorem oracle_command_never_compares gpu_feature sync diff server fresh_a fresh_b account_ok sparse_b wb_b gpu_b depth_b streams chunk :
  (forall side c err, validate c = Err err -> sync side c = Err err) ->
  let v := cmd_oracle gpu_feature sync diff server fresh_a fresh_b account_ok sparse_b wb_b gpu_b depth_b streams chunk in
  v = Refused \/ exists m, v = Failed (Config m).
Proof.
  intros Hg. cbv zeta. unfold cmd_oracle. destruct (parse_server server) as [e|]; [|by left]. destruct (_ || _); [by left|].
  destruct (graft_needs_both (mk_cfg e streams chunk false false false 1) eq_refl eq_refl) as [m Hm].
  rewrite (Hg true _ _ Hm). eauto.
Qed.
Lemma write_behind_kill_switch_refused_witness :
  let a := mkSyncArgs 4 10000 true (32 * MiB) (256 * MiB) false false 1 in
  exists m, validate (sync_config (mkEndpoint "zec.rocks" 443 true) a) = Err (Config m).
Proof. intros a. exact (proj1 (write_behind_kill_switch_refused (mkEndpoint "zec.rocks" 443 true) a) eq_refl eq_refl). Defined.
Lemma oracle_command_never_compares_witness :
  let sync (side : bool) c : Res Z := match validate c with Ok _ => Ok 2500 | Err e => Err e end in
  exists m, cmd_oracle false sync (Ok []) "https://zec.rocks:443" true true true true true false 1 4 10000 = Failed (Config m).
Proof.
  intros sync. destruct (oracle_command_never_compares false sync (Ok []) "https://zec.rocks:443" true true true true true false 1 4 10000) as [H|H].
  - intros side c err H. unfold sync. by rewrite H.
  - exfalso. vm_compute in H. discriminate H.
  - exact H.
Defined.

(** ** Reading what is printed *)

Lemma pretty_N_digits max (x : N) : Z.of_N x <= max ->
  forall s, parse_uint_digits max (pretty_N_go x s) 0 = parse_uint_digits max s (Z.of_N x) /\ (all_digits s -> all_digits (pretty_N_go x s)).
Proof.
  induction (N.lt_wf_0 x) as [x _ IH]. intros Hx s. destruct (decide (x = 0)%N) as [->|Hne]; [done|].
  rewrite pretty_N_go_step by lia. assert (x / 10 < x)%N as Hlt by (apply N.div_lt; lia).
  assert (Z.of_N (x / 10) <= max) as Hle by lia.
  assert (x mod 10 < 10)%N as Hm by (by apply N.mod_lt).
  destruct (IH (x / 10)%N Hlt Hle (String (pretty_N_char (x mod 10)) s)) as [H1 H2]. split.
  - rewrite H1. cbn [parse_uint_digits]. rewrite digit_of_char by done.
    assert (Z.of_N (x / 10) * 10 + Z.of_N (x mod 10) = Z.of_N x) as -> by (pose proof (N.div_mod x 10 ltac:(done)); lia).
    by rewrite (proj2 (Z.leb_le _ _) Hx).
  - intros Hs. apply H2. split; [|done]. rewrite digit_of_char by done. eauto.
Qed.
Lemma pretty_nonempty (x : N) : pretty x <> "" /\ all_digits (pretty x).
Proof.
  unfold pretty, pretty_N. case_decide; [split; [done|]; split; [by eexists|done]|].
  split; [|by apply (pretty_N_digits (Z.of_N x))]. rewrite pretty_N_go_step by lia.
  assert (forall y s, s <> "" -> pretty_N_go y s <> "") as Hne.
  { intros y. induction (N.lt_wf_0 y) as [y _ IH]. intros s Hs. destruct (decide (y = 0)%N) as [->|]; [done|].
    rewrite pretty_N_go_step by lia. apply IH; [apply N.div_lt; lia|done]. }
  by apply Hne.
Qed.
Lemma parse_uint_pretty max (z : Z) : 0 <= z <= max -> parse_uint max (pretty z) = Ok z.
Proof.
  intros Hz. assert (pretty z = pretty (Z.to_N z)) as -> by (by destruct z; try lia).
  destruct (pretty_nonempty (Z.to_N z)) as [Hne Hd]. unfold parse_uint.
  assert (parse_uint_digits max (pretty (Z.to_N z)) 0 = Ok z) as Hp.
  { unfold pretty, pretty_N. case_decide as E; [assert (z = 0) as -> by lia; by destruct max; [..|lia]|].
    rewrite (proj1 (pretty_N_digits max (Z.to_N z) ltac:(lia) "")). cbn. f_equal. lia. }
  destruct (pretty (Z.to_N z)) as [|c s]; [done|]. destruct Hd as [[d Hc] _].
  destruct c as [[] [] [] [] [] [] [] []]; try exact Hp; discriminate Hc.
Qed.

Lemma digits_not_slash s : all_digits s -> s <> "" -> forall l, trim_end_matches (Ascii.eqb "/"%char) (l +:+ s) = l +:+ s.
Proof.
  intros Hd Hne. assert (trim_end_matches (Ascii.eqb "/"%char) s = s) as Hs.
  { induction s as [|c s IH]; [done|]. destruct Hd as [[d Hc] Hd]. cbn [trim_end_matches].
    destruct s as [|c' s']; [cbn [trim_end_matches]|by rewrite IH].
    destruct (Ascii.eqb_spec "/"%char c) as [<-|]; [discriminate Hc|done]. }
  intros l. induction l as [|c l IH]; [done|]. change (String c l +:+ s) with (String c (l +:+ s)). cbn [trim_end_matches]. rewrite IH.
  destruct (l +:+ s) eqn:E; [|done]. destruct l; [by destruct Hne|done].
Qed.
Lemma split_once_app c l r : split_once c l = None -> split_once c (l +:+ String c r) = Some (l, r).
Proof.
  induction l as [|a l IH]; cbn [split_once]; intros H.
  - change ("" +:+ String c r) with (String c r). cbn. by rewrite bool_decide_true.
  - change (String a l +:+ String c r) with (String a (l +:+ String c r)). cbn [split_once]. case_bool_decide; [done|].
    destruct (split_once c l) as [[]|]; [done|]. by rewrite IH.
Qed.

(** A server argument that prints an endpoint reads as that endpoint, for every host without a
    colon and every 16-bit port; and a range that is read never runs backward. *)
Theorem server_argument_roundtrip e :
  split_once ":"%char e.(host) = None -> port_ok e.(port) ->
  parse_server (uri e) = Ok e /\
  forall s start end_, parse_range s = Ok (start, end_) -> start <= end_.
Proof.
  intros Hh Hp. split.
  - unfold parse_server, uri. destruct e as [h p tls]. cbn [host port Config.tls] in *.
    assert (trim_end_matches (Ascii.eqb "/"%char) (h +:+ ":" +:+ pretty p) = h +:+ ":" +:+ pretty p) as Ht.
    { rewrite <- string_app_assoc.
      assert (pretty p = pretty (Z.to_N p)) as -> by (destruct Hp; by destruct p; try lia).
      destruct (pretty_nonempty (Z.to_N p)). by apply digits_not_slash. }
    assert (forall r, strip_prefix "https://" ("https" +:+ "://" +:+ r) = Some r) as H1 by reflexivity.
    assert (forall r, strip_prefix "https://" ("http" +:+ "://" +:+ r) = None /\ strip_prefix "http://" ("http" +:+ "://" +:+ r) = Some r) as H2
      by (by split).
    destruct tls; [rewrite H1|rewrite (proj1 (H2 _)), (proj2 (H2 _))]; cbn [result_bind].
    all: rewrite Ht. all: change (":" +:+ pretty p) with (String ":"%char (pretty p)). all: rewrite split_once_app by done.
    all: rewrite parse_uint_pretty by (destruct Hp; lia). all: done.
  - intros s start end_. unfold parse_range. destruct (Grpc.contains _ _); [done|]. destruct (split_at_text _ _) as [[a b]|]; [|done].
    destruct (parse_uint _ (trim a)); cbn; [|done]. destruct (parse_uint _ (trim b)); cbn; [|done].
    destruct (Z.ltb_spec a1 a0); [done|]. by intros [= <- <-].
Qed.
Lemma server_argument_roundtrip_witness : parse_server "https://zec.rocks:443" = Ok (mkEndpoint "zec.rocks" 443 true).
Proof. apply (server_argument_roundtrip (mkEndpoint "zec.rocks" 443 true)); [reflexivity|by vm_compute]. Defined.

Example custom_heights_example :
  parse_custom_heights "genesis, nu6_3=5000" = Ok (all_from_genesis <| nu6_3 := Some 5000 |>) /\
  parse_custom_heights "nu7=9,genesis" = Ok all_from_genesis /\
  parse_custom_heights "nu8=1" = Err (UnknownUpgrade "nu8") /\ parse_custom_heights "nu5=x" = Err (BadHeight "nu5=x" InvalidDigit) /\
  zec_display (-123456789) = "-1.23456789" /\ parse_range "5..=7" = Err RangeInclusive /\ parse_range " 5 .. 7" = Ok (5, 7).
Proof. repeat split; vm_compute; reflexivity. Qed.
End Cli.
