(* ===== verification/Mempool.v ===== *)
(** * The mempool session and the transparent refresh: [core/src/mempool.rs], [core/src/transparent.rs]

    Two loops over what the server sends that end in wallet writes: the transactions of one
    mempool stream between two passes, and the unspent outputs of each account's addresses
    before a pass.  The wallet library is an interface of each. *)

From S2P Require Export Network.
Import Progress Connector Grpc Network.

(** ** The mempool session *)

Module Mempool.

Inductive SessionEnd := BlockBoundary | IdleReconnect.
(** Seconds. *)
Definition MEMPOOL_SESSION_IDLE : Z := 60.
Definition MEMPOOL_SESSION_IDLE_NU7 : Z := 40.
Definition SEEN_TXIDS_CAP : Z := 4096.

(** [mempool_session_idle]. *)
Definition mempool_session_idle `{!Protocol} (net : SlipstreamNetwork) (tip : Z) : Z :=
  let next := default u32_max (u32_try_from (sat_add64 tip 1)) in
  if is_nu_active (activation_height net) Nu7 next then MEMPOOL_SESSION_IDLE_NU7 else MEMPOOL_SESSION_IDLE.

Record SessionStats := mkStats { received : Z; stored_hits : Z }.
#[export] Instance eta_SessionStats : Eta SessionStats := fun s => mkStats s.(received) s.(stored_hits).

(** The wallet library as the session uses it; transaction ids as numbers. *)
Class MempoolWallet (W Tx : Type) := mkMempoolWallet {
  tx_read : list Byte.byte -> result string Tx;
  txid : Tx -> Z;
  decrypt_and_store : Tx -> W -> W * result string unit;
  has_transaction : Z -> W -> result string bool;
}.

Section Session.
Context {W Tx : Type} `{!MempoolWallet W Tx} (clock : nat -> Z).

(** The session's state: the ids seen, which outlive it, and what it has done; [attempted] lists
    the transactions handed to the wallet. *)
Record State := mkState {
  seen : gset Z; wallet : W; progress : option Progress; nticks : nat; stats : SessionStats; attempted : list Z;
}.
#[export] Instance eta_State : Eta State := fun s =>
  mkState s.(seen) s.(wallet) s.(progress) s.(nticks) s.(stats) s.(attempted).

(** A stored wallet transaction is announced. *)
Definition announce (st : State) : State :=
  let st := st <| stats := st.(stats) <| stored_hits := u64_add st.(stats).(stored_hits) 1 |> |> in
  match st.(progress) with
  | None => st
  | Some p => st <| progress := Some (bump_tx_set_version (clock (S st.(nticks))) (add_enhanced 1 (clock st.(nticks)) p)) |>
                 <| nticks := S (S st.(nticks)) |>
  end.

(** One message of the stream. *)
Definition on_message (data : list Byte.byte) (st : State) : State * Res unit :=
  let st := st <| stats := st.(stats) <| received := u64_add st.(stats).(received) 1 |> |> in
  match tx_read data with
  | Err _ => (st, Ok tt)
  | Ok tx =>
    if bool_decide (txid tx ∈ st.(seen)) then (st, Ok tt)
    else
      let st := st <| seen := {[txid tx]} ∪ st.(seen) |> <| attempted := st.(attempted) ++ [txid tx] |> in
      match decrypt_and_store tx st.(wallet) with
      | (w, Err e) => (st <| wallet := w |>, Err (Wallet ("mempool decrypt_and_store: " +:+ e)))
      | (w, Ok _) =>
        let st := st <| wallet := w |> in
        match has_transaction (txid tx) w with
        | Err e => (st, Err (Wallet ("mempool hit check: " +:+ e)))
        | Ok true => (announce st, Ok tt)
        | Ok false => (st, Ok tt)
        end
      end
  end.

(** The loop over the stream, which the server closes after its last item. *)
Fixpoint session_loop (stream : list (Item (list Byte.byte))) (st : State) : State * Res SessionEnd :=
  match stream with
  | [] => (st, Ok BlockBoundary)
  | Idle :: _ => (st, Ok IdleReconnect)
  | ErrorItem s :: _ => (st, Err (Transport ("mempool stream: " +:+ s.(status_text))))
  | Message data :: stream' =>
    match on_message data st with
    | (st, Err e) => (st, Err e)
    | (st, Ok _) => session_loop stream' st
    end
  end.

Definition trimmed (seen : gset Z) : gset Z := if SEEN_TXIDS_CAP <? Z.of_nat (size seen) then ∅ else seen.

(** [run_session]: [opened] is the wallet session or the error it did not open with; [stream_open]
    is [None] when the stream did not open in time. *)
Definition run_session (opened : Res W) (connected : Res LwdClient) (stream_open : option (result Status (list (Item (list Byte.byte)))))
    (seen0 : gset Z) (p : option Progress) (nt : nat) (w0 : W) : State * Res SessionEnd :=
  let st := mkState (trimmed seen0) w0 p nt (mkStats 0 0) [] in
  match opened with
  | Err e => (st, Err e)
  | Ok w =>
    let st := st <| wallet := w |> in
    match connected with
    | Err e => (st, Err e)
    | Ok _ =>
      match stream_open with
      | None => (st, Ok IdleReconnect)
      | Some call =>
        match open_mempool_stream call with
        | Err e => (st, Err e)
        | Ok stream => session_loop stream st
        end
      end
    end
  end.

(** *** What a session hands to the wallet *)

Record tracked (st0 st : State) : Prop := {
  tk_seen : st.(seen) = list_to_set st.(attempted) ∪ st0.(seen);
  tk_once : NoDup st.(attempted);
  tk_new t : t ∈ st.(attempted) -> t ∉ st0.(seen);
}.

Lemma announce_tracked st : (announce st).(seen) = st.(seen) /\ (announce st).(attempted) = st.(attempted).
Proof. unfold announce. cbv zeta. by case_match. Qed.

Lemma message_tracked st0 data st st' r : tracked st0 st -> on_message data st = (st', r) -> tracked st0 st'.
Proof.
  intros [Hs Ho Hn]. unfold on_message. cbv zeta. destruct (tx_read data) as [tx|]; [|by intros [= <- _]]. cbn.
  case_bool_decide as Hin; [by intros [= <- _]|].
  assert (forall st2, st2.(seen) = {[txid tx]} ∪ st.(seen) -> st2.(attempted) = st.(attempted) ++ [txid tx] -> tracked st0 st2) as Hnext.
  { intros st2 E1 E2. split; rewrite ?E1, ?E2, ?Hs.
    - rewrite list_to_set_app_L. set_solver.
    - apply NoDup_app. split; [exact Ho|]. split; [|apply NoDup_singleton]. intros x Hx ->%list_elem_of_singleton. apply Hin. rewrite Hs. set_solver.
    - intros t [Ht| ->%list_elem_of_singleton]%elem_of_app; [by apply Hn|]. intros H0. apply Hin. rewrite Hs. set_solver. }
  destruct (decrypt_and_store tx st.(wallet)) as [w [u|e]]; [|intros [= <- _]; by apply Hnext].
  destruct (has_transaction (txid tx) w) as [[]|]; intros [= <- _]; [|by apply Hnext|by apply Hnext].
  match goal with |- tracked _ (announce ?x) => destruct (announce_tracked x) as [E1 E2]; assert (tracked st0 x) as [] by (by apply Hnext) end.
  split; rewrite ?E1, ?E2; done.
Qed.

Lemma loop_tracked st0 stream st st' r : tracked st0 st -> session_loop stream st = (st', r) -> tracked st0 st'.
Proof.
  revert st. induction stream as [|[data|s|] stream IH]; intros st Hst; cbn; [by intros [= <- _]| |by intros [= <- _]..].
  destruct (on_message data st) as [st1 r1] eqn:E1. apply (message_tracked st0) in E1; [|done].
  destruct r1; [by apply IH|by intros [= <- _]].
Qed.

Lemma start_tracked seen0 w p nt : tracked (mkState seen0 w p nt (mkStats 0 0) []) (mkState seen0 w p nt (mkStats 0 0) []).
Proof. split; cbn; [set_solver|constructor|by intros t Ht%elem_of_nil]. Qed.

Lemma session_tracked opened connected stream_open seen0 p nt w0 st r :
  run_session opened connected stream_open seen0 p nt w0 = (st, r) ->
  st.(seen) = list_to_set st.(attempted) ∪ trimmed seen0 /\ NoDup st.(attempted) /\ forall t, t ∈ st.(attempted) -> t ∉ trimmed seen0.
Proof.
  assert (forall w st r stream, session_loop stream (mkState (trimmed seen0) w p nt (mkStats 0 0) []) = (st, r) ->
    st.(seen) = list_to_set st.(attempted) ∪ trimmed seen0 /\ NoDup st.(attempted) /\ forall t, t ∈ st.(attempted) -> t ∉ trimmed seen0) as Hl.
  { intros w st1 r1 stream E. by destruct (loop_tracked _ _ _ _ _ (start_tracked _ _ _ _) E). }
  assert (forall w, let st := mkState (trimmed seen0) w p nt (mkStats 0 0) [] in
    st.(seen) = list_to_set st.(attempted) ∪ trimmed seen0 /\ NoDup st.(attempted) /\ forall t, t ∈ st.(attempted) -> t ∉ trimmed seen0) as H0.
  { intros w. cbn. split; [set_solver|]. split; [constructor|by intros t Ht%elem_of_nil]. }
  unfold run_session. cbv zeta. destruct opened as [w|]; [|intros [= <- _]; apply H0].
  destruct connected; [|intros [= <- _]; apply H0]. destruct stream_open as [call|]; [|intros [= <- _]; apply H0].
  destruct (open_mempool_stream call); [apply Hl|intros [= <- _]; apply H0].
Qed.
End Session.
Arguments State : clear implicits.

(** A session hands each transaction to the wallet at most once, and none that the sessions before
    it saw, however often the server replays its mempool. *)
Theorem mempool_stores_once {W Tx} `{!MempoolWallet W Tx} clock opened connected stream_open seen0 p nt w0 st r :
  Z.of_nat (size seen0) <= SEEN_TXIDS_CAP ->
  run_session clock opened connected stream_open seen0 p nt w0 = (st, r) ->
  NoDup st.(attempted) /\ (forall t, t ∈ st.(attempted) -> t ∉ seen0) /\ st.(seen) = list_to_set st.(attempted) ∪ seen0.
Proof.
  intros Hsz E. apply session_tracked in E as (H1 & H2 & H3). unfold trimmed in *.
  destruct (Z.ltb_spec SEEN_TXIDS_CAP (Z.of_nat (size seen0))); [lia|]. done.
Qed.

(** An id is marked seen before its transaction is stored, so a store that fails is not retried: the
    session that fails leaves the id in the set, and the next one skips the replayed transaction. *)
Theorem failed_store_not_retried {W Tx} `{!MempoolWallet W Tx} clock tx data w w1 e rest opened connected stream_open seen0 p nt st r p2 nt2 w2 st2 r2 :
  tx_read data = Ok tx -> txid tx ∉ seen0 -> Z.of_nat (size seen0) < SEEN_TXIDS_CAP -> decrypt_and_store tx w = (w1, Err e) ->
  run_session clock (Ok w) (Ok Direct) (Some (Ok (Message data :: rest))) seen0 p nt w = (st, r) ->
  run_session clock opened connected stream_open st.(seen) p2 nt2 w2 = (st2, r2) ->
  r = Err (Wallet ("mempool decrypt_and_store: " +:+ e)) /\ txid tx ∉ st2.(attempted).
Proof.
  intros Hr Hn Hsz Hd E1 E2. unfold run_session at 1 in E1. cbn in E1. unfold trimmed in E1.
  destruct (Z.ltb_spec SEEN_TXIDS_CAP (Z.of_nat (size seen0))); [lia|]. unfold on_message in E1. cbv zeta in E1. rewrite Hr in E1. cbn in E1.
  rewrite bool_decide_eq_false_2 in E1 by done. rewrite Hd in E1. injection E1 as <- <-. split; [done|].
  apply session_tracked in E2 as (_ & _ & H3). intros Hin. apply (H3 _ Hin). cbn. unfold trimmed.
  rewrite size_union, size_singleton by set_solver. destruct (Z.ltb_spec SEEN_TXIDS_CAP (Z.of_nat (1 + size seen0))); [lia|]. set_solver.
Qed.

(** The idle bound switches at the block that activates NU7, and a tip beyond the heights is the
    last height. *)
Theorem idle_switches_at_nu7 `{!Protocol} `{!ProtocolLaws} constants heights a tip : heights.(nu7) = Some a -> 0 <= tip -> a <= u32_max ->
  mempool_session_idle (Custom constants heights) tip = if a <=? tip + 1 then MEMPOOL_SESSION_IDLE_NU7 else MEMPOOL_SESSION_IDLE.
Proof.
  intros Ha Ht Hb. unfold mempool_session_idle. rewrite nu_active_from. cbn [activation_height]. rewrite Ha.
  unfold sat_add64, u32_try_from, u64_max, u32_max in *.
  destruct (Z.leb_spec (Z.min (2 ^ 64 - 1) (tip + 1)) (2 ^ 32 - 1)); cbn [default from_option].
  - rewrite Z.min_r by lia. done.
  - destruct (Z.leb_spec a (2 ^ 32 - 1)), (Z.leb_spec a (tip + 1)); done || lia.
Qed.
End Mempool.

(** ** The transparent refresh *)

Module Transparent.

Record TransparentStats := mkTStats { accounts : Z; utxos : Z }.
#[export] Instance eta_TransparentStats : Eta TransparentStats := fun s => mkTStats s.(accounts) s.(utxos).

(** [GetAddressUtxosReply]. *)
Record Reply := mkReply { reply_txid : list Byte.byte; index : Z; value_zat : Z; script : list Byte.byte; reply_height : Z }.

(** The wallet library: its accounts and their encoded addresses, the range of amounts, and the
    construction and store of an output. *)
Class UtxoWallet (W Acct Out : Type) := mkUtxoWallet {
  get_account_ids : W -> result string (list Acct);
  utxo_query_height : Acct -> W -> result string Z;
  get_transparent_receivers : Acct -> W -> result string (list string);
  from_nonnegative_i64 : Z -> option Z;
  output_from_parts : list Byte.byte -> Z -> Z -> list Byte.byte -> Z -> option Out;
  put_received_transparent_utxo : Out -> W -> W * result string unit;
}.

Section Refresh.
Context {W Acct Out : Type} `{!UtxoWallet W Acct Out} (clock : nat -> Z).
(** The server's answer to an address query. *)
Context (answer : list string -> Z -> Unary (list (Item Reply))).

(** [queried] and [stored] record the calls. *)
Record St := mkSt { w : W; stamps : Stamps; tstats : TransparentStats; queried : list (list string * Z); stored : list Out }.
#[export] Instance eta_St : Eta St := fun s => mkSt s.(w) s.(stamps) s.(tstats) s.(queried) s.(stored).

(** The output of a reply, or the server misbehaves. *)
Definition parse_reply (r : Reply) : option Out :=
  if negb (Z.of_nat (length r.(reply_txid)) =? 32) then None
  else if r.(index) <? 0 then None
  else value ← from_nonnegative_i64 r.(value_zat);
       height ← u32_try_from r.(reply_height);
       output_from_parts r.(reply_txid) r.(index) value r.(script) height.

Definition wallet_step {A} (ctx : string) (r : result string A) : Res A :=
  match r with Ok a => Ok a | Err e => Err (Wallet (ctx +:+ ": " +:+ e)) end.

Fixpoint put_replies (replies : list Reply) (st : St) : St * Res unit :=
  match replies with
  | [] => (st, Ok tt)
  | r :: replies' =>
    match parse_reply r with
    | None => (st, Err MisbehavingServer)
    | Some out =>
      match put_received_transparent_utxo out st.(w) with
      | (w', Err e) => (st <| w := w' |>, Err (Wallet ("put_received_transparent_utxo: " +:+ e)))
      | (w', Ok _) =>
        put_replies replies' (st <| w := w' |> <| stored := st.(stored) ++ [out] |> <| tstats := st.(tstats) <| utxos := u64_add st.(tstats).(utxos) 1 |> |>)
      end
    end
  end.

Definition count_account (st : St) : St := st <| tstats := st.(tstats) <| accounts := u64_add st.(tstats).(accounts) 1 |> |>.

Definition refresh_account (acct : Acct) (st : St) : St * Res unit :=
  match wallet_step "utxo_query_height" (utxo_query_height acct st.(w)) with
  | Err e => (st, Err e)
  | Ok start_height =>
    match wallet_step "get_transparent_receivers" (get_transparent_receivers acct st.(w)) with
    | Err e => (st, Err e)
    | Ok [] => (count_account st, Ok tt)
    | Ok addresses =>
      let st := st <| queried := st.(queried) ++ [(addresses, start_height)] |> in
      match get_address_utxos clock (answer addresses start_height) st.(stamps) with
      | (sp, Err e) => (st <| stamps := sp |>, Err e)
      | (sp, Ok replies) =>
        match put_replies replies (st <| stamps := stamp clock sp |>) with
        | (st, Err e) => (st, Err e)
        | (st, Ok _) => (count_account st, Ok tt)
        end
      end
    end
  end.

Fixpoint refresh_accounts (accts : list Acct) (st : St) : St * Res unit :=
  match accts with
  | [] => (st, Ok tt)
  | a :: accts' =>
    match refresh_account a st with
    | (st, Err e) => (st, Err e)
    | (st, Ok _) => refresh_accounts accts' st
    end
  end.

(** [refresh_utxos]. *)
Definition refresh_utxos (w0 : W) (sp : Stamps) : St * Res TransparentStats :=
  let st := mkSt w0 sp (mkTStats 0 0) [] [] in
  match wallet_step "get_account_ids" (get_account_ids w0) with
  | Err e => (st, Err e)
  | Ok accts =>
    match refresh_accounts accts st with
    | (st, Err e) => (st, Err e)
    | (st, Ok _) => (st, Ok st.(tstats))
    end
  end.

(** *** What a refresh stores *)

Lemma put_replies_ok replies : forall st st', put_replies replies st = (st', Ok tt) ->
  exists outs, Forall2 (fun r o => parse_reply r = Some o) replies outs /\ st'.(stored) = st.(stored) ++ outs /\
    st'.(queried) = st.(queried) /\ st'.(tstats).(accounts) = st.(tstats).(accounts) /\
    st'.(tstats).(utxos) = Nat.iter (length outs) (fun n => u64_add n 1) st.(tstats).(utxos).
Proof.
  induction replies as [|r replies IH]; intros st st'; cbn [put_replies].
  { intros [= <-]. exists []. by rewrite app_nil_r. }
  destruct (parse_reply r) as [o|] eqn:Ep; [|done]. destruct (put_received_transparent_utxo o st.(w)) as [w' [u|]]; [|done].
  intros E. destruct (IH _ _ E) as (outs & Hf & Hs & Hq & Ha & Hu). cbn in Hs, Hq, Ha, Hu. exists (o :: outs).
  split; [by constructor|]. rewrite Hs, <-app_assoc. split_and!; [done|done|done|]. cbn [length]. by rewrite Nat.iter_succ_r.
Qed.

(** The replies to a query that was answered whole. *)
Definition answered (q : list string * Z) (rs : list Reply) : Prop := answer q.1 q.2 = Answered (Message <$> rs).

Record refreshed (st : St) (n : nat) (st' : St) : Prop := {
  rf_answers : exists qs rss outs, st'.(queried) = st.(queried) ++ qs /\ Forall2 answered qs rss /\
    Forall2 (fun r o => parse_reply r = Some o) (concat rss) outs /\ st'.(stored) = st.(stored) ++ outs /\
    st'.(tstats).(utxos) = Nat.iter (length outs) (fun n => u64_add n 1) st.(tstats).(utxos);
  rf_accounts : st'.(tstats).(accounts) = Nat.iter n (fun n => u64_add n 1) st.(tstats).(accounts);
}.

Lemma refresh_account_ok acct st st' : refresh_account acct st = (st', Ok tt) -> refreshed st 1 st'.
Proof.
  unfold refresh_account. destruct (wallet_step _ (utxo_query_height acct st.(w))) as [h|]; [|done].
  destruct (wallet_step _ (get_transparent_receivers acct st.(w))) as [addrs|]; [|done].
  destruct addrs as [|a addrs].
  { intros [= <-]. split; [|done]. exists [], [], []. cbn. rewrite !app_nil_r. done. }
  cbv zeta. destruct (get_address_utxos _ _ _) as [sp [replies|]] eqn:Eg; [|done].
  destruct (put_replies replies _) as [st1 [u|]] eqn:Ep; [|done]. intros [= <-]. destruct u.
  apply put_replies_ok in Ep as (outs & Hf & Hs & Hq & Ha & Hu). cbn in Hs, Hq, Ha, Hu.
  unfold get_address_utxos, streamed in Eg. destruct (answer (a :: addrs) h) as [stream| |] eqn:Ea; [|done|done]. cbn [with_unary_timeout] in Eg.
  apply collect_loop_spec in Eg as (ts & _ & -> & new & -> & Hall); [|lia].
  assert (new = ts) as ->. { clear -Hall. induction Hall as [|t u ts us E _ IH]; [done|]. injection E as ->. by rewrite IH. }
  split; cbn; [|by rewrite Ha]. exists [(a :: addrs, h)], [ts], outs. rewrite Hs, Hq, Hu. cbn. rewrite app_nil_r.
  split_and!; [done|by repeat constructor|done|done|done].
Qed.

Lemma refreshed_trans n1 n2 st1 st2 st3 : refreshed st1 n1 st2 -> refreshed st2 n2 st3 -> refreshed st1 (n2 + n1) st3.
Proof.
  intros [(q1 & r1 & o1 & Q1 & F1 & P1 & S1 & U1) A1] [(q2 & r2 & o2 & Q2 & F2 & P2 & S2 & U2) A2]. split.
  - exists (q1 ++ q2), (r1 ++ r2), (o1 ++ o2). rewrite Q2, Q1, S2, S1, U2, U1, concat_app, length_app, Nat.add_comm, Nat.iter_add, !app_assoc.
    split_and!; [done|by apply Forall2_app|by apply Forall2_app|done|done].
  - by rewrite A2, A1, Nat.iter_add.
Qed.

Lemma refresh_accounts_ok accts : forall st st', refresh_accounts accts st = (st', Ok tt) -> refreshed st (length accts) st'.
Proof.
  induction accts as [|a accts IH]; intros st st'; cbn [refresh_accounts].
  { intros [= <-]. split; [|done]. exists [], [], []. cbn. rewrite !app_nil_r. done. }
  destruct (refresh_account a st) as [st1 [[]|]] eqn:E; [|done]. intros E2.
  cbn [length]. rewrite <-Nat.add_1_r. eapply refreshed_trans; [by apply (refresh_account_ok a)|by apply IH].
Qed.

Lemma iter_count n x : is_u64 (x + Z.of_nat n) -> 0 <= x -> Nat.iter n (fun n => u64_add n 1) x = x + Z.of_nat n.
Proof.
  intros Hu Hx. induction n as [|n IH]; [cbn; lia|]. unfold is_u64 in *.
  change (Nat.iter (S n) (fun n => u64_add n 1) x) with (u64_add (Nat.iter n (fun n => u64_add n 1) x) 1).
  rewrite IH by lia. rewrite u64_add_small; unfold is_u64; lia.
Qed.
End Refresh.

(** A refresh that succeeds has stored the output of every reply to every query, in order, and counts
    them and the accounts truthfully; a reply that makes no output ends it with an error. *)
Theorem refresh_stores_every_reply {W Acct Out} `{!UtxoWallet W Acct Out} clock answer (w0 : W) sp st stats accts :
  refresh_utxos clock answer w0 sp = (st, Ok stats) -> get_account_ids w0 = Ok accts ->
  Z.of_nat (length accts) <= u64_max -> Z.of_nat (length st.(stored)) <= u64_max ->
  exists rss, Forall2 (answered answer) st.(queried) rss /\ Forall2 (fun r o => parse_reply r = Some o) (concat rss) st.(stored) /\
    stats.(utxos) = Z.of_nat (length st.(stored)) /\ stats.(accounts) = Z.of_nat (length accts).
Proof.
  unfold refresh_utxos. intros E Ea. rewrite Ea in E. cbn [wallet_step] in E.
  destruct (refresh_accounts clock answer accts _) as [st1 [[]|]] eqn:E1; [|done]. injection E as <- <-.
  apply refresh_accounts_ok in E1 as [(qs & rss & outs & -> & Hq & Hp & Hs & Hu) Hacc]. cbn in Hs, Hu, Hacc.
  intros Hla Hlo. exists rss. rewrite Hs in *. split_and!; [done|done|rewrite Hu|rewrite Hacc];
    rewrite iter_count; unfold is_u64; lia.
Qed.
End Transparent.
