(* ===== verification/Enhance.v ===== *)
(** * Enhancement: [core/src/enhance.rs]

    Completing the wallet's transactions: the requests the wallet raises are answered
    over a connection opened at the first one that needs the server.  The wallet library
    is the interface [EnhanceWallet]; the server's answers, the order in which the
    concurrent fetches arrive and the clock are inputs, one [RoundEnv] per round.  The
    code is written in a state monad that can fail; what the run asks of the server and
    writes to the wallet is its log. *)

From S2P Require Export Connector.
Import Progress Connector.

Module Enhance.

(** [struct EnhanceStats]; durations in milliseconds. *)
Record EnhanceStats := mkEnhanceStats {
  requests : Z; txs_stored : Z; statuses_set : Z; skipped : Z;
  fetch_wait : Z; store : Z; address : Z;
}.
#[export] Instance eta_EnhanceStats : Eta EnhanceStats := fun s =>
  mkEnhanceStats s.(requests) s.(txs_stored) s.(statuses_set) s.(skipped)
    s.(fetch_wait) s.(store) s.(address).
Definition enhance_default : EnhanceStats := mkEnhanceStats 0 0 0 0 0 0 0.

(** ** Requests *)

Inductive TransactionStatus := TxidNotRecognized | NotInMainChain | Mined (h : Z).
Inductive TxStatusFilter := FilterMined | FilterMempool | FilterAll.
Inductive OutputStatusFilter := OutputsUnspent | OutputsAll.

(** [TransactionsInvolvingAddress]; the address as the network encodes it. *)
Record Tia := mkTia {
  tia_address : string;
  block_range_start : Z;
  block_range_end : option Z;
  request_at : option Z;
  tx_status_filter : TxStatusFilter;
  output_status_filter : OutputStatusFilter;
}.

(** [enum TransactionDataRequest]. *)
Inductive Request := GetStatus (txid : Z) | Enhancement (txid : Z) | InvolvingAddress (tia : Tia).

(** [RawTransaction]. *)
Record RawTx := mkRawTx { data : bytes; raw_height : Z }.

(** [mined_height], in both its places. *)
Definition mined_height (raw : RawTx) : option Z :=
  if (0 <? raw.(raw_height)) && (raw.(raw_height) <=? u32_max) then Some raw.(raw_height) else None.

(** The wallet library, as the run uses it. *)
Class EnhanceWallet (W Tx : Type) := mkWallet {
  transaction_data_requests : W -> result string (list Request);
  set_transaction_status : Z -> TransactionStatus -> W -> W * result string unit;
  tx_read : bytes -> result string Tx;
  decrypt_and_store : Tx -> option Z -> W -> W * result string unit;
  chain_height : W -> result string (option Z);
  notify_address_checked : Tia -> Z -> W -> W * result string unit;
}.

(** What the world answers in one round: each txid fetch, the order of arrival, each
    address history, and how long the phases took. *)
Record RoundEnv := mkRoundEnv {
  re_connect : Res LwdClient;
  re_fetch : Z -> Res (option RawTx);
  re_order : list (Z * bool) -> list (Z * bool);
  re_taddr : string -> Z -> Z -> Res (list RawTx);
  re_fetch_wait : Z; re_store : Z; re_address : Z;
}.

(** What a run does to the outside. *)
Inductive Effect :=
| EConnect
| EStatus (txid : Z) (st : TransactionStatus)
| EStore (mined : option Z)
| EQuery (addr : string) (from to_ : Z)
| ENotify (addr : string) (as_of : Z).

Section Run.
Context {W Tx : Type} `{!EnhanceWallet W Tx} (clock : nat -> Z) (fmt_f2 : float -> string).

(** The state of a run. *)
Record Run := mkRun {
  wallet : W;
  stats : EnhanceStats;
  skipped_keys : gset string;
  progress : option Progress;
  client : option LwdClient;
  ticks : nat;
  log : list Effect;
}.
#[export] Instance eta_Run : Eta Run := fun s =>
  mkRun s.(wallet) s.(stats) s.(skipped_keys) s.(progress) s.(client) s.(ticks) s.(log).

Definition M (A : Type) : Type := Run -> Run * Res A.
Definition ret {A} (a : A) : M A := fun s => (s, Ok a).
Definition fail {A} (e : SlipstreamError) : M A := fun s => (s, Err e).
Definition bind {A B} (m : M A) (k : A -> M B) : M B := fun s =>
  match m s with (s', Ok a) => k a s' | (s', Err e) => (s', Err e) end.
#[local] Notation "'let!' x := m 'in' k" := (bind m (fun x => k))
  (at level 10, x pattern, m at level 100, k at level 200, only parsing).
#[local] Notation "m ;;; k" := (bind m (fun _ => k)) (at level 100, right associativity, only parsing).
Definition modify (f : Run -> Run) : M unit := fun s => (f s, Ok tt).
Definition read {A} (f : Run -> A) : M A := fun s => (s, Ok (f s)).
Definition emit (e : Effect) : M unit := modify (fun s => s <| log := s.(log) ++ [e] |>).
(** A fallible read of the wallet, and a write to it, with the error's context. *)
Definition query {A} (ctx : string) (f : W -> result string A) : M A := fun s =>
  match f s.(wallet) with Ok a => (s, Ok a) | Err e => (s, Err (Wallet (ctx +:+ ": " +:+ e))) end.
Definition write (ctx : string) (f : W -> W * result string unit) : M unit := fun s =>
  match f s.(wallet) with
  | (w, Ok _) => (s <| wallet := w |>, Ok tt)
  | (w, Err e) => (s <| wallet := w |>, Err (Wallet (ctx +:+ ": " +:+ e)))
  end.
(** A progress method that reads the clock. *)
Definition tick (f : Z -> Progress -> Progress) : M unit := modify (fun s =>
  s <| progress := f (clock s.(ticks)) <$> s.(progress) |> <| ticks := S s.(ticks) |>).
Definition bump (f : EnhanceStats -> EnhanceStats) : M unit := modify (fun s => s <| stats := f s.(stats) |>).
Fixpoint for_each {A} (f : A -> M unit) (l : list A) : M unit :=
  match l with [] => ret tt | x :: l' => f x ;;; for_each f l' end.

(** [client.get()]: the connection of the run, opened on first use. *)
Definition get_client (env : RoundEnv) : M unit := fun s =>
  match lazy_get s.(client) env.(re_connect) with
  | (c, r, dialled) =>
    let s' := s <| client := c |> <| log := s.(log) ++ (if dialled then [EConnect] else []) |> in
    match r with Ok _ => (s', Ok tt) | Err e => (s', Err e) end
  end.

(** Store one transaction and account for it. *)
Definition store_tx (ctx_parse ctx_store : string) (raw : RawTx) : M unit :=
  let! tx := query ctx_parse (fun _ => tx_read raw.(data)) in
  write ctx_store (decrypt_and_store tx (mined_height raw)) ;;;
  emit (EStore (mined_height raw)) ;;;
  bump (fun st => st <| txs_stored := u64_add st.(txs_stored) 1 |>) ;;;
  tick (add_enhanced 1) ;;;
  tick bump_tx_set_version.

Definition set_status (ctx : string) (txid : Z) (st : TransactionStatus) : M unit :=
  write ctx (set_transaction_status txid st) ;;;
  emit (EStatus txid st) ;;;
  bump (fun st => st <| statuses_set := u64_add st.(statuses_set) 1 |>).

(** [apply_txid_fetch]. *)
Definition apply_txid_fetch (txid : Z) (want_enhance : bool) (fetched : Res (option RawTx)) : M unit :=
  match fetched with
  | Err e => fail e
  | Ok None => set_status "set_transaction_status TxidNotRecognized" txid TxidNotRecognized
  | Ok (Some raw) =>
    if want_enhance then store_tx "tx parse" "decrypt_and_store" raw
    else
      set_status "set_transaction_status" txid
        (match mined_height raw with Some h => Mined h | None => NotInMainChain end) ;;;
      tick bump_tx_set_version
  end.

(** [effective_range_end]; heights are below the [u32] maximum. *)
Definition effective_range_end (range_end : option Z) (chain_height : Z) : Z :=
  default (chain_height + 1) range_end.

(** A skip: counted the first time its key is seen. *)
Definition skip (key : string) : M unit := fun s =>
  if bool_decide (key ∈ s.(skipped_keys)) then (s, Ok tt)
  else (s <| skipped_keys := {[key]} ∪ s.(skipped_keys) |>
          <| stats := s.(stats) <| skipped := u64_add s.(stats).(skipped) 1 |> |>, Ok tt).

(** Whether the request's filter drops a transaction. *)
Definition filtered_out (f : TxStatusFilter) (mined : option Z) : bool :=
  match f, mined with
  | FilterMined, None => true
  | FilterMempool, Some _ => true
  | _, _ => false
  end.

Definition range_key (tia : Tia) (end_ : Z) (why : string) : string :=
  tia.(tia_address) +:+ ":" +:+ pretty tia.(block_range_start) +:+ "-" +:+ pretty end_ +:+ ":" +:+ why.

(** The request past its guards: ask the server, store what it answers, notify. *)
Definition check_address (env : RoundEnv) (tia : Tia) (end_ : Z) : M unit :=
  let end_height := sat_sub end_ 1 in
  get_client env ;;;
  emit (EQuery tia.(tia_address) tia.(block_range_start) end_height) ;;;
  match env.(re_taddr) tia.(tia_address) tia.(block_range_start) end_height with
  | Err e => fail (Wallet ("get_taddress_txids: " +:+ display fmt_f2 e))
  | Ok raws =>
    tick touch ;;;
    for_each (fun raw =>
      if filtered_out tia.(tx_status_filter) (mined_height raw) then ret tt
      else store_tx "tx parse (taddr)" "decrypt_and_store (taddr)" raw) raws ;;;
    let as_of := default u32_max (u32_try_from end_height) in
    write "notify_address_checked" (notify_address_checked tia as_of) ;;;
    emit (ENotify tia.(tia_address) as_of)
  end.

(** [apply_address_request]. *)
Definition apply_address_request (env : RoundEnv) (tia : Tia) : M unit :=
  let guarded (end_ : Z) : M unit :=
    match tia.(request_at) with
    | Some _ => skip (range_key tia end_ "request_at")
    | None =>
      match tia.(output_status_filter) with
      | OutputsUnspent => skip (range_key tia end_ "unspent")
      | OutputsAll => check_address env tia end_
      end
    end in
  match tia.(block_range_end) with
  | Some h => guarded h
  | None =>
    let! tip := query "chain_height for open-range clamp" chain_height in
    match tip with
    | Some tip => guarded (effective_range_end None tip)
    | None => skip (tia.(tia_address) +:+ ":open-no-tip")
    end
  end.

(** The first loop of a round: a connection for every txid request; the requests split. *)
Fixpoint collect (env : RoundEnv) (reqs : list Request) : M (list (Z * bool) * list Tia) :=
  match reqs with
  | [] => ret ([], [])
  | GetStatus txid :: reqs' =>
    get_client env ;;; let! (ps, ts) := collect env reqs' in ret ((txid, false) :: ps, ts)
  | Enhancement txid :: reqs' =>
    get_client env ;;; let! (ps, ts) := collect env reqs' in ret ((txid, true) :: ps, ts)
  | InvolvingAddress tia :: reqs' =>
    let! (ps, ts) := collect env reqs' in ret (ps, tia :: ts)
  end.

(** A fetch that arrived: touch on an answer, then apply. *)
Definition settle_fetch (env : RoundEnv) (p : Z * bool) : M unit :=
  let fetched := env.(re_fetch) p.1 in
  (if is_ok fetched then tick touch else ret tt) ;;;
  apply_txid_fetch p.1 p.2 fetched.

(** One round; [true]: there was nothing left to do. *)
Definition round (env : RoundEnv) : M bool :=
  let! reqs := query "transaction_data_requests" transaction_data_requests in
  match reqs with
  | [] => ret true
  | _ =>
    bump (fun st => st <| requests := u64_add st.(requests) (Z.of_nat (length reqs)) |>) ;;;
    let! (pending, address_reqs) := collect env reqs in
    for_each (settle_fetch env) (env.(re_order) pending) ;;;
    for_each (apply_address_request env) address_reqs ;;;
    bump (fun st => mkEnhanceStats st.(requests) st.(txs_stored) st.(statuses_set) st.(skipped)
      (st.(fetch_wait) + env.(re_fetch_wait)) (st.(store) + env.(re_store)) (st.(address) + env.(re_address))) ;;;
    ret false
  end.

(** The rounds, of which there are three: [envs] has the answers for each. *)
Fixpoint rounds (envs : list RoundEnv) : M unit :=
  match envs with
  | [] => ret tt
  | env :: envs' => let! done_ := round env in if (done_ : bool) then ret tt else rounds envs'
  end.

(** [run_enhancement_lazily]. *)
Definition run_enhancement_lazily (e0 e1 e2 : RoundEnv) : M EnhanceStats :=
  rounds [e0; e1; e2] ;;; read stats.

(** A run's initial state. *)
Definition start_run (w : W) (keys : gset string) (p : option Progress) (c : option LwdClient) : Run :=
  mkRun w enhance_default keys p c 0 [].

(** ** Invariants of a run *)

(** Whatever happens, also on the error exits, [m] keeps [I]. *)
Definition keeps {A} (I : Run -> Prop) (m : M A) : Prop := forall s, I s -> I (m s).1.

Section Keeps.
Context (I : Run -> Prop).
Lemma keeps_ret {A} (a : A) : keeps I (ret a).
Proof. by intros s. Qed.
Lemma keeps_fail {A} e : keeps I (fail (A := A) e).
Proof. by intros s. Qed.
Lemma keeps_bind {A B} (m : M A) (k : A -> M B) : keeps I m -> (forall a, keeps I (k a)) -> keeps I (bind m k).
Proof. intros Hm Hk s Hs. unfold bind. specialize (Hm s Hs). destruct (m s) as [s' [a|e]]; [by apply Hk|done]. Qed.
Lemma keeps_query {A} ctx (f : W -> result string A) : keeps I (query ctx f).
Proof. intros s Hs. unfold query. by case_match. Qed.
Lemma keeps_for_each {A} (f : A -> M unit) l : (forall a, keeps I (f a)) -> keeps I (for_each f l).
Proof. intros Hf. induction l; [apply keeps_ret|]. by apply keeps_bind. Qed.
Lemma keeps_modify f : (forall s, I s -> I (f s)) -> keeps I (modify f).
Proof. by intros Hf s Hs; apply Hf. Qed.
End Keeps.
Create HintDb enhance discriminated.
#[local] Hint Resolve keeps_ret keeps_fail keeps_bind keeps_query keeps_for_each : enhance.

(** The kinds of effect. *)
Definition is_store (e : Effect) : bool := match e with EStore _ => true | _ => false end.
Definition is_status (e : Effect) : bool := match e with EStatus _ _ => true | _ => false end.
Definition count (f : Effect -> bool) (l : list Effect) : Z := Z.of_nat (length (filter (fun e => f e = true) l)).

Lemma count_app f l1 l2 : count f (l1 ++ l2) = count f l1 + count f l2.
Proof. unfold count. rewrite filter_app, length_app. lia. Qed.

Lemma u64_add_wrap a b : u64_add (wrap64 a) b = wrap64 (a + b).
Proof. apply Zplus_mod_idemp_l. Qed.

(** The counters against the log: transactions stored, statuses set, skips against new
    keys, and the progress counter a host reads. *)
Record tallied (keys0 : gset string) (p0 : option Progress) (s : Run) : Prop := {
  ta_stored : s.(stats).(txs_stored) = wrap64 (count is_store s.(log));
  ta_statuses : s.(stats).(statuses_set) = wrap64 (count is_status s.(log));
  ta_keys : keys0 ⊆ s.(skipped_keys);
  ta_skipped : s.(stats).(skipped) = wrap64 (Z.of_nat (size s.(skipped_keys)) - Z.of_nat (size keys0));
  ta_progress : enhanced_txs <$> s.(progress) =
    (fun p => wrap64 (p.(enhanced_txs) + count is_store s.(log))) <$> p0;
}.

Section Tally.
Context (keys0 : gset string) (p0 : option Progress).
Abbreviation I := (tallied keys0 p0).

Lemma tally_frame s s' : I s -> s'.(stats) = s.(stats) -> s'.(skipped_keys) = s.(skipped_keys) ->
  enhanced_txs <$> s'.(progress) = enhanced_txs <$> s.(progress) ->
  count is_store s'.(log) = count is_store s.(log) -> count is_status s'.(log) = count is_status s.(log) -> I s'.
Proof. intros [] E1 E2 E3 E4 E5. split; rewrite ?E1, ?E2, ?E3, ?E4, ?E5; done. Qed.

Lemma tally_tick f : (forall now p, (f now p).(enhanced_txs) = p.(enhanced_txs)) -> keeps I (tick f).
Proof.
  intros Hf s Hs. apply (tally_frame s); cbn; try done.
  destruct (progress s); [|done]. cbn. by rewrite Hf.
Qed.

Lemma tally_write ctx f : keeps I (write ctx f).
Proof. intros s Hs. unfold write. destruct (f _) as [w [[]|e]]; apply (tally_frame s); cbn; done. Qed.

Lemma tally_client env : keeps I (get_client env).
Proof.
  intros s Hs. unfold get_client. destruct (lazy_get _ _) as [[c r] d].
  destruct r; (apply (tally_frame s); cbn; try done; rewrite count_app; destruct d; apply Z.add_0_r).
Qed.

Lemma tally_emit e : is_store e = false -> is_status e = false -> keeps I (emit e).
Proof.
  intros H1 H2 s Hs. apply (tally_frame s); cbn; try done; rewrite count_app;
    unfold count at 2; rewrite filter_cons, filter_nil, ?H1, ?H2; simpl; lia.
Qed.

Lemma tally_skip key : keeps I (skip key).
Proof.
  intros s Hs. unfold skip. case_bool_decide; [done|]. destruct Hs as [H1 H2 H3 H4 H5]. split; cbn; try done.
  - set_solver.
  - rewrite H4, size_union, size_singleton by set_solver. rewrite u64_add_wrap. f_equal. lia.
Qed.

Lemma tally_timers f : (forall st, (f st).(txs_stored) = st.(txs_stored) /\
  (f st).(statuses_set) = st.(statuses_set) /\ (f st).(skipped) = st.(skipped)) -> keeps I (bump f).
Proof.
  intros Hf s [H1 H2 H3 H4 H5]. destruct (Hf s.(stats)) as (E1 & E2 & E3).
  split; cbn; rewrite ?E1, ?E2, ?E3; done.
Qed.

Lemma tally_store c1 c2 raw : keeps I (store_tx c1 c2 raw).
Proof.
  unfold store_tx. apply keeps_bind; [apply keeps_query|intros tx]. apply keeps_bind; [apply tally_write|intros _].
  intros s [H1 H2 H3 H4 H5]. cbn. split; cbn; try done; rewrite ?count_app.
  - by rewrite H1, u64_add_wrap.
  - by rewrite H2, Z.add_0_r.
  - destruct (progress s), p0; cbn in *; try done. injection H5 as ->. f_equal.
    rewrite u64_add_wrap. f_equal. change (count is_store [EStore (mined_height raw)]) with 1. lia.
Qed.

Lemma tally_status ctx txid st : keeps I (set_status ctx txid st).
Proof.
  unfold set_status. apply keeps_bind; [apply tally_write|intros _].
  intros s [H1 H2 H3 H4 H5]. cbn. split; cbn; try done; rewrite ?count_app.
  - by rewrite H1, Z.add_0_r.
  - by rewrite H2, u64_add_wrap.
  - by rewrite H5, Z.add_0_r.
Qed.
#[local] Hint Extern 1 (keeps _ (tick _)) => apply tally_tick; done : enhance.
#[local] Hint Resolve tally_write tally_client tally_emit tally_skip tally_store tally_status : enhance.

Lemma tally_fetch env p : keeps I (settle_fetch env p).
Proof.
  unfold settle_fetch, apply_txid_fetch. apply keeps_bind; [case_match; auto with enhance|].
  intros _. repeat case_match; auto with enhance.
Qed.

Lemma tally_check env tia end_ : keeps I (check_address env tia end_).
Proof.
  unfold check_address. apply keeps_bind; [apply tally_client|intros _].
  apply keeps_bind; [by apply tally_emit|intros _]. case_match; [|auto with enhance].
  apply keeps_bind; [auto with enhance|intros _].
  apply keeps_bind; [apply keeps_for_each; intros raw; case_match; auto with enhance|intros _].
  apply keeps_bind; auto with enhance.
Qed.

Lemma tally_address env tia : keeps I (apply_address_request env tia).
Proof.
  unfold apply_address_request. repeat case_match; auto using tally_check with enhance;
    apply keeps_bind; auto with enhance; intros [tip|]; auto using tally_check with enhance.
Qed.

Lemma tally_collect env reqs : keeps I (collect env reqs).
Proof.
  induction reqs as [|[]]; cbn [collect]; [auto with enhance|..];
    repeat (apply keeps_bind; [auto with enhance|intros ?]); repeat case_match; auto with enhance.
Qed.

Lemma tally_round env : keeps I (round env).
Proof.
  unfold round. apply keeps_bind; [apply keeps_query|intros reqs]. case_match; [auto with enhance|].
  apply keeps_bind; [by apply tally_timers|intros _].
  apply keeps_bind; [apply tally_collect|intros [ps ts]].
  apply keeps_bind; [apply keeps_for_each, tally_fetch|intros _].
  apply keeps_bind; [apply keeps_for_each, tally_address|intros _].
  apply keeps_bind; [by apply tally_timers|auto with enhance].
Qed.

Lemma tally_rounds envs : keeps I (rounds envs).
Proof.
  induction envs as [|env envs IH]; cbn [rounds]; [auto with enhance|].
  apply keeps_bind; [apply tally_round|]. intros []; auto with enhance.
Qed.
End Tally.

Lemma tally_start w keys p c : tallied keys p (start_run w keys p c) \/ exists q, p = Some q /\ ~ is_u64 q.(enhanced_txs).
Proof.
  destruct p as [q|].
  - destruct (decide (0 <= q.(enhanced_txs) <= u64_max)); [left|right; by exists q].
    split; cbn; rewrite ?Z.sub_diag; try done. rewrite Z.add_0_r, wrap64_small; done.
  - left. split; cbn; rewrite ?Z.sub_diag; done.
Qed.

(** ** An address check, step by step *)

Lemma bind_ok {A B} (m : M A) (k : A -> M B) s s' b : bind m k s = (s', Ok b) ->
  exists s1 a, m s = (s1, Ok a) /\ k a s1 = (s', Ok b).
Proof. unfold bind. destruct (m s) as [s1 [a|e]]; [eauto|done]. Qed.

Lemma query_ok {A} ctx (f : W -> result string A) s s' a : query ctx f s = (s', Ok a) -> s' = s /\ f s.(wallet) = Ok a.
Proof. unfold query. case_match; [|done]. by intros [= <- <-]. Qed.

Lemma write_log ctx f s s' r : write ctx f s = (s', r) -> s'.(log) = s.(log) /\ s'.(client) = s.(client).
Proof. unfold write. destruct (f _) as [w [[]|e]]; by intros [= <- <-]. Qed.

Lemma store_log c1 c2 raw s s' u : store_tx c1 c2 raw s = (s', Ok u) ->
  s'.(log) = s.(log) ++ [EStore (mined_height raw)].
Proof.
  unfold store_tx. intros (s1 & tx & H1 & H)%bind_ok. apply query_ok in H1 as [-> _].
  apply bind_ok in H as (s2 & [] & H2 & H). apply write_log in H2 as [H2 _].
  cbn in H. injection H as <- _. cbn. by rewrite H2.
Qed.

(** The transactions an answer makes the wallet store. *)
Definition stored (tia : Tia) (raws : list RawTx) : list Effect :=
  (fun raw => EStore (mined_height raw)) <$>
    filter (fun raw => filtered_out tia.(tx_status_filter) (mined_height raw) = false) raws.

Lemma stores_log tia raws : forall s s' u,
  for_each (fun raw => if filtered_out tia.(tx_status_filter) (mined_height raw) then ret tt
                       else store_tx "tx parse (taddr)" "decrypt_and_store (taddr)" raw) raws s = (s', Ok u) ->
  s'.(log) = s.(log) ++ stored tia raws.
Proof.
  unfold stored. induction raws as [|raw raws IH]; intros s s' u; cbn [for_each].
  { intros [= <- _]. by rewrite app_nil_r. }
  intros (s1 & [] & H1 & H)%bind_ok. rewrite filter_cons.
  destruct (filtered_out _ _); simpl.
  - injection H1 as <-. by apply IH in H.
  - apply store_log in H1. apply IH in H. rewrite H, H1, <-app_assoc. done.
Qed.

(** What a completed check adds to the log. *)
Definition check_log (connected : bool) (tia : Tia) (end_ : Z) (raws : list RawTx) : list Effect :=
  (if connected then [] else [EConnect]) ++
  [EQuery tia.(tia_address) tia.(block_range_start) (sat_sub end_ 1)] ++
  stored tia raws ++ [ENotify tia.(tia_address) (Z.min (sat_sub end_ 1) u32_max)].

Lemma check_address_log env tia end_ s s' u : check_address env tia end_ s = (s', Ok u) ->
  exists raws, env.(re_taddr) tia.(tia_address) tia.(block_range_start) (sat_sub end_ 1) = Ok raws /\
  s'.(log) = s.(log) ++ check_log (bool_decide (is_Some s.(client))) tia end_ raws.
Proof.
  unfold check_address, check_log. intros (s1 & [] & H1 & H)%bind_ok.
  assert (s1.(log) = s.(log) ++ (if bool_decide (is_Some s.(client)) then [] else [EConnect])) as El.
  { unfold get_client, lazy_get in H1. destruct (client s); [by injection H1 as <-|].
    destruct (re_connect env); by injection H1 as <-. }
  apply bind_ok in H as (s2 & [] & H2 & H). injection H2 as <-.
  destruct (re_taddr env _ _ _) as [raws|e]; [|done]. exists raws. split; [done|].
  apply bind_ok in H as (s3 & [] & H3 & H). injection H3 as <-.
  apply bind_ok in H as (s4 & [] & H4 & H). apply stores_log in H4.
  apply bind_ok in H as (s5 & [] & H5 & H). apply write_log in H5 as [H5 _].
  cbn in H. injection H as <- _. cbn. rewrite H5, H4. cbn. rewrite El, <-!app_assoc. do 3 f_equal.
  cbn. do 3 f_equal. unfold u32_try_from. destruct (Z.leb_spec (sat_sub end_ 1) u32_max); simpl; f_equal; f_equal; lia.
Qed.

(** ** A run with nothing to fetch *)

(** The end of a request's range, clamped to the tip; [None]: open with no tip. *)
Definition range_end_of (tip : option Z) (tia : Tia) : option Z :=
  match tia.(block_range_end) with
  | Some h => Some h
  | None => effective_range_end None <$> tip
  end.

(** Whether a request gets past the skip guards. *)
Definition needs_server (tip : option Z) (r : Request) : bool :=
  match r with
  | GetStatus _ | Enhancement _ => true
  | InvolvingAddress tia =>
    bool_decide (is_Some (range_end_of tip tia)) && negb (bool_decide (is_Some tia.(request_at))) &&
    match tia.(output_status_filter) with OutputsUnspent => false | OutputsAll => true end
  end.

(** The fetches arrive in some order, each once. *)
Definition fair (env : RoundEnv) : Prop := forall l, env.(re_order) l ≡ₚ l.

(** The same wallet, progress, connection and log; nothing written. *)
Definition untouched (s s' : Run) : Prop :=
  s'.(wallet) = s.(wallet) /\ s'.(progress) = s.(progress) /\ s'.(client) = s.(client) /\ s'.(log) = s.(log) /\
  s'.(stats).(txs_stored) = s.(stats).(txs_stored) /\ s'.(stats).(statuses_set) = s.(stats).(statuses_set) /\
  s'.(stats).(requests) = s.(stats).(requests).

Lemma skip_untouched key s : exists s', skip key s = (s', Ok tt) /\ untouched s s'.
Proof. unfold skip. case_bool_decide; eexists; by split. Qed.

Lemma request_untouched env tip tia s : chain_height s.(wallet) = Ok tip ->
  needs_server tip (InvolvingAddress tia) = false ->
  exists s', apply_address_request env tia s = (s', Ok tt) /\ untouched s s'.
Proof.
  intros Ht Hn. unfold apply_address_request, needs_server, range_end_of in *.
  assert (forall end_, (request_at tia <> None \/ output_status_filter tia = OutputsUnspent) ->
    exists s', match request_at tia with
      | Some _ => skip (range_key tia end_ "request_at")
      | None => match output_status_filter tia with
                | OutputsUnspent => skip (range_key tia end_ "unspent")
                | OutputsAll => check_address env tia end_ end
      end s = (s', Ok tt) /\ untouched s s') as Hg.
  { intros end_ Hc. destruct (request_at tia), (output_status_filter tia);
      try apply skip_untouched. by destruct Hc as [[]|]. }
  destruct (block_range_end tia) as [h|]; [apply Hg|].
  - destruct (request_at tia), (output_status_filter tia); simpl in Hn; auto; by left.
  - unfold bind, query. rewrite Ht. destruct tip as [tip|]; [apply Hg|apply skip_untouched].
    destruct (request_at tia), (output_status_filter tia); simpl in Hn; auto; by left.
Qed.

Lemma requests_untouched env tip tias : forall s, chain_height s.(wallet) = Ok tip ->
  Forall (fun tia => needs_server tip (InvolvingAddress tia) = false) tias ->
  exists s', for_each (apply_address_request env) tias s = (s', Ok tt) /\ untouched s s'.
Proof.
  induction tias as [|tia tias IH]; intros s Ht Hf; [by exists s|]. apply Forall_cons in Hf as [H1 H2].
  destruct (request_untouched env tip tia s Ht H1) as (s1 & E1 & U1).
  destruct (IH s1) as (s' & E & U); [by rewrite (proj1 U1)|done|].
  exists s'. cbn [for_each]. unfold bind. rewrite E1. split; [done|].
  unfold untouched in *. destruct_and!. split_and!; congruence.
Qed.

Lemma collect_quiet env tip reqs : Forall (fun r => needs_server tip r = false) reqs -> forall s,
  exists tias, collect env reqs s = (s, Ok ([], tias)) /\
    Forall (fun tia => needs_server tip (InvolvingAddress tia) = false) tias.
Proof.
  induction 1 as [|r reqs Hr Hf IH]; intros s; [by exists []|]. destruct r; try done.
  destruct (IH s) as (tias & E & Ht). exists (tia :: tias). cbn [collect]. unfold bind. rewrite E. by split; [|constructor].
Qed.

Lemma quiet_round env tip reqs s : fair env -> transaction_data_requests s.(wallet) = Ok reqs ->
  chain_height s.(wallet) = Ok tip -> Forall (fun r => needs_server tip r = false) reqs ->
  exists s' d, round env s = (s', Ok d) /\ d = bool_decide (reqs = []) /\
    s'.(wallet) = s.(wallet) /\ s'.(progress) = s.(progress) /\ s'.(client) = s.(client) /\ s'.(log) = s.(log) /\
    s'.(stats).(requests) = (if d then s.(stats).(requests) else u64_add s.(stats).(requests) (Z.of_nat (length reqs))).
Proof.
  intros He Hr Ht Hf. unfold round. unfold bind at 1. unfold query. rewrite Hr.
  destruct reqs as [|r reqs]; [by exists s, true|].
  unfold bind at 1, bump, modify.
  match goal with |- context [bind _ _ ?x] => set (s2 := x) end.
  destruct (collect_quiet env tip (r :: reqs) Hf s2) as (tias & Ec & Htias). unfold bind at 1. rewrite Ec.
  assert (re_order env [] = []) as -> by (apply Permutation_nil; symmetry; apply (He [])).
  destruct (requests_untouched env tip tias s2 Ht Htias) as (s3 & E3 & (U1 & U2 & U3 & U4 & _ & _ & U7)).
  cbn [for_each]. unfold bind at 1, ret at 1. unfold bind at 1. rewrite E3.
  eexists _, false. split; [reflexivity|]. cbn. split; [done|]. by rewrite U1, U2, U3, U4, U7.
Qed.

End Run.

(** ** Properties *)

(** An enhancement run accounts truthfully, however it ends: the counters it returns are the
    transactions stored and the statuses set, one for one, the host's counter of enhanced
    transactions advances by exactly the stored ones, and a skipped address request is counted
    once per key over the whole pass, however often the wallet raises it again. *)
Theorem enhance_counters_truthful {W Tx} `{!EnhanceWallet W Tx} clock fmt w keys p c e0 e1 e2 s' r :
  (forall q, p = Some q -> is_u64 q.(enhanced_txs)) ->
  run_enhancement_lazily clock fmt e0 e1 e2 (start_run w keys p c) = (s', r) ->
  tallied keys p s' /\ (forall st, r = Ok st -> st = s'.(stats)).
Proof.
  intros Hp H. assert (tallied keys p (start_run w keys p c)) as H0.
  { destruct (tally_start w keys p c) as [|(q & -> & Hq)]; [done|]. by destruct Hq; apply Hp. }
  pose proof (tally_rounds clock fmt keys p [e0; e1; e2] _ H0) as Ht.
  unfold run_enhancement_lazily, bind, read in H.
  destruct (rounds clock fmt [e0; e1; e2] (start_run w keys p c)) as [s1 [[]|e]]; injection H as <- <-.
  - split; [done|]. by intros st [= <-].
  - by split.
Qed.

(** An address check that completes is complete: unless one of the guards skips the request, in
    which case nothing is asked and nothing written, the server is asked for exactly the blocks
    from the request's start through its end (an open end being the wallet's tip), every answered
    transaction the request's filter admits is stored, and only then the wallet is told, once,
    that the address is checked through that same last block. *)
Theorem address_check_complete {W Tx} `{!EnhanceWallet W Tx} clock fmt env tia s s' u tip :
  chain_height s.(wallet) = Ok tip ->
  apply_address_request clock fmt env tia s = (s', Ok u) ->
  if needs_server tip (InvolvingAddress tia)
  then exists end_ raws, range_end_of tip tia = Some end_ /\
    env.(re_taddr) tia.(tia_address) tia.(block_range_start) (sat_sub end_ 1) = Ok raws /\
    s'.(log) = s.(log) ++ check_log (bool_decide (is_Some s.(client))) tia end_ raws
  else untouched s s'.
Proof.
  intros Ht H. destruct (needs_server tip (InvolvingAddress tia)) eqn:Hn.
  2: { destruct (request_untouched clock fmt env tip tia s Ht Hn) as (s1 & E & U). rewrite E in H. by injection H as <-. }
  unfold needs_server in Hn. breflect. destruct (range_end_of tip tia) as [end_|] eqn:Ee; [|by destruct H0].
  exists end_. assert (check_address clock fmt env tia end_ s = (s', Ok u)) as Hc.
  { unfold apply_address_request, range_end_of in *.
    destruct (request_at tia); [by destruct H2|]. destruct (output_status_filter tia); [done|].
    destruct (block_range_end tia); [by injection Ee as ->|]. unfold bind, query in H. rewrite Ht in H.
    destruct tip; [by injection Ee as <-|done]. }
  apply check_address_log in Hc as (raws & H3 & H4). by exists raws.
Qed.

(** A run with nothing to fetch opens no connection, hence with Tor on no circuit: when every request
    the wallet raises is skipped by the guards, all three rounds leave the wallet, the progress and
    the connection as they were, and the run succeeds having counted the requests of each round. *)
Theorem quiet_run_opens_no_connection {W Tx} `{!EnhanceWallet W Tx} clock fmt w keys p c e0 e1 e2 reqs tip :
  fair e0 -> fair e1 -> fair e2 -> transaction_data_requests w = Ok reqs -> chain_height w = Ok tip ->
  Forall (fun r => needs_server tip r = false) reqs -> 3 * Z.of_nat (length reqs) <= u64_max ->
  exists s' st, run_enhancement_lazily clock fmt e0 e1 e2 (start_run w keys p c) = (s', Ok st) /\
    s'.(wallet) = w /\ s'.(progress) = p /\ s'.(client) = c /\ s'.(log) = [] /\
    st.(requests) = 3 * Z.of_nat (length reqs).
Proof.
  intros H0 H1 H2 Hr Ht Hf Hl. unfold run_enhancement_lazily.
  destruct (quiet_round clock fmt e0 tip reqs (start_run w keys p c)) as (s1 & d1 & R1 & D1 & W1 & P1 & C1 & L1 & Q1); [done..|].
  destruct (quiet_round clock fmt e1 tip reqs s1) as (s2 & d2 & R2 & D2 & W2 & P2 & C2 & L2 & Q2); [done|by rewrite ?W1..|done|].
  destruct (quiet_round clock fmt e2 tip reqs s2) as (s3 & d3 & R3 & D3 & W3 & P3 & C3 & L3 & Q3); [done|by rewrite ?W2, ?W1..|done|].
  cbn [rounds]. unfold bind, read. rewrite R1. rewrite D1 in *. rewrite D2 in *. rewrite D3 in *.
  case_bool_decide as Er.
  - exists s1, s1.(stats). rewrite Q1. subst reqs. by split_and!.
  - rewrite R2, R3. exists s3, s3.(stats). rewrite W3, W2, W1, P3, P2, P1, C3, C2, C1, L3, L2, L1. split_and!; try done.
    rewrite Q3, Q2, Q1. cbn. rewrite (u64_add_small 0) by (unfold is_u64; lia).
    rewrite (u64_add_small (0 + _)) by (unfold is_u64; lia). rewrite u64_add_small by (unfold is_u64; lia). lia.
Qed.

(** A wallet with a fixed list of requests that counts its writes, and a round in which every
    call fails. *)
Record Toy := mkToy { toy_requests : list Request; toy_tip : option Z; toy_writes : Z }.
#[local] Instance toy_wallet : EnhanceWallet Toy bytes :=
  mkWallet _ _ (fun w => Ok w.(toy_requests))
    (fun _ _ w => (mkToy w.(toy_requests) w.(toy_tip) (w.(toy_writes) + 1), Ok tt)) (fun b => Ok b)
    (fun _ _ w => (mkToy w.(toy_requests) w.(toy_tip) (w.(toy_writes) + 1), Ok tt)) (fun w => Ok w.(toy_tip))
    (fun _ _ w => (mkToy [] w.(toy_tip) (w.(toy_writes) + 1), Ok tt)).
Definition dead_env : RoundEnv :=
  mkRoundEnv (Err (Transport "down")) (fun _ => Err (Transport "down")) id (fun _ _ _ => Err (Transport "down")) 0 0 0.
Definition live_env : RoundEnv :=
  mkRoundEnv (Ok Direct) (fun txid => Ok (Some (mkRawTx [] txid))) id
    (fun _ from _ => Ok [mkRawTx [] from; mkRawTx [] 0]) 1 1 1.
Definition toy_tia (at_ : option Z) : Tia := mkTia "t1" 100 None at_ FilterMined OutputsAll.
Definition quiet_toy : Toy := mkToy [InvolvingAddress (toy_tia (Some 5)); InvolvingAddress (toy_tia (Some 5))] (Some 200) 0.
Definition busy_toy : Toy := mkToy [InvolvingAddress (toy_tia None); GetStatus 150; Enhancement 0] (Some 200) 0.

Example quiet_run_opens_no_connection_instance :
  exists s' st, run_enhancement_lazily (W := Toy) (fun _ => 0) (fun _ => "") dead_env dead_env dead_env
      (start_run quiet_toy ∅ None None) = (s', Ok st) /\ st.(requests) = 6 /\ s'.(log) = [].
Proof.
  destruct (quiet_run_opens_no_connection (W := Toy) (fun _ => 0) (fun _ => "") quiet_toy ∅ None None
    dead_env dead_env dead_env quiet_toy.(toy_requests) (Some 200)) as (s' & st & H & _ & _ & _ & Hl & Hq);
    [intros l; reflexivity|intros l; reflexivity|intros l; reflexivity|reflexivity|reflexivity
    |repeat constructor|vm_compute; discriminate|].
  exists s', st. split; [exact H|]. split; [exact Hq|exact Hl].
Qed.

Example enhance_counters_truthful_instance :
  let '(s', r) := run_enhancement_lazily (W := Toy) (fun _ => 0) (fun _ => "") live_env live_env live_env
      (start_run busy_toy ∅ (Some progress_default) None) in
  tallied ∅ (Some progress_default) s' /\
  r = Ok (mkEnhanceStats 3 2 1 0 1 1 1) /\
  s'.(log) = [EConnect; EStatus 150 (Mined 150); EStore None; EQuery "t1" 100 200; EStore (Some 100); ENotify "t1" 200].
Proof.
  destruct (run_enhancement_lazily _ _ _ _ _ _) as [s' r] eqn:E.
  split.
  - refine (proj1 (enhance_counters_truthful _ _ _ _ _ _ _ _ _ _ _ _ E)).
    intros q [= <-]. vm_compute. split; discriminate.
  - vm_compute in E. injection E as <- <-. split; reflexivity.
Qed.

Example address_check_complete_instance :
  let s := start_run (W := Toy) busy_toy ∅ None (Some Direct) in
  let '(s', r) := apply_address_request (fun _ => 0) (fun _ => "") live_env (toy_tia None) s in
  r = Ok tt /\ exists end_ raws, range_end_of (Some 200) (toy_tia None) = Some end_ /\
    s'.(log) = s.(log) ++ check_log true (toy_tia None) end_ raws.
Proof.
  cbv zeta. destruct (apply_address_request _ _ live_env (toy_tia None) _) as [s' r] eqn:E.
  assert (r = Ok tt) as -> by (vm_compute in E; injection E as _ <-; reflexivity).
  split; [reflexivity|].
  assert (chain_height (start_run busy_toy ∅ None (Some Direct)).(wallet) = Ok (Some 200)) as Ht by reflexivity.
  destruct (address_check_complete _ _ _ _ _ _ _ (Some 200) Ht E) as (end_ & raws & H1 & _ & H3).
  exists end_, raws. split; [exact H1|exact H3].
Qed.

End Enhance.
