(* ===== verification/Scan.v ===== *)
(** * The scan driver: [core/src/scan.rs]

    Consumes the chunks of a range in order, scans each in one or more calls of the
    wallet library, threads the tree state from one call to the next, and hands what a
    call found to the wallet: at once, or to the write-behind lane.

    The wallet library's scan is the interface [ScanBackend]: a scan call on the database
    or on the write-behind facade, the deferred commit of a unit.  The driver's code is
    written in a state monad whose results also record a panic and, for the loops that
    carry fuel, the fuel running out.  What the world answers is an input: the server's
    tree states, how long a call takes, which audits have arrived, whether a stop is read,
    whether a deferred commit has finished.  Timers are left out. *)

From S2P Require Export Config WriteBehind Treestate Enhance Fence.
Import PersistLane Progress Config Treestate Fence.

Module Scan.

(** ** Decisions *)

Definition MIN_BATCH : Z := 1000.

(** [next_batch_len]; [None]: [u64::clamp] panics when its bounds are crossed. *)
Definition next_batch_len (prev_len prev_elapsed_ms target_ms min max : Z) : option Z :=
  if prev_elapsed_ms =? 0 then Some max
  else
    let raw := sat_mul64 prev_len target_ms / prev_elapsed_ms in
    if max <? min then None else Some (Z.max min (Z.min raw max)).

(** [should_interleave_enhancement]. *)
Definition should_interleave_enhancement (chunks_done every : Z) : bool :=
  (0 <? every) && (0 <? chunks_done) && (chunks_done mod every =? 0).

(** [needs_server_boundary_state]. *)
Definition needs_server_boundary_state (local_mode audit : bool) (boundary range_end : Z) : bool :=
  if local_mode then audit else boundary <? range_end.

(** [local_treestate_active]; [fuse]: [treestate::fuse_tripped]. *)
Definition local_treestate_active (c : EngineConfig) (fuse : bool) : bool := c.(local_treestate) && negb fuse.

(** ** Scan errors *)

(** [ChainError]: the block source's stop, a scan error, or the wallet's. *)
Inductive ChainError :=
| BlockSourceStop
| ScanError (continuity : bool) (at_height : Z) (text : string)
| WalletError (text : string).

Definition chain_error_text (e : ChainError) : string :=
  match e with BlockSourceStop => "stopped for a wallet change" | ScanError _ _ t | WalletError t => t end.

(** [map_scan_error]. *)
Definition map_scan_error (e : ChainError) : SlipstreamError :=
  match e with
  | BlockSourceStop => StoppedForWalletChange
  | ScanError true at_ _ => ScanContinuity at_
  | _ => Wallet ("scan_cached_blocks: " +:+ chain_error_text e)
  end.

(** ** Data *)

(** The counters of [struct ScanStats]. *)
Record ScanStats := mkScanStats {
  sc_blocks : Z;
  sc_chunks : Z;
  sapling_received : Z;
  orchard_received : Z;
  interleaved_enhance : Enhance.EnhanceStats;
}.
#[export] Instance eta_ScanStats : Eta ScanStats := fun s =>
  mkScanStats s.(sc_blocks) s.(sc_chunks) s.(sapling_received) s.(orchard_received) s.(interleaved_enhance).
Definition scan_stats_default : ScanStats := mkScanStats 0 0 0 0 Enhance.enhance_default.

(** The interleaved runs of a range, summed: every field. *)
Definition add_interleaved (a b : Enhance.EnhanceStats) : Enhance.EnhanceStats :=
  Enhance.mkEnhanceStats (u64_add a.(Enhance.requests) b.(Enhance.requests))
    (u64_add a.(Enhance.txs_stored) b.(Enhance.txs_stored))
    (u64_add a.(Enhance.statuses_set) b.(Enhance.statuses_set)) (u64_add a.(Enhance.skipped) b.(Enhance.skipped))
    (a.(Enhance.fetch_wait) + b.(Enhance.fetch_wait)) (a.(Enhance.store) + b.(Enhance.store))
    (a.(Enhance.address) + b.(Enhance.address)).

(** [ScanSummary]. *)
Record Summary := mkSummary { range_from : Z; range_to : Z; sapling_notes : Z; orchard_notes : Z }.

(** One call of [scan_cached_blocks]: its start, the state before it, its limit, and what
    the block source has for it. *)
Record Call (CS : Type) := mkCall { c_from : Z; c_state : CS; c_limit : Z; c_blocks : list CompactBlock }.
Arguments mkCall {CS} _ _ _ _.
Arguments c_from {CS} _.
Arguments c_state {CS} _.
Arguments c_limit {CS} _.
Arguments c_blocks {CS} _.

(** What the driver needs of the wallet library and of the persistence layer. *)
Class ScanBackend (CS DB F P : Type) := mkBackend {
  inline_scan : bool -> Call CS -> DB -> DB * result ChainError Summary;
  facade_scan : Call CS -> F -> F * result ChainError Summary;
  facade_take : F -> F * option P;
  unit_span : P -> Z * Z;
  commit : P -> DB -> PersistLane.Outcome DB;
  facade_seed : DB -> Z -> result string F;
  facade_reseed : DB -> F -> F * result string unit;
  finish_graft : DB -> DB * Res unit;
}.

(** The outcome of a spawned fetch: the task's panic, the fetch's error or its answer. *)
Definition Fetched (TS : Type) : Type := result string (Res TS).

(** A parked boundary audit. *)
Record AuditEntry (TS CS : Type) := mkAudit { au_height : Z; au_fetch : Fetched TS; au_expected : CS }.
Arguments mkAudit {TS CS} _ _ _.
Arguments au_height {TS CS} _.
Arguments au_fetch {TS CS} _.
Arguments au_expected {TS CS} _.

(** What the world answers around one sub-batch: a fetch spawned for a height, the call's milliseconds, whether its walk was refused by a stop, whether the lane's running
    commit has finished by its end, and which parked audits have arrived. *)
Record SubEnv (TS : Type) := mkSubEnv {
  se_late : Z -> Fetched TS; se_elapsed : Z; se_refused : bool; se_done : bool; se_arrived : Z -> bool;
}.
Arguments mkSubEnv {TS} _ _ _ _ _.
Arguments se_late {TS} _ _.
Arguments se_elapsed {TS} _.
Arguments se_refused {TS} _.
Arguments se_done {TS} _.
Arguments se_arrived {TS} _ _.

(** A received chunk with the boundary fetch the queue carried, the clock at its end, and
    what an enhancement run after it would do. *)
Record ChunkIn (TS DB : Type) := mkChunkIn {
  ci_chunk : ChunkQueue.Chunk; ci_boundary : option (Fetched TS); ci_now : Z;
  ci_enhance : DB -> DB * Res Enhance.EnhanceStats;
}.
Arguments mkChunkIn {TS DB} _ _ _ _.
Arguments ci_chunk {TS DB} _.
Arguments ci_boundary {TS DB} _.
Arguments ci_now {TS DB} _.
Arguments ci_enhance {TS DB} _.

(** Where a scan's results go: the session's database, or the facade and the lane, whose
    file the session's connection reads too. *)
Inductive Store (DB F P : Type) := Inline (db : DB) | Behind (f : F) (l : PersistLane.Lane P DB).
Arguments Inline {DB F P} db.
Arguments Behind {DB F P} f l.

(** How a computation ends. *)
Inductive Out (A : Type) := Val (a : A) | Fail (e : SlipstreamError) | Panic | NoFuel.
Arguments Val {A} a.
Arguments Fail {A} e.
Arguments Panic {A}.
Arguments NoFuel {A}.

Definition out_of {A} (r : Res A) : Out A := match r with Ok a => Val a | Err e => Fail e end.

Section Driver.
Context `{Trees Fs Fo Fi Ns No} `{EqDecision Fs} `{EqDecision Fo} `{EqDecision Fi}.
Abbreviation CS := (ChainState Fs Fo Fi).
Context {DB F P TS : Type} `{B : !ScanBackend CS DB F P} (to_chain_state : TS -> result string CS).
Context (config : EngineConfig) (range_start range_end : Z).
(** The answers around the sub-batches, by their number. *)
Context (env : Z -> SubEnv TS).

#[export] Instance chain_state_eq_dec : EqDecision CS.
Proof. solve_decision. Defined.

(** The locals of [scan_chunks_inner] and what it shares. *)
Record Loop := mkLoop {
  lp_store : Store DB F P;
  next_state : TS;
  local_ts : option (LocalTreestate Fs Fo);
  local_boundary : option (Z * bytes);
  boundary_index : Z;
  audits : list (AuditEntry TS CS);
  batch_len : Z;
  first_scan_call : bool;
  notes_since_enhance : Z;
  lp_stats : ScanStats;
  chunk_scanned : Z; chunk_sapling : Z; chunk_orchard : Z;
  lp_progress : option Progress;
  lp_fuse : bool;
  lp_fence : DecryptionFence;
  calls : list (Call CS);
}.
#[export] Instance eta_Loop : Eta Loop := fun s =>
  mkLoop s.(lp_store) s.(next_state) s.(local_ts) s.(local_boundary) s.(boundary_index) s.(audits) s.(batch_len)
    s.(first_scan_call) s.(notes_since_enhance) s.(lp_stats) s.(chunk_scanned) s.(chunk_sapling) s.(chunk_orchard)
    s.(lp_progress) s.(lp_fuse) s.(lp_fence) s.(calls).

Definition M (A : Type) : Type := Loop -> Loop * Out A.
Definition ret {A} (a : A) : M A := fun s => (s, Val a).
Definition raise {A} (e : SlipstreamError) : M A := fun s => (s, Fail e).
Definition bind {A B} (m : M A) (k : A -> M B) : M B := fun s =>
  match m s with
  | (s', Val a) => k a s'
  | (s', Fail e) => (s', Fail e)
  | (s', Panic) => (s', Panic)
  | (s', NoFuel) => (s', NoFuel)
  end.
#[local] Notation "'let!' x := m 'in' k" := (bind m (fun x => k))
  (at level 10, x pattern, m at level 100, k at level 200, only parsing).
#[local] Notation "m ;;; k" := (bind m (fun _ => k)) (at level 100, right associativity, only parsing).
Definition get {A} (f : Loop -> A) : M A := fun s => (s, Val (f s)).
Definition modify (f : Loop -> Loop) : M unit := fun s => (f s, Val tt).
Definition lift {A} (r : Res A) : M A := fun s => (s, out_of r).

(** Whether the range runs in local mode: decided once, at its start. *)
Context (local_mode : bool).

Definition exceeds_u32 (h : Z) : SlipstreamError := Wallet ("height " +:+ pretty h +:+ " exceeds u32").

(** ** Audits *)

(** The loop of [drain_audits]: the entries kept, and the first mismatch. *)
Fixpoint settle_audits (force_all : bool) (arrived : Z -> bool) (l : list (AuditEntry TS CS))
  : list (AuditEntry TS CS) * option Z :=
  match l with
  | [] => ([], None)
  | a :: l' =>
    if negb force_all && negb (arrived a.(au_height))
    then let '(rest, bad) := settle_audits force_all arrived l' in (a :: rest, bad)
    else
      match a.(au_fetch) with
      | Ok (Ok server) =>
        match to_chain_state server with
        | Ok server_state =>
          if decide (server_state = a.(au_expected)) then settle_audits force_all arrived l'
          else ([], Some a.(au_height))
        | Err _ => settle_audits force_all arrived l'
        end
      | _ => settle_audits force_all arrived l'
      end
  end.

(** [drain_audits]: a mismatch trips the fuse and fails the range. *)
Definition drain_audits (force_all : bool) (arrived : Z -> bool) : M unit := fun s =>
  match settle_audits force_all arrived s.(audits) with
  | (rest, None) => (s <| audits := rest |>, Val tt)
  | (_, Some h) =>
    (s <| audits := [] |> <| lp_fuse := true |>,
     Fail (Wallet ("local treestate MISMATCH vs server at height " +:+ pretty h +:+
                   " — pass aborted, fuse tripped (server path on revival)")))
  end.

(** ** One sub-batch *)

(** The state before the call: derived locally, or the server's. *)
Definition prepare_state : M CS := fun s =>
  match s.(local_ts), s.(local_boundary) with
  | Some ts, Some (bh, bhash) =>
    match u32_try_from bh with
    | None => (s, Fail (exceeds_u32 bh))
    | Some h => (s, Val (chain_state h bhash ts))
    end
  | _, _ =>
    match to_chain_state s.(next_state) with
    | Err e => (s, Fail (Wallet ("chain state: " +:+ e)))
    | Ok cs => (s, Val cs)
    end
  end.

(** In local mode the first state seeds the running frontiers. *)
Definition seed_local (from_state : CS) : M unit := modify (fun s =>
  if local_mode && bool_decide (s.(local_ts) = None)
  then s <| local_ts := Some (seed from_state) |> else s).

(** The scan call on the store in use; a stop refuses its first block. *)
Definition scan_call (call : Call CS) (refused : bool) : M Summary := fun s =>
  let s := s <| calls := s.(calls) ++ [call] |> in
  if refused then (s, Fail (map_scan_error BlockSourceStop))
  else
    let '(st, r) :=
      match s.(lp_store) with
      | Inline db => let '(db', r) := inline_scan config.(sparse_persistence) call db in (Inline db', r)
      | Behind f l => let '(f', r) := facade_scan call f in (Behind f' l, r)
      end in
    let s := s <| lp_store := st |> in
    match r with Ok sum => (s, Val sum) | Err e => (s, Fail (map_scan_error e)) end.

(** The lane writes the progress it shares with the scan. *)
Definition lane_in (p : option Progress) (l : PersistLane.Lane P DB) : PersistLane.Lane P DB :=
  l <| PersistLane.lane_progress := p |>.

(** A lane operation from within the scan. *)
Definition on_lane (f : F) (l : PersistLane.Lane P DB) (op : PersistLane.Lane P DB -> option (PersistLane.Lane P DB * Res unit))
  : M unit := fun s =>
  match op (lane_in s.(lp_progress) l) with
  | None => (s, NoFuel)
  | Some (l', r) => (s <| lp_store := Behind f l' |> <| lp_progress := l'.(PersistLane.lane_progress) |>, out_of r)
  end.

(** Hands the stashed unit, if any, to the lane. *)
Definition submit (done_ : bool) : M unit :=
  let! st := get lp_store in
  match st with
  | Inline _ => ret tt
  | Behind f l =>
    let '(f', pending) := facade_take f in
    match pending with
    | None => modify (fun s => s <| lp_store := Behind f' l |>)
    | Some p => on_lane f' l (fun l =>
        PersistLane.submit_job commit (unit_span p) p (if done_ then PersistLane.run_task commit l else l))
    end
  end.

(** Absorbs the blocks of heights [h], [h + 1], ... of the chunk into the local frontiers. *)
Fixpoint absorb_heights (c : ChunkQueue.Chunk) (chunk_start : Z) (h : Z) (n : nat) (ts : LocalTreestate Fs Fo)
  : Res (LocalTreestate Fs Fo) :=
  match n with
  | O => Ok ts
  | S n' =>
    let idx := h - chunk_start in
    match c.(ChunkQueue.blocks) !! Z.to_nat idx with
    | None => Err (Wallet ("local treestate: chunk missing block " +:+ pretty h))
    | Some b =>
      if negb (b.(height) =? h) || negb (Nat.eqb (length b.(hash)) 32)
      then Err (Wallet ("local treestate: block at index " +:+ pretty idx +:+ " is malformed (height " +:+
                        pretty b.(height) +:+ " hash_len " +:+ pretty (Z.of_nat (length b.(hash))) +:+ ")"))
      else match absorb_block b ts with
           | (_, Err e) => Err (Wallet ("local treestate absorb: " +:+ e))
           | (ts', Ok _) => absorb_heights c chunk_start (h + 1) n' ts'
           end
    end
  end.

Definition absorb (c : ChunkQueue.Chunk) (chunk_start sub_start sub_end : Z) : M unit :=
  let! ts := get local_ts in
  match ts with
  | None => ret tt
  | Some ts =>
    let! ts' := lift (absorb_heights c chunk_start sub_start (Z.to_nat (sub_end - sub_start + 1)) ts) in
    match c.(ChunkQueue.blocks) !! Z.to_nat (sub_end - chunk_start) with
    | None => fun s => (s, Panic)
    | Some lst => modify (fun s => s <| local_ts := Some ts' |> <| local_boundary := Some (sub_end, lst.(hash)) |>)
    end
  end.

(** Consumes the boundary fetch: the next state, or an audit parked for later. *)
Definition consume (prefetch : option (Fetched TS)) : M unit :=
  match prefetch with
  | None => ret tt
  | Some fetched =>
    if local_mode then fun s =>
      match s.(local_ts), s.(local_boundary) with
      | Some ts, Some (bh, bhash) =>
        match u32_try_from bh with
        | None => (s, Fail (exceeds_u32 bh))
        | Some h => (s <| audits := s.(audits) ++ [mkAudit bh fetched (chain_state h bhash ts)] |>, Val tt)
        end
      | _, _ => (s, Val tt)
      end
    else
      match fetched with
      | Err e => raise (Transport ("prefetch task: " +:+ e))
      | Ok (Err e) => raise e
      | Ok (Ok ts) => modify (fun s => s <| next_state := ts |>)
      end
  end.

(** The controller, consulted only when sub-batching is on. *)
Definition control (current elapsed chunk_len : Z) : M unit :=
  match config.(scan_batch_target_ms) with
  | None => ret tt
  | Some target =>
    match next_batch_len current elapsed target MIN_BATCH (Z.min chunk_len u32_max) with
    | None => fun s => (s, Panic)
    | Some n => modify (fun s => s <| batch_len := n |>)
    end
  end.

(** The fence, before the first scan call. *)
Definition fence_once : M unit := modify (fun s =>
  if s.(first_scan_call)
  then s <| first_scan_call := false |> <| lp_fence := wait_if_owed s.(lp_fence) |> else s).

(** The chunk's running totals. *)
Definition count_summary (summary : Summary) : M unit := modify (fun s =>
  s <| chunk_scanned := u64_add s.(chunk_scanned) (u64_sub summary.(range_to) summary.(range_from)) |>
    <| chunk_sapling := u64_add s.(chunk_sapling) summary.(sapling_notes) |>
    <| chunk_orchard := u64_add s.(chunk_orchard) summary.(orchard_notes) |>).

(** The body of the sub-batch loop, for [remaining] blocks from [sub_start]; the next start. *)
Definition sub_batch (ci : ChunkIn TS DB) (chunk_start chunk_end sub_start remaining : Z) : M Z :=
  let c := ci.(ci_chunk) in
  let chunk_len := Z.of_nat (length c.(ChunkQueue.blocks)) in
  let! s0 := get id in
  let current := Z.min s0.(batch_len) remaining in
  let sub_end := sub_start + current - 1 in
  let e := env s0.(boundary_index) in
  let audit_this := local_mode && (0 <? config.(treestate_verify_sample)) &&
    (s0.(boundary_index) mod config.(treestate_verify_sample) =? 0) in
  modify (fun s => s <| boundary_index := s.(boundary_index) + 1 |>) ;;;
  let carried := if sub_end =? chunk_end then ci.(ci_boundary) else None in
  let prefetch :=
    if needs_server_boundary_state local_mode audit_this sub_end range_end
    then Some (default (e.(se_late) sub_end) carried) else None in
  let! from_state := prepare_state in
  seed_local from_state ;;;
  match u32_try_from sub_start with
  | None => raise (exceeds_u32 sub_start)
  | Some from_height =>
    fence_once ;;;
    let! summary := scan_call (mkCall from_height from_state current
        (BlockSource.eligible from_height (Some current) c.(ChunkQueue.blocks))) e.(se_refused) in
    submit e.(se_done) ;;;
    count_summary summary ;;;
    absorb c chunk_start sub_start sub_end ;;;
    consume prefetch ;;;
    drain_audits false e.(se_arrived) ;;;
    control current e.(se_elapsed) chunk_len ;;;
    ret (sub_end + 1)
  end.

(** The sub-batch loop. *)
Fixpoint sub_batches (fuel : nat) (ci : ChunkIn TS DB) (chunk_start chunk_end sub_start : Z) : M unit :=
  let remaining := sat_sub (u64_add chunk_end 1) sub_start in
  if remaining =? 0 then ret tt
  else match fuel with
  | O => fun s => (s, NoFuel)
  | S fuel' =>
    let! next := sub_batch ci chunk_start chunk_end sub_start remaining in
    sub_batches fuel' ci chunk_start chunk_end next
  end.

(** ** One chunk *)

(** The interleaved enhancement: barrier, run, re-seed.  Its own error is only logged. *)
Definition interleave (ci : ChunkIn TS DB) : M unit :=
  modify (fun s => s <| notes_since_enhance := 0 |>) ;;;
  let! st := get lp_store in
  match st with
  | Inline db =>
    let '(db', r) := ci.(ci_enhance) db in
    modify (fun s => s <| lp_store := Inline db' |>
      <| lp_stats := match r with
           | Ok es => s.(lp_stats) <| interleaved_enhance := add_interleaved s.(lp_stats).(interleaved_enhance) es |>
           | Err _ => s.(lp_stats) end |>)
  | Behind f l =>
    on_lane f l (PersistLane.drain commit) ;;;
    let! st := get lp_store in
    match st with
    | Inline _ => ret tt
    | Behind f l =>
      let '(db', r) := ci.(ci_enhance) l.(PersistLane.store) in
      let '(f', rs) := facade_reseed db' f in
      modify (fun s => s <| lp_store := Behind f' (l <| PersistLane.store := db' |>) |>
        <| lp_stats := match r with
             | Ok es => s.(lp_stats) <| interleaved_enhance := add_interleaved s.(lp_stats).(interleaved_enhance) es |>
             | Err _ => s.(lp_stats) end |>) ;;;
      match rs with Ok _ => ret tt | Err e => raise (Wallet ("write-behind reseed: " +:+ e)) end
    end
  end.

Definition chunk_totals (ci : ChunkIn TS DB) (s : Loop) : Loop :=
  s <| lp_stats := s.(lp_stats) <| sc_blocks := u64_add s.(lp_stats).(sc_blocks) s.(chunk_scanned) |>
         <| sc_chunks := u64_add s.(lp_stats).(sc_chunks) 1 |>
         <| sapling_received := u64_add s.(lp_stats).(sapling_received) s.(chunk_sapling) |>
         <| orchard_received := u64_add s.(lp_stats).(orchard_received) s.(chunk_orchard) |> |>
    <| notes_since_enhance := u64_add s.(notes_since_enhance) (u64_add s.(chunk_sapling) s.(chunk_orchard)) |>
    <| lp_progress := add_scanned s.(chunk_scanned) ci.(ci_now) <$> s.(lp_progress) |>.

(** The batch length at the start of a chunk. *)
Definition init_batch (c : ChunkQueue.Chunk) : M unit := modify (fun s =>
  if bool_decide (config.(scan_batch_target_ms) = None) || (s.(batch_len) =? 0)
  then s <| batch_len := Z.min (Z.of_nat (length c.(ChunkQueue.blocks))) u32_max |> else s).

Definition reset_totals : M unit := modify (fun s =>
  s <| chunk_scanned := 0 |> <| chunk_sapling := 0 |> <| chunk_orchard := 0 |>).

(** The body of the chunk loop. *)
Definition scan_chunk (ci : ChunkIn TS DB) : M unit :=
  let c := ci.(ci_chunk) in
  match ChunkQueue.start_height c, ChunkQueue.end_height c with
  | Some chunk_start, Some chunk_end =>
    if range_end <? chunk_end
    then raise (Wallet ("chunk " +:+ pretty chunk_start +:+ "..=" +:+ pretty chunk_end +:+
                        " runs past the range end " +:+ pretty range_end))
    else
      init_batch c ;;;
      reset_totals ;;;
      sub_batches (Z.to_nat (sat_sub (u64_add chunk_end 1) chunk_start)) ci chunk_start chunk_end chunk_start ;;;
      modify (chunk_totals ci) ;;;
      let! s := get id in
      if should_interleave_enhancement s.(lp_stats).(sc_chunks) config.(enhance_every_chunks) &&
         (0 <? s.(notes_since_enhance))
      then interleave ci else ret tt
  | _, _ => raise (Wallet "empty chunk")
  end.

(** The chunk loop, to the end of the queue, and the range-end audits. *)
Fixpoint scan_all (cis : list (ChunkIn TS DB)) : M unit :=
  match cis with
  | [] => drain_audits true (fun _ => true)
  | ci :: cis' => scan_chunk ci ;;; scan_all cis'
  end.

(** [scan_chunks_inner], from the fetched seed state. *)
Definition loop_init (st : Store DB F P) (ts : TS) (p : option Progress) (fuse : bool) (fence : DecryptionFence) : Loop :=
  mkLoop st ts None None 0 [] 0 true 0 scan_stats_default 0 0 0 p fuse fence [].
End Driver.

(** ** The range *)

Section Range.
Context `{Trees Fs Fo Fi Ns No} `{EqDecision Fs} `{EqDecision Fo} `{EqDecision Fi}.
Abbreviation CS := (ChainState Fs Fo Fi).
Context {DB F P TS : Type} `{B : !ScanBackend CS DB F P} (to_chain_state : TS -> result string CS).

(** What is left when a scan of a range ends. *)
Record ScanEnd := mkScanEnd {
  end_store : Store DB F P;
  end_progress : option Progress;
  end_fuse : bool;
  end_fence : DecryptionFence;
  end_calls : list (Call CS);
  end_result : Out ScanStats;
}.

(** [scan_chunks_inner]. *)
Definition scan_chunks_inner (config : EngineConfig) (range_end : Z) (env : Z -> SubEnv TS) (seed_state : Res TS)
    (st : Store DB F P) (p : option Progress) (fuse : bool) (fence : DecryptionFence) (cis : list (ChunkIn TS DB))
  : ScanEnd :=
  match seed_state with
  | Err e => mkScanEnd st p fuse fence [] (Fail e)
  | Ok ts =>
    let '(s, r) := scan_all to_chain_state config range_end env (local_treestate_active config fuse) cis
                     (loop_init st ts p fuse fence) in
    mkScanEnd s.(lp_store) s.(lp_progress) s.(lp_fuse) s.(lp_fence) s.(calls)
      (match r with Val _ => Val s.(lp_stats) | Fail e => Fail e | Panic => Panic | NoFuel => NoFuel end)
  end.

(** The barrier on every exit: drain, a persist error first; on success the range-end build. *)
Definition barrier (now : Z) (e : ScanEnd) : ScanEnd :=
  match e.(end_store), e.(end_result) with
  | Behind f l, (Val _ | Fail _) =>
    let f' := (facade_take f).1 in
    match PersistLane.drain commit (lane_in e.(end_progress) l) with
    | None => mkScanEnd e.(end_store) e.(end_progress) e.(end_fuse) e.(end_fence) e.(end_calls) NoFuel
    | Some (l', Err pe) =>
      mkScanEnd (Behind f' l') l'.(lane_progress) e.(end_fuse) e.(end_fence) e.(end_calls) (Fail pe)
    | Some (l', Ok _) =>
      match e.(end_result) with
      | Val stats =>
        let '(db, r) := finish_graft l'.(PersistLane.store) in
        let l2 := l' <| PersistLane.store := db |> in
        match r with
        | Ok _ => mkScanEnd (Behind f' l2) (touch now <$> l'.(lane_progress)) e.(end_fuse) e.(end_fence) e.(end_calls) (Val stats)
        | Err ge => mkScanEnd (Behind f' l2) l'.(lane_progress) e.(end_fuse) e.(end_fence) e.(end_calls) (Fail ge)
        end
      | other => mkScanEnd (Behind f' l') l'.(lane_progress) e.(end_fuse) e.(end_fence) e.(end_calls) other
      end
    end
  | _, _ => e
  end.

(** [scan_chunks]; [opened]: how opening the lane's connection went. *)
Definition scan_chunks (config : EngineConfig) (range_start range_end : Z) (env : Z -> SubEnv TS) (seed_state : Res TS)
    (opened : Res unit) (now : Z) (db : DB) (p : option Progress) (fuse : bool) (fence : DecryptionFence)
    (cis : list (ChunkIn TS DB)) : ScanEnd :=
  let stop e := mkScanEnd (Inline db) p fuse fence [] (Fail e) in
  if range_start =? 0 then stop (Wallet "range_start must be >= 1")
  else if range_end <? range_start
  then stop (Wallet ("range_end " +:+ pretty range_end +:+ " is below range_start " +:+ pretty range_start))
  else if config.(write_behind)
  then
    match facade_seed db range_start with
    | Err e => stop (Wallet ("write-behind seed: " +:+ e))
    | Ok f =>
      match opened with
      | Err e => stop e
      | Ok _ =>
        barrier now (scan_chunks_inner config range_end env seed_state
          (Behind f (lane_in p (PersistLane.open db config.(persist_depth)))) p fuse fence cis)
      end
    end
  else scan_chunks_inner config range_end env seed_state (Inline db) p fuse fence cis.
End Range.
End Scan.

(** A wallet that keeps the heights scanned, trees without content, and a server that knows
    every height: the instance the concrete runs use. *)
Module SampleScan.
Import Scan.

#[export] Instance unit_trees : Trees unit unit unit unit unit :=
  mkTrees _ _ _ _ _ (fun _ => Ok tt) (fun _ => Ok tt) (fun _ _ => Some tt) (fun _ _ => Some tt) tt.
Abbreviation UnitCS := (ChainState unit unit unit).

Definition scanned (c : Call UnitCS) : list Z := height <$> c.(c_blocks).
Definition summary_of (c : Call UnitCS) : Summary :=
  mkSummary c.(c_from) (c.(c_from) + Z.of_nat (length c.(c_blocks))) 1 0.

#[export] Instance heights_backend : ScanBackend UnitCS (list Z) (list Z * option (list Z)) (list Z) :=
  mkBackend _ _ _ _
    (fun _ c db => (db ++ scanned c, Ok (summary_of c)))
    (fun c f => ((f.1 ++ scanned c, Some (scanned c)), Ok (summary_of c)))
    (fun f => ((f.1, None), f.2))
    (fun u => (default 0 (head u), default 0 (last u)))
    (fun u db => mkOutcome (db ++ u) CommitOk 0)
    (fun db _ => Ok (db, None))
    (fun db f => ((db, None), Ok tt))
    (fun db => (db, Ok tt)).

Definition state_at (h : Z) : UnitCS := mkChainState h [] tt tt tt.
Definition server (h : Z) : Fetched UnitCS := Ok (Ok (state_at h)).
Definition quick (elapsed : Z) (i : Z) : SubEnv UnitCS := mkSubEnv server elapsed false true (fun _ => true).
Definition block (h : Z) : CompactBlock := mkCompactBlock h (replicate 32 x00) [] [].
Definition chunk_in (from n : Z) : ChunkIn UnitCS (list Z) :=
  mkChunkIn (ChunkQueue.mkChunk 0 (block <$> seqZ from n) 0 0) None 5
    (fun db => (db ++ [-1], Ok Enhance.enhance_default)).
Definition sample_config (target : option Z) (wb : bool) (depth : Z) : EngineConfig :=
  (config_new (mkEndpoint "zec.rocks" 443 true)) <| scan_batch_target_ms := target |>
    <| write_behind := wb |> <| persist_depth := depth |>.
Definition run_sample (target : option Z) (wb : bool) (depth elapsed : Z) (cis : list (ChunkIn UnitCS (list Z)))
    (range_end : Z) :=
  scan_chunks (fun ts : UnitCS => Ok ts) (sample_config target wb depth) 100 range_end (quick elapsed)
    (Ok (state_at 99)) (Ok tt) 7 [] (Some progress_default) false fence_new cis.
End SampleScan.
