(* ===== verification/ScanCalls.v ===== *)
(** * The calls of a scan

    What the scan driver asks of the wallet library over a range: the calls tile the range
    in order, each from the tree state just below it; the loops end; only the batch
    controller can panic. *)

From S2P Require Export Scan.
Import PersistLane Progress Config Treestate Fence Scan.

Module ScanCalls.

(** Calls that cover the heights [from .. to_ - 1] one after the other, each given the
    state at the height below its start and the blocks of its heights. *)
Fixpoint tiles {Fs Fo Fi} (from : Z) (cs : list (Call (ChainState Fs Fo Fi))) (to_ : Z) : Prop :=
  match cs with
  | [] => to_ = from
  | c :: cs' =>
    c.(c_from) = from /\ c.(c_state).(block_height) = from - 1 /\ 1 <= c.(c_limit) /\
    height <$> c.(c_blocks) = seqZ from c.(c_limit) /\ tiles (from + c.(c_limit)) cs' to_
  end.

Lemma tiles_snoc {Fs Fo Fi} (cs : list (Call (ChainState Fs Fo Fi))) c : forall from to_, tiles from cs to_ ->
  c.(c_from) = to_ -> c.(c_state).(block_height) = to_ - 1 -> 1 <= c.(c_limit) ->
  height <$> c.(c_blocks) = seqZ to_ c.(c_limit) ->
  tiles from (cs ++ [c]) (to_ + c.(c_limit)).
Proof.
  induction cs as [|c' cs IH]; intros from to_; simpl; [intros ->; by intros|].
  intros (? & ? & ? & ? & ?) ? ? ? ?. split_and!; try done. by apply IH.
Qed.

Lemma tiles_le {Fs Fo Fi} (cs : list (Call (ChainState Fs Fo Fi))) : forall from to_, tiles from cs to_ -> from <= to_.
Proof. induction cs as [|c cs IH]; intros from to_; simpl; [lia|]. intros (_ & _ & ? & _ & Ht). apply IH in Ht. lia. Qed.

Lemma take_seqZ a n m : 0 <= n <= m -> take (Z.to_nat n) (seqZ a m) = seqZ a n.
Proof. intros Hn. unfold seqZ. rewrite <-fmap_take, take_seq. do 2 f_equal. lia. Qed.

(** A contiguous chunk serves exactly the heights of a sub-batch. *)
Lemma eligible_heights bs from n : 0 <= n -> forall start, height <$> bs = seqZ start (Z.of_nat (length bs)) ->
  start <= from -> from + n <= start + Z.of_nat (length bs) ->
  height <$> BlockSource.eligible from (Some n) bs = seqZ from n.
Proof.
  intros Hn. unfold BlockSource.eligible. rewrite fmap_take.
  induction bs as [|b bs IH]; intros start E H1 H2.
  { simpl in *. rewrite take_nil. assert (n = 0) as -> by lia. done. }
  assert (height b = start /\ height <$> bs = seqZ (start + 1) (Z.of_nat (length bs))) as [Eh E'].
  { cbn [length] in E. rewrite Nat2Z.inj_succ, seqZ_cons, Z.pred_succ in E by lia. by injection E. }
  rewrite filter_cons. destruct (decide (from <= height b)) as [Hle|Hgt].
  - assert (from = start) as -> by lia. rewrite list_filter_true.
    + rewrite E. apply take_seqZ. lia.
    + intros x Hx. assert (height x ∈ height <$> bs) as Hin by (by apply list_elem_of_fmap_2).
      rewrite E' in Hin. apply elem_of_seqZ in Hin. lia.
  - apply (IH (start + 1)); [done|lia|]. cbn [length] in H2. lia.
Qed.

Section Inv.
Context `{Trees Fs Fo Fi Ns No} `{EqDecision Fs} `{EqDecision Fo} `{EqDecision Fi}.
Abbreviation CS := (ChainState Fs Fo Fi).
Context {DB F P TS : Type} `{B : !ScanBackend CS DB F P} (tcs : TS -> result string CS).
Context (config : EngineConfig) (range_start range_end : Z) (env : Z -> SubEnv TS) (local_mode : bool).

Abbreviation L := (Loop (Fs := Fs) (Fo := Fo) (Fi := Fi) (DB := DB) (F := F) (P := P) (TS := TS)).

(** A tree state answered for a height is of that height. *)
Definition answers (h : Z) (fetched : Fetched TS) : Prop :=
  forall ts cs, fetched = Ok (Ok ts) -> tcs ts = Ok cs -> cs.(block_height) = h.

(** Consecutive chunks of consecutive heights from [from], with honest boundary fetches. *)
Fixpoint chunks_follow (from : Z) (cis : list (ChunkIn TS DB)) : Prop :=
  match cis with
  | [] => True
  | ci :: cis' =>
    let bs := ci.(ci_chunk).(ChunkQueue.blocks) in
    let n := Z.of_nat (length bs) in
    0 < n /\ height <$> bs = seqZ from n /\
    (forall fetched, ci.(ci_boundary) = Some fetched -> answers (from + n - 1) fetched) /\
    chunks_follow (from + n) cis'
  end.

Definition blocks_of (cis : list (ChunkIn TS DB)) : list CompactBlock :=
  cis ≫= fun ci => ci.(ci_chunk).(ChunkQueue.blocks).

Hypothesis range_end_u64 : range_end < u64_max.
Hypothesis late_honest : forall i h, answers h ((env i).(se_late) h).

Definition store_ok (st : Store DB F P) : Prop :=
  match st with Inline _ => True | Behind _ l => lane_wf l /\ 1 <= l.(depth) end.
(** A store on any exit: its lane can be drained. *)
Definition store_end (st : Store DB F P) : Prop :=
  match st with Inline _ => True | Behind _ l => lane_wf l \/ idle l end.

(** The state before [next] is at hand: derived locally, or fetched. *)
Definition ready (next : Z) (s : L) : Prop :=
  match s.(local_ts) with
  | Some _ => local_mode = true /\ exists h, s.(local_boundary) = Some (next - 1, h)
  | None => s.(local_boundary) = None /\
    (next <= range_end -> forall cs, tcs s.(next_state) = Ok cs -> cs.(block_height) = next - 1)
  end.

Definition inv (next : Z) (s : L) : Prop :=
  tiles range_start s.(calls) next /\ ready next s /\ store_ok s.(lp_store).

(** After the call that ends below [next], before its boundary is settled. *)
Definition mid (next : Z) (s : L) : Prop :=
  tiles range_start s.(calls) next /\ store_ok s.(lp_store) /\
  if local_mode then is_Some s.(local_ts) else s.(local_ts) = None /\ s.(local_boundary) = None.

(** How a computation may end: with [V], or early, the calls so far tiling a prefix. *)
Definition ends {A} (V : A -> L -> Prop) (r : L * Out A) : Prop :=
  match r with
  | (s, Val a) => V a s
  | (s, Fail _) => (exists to_, tiles range_start s.(calls) to_) /\ store_end s.(lp_store)
  | (s, Panic) => (exists to_, tiles range_start s.(calls) to_) /\ config.(scan_batch_target_ms) <> None
  | (s, NoFuel) => False
  end.

Lemma ends_bind {A B'} (V1 : A -> L -> Prop) (V : B' -> L -> Prop) (m : L -> L * Out A) (k : A -> L -> L * Out B') s :
  ends V1 (m s) -> (forall a s', V1 a s' -> ends V (k a s')) -> ends V (bind m k s).
Proof. intros Hm Hk. unfold bind. destruct (m s) as [s' [a|e| |]]; simpl in *; auto. Qed.

Lemma ends_modify {A} (V : A -> L -> Prop) f (k : unit -> L -> L * Out A) s : ends V (k tt (f s)) -> ends V (bind (modify f) k s).
Proof. done. Qed.

Lemma ends_mono {A} (V1 V : A -> L -> Prop) (r : L * Out A) :
  ends V1 r -> (forall a s', V1 a s' -> V a s') -> ends V r.
Proof. destruct r as [s [a|e| |]]; simpl; auto. Qed.

Lemma store_ok_end st : store_ok st -> store_end st.
Proof. destruct st; simpl; tauto. Qed.

Lemma mid_fail n s : mid n s -> (exists to_, tiles range_start s.(calls) to_) /\ store_end s.(lp_store).
Proof. intros (Ht & Hs & _). split; [eauto|by apply store_ok_end]. Qed.

Lemma inv_fail n s : inv n s -> (exists to_, tiles range_start s.(calls) to_) /\ store_end s.(lp_store).
Proof. intros (Ht & _ & Hs). split; [eauto|by apply store_ok_end]. Qed.

Lemma prepare_ends n s : inv n s -> n <= range_end ->
  ends (fun cs s' => s' = s /\ cs.(block_height) = n - 1) (prepare_state tcs s).
Proof.
  intros Hi Hn. pose proof (inv_fail _ _ Hi) as Hf. destruct Hi as (_ & Hr & _).
  unfold prepare_state, ready in *. destruct (local_ts s) as [ts|].
  - destruct Hr as (_ & h & ->). unfold u32_try_from. by destruct (_ <=? _).
  - destruct Hr as (_ & Hr). destruct (tcs (next_state s)); simpl; auto.
Qed.

Lemma on_lane_ends n f l op s : mid n s ->
  (exists l' r, op (lane_in s.(lp_progress) l) = Some (l', r) /\
     match r with Ok _ => lane_wf l' /\ 1 <= l'.(depth) | Err _ => idle l' end) ->
  ends (fun _ s' => mid n s' /\ s'.(batch_len) = s.(batch_len) /\ exists l', s'.(lp_store) = Behind f l') (on_lane f l op s).
Proof.
  intros (Ht & Hs & Hm) (l' & r & E & Hr). unfold on_lane. rewrite E. destruct r as [[]|e]; simpl; eauto.
  split; [|by eauto]. split; [done|]. by split.
Qed.

Lemma submit_ends d n s : mid n s ->
  ends (fun _ s' => mid n s' /\ s'.(batch_len) = s.(batch_len)) (Scan.submit d s).
Proof.
  intros Hm. pose proof Hm as (Ht & Hs & Hl). unfold Scan.submit, bind, get. destruct (lp_store s) as [db|f l] eqn:Es; [done|].
  destruct (facade_take f) as [f' [u|]].
  2: { simpl. split; [|done]. split; [done|]. by split. }
  eapply ends_mono; [apply (on_lane_ends n)|by intros [] s' (? & ? & _)]; [done|].
  simpl in Hs. destruct Hs as [Hwf Hd].
  set (l1 := if d then run_task commit (lane_in (lp_progress s) l) else lane_in (lp_progress s) l).
  assert (lane_wf l1 /\ l1.(depth) = l.(depth)) as [Hwf1 Hd1].
  { unfold l1. destruct d; [|done]. split; [by apply wf_run_task|].
    unfold run_task. cbn. destruct (in_flight l) as [[]|]; done. }
  destruct (submit_spec commit (unit_span u) u l1 Hwf1) as (l' & r & E & Hd' & Hr); [lia|].
  exists l', r. split; [exact E|]. destruct r; [|tauto]. destruct Hr as (_ & ? & _). split; [done|lia].
Qed.

Lemma absorb_heights_last c start h n ts ts' : absorb_heights c start h n ts = Ok ts' -> (0 < n)%nat ->
  is_Some (c.(ChunkQueue.blocks) !! Z.to_nat (h + Z.of_nat n - 1 - start)).
Proof.
  revert h ts. induction n as [|n IH]; intros h ts; [lia|]. cbn [absorb_heights]. intros E _.
  destruct (_ !! _) as [b|] eqn:Eb; [|done]. destruct (_ || _); [done|].
  destruct (absorb_block b ts) as [ts1 [[]|]]; [|done]. destruct n as [|n].
  - exists b. rewrite <-Eb. f_equal. lia.
  - apply IH in E; [|lia]. replace (h + Z.of_nat (S (S n)) - 1 - start) with (h + 1 + Z.of_nat (S n) - 1 - start) by lia. done.
Qed.

Lemma absorb_ends c start a b s : mid (b + 1) s -> a <= b ->
  ends (fun _ s' => mid (b + 1) s' /\ (local_mode = true -> exists h, s'.(local_boundary) = Some (b, h)) /\
                    s'.(batch_len) = s.(batch_len)) (absorb c start a b s).
Proof.
  intros Hm Hab. unfold absorb, bind, get. pose proof Hm as (Ht & Hs & Hl).
  destruct (local_ts s) as [ts|] eqn:El.
  2: { simpl. split; [done|]. split; [|done]. intros ->. by destruct Hl. }
  unfold lift. destruct (absorb_heights c start a (Z.to_nat (b - a + 1)) ts) as [ts'|e] eqn:E; simpl.
  2: { by apply (mid_fail (b + 1)). }
  apply absorb_heights_last in E; [|lia]. replace (a + Z.of_nat (Z.to_nat (b - a + 1)) - 1 - start) with (b - start) in E by lia.
  destruct E as [lst ->]. simpl. unfold mid. simpl. destruct local_mode; [by eauto 10|by destruct Hl].
Qed.

Lemma consume_ends n prefetch s : mid n s -> (local_mode = true -> exists h, s.(local_boundary) = Some (n - 1, h)) ->
  (local_mode = false -> n <= range_end -> exists fetched, prefetch = Some fetched /\ answers (n - 1) fetched) ->
  ends (fun _ s' => inv n s' /\ s'.(batch_len) = s.(batch_len)) (consume local_mode prefetch s).
Proof.
  intros Hm Hb Hp. pose proof (mid_fail _ _ Hm) as Hf. destruct Hm as (Ht & Hs & Hl). unfold consume.
  destruct local_mode eqn:Em.
  - destruct Hl as [ts Hts]. destruct (Hb eq_refl) as [h Hh].
    assert (inv n s) as Hi. { split; [done|]. split; [|done]. unfold ready. rewrite Hts. eauto. }
    destruct prefetch as [fetched|]; [|done]. rewrite Hts, Hh. unfold u32_try_from. destruct (_ <=? _); [|done].
    simpl. split; [exact Hi|done].
  - destruct Hl as [Hts Hlb]. unfold inv, ready. destruct prefetch as [fetched|].
    + destruct fetched as [[ts|e]|e]; simpl; [|done|done]. rewrite Hts, Hlb. split; [|done]. split; [done|]. split; [|done]. split; [done|].
      intros Hn cs Hc. destruct (Hp eq_refl Hn) as (f & [= <-] & Ha). by eapply Ha.
    + simpl. rewrite Hts. split; [|done]. split; [done|]. split; [|done]. split; [done|].
      intros Hn. destruct (Hp eq_refl Hn) as (f & [=] & _).
Qed.

Lemma audits_ends n force arrived s : inv n s ->
  ends (fun _ s' => inv n s' /\ s'.(batch_len) = s.(batch_len)) (drain_audits tcs force arrived s).
Proof.
  intros Hi. unfold drain_audits. destruct (settle_audits _ _ _ _) as [rest [h|]]; simpl; [|done].
  by apply (inv_fail n).
Qed.

Lemma next_batch_len_bounds l e t mn mx r : 1 <= mn -> 1 <= mx -> next_batch_len l e t mn mx = Some r -> 1 <= r <= mx.
Proof.
  intros. unfold next_batch_len in *. destruct (_ =? _); simplify_eq; [lia|]. cbv zeta in *.
  destruct (Z.ltb_spec mx mn); simplify_eq. lia.
Qed.

Lemma control_ends n cur el len s : inv n s -> 1 <= s.(batch_len) -> 1 <= len ->
  ends (fun _ s' => inv n s' /\ 1 <= s'.(batch_len)) (control config cur el len s).
Proof.
  intros Hi Hb Hl. unfold control. destruct (scan_batch_target_ms config) as [t|] eqn:Et; [|done].
  destruct (next_batch_len _ _ _ _ _) as [r|] eqn:E; simpl.
  - apply next_batch_len_bounds in E; [|unfold MIN_BATCH; lia|unfold u32_max; lia]. split; [exact Hi|lia].
  - rewrite Et. split; [|done]. destruct Hi as (? & _). eauto.
Qed.

(** Before a call: the state is at hand and, in local mode, seeded. *)
Definition pre (next : Z) (s : L) : Prop :=
  tiles range_start s.(calls) next /\ store_ok s.(lp_store) /\
  if local_mode then is_Some s.(local_ts) else s.(local_ts) = None /\ s.(local_boundary) = None.

Lemma seed_ends next cs s : inv next s ->
  ends (fun _ s' => pre next s' /\ s'.(batch_len) = s.(batch_len)) (seed_local local_mode cs s).
Proof.
  intros (Ht & Hr & Hs). unfold seed_local, modify, ends, pre, ready in *. destruct local_mode; simpl.
  - case_bool_decide as Ez; simpl; [by eauto 10|]. destruct (local_ts s); [by eauto 10|done].
  - destruct (local_ts s); [by destruct Hr|]. by destruct Hr.
Qed.

Lemma fence_ends next s : pre next s ->
  ends (fun _ s' => pre next s' /\ s'.(batch_len) = s.(batch_len)) (fence_once s).
Proof. intros Hp. unfold fence_once, modify, ends. by destruct (first_scan_call s). Qed.

Lemma scan_call_ends next cs cur bs refused s : pre next s -> cs.(block_height) = next - 1 -> 1 <= cur ->
  height <$> bs = seqZ next cur ->
  ends (fun _ s' => mid (next + cur) s' /\ s'.(batch_len) = s.(batch_len))
    (scan_call config (mkCall next cs cur bs) refused s).
Proof.
  intros (Ht & Hs & Hl) Hcs Hcur Hbs. unfold scan_call.
  set (s1 := s <| calls := _ |>).
  assert (forall st, store_ok st -> mid (next + cur) (s1 <| lp_store := st |>)) as Hmid.
  { intros st Hst. split_and!; try done. by apply (tiles_snoc _ (mkCall next cs cur bs)). }
  destruct refused. { exact (mid_fail _ _ (Hmid _ Hs)). }
  change (lp_store s1) with (lp_store s).
  destruct (lp_store s) as [db|f l].
  - destruct (inline_scan _ _ db) as [db' [sum|e]]; [by split; [apply (Hmid (Inline db'))|]|].
    apply (mid_fail _ _ (Hmid (Inline db') I)).
  - destruct (facade_scan _ f) as [f' [sum|e]]; [by split; [apply (Hmid (Behind f' l))|]|].
    apply (mid_fail _ _ (Hmid (Behind f' l) Hs)).
Qed.

(** One sub-batch: one more call, and the state for the next one. *)
Lemma sub_batch_ends ci chunk_start chunk_end next s : inv next s -> 1 <= s.(batch_len) ->
  let bs := ci.(ci_chunk).(ChunkQueue.blocks) in
  chunk_start <= next <= chunk_end -> chunk_end <= range_end ->
  chunk_end = chunk_start + Z.of_nat (length bs) - 1 -> height <$> bs = seqZ chunk_start (Z.of_nat (length bs)) ->
  (forall fetched, ci.(ci_boundary) = Some fetched -> answers chunk_end fetched) ->
  ends (fun n s' => inv n s' /\ 1 <= s'.(batch_len) /\ next < n <= chunk_end + 1)
    (sub_batch tcs config range_end env local_mode ci chunk_start chunk_end next (chunk_end + 1 - next) s).
Proof.
  intros Hi Hb bs Hn Hce Hlen Hhs Hcar. unfold bs in *. clear bs. unfold sub_batch. unfold bind at 1, get at 1. cbv beta iota zeta. unfold id.
  set (cur := Z.min s.(batch_len) (chunk_end + 1 - next)). set (sub_end := next + cur - 1).
  assert (1 <= cur /\ next + cur <= chunk_end + 1 /\ next + cur = sub_end + 1) as (Hc1 & Hc2 & Hc3) by (unfold sub_end, cur; lia).
  apply ends_modify. eapply ends_bind; [apply (prepare_ends next); [exact Hi|lia]|]. intros cs s1 [-> Hcs].
  eapply ends_bind; [by apply seed_ends|]. intros [] s2 [Hp2 Hb2].
  unfold u32_try_from at 1. destruct (next <=? u32_max).
  2: { destruct Hp2 as (? & ? & _). split; [eauto|by apply store_ok_end]. }
  eapply ends_bind; [by apply fence_ends|]. intros [] s3 [Hp3 Hb3].
  eapply ends_bind; [apply (scan_call_ends next); [done|done|done|]|].
  { eapply eligible_heights; [lia|exact Hhs|lia|lia]. }
  intros sum s4 [Hm4 Hb4]. rewrite Hc3 in Hm4.
  eapply (ends_bind (fun _ s' => mid (sub_end + 1) s' /\ s'.(batch_len) = s4.(batch_len))).
  { by apply submit_ends. }
  intros [] s5 [Hm5 Hb5]. apply ends_modify.
  eapply ends_bind; [apply absorb_ends; [exact Hm5|lia]|]. intros [] s6 (Hm6 & Hbl & Hb6).
  eapply ends_bind; [apply (consume_ends (sub_end + 1)); [done|by rewrite Z.add_simpl_r|]|].
  { intros Hlm Hle. rewrite Hlm. cbn [needs_server_boundary_state]. destruct (Z.ltb_spec sub_end range_end); [|lia].
    eexists. split; [done|]. rewrite Z.add_simpl_r. destruct (Z.eqb_spec sub_end chunk_end) as [->|]; [|apply late_honest].
    destruct (ci_boundary ci) as [f|]; simpl; [by apply Hcar|apply late_honest]. }
  intros [] s7 [Hi7 Hb7]. eapply ends_bind; [by apply (audits_ends (sub_end + 1))|]. intros [] s8 [Hi8 Hb8].
  eapply ends_bind; [apply (control_ends (sub_end + 1)); [done| |]|].
  - assert (s.(batch_len) = s8.(batch_len)) as <-; [|done]. cbn in Hb2, Hb6. congruence.
  - lia.
  - intros [] s9 [Hi9 Hb9]. cbn. split; [done|]. lia.
Qed.

Lemma sub_batches_ends ci chunk_start chunk_end fuel :
  let bs := ci.(ci_chunk).(ChunkQueue.blocks) in
  1 <= chunk_start -> chunk_end <= range_end ->
  chunk_end = chunk_start + Z.of_nat (length bs) - 1 -> height <$> bs = seqZ chunk_start (Z.of_nat (length bs)) ->
  (forall fetched, ci.(ci_boundary) = Some fetched -> answers chunk_end fetched) ->
  forall next s, inv next s -> 1 <= s.(batch_len) -> chunk_start <= next <= chunk_end + 1 ->
  chunk_end + 1 - next <= Z.of_nat fuel ->
  ends (fun _ s' => inv (chunk_end + 1) s' /\ 1 <= s'.(batch_len))
    (sub_batches tcs config range_end env local_mode fuel ci chunk_start chunk_end next s).
Proof.
  intros bs H1 Hce Hlen Hhs Hcar. induction fuel as [|fuel IH]; intros next s Hi Hb Hn Hf; cbn [sub_batches];
    rewrite u64_add_small by (unfold is_u64; lia); unfold sat_sub; rewrite Z.max_r by lia;
    destruct (Z.eqb_spec (chunk_end + 1 - next) 0).
  1,3: assert (next = chunk_end + 1) as -> by lia; done.
  - lia.
  - eapply ends_bind; [apply sub_batch_ends; try done; lia|]. intros n' s' (Hi' & Hb' & Hn'). apply IH; [done|done|lia|lia].
Qed.

Lemma interleave_ends n ci s : inv n s -> ends (fun _ s' => inv n s' /\ s'.(batch_len) = s.(batch_len)) (interleave ci s).
Proof.
  intros Hi. unfold interleave. apply ends_modify. set (s1 := s <| notes_since_enhance := 0 |>).
  assert (inv n s1) as (Ht & Hr & Hs) by exact Hi. assert (s1.(batch_len) = s.(batch_len)) as <- by done. clearbody s1.
  unfold bind at 1, get at 1. destruct (lp_store s1) as [db|f l] eqn:Es.
  - destruct (ci_enhance ci db) as [db' r]. simpl. split; [|done]. by split_and!.
  - destruct Hs as [Hwf Hd]. unfold bind at 1, on_lane.
    destruct (drain_spec commit (lane_in (lp_progress s1) l) Hwf) as (l' & r & -> & Hd' & _ & Hid & Hw).
    destruct r as [[]|e]; simpl.
    2: { split; [eauto|by right]. }
    unfold bind, get, modify, ret, raise. cbn -[inv facade_reseed].
    destruct (ci_enhance ci (store l')) as [db' r]. destruct (facade_reseed db' f) as [f' [[]|e]]; simpl.
    + split; [|done]. split; [done|]. split; [done|]. split; [by apply Hw|]. cbn in *. lia.
    + split; [eauto|]. left. by apply Hw.
Qed.

Lemma chunk_heights ci from : chunks_follow from [ci] ->
  let n := Z.of_nat (length ci.(ci_chunk).(ChunkQueue.blocks)) in
  ChunkQueue.start_height ci.(ci_chunk) = Some from /\ ChunkQueue.end_height ci.(ci_chunk) = Some (from + n - 1).
Proof.
  intros (Hn & Hhs & _). unfold ChunkQueue.start_height, ChunkQueue.end_height. split.
  - rewrite seqZ_cons in Hhs by lia. destruct (ChunkQueue.blocks _); [done|]. injection Hhs as Hh _. simpl. by rewrite Hh.
  - rewrite <-fmap_last, Hhs. rewrite <-(list_fmap_id (seqZ from _)). by apply last_fmap_seqZ.
Qed.

Lemma chunk_ends ci from s : inv from s -> (1 <= s.(batch_len) \/ s.(batch_len) = 0) -> 1 <= from -> chunks_follow from [ci] ->
  let n := Z.of_nat (length ci.(ci_chunk).(ChunkQueue.blocks)) in
  ends (fun _ s' => inv (from + n) s' /\ 1 <= s'.(batch_len) /\ from + n <= range_end + 1)
    (scan_chunk tcs config range_end env local_mode ci s).
Proof.
  intros Hi Hb Hfrom Hc. pose proof Hc as (Hn & Hhs & Hcar & _). set (n := Z.of_nat _) in *. unfold scan_chunk.
  destruct (chunk_heights ci from Hc) as [-> ->]. fold n.
  destruct (Z.ltb_spec range_end (from + n - 1)) as [|Hle]; [by apply (inv_fail from)|].
  apply ends_modify. match goal with |- ends _ (bind _ _ ?x) => set (s1 := x) end.
  assert (inv from s1 /\ 1 <= s1.(batch_len)) as [Hi1 Hb1].
  { unfold s1. destruct (_ || _) eqn:Eb; simpl; [split; [exact Hi|unfold u32_max; lia]|].
    split; [exact Hi|]. breflect. destruct Hb; [done|]. lia. }
  clearbody s1. apply ends_modify.
  eapply ends_bind.
  { apply (sub_batches_ends ci from (from + n - 1)); try done; [lia|].
    rewrite u64_add_small by (unfold is_u64; lia). unfold sat_sub. lia. }
  intros [] s2 [Hi2 Hb2]. replace (from + n - 1 + 1) with (from + n) in Hi2 by lia. apply ends_modify.
  unfold bind at 1, get at 1, id. destruct (_ && _).
  - eapply ends_mono; [apply (interleave_ends (from + n)); exact Hi2|]. intros [] s' [Hi' Hb']. split; [done|].
    rewrite Hb'. split; [exact Hb2|lia].
  - split; [exact Hi2|]. split; [exact Hb2|lia].
Qed.

Lemma scan_all_ends cis : forall from s, inv from s -> (1 <= s.(batch_len) \/ s.(batch_len) = 0) -> 1 <= from ->
  chunks_follow from cis ->
  ends (fun _ s' => inv (from + Z.of_nat (length (blocks_of cis))) s')
    (scan_all tcs config range_end env local_mode cis s).
Proof.
  induction cis as [|ci cis IH]; intros from s Hi Hb Hfrom Hc; cbn [scan_all].
  - eapply ends_mono; [by apply (audits_ends from)|]. intros [] s' [Hi' _]. simpl. by rewrite Z.add_0_r.
  - destruct Hc as (H1 & H2 & H3 & H4). eapply ends_bind; [apply (chunk_ends ci from); try done; by split_and!|].
    intros [] s' (Hi' & Hb' & _). change (blocks_of (ci :: cis)) with (ci.(ci_chunk).(ChunkQueue.blocks) ++ blocks_of cis).
    rewrite length_app, Nat2Z.inj_add, Z.add_assoc. apply IH; [done|by left|lia|done].
Qed.

(** The range as a whole, before the barrier. *)
Lemma inner_ends st p fuse fence seed_state cis : store_ok st -> 1 <= range_start ->
  local_mode = local_treestate_active config fuse ->
  answers (range_start - 1) (Ok seed_state) -> chunks_follow range_start cis ->
  let e := scan_chunks_inner tcs config range_end env seed_state st p fuse fence cis in
  (exists to_, tiles range_start e.(end_calls) to_) /\
  match e.(end_result) with
  | Val _ => tiles range_start e.(end_calls) (range_start + Z.of_nat (length (blocks_of cis))) /\ store_ok e.(end_store)
  | Fail _ => store_end e.(end_store)
  | Panic => config.(scan_batch_target_ms) <> None
  | NoFuel => False
  end.
Proof.
  intros Hst Hrs Hlm Hseed Hc. unfold scan_chunks_inner. destruct seed_state as [ts|e0].
  2: { simpl. split; [by exists range_start|by apply store_ok_end]. }
  rewrite <-Hlm.
  assert (inv range_start (loop_init st ts p fuse fence)) as Hi.
  { split; [done|]. split; [|done]. split; [done|]. intros _ cs Hcs. by eapply Hseed. }
  pose proof (scan_all_ends cis range_start _ Hi ltac:(by right) Hrs Hc) as He.
  destruct (scan_all _ _ _ _ _ _ _) as [s r]. destruct r; simpl in *; try done.
  destruct He as (? & ? & ?). eauto.
Qed.
End Inv.

(** The barrier ends, and passes the calls, a panic and a missing error on. *)
Lemma barrier_ends `{Trees Fs Fo Fi Ns No} {DB F P : Type} `{!ScanBackend (ChainState Fs Fo Fi) DB F P} now
    (e : ScanEnd (Fs := Fs) (Fo := Fo) (Fi := Fi) (DB := DB) (F := F) (P := P)) :
  match e.(end_result) with Val _ => store_ok e.(end_store) | Fail _ => store_end e.(end_store) | _ => True end ->
  (barrier now e).(end_calls) = e.(end_calls) /\
  match (barrier now e).(end_result) with
  | Val st => e.(end_result) = Val st /\ match (barrier now e).(end_store) with Inline _ => True | Behind _ l => idle l end
  | Fail _ => True
  | Panic => e.(end_result) = Panic
  | NoFuel => e.(end_result) = NoFuel
  end.
Proof.
  intros He. unfold barrier. destruct (end_store e) as [db|f l] eqn:Es.
  { split; [done|]. destruct (end_result e) eqn:Er; try done. by rewrite Es. }
  assert (forall l', lane_wf l' \/ idle l' -> exists l2 r, drain commit l' = Some (l2, r) /\ (r = Ok tt -> idle l2)) as Hd.
  { intros l' [Hw|Hi]; [|rewrite (drain_idle commit l' Hi); eauto].
    destruct (drain_spec commit l' Hw) as (l2 & r & -> & _ & _ & Hi & _). eauto. }
  destruct (end_result e) eqn:Er; try (simpl; by rewrite ?Er).
  - destruct (Hd (lane_in (end_progress e) l)) as (l2 & r & -> & Hid); [left; by destruct He|].
    destruct r as [[]|pe]; [|done]. destruct (finish_graft (store l2)) as [db [[]|ge]]; simpl; [|done].
    split; [done|]. split; [done|]. by apply Hid.
  - destruct (Hd (lane_in (end_progress e) l)) as (l2 & r & -> & Hid); [done|]. by destruct r as [[]|pe].
Qed.

Section Range.
Context `{Trees Fs Fo Fi Ns No} `{EqDecision Fs} `{EqDecision Fo} `{EqDecision Fi}.
Abbreviation CS := (ChainState Fs Fo Fi).
Context {DB F P TS : Type} `{B : !ScanBackend CS DB F P} (tcs : TS -> result string CS).

(** What a range is given: a server that answers each tree state for the height asked, and
    the range's chunks in order. *)
Record honest_range (range_start range_end : Z) (env : Z -> SubEnv TS) (seed_state : Res TS)
    (cis : list (ChunkIn TS DB)) : Prop := {
  hr_start : 0 <= range_start;
  hr_end : range_end < u64_max;
  hr_late : forall i h, answers tcs h ((env i).(se_late) h);
  hr_seed : answers tcs (range_start - 1) (Ok seed_state);
  hr_chunks : chunks_follow tcs range_start cis;
}.

Lemma range_ends config range_start range_end env seed_state opened now db p fuse fence cis :
  honest_range range_start range_end env seed_state cis ->
  let e := scan_chunks tcs config range_start range_end env seed_state opened now db p fuse fence cis in
  (exists to_, tiles range_start e.(end_calls) to_) /\
  match e.(end_result) with
  | Val _ => tiles range_start e.(end_calls) (range_start + Z.of_nat (length (blocks_of cis))) /\
             (config.(write_behind) = true -> match e.(end_store) with Inline _ => True | Behind _ l => idle l end)
  | Fail _ => True
  | Panic => config.(scan_batch_target_ms) <> None
  | NoFuel => False
  end.
Proof.
  intros [H1 H2 H3 H4 H5]. unfold scan_chunks. destruct (Z.eqb_spec range_start 0); [by split; [exists range_start|]|].
  destruct (range_end <? range_start); [by split; [exists range_start|]|].
  destruct (write_behind config).
  - destruct (facade_seed db range_start) as [f|]; [|by split; [exists range_start|]]. destruct opened as [[]|]; [|by split; [exists range_start|]].
    set (st := Behind f _). assert (store_ok st) as Hst by (split; [done|simpl; lia]).
    pose proof (inner_ends tcs config range_start range_end env _ H2 H3 st p fuse fence seed_state cis Hst ltac:(lia) eq_refl H4 H5)
      as [Ht He]. set (e := scan_chunks_inner _ _ _ _ _ _ _ _ _ _) in *.
    destruct (barrier_ends now e) as [-> Hb]; [destruct (end_result e); tauto|]. split; [done|].
    destruct (end_result (barrier now e)); try done.
    + destruct Hb as [Hr Hb]. rewrite Hr in He. tauto.
    + by rewrite Hb in He.
    + by rewrite Hb in He.
  - pose proof (inner_ends tcs config range_start range_end env _ H2 H3 (Inline db) p fuse fence seed_state cis I ltac:(lia) eq_refl H4 H5)
      as [Ht He]. split; [done|]. set (e := scan_chunks_inner _ _ _ _ _ _ _ _ _ _) in *.
    destruct (end_result e); try done. by destruct He.
Qed.

(** With sub-batching on, the controller after a call that took any time on a chunk of fewer
    than [MIN_BATCH] blocks panics: no such sub-batch completes. *)
Lemma small_sub_batch config range_end env local_mode ci start end_ sub rem s t :
  config.(scan_batch_target_ms) = Some t ->
  Z.of_nat (length ci.(ci_chunk).(ChunkQueue.blocks)) < MIN_BATCH ->
  (forall i, (env i).(se_elapsed) <> 0) ->
  forall n, (sub_batch tcs config range_end env local_mode ci start end_ sub rem s).2 <> Val n.
Proof.
  intros Ht Hlen He n. unfold sub_batch, bind, get, id.
  repeat (match goal with |- context [match ?x with (_, _) => _ end] => destruct x as [? [?|?| |]] end; try done).
  all: destruct (u32_try_from sub); try done.
  all: repeat (match goal with |- context [match ?x with (_, _) => _ end] =>
    lazymatch x with control _ _ _ _ _ => fail | _ => destruct x as [? [?|?| |]] end end; try done).
  all: unfold control; rewrite Ht; unfold next_batch_len; rewrite (proj2 (Z.eqb_neq _ _)) by apply He.
  all: cbv zeta; rewrite (proj2 (Z.ltb_lt _ _)) by lia; done.
Qed.

Lemma bind_val {A B'} (m : Scan.M (Fs := Fs) (Fo := Fo) (Fi := Fi) (DB := DB) (F := F) (P := P) (TS := TS) A)
    (k : A -> _) s (b : B') : (Scan.bind m k s).2 = Val b -> exists s' a, m s = (s', Val a) /\ (k a s').2 = Val b.
Proof. unfold bind. destruct (m s) as [s' [a|e| |]]; try done. eauto. Qed.

Lemma small_chunk config range_end env local_mode ci from s t u :
  config.(scan_batch_target_ms) = Some t -> (forall i, (env i).(se_elapsed) <> 0) ->
  Z.of_nat (length ci.(ci_chunk).(ChunkQueue.blocks)) < MIN_BATCH -> range_end < u64_max -> 0 <= from ->
  chunks_follow tcs from [ci] -> (scan_chunk tcs config range_end env local_mode ci s).2 <> Val u.
Proof.
  intros Ht He Hl Hend Hfrom Hc. unfold scan_chunk. destruct (chunk_heights tcs ci from Hc) as [-> ->].
  destruct Hc as (Hn & _). destruct (Z.ltb_spec range_end (from + Z.of_nat (length ci.(ci_chunk).(ChunkQueue.blocks)) - 1)); [done|].
  intros (s1 & [] & _ & H1)%bind_val. apply bind_val in H1 as (s2 & [] & _ & H1).
  apply bind_val in H1 as (s3 & [] & H1 & _). revert H1.
  rewrite u64_add_small by (unfold is_u64; lia). unfold sat_sub. rewrite Z.max_r by lia.
  destruct (Z.to_nat _) as [|fuel] eqn:Ef; [lia|]. cbn [sub_batches]. rewrite u64_add_small by (unfold is_u64; lia).
  unfold sat_sub at 1. rewrite (proj2 (Z.eqb_neq _ _)) by lia. intros H1.
  apply (f_equal snd) in H1. apply bind_val in H1 as (s4 & n & H2 & _).
  eapply (small_sub_batch config range_end env local_mode ci); [done..|]. by erewrite H2.
Qed.

Lemma small_chunks config range_end env local_mode t : config.(scan_batch_target_ms) = Some t ->
  (forall i, (env i).(se_elapsed) <> 0) -> range_end < u64_max ->
  forall cis from s u, 0 <= from -> chunks_follow tcs from cis ->
  Exists (fun ci => Z.of_nat (length ci.(ci_chunk).(ChunkQueue.blocks)) < MIN_BATCH) cis ->
  (scan_all tcs config range_end env local_mode cis s).2 <> Val u.
Proof.
  intros Ht He Hend. induction cis as [|ci cis IH]; intros from s u Hfrom Hc Hex; [by inversion Hex|].
  destruct Hc as (H1 & H2 & H3 & H4). cbn [scan_all]. intros (s1 & [] & E & Hv)%bind_val.
  apply Exists_cons in Hex as [Hl|Hex].
  - apply (small_chunk config range_end env local_mode ci from s t tt); [done..| |by rewrite E]. by split_and!.
  - revert Hv. apply (IH (from + Z.of_nat (length ci.(ci_chunk).(ChunkQueue.blocks)))); [lia|done|done].
Qed.
End Range.

(** ** Errors *)

(** The one error a scan never raises: the fetch's. *)
Definition not_collapse (e : SlipstreamError) : Prop := match e with WireCollapse _ _ => False | _ => True end.
Definition out_ok {A} (o : Out A) : Prop := match o with Fail e => not_collapse e | _ => True end.
Definition fetch_ok {TS} (fetched : Fetched TS) : Prop := forall e, fetched = Ok (Err e) -> not_collapse e.

Lemma reap_not_collapse {U S} (commit : U -> S -> Outcome S) fuel : forall bound l l' e,
  reap commit fuel bound l = Some (l', Err e) -> not_collapse e.
Proof.
  induction fuel as [|fuel IH]; intros bound l l' e; cbn [reap]; (destruct (_ <=? _); [done|]); [done|].
  assert (forall r e', (await_in_flight commit l) = (r, Err e') -> not_collapse e') as Ha.
  { intros r e'. unfold await_in_flight. destruct (in_flight l) as [t|]; [|done]. destruct (join commit t l) as [l1 r1].
    destruct r1; cbn; by intros [= _ <-]. }
  destruct (await_in_flight commit l) as [l1 [[]|e1]]; [|intros [= _ <-]; by eapply Ha].
  assert (forall r e', spawn_next l1 = (r, Err e') -> not_collapse e') as Hs.
  { intros r e'. unfold spawn_next. destruct (in_flight l1); [done|]. destruct (queue l1) as [|[]]; [done|].
    destruct (conn l1); [done|]. by intros [= _ <-]. }
  destruct (spawn_next l1) as [l2 [[]|e2]]; [apply IH|intros [= _ <-]; by eapply Hs].
Qed.

Lemma submit_not_collapse {U S} (commit : U -> S -> Outcome S) sp u l l' e :
  submit_job commit sp u l = Some (l', Err e) -> not_collapse e.
Proof.
  unfold submit_job, spawn_next. cbn. destruct (in_flight l) as [t|]; [apply reap_not_collapse|].
  destruct (queue l ++ [(sp, u)]) as [|[]]; [apply reap_not_collapse|].
  destruct (conn l); [apply reap_not_collapse|by intros [= _ <-]].
Qed.

Section Safe.
Context `{Trees Fs Fo Fi Ns No} `{EqDecision Fs} `{EqDecision Fo} `{EqDecision Fi}.
Abbreviation CS := (ChainState Fs Fo Fi).
Context {DB F P TS : Type} `{B : !ScanBackend CS DB F P} (tcs : TS -> result string CS).
Context (config : EngineConfig) (range_end : Z) (env : Z -> SubEnv TS) (local_mode : bool).
Hypothesis late_ok : forall i h, fetch_ok ((env i).(se_late) h).
Hypothesis graft_ok : forall (db : DB) db' e, finish_graft db = (db', Err e) -> not_collapse e.
Abbreviation L := (Loop (Fs := Fs) (Fo := Fo) (Fi := Fi) (DB := DB) (F := F) (P := P) (TS := TS)).

Definition safe {A} (m : L -> L * Out A) : Prop := forall s, out_ok (m s).2.

Lemma safe_bind {A B'} (m : Scan.M A) (k : A -> Scan.M B') : safe m -> (forall a, safe (k a)) -> safe (Scan.bind m k).
Proof. intros Hm Hk s. unfold bind. specialize (Hm s). destruct (m s) as [s' [a|e| |]]; try done. apply Hk. Qed.
Lemma safe_modify f : safe (Scan.modify f).
Proof. done. Qed.
Lemma safe_on_lane f l op : (forall l l' e, op l = Some (l', Err e) -> not_collapse e) -> safe (on_lane f l op).
Proof.
  intros Ho s. unfold on_lane. destruct (op _) as [[l' [[]|e]]|] eqn:E; cbn; try done. by eapply Ho.
Qed.
Lemma safe_prepare : safe (prepare_state tcs).
Proof. intros s. unfold prepare_state. repeat case_match; done. Qed.
Lemma safe_scan_call call refused : safe (scan_call config call refused).
Proof.
  intros s. unfold scan_call. destruct refused; [done|]. destruct (lp_store _) as [db|f l].
  - destruct (inline_scan _ _ db) as [db' [|[|[]|]]]; done.
  - destruct (facade_scan _ f) as [f' [|[|[]|]]]; done.
Qed.
Lemma safe_submit d : safe (Scan.submit d).
Proof.
  apply safe_bind; [done|]. intros [db|f l]; [done|]. destruct (facade_take f) as [f' [u|]]; [|done].
  apply safe_on_lane. intros l0 l' e. apply submit_not_collapse.
Qed.
Lemma absorb_not_collapse c start n : forall h (ts : LocalTreestate Fs Fo) e,
  absorb_heights c start h n ts = Err e -> not_collapse e.
Proof.
  induction n as [|n IH]; intros h ts e; [done|]. cbn [absorb_heights].
  destruct (_ !! _) as [b|]; [|by intros [= <-]]. destruct (_ || _); [by intros [= <-]|].
  destruct (absorb_block b ts) as [ts' [[]|]]; [apply IH|by intros [= <-]].
Qed.
Lemma safe_absorb c a b d : safe (absorb c a b d).
Proof.
  apply safe_bind; [done|]. intros [ts|]; [|done]. apply safe_bind; [|intros ts'; by case_match].
  intros s. unfold lift, out_of. destruct (absorb_heights _ _ _ _ _) as [|e] eqn:E; cbn; [done|].
  by apply absorb_not_collapse in E.
Qed.
Lemma safe_consume pf : (forall f, pf = Some f -> fetch_ok f) -> safe (consume local_mode pf).
Proof.
  intros Hf s. unfold consume. destruct pf as [fetched|]; [|done]. destruct local_mode; [by repeat case_match|].
  destruct fetched as [[ts|e]|e]; cbn; try done. by apply (Hf _ eq_refl).
Qed.
Lemma safe_audits force arrived : safe (drain_audits tcs force arrived).
Proof. intros s. unfold drain_audits. by destruct (settle_audits _ _ _ _) as [? []]. Qed.
Lemma safe_control c e n : safe (control config c e n).
Proof. intros s. unfold control. by repeat case_match. Qed.

Definition chunk_in_ok (ci : ChunkIn TS DB) : Prop := forall f, ci.(ci_boundary) = Some f -> fetch_ok f.

Lemma safe_sub_batch ci start end_ sub rem : chunk_in_ok ci ->
  safe (sub_batch tcs config range_end env local_mode ci start end_ sub rem).
Proof.
  intros Hci. unfold sub_batch. apply safe_bind; [done|]. intros s0. cbv zeta.
  apply safe_bind; [done|intros _]. apply safe_bind; [apply safe_prepare|intros cs].
  apply safe_bind; [done|intros _]. destruct (u32_try_from sub); [|done].
  apply safe_bind; [done|intros _]. apply safe_bind; [apply safe_scan_call|intros sum].
  apply safe_bind; [apply safe_submit|intros _]. apply safe_bind; [done|intros _].
  apply safe_bind; [apply safe_absorb|intros _].
  apply safe_bind; [apply safe_consume|intros _].
  { intros f. destruct (needs_server_boundary_state _ _ _ _); [|done]. intros [= <-].
    destruct (_ =? end_); [|apply late_ok]. destruct (ci_boundary ci) eqn:E; cbn; [by apply Hci|apply late_ok]. }
  apply safe_bind; [apply safe_audits|intros _]. by apply safe_bind; [apply safe_control|intros _].
Qed.

Lemma safe_sub_batches fuel ci start end_ : chunk_in_ok ci ->
  forall sub, safe (sub_batches tcs config range_end env local_mode fuel ci start end_ sub).
Proof.
  intros Hci. induction fuel as [|fuel IH]; intros sub; cbn [sub_batches]; (destruct (_ =? _); [done|]); [done|].
  apply safe_bind; [by apply safe_sub_batch|]. intros n. apply IH.
Qed.

Lemma safe_interleave ci : safe (interleave ci).
Proof.
  apply safe_bind; [done|intros _]. apply safe_bind; [done|]. intros [db|f l].
  - by destruct (ci_enhance ci db).
  - apply safe_bind; [apply safe_on_lane; intros l0 l' e; apply reap_not_collapse|intros _].
    apply safe_bind; [done|]. intros [db|f' l']; [done|]. destruct (ci_enhance ci _), (facade_reseed _ _) as [? [[]|]];
      by apply safe_bind.
Qed.

Lemma safe_scan_all cis : Forall chunk_in_ok cis -> safe (scan_all tcs config range_end env local_mode cis).
Proof.
  induction 1 as [|ci cis Hci _ IH]; cbn [scan_all]; [apply safe_audits|]. apply safe_bind; [|by intros _].
  unfold scan_chunk. destruct (ChunkQueue.start_height (ci_chunk ci)), (ChunkQueue.end_height (ci_chunk ci)); try done.
  destruct (_ <? _); [done|].
  apply safe_bind; [done|intros _]. apply safe_bind; [done|intros _].
  apply safe_bind; [by apply safe_sub_batches|intros _]. apply safe_bind; [done|intros _].
  apply safe_bind; [done|]. intros s. destruct (_ && _); [apply safe_interleave|done].
Qed.

Lemma barrier_safe now e : out_ok e.(end_result) -> out_ok (barrier (Fs := Fs) (Fo := Fo) (Fi := Fi) now e).(end_result).
Proof.
  intros He. unfold barrier. destruct (end_store e) as [db|f l]; [done|]. destruct (end_result e) eqn:Er; try by rewrite Er.
  - destruct (drain commit _) as [[l' [[]|pe]]|] eqn:Ed; cbn; try done; [|by eapply reap_not_collapse].
    destruct (finish_graft _) as [db [[]|ge]] eqn:Eg; cbn; [done|by eapply graft_ok].
  - destruct (drain commit _) as [[l' [[]|pe]]|] eqn:Ed; cbn; try done. by eapply reap_not_collapse.
Qed.

End Safe.

(** What a scan of a range may be given, and end with: its environment raises no wire collapse. *)
Section Contract.
Context `{Trees Fs Fo Fi Ns No} `{EqDecision Fs} `{EqDecision Fo} `{EqDecision Fi}.
Context {DB F P TS : Type} `{B : !ScanBackend (ChainState Fs Fo Fi) DB F P} (tcs : TS -> result string (ChainState Fs Fo Fi)).

(** [run_scan res]: some scan of a range ends with [res]. *)
Inductive run_scan : Res ScanStats -> Prop :=
| scan_ran config range_start range_end env seed_state opened now db p fuse fence cis e res :
    (forall i h, fetch_ok ((env i).(se_late) h)) -> (forall (db : DB) db' e, finish_graft db = (db', Err e) -> not_collapse e) ->
    fetch_ok (Ok seed_state) -> (forall e, opened = Err e -> not_collapse e) -> Forall chunk_in_ok cis ->
    e = scan_chunks tcs config range_start range_end env seed_state opened now db p fuse fence cis ->
    e.(end_result) = out_of res ->
    run_scan res.

Lemma run_scan_not_collapse res e : run_scan res -> res = Err e -> not_collapse e.
Proof.
  intros Hr ->. inversion Hr as [config range_start range_end env seed_state opened now db p fuse fence cis en r
    Hlate Hgraft Hseed Hop Hcis Hen Hres]. subst r. cbn in Hres.
  assert (out_ok en.(end_result)) as Hok; [|by rewrite Hres in Hok]. subst en. clear Hres Hr.
  assert (forall st, out_ok (scan_chunks_inner tcs config range_end env seed_state st p fuse fence cis).(end_result)) as Hin.
  { intros st. unfold scan_chunks_inner. destruct seed_state as [ts|e0]; [|by apply Hseed].
    pose proof (safe_scan_all tcs config range_end env (local_treestate_active config fuse) Hlate cis Hcis
      (loop_init st ts p fuse fence)) as Hs.
    destruct (scan_all _ _ _ _ _ _ _) as [s r]. by destruct r. }
  unfold scan_chunks. destruct (range_start =? 0); [done|]. destruct (range_end <? range_start); [done|].
  destruct (write_behind config); [|apply Hin]. destruct (facade_seed db range_start); [|done].
  destruct opened as [[]|e0]; [|by apply Hop]. by apply barrier_safe.
Qed.
End Contract.

(** ** Properties *)

(** C16: The scan asks the wallet library for exactly the range: however the server's fetches interleave,
    in server or local mode, inline or write-behind and at any batch length, the calls of a range
    cover consecutive heights in order from its start, each with the blocks of its heights and the
    tree state of the block just below; a scan that succeeds has covered every block it received,
    and with write-behind nothing is left unwritten. *)
Theorem scan_calls_tile_range `{Trees Fs Fo Fi Ns No} `{EqDecision Fs} `{EqDecision Fo} `{EqDecision Fi}
    {DB F P TS} `{!ScanBackend (ChainState Fs Fo Fi) DB F P} (tcs : TS -> result string (ChainState Fs Fo Fi))
    config range_start range_end env seed_state opened now db p fuse fence cis :
  honest_range tcs range_start range_end env seed_state cis ->
  let e := scan_chunks tcs config range_start range_end env seed_state opened now db p fuse fence cis in
  (exists to_, tiles range_start e.(end_calls) to_) /\
  (forall stats, e.(end_result) = Val stats ->
     tiles range_start e.(end_calls) (range_start + Z.of_nat (length (blocks_of cis))) /\
     (config.(write_behind) = true -> match e.(end_store) with Inline _ => True | Behind _ l => idle l end)).
Proof.
  intros Hh e. destruct (range_ends tcs config range_start range_end env seed_state opened now db p fuse fence cis Hh)
    as [Ht He]. split; [done|]. intros stats Hst. fold e in He. by rewrite Hst in He.
Qed.

(** C19: A scan of a range always comes back: its sub-batch loop, the lane's backpressure and the barrier
    end, for every batch length, depth and outcome of the commits, and it panics only if adaptive
    sub-batching is turned on. *)
Theorem scan_range_returns `{Trees Fs Fo Fi Ns No} `{EqDecision Fs} `{EqDecision Fo} `{EqDecision Fi}
    {DB F P TS} `{!ScanBackend (ChainState Fs Fo Fi) DB F P} (tcs : TS -> result string (ChainState Fs Fo Fi))
    config range_start range_end env seed_state opened now db p fuse fence cis :
  honest_range tcs range_start range_end env seed_state cis ->
  let e := scan_chunks tcs config range_start range_end env seed_state opened now db p fuse fence cis in
  e.(end_result) <> NoFuel /\ (e.(end_result) = Panic -> config.(scan_batch_target_ms) <> None).
Proof.
  intros Hh e. destruct (range_ends tcs config range_start range_end env seed_state opened now db p fuse fence cis Hh)
    as [Ht He]. fold e in He. destruct (end_result e); split; try done.
Qed.

(** Adaptive sub-batching breaks on small chunks: with a batch target set, a range in which any chunk has
    fewer than 1000 blocks can never be scanned once the scan calls take a measurable time, because the
    clamp of the next batch length then has its minimum above its maximum, which panics. *)
Theorem subbatching_small_chunk_never_scans `{Trees Fs Fo Fi Ns No} `{EqDecision Fs} `{EqDecision Fo} `{EqDecision Fi}
    {DB F P TS} `{!ScanBackend (ChainState Fs Fo Fi) DB F P} (tcs : TS -> result string (ChainState Fs Fo Fi))
    config range_start range_end env seed_state opened now db p fuse fence cis t :
  honest_range tcs range_start range_end env seed_state cis ->
  config.(scan_batch_target_ms) = Some t -> (forall i, (env i).(se_elapsed) <> 0) ->
  Exists (fun ci => Z.of_nat (length ci.(ci_chunk).(ChunkQueue.blocks)) < MIN_BATCH) cis ->
  forall stats,
    (scan_chunks tcs config range_start range_end env seed_state opened now db p fuse fence cis).(end_result) <> Val stats.
Proof.
  intros [H1 H2 H3 H4 H5] Ht He Hex stats.
  assert (forall st, (scan_chunks_inner tcs config range_end env seed_state st p fuse fence cis).(end_result) <> Val stats) as Hin.
  { intros st. unfold scan_chunks_inner. destruct seed_state as [ts|]; [|done].
    pose proof (small_chunks tcs config range_end env (local_treestate_active config fuse) t Ht He H2 cis range_start
      (loop_init st ts p fuse fence) tt H1 H5 Hex) as Hn.
    destruct (scan_all _ _ _ _ _ _ _) as [s r]. destruct r as [[]| | |]; simpl in *; done. }
  unfold scan_chunks. destruct (Z.eqb_spec range_start 0); [done|]. destruct (range_end <? range_start); [done|].
  destruct (write_behind config); [|apply Hin]. destruct (facade_seed db range_start) as [f|]; [|done].
  destruct opened as [[]|]; [|done]. set (st := Behind f _).
  pose proof (inner_ends tcs config range_start range_end env _ H2 H3 st p fuse fence seed_state cis
    ltac:(split; [done|simpl; lia]) ltac:(lia) eq_refl H4 H5) as [_ Hi].
  specialize (Hin st). set (e := scan_chunks_inner _ _ _ _ _ _ _ _ _ _) in *.
  destruct (barrier_ends now e) as [_ Hb]; [destruct (end_result e); tauto|].
  intros Hv. rewrite Hv in Hb. by destruct Hb.
Qed.

(** ** Concrete ranges *)

Import SampleScan.

Lemma quick_answers h e i : answers (fun ts : SampleScan.UnitCS => Ok ts) h ((SampleScan.quick e i).(se_late) h).
Proof. by intros ts cs [= <-] [= <-]. Qed.

Definition two_chunks : list (ChunkIn SampleScan.UnitCS (list Z)) := [SampleScan.chunk_in 100 4; SampleScan.chunk_in 104 3].

Lemma two_chunks_honest e : honest_range (fun ts : SampleScan.UnitCS => Ok ts) 100 106 (SampleScan.quick e)
  (Ok (SampleScan.state_at 99)) two_chunks.
Proof.
  split; [done|done|intros; apply quick_answers|by intros ts cs [= <-] [= <-]|].
  vm_compute. split_and!; try done; by intros.
Qed.

(** Write-behind with a deep lane: two calls, every height written, also what the
    interleaved enhancement would add left out. *)
Lemma scan_calls_tile_range_witness :
  let e := SampleScan.run_sample None true 4 9 two_chunks 106 in
  (forall stats, e.(end_result) = Val stats -> tiles 100 e.(end_calls) (100 + Z.of_nat (length (blocks_of two_chunks)))) /\
  is_Some (match e.(end_result) with Val s => Some s.(sc_blocks) | _ => None end) /\
  (match e.(end_store) with Behind _ l => l.(store) | Inline db => db end) = seqZ 100 7.
Proof.
  cbv zeta. split; [|split; [vm_compute; eexists; reflexivity|vm_compute; reflexivity]].
  unfold run_sample. intros stats Hv.
  refine (proj1 (proj2 (scan_calls_tile_range _ _ _ _ _ _ _ _ _ _ _ _ _ (two_chunks_honest 9)) stats Hv)).
Defined.

Lemma scan_range_returns_witness :
  (SampleScan.run_sample (Some 3000) false 1 0 two_chunks 106).(end_result) <> NoFuel.
Proof.
  exact (proj1 (scan_range_returns (fun ts : SampleScan.UnitCS => Ok ts) (SampleScan.sample_config (Some 3000) false 1) 100 106
    (SampleScan.quick 0) (Ok (SampleScan.state_at 99)) (Ok tt) 7 [] (Some progress_default) false fence_new two_chunks
    (two_chunks_honest 0))).
Defined.

(** The clamp's panic. *)
Example subbatching_small_chunk_never_scans_instance :
  let e := SampleScan.run_sample (Some 3000) false 1 9 two_chunks 106 in
  e.(end_result) = Panic /\ forall stats, e.(end_result) <> Val stats.
Proof.
  cbv zeta. split; [vm_compute; reflexivity|].
  exact (subbatching_small_chunk_never_scans (fun ts : SampleScan.UnitCS => Ok ts) (SampleScan.sample_config (Some 3000) false 1)
    100 106 (SampleScan.quick 9) (Ok (SampleScan.state_at 99)) (Ok tt) 7 [] (Some progress_default) false fence_new two_chunks
    3000 (two_chunks_honest 9) eq_refl ltac:(intros i; discriminate) ltac:(constructor; reflexivity)).
Qed.

End ScanCalls.
