(* ===== verification/ScanEquiv.v ===== *)
(** * Write-behind scanning is inline scanning

    A scan that defers its commits to the lane and reads through the facade leaves the same
    wallet as one that commits every call at once.  Proved against an interface: what the
    facade shows stands for a database ([BackendLaws]).  The write-behind facade of
    WriteBehind.v, with any scan kernel that does not depend on the order of the nullifier
    lists, keeps it where no note is received after its spend is on record ([in_order]). *)

From S2P Require Export ScanCalls.
Import PersistLane Progress Config Treestate Fence Scan.

Module ScanEquiv.

(** What the lane's own writes to the progress leave out of a comparison: the stall clock
    and the writer count. *)
Definition erase (p : Progress) : Progress := p <| last_progress_unix := 0 |> <| wallet_writers := 0 |>.
Definition same_progress (p q : option Progress) : Prop := erase <$> p = erase <$> q.

#[export] Instance same_progress_equiv : Equivalence same_progress.
Proof. unfold same_progress. split; [by intros p|by intros p q|intros p q r; congruence]. Qed.

Lemma same_touch now p : same_progress (touch now <$> p) p.
Proof. by destruct p. Qed.
Lemma same_drop p : same_progress (gate_drop <$> p) p.
Proof. by destruct p. Qed.
Lemma same_hold p : same_progress (gate_hold <$> p) p.
Proof. by destruct p. Qed.
Lemma same_scanned n now p q : same_progress p q -> same_progress (add_scanned n now <$> p) (add_scanned n now <$> q).
Proof.
  assert (forall p, erase (add_scanned n now p) =
    (erase p) <| scanned_blocks := u64_add (erase p).(scanned_blocks) n |>) as E by done.
  unfold same_progress. destruct p as [p|], q as [q|]; simpl; try done.
  rewrite !E. intros Hpq%(inj Some). by rewrite Hpq.
Qed.

(** The promise of the facade: [shows n f db]: a scan call from height [n] reads from [f] what
    it would read from [db]. *)
Class BackendLaws {CS DB F P} `{!ScanBackend CS DB F P} (shows : Z -> F -> DB -> Prop) : Prop := {
  law_seed db from f : facade_seed db from = Ok f -> shows from f db;
  law_scan call f db db' sum : 1 <= call.(c_limit) ->
    height <$> call.(c_blocks) = seqZ call.(c_from) call.(c_limit) ->
    shows call.(c_from) f db -> inline_scan true call db = (db', Ok sum) ->
    exists f', facade_scan call f = (f', Ok sum) /\
    match facade_take f' with
    | (f2, Some u) => shows (call.(c_from) + call.(c_limit)) f2 db' /\
                      oc_result (commit u db) = CommitOk /\ oc_state (commit u db) = db'
    | (f2, None) => shows (call.(c_from) + call.(c_limit)) f2 db' /\ db' = db
    end;
}.

(** ** The lane's progress *)

Section Lane.
Context {U S : Type} (commit : U -> S -> Outcome S).

Lemma same_await (l : Lane U S) : same_progress (await_in_flight commit l).1.(lane_progress) l.(lane_progress).
Proof.
  unfold await_in_flight. destruct (in_flight l) as [[u|r]|]; simpl; [|by destruct r|done].
  destruct (oc_result _); simpl; rewrite same_drop, ?same_touch; done.
Qed.

Lemma same_spawn (l : Lane U S) : same_progress (spawn_next l).1.(lane_progress) l.(lane_progress).
Proof.
  unfold spawn_next. destruct (in_flight l); [done|]. destruct (queue l) as [|[]]; [done|].
  destruct (conn l); [apply same_hold|done].
Qed.

Lemma same_reap fuel : forall bound (l l' : Lane U S) r, reap commit fuel bound l = Some (l', r) ->
  same_progress l'.(lane_progress) l.(lane_progress).
Proof.
  induction fuel as [|fuel IH]; intros bound l l' r; cbn [reap].
  { destruct (_ <=? _); [by intros [= <- <-]|done]. }
  destruct (_ <=? _); [by intros [= <- <-]|].
  pose proof (same_await l) as Ha. destruct (await_in_flight commit l) as [l1 [[]|e]]; simpl in Ha.
  - pose proof (same_spawn l1) as Hs. destruct (spawn_next l1) as [l2 [[]|e]]; simpl in Hs.
    + intros ->%IH. by rewrite Hs.
    + intros [= <- <-]. by rewrite Hs.
  - by intros [= <- <-].
Qed.

Lemma same_submit sp u (l l' : Lane U S) r : submit_job commit sp u l = Some (l', r) ->
  same_progress l'.(lane_progress) l.(lane_progress).
Proof.
  unfold submit_job. set (l0 := l <| queue := _ |>). pose proof (same_spawn l0) as Hs.
  destruct (spawn_next l0) as [l2 [[]|e]]; simpl in Hs; [|by intros [= <- <-]].
  intros ->%same_reap. done.
Qed.

Lemma same_run_task (l : Lane U S) : same_progress (run_task commit l).(lane_progress) l.(lane_progress).
Proof.
  unfold run_task. destruct (in_flight l) as [[u|r]|]; simpl; try done.
  destruct (oc_result _); simpl; rewrite same_drop, ?same_touch; done.
Qed.
End Lane.

Section Sim.
Context `{Trees Fs Fo Fi Ns No} `{EqDecision Fs} `{EqDecision Fo} `{EqDecision Fi}.
Abbreviation CS := (ChainState Fs Fo Fi).
Context {DB F P TS : Type} `{B : !ScanBackend CS DB F P} (shows : Z -> F -> DB -> Prop) `{!BackendLaws shows}.
Context (tcs : TS -> result string CS).
Context (config : EngineConfig) (range_end : Z) (env : Z -> SubEnv TS) (local_mode : bool).
Hypothesis sparse : config.(sparse_persistence) = true.
Abbreviation L := (Loop (Fs := Fs) (Fo := Fo) (Fi := Fi) (DB := DB) (F := F) (P := P) (TS := TS)).

(** Another store and progress in the same loop state. *)
Definition put (s : L) (st : Store DB F P) (p : option Progress) : L := s <| lp_store := st |> <| lp_progress := p |>.

(** A lane whose pending units end in [db]. *)
Definition lane_at (l : Lane P DB) (db : DB) : Prop :=
  outcome commit l = (db, Ok tt) /\ lane_wf l /\ 1 <= l.(depth).

(** The inline state and the write-behind one before height [n]: equal but for the store, where
    the facade shows the inline database and the lane is on its way to it. *)
Definition sim (n : Z) (s1 s2 : L) : Prop := exists f l db,
  s1.(lp_store) = Inline db /\ s2 = put s1 (Behind f l) s2.(lp_progress) /\
  same_progress s2.(lp_progress) s1.(lp_progress) /\ shows n f db /\ lane_at l db.

(** Between a scan call that ends below [n] and the hand-over of its unit. *)
Definition sim_stash (n : Z) (s1 s2 : L) : Prop := exists f l db db',
  s1.(lp_store) = Inline db' /\ s2 = put s1 (Behind f l) s2.(lp_progress) /\
  same_progress s2.(lp_progress) s1.(lp_progress) /\ lane_at l db /\
  match facade_take f with
  | (f2, Some u) => shows n f2 db' /\ oc_result (commit u db) = CommitOk /\ oc_state (commit u db) = db'
  | (f2, None) => shows n f2 db' /\ db' = db
  end.

(** When the inline run of [m] gives a value, so does the write-behind run, and [R2] holds. *)
Definition follows {A} (R1 : L -> L -> Prop) (R2 : A -> L -> L -> Prop) (m : L -> L * Out A) : Prop :=
  forall s1 s2 s1' a, R1 s1 s2 -> m s1 = (s1', Val a) -> exists s2', m s2 = (s2', Val a) /\ R2 a s1' s2'.

Lemma follows_bind {A B'} R1 R2 R3 (m : Scan.M A) (k : A -> Scan.M B') :
  follows R1 R2 m -> (forall a, follows (R2 a) R3 (k a)) -> follows R1 R3 (Scan.bind m k).
Proof.
  intros Hm Hk s1 s2 s1' b HR. unfold bind. destruct (m s1) as [t1 [a|e| |]] eqn:E1; try done.
  destruct (Hm _ _ _ _ HR E1) as (t2 & -> & HR2). by apply Hk.
Qed.

(** Computations that neither read nor write the store and the progress. *)
Definition indep {A} (m : L -> L * Out A) : Prop :=
  forall s st p, m (put s st p) = let '(s', o) := m s in (put s' st p, o).

Lemma put_put s st p st' p' : put (put s st p) st' p' = put s st' p'.
Proof. done. Qed.

Lemma indep_keeps {A} (m : L -> L * Out A) s s' o : indep m -> m s = (s', o) ->
  s'.(lp_store) = s.(lp_store) /\ s'.(lp_progress) = s.(lp_progress).
Proof.
  intros Hi E. pose proof (Hi s s.(lp_store) s.(lp_progress)) as H1.
  assert (put s s.(lp_store) s.(lp_progress) = s) as Hs by (by destruct s). rewrite Hs, E in H1.
  injection H1 as ->. done.
Qed.

Lemma sim_frame n s1 s2 t1 : sim n s1 s2 -> t1.(lp_store) = s1.(lp_store) ->
  t1.(lp_progress) = s1.(lp_progress) -> sim n t1 (put t1 s2.(lp_store) s2.(lp_progress)).
Proof.
  intros (f & l & db & H1 & H2 & H3 & H4 & H5) E1 E2. exists f, l, db. rewrite E1, E2, H2. by split_and!.
Qed.

Lemma sim_put n s1 s2 : sim n s1 s2 -> s2 = put s1 s2.(lp_store) s2.(lp_progress).
Proof. by intros (f & l & db & _ & -> & _). Qed.

Lemma follows_indep {A} n (m : L -> L * Out A) : indep m -> follows (sim n) (fun _ => sim n) m.
Proof.
  intros Hi s1 s2 s1' a Hs E. rewrite (sim_put n s1 s2 Hs). rewrite Hi, E. eexists. split; [done|].
  destruct (indep_keeps _ _ _ _ Hi E). by eapply sim_frame.
Qed.

Lemma indep_bind {A B'} (m : Scan.M A) (k : A -> Scan.M B') : indep m -> (forall a, indep (k a)) -> indep (Scan.bind m k).
Proof.
  intros Hm Hk s st p. unfold bind. rewrite Hm. destruct (m s) as [s' [a|e| |]]; try done. apply Hk.
Qed.

Create HintDb indep discriminated.
Lemma indep_ret {A} (a : A) : indep (Scan.ret a).
Proof. done. Qed.
Lemma indep_raise {A} e : indep (Scan.raise (A := A) e).
Proof. done. Qed.
Lemma indep_lift {A} (r : Res A) : indep (Scan.lift r).
Proof. done. Qed.
Lemma indep_modify f : (forall s st p, f (put s st p) = put (f s) st p) -> indep (Scan.modify f).
Proof. intros Hf s st p. unfold modify. by rewrite Hf. Qed.
#[local] Hint Resolve indep_ret indep_raise indep_lift : indep.

Lemma indep_prepare : indep (prepare_state tcs).
Proof.
  intros s st p. unfold prepare_state. cbn. destruct (local_ts s), (local_boundary s) as [[]|]; cbn;
    repeat case_match; done.
Qed.
Lemma indep_seed cs : indep (seed_local local_mode cs).
Proof. apply indep_modify. intros s st p. cbn. by destruct (_ && _). Qed.
Lemma indep_fence : indep fence_once.
Proof. apply indep_modify. intros s st p. cbn. by destruct (first_scan_call s). Qed.
Lemma indep_count sum : indep (count_summary sum).
Proof. by apply indep_modify. Qed.
Lemma indep_absorb c a b d : indep (absorb c a b d).
Proof.
  intros s st p. unfold absorb, bind, get, lift, modify, ret. cbn. destruct (local_ts s); [|done].
  destruct (absorb_heights _ _ _ _ _); [|done]. cbn. by destruct (_ !! _).
Qed.
Lemma indep_consume pf : indep (consume local_mode pf).
Proof.
  intros s st p. unfold consume, modify, ret, raise. destruct pf as [fetched|]; [|done].
  destruct local_mode; [|by destruct fetched as [[]|]]. cbn.
  destruct (local_ts s), (local_boundary s) as [[]|]; cbn; try done. by destruct (u32_try_from _).
Qed.
Lemma indep_audits force arrived : indep (drain_audits tcs force arrived).
Proof. intros s st p. unfold drain_audits. cbn. by destruct (settle_audits _ _ _ _) as [? []]. Qed.
Lemma indep_control c e n : indep (control config c e n).
Proof.
  unfold control. destruct (scan_batch_target_ms config); [|auto with indep].
  destruct (next_batch_len _ _ _ _ _); [by apply indep_modify|done].
Qed.

(** ** The calls that differ *)

Lemma scan_call_follows call refused : 1 <= call.(c_limit) ->
  height <$> call.(c_blocks) = seqZ call.(c_from) call.(c_limit) ->
  follows (sim call.(c_from)) (fun _ => sim_stash (call.(c_from) + call.(c_limit))) (scan_call config call refused).
Proof.
  intros Hl Hb s1 s2 s1' sum (f & l & db & H1 & H2 & H3 & H4 & H5). unfold scan_call. rewrite sparse.
  destruct refused; [done|]. cbn. rewrite H1. destruct (inline_scan true call db) as [db' r] eqn:Ei.
  destruct r as [sum'|e]; [|done]. cbn. intros [= <- <-].
  destruct (law_scan call f db db' sum' Hl Hb H4 Ei) as (f' & Ef & Ht).
  rewrite H2. cbn. rewrite Ef. eexists. split; [done|]. by exists f', l, db, db'.
Qed.

Lemma on_lane_val f l op (s : L) l' : op (lane_in s.(lp_progress) l) = Some (l', Ok tt) ->
  on_lane f l op s = (put s (Behind f l') l'.(lane_progress), Val tt).
Proof. intros E. unfold on_lane. by rewrite E. Qed.

Lemma submit_follows d n : follows (sim_stash n) (fun _ => sim n) (Scan.submit d).
Proof.
  intros s1 s2 s1' [] (f & l & db & db' & H1 & H2 & H3 & (Ho & Hw & Hd) & Ht). unfold Scan.submit, bind, get.
  rewrite H1. intros [= <-]. rewrite H2. cbn. destruct (facade_take f) as [f2 [u|]].
  2: { destruct Ht as [Hs ->]. eexists. split; [done|]. exists f2, l, db. split_and!; try done. }
  destruct Ht as (Hs & Hc1 & Hc2). set (p := lp_progress s2) in *.
  set (l1 := if d then run_task commit (lane_in p l) else lane_in p l).
  assert (outcome commit l1 = (db, Ok tt) /\ lane_wf l1 /\ l1.(depth) = l.(depth) /\
          same_progress l1.(lane_progress) p) as (Ho1 & Hw1 & Hd1 & Hp1).
  { unfold l1. destruct d; [|done]. rewrite outcome_run_task. split; [done|]. split; [by apply wf_run_task|].
    split; [|apply same_run_task]. unfold run_task. cbn. by destruct (in_flight l) as [[]|]. }
  destruct (submit_spec commit (unit_span u) u l1 Hw1) as (l' & r & E & Hd' & Hr); [lia|].
  pose proof (same_submit _ _ _ _ _ _ E) as Hp'.
  assert (extend commit (db, Ok tt) (unit_span u) u = (db', Ok tt)) as Hext.
  { cbn. rewrite Hc1. cbn. by rewrite Hc2. }
  rewrite Ho1, Hext in Hr. destruct r as [[]|e]; [|by destruct Hr].
  erewrite on_lane_val; [|exact E]. eexists. split; [done|].
  destruct Hr as (Hr1 & Hr2 & _). exists f2, l', db'. split_and!; try done.
  - cbn. rewrite Hp', Hp1. exact H3.
  - split_and!; [done|done|lia].
Qed.

(** What the enhancement after a chunk leaves shown, once the facade is re-seeded. *)
Definition reseeds (ci : ChunkIn TS DB) : Prop := forall n f db, shows n f db ->
  exists f', facade_reseed (ci.(ci_enhance) db).1 f = (f', Ok tt) /\ shows n f' (ci.(ci_enhance) db).1.

Lemma interleave_follows ci n : reseeds ci -> follows (sim n) (fun _ => sim n) (interleave ci).
Proof.
  intros Hre s1 s2 s1' [] (f & l & db & H1 & H2 & H3 & H4 & (Ho & Hw & Hd)).
  unfold interleave, bind, modify, get, ret, raise. cbn. rewrite H1. destruct (Hre n f db H4) as (f' & Hf' & Hs').
  destruct (ci_enhance ci db) as [db' r] eqn:Ee. cbn in Hf', Hs'. cbn. intros [= <-]. rewrite H2. cbn -[drain lane_in].
  set (p := lp_progress s2) in *.
  destruct (drain_spec commit (lane_in p l) Hw) as (l' & r' & E & Hd' & Ho' & Hid & Hw').
  change (outcome commit (lane_in p l)) with (outcome commit l) in Ho'. rewrite Ho in Ho'. injection Ho' as Hst <-.
  unfold on_lane. cbn -[drain lane_in]. fold p. rewrite E. cbn -[drain lane_in]. rewrite <-Hst, Ee, Hf'. eexists. split; [done|].
  exists f', (l' <| store := db' |>), db'. split_and!; try done.
  - cbn. rewrite (same_reap _ _ _ _ _ _ E). exact H3.
  - destruct Hid as [Hi1 Hi2]. split; [|split; [exact (Hw' eq_refl)|cbn in *; lia]].
    unfold outcome. cbn. by rewrite Hi1, Hi2.
Qed.

(** ** The loops *)

Lemma follows_get {A} n R (k : L -> Scan.M A) : (forall s st p, k (put s st p) = k s) -> (forall s, follows (sim n) R (k s)) ->
  follows (sim n) R (Scan.bind (get id) k).
Proof.
  intros Hk Hf s1 s2 s1' a Hs. unfold bind, get, id.
  assert (k s2 = k s1) as ->; [|by apply Hf].
  pose proof (sim_put n s1 s2 Hs) as Ep. rewrite Ep. apply Hk.
Qed.

Lemma sub_batch_follows ci start end_ sub : start <= sub <= end_ ->
  let bs := ci.(ci_chunk).(ChunkQueue.blocks) in
  end_ = start + Z.of_nat (length bs) - 1 -> height <$> bs = seqZ start (Z.of_nat (length bs)) ->
  forall s0, 1 <= s0.(batch_len) ->
  follows (fun s1 s2 => sim sub s1 s2 /\ s1 = s0) (fun n s1 s2 => sim n s1 s2 /\ sub < n <= end_ + 1)
    (sub_batch tcs config range_end env local_mode ci start end_ sub (end_ + 1 - sub)).
Proof.
  intros Hsub bs Hlen Hhs s0 Hb s1 s2 s1' n [Hs ->]. unfold sub_batch.
  assert (forall (k : L -> Scan.M Z), (forall s st p, k (put s st p) = k s) ->
    follows (sim sub) (fun n s1 s2 => sim n s1 s2 /\ sub < n <= end_ + 1) (k s0) ->
    Scan.bind (get id) k s0 = (s1', Val n) ->
    exists s2', Scan.bind (get id) k s2 = (s2', Val n) /\ sim n s1' s2' /\ sub < n <= end_ + 1) as Hget.
  { intros k Hk Hf E. unfold bind, get, id in *.
    assert (k s2 = k s0) as ->; [|by apply (Hf _ _ _ _ Hs E)]. pose proof (sim_put sub s0 s2 Hs) as Ep. rewrite Ep. apply Hk. }
  apply Hget; [done|]. cbv zeta. clear Hget. set (cur := Z.min _ _).
  assert (1 <= cur /\ sub + cur <= end_ + 1) as [Hc1 Hc2] by (unfold cur; lia).
  apply (follows_bind _ (fun _ => sim sub)); [apply follows_indep; by apply indep_modify|intros _].
  apply (follows_bind _ (fun _ => sim sub)); [apply follows_indep, indep_prepare|intros cs].
  apply (follows_bind _ (fun _ => sim sub)); [apply follows_indep, indep_seed|intros _].
  unfold u32_try_from at 1. destruct (sub <=? u32_max); [|by intros ? ? ? ? _ [=]].
  apply (follows_bind _ (fun _ => sim sub)); [apply follows_indep, indep_fence|intros _].
  apply (follows_bind _ (fun _ => sim_stash (sub + cur))).
  { apply (scan_call_follows (mkCall sub cs cur _)); [done|]. cbn.
    eapply ScanCalls.eligible_heights; [lia|exact Hhs|lia|unfold bs in *; lia]. }
  intros sum. apply (follows_bind _ (fun _ => sim (sub + cur))); [apply submit_follows|intros _].
  apply (follows_bind _ (fun _ => sim (sub + cur))); [apply follows_indep, indep_count|intros _].
  apply (follows_bind _ (fun _ => sim (sub + cur))); [apply follows_indep, indep_absorb|intros _].
  apply (follows_bind _ (fun _ => sim (sub + cur))); [apply follows_indep, indep_consume|intros _].
  apply (follows_bind _ (fun _ => sim (sub + cur))); [apply follows_indep, indep_audits|intros _].
  apply (follows_bind _ (fun _ => sim (sub + cur))); [apply follows_indep, indep_control|intros _].
  intros t1 t2 t1' m Ht [= <- <-]. eexists. split; [done|].
  replace (sub + cur - 1 + 1) with (sub + cur) by lia. split; [done|lia].
Qed.

(** ** The range *)

Section Range.
Context (range_start : Z).
Hypothesis range_end_u64 : range_end < u64_max.
Hypothesis late_honest : forall i h, ScanCalls.answers tcs h ((env i).(se_late) h).

(** Both runs before height [n], the inline one with its calls in order. *)
Definition both (n : Z) (s1 s2 : L) : Prop :=
  sim n s1 s2 /\ ScanCalls.inv tcs range_start range_end local_mode n s1 /\ (1 <= s1.(batch_len) \/ s1.(batch_len) = 0).

Lemma sub_batches_follow ci start end_ fuel :
  let bs := ci.(ci_chunk).(ChunkQueue.blocks) in
  1 <= start -> end_ <= range_end ->
  end_ = start + Z.of_nat (length bs) - 1 -> height <$> bs = seqZ start (Z.of_nat (length bs)) ->
  (forall fetched, ci.(ci_boundary) = Some fetched -> ScanCalls.answers tcs end_ fetched) ->
  forall sub, start <= sub <= end_ + 1 -> forall s1 s2 s1' u, both sub s1 s2 -> 1 <= s1.(batch_len) ->
  sub_batches tcs config range_end env local_mode fuel ci start end_ sub s1 = (s1', Val u) ->
  exists s2', sub_batches tcs config range_end env local_mode fuel ci start end_ sub s2 = (s2', Val u) /\
    both (end_ + 1) s1' s2'.
Proof.
  intros bs H1 Hce Hlen Hhs Hcar. induction fuel as [|fuel IH]; intros sub Hsub s1 s2 s1' u Hs Hb; cbn [sub_batches];
    rewrite u64_add_small by (unfold is_u64; lia); unfold sat_sub; rewrite Z.max_r by lia;
    destruct (Z.eqb_spec (end_ + 1 - sub) 0); try done.
  1,2: intros [= <- <-]; assert (end_ + 1 = sub) as -> by lia; eauto.
  intros E. apply (f_equal id) in E. unfold id, bind in E |- *.
  destruct Hs as (Hs & Hi & _).
  pose proof (ScanCalls.sub_batch_ends tcs config range_start range_end env local_mode late_honest ci start end_ sub s1
    Hi Hb ltac:(lia) Hce Hlen Hhs Hcar) as He.
  destruct (sub_batch _ _ _ _ _ ci start end_ sub _ s1) as [t1 [m|e| |]] eqn:E1; try done.
  destruct (sub_batch_follows ci start end_ sub ltac:(lia) Hlen Hhs s1 Hb s1 s2 t1 m (conj Hs eq_refl) E1) as (t2 & -> & Ht & Hn).
  destruct He as (Hi' & Hb' & _). apply (IH m ltac:(lia) t1 t2 s1' u); [|done|done]. split; [done|]. by split; [|left].
Qed.

Lemma chunk_follows ci from : reseeds ci -> 1 <= from -> ScanCalls.chunks_follow tcs from [ci] ->
  let n := Z.of_nat (length ci.(ci_chunk).(ChunkQueue.blocks)) in
  follows (both from) (fun _ => both (from + n)) (scan_chunk tcs config range_end env local_mode ci).
Proof.
  intros Hre Hfrom Hc n. assert (follows (both from) (fun _ => sim (from + n)) (scan_chunk tcs config range_end env local_mode ci)) as Hf.
  2: { intros s1 s2 s1' u Hs E. destruct (Hf s1 s2 s1' u Hs E) as (s2' & E2 & Hs'). exists s2'. split; [done|].
    destruct Hs as (_ & Hi & Hb).
    pose proof (ScanCalls.chunk_ends tcs config range_start range_end env local_mode range_end_u64 late_honest ci from s1 Hi Hb Hfrom Hc) as He.
    rewrite E in He. destruct He as (Hi' & Hb' & _). split; [done|]. split; [done|by left]. }
  unfold scan_chunk. destruct (ScanCalls.chunk_heights tcs ci from Hc) as [-> ->]. destruct Hc as (Hn & Hhs & Hcar & _). fold n in Hn, Hhs, Hcar |- *.
  destruct (Z.ltb_spec range_end (from + n - 1)) as [|Hle]; [by intros ? ? ? ? _ [=]|].
  apply (follows_bind _ (fun _ s1 s2 => both from s1 s2 /\ 1 <= s1.(batch_len))).
  { intros s1 s2 s1' [] (Hs & Hi & Hb) E.
    destruct (follows_indep from (init_batch config (ci_chunk ci))) with s1 s2 s1' tt as (s2' & E2 & Hs'); [|done|done|].
    { apply indep_modify. intros s st p. cbn. by destruct (_ || _). }
    exists s2'. split; [done|]. unfold init_batch, modify in E. injection E as <-.
    assert (1 <= (if bool_decide (scan_batch_target_ms config = None) || (batch_len s1 =? 0)
      then s1 <| batch_len := Z.min (Z.of_nat (length (ChunkQueue.blocks (ci_chunk ci)))) u32_max |> else s1).(batch_len)) as Hb1.
    { destruct (_ || _) eqn:Eb; simpl; [unfold u32_max; lia|]. breflect. destruct Hb; [done|lia]. }
    split; [|done]. split; [done|]. split; [|by left]. by destruct (_ || _). }
  intros _. apply (follows_bind _ (fun _ s1 s2 => both from s1 s2 /\ 1 <= s1.(batch_len))).
  { intros s1 s2 s1' [] [(Hs & Hi & Hb) Hb1] E.
    destruct (follows_indep from reset_totals ltac:(by apply indep_modify) s1 s2 s1' tt Hs E) as (s2' & E2 & Hs').
    exists s2'. split; [done|]. injection E as <-. split; [|done]. split; [done|]. by split; [|left]. }
  intros _. apply (follows_bind _ (fun _ => sim (from + n))).
  { intros s1 s2 s1' u [Hs Hb] E. rewrite u64_add_small in E |- * by (unfold is_u64; lia).
    destruct (sub_batches_follow ci from (from + n - 1) _ ltac:(lia) Hle eq_refl Hhs Hcar from ltac:(lia) s1 s2 s1' u Hs Hb E)
      as (s2' & -> & (Hs' & _)). exists s2'. split; [done|]. by replace (from + n) with (from + n - 1 + 1) by lia. }
  intros _. apply (follows_bind _ (fun _ => sim (from + n))).
  { intros s1 s2 s1' [] (f & l & db & H1 & H2 & H3 & H4). unfold modify. intros [= <-].
    eexists. split; [done|]. exists f, l, db. rewrite H2. split; [done|]. split; [done|].
    split; [by apply same_scanned|done]. }
  intros _. apply follows_get; [done|intros s0].
  destruct (_ && _); [by apply interleave_follows|]. apply follows_indep, indep_ret.
Qed.

Lemma scan_all_follows cis : forall from, Forall reseeds cis -> 1 <= from -> ScanCalls.chunks_follow tcs from cis ->
  follows (both from) (fun _ s1 s2 => exists n, sim n s1 s2) (scan_all tcs config range_end env local_mode cis).
Proof.
  induction cis as [|ci cis IH]; intros from Hre Hfrom Hc; cbn [scan_all].
  - intros s1 s2 s1' u (Hs & _) E. destruct (follows_indep from _ (indep_audits _ _) s1 s2 s1' u Hs E) as (s2' & -> & Hs'). eauto.
  - apply Forall_cons in Hre as [Hre1 Hre2]. destruct Hc as (H1 & H2 & H3 & H4).
    eapply follows_bind; [apply (chunk_follows ci from); [done|done|by split_and!]|]. intros a. apply IH; [done|lia|done].
Qed.
End Range.
End Sim.

(** ** Properties *)

(** C10: Write-behind changes nothing but the timing, up to the end of the range.  Take a valid
    configuration with write-behind, and a backend that keeps the facade's promise: the facade reads
    what the database would answer, and the deferred commit of a call's unit writes what the inline
    call writes (so without subtree grafting, which only the lane does).  Where the first reads
    of the range succeed, and the wallet can be read again after each interleaved enhancement,
    a range that the inline driver scans successfully is scanned at any depth and however the
    deferred commits finish with the same calls, the same counters and the same progress of the
    host, every unit written; and the wallet it leaves is the range-end finish of the
    one the inline driver leaves, with the inline counters as its result if that finish succeeds
    and the finish's error if not. *)
Theorem write_behind_equals_inline `{Trees Fs Fo Fi Ns No} `{EqDecision Fs} `{EqDecision Fo} `{EqDecision Fi}
    {DB F P TS} `{!ScanBackend (ChainState Fs Fo Fi) DB F P} (shows : Z -> F -> DB -> Prop) `{!BackendLaws shows}
    (tcs : TS -> result string (ChainState Fs Fo Fi)) config range_start range_end env seed_state now db p fuse fence cis :
  validate config = Ok tt -> config.(write_behind) = true ->
  ScanCalls.honest_range tcs range_start range_end env seed_state cis -> Forall (reseeds shows) cis ->
  is_ok (facade_seed db range_start) = true ->
  forall inline behind,
  inline = scan_chunks tcs (config <| write_behind := false |>) range_start range_end env
             seed_state (Ok tt) now db p fuse fence cis ->
  behind = scan_chunks tcs config range_start range_end env
             seed_state (Ok tt) now db p fuse fence cis ->
  forall stats db', inline.(end_result) = Val stats -> inline.(end_store) = Inline db' ->
  behind.(end_calls) = inline.(end_calls) /\
  same_progress behind.(end_progress) inline.(end_progress) /\
  exists f l, behind.(end_store) = Behind f l /\ idle l /\ l.(store) = (finish_graft db').1 /\
  behind.(end_result) = match (finish_graft db').2 with Ok _ => Val stats | Err e => Fail e end.
Proof.
  intros Hv%validate_valid E1 [H1 H2 H3 H4 H5] Hre Hseed inline behind -> -> stats db'.
  pose proof (v_write_behind _ Hv E1) as Hsp. set (d := config.(persist_depth)).
  set (c0 := config <| write_behind := false |>).
  assert (forall st, scan_chunks_inner tcs config range_end env seed_state st p fuse fence cis =
                     scan_chunks_inner tcs c0 range_end env seed_state st p fuse fence cis) as Hc by reflexivity.
  assert (c0.(write_behind) = false /\ c0.(sparse_persistence) = true) as (E3 & E4) by done. clearbody c0.
  unfold scan_chunks. rewrite E1, E3. fold d.
  destruct (Z.eqb_spec range_start 0); [done|]. destruct (range_end <? range_start); [done|].
  destruct (facade_seed db range_start) as [f0|] eqn:Es; [|done]. rewrite !Hc. clearbody d. clear Hc E1 E3 Hsp Hv config.
  unfold scan_chunks_inner. destruct seed_state as [ts|]; [|done].
  set (lm := local_treestate_active _ fuse). set (st := Behind f0 _).
  assert (both shows tcs range_end lm range_start range_start
    (loop_init (Inline db) ts p fuse fence) (loop_init st ts p fuse fence)) as Hinit.
  { split; [|split; [|by right]].
    - exists f0, (lane_in p (open db d)), db. split_and!; try done.
      + by eapply law_seed.
      + split_and!; try done. simpl. lia.
    - split; [done|]. split; [|done]. split; [done|]. intros _ cs Hcs. by eapply H4. }
  pose proof (scan_all_follows shows tcs c0 range_end env lm E4 range_start H2 H3 cis range_start Hre ltac:(lia) H5
    (loop_init (Inline db) ts p fuse fence) (loop_init st ts p fuse fence)) as Hf.
  destruct (scan_all tcs c0 range_end env lm cis (loop_init (Inline db) ts p fuse fence)) as [s1 r1].
  destruct r1 as [[]|e| |]; cbn; try done. intros [= <-] Hst.
  destruct (Hf s1 tt Hinit eq_refl) as (s2 & -> & n' & (f & l & db1 & G1 & G2 & G3 & G4 & (Go & Gw & Gd))).
  rewrite Hst in G1. injection G1 as <-. unfold barrier. cbn -[drain lane_in]. rewrite G2. cbn -[drain lane_in].
  destruct (drain_spec commit (lane_in (lp_progress s2) l) Gw) as (l' & r' & E & Hd' & Ho' & Hid & _).
  change (outcome commit (lane_in (lp_progress s2) l)) with (outcome commit l) in Ho'. rewrite Go in Ho'.
  injection Ho' as Hst' <-. rewrite E, <-Hst'. destruct (finish_graft db') as [db2 [[]|e]]; cbn; split_and!; try done.
  - rewrite same_touch, (same_reap _ _ _ _ _ _ E). exact G3.
  - eexists _, _. split; [done|]. by destruct Hid.
  - rewrite (same_reap _ _ _ _ _ _ E). exact G3.
  - eexists _, _. split; [done|]. by destruct Hid.
Qed.

Import SampleScan.

(** The wallet of heights keeps the laws. *)
Definition shows_heights (n : Z) (f : list Z * option (list Z)) (db : list Z) : Prop := f = (db, None).

#[export] Instance heights_laws : BackendLaws (ScanBackend0 := SampleScan.heights_backend) shows_heights.
Proof.
  split.
  - by intros db from f [= <-].
  - intros call f db db' sum _ _ -> [= <- <-]. eexists. split; [done|]. done.
Qed.

Definition wb_config (wb : bool) : EngineConfig := (sample_config None true 4) <| write_behind := wb |>.
Abbreviation wb_sample wb := (scan_chunks (fun ts : UnitCS => Ok ts) (wb_config wb) 100 106 (quick 9)
  (Ok (state_at 99)) (Ok tt) 7 [] None false fence_new ScanCalls.two_chunks).

Lemma two_chunks_reseed : Forall (reseeds shows_heights) ScanCalls.two_chunks.
Proof. repeat constructor; intros n f db ->; eexists; split; reflexivity. Qed.

Lemma inline_sample : (wb_sample false).(end_result) = Val (mkScanStats 7 2 2 0 Enhance.enhance_default) /\
  (wb_sample false).(end_store) = Inline (seqZ 100 7).
Proof. split; vm_compute; reflexivity. Qed.

Lemma write_behind_equals_inline_witness :
  (wb_sample true).(end_result) = Val (mkScanStats 7 2 2 0 Enhance.enhance_default) /\
  exists f l, (wb_sample true).(end_store) = Behind f l /\ l.(store) = seqZ 100 7.
Proof.
  assert (is_ok (facade_seed (DB := list Z) [] 100) = true) as Hs by reflexivity.
  destruct (write_behind_equals_inline shows_heights (fun ts : UnitCS => Ok ts) (wb_config true) 100 106 (quick 9)
    (Ok (state_at 99)) 7 [] None false fence_new ScanCalls.two_chunks eq_refl eq_refl
    (ScanCalls.two_chunks_honest 9) two_chunks_reseed Hs (wb_sample false) (wb_sample true) eq_refl eq_refl
    _ _ (proj1 inline_sample) (proj2 inline_sample)) as (_ & _ & f & l & H2 & _ & H3 & H1).
  split; [exact H1|]. exists f, l. split; [exact H2|exact H3].
Defined.

(** ** The write-behind facade keeps the laws *)

Module W := WriteBehind.
#[local] Existing Instances W.same_set_equiv W.eta_Facade.

Section Facade.
Context {A Nfs Nfo K Addr Meta CS Keys DB : Type}.
Context `{EqDecision Nfs} `{EqDecision Nfo} `{Countable K}.
Abbreviation Block := (W.ScannedBlock (A := A) (Nfs := Nfs) (Nfo := Nfo) (K := K) (Meta := Meta)).
Abbreviation Fac := (W.Facade (A := A) (Nfs := Nfs) (Nfo := Nfo) (K := K) (Addr := Addr) (Meta := Meta) (CS := CS) (Keys := Keys)).
Abbreviation Unit' := (W.PendingPersist (A := A) (Nfs := Nfs) (Nfo := Nfo) (K := K) (Meta := Meta) (CS := CS)).
Context `{R : !W.WalletReads (A := A) (Nfs := Nfs) (Nfo := Nfo) (K := K) (Addr := Addr) (Meta := Meta) (Keys := Keys) DB}.
Context `{!W.SpendRecords (A := A) (Nfs := Nfs) (Nfo := Nfo) (K := K) (Meta := Meta) (DB := DB)}.
Context (commit_block : Block -> DB -> DB) `{!W.WalletDb (Addr := Addr) (Keys := Keys) commit_block}.
(** No block is committed that received a note whose spend is already on record. *)
Hypothesis in_order : W.none_recorded.

(** What one scan call reads. *)
Record Reads := mkReads {
  v_keys : Keys; v_meta : option Meta;
  v_sap : list (A * Nfs); v_orch : list (A * Nfo); v_iw : list (A * Nfo);
  v_out : gmap K A; v_recv : Addr;
}.

(** The same reads, the nullifiers in any order. *)
Definition same_reads (r1 r2 : Reads) : Prop :=
  r1.(v_keys) = r2.(v_keys) /\ r1.(v_meta) = r2.(v_meta) /\ W.same_set r1.(v_sap) r2.(v_sap) /\
  W.same_set r1.(v_orch) r2.(v_orch) /\ W.same_set r1.(v_iw) r2.(v_iw) /\ r1.(v_out) = r2.(v_out) /\
  r1.(v_recv) = r2.(v_recv).

(** The scan kernel of the wallet library: it reads, then answers with what it found.  It does
    not depend on the order of the nullifiers, and the blocks it hands over end at the last
    height it was given. *)
Context (kernel : Call CS -> Reads -> result ChainError (Summary * list Block)).
Hypothesis kernel_order : forall call, Proper (same_reads ==> eq) (kernel call).
Hypothesis kernel_tail : forall call v sum bs, 1 <= call.(c_limit) ->
  height <$> call.(c_blocks) = seqZ call.(c_from) call.(c_limit) -> kernel call v = Ok (sum, bs) ->
  W.sb_height <$> last bs = Some (call.(c_from) + call.(c_limit) - 1).
(** No commit gives the wallet new transparent receivers: those the facade's snapshot would lack. *)
Hypothesis no_new_receivers : forall b db, W.db_receivers (commit_block b db) = W.db_receivers db.

Definition db_view (db : DB) (h : Z) : result SqliteClientError Reads :=
  let? k := W.db_ufvks db in
  let? m := W.db_metadata db h in
  let? s := W.db_sapling db in
  let? o := W.db_orchard db in
  let? i := W.db_ironwood db in
  let? t := W.db_outpoints db in
  let? r := W.db_receivers db in
  Ok (mkReads k m s o i t r).

Definition facade_view (f : Fac) (h : Z) : result SqliteClientError Reads :=
  let? k := W.get_unified_full_viewing_keys f in
  let? m := W.block_metadata h f in
  let? s := W.get_sapling_nullifiers W.Unspent f in
  let? o := W.get_orchard_nullifiers W.Unspent f in
  let? i := W.get_ironwood_nullifiers W.Unspent f in
  let? t := W.get_unspent_transparent_outpoints f in
  let? r := W.get_transparent_receiver_accounts f in
  Ok (mkReads k m s o i t r).

Definition kernel_inline (call : Call CS) (db : DB) : DB * result ChainError Summary :=
  match db_view db (call.(c_from) - 1) with
  | Err e => (db, Err (WalletError (sqlite_text e)))
  | Ok v =>
    match kernel call v with
    | Err e => (db, Err e)
    | Ok (sum, bs) => (W.commit_blocks commit_block bs db, Ok sum)
    end
  end.

Definition kernel_facade (call : Call CS) (f : Fac) : Fac * result ChainError Summary :=
  match facade_view f (call.(c_from) - 1) with
  | Err e => (f, Err (WalletError (sqlite_text e)))
  | Ok v =>
    match kernel call v with
    | Err e => (f, Err e)
    | Ok (sum, bs) =>
      match W.put_blocks call.(c_state) bs f with
      | (f', Ok _) => (f', Ok sum)
      | (f', Err e) => (f', Err (WalletError (sqlite_text e)))
      end
    end
  end.

#[export] Instance facade_backend : ScanBackend CS DB Fac Unit' :=
  mkBackend _ _ _ _ (fun _ => kernel_inline) kernel_facade W.take_stash W.unit_span (W.commit_unit commit_block 0)
    (fun db from => match W.seed db from with Ok f => Ok f | Err e => Err (sqlite_text e) end)
    (fun db f => match W.reseed_nullifiers db f with
                 | (f', Ok _) => (f', Ok tt) | (f', Err e) => (f', Err (sqlite_text e)) end)
    (fun db => (db, Ok tt)).

Definition facade_shows (n : Z) (f : Fac) (db : DB) : Prop :=
  W.shows W.no_late f db /\ f.(W.prior_meta_height) = n - 1 /\ f.(W.stash) = None /\
  W.get_transparent_receiver_accounts f = W.db_receivers db.

Lemma facade_reads n f db v : facade_shows n f db -> db_view db (n - 1) = Ok v ->
  exists v', facade_view f (n - 1) = Ok v' /\ same_reads v v'.
Proof.
  intros ([S1 S2 (s & Es & Hs) (o & Eo & Ho) (i & Ei & Hi) (m & Em & Hm & Hl)] & Hp & _ & Hr) E. rewrite Hp in S2.
  assert (f.(W.transparent_outpoints) = m) as S6.
  { apply map_eq. intros k. destruct (m !! k) as [a|] eqn:Ek; [by eapply lookup_weaken|].
    apply eq_None_not_Some. intros Hk. destruct (Hl k Hk) as [Hm'|[]]. rewrite Ek in Hm'. by destruct Hm'. }
  apply W.upto_same in Hs, Ho, Hi.
  unfold facade_view, W.get_unspent_transparent_outpoints. rewrite S1, S2, S6, Hr. unfold db_view in E. revert E.
  destruct (W.db_ufvks db); [|done]. destruct (W.db_metadata db (n - 1)); [|done].
  rewrite Es, Eo, Ei, Em. destruct (W.db_receivers db); [|done].
  cbn. intros [= <-]. eexists. split; [done|]. split_and!; try done; by symmetry.
Qed.

Lemma commit_blocks_receivers bs db : W.db_receivers (W.commit_blocks commit_block bs db) = W.db_receivers db.
Proof. revert db. induction bs as [|b bs IH]; intros db; [done|]. cbn. unfold W.commit_blocks in IH. by rewrite IH. Qed.

Lemma advances_fields (bs : list Block) : forall f : Fac, let f' := foldl W.advance f bs in
  f'.(W.prior_meta_height) = f.(W.prior_meta_height) /\ f'.(W.transparent_receivers) = f.(W.transparent_receivers).
Proof. induction bs as [|b bs IH]; intros f; [done|]. cbn. destruct (IH (W.advance f b)) as [-> ->]. done. Qed.

Lemma put_blocks_fields fs (bs : list Block) (f : Fac) lst : f.(W.stash) = None -> last bs = Some lst ->
  exists f' u, W.put_blocks fs bs f = (f', Ok tt) /\ f'.(W.prior_meta_height) = lst.(W.sb_height) /\
    f'.(W.transparent_receivers) = f.(W.transparent_receivers) /\ f'.(W.stash) = Some u /\ u.(W.blocks) = bs.
Proof.
  intros Hst Hl. unfold W.put_blocks. rewrite Hst, Hl. destruct bs as [|b bs]; [done|]. cbn [head].
  eexists _, _. split; [done|].
  destruct (advances_fields (b :: bs) (f <| W.prior_meta_height := W.sb_height lst |>
    <| W.prior_meta := Some (W.to_block_metadata lst) |>)) as [F1 F2]. by split_and!.
Qed.

#[export] Instance facade_laws : BackendLaws (CS := CS) facade_shows.
Proof.
  split.
  - intros db from f. cbn. destruct (W.seed db from) as [f0|] eqn:Es; [|done]. intros [= <-].
    destruct (W.seed_shows _ _ _ Es) as (Hs & Hp & Hst). split_and!; try done.
    unfold W.seed in Es. destruct (if _ <=? _ then _ else _); [|done].
    destruct (W.db_ufvks db); [|done]. destruct (W.db_metadata db _); [|done]. destruct (W.db_sapling db); [|done].
    destruct (W.db_orchard db); [|done]. destruct (W.db_ironwood db); [|done]. destruct (W.db_outpoints db); [|done].
    destruct (W.db_receivers db); [|done]. cbn in Es. by injection Es as <-.
  - intros call f db db' sum Hl Hb Hf. cbn. unfold kernel_inline, kernel_facade.
    destruct (db_view db (c_from call - 1)) as [v|] eqn:Ev; [|done].
    destruct (facade_reads _ _ _ _ Hf Ev) as (v' & -> & Hv).
    rewrite <-(kernel_order call v v' Hv). destruct (kernel call v) as [[sum' bs]|] eqn:Ek; [|done].
    intros [= <- <-]. pose proof (kernel_tail _ _ _ _ Hl Hb Ek) as Ht.
    destruct Hf as (Hsh & Hp & Hst & Hr).
    destruct (last bs) as [lst|] eqn:El; [|done]. injection Ht as Ht.
    destruct (put_blocks_fields (c_state call) bs f lst Hst El) as (f' & u & Ep & F1 & F2 & F3 & F4).
    rewrite Ep. exists f'. split; [done|].
    pose proof (W.put_blocks_shows commit_block _ _ _ _ _ _ Hsh Ep) as Hsh'.
    apply (W.shows_weaken _ _ _ _ (W.late_after_none commit_block _ in_order _ _)) in Hsh'.
    unfold facade_take, facade_backend, W.take_stash. rewrite F3. split; [|split; [done|]].
    + split; [by apply W.shows_stash|]. split; [cbn -[foldl]; lia|]. split; [done|].
      rewrite commit_blocks_receivers, <-Hr. unfold W.get_transparent_receiver_accounts. by rewrite <-F2.
    + cbn. by rewrite F4.
Qed.

(** An enhancement that keeps the keys and the block rows, and leaves the wallet readable, lets
    the facade be re-seeded. *)
Lemma facade_reseeds {TS} (ci : ChunkIn TS DB) :
  (forall db, let db' := (ci.(ci_enhance) db).1 in
     W.db_ufvks db' = W.db_ufvks db /\ (forall h, W.db_metadata db' h = W.db_metadata db h) /\
     is_ok (W.db_sapling db') = true /\ is_ok (W.db_orchard db') = true /\ is_ok (W.db_ironwood db') = true /\
     is_ok (W.db_outpoints db') = true /\ is_ok (W.db_receivers db') = true) ->
  forall n f db, facade_shows n f db ->
  exists f', facade_reseed (ci.(ci_enhance) db).1 f = (f', Ok tt) /\ facade_shows n f' (ci.(ci_enhance) db).1.
Proof.
  intros Hci n f db ([S1 S2 _ _ _ _] & Hp & Hst & _). destruct (Hci db) as (E1 & E2 & E3). clear Hci.
  destruct (ci_enhance ci db) as [db' r]. cbn in *. unfold W.reseed_nullifiers. rewrite Hst.
  destruct (W.db_sapling db') as [s|] eqn:Es, (W.db_orchard db') as [o|] eqn:Eo, (W.db_ironwood db') as [i|] eqn:Ei,
    (W.db_outpoints db') as [t|] eqn:Et, (W.db_receivers db') as [v|] eqn:Ev; try (exfalso; naive_solver).
  eexists. split; [done|]. split_and!; try done. constructor; cbn.
  - by rewrite E1.
  - rewrite E2. exact S2.
  - exists s. split; [done|]. by apply W.upto_same.
  - exists o. split; [done|]. by apply W.upto_same.
  - exists i. split; [done|]. by apply W.upto_same.
  - exists t. split_and!; [done|done|]. by left.
Qed.
End Facade.
End ScanEquiv.
