(* ===== verification/Scheduler.v ===== *)
(** * The scheduler: [core/src/scheduler.rs]

    One pass drives the wallet's own scan queue: for each suggested range a fetch
    and a scan, reorg recovery by truncation, and the bookkeeping behind the
    progress a host reads.

    The wallet database, the fetch and the scan of a range are inputs of a round:
    what each of their calls returned.  Stage timers, the shard census and log
    lines are left out of the report. *)

From S2P Require Export FetchPlan WireDetector Handle.
Import Progress Handle.

Module Scheduler.

Definition MAX_CONSECUTIVE_REORGS : Z := 5.

(** [reorg_backoff_ms]. *)
Definition reorg_backoff_ms (consecutive : Z) : Z := Z.min (sat_mul64 consecutive 500) 3000.

(** [global_floor_permille]. *)
Definition global_floor_permille (tip : Z) (birthday : option Z) (remaining : Z) : option Z :=
  match birthday with
  | None => None
  | Some birthday =>
    if (tip =? 0) || (tip <? birthday) then None
    else
      let span := u64_add (u64_sub tip birthday) 1 in
      let scanned := sat_sub span remaining in
      Some (sat_mul64 scanned 1000 / span)
  end.

(** [update_pass_progress]: the progress, the pass-local tally and whether the
    floor was re-baselined. *)
Definition update_pass_progress (p : Progress) (scanned_so_far sum_remaining : Z) (birthday : option Z)
  : Progress * Z * bool :=
  let p1 := set_pass_baseline (sat_sub p.(fetched_blocks) scanned_so_far)
              (sat_sub p.(scanned_blocks) scanned_so_far) p in
  let p2 := set_pass_total (u64_add scanned_so_far sum_remaining) p1 in
  match global_floor_permille p2.(chain_tip) birthday sum_remaining with
  | None => (p2, scanned_so_far, false)
  | Some seed =>
    if scope_expanded seed p2 then
      let p3 := set_pass_baseline p2.(fetched_blocks) p2.(scanned_blocks) p2 in
      let p4 := set_pass_total sum_remaining p3 in
      let p5 := set_pass_start_permille seed p4 in
      let '(rebaselined, p6) := rebaseline_floor_if_scope_expanded seed p5 in
      (p6, 0, rebaselined)
    else
      let p3 := set_pass_start_permille_if_unset seed p2 in
      ((permille_floor seed p3).2, scanned_so_far, false)
  end.

(** [scan_continuity_repair_credit]. *)
Definition scan_continuity_repair_credit (start end_exclusive rewind_height : Z) : Z :=
  Z.min (sat_sub rewind_height start) (sat_sub end_exclusive start).

(** ** Suggested ranges *)

(** [zcash_client_backend]'s [ScanPriority] and [ScanRange]. *)
Inductive ScanPriority := Ignored | Scanned | Historic | OpenAdjacent | FoundNote | ChainTip | Verify.
#[export] Instance scan_priority_eq_dec : EqDecision ScanPriority.
Proof. solve_decision. Defined.
Record ScanRange := mkScanRange { r_start : Z; r_end : Z; priority : ScanPriority }.

Definition below_ceiling (ru : Z) (ranges : list ScanRange) : bool :=
  existsb (fun r => r.(r_start) <? ru) ranges.
Definition is_recovering (recover_until : option Z) (ranges : list ScanRange) : bool :=
  match recover_until with Some ru => below_ceiling ru ranges | None => false end.
(** [Iterator::sum] of [u64] range lengths. *)
Definition sum_remaining (ranges : list ScanRange) : Z :=
  foldl (fun acc r => u64_add acc (sat_sub r.(r_end) r.(r_start))) 0 ranges.

(** What the wallet session answers [seed_progress_from_wallet]. *)
Record WalletView := mkWalletView {
  v_min_birthday : Res (option Z);
  v_ranges : Res (list ScanRange);
  v_max_recover_until : Res (option Z);
  v_chain_height : Res (option Z);
}.

(** [seed_progress_from_wallet]: [p] is updated as far as the reads go. *)
Definition seed_progress_from_wallet (p : Progress) (v : WalletView) : Progress * Res unit :=
  match v.(v_min_birthday) with
  | Err e => (p, Err e)
  | Ok None => (p, Ok tt)
  | Ok (Some birthday) =>
    match v.(v_ranges) with
    | Err e => (p, Err e)
    | Ok ranges =>
      match v.(v_max_recover_until) with
      | Err e => (p, Err e)
      | Ok recover_until =>
        let p1 := set_recovering (is_recovering recover_until ranges) p in
        let recent_pending := existsb (fun r => bool_decide (r.(priority) = ChainTip) ||
                                                bool_decide (r.(priority) = Verify)) ranges in
        let p2 := if recent_pending then p1 else set_spendable p1 in
        match v.(v_chain_height) with
        | Err e => (p2, Err e)
        | Ok tip =>
          let tip := default 0 tip in
          let p3 := if tip =? 0 then p2 else set_chain_tip tip p2 in
          let p4 := match global_floor_permille tip (Some birthday) (sum_remaining ranges) with
                    | Some seed => (permille_floor seed p3).2
                    | None => p3
                    end in
          (p4, Ok tt)
        end
      end
    end
  end.

(** ** The position in the chain *)

Definition heights_ok (tip birthday : Z) : Prop := 0 <= birthday <= tip /\ 0 < tip <= u32_max.

Lemma global_floor_eq tip birthday remaining : heights_ok tip birthday -> 0 <= remaining ->
  global_floor_permille tip (Some birthday) remaining =
    Some (Z.max 0 (tip - birthday + 1 - remaining) * 1000 / (tip - birthday + 1)).
Proof.
  intros [H1 H2] Hr. unfold global_floor_permille, u32_max in *.
  destruct (Z.eqb_spec tip 0); [lia|]. destruct (Z.ltb_spec tip birthday); [lia|]. simpl.
  rewrite u64_sub_small by (unfold is_u64, u64_max; lia).
  rewrite u64_add_small by (unfold is_u64, u64_max; lia).
  unfold sat_mul64, sat_sub. rewrite Z.min_r; [done|]. unfold u64_max. lia.
Qed.

Lemma global_floor_bound tip birthday remaining s : heights_ok tip birthday -> 0 <= remaining ->
  global_floor_permille tip (Some birthday) remaining = Some s -> 0 <= s <= 1000.
Proof.
  intros H Hr. rewrite global_floor_eq by done. intros [= <-]. destruct H as [H1 H2].
  split; [apply Z.div_pos; lia|]. apply Z.div_le_upper_bound; lia.
Qed.

(** The global position seeds the floor truthfully: for block heights it is within 0..=1000, is
    1000 exactly when nothing remains to scan, never rises as more remains, and there is none
    exactly without an account, without a tip, or with a tip below the birthday. *)
Theorem global_position_truthful tip birthday r1 r2 :
  heights_ok tip birthday -> 0 <= r1 <= r2 ->
  exists s1 s2, global_floor_permille tip (Some birthday) r1 = Some s1 /\
    global_floor_permille tip (Some birthday) r2 = Some s2 /\
    0 <= s2 <= s1 /\ s1 <= 1000 /\ (s1 = 1000 <-> r1 = 0) /\
    (forall t b, global_floor_permille t b r1 = None <->
       (b = None \/ t = 0 \/ exists b', b = Some b' /\ t < b')).
Proof.
  intros H [Hr1 Hr2]. do 2 eexists. rewrite !global_floor_eq by (done || lia). do 2 (split; [reflexivity|]).
  destruct H as [H1 H2]. split_and!.
  - apply Z.div_pos; lia.
  - apply Z.div_le_mono; lia.
  - apply Z.div_le_upper_bound; lia.
  - split; [|intros ->; rewrite Z.max_r, Z.sub_0_r, Z.mul_comm by lia; by rewrite Z.div_mul by lia].
    intros He. pose proof (Z.mul_div_le (Z.max 0 (tip - birthday + 1 - r1) * 1000) (tip - birthday + 1)). lia.
  - intros t b. unfold global_floor_permille. destruct b as [b|]; [|split; [by left|done]].
    destruct (Z.eqb_spec t 0); simpl; [naive_solver|]. destruct (Z.ltb_spec t b); [naive_solver|].
    split; [done|]. intros [?|[?|(b' & [= <-] & ?)]]; [done|done|lia].
Qed.

Example global_position_truthful_instance :
  global_floor_permille 1099 (Some 100) 10 = Some 990 /\ (990 = 1000 <-> 10 = 0).
Proof.
  destruct (global_position_truthful 1099 100 10 20) as (s1 & s2 & H1 & _ & _ & _ & H & _).
  - repeat split; vm_compute; congruence.
  - lia.
  - vm_compute in H1. injection H1 as <-. split; [reflexivity|exact H].
Qed.

(** ** A scope expansion under a polling host *)

(** The atomic stores of [update_pass_progress] when the scope has expanded, in
    program order. *)
Definition expansion_stores (scanned_so_far sum seed : Z) : list (Progress -> Progress) :=
  [fun p => p <| pass_base_fetched := sat_sub p.(fetched_blocks) scanned_so_far |>;
   fun p => p <| pass_base_scanned := sat_sub p.(scanned_blocks) scanned_so_far |>;
   set_pass_total (u64_add scanned_so_far sum);
   fun p => p <| pass_base_fetched := p.(fetched_blocks) |>;
   fun p => p <| pass_base_scanned := p.(scanned_blocks) |>;
   set_pass_total sum;
   set_pass_start_permille seed].

Definition run_stores (ss : list (Progress -> Progress)) (p : Progress) : Progress :=
  foldl (fun p f => f p) p ss.

(** The stores are those of [update_pass_progress], the floor last. *)
Lemma update_is_stores p so_far ranges_sum birthday seed :
  global_floor_permille p.(chain_tip) birthday ranges_sum = Some seed -> scope_expanded seed p = true ->
  update_pass_progress p so_far ranges_sum birthday =
    ((rebaseline_floor_if_scope_expanded seed (run_stores (expansion_stores so_far ranges_sum seed) p)).2, 0, true).
Proof.
  intros Hg Hs. unfold update_pass_progress. simpl. rewrite Hg.
  unfold scope_expanded in *. simpl. rewrite Hs.
  unfold rebaseline_floor_if_scope_expanded, scope_expanded. simpl. rewrite Hs. done.
Qed.

(** A host poll: the clock and the state it reads. *)
Abbreviation Poll := (Z * SyncState)%type.
Definition poll (q : Poll) (p : Progress) : Progress := (derive_snapshot q.1 p q.2).1.
Definition polls (qs : list Poll) (p : Progress) : Progress := foldl (fun p q => poll q p) p qs.

(** Stores with any number of polls before each. *)
Fixpoint polled (steps : list (list Poll * (Progress -> Progress))) (p : Progress) : Progress :=
  match steps with
  | [] => p
  | (qs, f) :: steps' => polled steps' (f (polls qs p))
  end.

Definition with_floor (x : Z) (p : Progress) : Progress := p <| progress_permille_floor := x |>.

(** A store that neither reads nor writes the floor. *)
Definition ignores_floor (f : Progress -> Progress) : Prop :=
  forall p x, f (with_floor x p) = with_floor x (f p).

Lemma expansion_stores_ignore so_far sum seed : Forall ignores_floor (expansion_stores so_far sum seed).
Proof. repeat constructor. Qed.

Lemma poll_floor_only q p : exists x, poll q p = with_floor x p /\
  p.(progress_permille_floor) <= x /\
  (q.2 <> Done -> x = Z.max p.(progress_permille_floor) (Z.min (raw_permille p) 1000)).
Proof.
  unfold poll, derive_snapshot, permille_floor. destruct q as [now st]. simpl.
  eexists. split; [reflexivity|]. split; [lia|]. by destruct st.
Qed.

Lemma polls_floor_only qs p : exists x, polls qs p = with_floor x p /\
  p.(progress_permille_floor) <= x.
Proof.
  revert p. induction qs as [|q qs IH]; intros p; simpl.
  { exists p.(progress_permille_floor). split; [by destruct p|lia]. }
  destruct (poll_floor_only q p) as (x & -> & Hx & _).
  destruct (IH (with_floor x p)) as (y & -> & Hy). exists y. split; [done|].
  simpl in Hy. lia.
Qed.

Lemma run_stores_floor ss p x : Forall ignores_floor ss ->
  run_stores ss (with_floor x p) = with_floor x (run_stores ss p).
Proof.
  intros Hs. revert p. induction Hs as [|f ss Hf _ IH]; intros p; [done|]. unfold run_stores. simpl.
  rewrite Hf. apply IH.
Qed.

Lemma polled_floor_only steps p : Forall ignores_floor steps.*2 ->
  exists x, polled steps p = with_floor x (run_stores steps.*2 p) /\
    p.(progress_permille_floor) <= x.
Proof.
  revert p. induction steps as [|[qs f] steps IH]; intros p Hs.
  { exists p.(progress_permille_floor). split; [by destruct p|lia]. }
  csimpl in Hs. apply Forall_cons in Hs as [Hf Hs]. csimpl. destruct (polls_floor_only qs p) as (x & -> & Hx).
  rewrite Hf. destruct (IH (with_floor x (f p)) Hs) as (y & -> & Hy).
  exists y. simpl in Hy. split; [|lia]. rewrite (run_stores_floor _ _ x Hs). done.
Qed.

(** The pass has made no progress of its own. *)
Lemma fresh_pass_reads_start p seed : 0 <= seed <= 1000 ->
  p.(pass_start_permille_raw) = seed -> p.(pass_base_fetched) = p.(fetched_blocks) ->
  p.(pass_base_scanned) = p.(scanned_blocks) -> 0 <= p.(pass_total_blocks) -> raw_permille p = seed.
Proof.
  intros Hs Hst Hf Hsc Ht. assert (pass_permille p = 0) as Hp.
  { unfold pass_permille. rewrite Hf, Hsc. unfold sat_sub. rewrite !Z.sub_diag.
    rewrite Z.max_id, Z.min_l by done. unfold div_or_0. case_match; [done|].
    unfold sat_mul64, sat_add64, u64_max. simpl. apply Zdiv_0_l. }
  unfold raw_permille, pass_start_permille. rewrite Hst.
  destruct (Z.eqb_spec seed u64_max) as [->|_]; [unfold u64_max in *; lia|].
  rewrite Hp, (Z.min_l seed) by lia. unfold sat_mul64. rewrite Z.mul_0_r, Z.min_r by (unfold u64_max; lia).
  change (div_or_0 0 1000) with 0. unfold sat_add64, u64_max. lia.
Qed.

Lemma rebaseline_lowers seed p : 0 <= seed <= 1000 -> scope_expanded seed p = true ->
  (rebaseline_floor_if_scope_expanded seed p).2 = with_floor seed p.
Proof.
  intros Hs He. unfold rebaseline_floor_if_scope_expanded. rewrite He. simpl. by rewrite Z.min_l by lia.
Qed.

Lemma polls_keep_floor qs p seed : 0 <= seed <= 1000 ->
  p.(progress_permille_floor) = seed -> raw_permille p = seed ->
  Forall (fun q => q.2 <> Done) qs -> polls qs p = p.
Proof.
  intros Hs Hf Hr Hq. induction Hq as [|q qs Hd _ IH]; [done|]. simpl.
  assert (poll q p = p) as ->; [|done].
  destruct (poll_floor_only q p) as (x & -> & _ & Hx). rewrite (Hx Hd), Hr, Hf, Z.min_l, Z.max_id by lia.
  rewrite <-Hf. by destruct p.
Qed.

(** C34: A scan scope that grows under a running pass is reported as a genuine climb: with a host
    polling any number of times between the stores of the re-baseline and after it, the floor
    ends exactly at the new global position, no stale higher reading is latched, and the
    pass's own progress restarts from zero there. *)
Theorem rebaseline_survives_polls p so_far sum birthday seed steps qs1 qs2 :
  0 <= seed <= 1000 -> 0 <= sum -> scope_expanded seed p = true ->
  global_floor_permille p.(chain_tip) birthday sum = Some seed ->
  steps.*2 = expansion_stores so_far sum seed -> Forall (fun q => q.2 <> Done) qs2 ->
  let p' := polls qs2 (rebaseline_floor_if_scope_expanded seed (polls qs1 (polled steps p))).2 in
  p' = (update_pass_progress p so_far sum birthday).1.1 /\
  p'.(progress_permille_floor) = seed /\ raw_permille p' = seed.
Proof.
  intros Hs Hsum Hexp Hg Hst Hq. rewrite (update_is_stores _ _ _ _ _ Hg Hexp). cbn [fst snd].
  destruct (polled_floor_only steps p) as (x & Hx & Hle); [rewrite Hst; apply expansion_stores_ignore|].
  rewrite Hst in Hx. rewrite Hx. set (q := run_stores _ p) in *.
  destruct (polls_floor_only qs1 (with_floor x q)) as (y & -> & Hy). simpl in Hy.
  assert (p.(progress_permille_floor) = q.(progress_permille_floor)) as Hpq by done.
  rewrite !rebaseline_lowers; [|done| |done|].
  2:{ unfold scope_expanded in *. by rewrite <-Hpq. }
  2:{ unfold scope_expanded in *. simpl. breflect. apply Z.ltb_lt. lia. }
  change (with_floor seed (with_floor y (with_floor x q))) with (with_floor seed q).
  assert (raw_permille (with_floor seed q) = seed) as Hr.
  { apply fresh_pass_reads_start; try done. simpl. lia. }
  rewrite (polls_keep_floor qs2 (with_floor seed q) seed) by done. auto.
Qed.

(** A wallet at 1000 of its old scope; the new scope puts it at 250. *)
Definition old_scope_done : Progress :=
  run_ops [OpSetChainTip 1099; OpBeginPass 1; OpSetPassTotal 10; OpPassStart 900;
           OpAddFetched 10 2; OpAddScanned 10 3; OpPermilleFloor 1000] progress_default.

Lemma rebaseline_survives_polls_witness :
  let steps := (fun f => ([(4, Syncing)], f)) <$> expansion_stores 10 750 250 in
  let p' := polls [(5, Syncing)] (rebaseline_floor_if_scope_expanded 250
              (polls [(5, Syncing)] (polled steps old_scope_done))).2 in
  p' = (update_pass_progress old_scope_done 10 750 (Some 100)).1.1 /\
  p'.(progress_permille_floor) = 250 /\ raw_permille p' = 250.
Proof.
  apply (rebaseline_survives_polls old_scope_done 10 750 (Some 100) 250).
  - lia.
  - lia.
  - vm_compute. reflexivity.
  - vm_compute. reflexivity.
  - reflexivity.
  - repeat constructor; discriminate.
Defined.

(** A poll is not atomic: one that computed its reading before the re-baseline and folds it in
    after it puts the floor back to the old reading, so the re-scan reads as finished until a
    later round re-baselines again. *)
Theorem straddling_poll_restores_old_reading p so_far sum birthday seed :
  0 <= seed <= 1000 -> scope_expanded seed p = true ->
  global_floor_permille p.(chain_tip) birthday sum = Some seed -> seed <= raw_permille p <= 1000 ->
  let p' := (update_pass_progress p so_far sum birthday).1.1 in
  p'.(progress_permille_floor) = seed /\
  (permille_floor (raw_permille p) p').1 = raw_permille p /\
  (permille_floor (raw_permille p) p').2.(progress_permille_floor) = raw_permille p.
Proof.
  intros Hs Hexp Hg Hr. rewrite (update_is_stores _ _ _ _ _ Hg Hexp). cbn [fst snd].
  set (q := run_stores _ p). assert (scope_expanded seed q = true) as Hq by done.
  rewrite rebaseline_lowers by done. simpl. lia.
Qed.

Example straddling_poll_restores_old_reading_instance :
  let p' := (update_pass_progress old_scope_done 10 750 (Some 100)).1.1 in
  p'.(progress_permille_floor) = 250 /\
  (permille_floor (raw_permille old_scope_done) p').1 = raw_permille old_scope_done /\
  raw_permille old_scope_done = 1000.
Proof.
  destruct (straddling_poll_restores_old_reading old_scope_done 10 750 (Some 100) 250) as (H1 & H2 & _).
  - lia.
  - vm_compute. reflexivity.
  - vm_compute. reflexivity.
  - split; vm_compute; discriminate.
  - split; [exact H1|]. split; [exact H2|]. vm_compute. reflexivity.
Qed.

End Scheduler.
