(* ===== verification/Sweep.v ===== *)
(** * The sweep of stranded graft rows: [sweep_stranded_graft_rows] of [core/src/persist.rs]

    A pass starts by looking at the buffer table.  Runs of rows that a pending range will
    resume stay; every other run is either built into its pool's tree, when something the
    wallet holds checks where it ends, or deleted once the blocks that hold it are queued for
    a rescan.  A shard or run that cannot be read, built or placed keeps its rows.

    The sweep's tally is updated in place and survives errors, so its functions run in a monad
    of their own over the tally ([Sw]). Warnings are left out. *)

From S2P Require Export PutBlocks GraftRuns Scheduler.

Module Sweep.
Import GraftAccumulator Checkpoints SparseStore GraftBuffer GraftPlan PutBlocks.
Import Scheduler(ScanPriority(..), ScanRange, r_start, r_end, priority).
#[local] Existing Instance Scheduler.scan_priority_eq_dec.
Local Open Scope graft_scope.

(** [struct GraftSweep]. *)
Record GraftSweep := mkGraftSweep { built_rows : Z; discarded_rows : Z; rescans : list (Z * Z) }.
#[export] Instance eta_GraftSweep : Eta GraftSweep := fun s => mkGraftSweep s.(built_rows) s.(discarded_rows) s.(rescans).
Definition sweep_default : GraftSweep := mkGraftSweep 0 0 [].

(** [zcash_client_backend]'s [BlockMetadata], as far as it is read. *)
Record BlockMetadata := mkMetadata { sapling_tree_size : option Z; orchard_tree_size : option Z; ironwood_tree_size : option Z }.

(** What the sweep uses of the wallet beyond [WalletLib], and of a shard beyond [PoolLib]. *)
Class SweepLib (W : Type) := mkSweepLib {
  get_wallet_birthday : W -> result SqliteClientError (option Z);
  suggest_scan_ranges : W -> result SqliteClientError (list ScanRange);
  block_metadata : Z -> W -> result SqliteClientError (option BlockMetadata);
  queue_rescan : Z * Z -> W -> result SqliteClientError W;
}.
Class ShardLeaves (H T : Type) := mkLeaves {
  value_at_position : Z -> T -> option H;
  without_root : T -> T;
}.

(** ** The tally *)

Section Sw.
Context {W : Type}.

Definition Sw (A : Type) : Type := GraftSweep -> World W -> World W * (GraftSweep * result SqliteClientError A).
Definition sret {A} (a : A) : Sw A := fun s w => (w, (s, Ok a)).
Definition serr {A} (e : SqliteClientError) : Sw A := fun s w => (w, (s, Err e)).
Definition sbind {A B} (m : Sw A) (k : A -> Sw B) : Sw B := fun s w =>
  match m s w with
  | (w', (s', Ok a)) => k a s' w'
  | (w', (s', Err e)) => (w', (s', Err e))
  end.
Definition effect {A} (m : M (W := W) A) : Sw A := fun s w => let '(w', r) := m w in (w', (s, r)).
Definition tried {A} (m : Sw A) : Sw (result SqliteClientError A) := fun s w => let '(w', (s', r)) := m s w in (w', (s', Ok r)).
Definition tally (f : GraftSweep -> GraftSweep) : Sw unit := fun s w => (w, (f s, Ok tt)).
End Sw.
Declare Scope sweep_scope.
Notation "'let%' x := m 'in' k" := (sbind m (fun x => k))
  (at level 10, x pattern, m at level 100, k at level 200, only parsing) : sweep_scope.
Local Open Scope sweep_scope.

(** ** Placing a run *)

Section Place.
Context {W : Type} `{!SweepLib W} (fault : nat -> option string).

(** [tree_size_at], [range_start_position]. *)
Definition tree_size_at (pool : ShieldedPool) (d : W) (height : Z) : result SqliteClientError (option Z) :=
  let? block := block_metadata height d in
  Ok (block ← block; match pool with
                     | Sapling => block.(sapling_tree_size)
                     | Orchard => block.(orchard_tree_size)
                     | Ironwood => block.(ironwood_tree_size)
                     end).
Definition range_start_position (pool : ShieldedPool) (range : ScanRange) (d : W) : result SqliteClientError (option Z) :=
  if 1 <=? range.(r_start) then tree_size_at pool d (range.(r_start) - 1) else Ok None.

Fixpoint queue_all (rs : list (Z * Z)) : M (W := W) unit :=
  match rs with
  | [] => ret tt
  | r :: rs' => transactionally fault (fun d => let? d := queue_rescan r d in Ok (d, tt)) ;;; queue_all rs'
  end.

(** [SweepInputs::queue_rescans], with the module's [rescans_for]. *)
Definition queue_rescans (stretches : list (Z * Z)) (pool : ShieldedPool) (run : Z * Z) : Sw (W := W) bool :=
  let% found := effect (read (fun d => GraftRuns.rescans_for (tree_size_at pool d) run stretches)) in
  match found with
  | None => sret false
  | Some rs =>
    let% _ := effect (queue_all rs) in
    let% _ := tally (fun s => s <| rescans := s.(rescans) ++ rs |>) in
    sret true
  end.

Definition discarded (run : Z * Z) : Sw (W := W) unit :=
  tally (fun s => s <| discarded_rows := s.(discarded_rows) + (run.2 - run.1 + 1) |>).

(** [SweepInputs::undecodable_shard]. *)
Fixpoint undecodable_runs (stretches : list (Z * Z)) (pool : ShieldedPool) (shard : Z) (runs : list (Z * Z)) : Sw (W := W) unit :=
  match runs with
  | [] => sret tt
  | run :: runs' =>
    let% queued := tried (queue_rescans stretches pool run) in
    let% _ := match queued with
              | Ok true =>
                let% deleted := tried (effect (delete_rows_in fault pool shard (run.1, run.2 + 1))) in
                match deleted with Ok _ => discarded run | Err _ => sret tt end
              | _ => sret tt
              end in
    undecodable_runs stretches pool shard runs'
  end.
Definition undecodable_shard (stretches : list (Z * Z)) (pool : ShieldedPool) (shard : Z) (positions : list Z) : Sw (W := W) unit :=
  undecodable_runs stretches pool shard (GraftRuns.contiguous_runs positions).

(** The starts of the pending [Historic] ranges. *)
Fixpoint historic_starts (pool : ShieldedPool) (pending : list ScanRange) : M (W := W) (list (option Z)) :=
  match pending with
  | [] => ret []
  | range :: pending' =>
    if bool_decide (range.(priority) = Historic) then
      let! start := read (range_start_position pool range) in
      let! starts := historic_starts pool pending' in
      ret (start :: starts)
    else historic_starts pool pending'
  end.
End Place.

(** [struct SweepInputs]. *)
Record SweepInputs := mkInputs {
  pending : list ScanRange;
  stretches : list (Z * Z);
  sweep_tip : Z;
  graft_resumes : bool;
  sweep_anchors : option (Z -> bool);
}.

(** ** One pool *)

Definition pool_name (pool : ShieldedPool) : string :=
  match pool with Sapling => "Sapling" | Orchard => "Orchard" | Ironwood => "Ironwood" end.
Definition store_text (e : SparseStoreError) : string :=
  match e with
  | NotPreloaded idx => "shard index " +:+ pretty idx +:+ " exists in the database but was not preloaded"
  | Unsupported name => "operation not supported by the in-memory sparse store: " +:+ name
  end.

(** [slice::partition_point], on a slice that has the rows satisfying [f] first. *)
Fixpoint partition_point {A} (f : A -> bool) (l : list A) : nat :=
  match l with x :: l' => if f x then S (partition_point f l') else O | [] => O end.

Section Pool.
Context {W H T C Fr : Type} `{!EqDecision H} `{!HashSer H} (PL : PoolLib W H T C Fr) `{!ShardLeaves H T}.
Context `{!SweepLib W} (fault : nat -> option string) (inp : SweepInputs) (pool : ShieldedPool).
Abbreviation Store := (SparseShardStore T C).
Abbreviation Row := (BufferRow H).

(** [shard_content_root]. *)
Definition shard_content_root (store : Store) (index : Z) : option H :=
  shard ← store.(shards) !! index;
  let shard := without_root shard in
  root_hash (shard_end (root_index shard)) shard.

(** [insert_checked]. *)
Definition insert_checked (tree : Store) (shard : Z) (rows : list Row) (check : GraftRuns.EndCheck H) : result SqliteClientError Store :=
  let label := "graft sweep " +:+ pool_name pool in
  let rows := doom_deep_rows inp.(sweep_anchors) inp.(sweep_tip) rows in
  let? inserted := insert_deferred_rows PL inp.(sweep_anchors) label rows tree in
  let tree := default tree inserted in
  match check with
  | GraftRuns.LastLeaf => Ok tree
  | GraftRuns.ShardRoot stored =>
    match shard_content_root tree shard with
    | Some root =>
      if bool_decide (root = stored) then Ok tree
      else Err (CorruptedData (label +:+ ": shard " +:+ pretty shard +:+ "'s root is not the root the wallet stores"))
    | None => Err (CorruptedData (label +:+ ": shard " +:+ pretty shard +:+ "'s root cannot be computed from the tree"))
    end
  end.

(** Whether the tree's leaf at the end of the run is the last row's. *)
Definition last_leaf_matches (held : option T) (run : Z * Z) (rows : list Row) : bool :=
  match held ≫= value_at_position run.2, last rows with
  | Some leaf, Some row => bool_decide (leaf = row.1.2)
  | _, _ => false
  end.

(** The part of [SweepInputs::run] that gives a run up. *)
Definition discard_run (shard : Z) (run : Z * Z) : Sw (W := W) unit :=
  let% queued := queue_rescans fault inp.(stretches) pool run in
  if queued then
    let% _ := effect (delete_rows_in fault pool shard (run.1, run.2 + 1)) in
    discarded run
  else sret tt.

(** [SweepInputs::run]: the tree as it leaves it, and its result. *)
Definition sweep_run (tree : Store) (shard : Z) (run : Z * Z) (rows : list Row) (stored_root : option H)
    : Sw (W := W) (Store * result SqliteClientError unit) :=
  let covered := GraftRuns.rows_cover_run rows run in
  match get_shard shard tree with
  | Err e => sret (tree, Err (CorruptedData ("shard " +:+ pretty shard +:+ ": " +:+ store_text e)))
  | Ok held =>
    let check := if covered then GraftRuns.end_check run (last_leaf_matches held run rows) stored_root else None in
    let abandon := let% r := tried (discard_run shard run) in sret (tree, r) in
    match check with
    | None => abandon
    | Some check =>
      match insert_checked tree shard rows check with
      | Err _ => abandon
      | Ok built =>
        let% written := tried (effect (transactionally fault (fun d => flushed built d))) in
        match written with
        | Err e => sret (tree, Err e)
        | Ok built =>
          let% deleted := tried (effect (delete_rows_in fault pool shard (run.1, run.2 + 1))) in
          match deleted with
          | Err e => sret (built, Err e)
          | Ok _ =>
            let% _ := tally (fun s => s <| built_rows := s.(built_rows) + Z.of_nat (length rows) |>) in
            sret (built, Ok tt)
          end
        end
      end
    end
  end.

(** The rows of a run among a shard's rows. *)
Definition run_rows (run : Z * Z) (rows : list Row) : list Row :=
  let from := partition_point (fun row : Row => row.1.1 <? run.1) rows in
  let to := partition_point (fun row : Row => row.1.1 <=? run.2) rows in
  take (to - from) (drop from rows).

(** [SweepInputs::pool]: the loops over a shard's runs, over the stranded shards, and over the
    buffered shards. *)
Fixpoint sweep_runs (tree : Store) (shard : Z) (rows : list Row) (stored_root : option H) (runs : list (Z * Z)) : Sw (W := W) Store :=
  match runs with
  | [] => sret tree
  | run :: runs' =>
    let% swept := sweep_run tree shard run (run_rows run rows) stored_root in
    sweep_runs swept.1 shard rows stored_root runs'
  end.
Fixpoint sweep_shards (tree : Store) (stranded : list (Z * list (Z * Z) * list Row)) : Sw (W := W) unit :=
  match stranded with
  | [] => sret tt
  | (shard, runs, rows) :: stranded' =>
    let% root := tried (effect (read (get_subtree_root shard))) in
    match root with
    | Err _ => sweep_shards tree stranded'
    | Ok root => let% tree := sweep_runs tree shard rows root runs in sweep_shards tree stranded'
    end
  end.
Fixpoint read_shards (seeders : gmap Z Z) (shards : list Z) : Sw (W := W) (list (Z * list (Z * Z) * list Row)) :=
  match shards with
  | [] => sret []
  | shard :: shards' =>
    let% positions := tried (effect (buffered_positions fault pool shard)) in
    match positions with
    | Err _ => read_shards seeders shards'
    | Ok positions =>
      let% loaded := tried (effect (load_shard fault pool shard)) in
      match loaded with
      | Ok rows =>
        let runs := GraftRuns.stranded_runs positions (seeders !! shard) in
        let% more := read_shards seeders shards' in
        sret (if bool_decide (runs = []) then more else (shard, runs, rows) :: more)
      | Err e =>
        let% _ := if will_not_decode e then undecodable_shard fault inp.(stretches) pool shard positions else sret tt in
        read_shards seeders shards'
      end
    end
  end.
Definition sweep_pool (shards : list Z) : Sw (W := W) unit :=
  match shards with
  | [] => sret tt
  | _ =>
    let% seeders := if inp.(graft_resumes)
                    then let% starts := effect (historic_starts pool inp.(pending)) in sret (GraftRuns.first_seeders starts)
                    else sret ∅ in
    let% stranded := read_shards seeders shards in
    match stranded with
    | [] => sret tt
    | _ => let% tree := effect (seeded pl_cap inp.(sweep_anchors) None) in sweep_shards tree stranded
    end
  end.
End Pool.

(** ** The sweep *)

Section Sweep.
Context {W Hs Ho Ts To Cs Co Fs Fo : Type} `{!EqDecision Hs} `{!HashSer Hs} `{!EqDecision Ho} `{!HashSer Ho}.
Context (PS : PoolLib W Hs Ts Cs Fs) (PO : PoolLib W Ho To Co Fo) `{!WalletLib W Hs Ho Fs Fo} `{!SweepLib W}.
Context `{!ShardLeaves Hs Ts} `{!ShardLeaves Ho To} (fault : nat -> option string).

(** The pending ranges, in the order the scheduler scans them, and the stretches between them. *)
Definition read_queue (floor chain_tip : Z) (d : W) : result SqliteClientError (list ScanRange * list (Z * Z)) :=
  let? pending := suggest_scan_ranges d in
  Ok (pending, GraftRuns.scanned_stretches ((fun r => (r.(r_start), r.(r_end))) <$> pending) floor (chain_tip + 1)).

Definition sweep_err {A} (r : result SqliteClientError A) : result SlipstreamError A :=
  match r with Ok a => Ok a | Err e => Err (Wallet ("graft sweep: " +:+ sqlite_text e)) end.
(** A call whose error ends the sweep. *)
Definition or_return {A} (m : M (W := W) A) (k : A -> M (W := W) (result SlipstreamError GraftSweep)) : M (W := W) (result SlipstreamError GraftSweep) :=
  let! r := attempt m in
  match sweep_err r with Ok a => k a | Err e => ret (Err e) end.

(** Both pools' sweeps, Sapling first. *)
Definition sweep_pools (resumes : bool) (anchors : option (Z -> bool)) (floor chain_tip : Z) (queue : list ScanRange * list (Z * Z))
    (sapling_shards orchard_shards : list Z) : Sw (W := W) unit :=
  let inputs q := mkInputs q.1 q.2 chain_tip resumes anchors in
  let% _ := tried (sweep_pool PS fault (inputs queue) Sapling sapling_shards) in
  let% queue := tried (fun s => (if bool_decide (s.(rescans) = []) || bool_decide (orchard_shards = []) then sret queue
                                 else effect (read (read_queue floor chain_tip))) s) in
  match queue with
  | Ok queue => let% _ := tried (sweep_pool PO fault (inputs queue) Orchard orchard_shards) in sret tt
  | Err _ => sret tt
  end.

(** [sweep_stranded_graft_rows]; [opened] is the error with which the side connection did not
    open. *)
Definition sweep_stranded_graft_rows (opened : option SlipstreamError) (resumes : bool) (anchors : option (Z -> bool))
    : M (W := W) (result SlipstreamError GraftSweep) :=
  match opened with
  | Some e => ret (Err e)
  | None =>
    or_return (buffered_shards fault Sapling) (fun sapling_shards =>
    or_return (buffered_shards fault Orchard) (fun orchard_shards =>
    if bool_decide (sapling_shards = []) && bool_decide (orchard_shards = []) then ret (Ok sweep_default) else
    or_return (read chain_height) (fun tip =>
    or_return (read get_wallet_birthday) (fun floor =>
    match tip, floor with
    | Some chain_tip, Some floor =>
      or_return (read (read_queue floor chain_tip)) (fun queue w =>
      let '(w', (done, _)) := sweep_pools resumes anchors floor chain_tip queue sapling_shards orchard_shards sweep_default w in
      (w', Ok (Ok done)))
    | _, _ => ret (Ok sweep_default)
    end))))
  end.
End Sweep.

(** ** Nothing scanned is lost

    The invariant is the writer's ([PutBlocks.safe]), for the scanned blocks from the wallet's
    birthday on ([tracked]): below it a wallet may have scanned blocks too, and of those the sweep
    knows nothing.  Of the scan queue the sweep relies on this: a scanned block is not above the
    tip and in no suggested range; queueing a range for a rescan makes its blocks unscanned and
    touches no tree.  What the wallet recorded of the blocks must be of the chain ([follows]). *)

Section Records.
Context {W Ns No Ts To Cs Co Fs Fo : Type} (PS : PoolLib W Ns Ts Cs Fs) (PO PI : PoolLib W No To Co Fo) `{!WalletLib W Ns No Fs Fo} `{!SweepLib W}.
Abbreviation View := (WalletView (W := W) (Ts := Ts) (To := To) (Cs := Cs) (Co := Co)).
Context (V : View) (block_of : ShieldedPool -> Z -> Z).

Definition same_trees (d d' : W) : Prop :=
  same_tree V.(view_s) d d' /\ same_tree V.(view_o) d d' /\ same_tree V.(view_i) d d'.

(** The wallet's birthday and its records of the blocks. *)
Definition same_birthday (d d' : W) : Prop := get_wallet_birthday d' = get_wallet_birthday d.
Definition same_records (d d' : W) : Prop := same_birthday d d' /\ forall h, block_metadata h d' = block_metadata h d.
#[export] Instance same_records_preorder : PreOrder same_records.
Proof.
  split; [by intros d|]. intros d1 d2 d3 [A A'] [B B']. split; [unfold same_birthday in *; congruence|]. intros h. by rewrite B', A'.
Qed.

(** The wallet follows a chain: [size] are the chain's tree sizes, a scanned block holds the
    positions [block_of] says, and the sizes the wallet recorded are the chain's. *)
Record follows (size : ShieldedPool -> Z -> Z) (d : W) : Prop := {
  size_mono pool a b : a <= b -> size pool a <= size pool b;
  size_known pool h n : tree_size_at pool d h = Ok (Some n) -> n = size pool h;
  scanned_holds pool p : scanned V d (block_of pool p) -> size pool (block_of pool p - 1) <= p < size pool (block_of pool p);
}.
Lemma follows_onward size d d' : same_records d d' -> (forall h, scanned V d' h -> scanned V d h) -> follows size d -> follows size d'.
Proof.
  intros [_ Hb] Hs [M K H]. split; [done| |auto]. intros pool h n Hn. apply K. revert Hn. unfold tree_size_at. by rewrite Hb.
Qed.

(** The tree size a scanned block says its pool has after it. *)
Definition block_size (pool : ShieldedPool) (b : ScannedBlock Ns No) : Z :=
  match pool with
  | Sapling => b.(b_sapling).(final_tree_size)
  | Orchard => b.(b_orchard).(final_tree_size)
  | Ironwood => b.(b_ironwood).(final_tree_size)
  end.

(** What a call of the writer records: the rows stage the sizes of its blocks, the rest nothing.
    The birthday belongs to the accounts, and none of this touches them. *)
Class RecordLaws : Prop := {
  rows_birthday fs bs d d' rows : put_blocks_rows fs bs d = Ok (d', rows) -> same_birthday d d';
  rows_record fs bs d d' rows pool h n : put_blocks_rows fs bs d = Ok (d', rows) -> tree_size_at pool d' h = Ok (Some n) ->
    tree_size_at pool d h = Ok (Some n) \/ exists b, b ∈ bs /\ b.(b_height) = h /\ n = block_size pool b;
  notify_records range notes d d' : notify_scan_complete range notes d = Ok d' -> same_records d d';
  flush_keeps_s : spares (PL := PS) same_records;
  flush_keeps_o : spares (PL := PO) same_records;
  flush_keeps_i : spares (PL := PI) same_records;
}.

(** The view of the wallet in which a block is scanned when it is scanned and not below the
    wallet's birthday. *)
Definition tracked : View :=
  mkWalletView V.(cover_s) V.(cover_o) V.(cover_i) V.(view_s) V.(view_o) V.(view_i)
    (fun d h => scanned V d h /\ forall b, get_wallet_birthday d = Ok (Some b) -> b <= h).
Lemma tracked_onward d d' h : same_birthday d d' -> (scanned V d' h -> scanned V d h) -> scanned tracked d' h -> scanned tracked d h.
Proof. intros Hb Hs [Hh Hf]. split; [by apply Hs|]. intros b Eb. apply Hf. by rewrite Hb. Qed.

Lemma spares_and {H T C Fr : Type} {PL : PoolLib W H T C Fr} (R R' : W -> W -> Prop) : spares (PL := PL) R -> spares (PL := PL) R' ->
  spares (PL := PL) (fun d d' => R d d' /\ R' d d').
Proof. intros [A B] [A' B']. split; intros; split; eauto. Qed.

(** The writer's laws hold of that view. *)
Lemma tracked_quiet {T C} (v : TreeView W T C) d d' : same_birthday d d' -> quiet V v d d' -> quiet tracked v d d'.
Proof. intros Hb [Ht Hs]. split; [exact Ht|]. intros h. exact (tracked_onward d d' h Hb (Hs h)). Qed.
Lemma tracked_spares {H T C Fr T1 C1 T2 C2 : Type} {PL : PoolLib W H T C Fr} (v1 : TreeView W T1 C1) (v2 : TreeView W T2 C2) :
  spares (PL := PL) (quiet2 V v1 v2) -> spares (PL := PL) same_records -> spares (PL := PL) (quiet2 tracked v1 v2).
Proof.
  intros Hq Hr. eapply spares_mono; [|exact (spares_and _ _ Hq Hr)]. intros d d' [[Q1 Q2] [Hb _]]. split; by apply tracked_quiet.
Qed.
#[export] Instance tracked_laws {WL : WalletLaws PS PO PI V} {RC : RecordLaws} : WalletLaws PS PO PI tracked.
Proof.
  split; [apply WL..| | | | | |].
  - apply tracked_spares; [apply (spares_s PS PO PI V)|apply flush_keeps_s].
  - apply tracked_spares; [apply (spares_o PS PO PI V)|apply flush_keeps_o].
  - apply tracked_spares; [apply (spares_i PS PO PI V)|apply flush_keeps_i].
  - intros fs bs d d' rows E. pose proof (rows_birthday _ _ _ _ _ E). destruct (rows_quiet PS PO PI V _ _ _ _ _ E) as (Q1 & Q2 & Q3).
    split_and!; by apply tracked_quiet.
  - intros fs bs d d' rows. apply (rows_streams PS PO PI V).
  - intros range notes d d' E. destruct (notify_records _ _ _ _ E) as [Hb _].
    destruct (notify_marks PS PO PI V _ _ _ _ E) as (T1 & T2 & T3 & Hs). split_and!; [done..|]. intros h [Hh Hf].
    destruct (Hs h Hh) as [Ho|]; [left|by right]. split; [exact Ho|]. intros b Eb. apply Hf. by rewrite Hb.
Qed.
End Records.

Section Safe.
Context {W Ns No Ts To Cs Co Fs Fo : Type} `{!EqDecision Ns} `{!HashSer Ns} `{!EqDecision No} `{!HashSer No}.
Context (PS : PoolLib W Ns Ts Cs Fs) (PO PI : PoolLib W No To Co Fo) `{!WalletLib W Ns No Fs Fo} `{!SweepLib W}.
Context `{!ShardLeaves Ns Ts} `{!ShardLeaves No To} (fault : nat -> option string).
Abbreviation View := (WalletView (W := W) (Ts := Ts) (To := To) (Cs := Cs) (Co := Co)).
Context (U : View) {WL : WalletLaws PS PO PI U} {RC : RecordLaws PS PO PI} (block_of : ShieldedPool -> Z -> Z).

Class SweepLaws : Prop := {
  scanned_below_tip d tip h : chain_height d = Ok (Some tip) -> scanned U d h -> h <= tip;
  scanned_not_suggested d pending r h : suggest_scan_ranges d = Ok pending -> r ∈ pending -> scanned U d h ->
    ~ (r.(r_start) <= h < r.(r_end));
  suggested_ranges d pending r : suggest_scan_ranges d = Ok pending -> r ∈ pending -> r.(r_start) <= r.(r_end);
  rescan_unscans r d d' : queue_rescan r d = Ok d' ->
    same_trees U d d' /\ same_records d d' /\ forall h, scanned U d' h -> scanned U d h /\ ~ (r.1 <= h < r.2);
}.

Context {size : ShieldedPool -> Z -> Z} {SL : SweepLaws}.
Abbreviation V := (tracked U).
Abbreviation safe := (safe V block_of).
Abbreviation follows := (follows V block_of size).
Abbreviation same_trees := (same_trees V).

Lemma rescan_untracks r d d' : queue_rescan r d = Ok d' ->
  same_trees d d' /\ same_records d d' /\ forall h, scanned V d' h -> scanned V d h /\ ~ (r.1 <= h < r.2).
Proof.
  intros E. destruct (rescan_unscans _ _ _ E) as (T & R & Hs). split; [exact T|]. split; [exact R|]. intros h Hh.
  split; [|apply Hs, Hh]. eapply tracked_onward; [apply R|apply Hs|exact Hh].
Qed.

Definition good (w : World W) : Prop := safe w.(table) w.(wallet) /\ well_keyed w.(table) /\ follows w.(wallet).

(** On the way from [w] to [w'] the file was safe throughout, and no block became scanned. *)
Definition onward (w w' : World W) : Prop :=
  always safe w w' /\ well_keyed w'.(table) /\ (forall h, scanned V w'.(wallet) h -> scanned V w.(wallet) h) /\ same_records w.(wallet) w'.(wallet).
Definition settles (w w' : World W) : Prop := onward w w' /\ same_trees w.(wallet) w'.(wallet).

Lemma same_trees_refl d : same_trees d d.
Proof. by split_and!. Qed.
Lemma same_trees_trans d1 d2 d3 : same_trees d1 d2 -> same_trees d2 d3 -> same_trees d1 d3.
Proof. intros (A & B & D) (A' & B' & D'). split_and!; by eapply same_tree_trans. Qed.
Lemma onward_refl w : good w -> onward w w.
Proof. intros (Hs & Hk & _). split; [by apply always_refl|done]. Qed.
Lemma onward_good w w' : good w -> onward w w' -> good w'.
Proof. intros (_ & _ & Hf) ([Hs _] & Hk & Hu & Hb). split_and!; [done..|by eapply follows_onward]. Qed.
Lemma onward_trans w1 w2 w3 : onward w1 w2 -> onward w2 w3 -> onward w1 w3.
Proof. intros (A & B & D & E) (A' & B' & D' & E'). split; [by eapply always_trans|]. split_and!; [done|auto|by etransitivity]. Qed.
Lemma settles_refl w : good w -> settles w w.
Proof. intros Hg. split; [by apply onward_refl|apply same_trees_refl]. Qed.
Lemma settles_trans w1 w2 w3 : settles w1 w2 -> settles w2 w3 -> settles w1 w3.
Proof. intros [A B] [A' B']. split; [by eapply onward_trans|by eapply same_trees_trans]. Qed.

(** The stretches cover what is scanned; they keep doing so. *)
Definition mapped (ss : list (Z * Z)) (w : World W) : Prop :=
  GraftRuns.ascending ss /\ forall h, scanned V w.(wallet) h -> GraftRuns.covered ss h.
Lemma mapped_onward ss w w' : onward w w' -> mapped ss w -> mapped ss w'.
Proof. intros (_ & _ & Hs & _) [Ha Hc]. split; [done|]. auto. Qed.

(** *** Statements *)

Lemma steps_settle {A} (m : M (W := W) A) w w' r : Steps (W := W) (fun t => safe t w.(wallet) /\ well_keyed t) m -> good w ->
  m w = (w', r) -> settles w w'.
Proof.
  intros Hm (Hs & Hk & _) E. pose proof (Hm w (conj Hs Hk)) as Hst. rewrite E in Hst. cbn [fst] in Hst.
  pose proof (steps_always _ safe _ _ (fun t H => proj1 H) Hst) as Ha. destruct Hst as (Ew & [_ Hk'] & _).
  split; [split; [exact Ha|split; [exact Hk'|by rewrite Ew; split]]|rewrite Ew; apply same_trees_refl].
Qed.

Lemma read_settle {A} (f : W -> result SqliteClientError A) w w' r : good w -> read f w = (w', r) -> settles w w' /\ w' = w /\ r = f w.(wallet).
Proof. intros Hg [= <- <-]. split; [by apply settles_refl|done]. Qed.

Lemma select_settle {A} (f : Table -> result SqliteClientError A) w w' r : good w -> select fault f w = (w', r) -> settles w w'.
Proof. intros Hg. apply steps_settle; [apply Steps_select|done]. Qed.

Lemma queue_all_settle rs w w' r : good w -> queue_all fault rs w = (w', r) ->
  settles w w' /\ (r = Ok tt -> forall h, scanned V w'.(wallet) h -> ~ GraftRuns.covered rs h).
Proof.
  revert w. induction rs as [|q rs IH]; intros w Hg; cbn [queue_all].
  { intros [= <- <-]. split; [by apply settles_refl|]. intros _ h _ Hc. by apply GraftRuns.covered_nil in Hc. }
  unfold bind. destruct (transactionally fault _ w) as [w1 r1] eqn:E1.
  assert (settles w w1 /\ forall u, r1 = Ok u -> forall h, scanned V w1.(wallet) h -> ~ (q.1 <= h < q.2)) as [S1 P1].
  { unfold transactionally in E1. destruct (queue_rescan q w.(wallet)) as [d|] eqn:Eq; cbn [result_bind] in E1.
    2:{ injection E1 as <- <-. split; [by apply settles_refl|done]. }
    destruct (fault w.(statements)); injection E1 as <- <-.
    { split; [|done]. destruct Hg as (Hs & Hk & _). split; [|apply same_trees_refl]. split; [|done]. by split; [|exists []]. }
    destruct (rescan_untracks _ _ _ Eq) as (Ht & Hbl & Hu). split; [|intros _ _ h Hh; apply Hu, Hh].
    destruct Hg as (Hs & Hk & _). split; [|exact Ht]. split; [|split_and!; [exact Hk|intros h Hh; apply Hu, Hh|exact Hbl]].
    split; cbn; [|exists [(w.(table), w.(wallet))]; split; [done|by apply Forall_singleton]].
    intros pool p Hp. destruct (Hs pool p (proj1 (Hu _ Hp))) as [Hc|Hb]; [left|by right]. destruct Ht as (T1 & T2 & T3).
    destruct pool; cbn [covered] in *; by eapply in_tree_same. }
  destruct r1 as [u|]; [|intros [= <- <-]; split; [exact S1|discriminate]]. intros E2.
  destruct (IH w1 (onward_good _ _ Hg (proj1 S1)) E2) as [S2 P2]. split; [by eapply settles_trans|].
  intros Hr h Hh [Hq|Hc]%GraftRuns.covered_cons; [|by apply (P2 Hr h)].
  apply (P1 _ eq_refl h); [|exact Hq]. apply S2, Hh.
Qed.

(** *** Giving a run up *)

Lemma queue_rescans_settle ss pool run s w w' s' r : good w -> mapped ss w -> queue_rescans fault ss pool run s w = (w', (s', r)) ->
  settles w w' /\ (r = Ok true -> forall p, GraftRuns.in_run run p -> ~ scanned V w'.(wallet) (block_of pool p)).
Proof.
  intros Hg [Ha Hm]. unfold queue_rescans, sbind at 1, effect at 1, read.
  destruct (GraftRuns.rescans_for (tree_size_at pool w.(wallet)) run ss) as [[rs|]|] eqn:Er;
    [|intros [= <- _ <-]; split; [by apply settles_refl|discriminate]..].
  unfold sbind at 1, effect. destruct (queue_all fault rs w) as [w1 r1] eqn:Eq.
  destruct (queue_all_settle _ _ _ _ Hg Eq) as [S1 P1]. destruct r1 as [[]|]; intros [= <- _ <-]; (split; [exact S1|]); [|discriminate].
  intros _ p Hp Hsc. apply (P1 eq_refl _ Hsc). destruct S1 as [(_ & _ & Hu & _) _]. pose proof (Hu _ Hsc) as Hsc0. destruct Hg as (_ & _ & Hf).
  eapply (GraftRuns.placed_covers (size pool)); [apply Hf|exact Ha| |by apply Hm|by apply Hf|exact Hp].
  eapply GraftRuns.rescans_placed; [|apply Hf|exact Ha|exact Er]. intros h n. apply Hf.
Qed.

Lemma delete_settle pool shard run w w' r : good w ->
  (forall p, GraftRuns.in_run run p -> covered V pool w.(wallet) p \/ ~ scanned V w.(wallet) (block_of pool p)) ->
  delete_rows_in fault pool shard (run.1, run.2 + 1) w = (w', r) -> settles w w'.
Proof.
  intros Hg Hp. apply steps_settle; [|exact Hg]. apply delete_rows_steps. cbn [fst snd]. intros p Hb. apply Hp.
  unfold GraftRuns.in_run. lia.
Qed.

Lemma discard_settle ss inp pool shard run s w w' s' r : inp.(stretches) = ss -> good w -> mapped ss w ->
  discard_run fault inp pool shard run s w = (w', (s', r)) -> settles w w'.
Proof.
  intros <- Hg Hm. unfold discard_run, sbind at 1. destruct (queue_rescans _ _ _ _ s w) as [w1 [s1 r1]] eqn:Eq.
  destruct (queue_rescans_settle _ _ _ _ _ _ _ _ Hg Hm Eq) as [S1 P1].
  destruct r1 as [[]|]; [|intros [= <- _ _]; exact S1..]. unfold sbind, effect.
  destruct (delete_rows_in fault pool shard _ w1) as [w2 r2] eqn:Ed.
  assert (settles w1 w2) as S2.
  { eapply delete_settle; [apply (onward_good _ _ Hg (proj1 S1))| |exact Ed]. intros p Hp. right. by apply P1. }
  destruct r2; intros [= <- _ _]; by eapply settles_trans.
Qed.

Lemma undecodable_settle ss pool shard runs s w w' s' r : good w -> mapped ss w ->
  undecodable_runs fault ss pool shard runs s w = (w', (s', r)) -> settles w w'.
Proof.
  revert s w. induction runs as [|run runs IH]; intros s w Hg Hm; cbn [undecodable_runs].
  { intros [= <- _ _]. by apply settles_refl. }
  unfold sbind at 1, tried at 1. destruct (queue_rescans _ _ _ _ s w) as [w1 [s1 r1]] eqn:Eq.
  destruct (queue_rescans_settle _ _ _ _ _ _ _ _ Hg Hm Eq) as [S1 P1]. pose proof (onward_good _ _ Hg (proj1 S1)) as Hg1.
  assert (forall w2 s2, settles w1 w2 -> undecodable_runs fault ss pool shard runs s2 w2 = (w', (s', r)) -> settles w w') as Hrest.
  { intros w2 s2 S2 E. assert (settles w w2) as S by (by eapply settles_trans). eapply settles_trans; [exact S|].
    eapply IH; [apply (onward_good _ _ Hg (proj1 S))|eapply mapped_onward; [apply S|exact Hm]|exact E]. }
  unfold sbind at 1. destruct r1 as [[]|].
  - unfold sbind at 1, tried at 1, effect at 1. destruct (delete_rows_in fault pool shard _ w1) as [w2 r2] eqn:Ed.
    assert (settles w1 w2) as S2 by (eapply delete_settle; [exact Hg1| |exact Ed]; intros p Hp; right; by apply P1).
    destruct r2; cbn; by apply Hrest.
  - apply Hrest. by apply settles_refl.
  - apply Hrest. by apply settles_refl.
Qed.

Lemma historic_starts_read pool pending w : exists r, historic_starts pool pending w = (w, r).
Proof.
  induction pending as [|range pending [r IH]]; cbn [historic_starts]; [by eexists|].
  destruct (bool_decide _); [|by eexists]. unfold bind, read. destruct (range_start_position pool range w.(wallet)); [|by eexists].
  rewrite IH. destruct r; by eexists.
Qed.

(** *** One pool *)

Section OnePool.
Context {H T C Fr : Type} `{!EqDecision H} `{!HashSer H} (PL : PoolLib W H T C Fr) `{!ShardLeaves H T} (pool : ShieldedPool).
Context (cov : T -> Z -> Prop) (v : TreeView W T C).
Context {DL : TreeDbLaws v.(v_shards) v.(v_cap) v.(v_cps) v.(v_retained)} {TL : TreeLaws (PL := PL) cov}.

(** The other pools lose nothing, and nothing becomes scanned. *)
Definition others (d d' : W) : Prop :=
  (forall q p, q <> pool -> covered V q d p -> covered V q d' p) /\ (forall h, scanned V d' h -> scanned V d h) /\ same_records d d'.
#[local] Instance others_preorder : PreOrder others.
Proof. split; [by intros d|]. intros d1 d2 d3 (A & B & D) (A' & B' & D'). split_and!; [auto..|by etransitivity]. Qed.

Context (pool_tree : forall d p, covered V pool d p <-> in_tree cov v d p) (pool_spares : spares (PL := PL) others).
Context (pool_same : forall d d', same_trees d d' -> same_tree v d d').
Context (inp : SweepInputs).

Lemma cover_run_rows (rows : list (BufferRow H)) run : GraftRuns.rows_cover_run rows run = true ->
  pos <$> rows = seqZ run.1 (Z.of_nat (length rows)) /\ forall p, GraftRuns.in_run run p -> run_of rows p.
Proof.
  unfold GraftRuns.rows_cover_run. rewrite !andb_true_iff, Z.eqb_eq. intros [[Hlen Hfirst] Hc].
  assert (forall (rows : list (BufferRow H)) a, from_option (fun row : BufferRow H => row.1.1 = a) True (head rows) ->
    GraftRuns.consecutive ((fun row : BufferRow H => row.1.1) <$> rows) = true -> pos <$> rows = seqZ a (Z.of_nat (length rows))) as Hseq.
  { clear. induction rows as [|r [|r2 rows] IH]; intros a Ha Hc; [done|cbn in Ha; subst a; done|].
    cbn [fmap list_fmap GraftRuns.consecutive] in Hc. apply andb_true_iff in Hc as [Hn Hc]. breflect. cbn [head from_option] in Ha.
    change (length (r :: r2 :: rows)) with (S (length (r2 :: rows))). rewrite seqZ_cons by lia. csimpl. f_equal; [exact Ha|].
    replace (Z.pred (Z.of_nat (S (S (length rows))))) with (Z.of_nat (length (r2 :: rows))) by (cbn; lia).
    apply (IH (Z.succ a)); [cbn; lia|exact Hc]. }
  destruct rows as [|r rows]; [done|]. breflect.
  assert (pos <$> (r :: rows) = seqZ run.1 (Z.of_nat (length (r :: rows)))) as Hall by (apply Hseq; [exact Hfirst|exact Hc]).
  split; [exact Hall|]. intros p Hp. unfold GraftRuns.in_run in Hp.
  assert (p ∈ pos <$> (r :: rows)) as Hin by (rewrite Hall; apply elem_of_seqZ; clear - Hlen Hp; unfold BufferRow in *; lia).
  apply list_elem_of_fmap in Hin as (x & -> & Hx). by exists x.
Qed.

Lemma doom_keeps_pos anchors tip (rows : list (BufferRow H)) : pos <$> doom_deep_rows anchors tip rows = pos <$> rows.
Proof.
  unfold doom_deep_rows. rewrite <-list_fmap_compose. apply list_fmap_ext. intros i row _. cbn.
  destruct row as [[p h] []]; cbn; [done| |done|done]. by case_match.
Qed.

Lemma insert_checked_evolves tree shard rows run check built : GraftRuns.rows_cover_run rows run = true ->
  insert_checked PL inp pool tree shard rows check = Ok built -> evolves cov (GraftRuns.in_run run) tree built.
Proof.
  intros [Hrows Hrun]%cover_run_rows. unfold insert_checked.
  set (dr := doom_deep_rows _ _ rows). assert (pos <$> dr = pos <$> rows) as Hdoom by apply doom_keeps_pos.
  assert (length dr = length rows) as Hlen by (unfold dr, doom_deep_rows; apply length_fmap).
  destruct (insert_deferred_rows PL _ _ dr tree) as [o|] eqn:Ei; [|done]. cbn [result_bind].
  apply (insert_deferred_evolves cov) with (a := run.1) in Ei; [|rewrite Hdoom, Hrows; f_equal; f_equal; symmetry; exact Hlen].
  assert (evolves cov (GraftRuns.in_run run) tree (default tree o)) as He.
  { destruct o as [t|]; cbn.
    - eapply evolves_mono; [|exact Ei]. intros p (row & Hin & <-)%Hrun.
      assert (pos row ∈ pos <$> dr) as Hd by (rewrite Hdoom; by apply list_elem_of_fmap_2).
      apply list_elem_of_fmap in Hd as (x & Ex & Hx). by exists x.
    - subst dr. apply evolves_refl. intros p (row & Hin & _)%Hrun. destruct rows; [by apply elem_of_nil in Hin|].
      by rewrite Ei in Hlen. }
  destruct check as [|stored]; [by intros [= <-]|]. destruct (shard_content_root _ _ _); [|done].
  destruct (bool_decide _); [by intros [= <-]|done].
Qed.

(** The commit of a built tree. *)
Lemma commit_onward (P : Z -> Prop) tree built w w' r : good w -> in_step (PL := PL) v tree w.(wallet) -> evolves cov P tree built ->
  transactionally fault (fun d => flushed built d) w = (w', r) ->
  onward w w' /\ match r with
                 | Ok tree' => in_step (PL := PL) v tree' w'.(wallet) /\ forall p, P p -> covered V pool w'.(wallet) p
                 | Err _ => w'.(wallet) = w.(wallet)
                 end.
Proof.
  intros Hg Hst Hev. unfold transactionally. destruct (flushed built w.(wallet)) as [[d tree']|] eqn:Ef.
  2:{ intros [= <- <-]. split; [by apply onward_refl|done]. }
  destruct (fault w.(statements)).
  { intros [= <- <-]. split; [|done]. destruct Hg as (Hs & Hk & _). split; [|done]. by split; [|exists []]. }
  intros [= <- <-]. cbn [wallet]. destruct Hg as (Hs & Hk & _).
  destruct (flushed_in_step cov v P tree w.(wallet) w.(wallet) built d tree' Hst) as [Hst' Hin]; [by split_and!|exact Hev|exact Ef|].
  destruct (flushed_spares others built _ _ _ _ pool_spares Ef) as (Ho & Hsc & Hbl).
  split; [|split; [exact Hst'|intros p Hp; apply pool_tree, Hin; by right]].
  split; [|split_and!; [exact Hk|exact Hsc|exact Hbl]]. split; cbn; [|exists [(w.(table), w.(wallet))]; split; [done|by apply Forall_singleton]].
  intros q p Hp. destruct (Hs q p (Hsc _ Hp)) as [Hc|Hb]; [left|by right].
  destruct (decide (q = pool)) as [->|Hne]; [|by apply Ho]. apply pool_tree, Hin. left. by apply pool_tree.
Qed.

Lemma sweep_run_onward tree shard run rows root s w w' s' r : good w -> mapped inp.(stretches) w -> in_step (PL := PL) v tree w.(wallet) ->
  sweep_run PL fault inp pool tree shard run rows root s w = (w', (s', r)) ->
  onward w w' /\ exists tree' res, r = Ok (tree', res) /\ in_step (PL := PL) v tree' w'.(wallet).
Proof.
  intros Hg Hm Hst. unfold sweep_run.
  assert (forall x, (let% r := tried (discard_run fault inp pool shard run) in sret (tree, r)) s w = x -> x = (w', (s', r)) ->
    onward w w' /\ exists tree' res, r = Ok (tree', res) /\ in_step (PL := PL) v tree' w'.(wallet)) as Hgive.
  { intros x <-. unfold sbind, tried. destruct (discard_run _ _ _ _ _ s w) as [w1 [s1 r1]] eqn:Ed. intros [= <- <- <-].
    apply (discard_settle inp.(stretches)) in Ed as [So St]; [|done..]. split; [exact So|]. do 2 eexists. split; [done|].
    by eapply in_step_same; [apply pool_same|]. }
  destruct (get_shard shard tree) as [held|e]; [|intros [= <- <- <-]; split; [by apply onward_refl|eauto]].
  destruct (GraftRuns.rows_cover_run rows run) eqn:Ec; [|by apply Hgive].
  destruct (GraftRuns.end_check _ _ _) as [check|]; [|by apply Hgive].
  destruct (insert_checked PL inp pool tree shard rows check) as [built|] eqn:Ei; [|by apply Hgive].
  apply (insert_checked_evolves _ _ _ run) in Ei; [|exact Ec]. clear Hgive.
  unfold sbind at 1, tried at 1, effect at 1. destruct (transactionally fault _ w) as [w1 r1] eqn:Et.
  destruct (commit_onward _ _ _ _ _ _ Hg Hst Ei Et) as [O1 P1]. destruct r1 as [tree1|].
  2:{ intros [= <- <- <-]. split; [exact O1|]. do 2 eexists. split; [done|]. by rewrite P1. }
  destruct P1 as [Hst1 Hin]. unfold sbind at 1, tried at 1, effect at 1.
  destruct (delete_rows_in fault pool shard _ w1) as [w2 r2] eqn:Ed.
  assert (settles w1 w2) as S2 by (eapply delete_settle; [by eapply (onward_good w)| |exact Ed]; intros p Hp; left; by apply Hin).
  assert (onward w w2) as O2 by (eapply onward_trans; [exact O1|apply S2]).
  assert (in_step (PL := PL) v tree1 w2.(wallet)) as Hst2 by (eapply in_step_same; [apply pool_same, S2|exact Hst1]).
  destruct r2; intros [= <- <- <-]; eauto.
Qed.

Lemma sweep_runs_onward tree shard rows root runs s w w' s' r : good w -> mapped inp.(stretches) w -> in_step (PL := PL) v tree w.(wallet) ->
  sweep_runs PL fault inp pool tree shard rows root runs s w = (w', (s', r)) ->
  onward w w' /\ exists tree', r = Ok tree' /\ in_step (PL := PL) v tree' w'.(wallet).
Proof.
  revert tree s w. induction runs as [|run runs IH]; intros tree s w Hg Hm Hst; cbn [sweep_runs].
  { intros [= <- _ <-]. split; [by apply onward_refl|eauto]. }
  unfold sbind. destruct (sweep_run _ _ _ _ _ _ _ _ _ s w) as [w1 [s1 r1]] eqn:E1.
  destruct (sweep_run_onward _ _ _ _ _ _ _ _ _ _ Hg Hm Hst E1) as [O1 (tree1 & res & -> & Hst1)]. intros E2.
  destruct (IH _ _ _ (onward_good _ _ Hg O1) (mapped_onward _ _ _ O1 Hm) Hst1 E2) as [O2 P2].
  split; [by eapply onward_trans|exact P2].
Qed.

Lemma sweep_shards_onward tree stranded s w w' s' r : good w -> mapped inp.(stretches) w -> in_step (PL := PL) v tree w.(wallet) ->
  sweep_shards PL fault inp pool tree stranded s w = (w', (s', r)) -> onward w w'.
Proof.
  revert tree s w. induction stranded as [|[[shard runs] rows] stranded IH]; intros tree s w Hg Hm Hst; cbn [sweep_shards].
  { intros [= <- _ _]. by apply onward_refl. }
  unfold sbind at 1, tried, effect, read. destruct (get_subtree_root shard w.(wallet)) as [root|]; [|by apply IH].
  unfold sbind. destruct (sweep_runs _ _ _ _ _ _ _ _ _ s w) as [w1 [s1 r1]] eqn:E1.
  destruct (sweep_runs_onward _ _ _ _ _ _ _ _ _ _ Hg Hm Hst E1) as [O1 (tree1 & -> & Hst1)]. intros E2.
  eapply onward_trans; [exact O1|]. eapply IH; [by eapply (onward_good w)|by eapply mapped_onward|exact Hst1|exact E2].
Qed.

Lemma read_shards_settle seeders shards s w w' s' r : good w -> mapped inp.(stretches) w ->
  read_shards (H := H) fault inp pool seeders shards s w = (w', (s', r)) -> settles w w'.
Proof.
  revert s w r. induction shards as [|shard shards IH]; intros s w r Hg Hm; cbn [read_shards].
  { intros [= <- _ _]. by apply settles_refl. }
  assert (forall w1 s1 r1, settles w w1 -> read_shards (H := H) fault inp pool seeders shards s1 w1 = (w', (s', r1)) -> settles w w') as Hrest.
  { intros w1 s1 r1 S1 E. eapply settles_trans; [exact S1|]. eapply IH; [apply (onward_good _ _ Hg (proj1 S1))| |exact E].
    eapply mapped_onward; [apply S1|exact Hm]. }
  unfold sbind at 1, tried at 1, effect at 1. destruct (buffered_positions fault pool shard w) as [w1 r1] eqn:E1.
  assert (settles w w1) as S1 by (by eapply select_settle). pose proof (onward_good _ _ Hg (proj1 S1)) as Hg1.
  destruct r1 as [positions|]; [|by apply Hrest].
  unfold sbind at 1, tried at 1, effect at 1. destruct (load_shard fault pool shard w1) as [w2 r2] eqn:E2.
  assert (settles w w2) as S2 by (eapply settles_trans; [exact S1|by eapply select_settle]).
  destruct r2 as [rows|e].
  - unfold sbind. destruct (read_shards fault inp pool seeders shards s w2) as [w3 [s3 r3]] eqn:E3.
    destruct r3 as [more|]; intros [= <- <- _]; (eapply Hrest; [exact S2|exact E3]).
  - unfold sbind. destruct (will_not_decode e); [|by apply Hrest].
    destruct (undecodable_shard fault inp.(stretches) pool shard positions s w2) as [w3 [s3 r3]] eqn:E3.
    assert (settles w w3) as S3.
    { eapply settles_trans; [exact S2|].
      eapply undecodable_settle; [apply (onward_good _ _ Hg (proj1 S2))|eapply mapped_onward; [apply S2|exact Hm]|exact E3]. }
    destruct r3; [by apply Hrest|]. intros [= <- _ _]. exact S3.
Qed.

Lemma sweep_pool_onward shards s w w' s' r : good w -> mapped inp.(stretches) w ->
  sweep_pool PL fault inp pool shards s w = (w', (s', r)) -> onward w w'.
Proof.
  intros Hg Hm. unfold sweep_pool. destruct shards as [|shard shards]; [intros [= <- _ _]; by apply onward_refl|].
  set (seeding := if inp.(graft_resumes) then _ else _). unfold sbind at 1. destruct (seeding s w) as [w0 [s0 r0]] eqn:E0.
  assert (w0 = w) as ->.
  { unfold seeding in E0. destruct (inp.(graft_resumes)); [|by injection E0]. unfold sbind, effect in E0.
    destruct (historic_starts_read pool inp.(pending) w) as [q Eq]. rewrite Eq in E0. destruct q; by injection E0. }
  destruct r0 as [seeders|]; [|intros [= <- _ _]; by apply onward_refl].
  unfold sbind at 1. destruct (read_shards _ _ _ _ _ s0 w) as [w1 [s1 r1]] eqn:E1.
  destruct (read_shards_settle _ _ _ _ _ _ _ Hg Hm E1) as [O1 _].
  destruct r1 as [stranded|]; [|intros [= <- _ _]; exact O1].
  destruct stranded as [|x stranded]; [intros [= <- _ _]; exact O1|].
  unfold sbind, effect. destruct (seeded _ _ None w1) as [w2 r2] eqn:E2.
  apply (seeded_spec PL v) in E2 as [-> Hseed]; [|discriminate].
  destruct r2 as [tree|]; [|intros [= <- _ _]; exact O1]. intros E3. eapply onward_trans; [exact O1|].
  eapply sweep_shards_onward; [by eapply (onward_good w)|by eapply mapped_onward|by apply Hseed|exact E3].
Qed.
End OnePool.

(** *** Both pools *)

Lemma queue_mapped floor tip pending ss w : (forall h, scanned V w.(wallet) h -> floor <= h <= tip) ->
  read_queue floor tip w.(wallet) = Ok (pending, ss) -> mapped ss w.
Proof.
  intros Hb. unfold read_queue. destruct (suggest_scan_ranges w.(wallet)) as [ranges|] eqn:Es; [|done]. cbn [result_bind]. intros [= <- <-].
  assert (forall r, r ∈ (fun r => (r.(r_start), r.(r_end))) <$> ranges -> r.1 <= r.2) as Hne.
  { intros r (x & -> & Hx)%list_elem_of_fmap. cbn. by eapply suggested_ranges. }
  split; [by apply GraftRuns.scanned_stretches_ascending|]. intros h Hh. apply GraftRuns.scanned_stretches_covers; [exact Hne|].
  split; [specialize (Hb h Hh); lia|]. intros (r & (x & -> & Hx)%list_elem_of_fmap & Hc). unfold GraftRuns.covers in Hc. cbn in Hc.
  eapply scanned_not_suggested; [exact Es|exact Hx|apply Hh|lia].
Qed.

Lemma sapling_onward inp shards s w w' s' r : good w -> mapped inp.(stretches) w ->
  sweep_pool PS fault inp Sapling shards s w = (w', (s', r)) -> onward w w'.
Proof.
  apply (sweep_pool_onward PS Sapling V.(cover_s) V.(view_s)); [done| |by intros d d' []].
  eapply spares_mono; [|exact (spares_and _ _ (spares_s PS PO PI V) (flush_keeps_s PS PO PI))]. intros d d' [[[T1 Hsc] [T2 _]] Hbl].
  split; [|by split]. intros [] p Hne; [done|apply (in_tree_same _ _ _ _ _ T1)|apply (in_tree_same _ _ _ _ _ T2)].
Qed.

Lemma orchard_onward inp shards s w w' s' r : good w -> mapped inp.(stretches) w ->
  sweep_pool PO fault inp Orchard shards s w = (w', (s', r)) -> onward w w'.
Proof.
  apply (sweep_pool_onward PO Orchard V.(cover_o) V.(view_o)); [done| |by intros d d' (_ & ? & _)].
  eapply spares_mono; [|exact (spares_and _ _ (spares_o PS PO PI V) (flush_keeps_o PS PO PI))]. intros d d' [[[T1 Hsc] [T2 _]] Hbl].
  split; [|by split]. intros [] p Hne; [apply (in_tree_same _ _ _ _ _ T1)|done|apply (in_tree_same _ _ _ _ _ T2)].
Qed.

Lemma sweep_pools_onward resumes anchors floor tip queue sap orch s w w' s' r : good w -> mapped queue.2 w ->
  (forall h, scanned V w.(wallet) h -> floor <= h <= tip) ->
  sweep_pools PS PO fault resumes anchors floor tip queue sap orch s w = (w', (s', r)) -> onward w w'.
Proof.
  intros Hg Hm Hb. unfold sweep_pools, sbind at 1, tried at 1. destruct (sweep_pool PS _ _ _ _ s w) as [w1 [s1 r1]] eqn:E1.
  pose proof (sapling_onward (mkInputs queue.1 queue.2 tip resumes anchors) _ _ _ _ _ _ Hg Hm E1) as O1. pose proof (onward_good _ _ Hg O1) as Hg1. cbv beta iota zeta.
  assert (forall q w2 s2 r2, mapped q.2 w1 -> (let% _ := tried (sweep_pool PO fault (mkInputs q.1 q.2 tip resumes anchors) Orchard orch) in sret tt) s1 w1 = (w2, (s2, r2)) ->
    onward w w2) as Hlast.
  { intros q w2 s2 r2 Hq. unfold sbind, tried. destruct (sweep_pool PO _ _ _ _ s1 w1) as [w3 [s3 r3]] eqn:E3. intros [= <- _ _].
    eapply onward_trans; [exact O1|]. eapply orchard_onward; [exact Hg1| |exact E3]. exact Hq. }
  unfold sbind at 1, tried at 1. destruct (_ || _).
  { cbn [sret]. apply Hlast. by eapply mapped_onward. }
  unfold effect at 1, read. destruct (read_queue floor tip w1.(wallet)) as [[pending2 ss2]|] eqn:Eq.
  2:{ intros [= <- _ _]. exact O1. }
  apply Hlast. eapply queue_mapped; [|exact Eq]. intros h Hh. apply Hb. by apply O1.
Qed.

Lemma or_return_onward {A} (m : M (W := W) A) k w w' r : good w ->
  (forall w1 r1, m w = (w1, r1) -> onward w w1) ->
  (forall w1 a, m w = (w1, Ok a) -> good w1 -> k a w1 = (w', r) -> onward w1 w') ->
  or_return m k w = (w', r) -> onward w w'.
Proof.
  intros Hg Hm Hk. unfold or_return, bind, attempt. destruct (m w) as [w1 [a|e]] eqn:E; cbn [sweep_err].
  - intros E2. eapply onward_trans; [by eapply Hm|]. eapply Hk; [done|eapply onward_good, Hm; [exact Hg|reflexivity]|exact E2].
  - intros [= <- _]. by eapply Hm.
Qed.

Lemma sweep_onward opened resumes anchors w w' r : good w ->
  sweep_stranded_graft_rows PS PO fault opened resumes anchors w = (w', r) -> onward w w'.
Proof.
  intros Hg. unfold sweep_stranded_graft_rows. destruct opened; [intros [= <- _]; by apply onward_refl|].
  apply or_return_onward; [exact Hg|intros; by eapply select_settle|]. intros w1 sap _ Hg1.
  apply or_return_onward; [exact Hg1|intros; by eapply select_settle|]. intros w2 orch _ Hg2.
  destruct (_ && _); [intros [= <- _]; by apply onward_refl|].
  apply or_return_onward; [exact Hg2|intros w3 r3 E; by destruct (read_settle _ _ _ _ Hg2 E) as [[]]|]. intros w3 tip Etip Hg3.
  apply or_return_onward; [exact Hg3|intros w4 r4 E; by destruct (read_settle _ _ _ _ Hg3 E) as [[]]|]. intros w4 floor Efl Hg4.
  injection Etip as <- Etip. injection Efl as <- Efl.
  destruct tip as [tip|]; [|intros [= <- _]; by apply onward_refl]. destruct floor as [floor|]; [|intros [= <- _]; by apply onward_refl].
  apply or_return_onward; [exact Hg2|intros w5 r5 E; by destruct (read_settle _ _ _ _ Hg2 E) as [[]]|]. intros w5 queue Eq Hg5.
  injection Eq as <- Eq. destruct (sweep_pools _ _ _ _ _ _ _ _ _ _ _ _) as [w6 [s6 r6]] eqn:E6. intros [= <- _].
  assert (forall h, scanned V w2.(wallet) h -> floor <= h <= tip) as Hb
    by (intros h [Hh Hf]; split; [by apply Hf|by eapply scanned_below_tip]).
  eapply sweep_pools_onward; [exact Hg2| |exact Hb|exact E6]. destruct queue as [q1 q2]. by eapply queue_mapped.
Qed.
End Safe.

(** C6: The start sweep loses nothing of the blocks from the wallet's birthday on.  Take a wallet file
    in which each commitment of a scanned block that is not below the wallet's birthday is in its
    pool's tree or in the buffer table, and whose records of the blocks are the chain's.  Whatever
    the sweep does with it - builds, rescans or leaves runs, for any error of any call - the file
    is such a file at every point at which the process could die and at the end, the birthday
    and the records are what they were, and no such block has become scanned.  (Of scanned blocks
    below the birthday it can lose buffered commitments: [sweep_loses_below_birthday].) *)
Theorem sweep_never_loses {W Ns No Ts To Cs Co Fs Fo : Type} `{!EqDecision Ns} `{!HashSer Ns} `{!EqDecision No} `{!HashSer No}
    (PS : PoolLib W Ns Ts Cs Fs) (PO PI : PoolLib W No To Co Fo) `{!WalletLib W Ns No Fs Fo} `{!SweepLib W}
    `{!ShardLeaves Ns Ts} `{!ShardLeaves No To} (fault : nat -> option string) (V : WalletView) {WL : WalletLaws PS PO PI V}
    {RC : RecordLaws PS PO PI} {SL : SweepLaws V} (block_of : ShieldedPool -> Z -> Z) (size : ShieldedPool -> Z -> Z) opened resumes anchors (w w' : World W) r :
  safe (tracked V) block_of w.(table) w.(wallet) -> well_keyed w.(table) -> follows (tracked V) block_of size w.(wallet) ->
  sweep_stranded_graft_rows PS PO fault opened resumes anchors w = (w', r) ->
  always (safe (tracked V) block_of) w w' /\ well_keyed w'.(table) /\ same_records w.(wallet) w'.(wallet) /\
  forall h, scanned (tracked V) w'.(wallet) h -> scanned (tracked V) w.(wallet) h.
Proof. intros Hs Hk Hf E. by edestruct (sweep_onward PS PO PI fault V block_of (size := size)) as (A & B & D & F). Qed.

(** ** An instance

    The wallet of [PutBlocks]; every height that is not scanned is a suggested range of its
    own, and every leaf a shard holds is the same byte. *)

#[local] Existing Instances mini_shard mini_wallet mini_laws PutBlocks.byte_dec.
Definition sample_size (pool : ShieldedPool) (h : Z) : Z :=
  match pool with
  | Sapling => if h <=? 0 then 0 else if h =? 1 then 2 else 3
  | Orchard => if h <=? 0 then 0 else 1
  | Ironwood => if h <=? 1 then 0 else 1
  end.
#[local] Instance mini_sweep : SweepLib MiniWallet :=
  {| get_wallet_birthday _ := Ok (Some 1);
     suggest_scan_ranges w := Ok ((fun h => Scheduler.mkScanRange h (h + 1) Historic) <$> filter (fun h => h ∉ w.(mini_scanned)) (seqZ 1 10));
     block_metadata h _ := Ok (Some (mkMetadata (Some (sample_size Sapling h)) (Some (sample_size Orchard h)) (Some (sample_size Ironwood h))));
     queue_rescan r w := Ok (mkMini w.(mini) (w.(mini_scanned) ∖ list_to_set (seqZ r.1 (r.2 - r.1)))) |}.
#[local] Instance mini_leaves : ShardLeaves Byte.byte MiniShard :=
  {| value_at_position p t := match t.2 with Some x => if bool_decide (p ∈ x) then Some Byte.x01 else None | None => None end;
     without_root t := t |}.

Lemma mini_follows d : follows mini_views sample_block_of sample_size d.
Proof.
  split.
  - intros pool a b Hab. unfold sample_size. destruct pool; repeat case_match; breflect; lia.
  - intros [] h n [= <-]; done.
  - intros pool p [Hb _]. unfold sample_block_of, sample_size in *. destruct pool; repeat case_match; breflect; lia.
Qed.
#[local] Instance mini_sweep_laws : SweepLaws mini_views.
Proof.
  split.
  - intros d tip h [= <-] [Hb _]. lia.
  - intros d l r h [= <-] (x & -> & [Hx _]%list_elem_of_filter)%list_elem_of_fmap [_ Hh] Hc. cbn in Hc.
    assert (h = x) as -> by lia. by apply Hx.
  - intros d l r [= <-] (x & -> & _)%list_elem_of_fmap. cbn. lia.
  - intros r d d' [= <-]. split; [by split_and!|]. split; [done|]. intros h [Hb Hh]. cbn in Hh. apply elem_of_difference in Hh as [Hh Hn].
    split; [done|]. intros Hr. apply Hn, elem_of_list_to_set, elem_of_seqZ. lia.
Qed.
#[local] Instance mini_record_laws : RecordLaws (mini_lib Sapling) (mini_lib Orchard) (mini_lib Ironwood).
Proof. split; [done| |done|done..]. intros fs bs d d' rows pool h n [= <- _] Hn. by left. Qed.
Lemma tracked_safe {W Ts To Cs Co : Type} `{!SweepLib W} (V : WalletView (W := W) (Ts := Ts) (To := To) (Cs := Cs) (Co := Co)) block_of t d :
  safe V block_of t d -> safe (tracked V) block_of t d.
Proof. intros Hs pool p [Hp _]. destruct (Hs pool p Hp) as [Hc|]; [left|by right]. by destruct pool. Qed.
Lemma tracked_follows {W Ts To Cs Co : Type} `{!SweepLib W} (V : WalletView (W := W) (Ts := Ts) (To := To) (Cs := Cs) (Co := Co)) block_of size d :
  follows V block_of size d -> follows (tracked V) block_of size d.
Proof. intros [M K H]. split; [done|done|]. intros pool p [Hp _]. by apply H. Qed.

(** Block 1 is scanned; its Sapling commitments and its Orchard one are buffered, and the tree
    has the second Sapling one too. *)
Definition enc (b : Byte.byte) : Enc := mkEnc [b] 0 None None.
Definition stranded_world : World MiniWallet :=
  mkWorld (<[(2, 0, 0) := enc Byte.x02]> (<[(2, 0, 1) := enc Byte.x01]> (<[(3, 0, 0) := enc Byte.x03]> ∅)))
    (mkMini (fun pool => if decide (pool = Sapling) then mkPoolDb {[0 := (0, Some {[1]})]} 0 ∅ ∅ else empty_pool) {[1]}) 0 [].

Lemma stranded_safe : safe mini_views sample_block_of stranded_world.(table) stranded_world.(wallet).
Proof.
  intros pool p [_ Hp]. change (sample_block_of pool p ∈ ({[1]} : gset Z)) in Hp. apply elem_of_singleton in Hp. right.
  assert ((pool = Sapling /\ (p = 0 \/ p = 1)) \/ (pool = Orchard /\ p = 0)) as Hc.
  { destruct pool; unfold sample_block_of in Hp.
    - destruct (Z.eqb_spec p 0); [auto|]. destruct (Z.eqb_spec p 1); [auto|]. cbn in Hp. by destruct (p =? 2).
    - destruct (Z.eqb_spec p 0); [auto|done].
    - by destruct (p =? 0). }
  destruct Hc as [[-> [-> | ->]]|[-> ->]]; eexists; vm_compute; reflexivity.
Qed.
Lemma stranded_keyed : well_keyed stranded_world.(table).
Proof.
  intros c s p [e He]. cbn in He.
  repeat (apply lookup_insert_Some in He as [[[= <- <- <-] _]|[_ He]]; [reflexivity|]). by apply lookup_empty_Some in He.
Qed.

Lemma sweep_never_loses_witness : exists w',
  sweep_stranded_graft_rows (mini_lib Sapling) (mini_lib Orchard) (fun _ => None) None false None stranded_world
    = (w', Ok (Ok (mkGraftSweep 2 1 [(1, 2)]))) /\
  w'.(table) = ∅ /\ always (safe (tracked mini_views) sample_block_of) stranded_world w'.
Proof.
  destruct (sweep_stranded_graft_rows (mini_lib Sapling) (mini_lib Orchard) (fun _ => None) None false None stranded_world) as [w' r] eqn:E.
  assert (r = Ok (Ok (mkGraftSweep 2 1 [(1, 2)]))) as Hr by (change r with (w', r).2; rewrite <-E; vm_compute; reflexivity).
  assert (w'.(table) = ∅) as Ht by (change w' with (w', r).1; rewrite <-E; vm_compute; reflexivity).
  subst r. exists w'. split; [reflexivity|]. split; [exact Ht|].
  apply (sweep_never_loses (mini_lib Sapling) (mini_lib Orchard) (mini_lib Ironwood) (fun _ => None) mini_views sample_block_of sample_size
    None false None stranded_world w' (Ok (Ok (mkGraftSweep 2 1 [(1, 2)])))).
  - apply tracked_safe, stranded_safe.
  - exact stranded_keyed.
  - apply tracked_follows, mini_follows.
  - exact E.
Defined.

(** *** Below the birthday

    [scan_queue.rs] keeps scanned entries below the wallet's birthday; the sweep's stretches start
    at it.  With a birthday of 3 and block 1 scanned, the sweep finds no block to rescan for the
    buffered Orchard commitment of block 1, deletes it, and block 1 stays scanned. *)
Definition late_sweep : SweepLib MiniWallet :=
  {| get_wallet_birthday _ := Ok (Some 3);
     suggest_scan_ranges := @suggest_scan_ranges _ mini_sweep;
     block_metadata := @block_metadata _ mini_sweep;
     queue_rescan := @queue_rescan _ mini_sweep |}.
Definition late_swept : World MiniWallet * result SqliteClientError (result SlipstreamError GraftSweep) :=
  sweep_stranded_graft_rows (SweepLib0 := late_sweep) (mini_lib Sapling) (mini_lib Orchard) (fun _ => None) None false None stranded_world.
Example sweep_loses_below_birthday :
  late_swept.2 = Ok (Ok (mkGraftSweep 2 1 [])) /\
  scanned mini_views late_swept.1.(wallet) (sample_block_of Orchard 0) /\
  ~ (covered mini_views Orchard late_swept.1.(wallet) 0 \/ buffered Orchard late_swept.1.(table) 0).
Proof.
  assert (late_swept.1.(table) = ∅) as Ht by (vm_compute; reflexivity).
  assert ((late_swept.1.(wallet).(mini) Orchard).(pd_shards) = ∅) as Hp by (vm_compute; reflexivity).
  split; [vm_compute; reflexivity|]. split.
  - change (1 <= 1 <= 10 /\ 1 ∈ late_swept.1.(wallet).(mini_scanned)). split; [lia|].
    apply (bool_decide_eq_true_1 (1 ∈ late_swept.1.(wallet).(mini_scanned))). vm_compute. reflexivity.
  - intros [(t & Hl & _)|[e He]]; [|by rewrite Ht in He]. cbn [mini_views view_o mini_view v_shards] in Hl.
    rewrite map_lookup_imap, Hp in Hl. done.
Qed.
End Sweep.
