(* ===== verification/SweepExact.v ===== *)
(** * What the sweep leaves in the buffer table

    [Sweep] shows that the sweep loses nothing; a sweep that did nothing would lose nothing
    either.  Here: when no statement fails and the wallet's calls answer, one pool's sweep
    removes exactly the rows it is meant to.  A wallet need not know the tree size of every block
    it has scanned; a run whose blocks it cannot find stays, unless it can be built. *)

From S2P Require Export Sweep.

Module SweepExact.
Import GraftAccumulator Checkpoints SparseStore GraftBuffer GraftPlan PutBlocks Sweep.
Local Open Scope sweep_scope.

(** ** The table without some runs *)

Section Drops.
Context (pool : ShieldedPool).

Definition hits (x : Z * (Z * Z)) (k : Z * Z * Z) : Prop := k.1 = (pool_code pool, x.1) /\ GraftRuns.in_run x.2 k.2.
Definition drop_run (t : Table) (x : Z * (Z * Z)) : Table :=
  filter (fun p : Z * Z * Z * Enc => in_span pool x.1 (x.2.1, x.2.2 + 1) p.1 = false) t.
Definition dropped (t : Table) (drops : list (Z * (Z * Z))) : Table := foldl drop_run t drops.

Lemma in_span_hits x k : in_span pool x.1 (x.2.1, x.2.2 + 1) k = true <-> hits x k.
Proof.
  unfold in_span, hits, GraftRuns.in_run. cbn [fst snd]. rewrite !andb_true_iff, bool_decide_eq_true, Z.leb_le, Z.ltb_lt.
  split; [intros [[-> ?] ?]|intros (-> & ? & ?)]; split_and!; [done|lia|lia|done|lia|lia].
Qed.

Lemma dropped_none t drops k : t !! k = None -> dropped t drops !! k = None.
Proof. revert t. induction drops as [|z ds IH]; intros t Ht; [done|]. cbn. apply IH. apply map_lookup_filter_None. by left. Qed.
Lemma dropped_hit t drops k : (exists x, x ∈ drops /\ hits x k) -> dropped t drops !! k = None.
Proof.
  revert t. induction drops as [|x drops IH]; intros t (y & Hy & Hk); [by apply elem_of_nil in Hy|]. cbn.
  apply elem_of_cons in Hy as [->|Hy]; [|apply IH; eauto]. apply dropped_none. apply map_lookup_filter_None. right.
  intros e _. cbn [fst]. apply in_span_hits in Hk. by rewrite Hk.
Qed.
Lemma dropped_miss t drops k : (forall x, x ∈ drops -> ~ hits x k) -> dropped t drops !! k = t !! k.
Proof.
  revert t. induction drops as [|x drops IH]; intros t Hk; [done|]. cbn. rewrite IH by (intros y Hy; apply Hk; set_solver).
  assert (in_span pool x.1 (x.2.1, x.2.2 + 1) k = false) as Hf.
  { apply not_true_iff_false. rewrite in_span_hits. apply Hk. set_solver. }
  apply option_eq. intros e. unfold drop_run. rewrite map_lookup_filter_Some. cbn [fst]. rewrite Hf. naive_solver.
Qed.
Lemma dropped_app t d1 d2 : dropped t (d1 ++ d2) = dropped (dropped t d1) d2.
Proof. apply foldl_app. Qed.

Lemma dropped_shard t drops shard : (forall x, x ∈ drops -> x.1 <> shard) -> shard_rows pool shard (dropped t drops) = shard_rows pool shard t.
Proof.
  intros Hne. apply shard_rows_unique; [apply shard_rows_sorted|]. intros p e. rewrite elem_of_shard_rows, dropped_miss; [done|].
  intros x Hx [Hk _]. cbn in Hk. injection Hk as Hk. by apply (Hne x Hx).
Qed.
End Drops.

Section Exact.
Context {W H T C Fr : Type} `{!EqDecision H} `{!HashSer H} (PL : PoolLib W H T C Fr) `{!ShardLeaves H T} `{!SweepLib W}.
Context (fault : nat -> option string) (inp : SweepInputs) (pool : ShieldedPool).
Context (cov : T -> Z -> Prop) (v : TreeView W T C).
Context {DL : TreeDbLaws v.(v_shards) v.(v_cap) v.(v_cps) v.(v_retained)} {TL : TreeLaws (PL := PL) cov}.
Abbreviation Store := (SparseShardStore T C).

Definition same_sizes (d d' : W) : Prop := forall h, tree_size_at pool d' h = tree_size_at pool d h.

(** Every call answers; a rescan writes no tree, and neither a rescan nor a flush writes a
    block's sizes. *)
Class Healthy : Prop := {
  no_fault n : fault n = None;
  sizes_answer d h e : tree_size_at pool d h <> Err e;
  queues r d : exists d', queue_rescan r d = Ok d' /\ same_tree v d d' /\ same_sizes d d';
  seeds d : exists s, seed pl_cap inp.(sweep_anchors) d = Ok s;
  roots_answer i d : exists o, get_subtree_root i d = Ok o;
  writes ts c rm add d : exists d', put_shards ts c rm add d = (d', Ok tt) /\ same_sizes d d';
  retains h d : exists d', ensure_retained h d = (d', Ok tt) /\ same_sizes d d';
}.
Context {HL : Healthy}.

(** From [d] to [d'] the known sizes are the same, and the tree lost nothing; or is the same. *)
Definition grows (d d' : W) : Prop := same_sizes d d' /\ forall p, in_tree cov v d p -> in_tree cov v d' p.
Definition still (d d' : W) : Prop := same_sizes d d' /\ same_tree v d d'.
#[local] Instance same_sizes_preorder : PreOrder same_sizes.
Proof. split; [by intros d h|]. intros d1 d2 d3 A B h. by rewrite B, A. Qed.
#[local] Instance grows_preorder : PreOrder grows.
Proof. split; [by intros d|]. intros d1 d2 d3 [A A'] [B B']. split; [by etransitivity|auto]. Qed.
#[local] Instance still_preorder : PreOrder still.
Proof. split; [by intros d|]. intros d1 d2 d3 [A A'] [B B']. split; [by etransitivity|by eapply same_tree_trans]. Qed.
Lemma still_grows d d' : still d d' -> grows d d'.
Proof. intros [A B]. split; [exact A|]. intros p. by apply in_tree_same. Qed.

(** *** Runs the wallet can place *)

Definition placeable (d : W) (run : Z * Z) : bool :=
  match GraftRuns.rescans_for (tree_size_at pool d) run inp.(stretches) with Ok (Some _) => true | _ => false end.
Lemma placeable_same d d' run : same_sizes d d' -> placeable d' run = placeable d run.
Proof. intros Hs. unfold placeable. by rewrite (GraftRuns.rescans_for_ext _ _ _ _ Hs). Qed.

(** What became of some runs: those the wallet can place are gone, and of the others some may be,
    which are in the tree. *)
Definition outcome (d0 : W) (runs gone : list (Z * (Z * Z))) (d : W) : Prop :=
  gone ⊆ runs /\ (forall x, x ∈ runs -> placeable d0 x.2 = true -> x ∈ gone) /\
  (forall x, x ∈ gone -> placeable d0 x.2 = true \/ forall p, GraftRuns.in_run x.2 p -> in_tree cov v d p).
Lemma outcome_nil d0 d : outcome d0 [] [] d.
Proof. split; [done|]. split; [done|]. intros x Hx. by apply elem_of_nil in Hx. Qed.
Lemma outcome_app d0 r1 g1 d1 r2 g2 d2 : outcome d0 r1 g1 d1 -> grows d1 d2 -> outcome d0 r2 g2 d2 -> outcome d0 (r1 ++ r2) (g1 ++ g2) d2.
Proof.
  intros (A & B & D) [_ G] (A' & B' & D'). split; [set_solver|]. split.
  - intros x [Hx|Hx]%elem_of_app Hp; apply elem_of_app; [left|right]; auto.
  - intros x [Hx|Hx]%elem_of_app; [|by apply D']. destruct (D x Hx); [by left|right; auto].
Qed.

(** *** Each call *)

Lemma execute_ok f w : exists w' : World W, execute fault f w = (w', Ok tt) /\ w'.(table) = f w.(table) /\ w'.(wallet) = w.(wallet).
Proof. unfold execute. rewrite no_fault. by eexists. Qed.
Lemma select_ok {A} (f : Table -> result SqliteClientError A) (w : World W) :
  exists w', select fault f w = (w', f w.(table)) /\ w'.(table) = w.(table) /\ w'.(wallet) = w.(wallet).
Proof. unfold select. rewrite no_fault. by eexists. Qed.

Lemma queue_all_ok rs w : exists w', queue_all fault rs w = (w', Ok tt) /\ w'.(table) = w.(table) /\ still w.(wallet) w'.(wallet).
Proof.
  revert w. induction rs as [|r rs IH]; intros w; cbn [queue_all]; [by eexists|].
  unfold bind, transactionally. destruct (queues r w.(wallet)) as (d & -> & Ht & Hz). cbn [result_bind]. rewrite no_fault.
  match goal with |- context [queue_all fault rs ?w1] => destruct (IH w1) as (w' & -> & Ht' & S) end. exists w'. split; [done|].
  split; [done|]. transitivity d; [by split|exact S].
Qed.

Lemma queue_rescans_ok run s w : exists w' s', queue_rescans fault inp.(stretches) pool run s w = (w', (s', Ok (placeable w.(wallet) run))) /\
  w'.(table) = w.(table) /\ still w.(wallet) w'.(wallet).
Proof.
  unfold queue_rescans, sbind at 1, effect at 1, read, placeable.
  destruct (GraftRuns.rescans_no_error (tree_size_at pool w.(wallet)) run inp.(stretches)) as [[rs|] ->]; [intros; apply sizes_answer| |].
  - unfold sbind, effect. destruct (queue_all_ok rs w) as (w' & -> & Ht & S). cbn. eauto.
  - cbn. by do 2 eexists.
Qed.

Lemma delete_ok shard run w : exists w' : World W, delete_rows_in fault pool shard (run.1, run.2 + 1) w = (w', Ok tt) /\
  w'.(table) = dropped pool w.(table) [(shard, run)] /\ w'.(wallet) = w.(wallet).
Proof. apply execute_ok. Qed.

Definition given_up (d : W) (shard : Z) (run : Z * Z) : list (Z * (Z * Z)) := if placeable d run then [(shard, run)] else [].
Lemma given_up_outcome d0 shard run d : outcome d0 [(shard, run)] (given_up d0 shard run) d.
Proof.
  unfold given_up. destruct (placeable d0 run) eqn:Ep.
  - split; [done|]. split; [done|]. intros x ->%list_elem_of_singleton. by left.
  - split; [set_solver|]. split; [|intros x Hx; by apply elem_of_nil in Hx]. intros x ->%list_elem_of_singleton. cbn. by rewrite Ep.
Qed.

Lemma discard_ok shard run s w : exists w' s', discard_run fault inp pool shard run s w = (w', (s', Ok tt)) /\
  w'.(table) = dropped pool w.(table) (given_up w.(wallet) shard run) /\ still w.(wallet) w'.(wallet).
Proof.
  unfold discard_run, sbind at 1, given_up. destruct (queue_rescans_ok run s w) as (w1 & s1 & -> & T1 & S1).
  destruct (placeable w.(wallet) run); [|cbn; eauto].
  unfold sbind, effect. destruct (delete_ok shard run w1) as (w2 & -> & T2 & W2). rewrite T1 in T2. cbn. do 2 eexists.
  split; [done|]. split; [done|]. by rewrite W2.
Qed.

Lemma undecodable_ok shard runs s w : exists w' s', undecodable_runs fault inp.(stretches) pool shard runs s w = (w', (s', Ok tt)) /\
  w'.(table) = dropped pool w.(table) (runs ≫= given_up w.(wallet) shard) /\ still w.(wallet) w'.(wallet).
Proof.
  revert s w. induction runs as [|run runs IH]; intros s w; cbn [undecodable_runs]; [by do 2 eexists|].
  unfold sbind at 1, tried at 1. destruct (queue_rescans_ok run s w) as (w1 & s1 & -> & T1 & S1).
  assert (forall d, same_sizes w.(wallet) d -> runs ≫= given_up d shard = runs ≫= given_up w.(wallet) shard) as Hsame.
  { intros d Hd. apply list_bind_ext; [|done]. intros run'. unfold given_up. by rewrite (placeable_same _ _ _ Hd). }
  csimpl. rewrite dropped_app. unfold given_up at 1. destruct (placeable w.(wallet) run).
  - unfold sbind at 1 2, tried at 1, effect at 1. destruct (delete_ok shard run w1) as (w2 & -> & T2 & W2). cbn.
    match goal with |- context [undecodable_runs _ _ _ _ runs ?s2 ?w2] => destruct (IH s2 w2) as (w3 & s3 & -> & T3 & S3) end.
    rewrite W2 in S3, T3. do 2 eexists. split; [done|]. split; [|by transitivity w1.(wallet)].
    rewrite T3, T2, T1, Hsame by apply S1. done.
  - unfold sbind at 1. cbn. destruct (IH s1 w1) as (w3 & s3 & -> & T3 & S3).
    do 2 eexists. split; [done|]. split; [|by transitivity w1.(wallet)]. rewrite T3, T1, Hsame by apply S1. done.
Qed.

(** *** The build *)

(** The shards the wallet has, and those to be written, are in memory. *)
Definition in_memory (s : Store) : Prop := s.(db_shard_indices) ⊆ dom s.(shards) /\ s.(dirty_shards) ⊆ dom s.(shards).

Lemma in_memory_steps s ops : in_memory s -> in_memory (foldl step s ops).
Proof.
  revert s. induction ops as [|o ops IH]; intros s Hs; [done|]. cbn. apply IH. destruct Hs as [H1 H2].
  destruct o as [t| | | |id f| |]; try done.
  - split; cbn; rewrite dom_insert_L; set_solver.
  - unfold in_memory. cbn. unfold update_checkpoint_with. destruct (_ !! id) as [cp|]; [by destruct (f cp)|done].
Qed.

Lemma in_memory_shard s i : in_memory s -> exists o, get_shard i s = Ok o.
Proof.
  intros [H1 _]. unfold get_shard. destruct (s.(shards) !! i) eqn:E; [eauto|]. rewrite bool_decide_eq_false_2; [eauto|].
  intros Hi. apply H1, elem_of_dom in Hi as [t Ht]. by rewrite E in Ht.
Qed.

Lemma flushed_ok s d : in_memory s -> exists d', flushed s d = Ok (d', clean s) /\ same_sizes d d'.
Proof.
  intros [_ Hd]. unfold flushed, flush. destruct (checkpoint_delta s) as [rm add].
  assert (exists ts, collect_dirty (btree_keys s.(dirty_shards)) s = Ok ts) as [ts ->].
  { assert (forall i, i ∈ btree_keys s.(dirty_shards) -> is_Some (s.(shards) !! i)) as Hin.
    { intros i Hi. apply elem_of_dom, Hd. unfold btree_keys in Hi. by rewrite merge_sort_Permutation, elem_of_elements in Hi. }
    induction (btree_keys s.(dirty_shards)) as [|i l IH]; cbn; [eauto|]. destruct (Hin i) as [t ->]; [set_solver|].
    destruct IH as [ts ->]; [intros; apply Hin; set_solver|]. cbn. eauto. }
  destruct (writes ts (if s.(cap_dirty) then Some s.(cap) else None) rm add d) as (d1 & -> & Z1).
  assert (forall l d, exists d', mark_retained l d = (d', Ok tt) /\ same_sizes d d') as Hm.
  { induction l as [|h l IH]; intros d0; cbn; [eexists; split; [done|reflexivity]|]. destruct (retains h d0) as (d2 & -> & Z2).
    destruct (IH d2) as (d3 & -> & Z3). exists d3. split; [done|by etransitivity]. }
  destruct (Hm (filter (fun h => h ∈ s.(retained)) add.*1) d1) as (d2 & -> & Z2). exists d2. split; [done|by etransitivity].
Qed.

(** A tree the sweep holds. *)
Definition held (tree : Store) (d : W) : Prop := in_memory tree /\ in_step (PL := PL) v tree d.

Lemma sweep_run_ok tree shard run rows root s w : held tree w.(wallet) -> exists w' s' tree' gone,
  sweep_run PL fault inp pool tree shard run rows root s w = (w', (s', Ok (tree', Ok tt))) /\ held tree' w'.(wallet) /\
  w'.(table) = dropped pool w.(table) gone /\ outcome w.(wallet) [(shard, run)] gone w'.(wallet) /\ grows w.(wallet) w'.(wallet).
Proof.
  intros [Hmem Hst]. unfold sweep_run. destruct (in_memory_shard tree shard Hmem) as [kept ->].
  destruct (discard_ok shard run s w) as (w1 & s1 & Ed & T1 & S1).
  assert (exists w' s' tree' gone, (let% r := tried (discard_run fault inp pool shard run) in sret (tree, r)) s w = (w', (s', Ok (tree', Ok tt))) /\
    held tree' w'.(wallet) /\ w'.(table) = dropped pool w.(table) gone /\ outcome w.(wallet) [(shard, run)] gone w'.(wallet) /\ grows w.(wallet) w'.(wallet)) as Hgive.
  { unfold sbind, tried. rewrite Ed. cbn. do 4 eexists. split; [done|]. split; [split; [exact Hmem|by eapply in_step_same; [apply S1|]]|].
    split; [exact T1|]. split; [apply given_up_outcome|by apply still_grows]. }
  destruct (GraftRuns.rows_cover_run rows run) eqn:Ec; [|exact Hgive].
  destruct (GraftRuns.end_check _ _ _) as [check|]; [|exact Hgive].
  destruct (insert_checked PL inp pool tree shard rows check) as [built|] eqn:Ei; [|exact Hgive].
  apply (insert_checked_evolves PL pool cov inp _ _ _ run) in Ei as Hev; [|exact Ec]. pose proof Hev as [[ops Eb] _].
  assert (in_memory built) as Hb by (rewrite Eb; by apply in_memory_steps). unfold sbind at 1, tried at 1, effect at 1, transactionally.
  destruct (flushed_ok _ w.(wallet) Hb) as (d & Ef & Hz). rewrite Ef, no_fault. unfold sbind at 1, tried at 1, effect at 1.
  match goal with |- context [delete_rows_in _ _ _ _ ?w2] => destruct (delete_ok shard run w2) as (w3 & -> & T3 & W3) end.
  destruct (flushed_in_step cov v (GraftRuns.in_run run) tree w.(wallet) w.(wallet) built d (clean built) Hst) as [Hst' Hin]; [by split_and!|exact Hev|exact Ef|].
  cbn in W3 |- *. cbn [table] in T3. do 4 eexists. split; [done|]. rewrite W3. split; [split; [|exact Hst']; split; [apply Hb|cbn; set_solver]|].
  split; [exact T3|]. split; [|split; [exact Hz|auto]]. split; [done|]. split; [done|].
  intros x ->%list_elem_of_singleton. right. cbn. auto.
Qed.

Lemma outcome_same d0 d1 runs gone d : same_sizes d0 d1 -> outcome d1 runs gone d -> outcome d0 runs gone d.
Proof.
  intros Hs (A & B & D). split; [exact A|]. split.
  - intros x Hx Hp. apply B; [exact Hx|]. by rewrite (placeable_same _ _ _ Hs).
  - intros x Hx. destruct (D x Hx) as [Hp|]; [left|by right]. by rewrite <-(placeable_same _ _ _ Hs).
Qed.

Lemma sweep_runs_ok tree shard rows root runs s w : held tree w.(wallet) -> exists w' s' tree' gone,
  sweep_runs PL fault inp pool tree shard rows root runs s w = (w', (s', Ok tree')) /\ held tree' w'.(wallet) /\
  w'.(table) = dropped pool w.(table) gone /\ outcome w.(wallet) ((shard,.) <$> runs) gone w'.(wallet) /\ grows w.(wallet) w'.(wallet).
Proof.
  revert tree s w. induction runs as [|run runs IH]; intros tree s w Hh; cbn [sweep_runs].
  { exists w, s, tree, []. split; [done|]. split; [done|]. split; [done|]. split; [apply outcome_nil|reflexivity]. }
  unfold sbind. destruct (sweep_run_ok tree shard run (run_rows run rows) root s w Hh) as (w1 & s1 & tree1 & g1 & -> & H1 & T1 & O1 & G1). cbn [fst].
  destruct (IH tree1 s1 w1 H1) as (w2 & s2 & tree2 & g2 & -> & H2 & T2 & O2 & G2). exists w2, s2, tree2, (g1 ++ g2). split; [done|]. split; [done|].
  split; [by rewrite T2, T1, dropped_app|]. split; [|by etransitivity].
  apply (outcome_app _ [_] g1 w1.(wallet) _ g2); [exact O1|exact G2|]. eapply outcome_same; [apply G1|exact O2].
Qed.

Lemma sweep_shards_ok tree stranded s w : held tree w.(wallet) -> exists w' s' gone,
  sweep_shards PL fault inp pool tree stranded s w = (w', (s', Ok tt)) /\ w'.(table) = dropped pool w.(table) gone /\
  outcome w.(wallet) (stranded ≫= (fun x => (x.1.1,.) <$> x.1.2)) gone w'.(wallet) /\ grows w.(wallet) w'.(wallet).
Proof.
  revert tree s w. induction stranded as [|[[shard runs] rows] stranded IH]; intros tree s w Hh; cbn [sweep_shards].
  { exists w, s, []. split; [done|]. split; [done|]. split; [apply outcome_nil|reflexivity]. }
  unfold sbind at 1, tried at 1, effect at 1, read. destruct (roots_answer shard w.(wallet)) as [root ->].
  unfold sbind. destruct (sweep_runs_ok tree shard rows root runs s w Hh) as (w1 & s1 & tree1 & g1 & -> & H1 & T1 & O1 & G1).
  destruct (IH tree1 s1 w1 H1) as (w2 & s2 & g2 & -> & T2 & O2 & G2). exists w2, s2, (g1 ++ g2). split; [done|].
  split; [by rewrite T2, T1, dropped_app|]. csimpl. split; [|by etransitivity].
  apply (outcome_app _ _ g1 w1.(wallet)); [exact O1|exact G2|by eapply outcome_same; [apply G1|]].
Qed.

(** *** Which rows go *)

Definition positions_of (t : Table) (shard : Z) : list Z := (shard_rows pool shard t).*1.
Definition decoded (t : Table) (shard : Z) : result SqliteClientError (list (BufferRow H)) := decode_rows (shard_rows pool shard t).

(** The runs of a shard that are given up undecoded, and those that are swept once decoded. *)
Definition undecoded_drops (d : W) (t : Table) (shard : Z) : list (Z * (Z * Z)) :=
  match decoded t shard with Ok _ => [] | Err _ => GraftRuns.contiguous_runs (positions_of t shard) ≫= given_up d shard end.
Definition stranded_of (seeders : gmap Z Z) (t : Table) (shard : Z) : option (Z * list (Z * Z) * list (BufferRow H)) :=
  match decoded t shard with
  | Ok rows => let runs := GraftRuns.stranded_runs (positions_of t shard) (seeders !! shard) in
               if bool_decide (runs = []) then None else Some (shard, runs, rows)
  | Err _ => None
  end.

Lemma decode_fails es e : decode_rows (H := H) es = Err e -> will_not_decode e = true.
Proof.
  revert e. induction es as [|[p x] es IH]; intros e; cbn; [done|]. unfold decode_row. destruct (hash_read _) as [h|]; cbn; [|by intros [= <-]].
  destruct (decode_retention _ _ _) as [r|e'] eqn:Er; cbn.
  - destruct (decode_rows es) as [rows|e'']; cbn; [done|]. intros [= <-]. by apply IH.
  - intros [= <-]. unfold decode_retention in Er. repeat case_match; by simplify_eq.
Qed.

Lemma elem_of_given_up d shard runs x : x ∈ runs ≫= given_up d shard <-> x.1 = shard /\ x.2 ∈ runs /\ placeable d x.2 = true.
Proof.
  rewrite list_elem_of_bind. unfold given_up. split.
  - intros (run & Hx & Hr). destruct (placeable d run) eqn:Ep; [|by apply elem_of_nil in Hx]. apply list_elem_of_singleton in Hx as ->. done.
  - destruct x as [i run]. cbn. intros (-> & Hr & Hp). exists run. rewrite Hp. split; [by apply list_elem_of_singleton|done].
Qed.
Lemma undecoded_same d d' t shard : same_sizes d d' -> undecoded_drops d' t shard = undecoded_drops d t shard.
Proof.
  intros Hs. unfold undecoded_drops. destruct (decoded t shard); [done|]. apply list_bind_ext; [|done]. intros run. unfold given_up.
  by rewrite (placeable_same _ _ _ Hs).
Qed.

Lemma read_shards_ok seeders shards t0 s w : NoDup shards ->
  (forall i, i ∈ shards -> shard_rows pool i w.(table) = shard_rows pool i t0) -> exists w' s',
  read_shards (H := H) fault inp pool seeders shards s w = (w', (s', Ok (omap (stranded_of seeders t0) shards))) /\
  w'.(table) = dropped pool w.(table) (shards ≫= undecoded_drops w.(wallet) t0) /\ still w.(wallet) w'.(wallet).
Proof.
  revert s w. induction shards as [|i shards IH]; intros s w Hnd Heq; cbn [read_shards]; [by do 2 eexists|].
  apply NoDup_cons in Hnd as [Hi Hnd]. assert (shard_rows pool i w.(table) = shard_rows pool i t0) as Hsame by (apply Heq; set_solver).
  unfold sbind at 1, tried at 1, effect at 1. unfold buffered_positions.
  match goal with |- context [select fault ?f w] => destruct (select_ok f w) as (w1 & -> & T1 & W1) end.
  unfold sbind at 1, tried at 1, effect at 1, load_shard.
  match goal with |- context [select fault ?f w1] => destruct (select_ok f w1) as (w2 & -> & T2 & W2) end.
  rewrite T1 in T2. rewrite W1 in W2. rewrite T1, Hsame. cbn [omap list_omap bind list_bind mbind].
  assert (stranded_of seeders t0 i = match decode_rows (shard_rows pool i t0) with
    | Ok rows => let runs := GraftRuns.stranded_runs (shard_rows pool i t0).*1 (seeders !! i) in if bool_decide (runs = []) then None else Some (i, runs, rows)
    | Err _ => None end) as Es by done.
  assert (undecoded_drops w.(wallet) t0 i = match decode_rows (H := H) (shard_rows pool i t0) with Ok _ => []
    | Err _ => GraftRuns.contiguous_runs (shard_rows pool i t0).*1 ≫= given_up w.(wallet) i end) as Eu by done.
  rewrite Es, Eu. destruct (decode_rows (shard_rows pool i t0)) as [rows|e] eqn:Ed.
  - unfold sbind. destruct (IH s w2 Hnd) as (w3 & s3 & -> & T3 & S3); [intros j Hj; rewrite T2; apply Heq; set_solver|].
    do 2 eexists. rewrite W2 in S3, T3. split; [|split; [by rewrite T3, T2|done]]. cbv zeta. by destruct (bool_decide _).
  - rewrite (decode_fails _ _ Ed). unfold sbind, undecodable_shard.
    destruct (undecodable_ok i (GraftRuns.contiguous_runs (shard_rows pool i t0).*1) s w2) as (w3 & s3 & -> & T3 & S3). rewrite W2 in T3, S3.
    destruct (IH s3 w3 Hnd) as (w4 & s4 & -> & T4 & S4).
    + intros j Hj. rewrite T3, T2, dropped_shard; [apply Heq; set_solver|]. intros x (E1 & _)%elem_of_given_up E2. apply Hi. by rewrite <-E1, E2.
    + do 2 eexists. split; [done|]. split; [|by etransitivity]. rewrite T4, T3, T2, dropped_app. f_equal.
      apply list_bind_ext; [|done]. intros j. apply undecoded_same, S3.
Qed.

Definition seeders_of (w : World W) : gmap Z Z :=
  if inp.(graft_resumes) then
    match historic_starts pool inp.(pending) w with (_, Ok starts) => GraftRuns.first_seeders starts | _ => ∅ end
  else ∅.

(** A run the sweep is to settle: any of a shard whose rows do not all decode, or one that no
    range will resume. *)
Definition to_settle (w : World W) (shard : Z) (run : Z * Z) : Prop :=
  run ∈ match decoded w.(table) shard with
        | Ok _ => GraftRuns.stranded_runs (positions_of w.(table) shard) (seeders_of w !! shard)
        | Err _ => GraftRuns.contiguous_runs (positions_of w.(table) shard)
        end.

Lemma historic_ok l w : exists starts, historic_starts pool l w = (w, Ok starts).
Proof.
  induction l as [|range l [starts IH]]; cbn [historic_starts]; [by eexists|]. destruct (bool_decide _); [|by eexists].
  unfold bind, read. assert (exists o, range_start_position pool range w.(wallet) = Ok o) as [o ->].
  { unfold range_start_position. destruct (1 <=? _); [|eauto]. destruct (tree_size_at pool _ _) as [|e] eqn:E; [eauto|].
    by apply sizes_answer in E. }
  rewrite IH. by eexists.
Qed.

Lemma positions_sorted t shard : StronglySorted Z.lt (positions_of t shard).
Proof. eapply (StronglySorted_fmap fst (fun p q : Z * Enc => p.1 < q.1)); [done|apply shard_rows_sorted]. Qed.

Lemma to_settle_run w shard run : to_settle w shard run -> run ∈ GraftRuns.contiguous_runs (positions_of w.(table) shard).
Proof. unfold to_settle. destruct (decoded w.(table) shard); [|done]. by intros [_ ?]%list_elem_of_filter. Qed.

(** The runs of the shards, once in each of the two lists. *)
Definition stranded_list (w : World W) (shards : list Z) : list (Z * (Z * Z)) :=
  omap (stranded_of (seeders_of w) w.(table)) shards ≫= (fun x => (x.1.1,.) <$> x.1.2).
Lemma elem_of_stranded w shards x : x ∈ stranded_list w shards <-> x.1 ∈ shards /\ is_ok (decoded w.(table) x.1) = true /\ to_settle w x.1 x.2.
Proof.
  unfold stranded_list, to_settle. rewrite list_elem_of_bind. split.
  - intros (y & (run & -> & Hr)%list_elem_of_fmap & (j & Hj & Ej)%list_elem_of_omap). cbn [fst snd]. unfold stranded_of in Ej.
    destruct (decoded w.(table) j) as [rows|] eqn:Ed; [|done]. cbv zeta in Ej. destruct (bool_decide _); [done|]. injection Ej as <-. cbn in *.
    by rewrite Ed.
  - destruct x as [i run]. cbn [fst snd]. intros (Hi & Hd & Hr). destruct (decoded w.(table) i) as [rows|] eqn:Ed; [|done].
    exists (i, GraftRuns.stranded_runs (positions_of w.(table) i) (seeders_of w !! i), rows). split; [cbn; by apply list_elem_of_fmap_2|].
    apply list_elem_of_omap. exists i. split; [exact Hi|]. unfold stranded_of. rewrite Ed. cbv zeta.
    rewrite bool_decide_eq_false_2; [done|]. intros En. rewrite En in Hr. by apply elem_of_nil in Hr.
Qed.
Lemma elem_of_undecoded w shards x : x ∈ shards ≫= undecoded_drops w.(wallet) w.(table) <->
  x.1 ∈ shards /\ is_ok (decoded w.(table) x.1) = false /\ to_settle w x.1 x.2 /\ placeable w.(wallet) x.2 = true.
Proof.
  rewrite list_elem_of_bind. unfold undecoded_drops, to_settle. split.
  - intros (j & Hx & Hj). destruct (decoded w.(table) j) eqn:Ed; [by apply elem_of_nil in Hx|]. apply elem_of_given_up in Hx as (-> & Hr & Hp).
    by rewrite Ed.
  - intros (Hi & Hd & Hr & Hp). exists x.1. split; [|exact Hi]. destruct (decoded w.(table) x.1); [done|]. by apply elem_of_given_up.
Qed.

Lemma sweep_pool_ok shards s w : NoDup shards -> exists w' s' gone, sweep_pool PL fault inp pool shards s w = (w', (s', Ok tt)) /\
  w'.(table) = dropped pool w.(table) ((shards ≫= undecoded_drops w.(wallet) w.(table)) ++ gone) /\
  outcome w.(wallet) (stranded_list w shards) gone w'.(wallet).
Proof.
  intros Hnd. unfold sweep_pool. destruct shards as [|i shards].
  { exists w, s, []. split; [done|]. split; [done|apply outcome_nil]. }
  set (seeding := if inp.(graft_resumes) then _ else _). unfold sbind at 1.
  assert (seeding s w = (w, (s, Ok (seeders_of w)))) as ->.
  { unfold seeding, seeders_of. destruct (inp.(graft_resumes)); [|done]. unfold sbind, effect.
    destruct (historic_ok inp.(pending) w) as [starts ->]. done. }
  unfold sbind at 1. destruct (read_shards_ok (seeders_of w) (i :: shards) w.(table) s w Hnd) as (w1 & s1 & -> & T1 & S1); [done|].
  unfold stranded_list. destruct (omap _ (i :: shards)) as [|x stranded].
  { exists w1, s1, []. rewrite app_nil_r. split; [done|]. split; [done|apply outcome_nil]. }
  unfold sbind, effect, seeded. destruct (seeds w1.(wallet)) as [tree Es]. rewrite Es.
  assert (held tree w1.(wallet)) as Hh.
  { apply (seed_in_step v) in Es as Hst. split; [|exact Hst]. destruct Hst as [[] _]. by split. }
  destruct (sweep_shards_ok tree (x :: stranded) s1 w1 Hh) as (w2 & s2 & gone & -> & T2 & O2 & _). exists w2, s2, gone. split; [done|].
  split; [by rewrite T2, T1, dropped_app|]. by eapply outcome_same; [apply S1|].
Qed.

Lemma sweep_pool_settles shards s w : NoDup shards -> (forall i p, is_Some (w.(table) !! (pool_code pool, i, p)) -> i ∈ shards) ->
  exists w' s', sweep_pool PL fault inp pool shards s w = (w', (s', Ok tt)) /\
    (forall shard run, to_settle w shard run ->
      if placeable w.(wallet) run then forall p, GraftRuns.in_run run p -> w'.(table) !! (pool_code pool, shard, p) = None
      else (forall p, GraftRuns.in_run run p -> w'.(table) !! (pool_code pool, shard, p) = w.(table) !! (pool_code pool, shard, p)) \/
           is_ok (decoded w.(table) shard) = true /\
           forall p, GraftRuns.in_run run p -> w'.(table) !! (pool_code pool, shard, p) = None /\ in_tree cov v w'.(wallet) p) /\
    (forall k, (forall run, k.1.1 = pool_code pool -> to_settle w k.1.2 run -> ~ GraftRuns.in_run run k.2) ->
      w'.(table) !! k = w.(table) !! k).
Proof.
  intros Hnd Hsh. destruct (sweep_pool_ok shards s w Hnd) as (w' & s' & gone & E & Ht & O1 & O2 & O3).
  exists w', s'. split; [exact E|]. rewrite Ht. set (all := _ ++ gone).
  assert (forall x, x ∈ all -> to_settle w x.1 x.2) as Hall.
  { intros x [(_ & _ & Hs & _)%elem_of_undecoded|(_ & _ & Hs)%O1%elem_of_stranded]%elem_of_app; exact Hs. }
  split; [|intros k Hk; apply dropped_miss; intros x Hx [Hk1 Hr]; apply (Hk x.2); [by rewrite Hk1|rewrite Hk1; by apply Hall|done]].
  intros shard run Hs. assert (shard ∈ shards) as Hin.
  { pose proof (to_settle_run _ _ _ Hs) as Hr. destruct (positions_of w.(table) shard) as [|q qs] eqn:Eq; [by apply elem_of_nil in Hr|].
    assert (q ∈ positions_of w.(table) shard) as (y & -> & Hy)%list_elem_of_fmap by (rewrite Eq; by apply elem_of_cons; left).
    destruct y as [q e]. apply elem_of_shard_rows in Hy. eapply Hsh. by exists e. }
  assert ((shard, run) ∈ all -> forall p, GraftRuns.in_run run p -> dropped pool w.(table) all !! (pool_code pool, shard, p) = None) as Hgone.
  { intros Hx p Hp. apply dropped_hit. by exists (shard, run). }
  destruct (placeable w.(wallet) run) eqn:Ep.
  - apply Hgone, elem_of_app. destruct (is_ok (decoded w.(table) shard)) eqn:Ed.
    + right. apply O2; [|exact Ep]. by apply elem_of_stranded.
    + left. by apply elem_of_undecoded.
  - destruct (decide ((shard, run) ∈ all)) as [Hx|Hx].
    + right. pose proof Hx as [(_ & _ & _ & Hp)%elem_of_undecoded|Hg]%elem_of_app; [cbn in Hp; by rewrite Ep in Hp|].
      split; [by apply O1, elem_of_stranded in Hg as (_ & Hd & _)|]. intros p Hp. split; [by apply Hgone|].
      destruct (O3 _ Hg) as [Hp'|Hi]; [cbn in Hp'; by rewrite Ep in Hp'|by apply Hi].
    + left. intros p Hp. apply dropped_miss. intros [i run'] Hy [Hk Hr]. cbn in Hk, Hr. injection Hk as <-. apply Hx.
      assert (run' = run) as ->; [|exact Hy]. pose proof (to_settle_run _ _ _ (Hall _ Hy)) as Hy'.
      eapply GraftRuns.contiguous_unique; [apply (positions_sorted w.(table) shard)|exact Hy'|by apply to_settle_run|exact Hr|exact Hp].
Qed.
End Exact.

Lemma elem_of_btree_keys (X : gset Z) i : i ∈ btree_keys X <-> i ∈ X.
Proof. unfold btree_keys. by rewrite merge_sort_Permutation, elem_of_elements. Qed.
Lemma btree_keys_NoDup (X : gset Z) : NoDup (btree_keys X).
Proof. unfold btree_keys. rewrite merge_sort_Permutation. apply NoDup_elements. Qed.

(** C7: The start sweep of a pool removes exactly what it should.  When no statement fails and the
    wallet's calls answer, whatever tree sizes the wallet knows, it goes through without an error.
    The runs it is to settle are all of a shard that does not decode, and otherwise those that no
    pending range resumes.  Of these, a run whose blocks the known sizes place is gone afterwards,
    whether it was built or given up; a run they do not place is still buffered, unless its shard
    decodes and all of it is in the pool's tree; and every other row of the table is as it was. *)
Theorem sweep_pool_exact {W H T C Fr : Type} `{!EqDecision H} `{!HashSer H} (PL : PoolLib W H T C Fr) `{!ShardLeaves H T} `{!SweepLib W}
    (fault : nat -> option string) (inp : SweepInputs) (pool : ShieldedPool)
    (cov : T -> Z -> Prop) (v : TreeView W T C) {DL : TreeDbLaws v.(v_shards) v.(v_cap) v.(v_cps) v.(v_retained)} {TL : TreeLaws (PL := PL) cov}
    {HL : Healthy PL fault inp pool v} s (w0 w : World W) shards :
  buffered_shards fault pool w0 = (w, Ok shards) ->
  exists w' s', sweep_pool PL fault inp pool shards s w = (w', (s', Ok tt)) /\
    (forall shard run, to_settle (H := H) inp pool w shard run ->
      let row p := (pool_code pool, shard, p) in
      if placeable inp pool w.(wallet) run then forall p, GraftRuns.in_run run p -> w'.(table) !! row p = None
      else (forall p, GraftRuns.in_run run p -> w'.(table) !! row p = w.(table) !! row p) \/
           is_ok (decoded (H := H) pool w.(table) shard) = true /\
           forall p, GraftRuns.in_run run p -> w'.(table) !! row p = None /\ in_tree cov v w'.(wallet) p) /\
    (forall k, (forall run, k.1.1 = pool_code pool -> to_settle (H := H) inp pool w k.1.2 run -> ~ GraftRuns.in_run run k.2) ->
      w'.(table) !! k = w.(table) !! k).
Proof.
  unfold buffered_shards, select. rewrite (no_fault PL fault inp pool v). intros [= <- <-].
  apply (sweep_pool_settles PL fault inp pool cov v); [apply btree_keys_NoDup|]. intros i p [e He].
  apply elem_of_btree_keys, elem_of_list_to_set, list_elem_of_omap. exists (pool_code pool, i, p, e).
  split; [by apply elem_of_map_to_list|]. cbn. by rewrite Z.eqb_refl.
Qed.

(** ** An instance *)

#[local] Existing Instances mini_shard mini_wallet mini_laws PutBlocks.byte_dec mini_sweep mini_leaves.

Definition sample_inputs : SweepInputs := mkInputs [Scheduler.mkScanRange 2 11 Scheduler.Historic] [(1, 2)] 10 true None.
(** Rows 0 and 1 of the shard end where the pending range starts; row 5 is stranded. *)
Definition resumable_world : World MiniWallet :=
  mkWorld (<[(2, 0, 0) := enc Byte.x02]> (<[(2, 0, 1) := enc Byte.x01]> (<[(2, 0, 5) := enc Byte.x03]> ∅)))
    (mkMini (fun _ => empty_pool) {[1]}) 0 [].

#[local] Instance mini_healthy : Healthy (mini_lib Sapling) (fun _ => None) sample_inputs Sapling (mini_view Sapling).
Proof.
  split; [done|done|by eexists| |by eexists|by eexists|by eexists].
  intros d. unfold seed. cbn [mini_lib pl_db mini_db db_shard_roots result_bind db_all_checkpoints db_get_cap].
  assert (forall l m, exists m', load_shards (TreeDb0 := mini_db Sapling) l d m = Ok m') as Hl.
  { induction l as [|i l IH]; intros m; cbn; [eauto|]. apply IH. }
  match goal with |- context [load_shards ?l d ?m] => destruct (Hl l m) as [m' ->] end. cbn. eauto.
Qed.

Lemma sweep_pool_exact_witness : exists w' s',
  sweep_pool (mini_lib Sapling) (fun _ => None) sample_inputs Sapling [0] sweep_default
    (resumable_world <| statements := 1%nat |>) = (w', (s', Ok tt)) /\
  w'.(table) !! (2, 0, 5) = None /\ w'.(table) !! (2, 0, 1) = Some (enc Byte.x01).
Proof.
  destruct (sweep_pool_exact (mini_lib Sapling) (fun _ => None) sample_inputs Sapling
    mini_covers (mini_view Sapling) (DL := mini_db_laws Sapling) (TL := mini_tree_laws Sapling)
    sweep_default resumable_world (resumable_world <| statements := 1%nat |>) [0]) as (w' & s' & E & Hrun & Hk); [vm_compute; reflexivity|].
  exists w', s'. split; [exact E|]. split.
  - specialize (Hrun 0 (5, 5)). cbv zeta in Hrun. replace (placeable _ _ _ _) with true in Hrun by (vm_compute; reflexivity).
    apply Hrun; [|by split]. apply (bool_decide_eq_true_1 ((5, 5) ∈ _)). vm_compute. reflexivity.
  - rewrite (Hk (2, 0, 1)); [vm_compute; reflexivity|]. intros run _ Hr Hin.
    assert (run ∈ [(5, 5)]) as Hr5 by exact Hr. apply list_elem_of_singleton in Hr5 as ->. destruct Hin as [Hin _]. cbn in Hin. lia.
Defined.

(** A run whose blocks the wallet cannot find stays buffered: without the sizes from block 3 on, and
    a shard that no range resumes, rows 0 and 1 can be placed and go, row 5 cannot. *)
Definition gap_sweep : SweepLib MiniWallet :=
  {| get_wallet_birthday := @get_wallet_birthday _ mini_sweep;
     suggest_scan_ranges := @suggest_scan_ranges _ mini_sweep;
     block_metadata h d := if h <? 3 then @block_metadata _ mini_sweep h d else Ok None;
     queue_rescan := @queue_rescan _ mini_sweep |}.
Definition gap_inputs : SweepInputs := mkInputs [] [(1, 2); (4, 6)] 10 false None.
Example unplaced_run_stays :
  (sweep_pool (SweepLib0 := gap_sweep) (mini_lib Sapling) (fun _ => None) gap_inputs Sapling [0] sweep_default resumable_world).1.(table)
    = {[(2, 0, 5) := enc Byte.x03]}.
Proof. vm_compute. reflexivity. Qed.
End SweepExact.
