(* ===== verification/WalletSession.v ===== *)
(** * The wallet session: [core/src/wallet_session.rs], [core/src/scan_queue.rs], [heal_flooded_checkpoints]

    Opening the wallet with its two repairs, the imports and truncations that rewind it, and
    where a pass's subtree-root requests start.

    A rewind takes blocks out of the wallet; the buffered graft rows of those blocks go with it,
    so that no range resumes them.  The wallet library is the interface [SessionDb]; the file is
    the [World] of [GraftBuffer]. *)

From S2P Require Export Sweep.
From S2P Require Import Grpc.

Module WalletSession.
Import GraftAccumulator SparseStore GraftBuffer GraftPlan PutBlocks Sweep.
Local Open Scope graft_scope.
#[local] Existing Instance Scheduler.scan_priority_eq_dec.

(** [AccountBirthday], as far as it is read. *)
Record Birthday := mkBirthday { prior_height : Z; birthday_sapling_size : Z; birthday_orchard_size : Z }.
#[export] Instance birthday_eq_dec : EqDecision Birthday.
Proof. solve_decision. Defined.

Class SessionDb (W Key : Type) := mkSessionDb {
  migrate : W -> result string W;
  prune_scan_queue_below : Z -> W -> result SqliteClientError (W * Z);
  get_account_ids : W -> result SqliteClientError (list Z);
  import_account_ufvk : Key -> Birthday -> W -> result SqliteClientError W;
  lib_truncate_to_height : Z -> W -> result SqliteClientError (W * Z);
  block_max_scanned : W -> result SqliteClientError (option BlockMetadata);
  get_wallet_recover_until : W -> result SqliteClientError (option Z);
  lib_update_chain_tip : Z -> W -> result SqliteClientError W;
  lib_shard_indices : ShieldedPool -> W -> result SqliteClientError (option (list Z));
  get_account_for_ufvk : Key -> W -> result SqliteClientError (option Z);
  lib_chain_height : W -> result SqliteClientError (option Z);
}.
(** How the library stores one pool's subtree roots from an index on. *)
Class RootsDb (W Hs Ho : Type) := mkRootsDb {
  put_sapling_subtree_roots : Z -> list (Z * Hs) -> W -> result SqliteClientError W;
  put_orchard_subtree_roots : Z -> list (Z * Ho) -> W -> result SqliteClientError W;
  put_ironwood_subtree_roots : Z -> list (Z * Ho) -> W -> result SqliteClientError W;
}.

Definition wallet_err (context e : string) : SlipstreamError := Wallet (context +:+ ": " +:+ e).

(** ** Repairs *)

Section Open.
Context {W Key : Type} `{!SweepLib W} `{!SessionDb W Key}.

(** [prune_orphaned_historic_ranges]. *)
Definition prune_orphaned_historic_ranges (d : W) : W * result SlipstreamError Z :=
  let err (context : string) (e : SqliteClientError) := Wallet ("scan-queue prune " +:+ context +:+ ": " +:+ sqlite_text e) in
  match get_wallet_birthday d with
  | Err e => (d, Err (err "wallet birthday" e))
  | Ok None => (d, Ok 0)
  | Ok (Some floor) =>
    match prune_scan_queue_below floor d with
    | Err e => (d, Err (err "prune" e))
    | Ok (d', n) => (d', Ok n)
    end
  end.

(** A pool's checkpoint store inside the wallet: [with_sapling_tree_mut] and the others, which
    undo the closure's changes when it fails; [None]: the wallet has no such pool. *)
Context {S E : Type} `{!CheckpointStore S E} (with_tree_mut : forall A, ShieldedPool -> (S -> S * result E A) -> W -> W * result string (option A)).
Arguments with_tree_mut {A}.

(** [heal_flooded_checkpoints]. *)
Definition heal_flooded_checkpoints (d : W) : W * result SlipstreamError Z :=
  let heal_err (pool e : string) := Wallet ("checkpoint heal (" +:+ pool +:+ "): " +:+ e) in
  match with_tree_mut Sapling heal_pool_checkpoints d with
  | (d, Err e) => (d, Err (heal_err "sapling" e))
  | (d, Ok n1) =>
    match with_tree_mut Orchard heal_pool_checkpoints d with
    | (d, Err e) => (d, Err (heal_err "orchard" e))
    | (d, Ok n2) =>
      match with_tree_mut Ironwood heal_pool_checkpoints d with
      | (d, Err e) => (d, Err (heal_err "ironwood" e))
      | (d, Ok n3) => (d, Ok (default 0 n1 + default 0 n2 + default 0 n3))
      end
    end
  end.

(** The first failure of a list of labelled steps. *)
Fixpoint first_error (steps : list (string * option string)) : option SlipstreamError :=
  match steps with
  | [] => None
  | (context, Some e) :: _ => Some (wallet_err context e)
  | (_, None) :: steps' => first_error steps'
  end.

(** [WalletSession::open]; [steps]: how each of [open_steps] ended.  The repairs' failures are
    only logged. *)
Definition open_steps : list string :=
  ["create wallet dir"; "pre-open"; "set busy_timeout"; "set WAL"; "set synchronous"; "open wallet db"; "set busy_timeout (wallet)"; "load array vtab"].
Definition open (steps : list (option string)) (d : W) : W * result SlipstreamError unit :=
  match first_error (zip open_steps steps) with
  | Some e => (d, Err e)
  | None =>
    match migrate d with
    | Err e => (d, Err (wallet_err "init/migrations" e))
    | Ok d =>
      let '(d, _) := prune_orphaned_historic_ranges d in
      let '(d, _) := heal_flooded_checkpoints d in
      (d, Ok tt)
    end
  end.
End Open.

(** ** Subtree roots *)

(** [next_subtree_root_index]. *)
Definition next_subtree_root_index (stored : list Z) : Z :=
  if bool_decide (stored = seqZ 0 (Z.of_nat (length stored))) then sat_sub (Z.of_nat (length stored)) 2 else 0.

(** Requests from the index it gives leave no gap: the shards below it are all stored, with a
    complete one among them to overlap as soon as there are two. *)
Lemma next_index_spec stored : let i := next_subtree_root_index stored in
  0 <= i /\ (forall j, 0 <= j < i + 2 -> 0 < i -> j ∈ stored) /\ (0 < i -> i = Z.of_nat (length stored) - 2).
Proof.
  unfold next_subtree_root_index. cbv zeta. case_bool_decide as Hs; [|split_and!; [done|intros; lia|lia]]. unfold sat_sub. split; [lia|]. split; [|lia].
  intros j Hj Hi. rewrite Hs. apply elem_of_seqZ. lia.
Qed.

Section Session.
Context {W Key : Type} `{!SweepLib W} `{!SessionDb W Key} (fault : nat -> option string).

Definition labelled_read {A} (context : string) (r : result SqliteClientError A) : Res A :=
  match r with Ok a => Ok a | Err e => Err (wallet_err context (sqlite_text e)) end.

(** [max_recover_until], [min_birthday], [suggest_scan_ranges], [has_historic_scan_ranges]. *)
Definition max_recover_until (d : W) : Res (option Z) := labelled_read "wallet recover_until" (get_wallet_recover_until d).
Definition min_birthday (d : W) : Res (option Z) := labelled_read "wallet birthday" (get_wallet_birthday d).
Definition session_scan_ranges (d : W) : Res (list Scheduler.ScanRange) := labelled_read "suggest_scan_ranges" (suggest_scan_ranges d).
Definition has_historic_scan_ranges (d : W) : Res bool :=
  match session_scan_ranges d with
  | Err e => Err e
  | Ok ranges => Ok (existsb (fun r => bool_decide (r.(Scheduler.priority) = Scheduler.Historic)) ranges)
  end.

(** [stored_shard_indices], [next_subtree_root_start]. *)
Definition stored_shard_indices (d : W) : Res (list Z * list Z * list Z) :=
  match labelled_read "sapling shard indices" (lib_shard_indices Sapling d) with
  | Err e => Err e
  | Ok s =>
    match labelled_read "orchard shard indices" (lib_shard_indices Orchard d) with
    | Err e => Err e
    | Ok o =>
      match labelled_read "ironwood shard indices" (lib_shard_indices Ironwood d) with
      | Err e => Err e
      | Ok i => Ok (default [] s, default [] o, default [] i)
      end
    end
  end.
Definition next_subtree_root_start (d : W) : Res Grpc.SubtreeRootStart :=
  match stored_shard_indices d with
  | Err e => Err e
  | Ok (s, o, i) => Ok (Grpc.mkStart (next_subtree_root_index s) (next_subtree_root_index o) (next_subtree_root_index i))
  end.

(** [has_account_for_ufvk], [chain_height]. *)
Definition has_account_for_ufvk (ufvk : Key) (d : W) : Res bool :=
  match labelled_read "get_account_for_ufvk" (get_account_for_ufvk ufvk d) with
  | Err e => Err e
  | Ok account => Ok (match account with Some _ => true | None => false end)
  end.
Definition chain_height (d : W) : Res (option Z) := labelled_read "chain_height" (lib_chain_height d).

(** [tx_set_signature]: how the side connection opened, and the two counts its query gave. *)
Definition tx_set_signature (opened busy : option string) (counts : result string (Z * Z)) : Res (Z * Z) :=
  match opened, busy, counts with
  | Some e, _, _ => Err (wallet_err "tx sig open" e)
  | None, Some e, _ => Err (wallet_err "tx sig busy_timeout" e)
  | None, None, Err e => Err (wallet_err "tx sig counts" e)
  | None, None, Ok (total, unreconciled) => Ok (Z.max 0 total, Z.max 0 unreconciled)
  end.

(** [put_subtree_roots_at], [put_subtree_roots]: one transaction per pool. *)
Definition put_pool_roots (context : string) (put : W -> result SqliteClientError W) : M (W := W) (Res unit) :=
  let! r := attempt (transactionally fault (fun d => let? d := put d in Ok (d, tt))) in
  ret (labelled_read context r).
Definition put_subtree_roots_at {Hs Ho} `{!RootsDb W Hs Ho} (start : Grpc.SubtreeRootStart) (roots : Grpc.SubtreeRoots Hs Ho) : M (W := W) (Res unit) :=
  let! r := put_pool_roots "put_sapling_subtree_roots" (put_sapling_subtree_roots start.(Grpc.sapling) roots.(Grpc.roots_sapling)) in
  match r with
  | Err e => ret (Err e)
  | Ok _ =>
    let! r := put_pool_roots "put_orchard_subtree_roots" (put_orchard_subtree_roots start.(Grpc.orchard) roots.(Grpc.roots_orchard)) in
    match r with
    | Err e => ret (Err e)
    | Ok _ => put_pool_roots "put_ironwood_subtree_roots" (put_ironwood_subtree_roots start.(Grpc.ironwood) roots.(Grpc.roots_ironwood))
    end
  end.
Definition put_subtree_roots {Hs Ho} `{!RootsDb W Hs Ho} (roots : Grpc.SubtreeRoots Hs Ho) : M (W := W) (Res unit) :=
  put_subtree_roots_at Grpc.start_default roots.

(** [update_chain_tip]. *)
Definition update_chain_tip (height : Z) : M (W := W) (Res unit) :=
  match u32_try_from height with
  | None => ret (Err (Wallet ("height " +:+ pretty height +:+ " exceeds u32")))
  | Some h =>
    let! r := attempt (transactionally fault (fun d => let? d := lib_update_chain_tip h d in Ok (d, tt))) in
    ret (labelled_read "update_chain_tip" r)
  end.

(** ** Rewinds *)

(** [transactionally_with_extension]: one transaction over the wallet and the buffer table. *)
Definition transactionally_with_extension {A} (f : Table -> W -> result SqliteClientError (Table * W * A)) : M (W := W) A := fun w =>
  match f w.(table) w.(wallet) with
  | Err e => (w, Err e)
  | Ok (t, d, a) =>
    match fault w.(statements) with
    | Some e => (w <| statements := S w.(statements) |>, Err (Sqlite e))
    | None => (mkWorld t d (S w.(statements)) ((w.(table), w.(wallet)) :: w.(crashes)), Ok a)
    end
  end.

(** [delete_from_position_in] on the table; [None] leaves the pool's rows. *)
Definition cut_rows (pool : ShieldedPool) (from : option Z) (t : Table) : Table :=
  match from with
  | Some from => filter (fun p : Z * Z * Z * Enc => (p.1.1.1 =? pool_code pool) && (from <=? p.1.2) = false) t
  | None => t
  end.

(** [truncate_to_height]. *)
Definition truncate_tx (height : Z) (t : Table) (d : W) : result SqliteClientError (Table * W * Z) :=
  let? (d, truncated_to) := lib_truncate_to_height height d in
  let? highest := block_max_scanned d in
  let '(sapling, orchard) := match highest with
                             | Some b => (b.(sapling_tree_size), b.(orchard_tree_size))
                             | None => (Some 0, Some 0)
                             end in
  Ok (cut_rows Orchard orchard (cut_rows Sapling sapling t), d, truncated_to).
Definition truncate_to_height (height : Z) : M (W := W) (Res Z) :=
  let! r := attempt (transactionally_with_extension (truncate_tx height)) in
  ret (labelled_read "truncate_to_height" r).

(** [drop_graft_rows_from]; [opened]: the error with which the side connection did not open. *)
Definition drop_graft_rows_from (opened : option SlipstreamError) (sapling orchard : option Z) : M (W := W) (Res unit) :=
  match opened with
  | Some e => ret (Err e)
  | None =>
    let drop pool from := match from with Some from => delete_from_position fault pool from | None => ret tt end in
    let! r := attempt (drop Sapling sapling ;;; drop Orchard orchard) in
    ret (labelled_read "graft buffer cleanup" r)
  end.

(** [import_account_with_birthday]. *)
Definition import_account_with_birthday (opened : option SlipstreamError) (ufvk : Key) (birthday : Birthday) : M (W := W) (Res unit) :=
  let! before := attempt (read get_account_ids) in
  match labelled_read "get_account_ids" before with
  | Err e => ret (Err e)
  | Ok before =>
    let! imported := attempt (transactionally fault (fun d => let? d := import_account_ufvk ufvk birthday d in Ok (d, tt))) in
    match labelled_read "import_account_ufvk" imported with
    | Err e => ret (Err e)
    | Ok _ =>
      let! after := attempt (read get_account_ids) in
      match labelled_read "get_account_ids" after with
      | Err e => ret (Err e)
      | Ok after =>
        if (length before <? length after)%nat
        then drop_graft_rows_from opened (Some birthday.(birthday_sapling_size)) (Some birthday.(birthday_orchard_size))
        else ret (Ok tt)
      end
    end
  end.

(** [import_account]; [birthday]: the birthday the library read off the tree state, or why not. *)
Inductive BirthdayError := HeightInvalid (e : string) | DecodeError (e : string) | UnknownBirthdayError.
Definition birthday_detail (e : BirthdayError) : string :=
  match e with
  | HeightInvalid ie => "height invalid: " +:+ ie
  | DecodeError io => "decode: " +:+ io
  | UnknownBirthdayError => "unrecognized birthday error"
  end.
Definition import_account (opened : option SlipstreamError) (ufvk : Key) (birthday : result BirthdayError Birthday) : M (W := W) (Res unit) :=
  match birthday with
  | Err e => ret (Err (Wallet ("invalid birthday treestate: " +:+ birthday_detail e)))
  | Ok b => import_account_with_birthday opened ufvk b
  end.
End Session.

(** ** Root downloads leave no gap *)

Section Roots.
Context {W Key Hs Ho : Type} `{!SessionDb W Key} `{!RootsDb W Hs Ho} (fault : nat -> option string).

(** The shard indices a pool's tree stores. *)
Definition has_shards (pool : ShieldedPool) (d : W) (stored : list Z) : Prop := lib_shard_indices pool d = Ok (Some stored).

(** The library stores a shard per root, keeps the others, and lists them ascending. *)
Definition extends_shards (pool : ShieldedPool) (start count : Z) (d d' : W) : Prop :=
  (forall q, q <> pool -> lib_shard_indices q d' = lib_shard_indices q d) /\
  forall n, has_shards pool d (seqZ 0 n) -> start <= n -> has_shards pool d' (seqZ 0 (Z.max n (start + count))).
Class RootsLaws : Prop := {
  put_sapling_extends start (roots : list (Z * Hs)) d d' : 0 <= start -> put_sapling_subtree_roots start roots d = Ok d' ->
    extends_shards Sapling start (Z.of_nat (length roots)) d d';
  put_orchard_extends start (roots : list (Z * Ho)) d d' : 0 <= start -> put_orchard_subtree_roots start roots d = Ok d' ->
    extends_shards Orchard start (Z.of_nat (length roots)) d d';
  put_ironwood_extends start (roots : list (Z * Ho)) d d' : 0 <= start -> put_ironwood_subtree_roots start roots d = Ok d' ->
    extends_shards Ironwood start (Z.of_nat (length roots)) d d';
}.
Context {RL : RootsLaws}.

Lemma put_pool_roots_ok context put (w w' : World W) : put_pool_roots fault context put w = (w', Ok (Ok tt)) -> put w.(wallet) = Ok w'.(wallet).
Proof.
  unfold put_pool_roots, bind, attempt, transactionally. destruct (put w.(wallet)) as [d|e]; cbn [result_bind]; [|done].
  destruct (fault w.(statements)); [done|]. by intros [= <-].
Qed.

(** Roots stored from where [next_subtree_root_index] has them requested keep every pool's shards
    an initial segment, which reaches the last root stored. *)
Lemma roots_stay_contiguous (stored : ShieldedPool -> Z) start (roots : Grpc.SubtreeRoots Hs Ho) (w w' : World W) :
  (forall pool, 0 <= stored pool /\ has_shards pool w.(wallet) (seqZ 0 (stored pool))) ->
  next_subtree_root_start (Key := Key) w.(wallet) = Ok start ->
  put_subtree_roots_at fault start roots w = (w', Ok (Ok tt)) ->
  has_shards Sapling w'.(wallet) (seqZ 0 (Z.max (stored Sapling) (start.(Grpc.sapling) + Z.of_nat (length roots.(Grpc.roots_sapling))))) /\
  has_shards Orchard w'.(wallet) (seqZ 0 (Z.max (stored Orchard) (start.(Grpc.orchard) + Z.of_nat (length roots.(Grpc.roots_orchard))))) /\
  has_shards Ironwood w'.(wallet) (seqZ 0 (Z.max (stored Ironwood) (start.(Grpc.ironwood) + Z.of_nat (length roots.(Grpc.roots_ironwood))))).
Proof.
  intros Hst Hn. assert (forall n, 0 <= n -> 0 <= next_subtree_root_index (seqZ 0 n) <= n) as Hb.
  { intros n Hn0. unfold next_subtree_root_index, sat_sub. rewrite length_seqZ. case_bool_decide; lia. }
  destruct (Hst Sapling) as [S0 S1], (Hst Orchard) as [O0 O1], (Hst Ironwood) as [I0 I1].
  unfold next_subtree_root_start, stored_shard_indices in Hn. rewrite S1, O1, I1 in Hn. cbn in Hn. injection Hn as <-.
  unfold put_subtree_roots_at, bind at 1. destruct (put_pool_roots fault _ _ w) as [w1 [[[]|]|]] eqn:E1; try done.
  unfold bind at 1. destruct (put_pool_roots fault _ _ w1) as [w2 [[[]|]|]] eqn:E2; try done. intros E3.
  apply put_pool_roots_ok in E1, E2, E3. cbn [Grpc.sapling Grpc.orchard Grpc.ironwood] in *.
  apply put_sapling_extends in E1 as [K1 X1]; [|by apply Hb]. apply put_orchard_extends in E2 as [K2 X2]; [|by apply Hb].
  apply put_ironwood_extends in E3 as [K3 X3]; [|by apply Hb]. unfold has_shards in *. split_and!.
  - rewrite K3, K2 by done. apply X1; [done|by apply Hb].
  - rewrite K3 by done. apply X2; [by rewrite K1|by apply Hb].
  - apply X3; [by rewrite K2, K1|by apply Hb].
Qed.
End Roots.

(** ** A rewind loses nothing and leaves nothing behind *)

Section Rewinds.
Context {W Ts To Cs Co Key : Type} `{!SweepLib W} `{!SessionDb W Key} (fault : nat -> option string).
Abbreviation View := (WalletView (W := W) (Ts := Ts) (To := To) (Cs := Cs) (Co := Co)).
Context (V : View).

(** From [d] to [d'] nothing was added: no scanned block, no record of one; and the commitments of
    the blocks that stay scanned, on the chain the wallet follows, stay in the trees. *)
Record kept (d d' : W) : Prop := {
  kept_scanned h : scanned V d' h -> scanned V d h;
  kept_blocks h b : block_metadata h d' = Ok (Some b) -> block_metadata h d = Ok (Some b);
  kept_trees block_of size pool p : follows V block_of size d -> scanned V d' (block_of pool p) -> covered V pool d p -> covered V pool d' p;
}.
(** The wallet went back to [top]. *)
Definition rewound (top : Z) (d d' : W) : Prop := kept d d' /\ forall h, scanned V d' h -> h <= top.

(** What the library says of its rewinds: a truncation goes back to the highest block that stays
    scanned, without which nothing is scanned; an import keeps what it does not rewind, and one
    that adds an account goes back to below its birthday. *)
Class RewindLaws : Prop := {
  truncate_rewinds h d d' to_ : lib_truncate_to_height h d = Ok (d', to_) -> exists top, rewound top d d' /\
    forall m, block_max_scanned d' = Ok m ->
      match m with Some b => block_metadata top d' = Ok (Some b) | None => forall x, ~ scanned V d' x end;
  import_keeps k b d d' : import_account_ufvk k b d = Ok d' -> kept d d';
  import_rewinds k b d d' before after : import_account_ufvk k b d = Ok d' -> get_account_ids d = Ok before -> get_account_ids d' = Ok after ->
    (length before < length after)%nat -> forall h, scanned V d' h -> h <= b.(prior_height);
}.
Context {RL : RewindLaws}.

Section Chain.
Context (block_of size : ShieldedPool -> Z -> Z).
Abbreviation safe := (safe V block_of).
Abbreviation follows := (follows V block_of size).

Lemma kept_follows d d' : kept d d' -> follows d -> follows d'.
Proof.
  intros [Ks Kb _] [M K H]. split; [done| |auto]. intros pool h n Hn. apply K. revert Hn. unfold tree_size_at.
  destruct (block_metadata h d') as [[b|]|] eqn:Eb; cbn [result_bind]; [|done..]. by rewrite (Kb _ _ Eb).
Qed.
Lemma kept_safe t d d' : kept d d' -> follows d -> safe t d -> safe t d'.
Proof.
  intros K Hf Hs pool p Hp. destruct (Hs pool p) as [Hc|]; [by apply K|left|by right]. by eapply (kept_trees _ _ K).
Qed.

(** A pool's rows end where its bound says. *)
Definition ends_at (pool : ShieldedPool) (from : option Z) (t : Table) : Prop :=
  forall n shard p, from = Some n -> is_Some (t !! (pool_code pool, shard, p)) -> p < n.

Lemma cut_lookup pool from t k e : cut_rows pool from t !! k = Some e <->
  t !! k = Some e /\ ~ (exists n, from = Some n /\ k.1.1 = pool_code pool /\ n <= k.2).
Proof.
  destruct from as [n|]; cbn; [|naive_solver]. rewrite map_lookup_filter_Some. cbn [fst].
  rewrite andb_false_iff, Z.eqb_neq, Z.leb_gt. split.
  - intros [He Hor]. split; [done|]. intros (n' & [= <-] & Hp & Hle). destruct Hor; [done|lia].
  - intros [He Hn]. split; [done|]. destruct (decide (k.1.1 = pool_code pool)); [right|by left].
    apply Z.nle_gt. intros Hle. apply Hn. by exists n.
Qed.

Lemma cut_keyed pool from t : well_keyed t -> well_keyed (cut_rows pool from t).
Proof. intros Hk c s p [e [He _]%cut_lookup]. by eapply Hk. Qed.

Lemma cut_ends pool from t : ends_at pool from (cut_rows pool from t).
Proof. intros n s p -> [e [_ Hn]%cut_lookup]. apply Z.nle_gt. intros Hle. apply Hn. by exists n. Qed.
Lemma cut_ends_other pool q from bound t : ends_at q bound t -> ends_at q bound (cut_rows pool from t).
Proof. intros He n s p Hb [e [Hl _]%cut_lookup]. by eapply He. Qed.

(** Rows are cut only where no scanned block has them. *)
Definition bounded (d : W) (pool : ShieldedPool) (from : option Z) : Prop :=
  forall n p, from = Some n -> scanned V d (block_of pool p) -> p < n.
Lemma cut_safe pool from t d : bounded d pool from -> safe t d -> safe (cut_rows pool from t) d.
Proof.
  intros Hb Hs q p Hp. destruct (Hs q p Hp) as [|[e He]]; [by left|right]. exists e. apply cut_lookup. split; [done|].
  intros (n & Hn & Hq & Hle). cbn in Hq, Hle. apply pool_code_inj in Hq as ->. specialize (Hb n p Hn Hp). lia.
Qed.

Lemma top_bounded top d pool n : follows d -> (forall h, scanned V d h -> h <= top) -> n = size pool top -> bounded d pool (Some n).
Proof.
  intros [M K H] Ht -> n' p [= <-] Hp. pose proof (H _ _ Hp). specialize (Ht _ Hp). specialize (M pool _ _ Ht). lia.
Qed.

Lemma truncate_tx_spec h t d t' d' to_ : safe t d -> well_keyed t -> follows d -> truncate_tx h t d = Ok (t', d', to_) ->
  safe t' d' /\ well_keyed t' /\ exists top m, rewound top d d' /\ block_max_scanned d' = Ok m /\
    let bounds := match m with Some b => (b.(sapling_tree_size), b.(orchard_tree_size)) | None => (Some 0, Some 0) end in
    ends_at Sapling bounds.1 t' /\ ends_at Orchard bounds.2 t'.
Proof.
  intros Hs Hk Hf. unfold truncate_tx. destruct (lib_truncate_to_height h d) as [[d1 to1]|] eqn:Et; [|done]. cbn [result_bind].
  destruct (block_max_scanned d1) as [m|] eqn:Em; [|done]. cbn [result_bind]. destruct (truncate_rewinds _ _ _ _ Et) as (top & Hr & Hm).
  specialize (Hm m Em). set (bounds := match m with Some b => _ | None => _ end). destruct bounds as [bs bo] eqn:Eb. intros [= <- <- <-].
  destruct (Hr) as [Hkept Htop]. pose proof (kept_follows _ _ Hkept Hf) as Hf1.
  assert (bounded d1 Sapling bs /\ bounded d1 Orchard bo) as [B1 B2].
  { unfold bounds in Eb. destruct m as [b|]; injection Eb as <- <-.
    - assert (forall pool n, tree_size_at pool d1 top = Ok (Some n) -> bounded d1 pool (Some n)) as Hn
        by (intros pool n Hn; eapply top_bounded; [done..|by apply Hf1]).
      split; [destruct b.(sapling_tree_size) eqn:Es|destruct b.(orchard_tree_size) eqn:Es]; [|done| |done];
        apply Hn; unfold tree_size_at; rewrite Hm; cbn; by rewrite Es.
    - split; intros n p _ Hp; by destruct (Hm _ Hp). }
  split; [apply cut_safe; [done|]; apply cut_safe; [done|]; by eapply kept_safe|]. split; [by apply cut_keyed, cut_keyed|].
  exists top, m. split; [done|]. split; [done|]. unfold bounds in Eb. cbv zeta. rewrite Eb. cbn. split; [apply cut_ends_other, cut_ends|apply cut_ends].
Qed.

Lemma truncate_spec h (w w' : World W) r : safe w.(table) w.(wallet) -> well_keyed w.(table) -> follows w.(wallet) -> truncate_to_height fault h w = (w', r) ->
  always safe w w' /\ well_keyed w'.(table) /\ follows w'.(wallet) /\ forall n, r = Ok (Ok n) -> exists top m, rewound top w.(wallet) w'.(wallet) /\
    block_max_scanned w'.(wallet) = Ok m /\
    let bounds := match m with Some b => (b.(sapling_tree_size), b.(orchard_tree_size)) | None => (Some 0, Some 0) end in
    ends_at Sapling bounds.1 w'.(table) /\ ends_at Orchard bounds.2 w'.(table).
Proof.
  intros Hs Hk Hf. unfold truncate_to_height, bind, attempt, transactionally_with_extension.
  destruct (truncate_tx h w.(table) w.(wallet)) as [[[t d] n]|e] eqn:Et.
  2:{ intros [= <- <-]. split; [by apply always_refl|]. split; [done|]. split; [done|]. intros n [=]. }
  destruct (truncate_tx_spec _ _ _ _ _ _ Hs Hk Hf Et) as (Hs' & Hk' & Hrest).
  destruct (fault w.(statements)); intros [= <- <-]; cbn.
  - split; [by split; [|exists []]|]. split; [done|]. split; [done|]. intros n' [=].
  - split; [|split; [done|split; [|by intros _ _]]]; [|destruct Hrest as (top & m & [Hkept _] & _); by eapply kept_follows]. split; cbn; [done|]. exists [(w.(table), w.(wallet))]. split; [done|by apply Forall_singleton].
Qed.

(** The deletes on the side connection. *)
Lemma drop_steps d pool from : bounded d pool from ->
  Steps (W := W) (fun t => safe t d /\ well_keyed t) (match from with Some from => delete_from_position fault pool from | None => ret tt end).
Proof.
  intros Hb. destruct from as [n|]; [|apply Steps_ret]. apply Steps_execute. intros t [Hs Hk].
  change (safe (cut_rows pool (Some n) t) d /\ well_keyed (cut_rows pool (Some n) t)). split; [by apply cut_safe|by apply cut_keyed].
Qed.

Lemma drop_done (s o : Z) (w w' : World W) : drop_graft_rows_from fault None (Some s) (Some o) w = (w', Ok (Ok tt)) ->
  ends_at Sapling (Some s) w'.(table) /\ ends_at Orchard (Some o) w'.(table) /\ w'.(wallet) = w.(wallet).
Proof.
  unfold drop_graft_rows_from, bind, attempt, delete_from_position, execute. destruct (fault w.(statements)); [done|]. cbn [statements].
  destruct (fault _); [done|]. intros [= <-]. cbn [table wallet]. split; [|split; [|done]].
  - apply (cut_ends_other Orchard Sapling (Some o)), (cut_ends Sapling (Some s)).
  - apply (cut_ends Orchard (Some o)).
Qed.

(** An import that succeeds and adds an account leaves no row of the blocks to scan again. *)
Definition import_cuts (b : Birthday) (w w' : World W) : Prop :=
  forall before after, get_account_ids w.(wallet) = Ok before -> get_account_ids w'.(wallet) = Ok after -> (length before < length after)%nat ->
    ends_at Sapling (Some b.(birthday_sapling_size)) w'.(table) /\ ends_at Orchard (Some b.(birthday_orchard_size)) w'.(table).
Lemma import_cut_spec opened k b (w w' : World W) : import_account_with_birthday fault opened k b w = (w', Ok (Ok tt)) -> import_cuts b w w'.
Proof.
  intros E before after Hb Ha Hlt. revert E. unfold import_account_with_birthday, bind at 1, attempt at 1, read at 1. rewrite Hb. cbn [labelled_read].
  unfold bind at 1, attempt at 1, transactionally. destruct (import_account_ufvk k b w.(wallet)) as [d|]; cbn [result_bind labelled_read]; [|done].
  destruct (fault w.(statements)); [done|]. cbn [labelled_read]. set (w1 := mkWorld _ _ _ _). unfold bind at 1, attempt at 1, read at 1.
  destruct (get_account_ids w1.(wallet)) as [after'|] eqn:Ea; cbn [labelled_read]; [|done]. destruct (Nat.ltb_spec (length before) (length after')) as [Hl|Hl].
  - destruct opened; [done|]. intros E%drop_done. tauto.
  - intros [= <-]. rewrite Ea in Ha. injection Ha as ->. lia.
Qed.

Lemma import_spec opened k b (w w' : World W) r : safe w.(table) w.(wallet) -> well_keyed w.(table) -> follows w.(wallet) ->
  b.(birthday_sapling_size) = size Sapling b.(prior_height) -> b.(birthday_orchard_size) = size Orchard b.(prior_height) ->
  import_account_with_birthday fault opened k b w = (w', r) -> always safe w w' /\ well_keyed w'.(table).
Proof.
  intros Hs Hk Hf E1 E2. unfold import_account_with_birthday, bind at 1, attempt at 1, read at 1.
  destruct (get_account_ids w.(wallet)) as [before|] eqn:Eb; cbn [labelled_read]; [|intros [= <- <-]; split; [by apply always_refl|done]].
  unfold bind at 1, attempt at 1, transactionally. destruct (import_account_ufvk k b w.(wallet)) as [d|] eqn:Ei; cbn [result_bind labelled_read].
  2:{ intros [= <- <-]. split; [by apply always_refl|done]. }
  destruct (fault w.(statements)); cbn [labelled_read]; [intros [= <- <-]; split; [by split; [|exists []]|done]|].
  set (w1 := mkWorld _ _ _ _). pose proof (import_keeps _ _ _ _ Ei) as K.
  pose proof (kept_follows _ _ K Hf) as Hf1. assert (safe w1.(table) w1.(wallet)) as Hs1 by (by eapply kept_safe).
  assert (always safe w w1) as A1 by (split; [done|]; exists [(w.(table), w.(wallet))]; split; [done|by apply Forall_singleton]).
  unfold bind at 1, attempt at 1, read at 1. destruct (get_account_ids w1.(wallet)) as [after|] eqn:Ea; cbn [labelled_read]; [|by intros [= <- <-]].
  pose proof (import_rewinds _ _ _ _ _ _ Ei Eb Ea) as Hir. destruct (Nat.ltb_spec (length before) (length after)) as [Hlt|]; [|by intros [= <- <-]].
  specialize (Hir Hlt). unfold drop_graft_rows_from. destruct opened; [by intros [= <- <-]|]. intros E.
  assert (Steps (W := W) (fun t => safe t d /\ well_keyed t)
    (bind (delete_from_position fault Sapling b.(birthday_sapling_size)) (fun _ => delete_from_position fault Orchard b.(birthday_orchard_size)))) as Hst.
  { apply Steps_bind; [|intros _]; [eapply (drop_steps d Sapling (Some _))|eapply (drop_steps d Orchard (Some _))]; by eapply top_bounded. }
  set (m := bind (attempt _) _) in E.
  assert (Steps (W := W) (fun t => safe t d /\ well_keyed t) m) as Hm by (apply Steps_bind; [by apply Steps_attempt|intros; apply Steps_ret]).
  pose proof (Hm w1 (conj Hs1 Hk)) as Hstep. rewrite E in Hstep. cbn [fst] in Hstep.
  split; [|apply Hstep]. eapply always_trans; [exact A1|]. eapply steps_always; [|exact Hstep]. by intros t [].
Qed.
End Chain.
End Rewinds.

(** C8: A rewind of the wallet loses nothing that stays scanned and leaves nothing of what does not.
    From a file in which each commitment of a scanned block is in its pool's tree or in the buffer,
    and whose records of the blocks are the chain's, a truncation and an account import keep the
    file such a file at every point at which the process could die, whatever fails; and a truncation
    that succeeds, in one step, goes back to a block and leaves no buffered Sapling or Orchard row
    at or above the tree size of the highest block left, where the wallet knows it; an import that
    succeeds and adds an account leaves none at or above the tree sizes of its birthday. *)
Theorem rewinds_lose_nothing {W Ts To Cs Co Key : Type} `{!SweepLib W} `{!SessionDb W Key} (fault : nat -> option string)
    (V : WalletView (W := W) (Ts := Ts) (To := To) (Cs := Cs) (Co := Co)) {RL : RewindLaws V} (block_of size : ShieldedPool -> Z -> Z)
    (w w' : World W) :
  safe V block_of w.(table) w.(wallet) -> well_keyed w.(table) -> follows V block_of size w.(wallet) ->
  (forall h r, truncate_to_height fault h w = (w', r) ->
     always (safe V block_of) w w' /\ well_keyed w'.(table) /\ follows V block_of size w'.(wallet) /\
     forall n, r = Ok (Ok n) -> exists top m, rewound V top w.(wallet) w'.(wallet) /\ block_max_scanned w'.(wallet) = Ok m /\
       let bounds := match m with Some b => (b.(sapling_tree_size), b.(orchard_tree_size)) | None => (Some 0, Some 0) end in
       ends_at Sapling bounds.1 w'.(table) /\ ends_at Orchard bounds.2 w'.(table)) /\
  (forall opened k b r, b.(birthday_sapling_size) = size Sapling b.(prior_height) -> b.(birthday_orchard_size) = size Orchard b.(prior_height) ->
     import_account_with_birthday fault opened k b w = (w', r) ->
     always (safe V block_of) w w' /\ well_keyed w'.(table) /\ (r = Ok (Ok tt) -> import_cuts b w w')).
Proof.
  intros Hs Hk Hf. split.
  - intros h r E. by eapply (truncate_spec fault V).
  - intros opened k b r E1 E2 E. destruct (import_spec fault V _ _ _ _ _ _ _ _ Hs Hk Hf E1 E2 E) as [A K].
    split; [done|]. split; [done|]. intros ->. by eapply import_cut_spec.
Qed.

(** ** An instance: the wallet of [PutBlocks] with a number of accounts *)

Definition RewindWallet : Type := MiniWallet * nat.
Definition keep_upto (top : Z) (w : RewindWallet) : RewindWallet := (mkMini w.1.(mini) (filter (fun h => h <= top) w.1.(mini_scanned)), w.2).
Definition scanned_heights (w : RewindWallet) : list Z := filter (fun h => h ∈ w.1.(mini_scanned)) (seqZ 1 10).
Definition birthday_at (top : Z) : Birthday := mkBirthday top (sample_size Sapling top) (sample_size Orchard top).
Definition meta_at (h : Z) : BlockMetadata :=
  mkMetadata (Some (sample_size Sapling h)) (Some (sample_size Orchard h)) (Some (sample_size Ironwood h)).
#[local] Instance rewind_sweep : SweepLib RewindWallet :=
  {| get_wallet_birthday _ := Ok (Some 1);
     suggest_scan_ranges _ := Ok [];
     block_metadata h _ := Ok (Some (meta_at h));
     queue_rescan _ w := Ok w |}.
#[local] Instance rewind_db : SessionDb RewindWallet unit :=
  {| migrate w := Ok w;
     prune_scan_queue_below _ w := Ok (w, 0);
     get_account_ids w := Ok (seqZ 0 (Z.of_nat w.2));
     import_account_ufvk _ b w :=
       if decide (birthday_at b.(prior_height) = b) then Ok ((keep_upto b.(prior_height) w).1, S w.2) else Err (Sqlite "no such birthday");
     lib_truncate_to_height h w := Ok (keep_upto h w, h);
     block_max_scanned w := Ok (meta_at <$> list_max_opt (scanned_heights w));
     get_wallet_recover_until _ := Ok None;
     lib_update_chain_tip _ w := Ok w;
     lib_shard_indices _ _ := Ok (Some []);
     get_account_for_ufvk _ w := Ok (if w.2 is O then None else Some 0);
     lib_chain_height w := Ok (list_max_opt (scanned_heights w)) |}.

Definition rewind_view (pool : ShieldedPool) : TreeView RewindWallet MiniShard Z :=
  mkView (fun w => (mini_view pool).(v_shards) w.1) (fun w => (mini_view pool).(v_cap) w.1)
    (fun w => (mini_view pool).(v_cps) w.1) (fun w => (mini_view pool).(v_retained) w.1).
Definition rewind_views : WalletView :=
  mkWalletView mini_covers mini_covers mini_covers (rewind_view Sapling) (rewind_view Orchard) (rewind_view Ironwood)
    (fun w h => 1 <= h <= 10 /\ h ∈ w.1.(mini_scanned)).

Lemma keep_rewound top w n : rewound rewind_views top w ((keep_upto top w).1, n).
Proof.
  assert (forall h, scanned rewind_views ((keep_upto top w).1, n) h -> h <= top /\ scanned rewind_views w h) as Hs
    by (intros h [Hb Hh]; cbn in Hh; apply elem_of_filter in Hh as [Hle Hin]; by split).
  split; [|apply Hs]. split; [apply Hs|done|by intros block_of size []].
Qed.
Lemma rewind_follows d : follows rewind_views sample_block_of sample_size d.
Proof.
  destruct (mini_follows d.1) as [M K H]. split; [exact M| |exact H]. intros pool h n E. apply (K pool h n). revert E. by destruct pool.
Qed.

#[local] Instance rewind_laws : RewindLaws rewind_views.
Proof.
  split.
  - intros h d d' to_ [= <- <-]. pose proof (keep_rewound h d d.2) as Hr. pose proof (list_max_opt_spec (scanned_heights (keep_upto h d))) as Hmax.
    assert (forall x, scanned rewind_views (keep_upto h d) x -> x ∈ scanned_heights (keep_upto h d)) as Hin
      by (intros x [Hb Hx]; apply list_elem_of_filter; split; [exact Hx|]; apply elem_of_seqZ; lia).
    destruct (list_max_opt (scanned_heights (keep_upto h d))) as [m|] eqn:Em.
    + exists m. split; [|intros m' [= <-]; cbn [block_max_scanned rewind_db]; rewrite Em; done]. split; [apply Hr|].
      intros x Hx. by apply Hmax, Hin.
    + exists h. split; [exact Hr|]. intros m' [= <-]. cbn [block_max_scanned rewind_db]. rewrite Em. cbn. intros x Hx%Hin.
      rewrite Hmax in Hx. by apply elem_of_nil in Hx.
  - intros k b d d' E. cbn in E. destruct (decide _); [|done]. injection E as <-. apply (keep_rewound b.(prior_height) d (S d.2)).
  - intros k b d d' before after E _ _ _. cbn in E. destruct (decide _); [|done]. injection E as <-.
    apply (keep_rewound b.(prior_height) d (S d.2)).
Qed.

(** Blocks 1 and 2 are scanned and their Sapling and Orchard commitments buffered; the wallet is
    truncated to block 1. *)
Definition two_blocks : World RewindWallet :=
  mkWorld (<[(2, 0, 0) := enc Byte.x02]> (<[(2, 0, 1) := enc Byte.x01]> (<[(2, 0, 2) := enc Byte.x04]> (<[(3, 0, 0) := enc Byte.x03]> ∅))))
    (mkMini (fun pool => if decide (pool = Ironwood) then mkPoolDb {[0 := (0, Some {[0]})]} 0 ∅ ∅ else empty_pool) {[1; 2]}, 1%nat) 0 [].

Lemma two_blocks_safe : safe rewind_views sample_block_of two_blocks.(table) two_blocks.(wallet).
Proof.
  intros pool p [Hb _]. destruct pool; cbn [sample_block_of] in Hb; destruct (Z.eqb_spec p 0) as [E0|N0]; subst; cbn in Hb.
  - right. by eexists; vm_compute.
  - destruct (Z.eqb_spec p 1) as [E1|N1]; [subst; right; by eexists; vm_compute|].
    destruct (Z.eqb_spec p 2) as [E2|N2]; [subst; right; by eexists; vm_compute|lia].
  - right. by eexists; vm_compute.
  - lia.
  - left. exists (0, Some {[0]}). split; [vm_compute; reflexivity|]. split; [reflexivity|]. cbn. set_solver.
  - lia.
Qed.
Lemma two_blocks_keyed : well_keyed two_blocks.(table).
Proof.
  intros c s p [e He]. cbn in He.
  repeat (apply lookup_insert_Some in He as [[[= <- <- <-] _]|[_ He]]; [reflexivity|]). by apply lookup_empty_Some in He.
Qed.

Lemma rewinds_lose_nothing_witness : exists w', truncate_to_height (fun _ => None) 1 two_blocks = (w', Ok (Ok 1)) /\
  w'.(table) !! (2, 0, 2) = None /\ w'.(table) !! (2, 0, 1) = Some (enc Byte.x01) /\ always (safe rewind_views sample_block_of) two_blocks w'.
Proof.
  destruct (truncate_to_height (fun _ => None) 1 two_blocks) as [w' r] eqn:E.
  assert (r = Ok (Ok 1)) as Hr by (change r with (w', r).2; rewrite <-E; vm_compute; reflexivity).
  assert (w'.(table) !! (2, 0, 2) = None /\ w'.(table) !! (2, 0, 1) = Some (enc Byte.x01)) as [H1 H2]
    by (change w' with (w', r).1; rewrite <-E; split; vm_compute; reflexivity).
  subst r. exists w'. split; [reflexivity|]. split; [exact H1|]. split; [exact H2|].
  destruct (rewinds_lose_nothing (fun _ => None) rewind_views sample_block_of sample_size two_blocks w' two_blocks_safe two_blocks_keyed (rewind_follows _)) as [Ht _].
  exact (proj1 (Ht 1 _ E)).
Defined.
End WalletSession.
