(* ===== verification/Tracked.v ===== *)
(** * The wallet from its birthday on

    What the parts of a sync do to the wallet's records, and to the blocks it has scanned at or
    above its birthday ([Sweep.tracked]): the calls of the writer add the sizes and the heights of
    their own blocks; a rewind and an import keep what they keep of all scanned blocks. *)

From S2P Require Export WalletSession.

Module Tracked.
Import GraftAccumulator SparseStore GraftBuffer GraftPlan PutBlocks Sweep WalletSession.

(** ** Effects on the wallet *)

Section Moves.
Context {W : Type} (R : W -> W -> Prop) `{!PreOrder R}.

(** Whatever [m] returns, it takes the wallet along [R]. *)
Definition moves {A} (m : M (W := W) A) : Prop := forall w w' r, m w = (w', r) -> R w.(wallet) w'.(wallet).

Lemma moves_ret {A} (a : A) : moves (ret a).
Proof. by intros w w' r [= <- _]. Qed.
Lemma moves_fail {A} e : moves (fail (A := A) e).
Proof. by intros w w' r [= <- _]. Qed.
Lemma moves_lift {A} (q : result SqliteClientError A) : moves (lift q).
Proof. by intros w w' r [= <- _]. Qed.
Lemma moves_read {A} (f : W -> result SqliteClientError A) : moves (read f).
Proof. by intros w w' r [= <- _]. Qed.
Lemma moves_bind {A B} (m : M (W := W) A) (k : A -> M B) : moves m -> (forall a, moves (k a)) -> moves (bind m k).
Proof.
  intros Hm Hk w w' r. unfold bind. destruct (m w) as [w1 [a|e]] eqn:E; [|intros [= <- _]; by eapply Hm].
  intros E2. transitivity w1.(wallet); [by eapply Hm|by eapply Hk].
Qed.
Lemma moves_attempt {A} (m : M (W := W) A) : moves m -> moves (attempt m).
Proof. intros Hm w w' r. unfold attempt. destruct (m w) as [w1 q] eqn:E. intros [= <- _]. by eapply Hm. Qed.
Lemma moves_execute fault f : moves (execute fault f).
Proof. intros w w' r. unfold execute. by destruct (fault w.(statements)); intros [= <- _]. Qed.
Lemma moves_select {A} fault (f : Table -> result SqliteClientError A) : moves (select fault f).
Proof. intros w w' r. unfold select. by destruct (fault w.(statements)); intros [= <- _]. Qed.
Lemma moves_transactionally {A} fault (f : W -> result SqliteClientError (W * A)) :
  (forall d d' a, f d = Ok (d', a) -> R d d') -> moves (transactionally fault f).
Proof.
  intros Hf w w' r. unfold transactionally. destruct (f w.(wallet)) as [[d a]|] eqn:E; [|by intros [= <- _]].
  destruct (fault w.(statements)); intros [= <- _]; [done|]. by eapply Hf.
Qed.
Lemma moves_seeded {T C} `{!Shard T} `{!TreeDb W T C} (c : C) anchors o : moves (seeded c anchors o).
Proof. intros w w' r. unfold seeded. by destruct o; intros [= <- _]. Qed.

(** The plan of a pool writes the buffer table only. *)
Section Plan.
Context {H : Type} `{!EqDecision H} `{!HashSer H} (fault : nat -> option string).
Create HintDb moves.
#[local] Hint Resolve moves_ret moves_fail moves_lift moves_bind moves_attempt moves_execute moves_select : moves.
Lemma moves_apply_action (i : PoolIn (H := H)) a plan : moves (apply_action fault i a plan).
Proof.
  destruct a as [rows|s rows|rows]; cbn [apply_action]; [auto with moves| |].
  - unfold close_shard. destruct (existsb _ rows); [auto with moves|]. apply moves_bind; [auto with moves|].
    intros [root|]; [|auto with moves]. destruct (_ && _); auto with moves.
  - destruct rows as [|row rows]; [auto with moves|]. apply moves_bind; [|auto with moves]. unfold append_rows.
    destruct (encode_rows _); unfold result_bind; auto with moves.
Qed.
Lemma moves_plan_pool acc (i : PoolIn (H := H)) : moves (plan_pool fault acc i).
Proof.
  unfold plan_pool. apply moves_bind.
  - destruct acc; [auto with moves|]. unfold seed_acc, load_shard, delete_rows_in. apply moves_bind; [auto with moves|].
    intros loaded. apply moves_bind; [|intros []; auto with moves]. destruct loaded as [rows|e].
    + apply moves_bind; [|auto with moves]. destruct (existsb _ rows); auto with moves.
    + destruct (will_not_decode e); auto with moves.
  - intros a. destruct (feed a _ _ _) as [acc' acts]. apply moves_bind; [|auto with moves]. generalize (@empty_plan H).
    induction acts as [|x acts IH]; intros plan; cbn [apply_actions]; [auto with moves|].
    apply moves_bind; [apply moves_apply_action|exact IH].
Qed.
Lemma moves_delete_spans pool spans : moves (delete_spans fault pool spans).
Proof. induction spans as [|[shard span] spans IH]; cbn [delete_spans]; [auto with moves|]. apply moves_bind; [apply moves_execute|auto]. Qed.
End Plan.
End Moves.

(** ** What a range records *)

Section Range.
Context {W Ns No Ts To Cs Co Fs Fo : Type} `{!EqDecision Ns} `{!HashSer Ns} `{!EqDecision No} `{!HashSer No}.
Context (PS : PoolLib W Ns Ts Cs Fs) (PO PI : PoolLib W No To Co Fo) `{!WalletLib W Ns No Fs Fo} `{!SweepLib W} (fault : nat -> option string).
Context (V : WalletView (W := W) (Ts := Ts) (To := To) (Cs := Cs) (Co := Co)) {WL : WalletLaws PS PO PI V} {RC : RecordLaws PS PO PI}.
Context (calls : list (ChainState Fs Fo * list (ScannedBlock Ns No))).

(** The birthday stays; a size that is new is one of the calls' blocks', and so is a height. *)
Record grown (d d' : W) : Prop := {
  grown_birthday : same_birthday d d';
  grown_sizes pool h n : tree_size_at pool d' h = Ok (Some n) -> tree_size_at pool d h = Ok (Some n) \/
    exists call b, call ∈ calls /\ b ∈ call.2 /\ b.(b_height) = h /\ n = block_size pool b;
  grown_scanned h : scanned V d' h -> scanned V d h \/ exists call, call ∈ calls /\ in_call call.1 call.2 h;
}.
#[export] Instance grown_preorder : PreOrder grown.
Proof.
  split; [intros d; split; [done|auto..]|]. intros d1 d2 d3 [B1 Z1 S1] [B2 Z2 S2].
  split; [unfold same_birthday in *; congruence| |].
  - intros pool h n Hn. destruct (Z2 _ _ _ Hn); auto.
  - intros h Hh. destruct (S2 _ Hh); auto.
Qed.
Lemma records_grown d d' : same_records d d' -> (forall h, scanned V d' h -> scanned V d h) -> grown d d'.
Proof. intros [Hb Hr] Hs. split; [done| |auto]. intros pool h n. unfold tree_size_at. rewrite Hr. auto. Qed.

Lemma spares_grown {H T C Fr T1 C1 T2 C2 : Type} {PL : PoolLib W H T C Fr} (v1 : TreeView W T1 C1) (v2 : TreeView W T2 C2) :
  spares (PL := PL) (quiet2 V v1 v2) -> spares (PL := PL) same_records -> spares (PL := PL) grown.
Proof. intros Hq Hr. eapply spares_mono; [|exact (spares_and _ _ Hq Hr)]. intros d d' [[[_ Hs] _] R]. by apply records_grown. Qed.
Lemma grown_s : spares (PL := PS) grown.
Proof. eapply spares_grown; [apply (spares_s PS PO PI V)|apply (flush_keeps_s PS PO PI)]. Qed.
Lemma grown_o : spares (PL := PO) grown.
Proof. eapply spares_grown; [apply (spares_o PS PO PI V)|apply (flush_keeps_o PS PO PI)]. Qed.
Lemma grown_i : spares (PL := PI) grown.
Proof. eapply spares_grown; [apply (spares_i PS PO PI V)|apply (flush_keeps_i PS PO PI)]. Qed.

Lemma put_tx_grows anchors plans cs co sap orch iw fs bs d d' out : (fs, bs) ∈ calls ->
  put_tx PS PO PI anchors plans cs co sap orch iw fs bs d = Ok (d', out) -> grown d d'.
Proof.
  intros Hin. unfold put_tx. destruct (put_blocks_rows fs bs d) as [[d0 rows]|] eqn:Er; [|done]. cbn [result_bind].
  assert (grown d d0) as G0.
  { split; [exact (rows_birthday PS PO PI _ _ _ _ _ Er)| |].
    - intros pool h n Hn. destruct (rows_record PS PO PI _ _ _ _ _ _ _ _ Er Hn) as [|(b & Hb & Hh & ->)]; [by left|right].
      exists (fs, bs), b. done.
    - intros h Hh. left. destruct (rows_quiet PS PO PI V _ _ _ _ _ Er) as ([_ Hq] & _). auto. }
  destruct (rows_streams PS PO PI V _ _ _ _ _ Er) as (_ & _ & _ & ->). destruct (last bs) as [l|] eqn:El; cbn [fmap option_fmap option_map].
  2:{ by intros [= <- _]. }
  destruct (PutBlocks.chain_height d0) as [tip|]; [|done]. cbn [result_bind]. destruct (batch_ensure_heights _ _ _ _ _) as [[es eo] ei].
  destruct (sapling_lane _ _ _ _ _ _ _ _) as [[[sap1 ds] a1]|]; [|done]. cbn [result_bind].
  destruct (orchard_lane _ _ _ _ _ _ _ _) as [[[orch1 do] a2]|]; [|done]. cbn [result_bind].
  destruct (ironwood_lane _ _ _ _ _ _ _) as [[[iw1 di] a3]|]; [|done]. cbn [result_bind].
  destruct (flushed sap1 d0) as [[d1 sap2]|] eqn:F1; [|done]. cbn [result_bind].
  destruct (flushed orch1 d1) as [[d2 orch2]|] eqn:F2; [|done]. cbn [result_bind].
  destruct (flushed iw1 d2) as [[d3 iw2]|] eqn:F3; [|done]. cbn [result_bind].
  destruct (notify_scan_complete _ _ d3) as [d4|] eqn:N; [|done]. cbn [result_bind]. intros [= <- _].
  transitivity d0; [exact G0|]. transitivity d1; [exact (flushed_spares _ _ _ _ _ _ grown_s F1)|].
  transitivity d2; [exact (flushed_spares _ _ _ _ _ _ grown_o F2)|]. transitivity d3; [exact (flushed_spares _ _ _ _ _ _ grown_i F3)|].
  destruct (notify_records PS PO PI _ _ _ _ N) as [Nb Nr]. destruct (notify_marks PS PO PI V _ _ _ _ N) as (_ & _ & _ & Hm).
  split; [done|intros pool h n; unfold tree_size_at; rewrite Nr; auto|]. intros h Hh.
  destruct (Hm h Hh) as [|Hr]; [by left|right]. exists (fs, bs). split; [done|]. exists l. cbn in *. split; [done|lia].
Qed.

Lemma put_moves sp fs bs : (fs, bs) ∈ calls -> moves grown (sparse_put_blocks PS PO PI fault sp fs bs).
Proof.
  intros Hin. unfold sparse_put_blocks. destruct (head bs); [|apply (moves_ret grown)]. destruct (negb _); [apply (moves_fail grown)|].
  repeat (apply (moves_bind grown); [apply (moves_seeded grown)|intros ?]). apply (moves_bind grown); [ |].
  - unfold plan_phase, plan_call. destruct (graft sp) as [ctx|]; [|apply (moves_ret grown)]. apply (moves_bind grown); [ |intros; apply (moves_ret grown)].
    apply (moves_bind grown); [apply (moves_read grown)|intros tip]. apply (moves_bind grown); [by intros w w' r [= <- _]|intros db].
    apply (moves_bind grown); [apply (moves_plan_pool grown)|intros []]. apply (moves_bind grown); [apply (moves_plan_pool grown)|intros []]. apply (moves_ret grown).
  - intros planned. apply (moves_bind grown); [ |].
    + apply (moves_transactionally grown). intros d d' out. by apply put_tx_grows.
    + intros out. destruct (plans_of planned) as [[p1 p2]|]; [|apply (moves_ret grown)].
      apply (moves_bind grown); [apply (moves_delete_spans grown)|intros _]. apply (moves_bind grown); [apply (moves_delete_spans grown)|intros _]. apply (moves_ret grown).
Qed.

Lemma finish_moves sp : moves grown (finish_graft_blocking PS PO fault sp).
Proof.
  unfold finish_graft_blocking. destruct (graft sp) as [ctx|]; [|apply (moves_ret grown)]. cbv zeta. destruct (_ && _); [apply (moves_ret grown)|].
  destruct (sapling sp) as [sap|]; [|apply (moves_ret grown)]. destruct (orchard sp) as [orch|]; [|apply (moves_ret grown)].
  apply (moves_bind grown); [ |].
  - apply moves_attempt, (moves_transactionally grown). intros d d' []. unfold finish_tx.
    assert (forall o d d', @flush_inserted W Ts Cs PS.(pl_shard) PS.(pl_db) o d = Ok d' -> grown d d') as Fs1.
    { intros [t|] d1 d2; cbn [flush_inserted]; [|by intros [= <-]]. destruct (flushed t d1) as [[d3 t3]|] eqn:F; [|done].
      intros [= <-]. exact (flushed_spares _ _ _ _ _ _ grown_s F). }
    assert (forall o d d', @flush_inserted W To Co PO.(pl_shard) PO.(pl_db) o d = Ok d' -> grown d d') as Fo1.
    { intros [t|] d1 d2; cbn [flush_inserted]; [|by intros [= <-]]. destruct (flushed t d1) as [[d3 t3]|] eqn:F; [|done].
      intros [= <-]. exact (flushed_spares _ _ _ _ _ _ grown_o F). }
    destruct (insert_deferred_rows PS _ _ _ sap) as [o1|]; [|done]. cbn [result_bind].
    destruct (flush_inserted o1 d) as [d1|] eqn:E1; [|done]. cbn [result_bind].
    destruct (insert_deferred_rows PO _ _ _ orch) as [o2|]; [|done]. cbn [result_bind].
    destruct (flush_inserted o2 d1) as [d2|] eqn:E2; [|done]. cbn [result_bind]. intros [= <-].
    transitivity d1; [by eapply Fs1|by eapply Fo1].
  - intros [u|e]; [|apply (moves_ret grown)]. apply (moves_bind grown); [apply moves_attempt, (moves_delete_spans grown)|].
    intros [u'|e]; [|apply (moves_ret grown)]. apply (moves_bind grown); [apply moves_attempt, (moves_delete_spans grown)|]. intros []; apply (moves_ret grown).
Qed.

(** A wallet that follows a chain, and is given blocks of it, follows it. *)
Lemma grown_follows block_of size d d' : follows V block_of size d -> grown d d' ->
  (forall call b pool, call ∈ calls -> b ∈ call.2 -> block_size pool b = size pool b.(b_height)) ->
  (forall call pool p, call ∈ calls -> in_call call.1 call.2 (block_of pool p) ->
    size pool (block_of pool p - 1) <= p < size pool (block_of pool p)) ->
  follows V block_of size d'.
Proof.
  intros [M K H] [_ Gz Gs] Hb Hp. split; [done| |].
  - intros pool h n Hn. destruct (Gz _ _ _ Hn) as [|(call & b & Hc & Hin & <- & ->)]; [by apply K|by eapply Hb].
  - intros pool p Hh. destruct (Gs _ Hh) as [|(call & Hc & Hin)]; [by apply H|by eapply Hp].
Qed.
End Range.
Arguments grown {W Ns No Ts To Cs Co Fs Fo SweepLib0} V calls d d'.

(** ** Rewinds *)

Section Rewinds.
Context {W Ts To Cs Co Key : Type} `{!SweepLib W} `{!SessionDb W Key}.
Context (U : WalletView (W := W) (Ts := Ts) (To := To) (Cs := Cs) (Co := Co)).

(** A wallet has scanned finitely many blocks.  A truncation leaves the accounts; an import leaves
    the wallet's birthday, or adds an account, whose birthday it then is and below which the wallet
    goes back. *)
Class AccountLaws : Prop := {
  scanned_finite d : exists top, forall h, scanned U d h -> h <= top;
  truncate_birthday h d d' to_ : lib_truncate_to_height h d = Ok (d', to_) -> same_birthday d d';
  import_birthday k b d d' : import_account_ufvk k b d = Ok d' -> same_birthday d d' \/
    get_wallet_birthday d' = Ok (Some (b.(prior_height) + 1)) /\ forall h, scanned U d' h -> h <= b.(prior_height);
}.
Context {AL : AccountLaws} {RL : RewindLaws U}.

(** What is kept of all scanned blocks is kept of those from the birthday on.  A chain that the
    wallet follows on those becomes one it follows on all, with the commitments of the blocks
    below the birthday at a height that is not scanned. *)
Lemma tracked_kept d d' : kept U d d' -> (forall h, scanned (tracked U) d' h -> scanned (tracked U) d h) -> kept (tracked U) d d'.
Proof.
  intros [Ks Kb Kt] Ht. split; [exact Ht|exact Kb|]. intros block_of size pool p [M K H] Hp Hc.
  destruct (scanned_finite d) as [top Htop]. pose proof (Ht _ Hp) as [_ Hfl]. destruct Hp as [Hp _].
  set (low h := match get_wallet_birthday d with Ok (Some b) => h <? b | _ => false end).
  set (bo q x := if low (block_of q x) then top + 1 else block_of q x).
  assert (bo pool p = block_of pool p) as Ebo.
  { unfold bo, low. destruct (get_wallet_birthday d) as [[b|]|]; [|done..]. specialize (Hfl b eq_refl). by destruct (Z.ltb_spec (block_of pool p) b); [lia|]. }
  assert (covered U pool d' p) as Hc'; [|by destruct pool].
  eapply (Kt bo size); [|by rewrite Ebo|by destruct pool]. split; [exact M|exact K|]. intros q x. unfold bo.
  destruct (low (block_of q x)) eqn:El; [intros Hx%Htop; lia|]. intros Hx. apply H. split; [exact Hx|]. intros b Eb.
  unfold low in El. rewrite Eb in El. breflect. lia.
Qed.
Lemma kept_tracked d d' : kept U d d' -> same_birthday d d' -> kept (tracked U) d d'.
Proof. intros K Hb. apply tracked_kept; [exact K|]. intros h. exact (tracked_onward U d d' h Hb (kept_scanned _ _ _ K h)). Qed.

#[export] Instance tracked_rewinds : RewindLaws (tracked U).
Proof.
  split.
  - intros h d d' to_ E. destruct (truncate_rewinds U _ _ _ _ E) as (top & [K Ht] & Hm). exists top. split.
    + split; [|intros x [Hx _]; by apply Ht]. apply kept_tracked; [exact K|by eapply truncate_birthday].
    + intros m Em. specialize (Hm m Em). destruct m; [exact Hm|]. intros x [Hx _]. by apply (Hm x).
  - intros k b d d' E. pose proof (import_keeps U _ _ _ _ E) as K. destruct (import_birthday _ _ _ _ E) as [Hb|[Hb Hs]].
    + by apply kept_tracked.
    + apply tracked_kept; [exact K|]. intros h [Hh Hf]. specialize (Hf _ Hb). specialize (Hs h Hh). lia.
  - intros k b d d' before after E Eb Ea Hl h [Hh _]. by eapply (import_rewinds U).
Qed.
End Rewinds.
End Tracked.
