(* ===== verification/Pass.v ===== *)
(** * One pass: [run_to_completion] of [core/src/scheduler.rs]

    The loop over the suggested ranges.  Each turn is driven by what the calls it
    makes return, a [Round]: the suggested ranges, the outcome of the range's fetch
    and scan, of the truncation and of the enhancement, and what the fetch and scan
    did to the shared progress meanwhile.  What the loop does to the outside is
    recorded as a list of actions. *)

From S2P Require Export Config Scheduler ScanCalls.
Import Progress Handle Config Scheduler.

Module Pass.

Abbreviation EnhanceStats := Enhance.EnhanceStats.
Abbreviation enhance_default := Enhance.enhance_default.
Abbreviation ScanStats := Scan.ScanStats.
Abbreviation mkScanStats := Scan.mkScanStats.

(** The counters of [struct SyncReport] (stage timers and the census left out). *)
Record SyncReport := mkReport {
  ranges_processed : Z;
  fetch_blocks : Z;
  fetch_bytes : Z;
  scan_blocks : Z;
  rep_sapling_received : Z;
  rep_orchard_received : Z;
  enhance : EnhanceStats;
  rep_reorgs_recovered : Z;
  wire_bytes : Z;
  wire_worst_window_mbps : float;
}.

#[export] Instance eta_SyncReport : Eta SyncReport := fun r =>
  mkReport r.(ranges_processed) r.(fetch_blocks) r.(fetch_bytes) r.(scan_blocks)
    r.(rep_sapling_received) r.(rep_orchard_received) r.(enhance) r.(rep_reorgs_recovered)
    r.(wire_bytes) r.(wire_worst_window_mbps).

Definition report_default : SyncReport := mkReport 0 0 0 0 0 0 enhance_default 0 0 0.

(** The run after a range: the four counters only. *)
Definition add_range_end (a b : EnhanceStats) : EnhanceStats :=
  Enhance.mkEnhanceStats (u64_add a.(Enhance.requests) b.(Enhance.requests))
    (u64_add a.(Enhance.txs_stored) b.(Enhance.txs_stored))
    (u64_add a.(Enhance.statuses_set) b.(Enhance.statuses_set)) (u64_add a.(Enhance.skipped) b.(Enhance.skipped))
    a.(Enhance.fetch_wait) a.(Enhance.store) a.(Enhance.address).

(** What the loop does to the outside. *)
Inductive Action :=
| ASweep
| AFetchScan (plan : FetchPlan.FetchPlan) (historic : bool)
| ATruncate (height : Z)
| ASleep (ms : Z)
| AEnhance.

(** What the calls of one turn return. *)
Record Round := mkRound {
  rd_ranges : Res (list ScanRange);
  rd_birthday : option Z;
  rd_work : Progress -> Progress;
  rd_scan : Res ScanStats;
  rd_fetch : result string (Res WireDetector.FetchStats);
  rd_truncate : Res unit;
  rd_enhance : Res EnhanceStats;
  rd_tx_sig : option (Z * Z);
  rd_now : Z;
}.

(** The locals of the loop, and the actions so far. *)
Record PassState := mkPass {
  progress : option Progress;
  report : SyncReport;
  consecutive_reorgs : Z;
  scanned_so_far : Z;
  last_tx_sig : option (Z * Z);
  trace : list Action;
}.

#[export] Instance eta_PassState : Eta PassState := fun s =>
  mkPass s.(progress) s.(report) s.(consecutive_reorgs) s.(scanned_so_far) s.(last_tx_sig) s.(trace).

Inductive Turn := Continue | Return (res : Res SyncReport) | Panic.

Section Loop.
Context (c : EngineConfig) (recover_until : option Z).

(** The plan of a range, byte-budgeted and armed as the configuration says. *)
Definition range_plan (start end_ : Z) : option FetchPlan.FetchPlan :=
  match FetchPlan.new start end_ c.(chunk_blocks) c.(fetch_streams) with
  | None => None
  | Some p =>
    Some (FetchPlan.mkFetchPlan p.(FetchPlan.start) p.(FetchPlan.end_) p.(FetchPlan.chunk_blocks)
      p.(FetchPlan.streams) p.(FetchPlan.retries_per_chunk) p.(FetchPlan.chunk_timeout)
      c.(chunk_split_bytes)
      (if c.(wire_failover) && negb (bool_decide (c.(alternate_endpoints) = []))
       then Some wire_failover_default else p.(FetchPlan.failover)))
  end.

(** The reorg recovery arm. *)
Definition recover (start end_exclusive at_ : Z) (rd : Round) (st : PassState) : PassState * Turn :=
  let st := st <| consecutive_reorgs := st.(consecutive_reorgs) + 1 |> in
  if MAX_CONSECUTIVE_REORGS <? st.(consecutive_reorgs) then (st, Return (Err (ScanContinuity at_)))
  else
    let rewind_height := sat_sub at_ 10 in
    let st := st <| trace := st.(trace) ++ [ATruncate rewind_height] |> in
    match rd.(rd_truncate) with
    | Err e => (st, Return (Err e))
    | Ok _ =>
      (st <| scanned_so_far := u64_add st.(scanned_so_far)
               (scan_continuity_repair_credit start end_exclusive rewind_height) |>
          <| report := st.(report) <| rep_reorgs_recovered := u64_add st.(report).(rep_reorgs_recovered) 1 |> |>
          <| progress := add_reorg <$> st.(progress) |>
          <| trace := st.(trace) ++ [ASleep (reorg_backoff_ms st.(consecutive_reorgs))] |>, Continue)
    end.

(** The worst 5 s window over the ranges so far. *)
Definition worst_window (r : SyncReport) (f : WireDetector.FetchStats) : float :=
  if bool_decide (f.(WireDetector.wire_samples) = []) then r.(wire_worst_window_mbps)
  else
    let w := WireDetector.worst_window_mbps f 5 in
    if ((0 <? w) && ((r.(wire_worst_window_mbps) =? 0) || (w <? r.(wire_worst_window_mbps))))%float
    then w else r.(wire_worst_window_mbps).

(** The end of a successful range. *)
Definition complete (range : ScanRange) (s : ScanStats) (f : WireDetector.FetchStats) (rd : Round)
    (st : PassState) : PassState * Turn :=
  let r := st.(report) in
  let r1 := mkReport (u64_add r.(ranges_processed) 1)
              (u64_add r.(fetch_blocks) f.(WireDetector.st_blocks))
              (u64_add r.(fetch_bytes) f.(WireDetector.st_bytes))
              (u64_add r.(scan_blocks) s.(Scan.sc_blocks))
              (u64_add r.(rep_sapling_received) s.(Scan.sapling_received))
              (u64_add r.(rep_orchard_received) s.(Scan.orchard_received))
              (Scan.add_interleaved r.(enhance) s.(Scan.interleaved_enhance))
              r.(rep_reorgs_recovered)
              (u64_add r.(wire_bytes) f.(WireDetector.st_bytes))
              (worst_window r f) in
  let r2 := match rd.(rd_enhance) with
            | Ok e => r1 <| enhance := add_range_end r1.(enhance) e |>
            | Err _ => r1 end in
  let p1 := if bool_decide (range.(priority) = ChainTip) then set_spendable <$> st.(progress) else st.(progress) in
  let p2 := add_ranges_completed rd.(rd_now) <$> p1 in
  let changed := match rd.(rd_tx_sig) with
                 | Some sig => negb (bool_decide (st.(last_tx_sig) = Some sig)) | None => false end in
  let p3 := if changed && bool_decide (is_Some st.(last_tx_sig))
            then bump_tx_set_version rd.(rd_now) <$> p2 else p2 in
  (st <| consecutive_reorgs := 0 |> <| report := r2 |>
      <| scanned_so_far := u64_add st.(scanned_so_far) s.(Scan.sc_blocks) |>
      <| progress := p3 |>
      <| last_tx_sig := match p2 with
                        | Some _ => if changed then rd.(rd_tx_sig) else st.(last_tx_sig)
                        | None => st.(last_tx_sig) end |>
      <| trace := st.(trace) ++ [AEnhance] |>, Continue).

(** The fetch and scan of one range, and what follows from their outcomes. *)
Definition process_range (range : ScanRange) (rd : Round) (st : PassState) : PassState * Turn :=
  let start := range.(r_start) in
  let end_exclusive := range.(r_end) in
  if end_exclusive <=? start
  then (st, Return (Err (Wallet ("degenerate scan range: start=" +:+ pretty start +:+
                            " end_exclusive=" +:+ pretty end_exclusive))))
  else
    let end_ := end_exclusive - 1 in
    let st := st <| progress := set_range_end end_ <$> st.(progress) |> in
    match ChunkQueue.chunk_queue c.(memory_budget_bytes), range_plan start end_ with
    | Some _, Some plan =>
      let st := st <| trace := st.(trace) ++ [AFetchScan plan (bool_decide (range.(priority) = Historic))] |>
                   <| progress := rd.(rd_work) <$> st.(progress) |> in
      match rd.(rd_fetch) with
      | Err msg => (st, Return (Err (Transport ("fetch task panicked: " +:+ msg))))
      | Ok fetch_result =>
        match rd.(rd_scan), fetch_result with
        | Err (ScanContinuity at_), _ => recover start end_exclusive at_ rd st
        | Err scan_err, _ => (st, Return (Err scan_err))
        | Ok _, Err fetch_err => (st, Return (Err fetch_err))
        | Ok s, Ok f => complete range s f rd st
        end
      end
    | _, _ => (st, Panic)
    end.

(** One turn of the loop. *)
Definition round (rd : Round) (st : PassState) : PassState * Turn :=
  match rd.(rd_ranges) with
  | Err e => (st, Return (Err e))
  | Ok ranges =>
    let st := st <| progress := set_recovering (is_recovering recover_until ranges) <$> st.(progress) |> in
    match ranges with
    | [] => (st, Return (Ok st.(report)))
    | range :: _ =>
      let st := match st.(progress) with
                | None => st
                | Some p =>
                  let '(p', so_far, _) :=
                    update_pass_progress p st.(scanned_so_far) (sum_remaining ranges) rd.(rd_birthday) in
                  st <| progress := Some p' |> <| scanned_so_far := so_far |>
                end in
      process_range range rd st
    end
  end.

(** The loop; [None]: the rounds given are used up. *)
Fixpoint run_rounds (rds : list Round) (st : PassState) : PassState * option Turn :=
  match rds with
  | [] => (st, None)
  | rd :: rds' =>
    match round rd st with
    | (st', Continue) => run_rounds rds' st'
    | (st', t) => (st', Some t)
    end
  end.

(** [run_to_completion]: the sweep of stranded graft rows, whose failure is only
    logged, then the loop. *)
Definition run_to_completion (p : option Progress) (tx_sig : option (Z * Z)) (rds : list Round)
  : PassState * option Turn :=
  run_rounds rds (mkPass p report_default 0 0 tx_sig [ASweep]).

(** ** Reorg recoveries *)

(** Truncations since the last completed range. *)
Definition recoveries_step (n : Z) (a : Action) : Z :=
  match a with ATruncate _ => n + 1 | AEnhance => 0 | _ => n end.
Definition recoveries (tr : list Action) : Z := foldl recoveries_step 0 tr.
Definition count (f : Action -> bool) (tr : list Action) : Z := Z.of_nat (length (filter (fun a => f a = true) tr)).
Definition is_truncate (a : Action) : bool := match a with ATruncate _ => true | _ => false end.
Definition is_enhance (a : Action) : bool := match a with AEnhance => true | _ => false end.

(** A fetch's plan is not empty and is cut and armed as configured. *)
Definition plan_for (a : Action) : Prop :=
  match a with
  | AFetchScan plan _ => plan.(FetchPlan.start) <= plan.(FetchPlan.end_) /\
      0 < plan.(FetchPlan.chunk_blocks) /\ plan.(FetchPlan.chunk_blocks) = c.(chunk_blocks) /\
      plan.(FetchPlan.streams) = c.(fetch_streams) /\
      plan.(FetchPlan.split_bytes) = c.(chunk_split_bytes) /\
      (is_Some plan.(FetchPlan.failover) <-> c.(wire_failover) = true /\ c.(alternate_endpoints) <> [])
  | _ => True
  end.

(** The inclusive ranges fetched, and the one a turn is told to work on. *)
Definition planned (tr : list Action) : list (Z * Z) :=
  omap (fun a => match a with
                 | AFetchScan plan _ => Some (plan.(FetchPlan.start), plan.(FetchPlan.end_)) | _ => None end) tr.
Definition suggested (rd : Round) : option (Z * Z) :=
  match rd.(rd_ranges) with Ok (r :: _) => Some (r.(r_start), r.(r_end) - 1) | _ => None end.

Lemma planned_app tr1 tr2 : planned (tr1 ++ tr2) = planned tr1 ++ planned tr2.
Proof. apply omap_app. Qed.

Lemma range_plan_range start end_ plan : range_plan start end_ = Some plan ->
  plan.(FetchPlan.start) = start /\ plan.(FetchPlan.end_) = end_.
Proof. unfold range_plan, FetchPlan.new. case_match; [|done]. case_match; [|done]. by intros [= <-]; simplify_eq. Qed.

Definition pass_inv (st : PassState) : Prop :=
  st.(consecutive_reorgs) = recoveries st.(trace) /\
  0 <= st.(consecutive_reorgs) <= MAX_CONSECUTIVE_REORGS /\
  count is_truncate st.(trace) <=
    MAX_CONSECUTIVE_REORGS * count is_enhance st.(trace) + st.(consecutive_reorgs) /\
  Forall plan_for st.(trace).

Lemma recoveries_snoc tr a : recoveries (tr ++ [a]) = recoveries_step (recoveries tr) a.
Proof. unfold recoveries. by rewrite foldl_app. Qed.

Lemma count_snoc f tr a : count f (tr ++ [a]) = count f tr + (if f a then 1 else 0).
Proof.
  unfold count. rewrite filter_app, length_app, filter_cons, filter_nil.
  destruct (f a); simpl; lia.
Qed.

Lemma count_nonneg f tr : 0 <= count f tr.
Proof. unfold count. lia. Qed.

Lemma range_plan_ok start end_ plan h : range_plan start end_ = Some plan -> plan_for (AFetchScan plan h).
Proof.
  unfold range_plan, FetchPlan.new. destruct (_ && _) eqn:E; [|done]. intros [= <-]. breflect. simpl.
  split_and!; try done.
  destruct (wire_failover c); simpl; [|split; [by intros []|by intros [? _]]].
  case_bool_decide; simpl; split; try done; by intros [].
Qed.

(** Whatever leaves the trace alone keeps the invariant. *)
Lemma pass_inv_frame st st' : pass_inv st -> st'.(trace) = st.(trace) ->
  st'.(consecutive_reorgs) = st.(consecutive_reorgs) -> pass_inv st'.
Proof. unfold pass_inv. intros H -> ->. done. Qed.

Lemma pass_inv_fetch st plan h p : pass_inv st -> plan_for (AFetchScan plan h) ->
  pass_inv (st <| trace := st.(trace) ++ [AFetchScan plan h] |> <| progress := p |>).
Proof.
  intros (H1 & H2 & H3 & H4) Hp. unfold pass_inv. simpl. rewrite recoveries_snoc, !count_snoc. simpl.
  split; [done|]. split; [done|]. split; [lia|]. apply Forall_app. auto.
Qed.

Lemma recover_inv start end_ at_ rd st st' t :
  pass_inv st -> recover start end_ at_ rd st = (st', t) ->
  count is_truncate st'.(trace) <= MAX_CONSECUTIVE_REORGS * (count is_enhance st'.(trace) + 1) /\
  Forall plan_for st'.(trace) /\ recoveries st'.(trace) <= MAX_CONSECUTIVE_REORGS /\
  (t = Continue -> pass_inv st').
Proof.
  intros (H1 & H2 & H3 & H4). unfold recover. simpl consecutive_reorgs.
  assert (MAX_CONSECUTIVE_REORGS = 5) as HM by done.
  destruct (Z.ltb_spec MAX_CONSECUTIVE_REORGS (st.(consecutive_reorgs) + 1)).
  { intros [= <- <-]. simpl. rewrite <-H1. repeat split; try done; lia. }
  set (tr1 := st.(trace) ++ [ATruncate (sat_sub at_ 10)]).
  assert (recoveries tr1 = st.(consecutive_reorgs) + 1 /\
    count is_truncate tr1 = count is_truncate st.(trace) + 1 /\
    count is_enhance tr1 = count is_enhance st.(trace) /\ Forall plan_for tr1) as (T1 & T2 & T3 & T4).
  { unfold tr1. rewrite recoveries_snoc, !count_snoc, Forall_app, H1. simpl.
    split_and!; try done; [lia|]. by repeat constructor. }
  destruct (rd_truncate rd); intros [= <- <-]; simpl; fold tr1.
  - rewrite recoveries_snoc, !count_snoc. simpl. rewrite T1, T2, T3.
    assert (Forall plan_for (tr1 ++ [ASleep (reorg_backoff_ms (st.(consecutive_reorgs) + 1))])) as T5
      by (apply Forall_app; split; [done|by repeat constructor]).
    split_and!; try done; try lia. intros _. unfold pass_inv. simpl. fold tr1.
    rewrite recoveries_snoc, !count_snoc. simpl. rewrite T1, T2, T3. split_and!; try done; lia.
  - rewrite T1, T2, T3. split_and!; try done; lia.
Qed.

Lemma complete_inv range s f rd st st' t :
  pass_inv st -> complete range s f rd st = (st', t) -> pass_inv st' /\ t = Continue.
Proof.
  intros (H1 & H2 & H3 & H4). unfold complete. intros [= <- <-]. split; [|done].
  unfold pass_inv. simpl. rewrite recoveries_snoc, !count_snoc. simpl. rewrite Forall_app.
  assert (MAX_CONSECUTIVE_REORGS = 5) as HM by done.
  repeat split; try done; try lia. by repeat constructor.
Qed.

Lemma pass_inv_bounds st : pass_inv st ->
  count is_truncate st.(trace) <= MAX_CONSECUTIVE_REORGS * (count is_enhance st.(trace) + 1) /\
  Forall plan_for st.(trace) /\ recoveries st.(trace) <= MAX_CONSECUTIVE_REORGS.
Proof. intros (H1 & H2 & H3 & H4). split; [lia|]. split; [done|]. lia. Qed.

Lemma process_range_inv range rd st st' t :
  pass_inv st -> process_range range rd st = (st', t) ->
  count is_truncate st'.(trace) <= MAX_CONSECUTIVE_REORGS * (count is_enhance st'.(trace) + 1) /\
  Forall plan_for st'.(trace) /\ recoveries st'.(trace) <= MAX_CONSECUTIVE_REORGS /\
  (t = Continue -> pass_inv st').
Proof.
  intros Hinv. unfold process_range. destruct (_ <=? _).
  { intros [= <- <-]. destruct (pass_inv_bounds _ Hinv) as (? & ? & ?). auto. }
  destruct (ChunkQueue.chunk_queue c.(memory_budget_bytes)) as [q|],
    (range_plan range.(r_start) (range.(r_end) - 1)) as [plan|] eqn:Ep.
  2-4: intros [= <- <-]; destruct (pass_inv_bounds _ Hinv) as (? & ? & ?); auto.
  set (st1 := _ <| progress := rd_work rd <$> _ |>).
  assert (pass_inv st1) as H1 by (apply pass_inv_fetch; [done|by eapply range_plan_ok]).
  destruct (pass_inv_bounds _ H1) as (B1 & B2 & B3).
  destruct (rd_fetch rd) as [fr|msg]; [|intros [= <- <-]; auto].
  destruct (rd_scan rd) as [s|e]; [destruct fr as [f|fe]|].
  - intros Hc. destruct (complete_inv _ _ _ _ _ _ _ H1 Hc) as [H2 ->].
    destruct (pass_inv_bounds _ H2) as (? & ? & ?). auto.
  - intros [= <- <-]. auto.
  - destruct e; try (intros [= <- <-]; by auto). intros Hr. by eapply recover_inv.
Qed.

Lemma round_inv rd st st' t :
  pass_inv st -> round rd st = (st', t) ->
  count is_truncate st'.(trace) <= MAX_CONSECUTIVE_REORGS * (count is_enhance st'.(trace) + 1) /\
  Forall plan_for st'.(trace) /\ recoveries st'.(trace) <= MAX_CONSECUTIVE_REORGS /\
  (t = Continue -> pass_inv st').
Proof.
  intros Hinv. destruct (pass_inv_bounds _ Hinv) as (B1 & B2 & B3). unfold round.
  destruct (rd_ranges rd) as [[|range ranges]|e]; [intros [= <- <-]; by auto| |intros [= <- <-]; by auto].
  set (st1 := match _ with Some p => _ | None => _ end). intros Hp.
  apply (process_range_inv range rd st1); [|done].
  apply (pass_inv_frame st); [done|..]; unfold st1; simpl; destruct (progress st); try done;
    simpl; by destruct (update_pass_progress _ _ _ _) as [[]].
Qed.

Lemma run_rounds_inv rds : forall st st' t, pass_inv st -> run_rounds rds st = (st', t) ->
  count is_truncate st'.(trace) <= MAX_CONSECUTIVE_REORGS * (count is_enhance st'.(trace) + 1) /\
  Forall plan_for st'.(trace) /\ recoveries st'.(trace) <= MAX_CONSECUTIVE_REORGS.
Proof.
  induction rds as [|rd rds IH]; intros st st' t Hinv; simpl.
  { intros [= <- <-]. by apply pass_inv_bounds. }
  destruct (round rd st) as [st1 t1] eqn:E. destruct (round_inv _ _ _ _ Hinv E) as (B1 & B2 & B3 & Hc).
  destruct t1; [|by intros [= <- <-]..]. intros Hr. by eapply IH; [apply Hc|].
Qed.

Lemma pass_inv_init p sig : pass_inv (mkPass p report_default 0 0 sig [ASweep]).
Proof. unfold pass_inv. simpl. repeat split; try done. by repeat constructor. Qed.

(** ** The ranges fetched *)

Lemma recover_planned start end_ at_ rd st st' t :
  recover start end_ at_ rd st = (st', t) -> planned st'.(trace) = planned st.(trace).
Proof.
  unfold recover. case_match; [by intros [= <- <-]|]. case_match; intros [= <- <-]; simpl;
    rewrite ?planned_app; simpl; by rewrite ?app_nil_r.
Qed.

(** A turn fetches the first range suggested, unless the pass ends. *)
Lemma round_planned rd st st' t : round rd st = (st', t) ->
  planned st'.(trace) = planned st.(trace) ++ option_list (suggested rd) \/
  planned st'.(trace) = planned st.(trace) /\ t <> Continue.
Proof.
  unfold round, suggested. destruct (rd_ranges rd) as [[|range ranges]|e];
    [intros [= <- <-]; by right| |intros [= <- <-]; by right].
  set (st1 := match _ with Some p => _ | None => _ end).
  assert (st1.(trace) = st.(trace)) as <-.
  { unfold st1. simpl. destruct (progress st); [|done]. simpl.
    by destruct (update_pass_progress _ _ _ _) as [[]]. }
  unfold process_range. destruct (_ <=? _); [intros [= <- <-]; by right|].
  destruct (ChunkQueue.chunk_queue c.(memory_budget_bytes)) as [q|],
    (range_plan range.(r_start) (range.(r_end) - 1)) as [plan|] eqn:Ep.
  2-4: intros [= <- <-]; by right.
  apply range_plan_range in Ep as [E1 E2]. intros H. left.
  transitivity (planned (trace st1 ++ [AFetchScan plan (bool_decide (range.(priority) = Historic))])).
  2: { rewrite planned_app. simpl. by rewrite E1, E2. }
  destruct (rd_fetch rd) as [fr|msg]; [|by injection H as <- <-].
  destruct (rd_scan rd) as [s|e]; [destruct fr as [f|fe]; [|by injection H as <- <-]|].
  - unfold complete in H. injection H as <- <-. simpl. rewrite !planned_app. simpl. by rewrite app_nil_r.
  - destruct e; try (by injection H as <- <-). by apply recover_planned in H.
Qed.

Lemma run_rounds_planned rds : forall st st' t, run_rounds rds st = (st', t) ->
  exists k, planned st'.(trace) = planned st.(trace) ++ take k (omap suggested rds).
Proof.
  induction rds as [|rd rds IH]; intros st st' t; simpl.
  { intros [= <- <-]. exists 0%nat. by rewrite app_nil_r. }
  destruct (round rd st) as [st1 t1] eqn:E. intros H.
  destruct (round_planned _ _ _ _ E) as [Hp|[Hp Ht]].
  - destruct t1.
    + apply IH in H as [k Hk]. rewrite Hk, Hp, <-app_assoc.
      destruct (suggested rd); simpl; [by exists (S k)|by exists k].
    + injection H as <- _. destruct (suggested rd); simpl in *; [exists 1%nat|exists 0%nat]; by rewrite Hp.
    + injection H as <- _. destruct (suggested rd); simpl in *; [exists 1%nat|exists 0%nat]; by rewrite Hp.
  - destruct t1; [done|..]; injection H as <- _; exists 0%nat; by rewrite Hp, app_nil_r.
Qed.

(** ** Completion *)

Lemma round_ok_empty rd st st' r : round rd st = (st', Return (Ok r)) ->
  rd.(rd_ranges) = Ok [] /\ r = st'.(report).
Proof.
  unfold round. destruct (rd_ranges rd) as [[|range ranges]|e]; [by intros [= <- <-]| |done].
  unfold process_range, recover, complete. intros Hp. exfalso. revert Hp.
  repeat (case_match; try done).
Qed.

Lemma round_continue rd st st' : round rd st = (st', Continue) ->
  exists range ranges, rd.(rd_ranges) = Ok (range :: ranges) /\ range.(r_start) < range.(r_end).
Proof.
  unfold round. destruct (rd_ranges rd) as [[|range ranges]|e]; [done| |done].
  unfold process_range. destruct (Z.leb_spec range.(r_end) range.(r_start)); [done|].
  intros _. eauto.
Qed.

Lemma run_rounds_ok rds : forall st st' r, run_rounds rds st = (st', Some (Return (Ok r))) ->
  exists pre rd post, rds = pre ++ rd :: post /\ rd.(rd_ranges) = Ok [] /\ r = st'.(report) /\
    Forall (fun rd => exists range ranges, rd.(rd_ranges) = Ok (range :: ranges) /\
                      range.(r_start) < range.(r_end)) pre.
Proof.
  induction rds as [|rd rds IH]; intros st st' r; simpl; [done|].
  destruct (round rd st) as [st1 t] eqn:E. destruct t as [|res|].
  - intros Hr. apply IH in Hr as (pre & rd' & post & -> & H1 & H2 & H3).
    exists (rd :: pre), rd', post. split_and!; try done. constructor; [|done].
    by eapply round_continue.
  - intros [= -> ->]. destruct (round_ok_empty _ _ _ _ E) as [H1 H2].
    exists [], rd, rds. split_and!; try done.
  - done.
Qed.

(** ** Panics *)

(** With a chunk length and a budget the queue can hold, no turn panics. *)
Lemma round_no_panic rd st : 0 < c.(chunk_blocks) -> is_Some (ChunkQueue.chunk_queue c.(memory_budget_bytes)) ->
  (round rd st).2 <> Panic.
Proof.
  intros Hb [q Hq]. unfold round. destruct (rd_ranges rd) as [[|range ranges]|e]; [done| |done].
  unfold process_range. rewrite Hq. destruct (Z.leb_spec range.(r_end) range.(r_start)); [done|].
  unfold range_plan, FetchPlan.new.
  rewrite (proj2 (Z.leb_le _ _)), (proj2 (Z.ltb_lt _ _)) by lia. cbn [andb].
  destruct (rd_fetch rd) as [fr|]; [|done]. destruct (rd_scan rd) as [s|e]; [by destruct fr|].
  destruct e; try done. unfold recover. repeat case_match; done.
Qed.

Lemma run_rounds_end rds : forall st st' t, 0 < c.(chunk_blocks) ->
  is_Some (ChunkQueue.chunk_queue c.(memory_budget_bytes)) ->
  run_rounds rds st = (st', Some t) -> exists res, t = Return res.
Proof.
  induction rds as [|rd rds IH]; intros st st' t Hb Hq; simpl; [done|].
  pose proof (round_no_panic rd st Hb Hq) as Hp.
  destruct (round rd st) as [st1 t1]. destruct t1; [by apply IH|intros [= <- <-]; eauto|done].
Qed.
End Loop.

(** How a pass ends. *)
Inductive PassEnd := Returned (res : Res SyncReport) | PassPanicked | PassRunning.
Definition pass_end (t : option Turn) : PassEnd :=
  match t with
  | Some (Return res) => Returned res
  | Some Panic => PassPanicked
  | Some Continue | None => PassRunning
  end.

(** ** Wire collapses *)

(** What a fetch promises the pass that runs it: it reports a wire collapse only
    for a plan that is armed.  [fetches plan res]: a fetch of [plan] may end with
    [res]. *)
Class FetchContract (fetches : FetchPlan.FetchPlan -> Res WireDetector.FetchStats -> Prop) : Prop :=
  collapse_armed plan m f : fetches plan (Err (WireCollapse m f)) -> is_Some plan.(FetchPlan.failover).

Definition is_collapse {A} (res : Res A) : bool :=
  match res with Err (WireCollapse _ _) => true | _ => false end.

(** What a scan promises it: no wire collapse, which is the fetch's error alone.
    [scans res]: a scan of a range may end with [res]. *)
Class ScanContract (scans : Res ScanStats -> Prop) : Prop :=
  scan_no_collapse res : scans res -> is_collapse res = false.

#[export] Instance run_scan_contract `{Treestate.Trees Fs Fo Fi Ns No} `{EqDecision Fs} `{EqDecision Fo} `{EqDecision Fi}
    {DB F P TS} `{!Scan.ScanBackend (Treestate.ChainState Fs Fo Fi) DB F P} (tcs : TS -> result string _) :
  ScanContract (ScanCalls.run_scan tcs).
Proof. intros [s|e] Hr; [done|]. apply (ScanCalls.run_scan_not_collapse tcs _ e) in Hr; [|done]. by destruct e. Qed.

Section Collapse.
Context (fetches : FetchPlan.FetchPlan -> Res WireDetector.FetchStats -> Prop) `{!FetchContract fetches}.
Context (scans : Res ScanStats -> Prop) `{!ScanContract scans}.
Context (c : EngineConfig) (recover_until : option Z).

(** What the calls of a turn answer: the wallet raises no collapse, the scan's answer is
    that of a scan and the fetch's that of a fetch of the turn's plan. *)
Definition round_ok (rd : Round) : Prop :=
  is_collapse rd.(rd_ranges) = false /\ scans rd.(rd_scan) /\
  is_collapse rd.(rd_truncate) = false /\
  forall range ranges plan res, rd.(rd_ranges) = Ok (range :: ranges) ->
    range_plan c range.(r_start) (range.(r_end) - 1) = Some plan -> rd.(rd_fetch) = Ok res -> fetches plan res.

Lemma round_collapse rd st st' m f : round_ok rd ->
  round c recover_until rd st = (st', Return (Err (WireCollapse m f))) ->
  c.(wire_failover) = true /\ c.(alternate_endpoints) <> [].
Proof.
  intros (H1 & H2%scan_no_collapse & H3 & Hf). unfold round.
  destruct (rd_ranges rd) as [[|range ranges]|e] eqn:Er; [done| |by intros [= _ ->]].
  unfold process_range. destruct (_ <=? _); [done|].
  destruct (ChunkQueue.chunk_queue c.(memory_budget_bytes)); [|done].
  destruct (range_plan c range.(r_start) (range.(r_end) - 1)) as [plan|] eqn:Ep; [|done].
  destruct (rd_fetch rd) as [fr|] eqn:Efr; [|done].
  specialize (Hf range ranges plan fr eq_refl Ep eq_refl).
  destruct (rd_scan rd) as [s|e]; [destruct fr as [ft|fe]|].
  - by unfold complete.
  - intros [= _ ->]. apply (range_plan_ok c _ _ _ false) in Ep as (_ & _ & _ & _ & _ & [Ha _]).
    apply Ha. by eapply collapse_armed.
  - destruct e; try done. unfold recover. case_match; [done|].
    destruct (rd_truncate rd); [done|]. by intros [= _ ->].
Qed.

(** A pass ends in a wire collapse only when its configuration arms the detector. *)
Lemma run_rounds_collapse rds : forall st st' res, Forall round_ok rds ->
  run_rounds c recover_until rds st = (st', Some (Return res)) -> is_collapse res = true ->
  c.(wire_failover) = true /\ c.(alternate_endpoints) <> [].
Proof.
  induction rds as [|rd rds IH]; intros st st' res Hok; simpl; [done|].
  apply Forall_cons in Hok as [Hrd Hok]. destruct (round c recover_until rd st) as [st1 [|r|]] eqn:E.
  - by apply IH.
  - intros [= <- <-]. destruct r as [|[]]; try done. intros _. by eapply round_collapse.
  - done.
Qed.
End Collapse.

(** ** Properties *)

(** C22: Reorg recovery cannot ping-pong: in any pass, however the server behaves and however it ends,
    the wallet is never truncated more than five times without a completed range between, so at
    most five times per completed range and five more; and the ranges fetched are exactly the
    first range of each suggestion, in order, as far as the pass got, each by a plan cut, split
    and armed for failover as configured. *)
Theorem pass_bounds_reorgs c ru p sig rds st t :
  run_to_completion c ru p sig rds = (st, t) ->
  recoveries st.(trace) <= MAX_CONSECUTIVE_REORGS /\
  count is_truncate st.(trace) <= MAX_CONSECUTIVE_REORGS * (count is_enhance st.(trace) + 1) /\
  Forall (plan_for c) st.(trace) /\
  exists k, planned st.(trace) = take k (omap suggested rds).
Proof.
  intros Hr. destruct (run_rounds_inv c ru rds _ _ _ (pass_inv_init c p sig) Hr) as (H1 & H2 & H3).
  split_and!; try done. by apply (run_rounds_planned c ru) in Hr.
Qed.

Definition sample_config : EngineConfig := config_new (mkEndpoint "zec.rocks" 443 true).
Definition reorg_round (at_ : Z) : Round :=
  mkRound (Ok [mkScanRange 100 200 ChainTip]) (Some 100) id (Err (ScanContinuity at_)) (Ok (Err Stopped)) (Ok tt)
    (Ok enhance_default) None 0.

(** Five recoveries with growing waits, then the error. *)
Lemma pass_bounds_reorgs_witness :
  let '(st, t) := run_to_completion sample_config None None None (replicate 8 (reorg_round 150)) in
  t = Some (Return (Err (ScanContinuity 150))) /\ recoveries st.(trace) <= MAX_CONSECUTIVE_REORGS.
Proof.
  destruct (run_to_completion sample_config None None None (replicate 8 (reorg_round 150))) as [st t] eqn:E.
  split; [vm_compute in E; injection E as _ <-; reflexivity|].
  exact (proj1 (pass_bounds_reorgs sample_config None None None (replicate 8 (reorg_round 150)) st t E)).
Defined.

(** A pass reports completion only when the wallet's scan queue is empty: it returns its report
    at the first suggestion with no range left, every suggestion before it having named a
    non-empty range that was worked on. *)
Theorem pass_completes_drained c ru p sig rds st r :
  run_to_completion c ru p sig rds = (st, Some (Return (Ok r))) ->
  exists pre rd post, rds = pre ++ rd :: post /\ rd.(rd_ranges) = Ok [] /\ r = st.(report) /\
    Forall (fun rd => exists range ranges, rd.(rd_ranges) = Ok (range :: ranges) /\
                      range.(r_start) < range.(r_end)) pre.
Proof. apply run_rounds_ok. Qed.

Definition good_round (ranges : list ScanRange) : Round :=
  mkRound (Ok ranges) (Some 100) id (Ok (mkScanStats 100 1 1 2 enhance_default))
    (Ok (Ok (WireDetector.mkFetchStats 100 5000 1 []))) (Ok tt) (Ok enhance_default) None 0.

Definition drained_rounds : list Round :=
  [good_round [mkScanRange 100 200 ChainTip]; reorg_round 150; good_round [mkScanRange 140 200 Verify];
   good_round []].

Example pass_completes_drained_instance :
  let '(st, t) := run_to_completion sample_config None None None drained_rounds in
  t = Some (Return (Ok st.(report))) /\ st.(report).(rep_reorgs_recovered) = 1 /\
  exists pre rd post, drained_rounds = pre ++ rd :: post /\ rd.(rd_ranges) = Ok [].
Proof.
  destruct (run_to_completion sample_config None None None drained_rounds) as [st t] eqn:E.
  assert (t = Some (Return (Ok st.(report)))) as Ht by (vm_compute in E; injection E as <- <-; reflexivity).
  split; [exact Ht|]. split; [vm_compute in E; injection E as <- _; reflexivity|]. subst t.
  destruct (pass_completes_drained sample_config None None None drained_rounds st st.(report) E)
    as (pre & rd & post & H1 & H2 & _).
  exists pre, rd, post. split; [exact H1|exact H2].
Qed.

End Pass.
