(* ===== verification/PassFile.v ===== *)
(** * A pass over the wallet file

    [Pass.v] is the loop of [run_to_completion] with the answers of its calls as inputs; here the
    calls run on the wallet file.  The sweep, the commits of a range with their range-end finish,
    and the truncation of a reorg recovery are the definitions of [Sweep], [PutBlocks] and
    [WalletSession]; the ranges a round works on are the ones the file suggests.  Enhancement
    writes no tree and no block.  The chain the server serves may change at any time above what
    the wallet has scanned, and does so for a wallet that was rewound.

    The composition shows that what each of the parts keeps, a pass keeps: of the blocks from the
    wallet's birthday on, as the sweep keeps no more ([Sweep.tracked]). *)

From S2P Require Export Tracked Pass.

Module PassFile.
Import GraftAccumulator SparseStore GraftBuffer GraftPlan PutBlocks Sweep WalletSession Tracked.
Import Config(EngineConfig, graft_subtree).
Import Scheduler(ScanRange, r_start, r_end).
#[local] Existing Instance Scheduler.scan_priority_eq_dec.

(** A chain: the block each commitment is in, and the tree sizes at the blocks' ends. *)
Record Chain := mkChain { block_of : ShieldedPool -> Z -> Z; size : ShieldedPool -> Z -> Z }.

Section File.
Context {W Ns No Ts To Cs Co Fs Fo Key : Type} `{!EqDecision Ns} `{!HashSer Ns} `{!EqDecision No} `{!HashSer No}.
Context (PS : PoolLib W Ns Ts Cs Fs) (PO PI : PoolLib W No To Co Fo) `{!WalletLib W Ns No Fs Fo} `{!SweepLib W} `{!SessionDb W Key}.
Context `{!ShardLeaves Ns Ts} `{!ShardLeaves No To} (fault : nat -> option string).
Abbreviation View := (WalletView (W := W) (Ts := Ts) (To := To) (Cs := Cs) (Co := Co)).
Context (U : View) (c : EngineConfig) (recover_until : option Z) (anchors : option (Z -> bool)).
Abbreviation V := (tracked U).
Abbreviation State := (ChainState Fs Fo).
Abbreviation Block := (ScannedBlock Ns No).
Abbreviation SparseState := (SparseTreeState (Hs := Ns) (Ho := No) (Ts := Ts) (To := To) (Cs := Cs) (Co := Co)).

(** The chain, and the file. *)
Definition Conf : Type := Chain * World W.

(** ** Writes that concern neither trees nor blocks *)

Definition unrelated (d d' : W) : Prop :=
  same_trees U d d' /\ same_records d d' /\ forall h, scanned U d' h -> scanned U d h.
Inductive writes : World W -> World W -> Prop :=
| writes_none w : writes w w
| writes_one w d w' : unrelated w.(wallet) d ->
    writes (mkWorld w.(table) d w.(statements) ((w.(table), w.(wallet)) :: w.(crashes))) w' -> writes w w'.

(** ** A range *)

(** The commits of a range, with enhancement in between, up to an error, an end of the scan, or
    the finish after the last one. *)
Inductive range_run : SparseState -> list (State * list Block) -> World W -> World W -> Prop :=
| range_ends sp calls w : range_run sp calls w w
| range_fails sp fs bs calls w w' e : sparse_put_blocks PS PO PI fault sp fs bs w = (w', Err e) -> range_run sp ((fs, bs) :: calls) w w'
| range_goes_on sp fs bs calls w w1 sp1 w2 w3 : sparse_put_blocks PS PO PI fault sp fs bs w = (w1, Ok sp1) -> writes w1 w2 ->
    range_run sp1 calls w2 w3 -> range_run sp ((fs, bs) :: calls) w w3
| range_finishes sp w w' r : finish_graft_blocking PS PO fault sp w = (w', r) -> range_run sp [] w w'.

(** ** The actions of a pass *)

(** The blocks of a range are the chain's: their tree sizes, and where their commitments are. *)
Definition of_chain (ch : Chain) (calls : list (State * list Block)) : Prop :=
  (forall call b pool, call ∈ calls -> b ∈ call.2 -> block_size pool b = ch.(size) pool b.(b_height)) /\
  (forall call pool p, call ∈ calls -> in_call call.1 call.2 (ch.(block_of) pool p) ->
    ch.(size) pool (ch.(block_of) pool p - 1) <= p < ch.(size) pool (ch.(block_of) pool p)).

Inductive file_step (rd : Pass.Round) : Pass.Action -> Conf -> Conf -> Prop :=
| step_sweep opened ch w w' r :
    sweep_stranded_graft_rows PS PO fault opened c.(graft_subtree) anchors w = (w', r) ->
    file_step rd Pass.ASweep (ch, w) (ch, w')
| step_range plan (historic : bool) sample zs zo calls ch w w' :
    linked PS PO PI ch.(block_of) zs zo calls -> of_chain ch calls ->
    Forall (fun call => forall h, in_call call.1 call.2 h -> plan.(FetchPlan.start) <= h <= plan.(FetchPlan.end_)) calls ->
    range_run (fresh_sparse anchors (if c.(graft_subtree) && historic then Some sample else None)) calls w w' ->
    file_step rd (Pass.AFetchScan plan historic) (ch, w) (ch, w')
| step_truncate h ch w w' r :
    truncate_to_height fault h w = (w', Ok r) -> rd.(Pass.rd_truncate) = (match r with Ok _ => Ok tt | Err e => Err e end) ->
    file_step rd (Pass.ATruncate h) (ch, w) (ch, w')
| step_sleep ms x : file_step rd (Pass.ASleep ms) x x
| step_enhance ch w w' : writes w w' -> file_step rd Pass.AEnhance (ch, w) (ch, w').

(** The server goes over to another chain that has the blocks the wallet has scanned. *)
Definition drift (ch ch' : Chain) (w : World W) : Prop :=
  follows V ch'.(block_of) ch'.(size) w.(wallet) /\
  forall pool p, scanned V w.(wallet) (ch'.(block_of) pool p) -> ch.(block_of) pool p = ch'.(block_of) pool p.

Inductive file_steps (rd : Pass.Round) : list Pass.Action -> Conf -> Conf -> Prop :=
| steps_none x : file_steps rd [] x x
| steps_one a acts x y z : file_step rd a x y -> file_steps rd acts y z -> file_steps rd (a :: acts) x z
| steps_drift acts ch ch' w z : drift ch ch' w -> file_steps rd acts (ch', w) z -> file_steps rd acts (ch, w) z.

(** The rounds of a pass: each starts from the ranges the file suggests. *)
Inductive file_rounds : list Pass.Round -> Pass.PassState -> Conf -> Pass.PassState -> option Pass.Turn -> Conf -> Prop :=
| rounds_end st x : file_rounds [] st x st None x
| rounds_stop rd rds st st' t acts x y : rd.(Pass.rd_ranges) = session_scan_ranges x.2.(wallet) ->
    Pass.round c recover_until rd st = (st', t) -> t <> Pass.Continue ->
    st'.(Pass.trace) = st.(Pass.trace) ++ acts -> file_steps rd acts x y -> file_rounds (rd :: rds) st x st' (Some t) y
| rounds_go_on rd rds st st' acts x y st'' t z : rd.(Pass.rd_ranges) = session_scan_ranges x.2.(wallet) ->
    Pass.round c recover_until rd st = (st', Pass.Continue) ->
    st'.(Pass.trace) = st.(Pass.trace) ++ acts -> file_steps rd acts x y -> file_rounds rds st' y st'' t z ->
    file_rounds (rd :: rds) st x st'' t z.

(** A pass: the sweep, then the rounds. *)
Definition file_pass (p : option Progress.Progress) (sig : option (Z * Z)) (rds : list Pass.Round) (x : Conf) (st : Pass.PassState)
    (t : option Pass.Turn) (y : Conf) : Prop :=
  exists rd x1, file_step rd Pass.ASweep x x1 /\
    file_rounds rds (Pass.mkPass p Pass.report_default 0 0 sig [Pass.ASweep]) x1 st t y.

(** ** Health *)

Definition healthy (x : Conf) : Prop :=
  safe V x.1.(block_of) x.2.(table) x.2.(wallet) /\ well_keyed x.2.(table) /\ follows V x.1.(block_of) x.1.(size) x.2.(wallet).

(** From one configuration to another through states of the file that are all safe for the chain
    of their time. *)
Inductive safely : Conf -> Conf -> Prop :=
| safely_here x : healthy x -> safely x x
| safely_goes ch w w' y : always (safe V ch.(block_of)) w w' -> safely (ch, w') y -> safely (ch, w) y
| safely_drifts ch ch' w y : drift ch ch' w -> safely (ch', w) y -> safely (ch, w) y.

Lemma safely_healthy x y : safely x y -> healthy y.
Proof. by induction 1. Qed.
Lemma safely_trans x y z : safely x y -> safely y z -> safely x z.
Proof. induction 1; [done|..]; intros Hz; [eapply safely_goes|eapply safely_drifts]; eauto. Qed.
Lemma safely_one ch w w' : always (safe V ch.(block_of)) w w' -> healthy (ch, w') -> safely (ch, w) (ch, w').
Proof. intros A Hh. eapply safely_goes; [exact A|by apply safely_here]. Qed.

Lemma drift_healthy ch ch' w : drift ch ch' w -> healthy (ch, w) -> healthy (ch', w).
Proof.
  intros [Hf Ha] (Hs & Hk & _). split; [|by split]. intros pool p Hp. cbn in *. apply Hs. by rewrite (Ha pool p Hp).
Qed.

(** Unrelated writes. *)
Lemma unrelated_tracked d d' : unrelated d d' -> same_records d d' /\ forall h, scanned V d' h -> scanned V d h.
Proof. intros (_ & R & Hu). split; [exact R|]. intros h. exact (tracked_onward U d d' h (proj1 R) (Hu h)). Qed.
Lemma unrelated_safe bo t d d' : unrelated d d' -> safe V bo t d -> safe V bo t d'.
Proof.
  intros Hd Hs pool p Hp. destruct (unrelated_tracked _ _ Hd) as [_ Hu]. destruct Hd as ((T1 & T2 & T3) & _). destruct (Hs pool p (Hu _ Hp)) as [Hc|]; [left|by right].
  destruct pool; cbn [covered] in *; by eapply in_tree_same.
Qed.
Lemma unrelated_trans d1 d2 d3 : unrelated d1 d2 -> unrelated d2 d3 -> unrelated d1 d3.
Proof. intros (A & B & D) (A' & B' & D'). split; [by eapply same_trees_trans|]. split; [by etransitivity|auto]. Qed.
Lemma writes_safe bo w w' : writes w w' -> safe V bo w.(table) w.(wallet) ->
  always (safe V bo) w w' /\ w'.(table) = w.(table) /\ unrelated w.(wallet) w'.(wallet).
Proof.
  induction 1 as [w|w d w' Hu _ IH]; intros Hs.
  { split; [by apply always_refl|]. split; [done|]. split; [by split_and!|by split]. }
  destruct (IH (unrelated_safe _ _ _ _ Hu Hs)) as (A & Et & Hu'). split_and!; [|done|by eapply unrelated_trans].
  eapply always_trans; [|exact A]. split; [by eapply unrelated_safe|]. exists [(w.(table), w.(wallet))].
  split; [done|by apply Forall_singleton].
Qed.

(** ** What the laws give *)

Context {WL : WalletLaws PS PO PI U} {RC : RecordLaws PS PO PI} {SL : SweepLaws U} {AL : AccountLaws U} {RL : RewindLaws U}.

Lemma writes_ready bo sp zs zo w w' : writes w w' -> ready PS PO PI V bo sp zs zo w ->
  always (safe V bo) w w' /\ ready PS PO PI V bo sp zs zo w'.
Proof.
  intros Hw [R1 R2 R3 R4 R5 R6]. destruct (writes_safe _ _ _ Hw R6) as (A & Et & (T1 & T2 & T3) & _ & _). split; [exact A|].
  split; [intros s Hs; eapply in_step_same; [exact T1|by apply R1]|intros s Hs; eapply in_step_same; [exact T2|by apply R2]
         |intros s Hs; eapply in_step_same; [exact T3|by apply R3]|done|by rewrite Et|apply A].
Qed.

Lemma range_run_safe bo sp calls w w' : range_run sp calls w w' -> forall zs zo, ready PS PO PI V bo sp zs zo w ->
  linked PS PO PI bo zs zo calls -> Forall (fun call => forall h, in_call call.1 call.2 h -> ~ scanned V w.(wallet) h) calls ->
  always (safe V bo) w w' /\ well_keyed w'.(table).
Proof.
  induction 1 as [sp calls w|sp fs bs calls w w' e E|sp fs bs calls w w1 sp1 w2 w3 E Hw _ IH|sp w w' r E]; intros zs zo Hr Hl Hun.
  - split; [apply always_refl, Hr|apply Hr].
  - destruct Hl as (<- & <- & Hpl & _). apply Forall_cons in Hun as [Hun _].
    by destruct (sparse_put_blocks_spec _ _ _ _ _ _ _ _ _ _ _ _ Hr Hpl Hun E) as (A & K & _).
  - destruct Hl as (<- & <- & Hpl & Hdis & Hl). apply Forall_cons in Hun as [Hun Huns].
    destruct (sparse_put_blocks_spec _ _ _ _ _ _ _ _ _ _ _ _ Hr Hpl Hun E) as (A & K & P).
    destruct (P _ eq_refl) as [Hr1 Sc]. destruct (writes_ready _ _ _ _ _ _ Hw Hr1) as [A2 Hr2].
    destruct (writes_safe _ _ _ Hw (proj1 A)) as (_ & _ & [_ Hu]%unrelated_tracked).
    destruct (IH _ _ Hr2 Hl) as [A3 K3]; [|split; [|exact K3]; eapply always_trans; [exact A|]; by eapply always_trans].
    apply Forall_forall. intros call Hc h Hh Hsc. rewrite Forall_forall in Huns, Hdis.
    destruct (Sc h (Hu h Hsc)) as [Hold|Hnew]; [by apply (Huns call Hc h)|by apply (Hdis call Hc h)].
  - exact (finish_safe _ _ _ _ _ _ _ _ _ _ _ _ Hr E).
Qed.

Lemma writes_grown (calls : list (State * list Block)) w w' : writes w w' -> grown V calls w.(wallet) w'.(wallet).
Proof.
  induction 1 as [w|w d w' Hu _ IH]; [reflexivity|]. destruct (unrelated_tracked _ _ Hu) as [R Hs].
  transitivity d; [by apply records_grown|exact IH].
Qed.
Lemma range_run_grown all sp calls w w' : range_run sp calls w w' -> calls ⊆ all -> grown V all w.(wallet) w'.(wallet).
Proof.
  induction 1 as [sp calls w|sp fs bs calls w w' e E|sp fs bs calls w w1 sp1 w2 w3 E Hw _ IH|sp w w' r E]; intros Hin.
  - reflexivity.
  - eapply (put_moves PS PO PI fault V all); [apply Hin; by apply elem_of_cons; left|exact E].
  - transitivity w1.(wallet); [eapply (put_moves PS PO PI fault V all); [apply Hin; by apply elem_of_cons; left|exact E]|].
    transitivity w2.(wallet); [by apply writes_grown|]. apply IH. intros x Hx. apply Hin. by apply elem_of_cons; right.
  - by eapply (finish_moves PS PO PI fault V all).
Qed.

(** Nothing of the plan is scanned yet. *)
Definition unscanned (a : Pass.Action) (w : World W) : Prop :=
  match a with
  | Pass.AFetchScan plan _ => forall h, plan.(FetchPlan.start) <= h <= plan.(FetchPlan.end_) -> ~ scanned V w.(wallet) h
  | _ => True
  end.

Lemma step_safely rd a x y : file_step rd a x y -> unscanned a x.2 -> healthy x -> safely x y.
Proof.
  intros [opened ch w w' r E|plan historic sample zs zo calls ch w w' Hl Hch Hin Hrun|h ch w w' r E _|ms x0|ch w w' Hw] Hun Hh.
  - destruct (sweep_onward PS PO PI fault U ch.(block_of) (size := ch.(size)) _ _ _ _ _ _ Hh E) as (A & K & Hu & Hb).
    apply safely_one; [exact A|]. split_and!; [apply A|exact K|]. eapply follows_onward; [exact Hb|exact Hu|apply Hh].
  - destruct Hh as (Hs & Hk & Hf).
    destruct (range_run_safe ch.(block_of) _ _ _ _ Hrun zs zo) as [A K]; [by apply fresh_ready|exact Hl| |apply safely_one; [exact A|]].
    + eapply Forall_impl; [exact Hin|]. intros call Hc h Hh. apply Hun. by apply Hc.
    + split_and!; [apply A|exact K|]. cbn in *. destruct Hch as [Hb Hp].
      eapply grown_follows; [exact Hf|by eapply range_run_grown|exact Hb|exact Hp].
  - destruct Hh as (Hs & Hk & Hf). destruct (truncate_spec fault V ch.(block_of) ch.(size) _ _ _ _ Hs Hk Hf E) as (A & K & Hf' & _).
    apply safely_one; [exact A|]. by split_and!; [apply A|..].
  - by apply safely_here.
  - destruct Hh as (Hs & Hk & Hf). destruct (writes_safe _ _ _ Hw Hs) as (A & Et & [Hb Hu]%unrelated_tracked). apply safely_one; [exact A|].
    cbn in *. split_and!; cbn; [apply A|by rewrite Et|by eapply follows_onward].
Qed.

(** *** The rounds *)

Definition is_fetch (a : Pass.Action) : bool := match a with Pass.AFetchScan _ _ => true | _ => false end.

(** A round fetches at most once, first, and what the wallet suggested first. *)
Lemma round_actions rd st st' t acts : Pass.round c recover_until rd st = (st', t) -> st'.(Pass.trace) = st.(Pass.trace) ++ acts ->
  acts = [] \/ exists range ranges plan b rest, rd.(Pass.rd_ranges) = Ok (range :: ranges) /\ acts = Pass.AFetchScan plan b :: rest /\
    plan.(FetchPlan.start) = range.(r_start) /\ plan.(FetchPlan.end_) = range.(r_end) - 1 /\ Forall (fun a => is_fetch a = false) rest.
Proof.
  assert (forall (l : list Pass.Action), l = l ++ acts -> acts = []) as Hnil
    by (intros l Hl; apply (app_inv_head l); by rewrite app_nil_r).
  unfold Pass.round. destruct (Pass.rd_ranges rd) as [[|range ranges]|e]; [intros [= <- <-]; eauto| |intros [= <- <-]; eauto].
  set (st1 := match _ with Some p => _ | None => _ end).
  assert (st1.(Pass.trace) = st.(Pass.trace)) as <-.
  { unfold st1. cbn. destruct (Pass.progress st); [|done]. cbn. by destruct (Scheduler.update_pass_progress _ _ _ _) as [[]]. }
  unfold Pass.process_range. destruct (_ <=? _); [intros [= <- <-]; eauto|].
  destruct (Blocks.ChunkQueue.chunk_queue _) as [q|], (Pass.range_plan c range.(r_start) (range.(r_end) - 1)) as [plan|] eqn:Ep.
  2-4: intros [= <- <-]; eauto.
  apply Pass.range_plan_range in Ep as [E1 E2]. intros H Ht. right.
  enough (exists rest, st'.(Pass.trace) = (st1.(Pass.trace) ++ [Pass.AFetchScan plan (bool_decide (range.(Scheduler.priority) = Scheduler.Historic))]) ++ rest /\
    Forall (fun a => is_fetch a = false) rest) as (rest & Hr & Hf).
  { rewrite Ht, <-app_assoc in Hr. apply app_inv_head in Hr. exists range, ranges, plan. eauto 10. }
  clear Ht Hnil. destruct (Pass.rd_fetch rd) as [fr|msg]; [|injection H as <- <-; exists []; by rewrite app_nil_r].
  destruct (Pass.rd_scan rd) as [s|e]; [destruct fr as [f|fe]; [|injection H as <- <-; exists []; by rewrite app_nil_r]|].
  - unfold Pass.complete in H. injection H as <- <-. eexists [_]. split; [done|]. by repeat constructor.
  - destruct e; try (injection H as <- <-; exists []; by rewrite app_nil_r). unfold Pass.recover in H.
    destruct (_ <? _); [injection H as <- <-; exists []; by rewrite app_nil_r|].
    destruct (Pass.rd_truncate rd); injection H as <- <-; [eexists [_; _]|eexists [_]]; cbn; (split; [by rewrite <-?app_assoc|by repeat constructor]).
Qed.

Lemma steps_safely rd acts x y : file_steps rd acts x y -> Forall (fun a => is_fetch a = false) acts -> healthy x -> safely x y.
Proof.
  induction 1 as [x|a acts x y z Hs _ IH|acts ch ch' w z Hd _ IH]; intros Hall Hh.
  - by apply safely_here.
  - apply Forall_cons in Hall as [Ha Hall]. assert (safely x y) as S1 by (eapply step_safely; [exact Hs|by destruct a|done]).
    eapply safely_trans; [exact S1|]. eapply IH; [done|by eapply safely_healthy].
  - eapply safely_drifts; [exact Hd|]. apply IH; [done|by eapply drift_healthy].
Qed.
Lemma fetch_steps_safely rd plan b rest x y : file_steps rd (Pass.AFetchScan plan b :: rest) x y ->
  unscanned (Pass.AFetchScan plan b) x.2 -> Forall (fun a => is_fetch a = false) rest -> healthy x -> safely x y.
Proof.
  remember (Pass.AFetchScan plan b :: rest) as acts eqn:Ea. induction 1 as [x|a acts x y z Hs Hrest IH|acts ch ch' w z Hd _ IH]; intros Hun Hall Hh.
  - done.
  - injection Ea as -> ->. assert (safely x y) as S1 by (by eapply step_safely). eapply safely_trans; [exact S1|].
    eapply steps_safely; [exact Hrest|done|by eapply safely_healthy].
  - eapply safely_drifts; [exact Hd|]. apply IH; [done|exact Hun|done|by eapply drift_healthy].
Qed.

Lemma round_safely rd st st' t acts x y : rd.(Pass.rd_ranges) = session_scan_ranges x.2.(wallet) ->
  Pass.round c recover_until rd st = (st', t) -> st'.(Pass.trace) = st.(Pass.trace) ++ acts -> file_steps rd acts x y -> healthy x -> safely x y.
Proof.
  intros Hr E Ht Hs. destruct (round_actions _ _ _ _ _ E Ht) as [->|(range & ranges & plan & b & rest & Er & -> & E1 & E2 & Hf)].
  { by eapply steps_safely. }
  eapply fetch_steps_safely; [exact Hs| |exact Hf]. intros h Hh Hsc. rewrite Er in Hr. unfold session_scan_ranges, labelled_read in Hr.
  destruct (suggest_scan_ranges _) as [pending|] eqn:Es; [|done]. injection Hr as <-.
  eapply (scanned_not_suggested U); [exact Es|by apply elem_of_cons; left|apply Hsc|lia].
Qed.

Lemma rounds_safely rds st x st' t y : file_rounds rds st x st' t y -> healthy x ->
  Pass.run_rounds c recover_until rds st = (st', t) /\ safely x y.
Proof.
  induction 1 as [st x|rd rds st st' t acts x y Hr E Ht Htr Hs|rd rds st st' acts x y st'' t z Hr E Htr Hs _ IH]; intros Hh; cbn [Pass.run_rounds].
  - split; [done|by apply safely_here].
  - rewrite E. split; [by destruct t|by eapply round_safely].
  - rewrite E. assert (safely x y) as S1 by (by eapply round_safely). destruct (IH (safely_healthy _ _ S1)) as [E2 S2].
    split; [exact E2|by eapply safely_trans].
Qed.
End File.

(** C4: Over a whole pass nothing scanned is lost from the wallet's birthday on.  Take a wallet file
    in which each commitment of a scanned block that is not below the wallet's birthday is in its
    pool's tree or in the buffer, and whose records are of the chain its server serves.  Run a pass
    on it: the start sweep, then rounds, each of which works on the range the wallet suggests -
    commits of the chain's blocks and the range-end finish, enhancement between and after them, and
    after a reorg the truncation - with any of the calls failing anywhere and the server going over
    to other chains that agree on what the wallet has scanned.  Then the loop is
    [run_to_completion] on the rounds' answers, and at every point at which the process could die
    each such commitment is in its tree or in the buffer, for the chain of that time; at the end
    the wallet's records are of that chain too. *)
Theorem pass_loses_nothing {W Ns No Ts To Cs Co Fs Fo Key : Type} `{!EqDecision Ns} `{!HashSer Ns} `{!EqDecision No} `{!HashSer No}
    (PS : PoolLib W Ns Ts Cs Fs) (PO PI : PoolLib W No To Co Fo) `{!WalletLib W Ns No Fs Fo} `{!SweepLib W} `{!SessionDb W Key}
    `{!ShardLeaves Ns Ts} `{!ShardLeaves No To} (fault : nat -> option string) (V : WalletView)
    {WL : WalletLaws PS PO PI V} {RC : RecordLaws PS PO PI} {SL : SweepLaws V} {AL : AccountLaws V} {RL : RewindLaws V}
    (c : EngineConfig) recover_until anchors p sig rds st t (x y : Conf) :
  healthy V x -> file_pass PS PO PI fault V c recover_until anchors p sig rds x st t y ->
  Pass.run_to_completion c recover_until p sig rds = (st, t) /\ safely V x y /\ healthy V y.
Proof.
  intros Hh (rd & x1 & Hs & Hr). assert (safely V x x1) as S1 by (by eapply (step_safely PS PO PI)).
  destruct (rounds_safely _ _ _ _ _ _ _ _ _ _ _ _ _ _ Hr (safely_healthy _ _ _ S1)) as [E S2]. split; [exact E|].
  assert (safely V x y) as S by (by eapply safely_trans). split; [exact S|by eapply safely_healthy].
Qed.

(** ** An instance

    The wallet of [PutBlocks], which records the size of block 1 only.  The pass scans block 1,
    then meets a reorg, rewinds the wallet to block 1, and finds its server on a chain whose block
    2 has one more Sapling commitment. *)

#[local] Existing Instances mini_shard mini_wallet mini_laws PutBlocks.byte_dec mini_leaves.
Definition known_meta (h : Z) : option BlockMetadata := if h <=? 1 then Some (meta_at h) else None.
Definition mini_top (w : MiniWallet) : option Z := list_max_opt (filter (fun h => h ∈ w.(mini_scanned)) (seqZ 1 10)).
#[local] Instance pass_sweep : SweepLib MiniWallet :=
  {| get_wallet_birthday _ := Ok (Some 1);
     suggest_scan_ranges w :=
       Ok ((fun h => Scheduler.mkScanRange h (h + 1) Scheduler.Historic) <$> filter (fun h => h ∉ w.(mini_scanned)) (seqZ 1 10));
     block_metadata h _ := Ok (known_meta h);
     queue_rescan r w := Ok (mkMini w.(mini) (w.(mini_scanned) ∖ list_to_set (seqZ r.1 (r.2 - r.1)))) |}.
#[local] Instance pass_session : SessionDb MiniWallet unit :=
  {| migrate w := Ok w;
     prune_scan_queue_below _ w := Ok (w, 0);
     get_account_ids _ := Ok [0];
     import_account_ufvk _ _ _ := Err (Sqlite "account exists");
     lib_truncate_to_height h w := Ok (mkMini w.(mini) (filter (fun x => x <= h) w.(mini_scanned)), h);
     block_max_scanned w := match mini_top w with
                            | Some h => if h <=? 1 then Ok (Some (meta_at h)) else Err (Sqlite "no record")
                            | None => Ok None
                            end;
     get_wallet_recover_until _ := Ok None;
     lib_update_chain_tip _ w := Ok w;
     lib_shard_indices _ _ := Ok (Some []);
     get_account_for_ufvk _ _ := Ok (Some 0);
     lib_chain_height w := Ok (mini_top w) |}.

#[local] Instance pass_record_laws : RecordLaws (mini_lib Sapling) (mini_lib Orchard) (mini_lib Ironwood).
Proof. split; [done| |done|done..]. intros fs bs d d' rows pool h n [= <- _] Hn. by left. Qed.
#[local] Instance pass_account_laws : AccountLaws mini_views.
Proof. split; [|done|done]. intros d. exists 10. intros h [Hb _]. lia. Qed.
#[local] Instance pass_sweep_laws : SweepLaws mini_views.
Proof.
  split.
  - intros d tip h [= <-] [Hb _]. lia.
  - intros d l r h [= <-] (x & -> & [Hx _]%list_elem_of_filter)%list_elem_of_fmap [_ Hh] Hc. cbn in Hc.
    assert (h = x) as -> by lia. by apply Hx.
  - intros d l r [= <-] (x & -> & _)%list_elem_of_fmap. cbn. lia.
  - intros r d d' [= <-]. split; [by split_and!|]. split; [done|]. intros h [Hb Hh]. cbn in Hh. apply elem_of_difference in Hh as [Hh Hn].
    split; [done|]. intros Hr. apply Hn, elem_of_list_to_set, elem_of_seqZ. lia.
Qed.
#[local] Instance pass_rewind_laws : RewindLaws mini_views.
Proof.
  split; [|done|done]. intros h d d' to_ [= <- <-]. set (d' := mkMini _ _).
  pose proof (list_max_opt_spec (filter (fun x => x ∈ d'.(mini_scanned)) (seqZ 1 10))) as Hmax. fold (mini_top d') in Hmax.
  assert (forall x, scanned mini_views d' x -> x ∈ filter (fun x => x ∈ d'.(mini_scanned)) (seqZ 1 10)) as Hin
    by (intros x [Hb Hx]; apply list_elem_of_filter; split; [exact Hx|]; apply elem_of_seqZ; lia).
  assert (kept mini_views d d') as Hk.
  { split; [|done|by intros bo sz []]. intros x [Hb Hx]. split; [exact Hb|]. cbn in Hx. by apply elem_of_filter in Hx as [_ Hx]. }
  destruct (mini_top d') as [m|] eqn:Em.
  - exists m. split; [split; [exact Hk|]; intros x Hx; by apply Hmax, Hin|]. intros m'. cbn. rewrite Em. unfold known_meta.
    by destruct (m <=? 1); intros [= <-].
  - assert (forall x, ~ scanned mini_views d' x) as Hno by (intros x Hx%Hin; rewrite Hmax in Hx; by apply elem_of_nil in Hx).
    exists 0. split; [split; [exact Hk|]; intros x Hx; by destruct (Hno x)|]. intros m'. cbn. rewrite Em. by intros [= <-].
Qed.

Definition sample_chain : Chain := mkChain sample_block_of sample_size.
Definition other_chain : Chain :=
  mkChain (fun pool p => match pool with Sapling => if p =? 3 then 2 else sample_block_of Sapling p | _ => sample_block_of pool p end)
          (fun pool h => match pool with Sapling => if 2 <=? h then 4 else sample_size Sapling h | _ => sample_size pool h end).

Lemma chains_follow d ch : ch = sample_chain \/ ch = other_chain -> follows (tracked mini_views) ch.(block_of) ch.(size) d.
Proof.
  intros Hch. apply tracked_follows. split.
  - intros pool a b Hab. destruct Hch as [-> | ->]; cbn; unfold sample_size; destruct pool; repeat case_match; breflect; lia.
  - intros pool h n. unfold tree_size_at. cbn. unfold known_meta. destruct (Z.leb_spec h 1); [|done]. cbn.
    destruct Hch as [-> | ->]; cbn; destruct pool; intros [= <-]; try done. by destruct (Z.leb_spec 2 h); [lia|].
  - intros pool p [Hb _]. revert Hb. destruct Hch as [-> | ->]; cbn; unfold sample_block_of, sample_size; destruct pool;
      repeat case_match; breflect; lia.
Qed.

(** The file on the way. *)
Abbreviation conf := Pass.sample_config.
Abbreviation PoolS := (mini_lib Sapling).
Abbreviation PoolO := (mini_lib Orchard).
Abbreviation PoolI := (mini_lib Ironwood).
Definition no_fault (n : nat) : option string := None.
Definition swept : World MiniWallet := (sweep_stranded_graft_rows PoolS PoolO no_fault None conf.(graft_subtree) None empty_world).1.
Abbreviation MiniSparse :=
  (SparseTreeState (Hs := Byte.byte) (Ho := Byte.byte) (Ts := MiniShard) (To := MiniShard) (Cs := Z) (Co := Z)).
Definition start_sparse : MiniSparse := fresh_sparse None (if conf.(graft_subtree) && true then Some 0 else None).
Definition committed : World MiniWallet * result SqliteClientError MiniSparse :=
  sparse_put_blocks PoolS PoolO PoolI no_fault start_sparse (mkChainState 0 0 0 0) [block1] swept.
Definition next_sparse : MiniSparse := match committed.2 with Ok sp => sp | Err _ => start_sparse end.
Definition finished : World MiniWallet := (finish_graft_blocking PoolS PoolO no_fault next_sparse committed.1).1.
Definition rewound_file : World MiniWallet := (truncate_to_height (Key := unit) no_fault 1 finished).1.

Definition plan_at (h : Z) : FetchPlan.FetchPlan :=
  match Pass.range_plan conf h h with Some p => p | None => FetchPlan.mkFetchPlan 0 0 0 0 0 0 0 None end.
Definition round_on (w : World MiniWallet) (scan : Res Pass.ScanStats) : Pass.Round :=
  Pass.mkRound (session_scan_ranges w.(wallet)) (Some 1) id scan (Ok (Ok (WireDetector.mkFetchStats 1 100 1 []))) (Ok tt)
    (Ok Pass.enhance_default) None 0.
Definition round1 : Pass.Round := round_on swept (Ok (Pass.mkScanStats 1 1 0 0 Pass.enhance_default)).
Definition round2 : Pass.Round := round_on finished (Err (Errors.ScanContinuity 11)).
Definition pass0 : Pass.PassState := Pass.mkPass None Pass.report_default 0 0 None [Pass.ASweep].
Definition pass1 : Pass.PassState := (Pass.round conf None round1 pass0).1.
Definition pass2 : Pass.PassState := (Pass.round conf None round2 pass1).1.

Lemma first_linked : linked PoolS PoolO PoolI sample_block_of 0 0 [(mkChainState 0 0 0 0, [block1])].
Proof. destruct sample_linked as (A & B & D & _). by split_and!. Qed.

Lemma sample_range rd : file_step PoolS PoolO PoolI no_fault mini_views conf None rd (Pass.AFetchScan (plan_at 1) true)
  (sample_chain, swept) (sample_chain, finished).
Proof.
  apply (step_range _ _ _ _ _ _ _ _ (plan_at 1) true 0 0 0 [(mkChainState 0 0 0 0, [block1])]).
  - apply first_linked.
  - split.
    + intros call b pool ->%list_elem_of_singleton ->%list_elem_of_singleton. by destruct pool.
    + intros call pool p ->%list_elem_of_singleton (l & [= <-] & Hl). cbn in Hl |- *. revert Hl. unfold sample_block_of, sample_size.
      destruct pool; repeat case_match; breflect; lia.
  - apply Forall_singleton. intros h (l & [= <-] & Hl). cbn in Hl. vm_compute (FetchPlan.start _). vm_compute (FetchPlan.end_ _). lia.
  - eapply range_goes_on; [|apply writes_none|eapply range_finishes, surjective_pairing].
    change (committed = (committed.1, Ok next_sparse)). unfold next_sparse.
    destruct committed as [w1 [sp|e]] eqn:E; [done|]. exfalso. revert E. vm_compute. discriminate.
Qed.

Lemma sample_pass : file_pass PoolS PoolO PoolI no_fault mini_views conf None None None None
  [round1; round2] (sample_chain, empty_world) pass2 None (other_chain, rewound_file).
Proof.
  exists round1, (sample_chain, swept). split; [eapply step_sweep, surjective_pairing|].
  eapply (rounds_go_on _ _ _ _ _ _ _ _ round1 [round2] pass0 pass1 [Pass.AFetchScan (plan_at 1) true; Pass.AEnhance]).
  - reflexivity.
  - vm_compute. reflexivity.
  - vm_compute. reflexivity.
  - eapply steps_one; [apply sample_range|]. eapply steps_one; [apply step_enhance, writes_none|apply steps_none].
  - eapply (rounds_go_on _ _ _ _ _ _ _ _ round2 [] pass1 pass2 [Pass.AFetchScan (plan_at 2) true; Pass.ATruncate 1; Pass.ASleep 500]).
    + reflexivity.
    + vm_compute. reflexivity.
    + vm_compute. reflexivity.
    + eapply steps_one.
      { eapply (step_range _ _ _ _ _ _ _ _ (plan_at 2) true 0 0 0 []); [done| |constructor|apply range_ends].
        split; intros call b pool Hc; by apply elem_of_nil in Hc. }
      eapply steps_one; [eapply (step_truncate _ _ _ _ _ _ _ _ 1 _ _ rewound_file (Ok 1)); vm_compute; reflexivity|].
      apply (steps_drift _ _ _ _ _ _ _ _ _ _ other_chain).
      { split; [apply chains_follow; by right|]. intros pool p [[_ Hp] _]. destruct pool; [|done..]. cbn [sample_chain other_chain block_of] in Hp |- *.
        destruct (Z.eqb_spec p 3) as [E3|E3]; [|done]. exfalso. revert Hp.
        apply (bool_decide_eq_false_1 (2 ∈ rewound_file.(wallet).(mini_scanned))). vm_compute. reflexivity. }
      eapply steps_one; [apply step_sleep|apply steps_none].
    + apply rounds_end.
Qed.

Lemma start_healthy : healthy mini_views (sample_chain, empty_world).
Proof.
  split_and!; cbn.
  - intros pool p [[_ Hp] _]. change (sample_block_of pool p ∈ (∅ : gset Z)) in Hp. destruct (not_elem_of_empty _ Hp).
  - apply empty_well_keyed.
  - apply (chains_follow _ sample_chain). by left.
Qed.

Lemma pass_loses_nothing_witness :
  safely mini_views (sample_chain, empty_world) (other_chain, rewound_file) /\ scanned mini_views rewound_file.(wallet) 1 /\
  safe (tracked mini_views) other_chain.(block_of) rewound_file.(table) rewound_file.(wallet).
Proof.
  destruct (pass_loses_nothing PoolS PoolO PoolI no_fault mini_views conf None None None None [round1; round2] pass2 None
    (sample_chain, empty_world) (other_chain, rewound_file) start_healthy sample_pass) as (_ & S & Hh & _).
  split; [exact S|]. split; [|exact Hh]. split; [lia|]. apply (bool_decide_eq_true_1 (1 ∈ rewound_file.(wallet).(mini_scanned))). vm_compute. reflexivity.
Defined.
End PassFile.
