(* ===== verification/RunFetch.v ===== *)
(** * A whole fetch: [worker] and [run_fetch] of [core/src/fetch.rs]

    The composition of the fetch's parts: each worker connects, then claims and
    fetches plan chunks; the reorder stage releases what they hand on; the
    supervisor watches both.  [run_fetch] relates a plan to every outcome some
    interleaving of them can have, and keeps the promise a pass relies on. *)

From S2P Require Export Connector FetchRelease Pass.
Import Config Connector FetchPump FetchRelease Pass.

Module RunFetch.

Section RunFetch.
Context (encoded_len : CompactBlock -> Z) (grant : Z -> Z -> option Z) (send_ok : Z -> Z -> bool).
Context (queue_ok : Z -> bool) (fmt : float -> string) (ep : Endpoint).

(** A direct connect that ends with [res]. *)
Definition connects (res : Res unit) : Prop :=
  exists dials waits client, connect_direct_with_retry ep dials = (waits, Some client) /\
    res = (let? _ := client in Ok tt).

(** The loop of [worker] over the cursor values it draws, with the attempts its
    chunk meets; [None]: it is still running. *)
Fixpoint worker_loop (plan : FetchPlan.FetchPlan) (p : option Progress.Progress)
    (draws : list (Z * list Attempt)) : list SubChunk * option (Res unit) :=
  match draws with
  | [] => ([], None)
  | (next, attempts) :: draws' =>
    match (FetchPlan.claim_chunk plan next).2 with
    | None => ([], Some (Ok tt))
    | Some claim =>
      let '(ps, res) := fetch_chunk encoded_len grant send_ok fmt plan claim p attempts in
      match res with
      | ChunkDone =>
        let '(subs, res') := worker_loop plan ps.(FetchPump.progress) draws' in (ps.(out) ++ subs, res')
      | ChunkGone => (ps.(out), Some (Ok tt))
      | ChunkFailed e => (ps.(out), Some (Err e))
      | ChunkPending => (ps.(out), None)
      end
    end
  end.

(** [worker]: what it hands on and how it ends. *)
Definition worker (plan : FetchPlan.FetchPlan) (p : option Progress.Progress) (dials : list Dial)
    (draws : list (Z * list Attempt)) : list SubChunk * option (Res unit) :=
  match (connect_direct_with_retry ep dials).2 with
  | None => ([], None)
  | Some (Err e) => ([], Some (Err e))
  | Some (Ok _) => worker_loop plan p draws
  end.

(** The reconnects of a worker's attempts are direct connects. *)
Definition draws_ok (draws : list (Z * list Attempt)) : Prop :=
  Forall (fun d => Forall (fun a => connects a.(at_reconnect)) d.2) draws.

(** What the supervisor may observe of a fetch of [plan]. *)
Inductive fetch_event (plan : FetchPlan.FetchPlan) : SuperviseEvent -> Prop :=
| ev_finished p dials draws : draws_ok draws ->
    (worker plan p dials draws).2 = Some (Ok tt) -> fetch_event plan WorkerFinished
| ev_failed p dials draws e unreleased now : draws_ok draws ->
    (worker plan p dials draws).2 = Some (Err e) -> fetch_event plan (WorkerFailed e unreleased now)
| ev_panicked msg unreleased now : fetch_event plan (WorkerPanicked msg unreleased now)
| ev_release p evs r res :
    release_ordered encoded_len queue_ok (release_init plan.(FetchPlan.start) plan.(FetchPlan.failover) p) evs
      = (r, res) -> fetch_event plan (ReleaseFinished res).

(** [run_fetch]: the outcomes of a fetch of [plan]. *)
Inductive run_fetch (plan : FetchPlan.FetchPlan) (res : Res WireDetector.FetchStats) : Prop :=
| fetch_ran p p' sup elapsed evs : Forall (fetch_event plan) evs ->
    supervise_fetch (Z.to_nat (FetchPlan.worker_count plan)) None plan.(FetchPlan.failover) p
      plan.(FetchPlan.end_) evs = Some (p', sup) ->
    res = fetch_result plan elapsed sup -> run_fetch plan res.

(** ** No collapse without the detector *)

Lemma connects_transport e : connects (Err e) -> is_transient e = true.
Proof.
  intros (dials & waits & client & Hc & He). destruct client as [|e']; [done|]. injection He as ->.
  by eapply direct_connect_transport.
Qed.

(** A worker gives up only with a transport error. *)
Lemma attempt_loop_transport plan index s e attempts : forall attempt ps ps' err,
  Forall (fun a => connects a.(at_reconnect)) attempts ->
  attempt_loop encoded_len grant send_ok fmt plan index s e attempt ps attempts = (ps', ChunkFailed err) ->
  is_transient err = true.
Proof.
  induction attempts as [|a attempts IH]; intros attempt ps ps' err Hc; simpl; [done|].
  apply Forall_cons in Hc as [Ha Hc].
  destruct (open_and_pump _ _ _ _ _ _) as [ps1 [[]|e1]]; try done.
  destruct (_ <? _); [by intros [= <- <-]|].
  destruct (at_reconnect a) as [u|e2]; [by apply IH|]. intros [= <- <-]. by apply connects_transport.
Qed.

Lemma worker_transport plan p dials draws err : draws_ok draws ->
  (worker plan p dials draws).2 = Some (Err err) -> is_transient err = true.
Proof.
  intros Hd. unfold worker. destruct (connect_direct_with_retry ep dials) as [w [[c|e]|]] eqn:E; simpl; [| |done].
  2: { intros [= <-]. by eapply direct_connect_transport. }
  clear E. revert p. induction Hd as [|[next attempts] draws Ha Hd IH]; intros p; cbn [worker_loop]; [done|].
  destruct ((FetchPlan.claim_chunk plan next).2) as [[[i s] e]|]; [|done].
  destruct (fetch_chunk encoded_len grant send_ok fmt plan (i, s, e) p attempts) as [ps []] eqn:Ef; try done.
  - specialize (IH ps.(FetchPump.progress)). by destruct (worker_loop plan _ draws).
  - simpl. intros [= ->]. by eapply attempt_loop_transport.
Qed.

(** Without a detector the reorder stage raises no collapse. *)
Lemma release_sub_frame now r s : (release_sub encoded_len queue_ok now r s).1.(detector) = r.(detector) /\
  is_collapse (release_sub encoded_len queue_ok now r s).2 = false.
Proof.
  unfold release_sub. destruct (Verify.verify_blocks _ _) as [c [[]|e]] eqn:E.
  - destruct (queue_ok _); [|done]. by destruct (is_last s).
  - split; [done|]. by destruct (Verify.verify_blocks_error _ _ _ _ E) as [->|(? & ? & ->)].
Qed.

Lemma drain_frame fuel now : forall r, (drain encoded_len queue_ok fuel now r).1.(detector) = r.(detector) /\
  is_collapse (drain encoded_len queue_ok fuel now r).2 = false.
Proof.
  induction fuel as [|fuel IH]; intros r; simpl; [done|]. destruct (pending r !! next r) as [s|]; [|done].
  destruct (release_sub_frame now (r <| pending := delete (next r) (pending r) |>) s) as [H1 H2].
  destruct (release_sub _ _ _ _ _) as [r1 [[]|e]]; simpl in *; [|done].
  destruct (IH r1) as [-> H4]. done.
Qed.

Lemma disarmed_release evs : forall r r' res, r.(detector) = None ->
  release_ordered encoded_len queue_ok r evs = (r', res) -> is_collapse res = false.
Proof.
  induction evs as [|ev evs IH]; intros r r' res Hd; simpl; [by intros [= <- <-]|].
  assert ((receive encoded_len queue_ok r ev).1.(detector) = None /\
    is_collapse (receive encoded_len queue_ok r ev).2 = false) as [H1 H2].
  { destruct ev as [t|s t1 t2 now]; cbn [receive]; unfold run_detector; cbn [detector upd_field]; rewrite Hd; [done|].
    match goal with |- context [drain _ _ ?n now ?r1] => by destruct (drain_frame n now r1) as [-> ?] end. }
  destruct (receive _ _ _ _) as [r1 [[]|e]]; simpl in *; [by apply IH|]. by intros [= <- <-].
Qed.

(** ** The promise kept *)

Lemma run_fetch_collapse plan m f : run_fetch plan (Err (WireCollapse m f)) -> is_Some plan.(FetchPlan.failover).
Proof.
  intros [p p' sup elapsed evs Hev Hs Hr]. destruct (FetchPlan.failover plan) as [arm|] eqn:Hn; [by eexists|]. exfalso.
  destruct sup as [sm|e]; [unfold fetch_result in Hr; simpl in Hr; by destruct (negb _)|].
  simpl in Hr. injection Hr as <-.
  apply supervise_spec in Hs as (pre & ev & rest & -> & _ & Hf).
  apply Forall_app in Hev as [_ [Hev _]%Forall_cons].
  destruct Hev as [|q dials draws e0 u now Hd Hw|msg u now|q evs r res Hrel]; simpl in Hf; [done| |by destruct Hf|].
  - destruct Hf as [_ <-]. by apply worker_transport in Hw.
  - rewrite Hn in Hrel. apply disarmed_release in Hrel; [|done]. destruct res; [done|].
    by destruct Hf as [_ <-].
Qed.
End RunFetch.

(** The fetch keeps its promise to the pass. *)
#[export] Instance run_fetch_contract encoded_len grant send_ok queue_ok fmt ep :
  FetchContract (run_fetch encoded_len grant send_ok queue_ok fmt ep).
Proof. intros plan m f. apply run_fetch_collapse. Qed.

End RunFetch.
