(* ===== verification/Engine.v ===== *)
(** * The engine: [core/src/engine.rs]

    One sync pass around the scheduler: the guards, the endpoint probe, the
    preflight calls, the failover loop over runs of the scheduler and the final
    enhancement; the tip test of the follow loop; and the UTC time stamp of the logs.

    What the wallet session and the server answer is an input of the pass.  Stage
    timers, telemetry deltas and log lines are left out. *)

From S2P Require Export RunFetch.
Import Progress Handle Config Scheduler Pass RunFetch.

Module Engine.

(** ** The time stamp *)

(** Civil-from-days, as [format_utc] computes it: year, month, day.  [i64] division
    rounds toward zero, which is [Z.quot]. *)
Definition civil_from_days (days : Z) : Z * Z * Z :=
  let z := days + 719468 in
  let era := z / 146097 in
  let doe := z mod 146097 in
  let yoe := Z.quot (doe - Z.quot doe 1460 + Z.quot doe 36524 - Z.quot doe 146096) 365 in
  let doy := doe - (365 * yoe + Z.quot yoe 4 - Z.quot yoe 100) in
  let mp := Z.quot (5 * doy + 2) 153 in
  let d := doy - Z.quot (153 * mp + 2) 5 + 1 in
  let month := if mp <? 10 then mp + 3 else mp - 9 in
  let y := yoe + era * 400 + (if month <=? 2 then 1 else 0) in
  (y, month, d).

(** [{:0w}] of a non-negative number. *)
Definition pad (w : nat) (x : Z) : string :=
  let s := pretty x in
  Nat.iter (w - String.length s) (fun t => "0" +:+ t) s.

(** [format_utc]. *)
Definition format_utc (unix_secs : Z) : string :=
  let days := unix_secs / 86400 in
  let rem := unix_secs mod 86400 in
  let '(y, month, d) := civil_from_days days in
  pad 4 y +:+ "-" +:+ pad 2 month +:+ "-" +:+ pad 2 d +:+ " " +:+
  pad 2 (rem / 3600) +:+ ":" +:+ pad 2 ((rem mod 3600) / 60) +:+ ":" +:+ pad 2 (rem mod 60) +:+ "Z".

(** ** The follow loop's tip test *)

(** [should_resync]. *)
Definition should_resync (last_synced_tip observed_tip : Z) : bool := last_synced_tip <? observed_tip.

(** [SyncOutcome::bound], over the three stage times in seconds. *)
Definition bound (fetch_s scan_s enhance_s : float) : string :=
  if ((fetch_s <? 1) && (scan_s <? 1) && (enhance_s <? 1))%float then "idle"
  else if ((scan_s <=? fetch_s) && (enhance_s <=? fetch_s))%float then "fetch"
  else if (enhance_s <=? scan_s)%float then "scan" else "enhance".

(** ** Failover *)

Definition MAX_WIRE_SWITCHES : Z := 2.

(** All configured endpoints, the committed one first. *)
Definition configured (c : EngineConfig) : list Endpoint := c.(endpoint) :: c.(alternate_endpoints).

(** The candidates after a collapse on [current], and the cooled endpoints. *)
Definition candidates (c : EngineConfig) (cooled : list Endpoint) (current : Endpoint)
  : list Endpoint * list Endpoint :=
  let cooled := cooled ++ [current] in
  let cs := filter (fun e => e ∉ cooled) (configured c) in
  if bool_decide (cs = []) then (filter (fun e => e <> current) (configured c), []) else (cs, cooled).

(** The endpoint failed over to; [None]: [swap_remove] panics. *)
Definition pick (probe : list Endpoint -> list ProbeResult) (cs : list Endpoint) : option Endpoint :=
  match cs with
  | [e] => Some e
  | _ => swap_remove cs (rank (probe cs))
  end.

Section Failover.
Context (config : EngineConfig).
(** The pass's own config, fixed; how attempt [n] with a given config ends; and
    what a probe of the candidates measures after it. *)
Context (attempt : EngineConfig -> nat -> PassEnd).
Context (probe : nat -> list Endpoint -> list ProbeResult).

Inductive LoopEnd := LoopDone (res : Res SyncReport) | LoopPanic | LoopPending.

(** The failover loop; [n] counts the attempts. *)
Fixpoint failover_loop (fuel n : nat) (attempt_config : EngineConfig) (wire_switches : Z)
    (cooled : list Endpoint) : LoopEnd * EngineConfig * Z :=
  match fuel with
  | O => (LoopPending, attempt_config, wire_switches)
  | S fuel' =>
    match attempt attempt_config n with
    | PassPanicked => (LoopPanic, attempt_config, wire_switches)
    | PassRunning => (LoopPending, attempt_config, wire_switches)
    | Returned (Err (WireCollapse _ _)) =>
      let wire_switches := wire_switches + 1 in
      let '(cs, cooled) := candidates config cooled attempt_config.(endpoint) in
      match pick (probe n) cs with
      | None => (LoopPanic, attempt_config, wire_switches)
      | Some next =>
        let c1 := attempt_config <| endpoint := next |> in
        let c2 := if MAX_WIRE_SWITCHES <=? wire_switches then c1 <| wire_failover := false |> else c1 in
        failover_loop fuel' (S n) c2 wire_switches cooled
      end
    | Returned other => (LoopDone other, attempt_config, wire_switches)
    end
  end.

(** The loop as [sync_once] enters it. *)
Definition failover (via_tor : bool) (fuel : nat) : LoopEnd * EngineConfig * Z :=
  failover_loop fuel 0 (if via_tor then config <| wire_failover := false |> else config) 0 [].
End Failover.

(** ** The pass *)

(** What [sync_once] does to the outside, in order. *)
Inductive Step := SProbe | SOpenWallet | SConnect | SImport (birthday : Z) | SGetRoots (from_zero : bool)
  | SPutRoots | SGetTip | SUpdateTip (tip : Z) | SRefreshUtxos | SSync | SFinalEnhance.

(** An account to bootstrap: its birthday, whether the wallet tracks it, and how
    the fetch of its tree state and its import end. *)
Record Account := mkAccount {
  birthday : Z;
  has_account : Res bool;
  tree_state : Res unit;
  import : Res unit;
}.

(** What the wallet, the server and the scheduler answer. *)
Record Env := mkEnv {
  e_probe : list Endpoint -> list ProbeResult;
  e_open : Res unit;
  e_connect : Res unit;
  e_historic : Res bool;
  e_root_start : Res unit;
  e_roots : Res unit;
  e_put_roots : Res unit;
  e_tip : Res Z;
  e_update_tip : Res unit;
  e_utxos : Res unit;
  e_attempt : EngineConfig -> nat -> PassEnd;
  e_reprobe : nat -> list Endpoint -> list ProbeResult;
  e_work : Progress -> Progress;
  e_enhance : Res EnhanceStats;
  e_clock : nat -> Z;
}.

(** [struct SyncOutcome], its reporting inputs left out. *)
Record SyncOutcome := mkOutcome {
  out_report : SyncReport;
  out_chain_tip : Z;
  out_wire_switches : Z;
}.

(** The pass's state: the progress and the steps taken; and how it ends. *)
Record Run := mkRun { run_progress : option Progress; steps : list Step }.
Inductive Ending (A : Type) := Ended (res : Res A) | Panicked | Pending.
Arguments Ended {A}. Arguments Panicked {A}. Arguments Pending {A}.

(** A pass in progress: its state, and the value so far or how it ended. *)
Definition M (A : Type) : Type := Run -> Run * Ending A.
Definition pret {A} (a : A) : M A := fun r => (r, Ended (Ok a)).
Definition pbind {A B} (m : M A) (k : A -> M B) : M B := fun r =>
  match m r with
  | (r', Ended (Ok a)) => k a r'
  | (r', Ended (Err e)) => (r', Ended (Err e))
  | (r', Panicked) => (r', Panicked)
  | (r', Pending) => (r', Pending)
  end.
Notation "'let!' x := m 'in' k" := (pbind m (fun x => k))
  (at level 10, x pattern, m at level 100, k at level 200, only parsing) : slip_scope.
(** A call, recorded, that answers [res]. *)
Definition call {A} (s : Step) (res : Res A) : M A := fun r =>
  (mkRun r.(run_progress) (r.(steps) ++ [s]), Ended res).
(** A read of the wallet, not recorded. *)
Definition ask {A} (res : Res A) : M A := fun r => (r, Ended res).
Definition note (f : Progress -> Progress) : M unit := fun r =>
  (mkRun (f <$> r.(run_progress)) r.(steps), Ended (Ok tt)).

Section Pass.
Context (config : EngineConfig) (via_tor : bool) (e : Env) (fuel : nat).

(** The bootstrap of the accounts; [k] numbers the clock readings. *)
Fixpoint bootstrap (k : nat) (accounts : list Account) : M unit :=
  match accounts with
  | [] => pret tt
  | a :: accounts' =>
    let! tracked := ask a.(has_account) in
    if tracked then bootstrap (S k) accounts'
    else
      let! _ := ask a.(tree_state) in
      let! _ := note (touch (e.(e_clock) (10 + k))) in
      let! _ := call (SImport a.(birthday)) a.(import) in
      bootstrap (S k) accounts'
  end.

(** The committed config after the probe. *)
Definition commit : M EngineConfig :=
  if bool_decide (config.(alternate_endpoints) = []) || via_tor then pret config
  else
    let! _ := call SProbe (Ok tt) in
    fun r => (r, match with_selected_endpoint via_tor e.(e_probe) config with
                 | Some c => Ended (Ok c) | None => Panicked end).

Definition sync_loop (c : EngineConfig) : M (SyncReport * Z) :=
  let! _ := call SSync (Ok tt) in
  let! _ := note e.(e_work) in
  fun r =>
    match failover c e.(e_attempt) e.(e_reprobe) via_tor fuel with
    | (LoopDone (Ok rep), _, switches) => (r, Ended (Ok (rep, switches)))
    | (LoopDone (Err err), _, _) => (r, Ended (Err err))
    | (LoopPanic, _, _) => (r, Panicked)
    | (LoopPending, _, _) => (r, Pending)
    end.

(** [sync_once]. *)
Definition sync_once (accounts : list Account) : M SyncOutcome :=
  let! _ := ask (validate config) in
  let! _ := ask (if existsb (fun a => a.(birthday) =? 0) accounts
                 then Err (Config "birthday must be >= 1 (height 0 is not a valid wallet birthday)")
                 else Ok tt) in
  let! _ := note (begin_pass (e.(e_clock) 0)) in
  let! c := commit in
  let! _ := call SOpenWallet e.(e_open) in
  let! _ := call SConnect e.(e_connect) in
  let! _ := bootstrap 0 accounts in
  let! historic := ask e.(e_historic) in
  let! _ := ask (if historic : bool then Ok tt else e.(e_root_start)) in
  let! _ := call (SGetRoots historic) e.(e_roots) in
  let! _ := note (touch (e.(e_clock) 1)) in
  let! _ := call SPutRoots e.(e_put_roots) in
  let! tip := call SGetTip e.(e_tip) in
  let! _ := note (touch (e.(e_clock) 2)) in
  let! _ := call (SUpdateTip tip) e.(e_update_tip) in
  let! _ := note (fun p => note_tip_refreshed (set_chain_tip tip p)) in
  let! _ := call SRefreshUtxos e.(e_utxos) in
  let! _ := note (touch (e.(e_clock) 3)) in
  let! (rep, switches) := sync_loop c in
  let! fe := call SFinalEnhance e.(e_enhance) in
  let rep := rep <| enhance := Scan.add_interleaved rep.(enhance) fe |> in
  let! _ := note note_pass_completed in
  pret (mkOutcome rep tip switches).
End Pass.

(** ** The calendar *)

Definition leap (y : Z) : bool := (y mod 4 =? 0) && (negb (y mod 100 =? 0) || (y mod 400 =? 0)).
Definition month_len (y m : Z) : Z :=
  if m =? 2 then (if leap y then 29 else 28)
  else if (m =? 4) || (m =? 6) || (m =? 9) || (m =? 11) then 30 else 31.
(** The Gregorian calendar's next day. *)
Definition next_date (date : Z * Z * Z) : Z * Z * Z :=
  let '(y, m, d) := date in
  if d <? month_len y m then (y, m, d + 1)
  else if m =? 12 then (y + 1, 1, 1) else (y, m + 1, 1).

Ltac eucl := Z.to_euclidean_division_equations; lia.

(** Years of an era run from March; this is the day of the era a year starts on. *)
Definition year_start (y : Z) : Z := 365 * y + y / 4 - y / 100.
Definition yoe_of (doe : Z) : Z := Z.quot (doe - Z.quot doe 1460 + Z.quot doe 36524 - Z.quot doe 146096) 365.

Lemma yoe_range doe y : 0 <= doe < 146097 -> y = yoe_of doe -> 0 <= y <= 399 /\
  year_start y <= doe <= year_start y + 364 + (if leap (y + 1) then 1 else 0).
Proof.
  intros H ->. unfold year_start, yoe_of. rewrite !(Z.quot_div_nonneg doe) by lia.
  set (a := doe / 1460). set (b := doe / 36524). set (c := doe / 146096).
  assert (1460 * a <= doe < 1460 * a + 1460) by (subst a; eucl).
  assert (36524 * b <= doe < 36524 * b + 36524) by (subst b; eucl).
  assert (146096 * c <= doe < 146096 * c + 146096) by (subst c; eucl). clearbody a b c.
  rewrite (Z.quot_div_nonneg (doe - a + b - c)) by lia. set (y := (doe - a + b - c) / 365).
  assert (365 * y <= doe - a + b - c < 365 * y + 365) by (subst y; eucl). clearbody y.
  assert (0 <= y <= 399) by lia. split; [done|]. split; [eucl|].
  unfold leap. destruct (Z.eqb_spec ((y + 1) mod 4) 0), (Z.eqb_spec ((y + 1) mod 100) 0),
    (Z.eqb_spec ((y + 1) mod 400) 0); simpl; eucl.
Qed.

(** The year found is the only one that fits. *)
Lemma yoe_unique doe y : 0 <= y <= 399 ->
  year_start y <= doe <= year_start y + 364 + (if leap (y + 1) then 1 else 0) -> yoe_of doe = y.
Proof.
  intros Hy Hd. assert (leap (y + 1) = true ->
    (y + 1) mod 4 = 0 /\ ((y + 1) mod 100 <> 0 \/ y = 399)) as Hl.
  { unfold leap. intros Hl. destruct (Z.eqb_spec ((y + 1) mod 4) 0), (Z.eqb_spec ((y + 1) mod 100) 0),
      (Z.eqb_spec ((y + 1) mod 400) 0); simpl in Hl; try done; split; try done; eucl. }
  assert (0 <= doe < 146097) as H.
  { unfold year_start in Hd. destruct (leap (y + 1)); [specialize (Hl eq_refl)|]; eucl. }
  destruct (yoe_range doe _ H eq_refl) as [Hy' Hd']. set (y' := yoe_of doe) in *. clearbody y'.
  assert (leap (y' + 1) = true -> (y' + 1) mod 4 = 0 /\ ((y' + 1) mod 100 <> 0 \/ y' = 399)) as Hl'.
  { unfold leap. intros Hl'. destruct (Z.eqb_spec ((y' + 1) mod 4) 0), (Z.eqb_spec ((y' + 1) mod 100) 0),
      (Z.eqb_spec ((y' + 1) mod 400) 0); simpl in Hl'; try done; split; try done; eucl. }
  unfold year_start in *. clear H.
  destruct (leap (y + 1)), (leap (y' + 1)); try specialize (Hl eq_refl); try specialize (Hl' eq_refl); eucl.
Qed.

(** Month and day of a day of the (March-based) year. *)
Definition month_day (doy : Z) : Z * Z :=
  let mp := Z.quot (5 * doy + 2) 153 in
  (if mp <? 10 then mp + 3 else mp - 9, doy - Z.quot (153 * mp + 2) 5 + 1).

Definition date_of (era y doy : Z) : Z * Z * Z :=
  let '(m, d) := month_day doy in (y + era * 400 + (if m <=? 2 then 1 else 0), m, d).

Lemma civil_eq days : civil_from_days days =
  let z := days + 719468 in let y := yoe_of (z mod 146097) in
  date_of (z / 146097) y (z mod 146097 - (365 * y + Z.quot y 4 - Z.quot y 100)).
Proof. done. Qed.

(** Day by day through the months, for each of the 364 days before the last of February. *)
Definition month_step_ok (doy : Z) : bool :=
  let '(m, d) := month_day doy in
  let '(m', d') := month_day (doy + 1) in
  if m =? 2 then (d <? 28) && (m' =? 2) && (d' =? d + 1)
  else if d <? month_len 1 m then (m' =? m) && (d' =? d + 1)
  else (m' =? (if m =? 12 then 1 else m + 1)) && (d' =? 1).

Lemma month_steps : forallb month_step_ok (seqZ 0 364) = true.
Proof. vm_compute. reflexivity. Qed.

Lemma month_len_other y y' m : m <> 2 -> month_len y m = month_len y' m.
Proof. intros Hm. unfold month_len. by rewrite (proj2 (Z.eqb_neq m 2) Hm). Qed.

Lemma date_step era y doy : 0 <= doy < 364 -> date_of era y (doy + 1) = next_date (date_of era y doy).
Proof.
  intros Hd. pose proof (forallb_elem _ _ doy month_steps) as Hs.
  rewrite elem_of_seqZ in Hs. specialize (Hs ltac:(lia)). unfold month_step_ok in Hs. unfold date_of.
  destruct (month_day doy) as [m d], (month_day (doy + 1)) as [m' d']. unfold next_date.
  destruct (Z.eqb_spec m 2) as [->|Hm].
  { breflect. subst. assert (28 <= month_len (y + era * 400 + 1) 2) by (unfold month_len; simpl; case_match; lia).
    simpl. rewrite (proj2 (Z.ltb_lt d _)) by lia. done. }
  rewrite (month_len_other (y + era * 400 + _) 1) by done. destruct (d <? month_len 1 m); breflect; subst; [done|].
  destruct (Z.eqb_spec m 12) as [->|]; simpl; [f_equal; f_equal; lia|].
  f_equal. f_equal. destruct (Z.leb_spec m 2), (Z.leb_spec (m + 1) 2); lia.
Qed.

Lemma leap_shift y era : leap (y + era * 400 + 1) = leap (y + 1).
Proof.
  unfold leap. replace ((y + era * 400 + 1) mod 4) with ((y + 1) mod 4) by eucl.
  replace ((y + era * 400 + 1) mod 100) with ((y + 1) mod 100) by eucl.
  by replace ((y + era * 400 + 1) mod 400) with ((y + 1) mod 400) by eucl.
Qed.

(** The last days of February. *)
Lemma date_feb era y :
  next_date (date_of era y 364) = (if leap (y + 1) then date_of era y 365 else date_of era (y + 1) 0) /\
  (leap (y + 1) = true -> next_date (date_of era y 365) = date_of era (y + 1) 0).
Proof.
  assert (date_of era y 364 = (y + era * 400 + 1, 2, 28)) as -> by done.
  assert (date_of era y 365 = (y + era * 400 + 1, 2, 29)) as -> by done.
  assert (date_of era (y + 1) 0 = (y + 1 + era * 400 + 0, 3, 1)) as -> by done.
  unfold next_date, month_len. simpl. rewrite leap_shift.
  split; [destruct (leap (y + 1)); simpl; [done|f_equal; f_equal; lia]|].
  intros ->. simpl. f_equal. f_equal. lia.
Qed.

Lemma civil_at days era y doy : 0 <= y <= 399 ->
  0 <= doy <= 364 + (if leap (y + 1) then 1 else 0) ->
  days + 719468 = era * 146097 + year_start y + doy -> civil_from_days days = date_of era y doy.
Proof.
  intros Hy Hd He. assert (0 <= year_start y + doy < 146097) as Hr.
  { assert (yoe_of (year_start y + doy) = y) by (apply yoe_unique; [done|lia]).
    unfold year_start. unfold leap in Hd. destruct (Z.eqb_spec ((y + 1) mod 4) 0), (Z.eqb_spec ((y + 1) mod 100) 0),
      (Z.eqb_spec ((y + 1) mod 400) 0); simpl in Hd; eucl. }
  rewrite civil_eq. cbn zeta. rewrite He.
  replace ((era * 146097 + year_start y + doy) / 146097) with era by eucl.
  replace ((era * 146097 + year_start y + doy) mod 146097) with (year_start y + doy) by eucl.
  rewrite (yoe_unique _ y) by (done || lia). rewrite !Z.quot_div_nonneg by lia.
  f_equal. unfold year_start. lia.
Qed.

(** The time stamp of the logs is the Gregorian date: day 0 is 1970-01-01, and every further day
    of any 64-bit clock is the calendar's next day, leap years included. *)
Theorem civil_follows_calendar days : 0 <= days ->
  civil_from_days 0 = (1970, 1, 1) /\ civil_from_days (days + 1) = next_date (civil_from_days days).
Proof.
  intros Hd. split; [reflexivity|]. set (z := days + 719468).
  assert (0 <= z mod 146097 < 146097) as Hz by eucl.
  destruct (yoe_range _ _ Hz eq_refl) as [Hy Hr]. set (y := yoe_of (z mod 146097)) in *.
  set (doy := z mod 146097 - year_start y). set (era := z / 146097).
  assert (z = era * 146097 + year_start y + doy) as Ez by (subst doy era; eucl).
  rewrite (civil_at days era y doy) by lia.
  destruct (decide (doy < 364)) as [Hlt|Hge].
  { rewrite <-date_step by lia. apply civil_at; [done|destruct (leap (y + 1)); lia|lia]. }
  destruct (date_feb era y) as [F1 F2].
  assert (forall e y' d', 0 <= y' <= 399 -> 0 <= d' <= 364 + (if leap (y' + 1) then 1 else 0) ->
    z + 1 = e * 146097 + year_start y' + d' -> civil_from_days (days + 1) = date_of e y' d') as Hnext.
  { intros e y' d' H1 H2 H3. apply civil_at; [done|done|lia]. }
  assert (year_start (y + 1) = year_start y + 365 + (if leap (y + 1) && negb (y =? 399) then 1 else 0)) as Hys.
  { unfold year_start, leap. destruct (Z.eqb_spec ((y + 1) mod 4) 0), (Z.eqb_spec ((y + 1) mod 100) 0),
      (Z.eqb_spec ((y + 1) mod 400) 0), (Z.eqb_spec y 399); simpl; eucl. }
  assert (doy = 364 + (if leap (y + 1) then 1 else 0) -> civil_from_days (days + 1) = date_of era (y + 1) 0) as Hlast.
  { intros Hdoy. destruct (decide (y = 399)) as [E|E].
    - rewrite (Hnext (era + 1) 0 0); [|lia|by vm_compute|].
      + rewrite E. unfold date_of. simpl. f_equal. f_equal. lia.
      + rewrite Ez, Hdoy, E. change (leap (399 + 1)) with true.
        change (year_start 399) with 145731. change (year_start 0) with 0.
        cbv iota. lia.
    - apply Hnext; [lia|destruct (leap (y + 1 + 1)); lia|]. rewrite Ez, Hdoy, Hys.
      rewrite (proj2 (Z.eqb_neq y 399) E), andb_true_r. destruct (leap (y + 1)); lia. }
  destruct (decide (doy = 364)) as [E|E].
  - rewrite E, F1. destruct (leap (y + 1)) eqn:El; [|by apply Hlast].
    apply Hnext; [lia|rewrite El; cbv iota; lia|lia].
  - destruct (leap (y + 1)) eqn:El; [|lia]. assert (doy = 365) as E2 by lia. rewrite E2, F2 by done.
    apply Hlast. lia.
Qed.

Example civil_follows_calendar_instance :
  civil_from_days (11016 + 1) = next_date (civil_from_days 11016) /\
  civil_from_days (11016 + 1) = (2000, 3, 1) /\ format_utc 951782399 = "2000-02-28 23:59:59Z".
Proof.
  split; [apply (civil_follows_calendar 11016); lia|]. split; vm_compute; reflexivity.
Qed.

(** ** Failover *)

Definition probes_all (probe : list Endpoint -> list ProbeResult) : Prop :=
  forall es, length (probe es) = length es.

Lemma pick_some probe cs : probes_all probe -> cs <> [] -> exists e, pick probe cs = Some e /\ e ∈ cs.
Proof.
  intros Hp Hne. destruct cs as [|e [|e' cs]]; [done|exists e; split; [done|set_solver]|].
  unfold pick, swap_remove. assert (rank (probe (e :: e' :: cs)) < length (e :: e' :: cs))%nat as Hlt.
  { rewrite <-(Hp (e :: e' :: cs)). apply rank_lt. intros Hn. specialize (Hp (e :: e' :: cs)). by rewrite Hn in Hp. }
  apply lookup_lt_is_Some in Hlt as [x Hx]. exists x. split; [done|]. by apply list_elem_of_lookup_2 in Hx.
Qed.

(** With another endpoint to go to, there is a candidate, and none is the one that failed. *)
Lemma candidates_spec c cooled current other : other ∈ configured c -> other <> current ->
  (candidates c cooled current).1 <> [] /\
  forall e, e ∈ (candidates c cooled current).1 -> e ∈ configured c /\ e <> current.
Proof.
  intros Ho Hne. unfold candidates. case_bool_decide as E; simpl.
  - split.
    + intros Hn. assert (other ∈ filter (fun e => e <> current) (configured c)) as Hin
        by (by apply list_elem_of_filter). rewrite Hn in Hin. by apply not_elem_of_nil in Hin.
    + by intros e [? ?]%list_elem_of_filter.
  - split; [done|]. intros e [He ?]%list_elem_of_filter. split; [done|]. intros ->. apply He. set_solver.
Qed.

Lemma candidates_sub c cooled current e : e ∈ (candidates c cooled current).1 -> e ∈ configured c.
Proof. unfold candidates. case_bool_decide; simpl; by intros [_ ?]%list_elem_of_filter. Qed.

(** The configurations a pass runs its attempts with: the committed one, but for the
    endpoint and the switch of the detector. *)
Definition wire_variant (config c : EngineConfig) : Prop :=
  c = config <| endpoint := c.(endpoint) |> <| wire_failover := c.(wire_failover) |>.

Lemma wire_variant_with config c e w : wire_variant config c ->
  wire_variant config (c <| endpoint := e |> <| wire_failover := w |>).
Proof. unfold wire_variant. destruct config, c. vm_compute. intros Hv. injection Hv. intros. subst. reflexivity. Qed.

(** The opening probe commits one of the configured endpoints. *)
Lemma selected_variant via_tor probe config : probes_all probe ->
  exists c, with_selected_endpoint via_tor probe config = Some c /\ wire_variant config c /\
    configured c ⊆ configured config.
Proof.
  intros Hp. destruct (selection_commits_configured via_tor probe config Hp) as (c & Hc & Hv & He & _).
  exists c. split_and!; [done|rewrite Hv; by destruct config|].
  assert (c.(alternate_endpoints) = config.(alternate_endpoints)) as Halt by (by rewrite Hv).
  intros x. unfold configured. rewrite Halt. set_solver.
Qed.

(** What the scheduler promises the failover loop: an attempt panics only when [over] holds, and
    raises a wire collapse only when the detector is armed, which takes an alternate. *)
Class PassContract (config : EngineConfig) (over : Prop) (attempt : EngineConfig -> nat -> PassEnd) : Prop := {
  attempt_panics c n : wire_variant config c -> attempt c n = PassPanicked -> over;
  collapse_armed c n res : wire_variant config c -> attempt c n = Returned res -> is_collapse res = true ->
    c.(wire_failover) = true /\ c.(alternate_endpoints) <> [];
}.

Section FailoverEnds.
Context (config : EngineConfig) (over : Prop) (attempt : EngineConfig -> nat -> PassEnd).
Context `{!PassContract config over attempt}.
(** The configuration the probe committed. *)
Context (c0 : EngineConfig) (Hc0 : wire_variant config c0).
Context (probe : nat -> list Endpoint -> list ProbeResult).
Context (Hprobe : forall n, probes_all (probe n)).

(** No endpoint to fail over to: every alternate is the committed endpoint. *)
Definition nowhere_to_go : Prop :=
  config.(alternate_endpoints) <> [] /\ Forall (fun e => e = c0.(endpoint)) config.(alternate_endpoints).

(** How the loop can stand after its attempts: done with no collapse, waiting for the attempt
    it is in, or panicked for one of two reasons. *)
Definition loop_bounded (out : LoopEnd * EngineConfig * Z) : Prop :=
  let '(e, c, sw) := out in
  0 <= sw <= MAX_WIRE_SWITCHES /\ c.(endpoint) ∈ configured c0 /\
  match e with
  | LoopDone res => is_collapse res = false
  | LoopPending => attempt c (Z.to_nat sw) = PassRunning
  | LoopPanic => over \/ nowhere_to_go
  end.

Lemma no_candidates cooled current : current ∈ configured c0 ->
  (candidates c0 cooled current).1 = [] -> Forall (fun e => e = c0.(endpoint)) config.(alternate_endpoints).
Proof.
  intros Hcur Hcs.
  assert (forall e, e ∈ configured c0 -> e = current) as Hall.
  { intros e He. destruct (decide (e = current)) as [|Hne]; [done|].
    by destruct (candidates_spec c0 cooled current e He Hne) as [? _]. }
  assert (config.(alternate_endpoints) = c0.(alternate_endpoints)) as -> by (rewrite Hc0; done).
  apply Forall_forall. intros e He. rewrite (Hall c0.(endpoint)) by left. apply Hall. by right.
Qed.

Lemma failover_loop_bounded fuel : forall n c cooled, let sw := Z.of_nat n in
  sw <= MAX_WIRE_SWITCHES -> MAX_WIRE_SWITCHES - sw < Z.of_nat fuel ->
  (sw = MAX_WIRE_SWITCHES -> c.(wire_failover) = false) ->
  wire_variant config c -> c.(endpoint) ∈ configured c0 ->
  loop_bounded (failover_loop c0 attempt probe fuel n c sw cooled).
Proof.
  assert (MAX_WIRE_SWITCHES = 2) as HM by done.
  induction fuel as [|fuel IH]; intros n c cooled sw Hsw Hf Hd Hv Hc; [lia|]. cbn [failover_loop].
  destruct (attempt c n) as [res| |] eqn:E.
  2:{ split; [lia|split; [exact Hc|]]. left. by apply (attempt_panics c n). }
  2:{ split; [lia|split; [exact Hc|]]. unfold sw. by rewrite Nat2Z.id. }
  destruct (is_collapse res) eqn:Hcol.
  2:{ destruct res as [rep|[]]; try discriminate Hcol; (split; [lia|split; [exact Hc|exact Hcol]]). }
  destruct (collapse_armed c n res Hv E Hcol) as [Harm Halt].
  assert (sw < MAX_WIRE_SWITCHES) as Hlt.
  { destruct (decide (sw = MAX_WIRE_SWITCHES)) as [He|]; [|lia]. specialize (Hd He). congruence. }
  destruct res as [rep|[]]; try done.
  destruct (candidates c0 cooled c.(endpoint)) as [cs cooled'] eqn:Ecs.
  destruct (decide (cs = [])) as [->|Hne].
  { assert (pick (probe n) [] = None) as ->.
    { unfold pick, swap_remove. by rewrite lookup_nil. }
    split; [lia|split; [exact Hc|]]. right. split; [by rewrite Hv in Halt|].
    apply (no_candidates cooled c.(endpoint) Hc). by rewrite Ecs. }
  destruct (pick_some (probe n) cs (Hprobe n) Hne) as (e & -> & He).
  assert (e ∈ configured c0) as Hec by (by eapply candidates_sub; rewrite Ecs).
  match goal with |- context [failover_loop _ _ _ fuel (S n) ?x _ _] => set (c2 := x) end.
  replace (sw + 1) with (Z.of_nat (S n)) by lia. apply IH; [lia|lia| | |].
  - intros Hs. unfold c2. by rewrite (proj2 (Z.leb_le _ _)) by lia.
  - unfold c2. case_match; [exact (wire_variant_with _ c e false Hv)|exact (wire_variant_with _ c e _ Hv)].
  - unfold c2. by case_match.
Qed.
End FailoverEnds.

(** ** Attempts that are passes *)

(** What one pass meets. *)
Record PassInput := mkPassInput {
  pi_recover_until : option Z; pi_progress : option Progress; pi_tx_sig : option (Z * Z); pi_rounds : list Round;
}.

(** An attempt of [sync_once] is a run of the scheduler. *)
Definition pass_attempt (world : EngineConfig -> nat -> PassInput) (c : EngineConfig) (n : nat) : PassEnd :=
  let i := world c n in
  pass_end (run_to_completion c i.(pi_recover_until) i.(pi_progress) i.(pi_tx_sig) i.(pi_rounds)).2.

Section PassAttempts.
Context (fetches : FetchPlan.FetchPlan -> Res WireDetector.FetchStats -> Prop) `{!FetchContract fetches}.
Context (scans : Res ScanStats -> Prop) `{!ScanContract scans}.
Context (config : EngineConfig) (world : EngineConfig -> nat -> PassInput).

(** What an attempt meets: its fetches are fetches and its scans scans, and the wallet
    raises no collapse.  It may go on for ever. *)
Definition world_ok : Prop :=
  forall c n, wire_variant config c -> Forall (round_ok fetches scans c) (world c n).(pi_rounds).

(** The scheduler keeps its promise, on a valid configuration. *)
Lemma pass_attempt_contract : validate config = Ok tt -> world_ok ->
  PassContract config (ChunkQueue.MAX_PERMITS < config.(memory_budget_bytes)) (pass_attempt world).
Proof.
  intros Hval Hw. apply validate_valid in Hval. split.
  - intros c n Hv. unfold pass_attempt.
    destruct (run_to_completion _ _ _ _ _) as [st [t|]] eqn:E; [|done]. intros Hp.
    destruct (decide (ChunkQueue.MAX_PERMITS < config.(memory_budget_bytes))) as [|Hm]; [done|exfalso].
    assert (0 < c.(chunk_blocks) /\ is_Some (ChunkQueue.chunk_queue c.(memory_budget_bytes))) as [Hb Hq];
      [|by destruct (run_rounds_end _ _ _ _ _ _ Hb Hq E) as [res ->]]. rewrite Hv; simpl. split.
    + destruct Hval as [_ _ ? ? _ _ _ _ _ _ _]. lia.
    + unfold ChunkQueue.chunk_queue. rewrite (proj2 (Z.leb_le _ _)); [by eexists|].
      apply Z.max_lub; [lia|]. vm_compute. discriminate.
  - intros c n res Hv. unfold pass_attempt.
    destruct (run_to_completion _ _ _ _ _) as [st [[]|]] eqn:E; try done. intros [= ->] Hcol.
    by apply (run_rounds_collapse fetches scans c _ _ _ _ _ (Hw c n Hv) E).
Qed.
End PassAttempts.


Definition two_servers : EngineConfig :=
  (config_new (mkEndpoint "a" 1 true)) <| alternate_endpoints := [mkEndpoint "b" 2 true] |>.
Definition blank_probe (n : nat) (es : list Endpoint) : list ProbeResult :=
  (fun _ => mkProbeResult None None) <$> es.

(** A server that cannot be dialled: six dials, each refused. *)
Definition refused : list Connector.Dial := replicate 6 (Connector.mkDial None None (Some "refused")).
(** Every armed attempt collapses, as a worker cannot connect; a disarmed one finds
    the scan queue empty. *)
Definition collapse_round : Round :=
  mkRound (Ok [mkScanRange 100 200 Historic]) (Some 100) id (Ok Scan.scan_stats_default)
    (Ok (Err (WireCollapse 0 wire_failover_default.(floor_mbps)))) (Ok tt) (Ok enhance_default) None 0.
Definition drained_round : Round :=
  mkRound (Ok []) (Some 100) id (Ok Scan.scan_stats_default) (Ok (Err Stopped)) (Ok tt) (Ok enhance_default) None 0.
Definition collapsing_world (c : EngineConfig) (n : nat) : PassInput :=
  mkPassInput None None None [if c.(wire_failover) then collapse_round else drained_round].

Import SampleScan.
(** A scan that receives no chunk. *)
Lemma empty_scan : ScanCalls.run_scan (fun ts : UnitCS => Ok ts) (Ok Scan.scan_stats_default).
Proof.
  eapply (ScanCalls.scan_ran (fun ts : UnitCS => Ok ts) (sample_config None false 1) 100 106 (quick 0) (Ok (state_at 99)) (Ok tt) 0
    [] None false Fence.fence_new []); try done.
Qed.

Lemma collapsing_world_ok encoded_len grant send_ok queue_ok fmt :
  world_ok (RunFetch.run_fetch encoded_len grant send_ok queue_ok fmt (mkEndpoint "a" 1 true))
    (ScanCalls.run_scan (fun ts : UnitCS => Ok ts)) two_servers collapsing_world.
Proof.
  pose proof empty_scan. intros c n Hv. unfold collapsing_world, pass_attempt. simpl pi_rounds.
  destruct (wire_failover c) eqn:Hw; constructor; try done.
  split_and!; try done. intros range ranges plan res [= <- <-] Hp [= <-].
  assert (plan.(FetchPlan.failover) = Some wire_failover_default) as Ha
    by (rewrite Hv in Hp; unfold range_plan in Hp; simpl in Hp; rewrite Hw in Hp; by injection Hp as <-).
  apply (RunFetch.fetch_ran _ _ _ _ _ _ plan _ None None (Err (WireCollapse 0 wire_failover_default.(floor_mbps)))
    0 [FetchRelease.WorkerFailed (Transport "connect a: refused") 100 0]).
  - constructor; [|done]. by apply (RunFetch.ev_failed _ _ _ _ _ _ plan None refused []); [constructor|].
  - rewrite Ha. simpl. by destruct (Z.to_nat _).
  - done.
Qed.


(** C35: With a single alternate, failover panics once that alternate has won the opening probe: the
    probe's commit leaves it both endpoint and sole alternate, so after a collapse on it no
    candidate remains and the empty candidate list is indexed. *)
Theorem sole_alternate_failover_panics c c' b probe attempt reprobe fuel m f :
  c.(alternate_endpoints) = [b] -> with_selected_endpoint false probe c = Some c' -> c'.(endpoint) = b ->
  attempt c' 0%nat = Returned (Err (WireCollapse m f)) ->
  (failover c' attempt reprobe false (S fuel)).1.1 = LoopPanic.
Proof.
  intros Hb Hw He Hatt. assert (c'.(alternate_endpoints) = [b]) as Hb'.
  { unfold with_selected_endpoint in Hw. rewrite Hb in Hw. simpl in Hw.
    repeat case_match; simplify_eq; done. }
  assert (forall cooled, candidates c' cooled b = ([], [])) as Hcs.
  { intros cooled. unfold candidates, configured. rewrite He, Hb'.
    rewrite !filter_cons_False, filter_nil by set_solver.
    by rewrite bool_decide_true. }
  unfold failover. cbn [failover_loop]. rewrite Hatt, He, Hcs. done.
Qed.

Lemma sole_alternate_failover_panics_witness :
  let probe es := take (length es) [mkProbeResult None None; mkProbeResult (Some 5) None] in
  exists c', with_selected_endpoint false probe two_servers = Some c' /\
    (failover c' (pass_attempt collapsing_world) blank_probe false 3).1.1 = LoopPanic.
Proof.
  intros probe. exists (two_servers <| endpoint := mkEndpoint "b" 2 true |>). split; [reflexivity|].
  apply (sole_alternate_failover_panics two_servers _ (mkEndpoint "b" 2 true) probe
    (pass_attempt collapsing_world) blank_probe 2 0 wire_failover_default.(floor_mbps)); reflexivity.
Defined.

(** ** The pass *)

Lemma pbind_ok {A B} (m : M A) (k : A -> M B) r r' b : pbind m k r = (r', Ended (Ok b)) ->
  exists a r1, m r = (r1, Ended (Ok a)) /\ k a r1 = (r', Ended (Ok b)).
Proof. unfold pbind. destruct (m r) as [r1 [[a|e]| |]]; try done. eauto. Qed.

(** A pass that cannot be valid touches nothing: with an invalid configuration or an account
    birthday of zero it fails with a configuration error before any wallet or network step,
    leaving the progress as it was. *)
Theorem sync_once_guards config via_tor e fuel accounts r :
  (forall err, validate config = Err err ->
     sync_once config via_tor e fuel accounts r = (r, Ended (Err err))) /\
  (validate config = Ok tt -> existsb (fun a => a.(birthday) =? 0) accounts = true ->
     exists m, sync_once config via_tor e fuel accounts r = (r, Ended (Err (Config m)))).
Proof.
  split.
  - intros err Hv. unfold sync_once, pbind, ask. by rewrite Hv.
  - intros Hv Hb. unfold sync_once, pbind, ask. rewrite Hv, Hb. eauto.
Qed.
Definition sample_env : Env :=
  mkEnv (blank_probe 0) (Ok tt) (Ok tt) (Ok false) (Ok tt) (Ok tt) (Ok tt) (Ok 2500) (Ok tt) (Ok tt)
    (fun _ _ => Returned (Ok report_default)) blank_probe id (Ok enhance_default) (fun n => Z.of_nat n).

Example sync_once_guards_instance :
  exists m, sync_once two_servers false sample_env 3 [mkAccount 0 (Ok false) (Ok tt) (Ok tt)] (mkRun None []) =
    (mkRun None [], Ended (Err (Config m))).
Proof.
  apply (proj2 (sync_once_guards two_servers false sample_env 3 [mkAccount 0 (Ok false) (Ok tt) (Ok tt)] (mkRun None [])));
    vm_compute; reflexivity.
Qed.

Definition is_import (s : Step) : Prop := match s with SImport _ => True | _ => False end.

Lemma call_ok {A} st (res : Res A) r r' a : call st res r = (r', Ended (Ok a)) ->
  res = Ok a /\ r' = mkRun r.(run_progress) (r.(steps) ++ [st]).
Proof. unfold call. by intros [= <- ->]. Qed.

Lemma ask_ok {A} (res : Res A) r r' a : ask res r = (r', Ended (Ok a)) -> res = Ok a /\ r' = r.
Proof. unfold ask. by intros [= <- ->]. Qed.

Lemma note_ok f r r' u : note f r = (r', Ended (Ok u)) -> r' = mkRun (f <$> r.(run_progress)) r.(steps).
Proof. unfold note. by intros [= <- _]. Qed.

(** Takes apart the run of a pass that succeeded, call by call. *)
Ltac pass_step H :=
  let x := fresh "x" in let r := fresh "r" in let Hm := fresh "Hm" in
  apply pbind_ok in H as (x & r & Hm & H);
  first [ apply call_ok in Hm as [? ->] | apply ask_ok in Hm as [? ->] | apply note_ok in Hm as -> | idtac ].

Lemma bootstrap_ok e accounts : forall k r r' u, bootstrap e k accounts r = (r', Ended (Ok u)) ->
  is_Some r.(run_progress) -> exists imports, r'.(steps) = r.(steps) ++ imports /\
    Forall is_import imports /\ is_Some r'.(run_progress).
Proof.
  induction accounts as [|a accounts IH]; intros k r r' u; cbn [bootstrap].
  { intros [= <- _] Hp. exists []. by rewrite app_nil_r. }
  intros H Hp. pass_step H. destruct x.
  { by eapply IH in H. }
  do 3 pass_step H. destruct Hp as [p Hp].
  eapply IH in H as (imports & Hs & Hi & Hr); [|simpl; rewrite Hp; by eexists]. simpl in *.
  exists (SImport a.(birthday) :: imports). rewrite Hs, <-app_assoc. split; [done|]. split; [|done].
  by constructor.
Qed.

Lemma sync_loop_ok via_tor e fuel c r r' x : sync_loop via_tor e fuel c r = (r', Ended (Ok x)) ->
  r' = mkRun (e.(e_work) <$> r.(run_progress)) (r.(steps) ++ [SSync]).
Proof.
  unfold sync_loop. intros H. do 2 pass_step H. simpl in H.
  destruct (failover _ _ _ _ _) as [[[[]| |] ?] ?]; by injection H as <- _.
Qed.

Lemma commit_ok config via_tor e r r' c : commit config via_tor e r = (r', Ended (Ok c)) ->
  r' = mkRun r.(run_progress) (r.(steps) ++
         if bool_decide (config.(alternate_endpoints) = []) || via_tor then [] else [SProbe]).
Proof.
  unfold commit. destruct (_ || _).
  - intros [= <- _]. rewrite app_nil_r. by destruct r.
  - intros H. pass_step H. simpl in H. by destruct (with_selected_endpoint _ _ _); injection H as <- _.
Qed.

(** A successful pass runs its stages in order: probe (only with alternates and off Tor), wallet,
    connection, account imports, subtree roots, chain tip, UTXOs, the scan and the final
    enhancement; the wallet's tip is the one reported, is set before any scan, and only then is
    the download's failure record cleared. *)
Theorem sync_once_order config via_tor e fuel accounts p out r' :
  sync_once config via_tor e fuel accounts (mkRun (Some p) []) = (r', Ended (Ok out)) ->
  exists imports historic p', Forall is_import imports /\
    r'.(steps) = (if bool_decide (config.(alternate_endpoints) = []) || via_tor then [] else [SProbe]) ++
      [SOpenWallet; SConnect] ++ imports ++
      [SGetRoots historic; SPutRoots; SGetTip; SUpdateTip out.(out_chain_tip); SRefreshUtxos; SSync; SFinalEnhance] /\
    r'.(run_progress) = Some p' /\ p'.(download_failures) = ∅.
Proof.
  unfold sync_once. intros H. do 3 pass_step H. pass_step H.
  match goal with Hm : commit _ _ _ _ = _ |- _ => apply commit_ok in Hm as -> end.
  do 2 pass_step H. pass_step H.
  match goal with Hm : bootstrap _ _ _ _ = _ |- _ =>
    apply bootstrap_ok in Hm as (imports & Hs & Hi & [q Hq]); [|by eexists] end.
  simpl in Hs. do 11 pass_step H. pass_step H.
  match goal with Hm : sync_loop _ _ _ _ _ = _ |- _ => apply sync_loop_ok in Hm as -> end.
  match type of H with context [match ?x with (_, _) => _ end] => destruct x as [rep sw] end.
  do 2 pass_step H. injection H as <- <-. simpl. rewrite Hs, Hq. simpl.
  do 3 eexists. split; [exact Hi|]. split; [by rewrite <-!app_assoc|]. done.
Qed.

Example sync_once_order_instance :
  let '(r, end_) := sync_once two_servers false sample_env 3 [mkAccount 900 (Ok false) (Ok tt) (Ok tt)]
                      (mkRun (Some progress_default) []) in
  r.(steps) = [SProbe; SOpenWallet; SConnect; SImport 900; SGetRoots false; SPutRoots; SGetTip; SUpdateTip 2500;
               SRefreshUtxos; SSync; SFinalEnhance] /\
  exists p', r.(run_progress) = Some p' /\ p'.(download_failures) = ∅.
Proof.
  destruct (sync_once two_servers false sample_env 3 [mkAccount 900 (Ok false) (Ok tt) (Ok tt)]
    (mkRun (Some progress_default) [])) as [r end_] eqn:E.
  split; [vm_compute in E; injection E as <- _; reflexivity|].
  assert (end_ = Ended (Ok (mkOutcome report_default 2500 0))) as -> by
    (vm_compute in E; injection E as _ <-; reflexivity).
  destruct (sync_once_order _ _ _ _ _ _ _ _ E) as (imports & h & p' & _ & _ & Hp & Hd).
  exists p'. split; [exact Hp|exact Hd].
Qed.

End Engine.
