(* ===== verification/SyncFile.v ===== *)
(** * A sync over the wallet file

    [Engine.v] is [sync_once] with the answers of its calls as inputs; here the calls run on the
    wallet file: opening with its repairs, account imports, subtree roots, the chain tip, the runs
    of the scheduler ([PassFile]) that the failover loop makes, and the final enhancement.  UTXO
    refresh and enhancement write no tree and no block.  The library's migrations count as one
    write.

    The composition shows that nothing scanned is lost from the opening of the wallet to the end
    of the sync, and that a sync that succeeds has everything up to the wallet's tip. *)

From S2P Require Export PassFile Engine.
From S2P Require Import Grpc.

Module SyncFile.
Import GraftAccumulator SparseStore GraftBuffer GraftPlan PutBlocks Sweep WalletSession Tracked PassFile.
Import Config(EngineConfig, Endpoint, ProbeResult, endpoint, graft_subtree, wire_failover).
Import Scheduler(ScanRange, r_start, r_end).
#[local] Existing Instances Scheduler.scan_priority_eq_dec Config.eta_EngineConfig.

Section File.
Context {W Ns No Ts To Cs Co Fs Fo Key St Er : Type} `{!EqDecision Ns} `{!HashSer Ns} `{!EqDecision No} `{!HashSer No}.
Context (PS : PoolLib W Ns Ts Cs Fs) (PO PI : PoolLib W No To Co Fo) `{!WalletLib W Ns No Fs Fo} `{!SweepLib W} `{!SessionDb W Key}.
Context `{!RootsDb W Ns No} `{!ShardLeaves Ns Ts} `{!ShardLeaves No To} `{!CheckpointStore St Er}.
Context (with_tree_mut : forall A, ShieldedPool -> (St -> St * result Er A) -> W -> W * result string (option A)).
Context (fault : nat -> option string).
Abbreviation View := (WalletView (W := W) (Ts := Ts) (To := To) (Cs := Cs) (Co := Co)).
Context (U : View) (anchors : option (Z -> bool)).

Abbreviation V := (tracked U).

(** ** Opening *)

(** The wallet's states on the way through [WalletSession::open]. *)
Definition heal_states (d : W) : list W :=
  match with_tree_mut Z Sapling heal_pool_checkpoints d with
  | (d1, Err _) => [d1]
  | (d1, Ok _) =>
    match with_tree_mut Z Orchard heal_pool_checkpoints d1 with
    | (d2, Err _) => [d1; d2]
    | (d2, Ok _) => [d1; d2; (with_tree_mut Z Ironwood heal_pool_checkpoints d2).1]
    end
  end.
Definition open_states (steps : list (option string)) (d : W) : list W :=
  match first_error (zip open_steps steps) with
  | Some _ => []
  | None =>
    match migrate d with
    | Err _ => []
    | Ok d1 => let d2 := (prune_orphaned_historic_ranges d1).1 in d1 :: d2 :: heal_states d2
    end
  end.
Definition advance (w : World W) (d : W) : World W :=
  mkWorld w.(table) d w.(statements) ((w.(table), w.(wallet)) :: w.(crashes)).
Definition open_file (steps : list (option string)) (w : World W) : World W := foldl advance w (open_states steps w.(wallet)).

Lemma open_states_last steps d : default d (last (open_states steps d)) = (open with_tree_mut steps d).1.
Proof.
  unfold open_states, open, heal_states, heal_flooded_checkpoints. destruct (first_error _); [done|].
  destruct (migrate d) as [d1|]; [|done]. destruct (prune_orphaned_historic_ranges d1) as [d2 r]. cbn [fst].
  destruct (with_tree_mut Z Sapling heal_pool_checkpoints d2) as [d3 [n1|]]; [|done].
  destruct (with_tree_mut Z Orchard heal_pool_checkpoints d3) as [d4 [n2|]]; [|done].
  by destruct (with_tree_mut Z Ironwood heal_pool_checkpoints d4) as [d5 [n3|]].
Qed.
Lemma open_file_wallet steps w : (open_file steps w).(wallet) = (open with_tree_mut steps w.(wallet)).1.
Proof.
  rewrite <- open_states_last. unfold open_file. generalize (open_states steps w.(wallet)). intros l.
  destruct l as [|d l _] using rev_ind; [done|]. by rewrite foldl_snoc, last_snoc.
Qed.

(** ** The runs of the failover loop *)

Section Sync.
Context (config : EngineConfig) (e : Engine.Env) (accounts : list Engine.Account).

(** What follows a collapse: the next attempt's configuration, the switches, the cooled endpoints. *)
Definition next_attempt (n : nat) (c : EngineConfig) (wire_switches : Z) (cooled : list Endpoint)
  : option (EngineConfig * Z * list Endpoint) :=
  let '(cs, cooled) := Engine.candidates config cooled c.(endpoint) in
  match Engine.pick (e.(Engine.e_reprobe) n) cs with
  | None => None
  | Some next =>
    let c1 := c <| endpoint := next |> in
    Some (if Engine.MAX_WIRE_SWITCHES <=? wire_switches + 1 then c1 <| wire_failover := false |> else c1, wire_switches + 1, cooled)
  end.
Lemma failover_loop_next fuel n c sw cooled m f : e.(Engine.e_attempt) c n = Pass.Returned (Err (WireCollapse m f)) ->
  Engine.failover_loop config e.(Engine.e_attempt) e.(Engine.e_reprobe) (S fuel) n c sw cooled =
  match next_attempt n c sw cooled with
  | None => (Engine.LoopPanic, c, sw + 1)
  | Some (c', sw', cooled') => Engine.failover_loop config e.(Engine.e_attempt) e.(Engine.e_reprobe) fuel (S n) c' sw' cooled'
  end.
Proof.
  intros Ea. cbn [Engine.failover_loop]. rewrite Ea. unfold next_attempt.
  destruct (Engine.candidates config cooled c.(endpoint)) as [cs cooled']. by destruct (Engine.pick _ cs).
Qed.

Definition is_collapse_end (p : Pass.PassEnd) : bool := match p with Pass.Returned (Err (WireCollapse _ _)) => true | _ => false end.
(** An attempt is a pass over the file, which ends as the loop is told. *)
Definition file_attempt (c : EngineConfig) (n : nat) (x y : Conf) : Prop :=
  exists recover_until p sig rds st t,
    file_pass PS PO PI fault U c recover_until anchors p sig rds x st t y /\ e.(Engine.e_attempt) c n = Pass.pass_end t.
Inductive file_failover : nat -> nat -> EngineConfig -> Z -> list Endpoint -> Conf -> Conf -> Prop :=
| failover_fuel n c sw cooled x : file_failover O n c sw cooled x x
| failover_done fuel n c sw cooled x y : file_attempt c n x y -> is_collapse_end (e.(Engine.e_attempt) c n) = false ->
    file_failover (S fuel) n c sw cooled x y
| failover_panics fuel n c sw cooled x y : file_attempt c n x y -> is_collapse_end (e.(Engine.e_attempt) c n) = true ->
    next_attempt n c sw cooled = None -> file_failover (S fuel) n c sw cooled x y
| failover_switches fuel n c sw cooled x y c' sw' cooled' z : file_attempt c n x y -> is_collapse_end (e.(Engine.e_attempt) c n) = true ->
    next_attempt n c sw cooled = Some (c', sw', cooled') -> file_failover fuel (S n) c' sw' cooled' y z ->
    file_failover (S fuel) n c sw cooled x z.

(** ** The steps of a sync *)

Context (via_tor : bool) (fuel : nat).
Definition first_attempt : EngineConfig := if via_tor then config <| wire_failover := false |> else config.
(** The birthday an account is imported with is the chain's below its own height. *)
Definition birthday_of (ch : Chain) (b : Birthday) : Prop :=
  b.(birthday_sapling_size) = ch.(size) Sapling b.(prior_height) /\ b.(birthday_orchard_size) = ch.(size) Orchard b.(prior_height).

Inductive sync_step : Engine.Step -> Conf -> Conf -> Prop :=
| sync_probe x : sync_step Engine.SProbe x x
| sync_open steps ch w : e.(Engine.e_open) = (open with_tree_mut steps w.(wallet)).2 ->
    sync_step Engine.SOpenWallet (ch, w) (ch, open_file steps w)
| sync_connect x : sync_step Engine.SConnect x x
| sync_import a opened k b ch w w' : a ∈ accounts -> (forall b', b = Ok b' -> birthday_of ch b' /\ b'.(prior_height) = a.(Engine.birthday) - 1) ->
    import_account (Key := Key) fault opened k b w = (w', Ok a.(Engine.import)) ->
    sync_step (Engine.SImport a.(Engine.birthday)) (ch, w) (ch, w')
| sync_get_roots historic ch w : has_historic_scan_ranges w.(wallet) = Ok historic -> sync_step (Engine.SGetRoots historic) (ch, w) (ch, w)
| sync_put_roots start roots ch w w' : start = Grpc.start_default \/ next_subtree_root_start (Key := Key) w.(wallet) = Ok start ->
    put_subtree_roots_at fault start roots w = (w', Ok e.(Engine.e_put_roots)) -> sync_step Engine.SPutRoots (ch, w) (ch, w')
| sync_get_tip x : sync_step Engine.SGetTip x x
| sync_update_tip tip ch w w' : update_chain_tip (Key := Key) fault tip w = (w', Ok e.(Engine.e_update_tip)) ->
    sync_step (Engine.SUpdateTip tip) (ch, w) (ch, w')
| sync_utxos ch w w' : writes U w w' -> sync_step Engine.SRefreshUtxos (ch, w) (ch, w')
| sync_passes x y : file_failover fuel 0 first_attempt 0 [] x y -> sync_step Engine.SSync x y
| sync_enhance ch w w' : writes U w w' -> sync_step Engine.SFinalEnhance (ch, w) (ch, w').
Inductive sync_steps : list Engine.Step -> Conf -> Conf -> Prop :=
| sync_none x : sync_steps [] x x
| sync_one s ss x y z : sync_step s x y -> sync_steps ss y z -> sync_steps (s :: ss) x z
| sync_drift ss ch ch' w z : drift U ch ch' w -> sync_steps ss (ch', w) z -> sync_steps ss (ch, w) z.
End Sync.

(** ** What the library keeps *)

(** None of these calls marks a block scanned, records another block, takes a commitment of a
    block that stays scanned out of a tree or changes an account. *)
Definition preserved (d d' : W) : Prop := kept U d d' /\ same_birthday d d'.
Lemma preserved_refl d : preserved d d.
Proof. by split; [split|]. Qed.
Class SyncLaws : Prop := {
  migrate_keeps d d' : migrate d = Ok d' -> preserved d d';
  prune_keeps floor d d' n : prune_scan_queue_below floor d = Ok (d', n) -> preserved d d';
  heal_keeps pool d : preserved d (with_tree_mut Z pool heal_pool_checkpoints d).1;
  sapling_roots_keep start (roots : list (Z * Ns)) d d' : put_sapling_subtree_roots start roots d = Ok d' -> preserved d d';
  orchard_roots_keep start (roots : list (Z * No)) d d' : put_orchard_subtree_roots start roots d = Ok d' -> preserved d d';
  ironwood_roots_keep start (roots : list (Z * No)) d d' : put_ironwood_subtree_roots start roots d = Ok d' -> preserved d d';
  tip_keeps h d d' : lib_update_chain_tip h d = Ok d' -> preserved d d';
  (** Without a range left to scan, what lies between birthday and tip is scanned. *)
  drained_scanned d floor tip h : suggest_scan_ranges d = Ok [] -> get_wallet_birthday d = Ok (Some floor) ->
    PutBlocks.chain_height d = Ok (Some tip) -> floor <= h <= tip -> scanned U d h;
}.
Context {WL : WalletLaws PS PO PI U} {RC : RecordLaws PS PO PI} {SL : SweepLaws U} {AL : AccountLaws U} {RL : RewindLaws U} {YL : SyncLaws}.

Lemma preserved_kept d d' : preserved d d' -> kept V d d'.
Proof. intros [K Hb]. by apply kept_tracked. Qed.
Lemma kept_refl d : kept V d d.
Proof. by split. Qed.

(** A write that keeps. *)
Lemma kept_healthy ch t d d' n n' cs cs' : kept V d d' -> healthy U (ch, mkWorld t d n cs) -> healthy U (ch, mkWorld t d' n' cs').
Proof.
  intros K (Hs & Hk & Hf). cbn in *. split_and!; cbn; [by eapply kept_safe|done|by eapply kept_follows].
Qed.
Lemma advance_safely ch w d : kept V w.(wallet) d -> healthy U (ch, w) -> safely U (ch, w) (ch, advance w d).
Proof.
  intros K Hh. assert (healthy U (ch, advance w d)) as Hh' by (destruct w; by eapply kept_healthy).
  apply safely_one; [|exact Hh']. split; [apply Hh'|]. exists [(w.(table), w.(wallet))]. split; [done|]. apply Forall_singleton. apply Hh.
Qed.
Lemma advances_safely ch l : forall w, healthy U (ch, w) ->
  (forall i a b, (w.(wallet) :: l) !! i = Some a -> l !! i = Some b -> kept V a b) -> safely U (ch, w) (ch, foldl advance w l).
Proof.
  induction l as [|d l IH]; intros w Hh Hk; [by apply safely_here|]. cbn [foldl].
  assert (safely U (ch, w) (ch, advance w d)) as S1 by (apply advance_safely; [by apply (Hk 0%nat)|done]).
  eapply safely_trans; [exact S1|]. apply IH; [by eapply safely_healthy|]. intros i a b Ha Hb. by apply (Hk (S i)).
Qed.
Lemma prune_kept d : kept V d (prune_orphaned_historic_ranges d).1.
Proof.
  unfold prune_orphaned_historic_ranges. destruct (get_wallet_birthday d) as [[floor|]|]; [|apply kept_refl..].
  destruct (prune_scan_queue_below floor d) as [[d' n]|] eqn:Ep; [by eapply preserved_kept, prune_keeps|apply kept_refl].
Qed.
Lemma open_safely ch steps w : healthy U (ch, w) -> safely U (ch, w) (ch, open_file steps w).
Proof.
  intros Hh. apply advances_safely; [done|]. unfold open_states. destruct (first_error _); [done|].
  destruct (migrate w.(wallet)) as [d1|] eqn:Em; [|done]. unfold heal_states.
  assert (forall pool d, kept V d (with_tree_mut Z pool heal_pool_checkpoints d).1) as Hheal by (intros; apply preserved_kept, heal_keeps).
  set (d2 := (prune_orphaned_historic_ranges d1).1).
  pose proof (Hheal Sapling d2) as H1. destruct (with_tree_mut Z Sapling heal_pool_checkpoints d2) as [d3 r1]. cbn [fst] in H1.
  pose proof (Hheal Orchard d3) as H2. destruct (with_tree_mut Z Orchard heal_pool_checkpoints d3) as [d4 r2]. cbn [fst] in H2.
  pose proof (Hheal Ironwood d4) as H3.
  destruct r1 as [n1|]; [destruct r2 as [n2|]|]; intros i a b Ha Hb;
    repeat (destruct i as [|i]; [injection Ha as <-; injection Hb as <-; first [by eapply preserved_kept, migrate_keeps|apply prune_kept|done]|cbn in Ha, Hb]); done.
Qed.

(** A transaction that keeps. *)
Lemma transact_safely {A} ch (f : W -> result SqliteClientError (W * A)) w w' r :
  (forall d a, f w.(wallet) = Ok (d, a) -> kept V w.(wallet) d) -> healthy U (ch, w) ->
  transactionally fault f w = (w', r) -> safely U (ch, w) (ch, w').
Proof.
  intros Hk Hh. unfold transactionally. destruct (f w.(wallet)) as [[d a]|] eqn:Ef; [|intros [= <- <-]; by apply safely_here].
  destruct (fault w.(statements)); intros [= <- <-].
  - apply safely_one; [|exact Hh]. split; [apply Hh|]. by exists [].
  - assert (healthy U (ch, mkWorld w.(table) d (S w.(statements)) ((w.(table), w.(wallet)) :: w.(crashes)))) as Hh'.
    { destruct w. eapply kept_healthy; [by eapply Hk|exact Hh]. }
    apply safely_one; [|exact Hh']. split; [apply Hh'|]. exists [(w.(table), w.(wallet))]. split; [done|]. apply Forall_singleton. apply Hh.
Qed.
Lemma put_pool_roots_safely ch context put w w' r : (forall d, put w.(wallet) = Ok d -> kept V w.(wallet) d) -> healthy U (ch, w) ->
  put_pool_roots fault context put w = (w', r) -> safely U (ch, w) (ch, w').
Proof.
  intros Hk Hh. unfold put_pool_roots, bind, attempt. destruct (transactionally fault _ w) as [w1 r1] eqn:Et.
  intros [= <- <-]. eapply transact_safely; [|exact Hh|exact Et]. intros d a. cbn beta. destruct (put w.(wallet)) as [d1|] eqn:Ep; cbn [result_bind]; [|done].
  intros [= <- <-]. by apply Hk.
Qed.
Lemma put_roots_safely ch start (roots : Grpc.SubtreeRoots Ns No) w w' r : healthy U (ch, w) ->
  put_subtree_roots_at fault start roots w = (w', r) -> safely U (ch, w) (ch, w').
Proof.
  intros Hh. unfold put_subtree_roots_at, bind at 1. destruct (put_pool_roots fault _ _ w) as [w1 r1] eqn:E1.
  apply put_pool_roots_safely with (ch := ch) in E1; [|intros d Ed; by eapply preserved_kept, sapling_roots_keep|done].
  destruct r1 as [[[]|]|]; [|by intros [= <- <-]..]. unfold bind at 1. destruct (put_pool_roots fault _ _ w1) as [w2 r2] eqn:E2.
  apply put_pool_roots_safely with (ch := ch) in E2; [|intros d Ed; by eapply preserved_kept, orchard_roots_keep|by eapply safely_healthy].
  pose proof (safely_trans U _ _ _ E1 E2) as S12. destruct r2 as [[[]|]|]; [|by intros [= <- <-]..]. intros E3.
  apply put_pool_roots_safely with (ch := ch) in E3; [|intros d Ed; by eapply preserved_kept, ironwood_roots_keep|by eapply safely_healthy].
  by eapply safely_trans.
Qed.
Lemma update_tip_safely ch tip w w' r : healthy U (ch, w) -> update_chain_tip (Key := Key) fault tip w = (w', r) -> safely U (ch, w) (ch, w').
Proof.
  intros Hh. unfold update_chain_tip. destruct (u32_try_from tip) as [h|]; [|intros [= <- <-]; by apply safely_here].
  unfold bind, attempt. destruct (transactionally fault _ w) as [w1 r1] eqn:Et. intros [= <- <-].
  eapply transact_safely; [|exact Hh|exact Et]. intros d a. cbn beta. destruct (lib_update_chain_tip h w.(wallet)) as [d1|] eqn:Ep; cbn [result_bind]; [|done].
  intros [= <- <-]. by eapply preserved_kept, tip_keeps.
Qed.

(** An import leaves the wallet, or the library's imported one. *)
Lemma drop_wallet opened s o (w : World W) : (drop_graft_rows_from fault opened (Some s) (Some o) w).1.(wallet) = w.(wallet).
Proof.
  unfold drop_graft_rows_from, bind, attempt, delete_from_position, execute. destruct opened; [done|].
  destruct (fault w.(statements)); [done|]. cbn [statements]. by destruct (fault _).
Qed.
Lemma import_wallet opened k b (w w' : World W) r : import_account_with_birthday (Key := Key) fault opened k b w = (w', r) ->
  w'.(wallet) = w.(wallet) \/ import_account_ufvk k b w.(wallet) = Ok w'.(wallet).
Proof.
  unfold import_account_with_birthday, bind at 1, attempt at 1, read at 1.
  destruct (get_account_ids w.(wallet)) as [before|]; cbn [labelled_read]; [|intros [= <- <-]; by left].
  unfold bind at 1, attempt at 1, transactionally. destruct (import_account_ufvk k b w.(wallet)) as [d|] eqn:Ei; cbn [result_bind labelled_read];
    [|intros [= <- <-]; by left].
  destruct (fault w.(statements)); cbn [labelled_read]; [intros [= <- <-]; by left|]. set (w1 := mkWorld _ _ _ _).
  unfold bind at 1, attempt at 1, read at 1. destruct (get_account_ids w1.(wallet)) as [after|]; cbn [labelled_read]; [|intros [= <- <-]; by right].
  destruct (_ <? _)%nat; [|intros [= <- <-]; by right]. intros E'. right.
  pose proof (drop_wallet opened b.(birthday_sapling_size) b.(birthday_orchard_size) w1) as Hw. rewrite E' in Hw. cbn [fst] in Hw. by rewrite Hw.
Qed.
Lemma import_safely ch opened k b w w' r : (forall b', b = Ok b' -> birthday_of ch b') -> healthy U (ch, w) ->
  import_account (Key := Key) fault opened k b w = (w', r) -> safely U (ch, w) (ch, w').
Proof.
  intros Hb Hh. unfold import_account. destruct b as [b|be]; [|intros [= <- <-]; by apply safely_here]. intros Ei.
  destruct (Hb b eq_refl) as [B1 B2]. destruct Hh as (Hs & Hk & Hf).
  destruct (import_spec fault V ch.(block_of) ch.(size) _ _ _ _ _ _ Hs Hk Hf B1 B2 Ei) as [A K].
  apply safely_one; [exact A|]. split_and!; [apply A|exact K|]. cbn.
  destruct (import_wallet _ _ _ _ _ _ Ei) as [->|Hi]; [done|]. eapply kept_follows; [by eapply (import_keeps V)|exact Hf].
Qed.

(** *** Attempts and steps *)

Section Steps.
Context (config : EngineConfig) (e : Engine.Env) (accounts : list Engine.Account) (via_tor : bool) (fuel : nat).
Abbreviation failover_run := (file_failover config e).

Lemma attempt_safely c n x y : file_attempt e c n x y -> healthy U x -> safely U x y.
Proof.
  intros (ru & p & sig & rds & st & t & (rd & x1 & Hs & Hr) & _) Hh.
  assert (safely U x x1) as S1 by (by eapply (step_safely PS PO PI)).
  destruct (rounds_safely _ _ _ _ _ _ _ _ _ _ _ _ _ _ Hr (safely_healthy _ _ _ S1)) as [_ S2]. by eapply safely_trans.
Qed.
Lemma failover_safely k n c sw cooled x y : failover_run k n c sw cooled x y -> healthy U x -> safely U x y.
Proof.
  induction 1 as [n c sw cooled x|k n c sw cooled x y Ha _|k n c sw cooled x y Ha _ _|k n c sw cooled x y c' sw' cooled' z Ha _ _ _ IH]; intros Hh.
  - by apply safely_here.
  - by eapply attempt_safely.
  - by eapply attempt_safely.
  - pose proof (attempt_safely _ _ _ _ Ha Hh) as S1. eapply safely_trans; [exact S1|]. apply IH. by eapply safely_healthy.
Qed.
Lemma writes_safely ch w w' : writes U w w' -> healthy U (ch, w) -> safely U (ch, w) (ch, w').
Proof.
  intros Hw (Hs & Hk & Hf). destruct (writes_safe U _ _ _ Hw Hs) as (A & Et & [Hb Hu]%unrelated_tracked). apply safely_one; [exact A|].
  cbn in *. split_and!; cbn; [apply A|by rewrite Et|by eapply follows_onward].
Qed.
Lemma sync_step_safely s x y : sync_step config e accounts via_tor fuel s x y -> healthy U x -> safely U x y.
Proof.
  intros Hs Hh. destruct Hs as [x|steps ch w _|x|a opened k b ch w w' _ Hb Ei|hist ch w _|start roots ch w w' _ Eroots|x|tip ch w w' Et|ch w w' Hw|x y Hf|ch w w' Hw];
    try (by apply safely_here).
  - by apply open_safely.
  - eapply import_safely; [|exact Hh|exact Ei]. intros b' ->. by destruct (Hb b' eq_refl).
  - by eapply put_roots_safely.
  - by eapply update_tip_safely.
  - by apply writes_safely.
  - by eapply failover_safely.
  - by apply writes_safely.
Qed.
Lemma sync_steps_safely ss x y : sync_steps config e accounts via_tor fuel ss x y -> healthy U x -> safely U x y.
Proof.
  induction 1 as [x|s ss x y z Hs _ IH|ss ch ch' w z Hd _ IH]; intros Hh.
  - by apply safely_here.
  - pose proof (sync_step_safely _ _ _ Hs Hh) as S1. eapply safely_trans; [exact S1|]. apply IH. by eapply safely_healthy.
  - eapply safely_drifts; [exact Hd|]. apply IH. by eapply drift_healthy.
Qed.

(** *** A sync that succeeds *)

Lemma round_returns_ok c ru rd st st' rep : Pass.round c ru rd st = (st', Pass.Return (Ok rep)) ->
  rd.(Pass.rd_ranges) = Ok [] /\ st'.(Pass.trace) = st.(Pass.trace).
Proof.
  unfold Pass.round. destruct (Pass.rd_ranges rd) as [[|range ranges]|]; [by intros [= <- _]| |done]. intros H. exfalso. revert H.
  set (st1 := match _ with Some p => _ | None => _ end). clearbody st1.
  unfold Pass.process_range, Pass.recover, Pass.complete. repeat (case_match; try done).
Qed.
Lemma file_steps_nil c rd x y : file_steps PS PO PI fault U c anchors rd [] x y -> y.2 = x.2.
Proof. remember [] as acts. induction 1; [done|done|by rewrite IHfile_steps]. Qed.
Lemma rounds_drained c ru rds st x st' rep y :
  file_rounds PS PO PI fault U c ru anchors rds st x st' (Some (Pass.Return (Ok rep))) y -> suggest_scan_ranges y.2.(wallet) = Ok [].
Proof.
  remember (Some (Pass.Return (Ok rep))) as t eqn:Et.
  induction 1 as [st x|rd rds st st' t acts x y Hr Ern Ht Htr Hs|rd rds st st' acts x y st'' t z Hr Ern Htr Hs Hrest IH]; [done| |by apply IH].
  injection Et as ->. destruct (round_returns_ok _ _ _ _ _ _ Ern) as [E0 Etr]. rewrite Etr in Htr.
  assert (acts = []) as -> by (apply (app_inv_head st.(Pass.trace)); by rewrite app_nil_r).
  rewrite (file_steps_nil _ _ _ _ Hs). rewrite E0 in Hr. unfold session_scan_ranges, labelled_read in Hr.
  destruct (suggest_scan_ranges x.2.(wallet)) as [l|]; [|done]. by injection Hr as <-.
Qed.
Lemma failover_drained k n c sw cooled x y rep c' sw' : failover_run k n c sw cooled x y ->
  Engine.failover_loop config e.(Engine.e_attempt) e.(Engine.e_reprobe) k n c sw cooled = (Engine.LoopDone (Ok rep), c', sw') ->
  suggest_scan_ranges y.2.(wallet) = Ok [].
Proof.
  induction 1 as [n c sw cooled x|k n c sw cooled x y Ha Hc|k n c sw cooled x y Ha Hc Hn|k n c sw cooled x y c2 sw2 cooled2 z Ha Hc Hn _ IH].
  - done.
  - destruct Ha as (ru & p & sig & rds & st & t & (rd & x1 & _ & Hr) & Ea). cbn [Engine.failover_loop]. rewrite Ea in *.
    destruct t as [[|[r|err]|]|]; cbn [Pass.pass_end] in *; try done.
    + intros _. by eapply rounds_drained.
    + destruct err; done.
  - destruct (e.(Engine.e_attempt) c n) as [[|[]]| |] eqn:Ea; try done. by rewrite (failover_loop_next _ _ _ _ _ _ _ _ _ Ea), Hn.
  - destruct (e.(Engine.e_attempt) c n) as [[|[]]| |] eqn:Ea; try done. by rewrite (failover_loop_next _ _ _ _ _ _ _ _ _ Ea), Hn.
Qed.

Lemma sync_cons s ss x z : sync_steps config e accounts via_tor fuel (s :: ss) x z -> healthy U x ->
  exists x' y, safely U x x' /\ sync_step config e accounts via_tor fuel s x' y /\ sync_steps config e accounts via_tor fuel ss y z.
Proof.
  remember (s :: ss) as l eqn:El. induction 1 as [x|s0 ss0 x y z Hs Hss _|ss0 ch ch' w z Hd _ IH]; intros Hh; [done| |].
  - injection El as -> ->. exists x, y. split; [by apply safely_here|done].
  - destruct (IH El (drift_healthy U _ _ _ Hd Hh)) as (x' & y & S1 & H1 & H2). exists x', y. split; [by eapply safely_drifts|done].
Qed.
Lemma sync_app s1 s2 x z : sync_steps config e accounts via_tor fuel (s1 ++ s2) x z -> healthy U x ->
  exists y, safely U x y /\ sync_steps config e accounts via_tor fuel s2 y z.
Proof.
  revert x. induction s1 as [|s s1 IH]; intros x H Hh; [exists x; split; [by apply safely_here|done]|].
  destruct (sync_cons _ _ _ _ H Hh) as (x' & y & S1 & Hs & Hss). pose proof (safely_healthy U _ _ S1) as Hh'.
  pose proof (sync_step_safely _ _ _ Hs Hh') as S2. destruct (IH y Hss (safely_healthy U _ _ S2)) as (z' & S3 & Hz).
  exists z'. split; [|done]. eapply safely_trans; [exact S1|]. by eapply safely_trans.
Qed.
End Steps.

(** The steps of a sync that succeeds end with the runs of the scheduler, of which the last
    succeeded, and the final enhancement. *)
Lemma bootstrap_steps e accounts : forall k r r' u, Engine.bootstrap e k accounts r = (r', Engine.Ended (Ok u)) ->
  exists imports, r'.(Engine.steps) = r.(Engine.steps) ++ imports.
Proof.
  induction accounts as [|a accounts IH]; intros k r r' u; cbn [Engine.bootstrap].
  { intros [= <- _]. exists []. by rewrite app_nil_r. }
  intros H. Engine.pass_step H. destruct x; [by eapply IH in H|]. do 3 Engine.pass_step H.
  eapply IH in H as (imports & Hs). cbn in Hs. exists (Engine.SImport a.(Engine.birthday) :: imports). by rewrite Hs, <-app_assoc.
Qed.
Lemma commit_selects config via_tor e r r' c : Engine.commit config via_tor e r = (r', Engine.Ended (Ok c)) ->
  Config.with_selected_endpoint via_tor e.(Engine.e_probe) config = Some c /\ exists pre, r'.(Engine.steps) = r.(Engine.steps) ++ pre.
Proof.
  unfold Engine.commit. destruct (_ || _) eqn:Eb.
  - intros [= <- <-]. split; [|exists []; by rewrite app_nil_r]. unfold Config.with_selected_endpoint. by rewrite Eb.
  - intros H. Engine.pass_step H. cbn in H. destruct (Config.with_selected_endpoint _ _ _) as [c0|]; [|done]. injection H as <- <-.
    split; [done|]. by exists [Engine.SProbe].
Qed.
Lemma sync_loop_succeeds via_tor e fuel c r r' x : Engine.sync_loop via_tor e fuel c r = (r', Engine.Ended (Ok x)) ->
  r'.(Engine.steps) = r.(Engine.steps) ++ [Engine.SSync] /\
  exists c', Engine.failover c e.(Engine.e_attempt) e.(Engine.e_reprobe) via_tor fuel = (Engine.LoopDone (Ok x.1), c', x.2).
Proof.
  unfold Engine.sync_loop. intros H. do 2 Engine.pass_step H. cbn in H.
  destruct (Engine.failover _ _ _ _ _) as [[[[rep|]| |] c'] sw]; try done. injection H as <- <-. split; [done|by exists c'].
Qed.
Lemma sync_once_succeeds config via_tor e fuel accounts r r' out :
  Engine.sync_once config via_tor e fuel accounts r = (r', Engine.Ended (Ok out)) ->
  exists c pre rep c' sw, Config.with_selected_endpoint via_tor e.(Engine.e_probe) config = Some c /\
    r'.(Engine.steps) = r.(Engine.steps) ++ pre ++ [Engine.SSync; Engine.SFinalEnhance] /\
    Engine.failover c e.(Engine.e_attempt) e.(Engine.e_reprobe) via_tor fuel = (Engine.LoopDone (Ok rep), c', sw).
Proof.
  unfold Engine.sync_once. intros H. do 3 Engine.pass_step H. Engine.pass_step H.
  match goal with Hm : Engine.commit _ _ _ _ = _ |- _ => apply commit_selects in Hm as [Hc [pre1 E1]] end.
  do 2 Engine.pass_step H. Engine.pass_step H.
  match goal with Hm : Engine.bootstrap _ _ _ _ = _ |- _ => apply bootstrap_steps in Hm as [imports E2] end.
  do 11 Engine.pass_step H. Engine.pass_step H.
  match goal with Hm : Engine.sync_loop _ _ _ _ _ = _ |- _ => apply sync_loop_succeeds in Hm as [E3 [c' Ef]] end.
  match type of H with context [match ?x with (_, _) => _ end] => destruct x as [rep sw] end.
  do 2 Engine.pass_step H. injection H as <- _. cbn in *.
  eexists _, (pre1 ++ [_; _] ++ imports ++ [_; _; _; _; _]), rep, c', sw. split; [exact Hc|]. split; [|exact Ef].
  rewrite E3, E2, E1. cbn [app]. rewrite <-!app_assoc. cbn [app]. rewrite <-!app_assoc. reflexivity.
Qed.

(** C1: Over a whole sync nothing scanned is lost from the wallet's birthday on, and a sync that
    succeeds has everything.  Take a wallet file in which each commitment of a scanned block that
    is not below the wallet's birthday is in its pool's tree or in the buffer, and whose records
    are of the chain its server serves.  Run [sync_once] on it: opening with its repairs, account
    imports, subtree roots, the chain tip, UTXOs, every run of the scheduler that the failover
    loop makes, the final enhancement, with any call failing anywhere and the server going over to
    other chains that agree on what the wallet has scanned.  Then at every point at which the
    process could die each such commitment is in its tree or in the buffer, for the chain of that
    time, and at the end the wallet's records are of that chain too; and when the sync returns a
    result, the runs have left a file without a range to scan, in which every commitment of the
    chain's blocks from the wallet's birthday to its tip is in its tree or in the buffer. *)
Theorem sync_loses_nothing config via_tor e fuel accounts r r' ending c acts x y :
  Engine.sync_once config via_tor e fuel accounts r = (r', ending) ->
  Config.with_selected_endpoint via_tor e.(Engine.e_probe) config = Some c ->
  r'.(Engine.steps) = r.(Engine.steps) ++ acts ->
  sync_steps c e accounts via_tor fuel acts x y -> healthy U x ->
  safely U x y /\ healthy U y /\
  forall out, ending = Engine.Ended (Ok out) ->
    exists y0, safely U x y0 /\ safely U y0 y /\ suggest_scan_ranges y0.2.(wallet) = Ok [] /\
      forall floor tip pool p, get_wallet_birthday y0.2.(wallet) = Ok (Some floor) ->
        PutBlocks.chain_height y0.2.(wallet) = Ok (Some tip) -> floor <= y0.1.(block_of) pool p <= tip ->
        covered U pool y0.2.(wallet) p \/ buffered pool y0.2.(table) p.
Proof.
  intros Hr Hc Hacts Hs Hh. assert (safely U x y) as S by (by eapply sync_steps_safely).
  split; [exact S|]. split; [by eapply safely_healthy|]. intros out ->.
  destruct (sync_once_succeeds _ _ _ _ _ _ _ _ Hr) as (c0 & pre & rep & c' & sw & Hc0 & Hsteps & Hf).
  rewrite Hc in Hc0. injection Hc0 as <-. rewrite Hacts in Hsteps. apply app_inv_head in Hsteps as ->.
  destruct (sync_app _ _ _ _ _ _ _ _ _ Hs Hh) as (x1 & S1 & Hs1). pose proof (safely_healthy U _ _ S1) as Hh1.
  destruct (sync_cons _ _ _ _ _ _ _ _ _ Hs1 Hh1) as (x2 & y0 & S2 & Hstep & Hs2). pose proof (safely_healthy U _ _ S2) as Hh2.
  pose proof (sync_step_safely _ _ _ _ _ _ _ _ Hstep Hh2) as S3. pose proof (safely_healthy U _ _ S3) as Hh3.
  exists y0. split; [eapply safely_trans; [exact S1|]; by eapply safely_trans|]. split; [by eapply sync_steps_safely|].
  assert (suggest_scan_ranges y0.2.(wallet) = Ok []) as Hd.
  { inv Hstep. eapply failover_drained; [done|exact Hf]. }
  split; [exact Hd|]. intros floor tip pool p Hb Ht Hr2. destruct Hh3 as (Hsafe & _).
  destruct (Hsafe pool p) as [Hcov|]; [|left; by destruct pool|by right]. split; [by eapply drained_scanned|].
  intros b Eb. rewrite Hb in Eb. injection Eb as <-. lia.
Qed.
End File.

(** ** An instance

    The wallet of [PutBlocks] with every block up to its tip scanned and their Sapling and Orchard
    commitments still in the buffer: the sync opens it, asks for roots and tip, and its one run
    finds nothing to scan. *)

#[local] Existing Instances mini_shard mini_wallet mini_laws PutBlocks.byte_dec mini_leaves pass_sweep pass_session pass_sweep_laws pass_record_laws pass_account_laws pass_rewind_laws.
#[local] Instance sync_roots : RootsDb MiniWallet Byte.byte Byte.byte :=
  {| put_sapling_subtree_roots _ _ w := Ok w; put_orchard_subtree_roots _ _ w := Ok w; put_ironwood_subtree_roots _ _ w := Ok w |}.
#[local] Instance sync_store : CheckpointStore unit string :=
  {| at_depth _ _ := Ok None; retained_ids _ := Ok ∅; count _ := Ok 0; entries_upto _ _ := Ok []; remove _ s := (s, Ok tt) |}.
Definition no_tree (A : Type) (pool : ShieldedPool) (f : unit -> unit * result string A) (w : MiniWallet) : MiniWallet * result string (option A) :=
  match f tt with (_, Ok a) => (w, Ok (Some a)) | (_, Err e) => (w, Err e) end.
#[local] Instance sync_laws : SyncLaws (Ns := Byte.byte) (No := Byte.byte) (Fs := Z) (Fo := Z) (Key := unit) no_tree mini_views.
Proof.
  split.
  - intros d d' [= <-]. apply preserved_refl.
  - intros f d d' n [= <- <-]. apply preserved_refl.
  - intros pool d. unfold no_tree. destruct (heal_pool_checkpoints tt) as [? []]; apply preserved_refl.
  - intros start roots d d' [= <-]. apply preserved_refl.
  - intros start roots d d' [= <-]. apply preserved_refl.
  - intros start roots d d' [= <-]. apply preserved_refl.
  - intros h d d' [= <-]. apply preserved_refl.
  - intros d floor tip h Hs [= <-] [= <-] Hh. split; [lia|]. cbn in Hs. injection Hs as Hs.
    destruct (decide (h ∈ d.(mini_scanned))) as [|Hn]; [done|]. exfalso.
    assert (h ∈ filter (fun h => h ∉ d.(mini_scanned)) (seqZ 1 10)) as Hin by (apply list_elem_of_filter; split; [done|]; apply elem_of_seqZ; lia).
    apply fmap_nil_inv in Hs. rewrite Hs in Hin. by apply not_elem_of_nil in Hin.
Qed.

Definition scanned_file : World MiniWallet :=
  mkWorld (<[(2, 0, 0) := enc Byte.x02]> (<[(2, 0, 1) := enc Byte.x01]> (<[(2, 0, 2) := enc Byte.x04]> (<[(3, 0, 0) := enc Byte.x03]> ∅))))
    (mkMini (fun pool => if decide (pool = Ironwood) then mkPoolDb {[0 := (0, Some {[0]})]} 0 ∅ ∅ else empty_pool)
       (list_to_set (seqZ 1 10))) 0 [].
Lemma scanned_file_healthy : healthy mini_views (sample_chain, scanned_file).
Proof.
  split_and!; cbn [fst snd].
  - intros pool p [Hb _]. destruct pool; cbn [sample_chain block_of sample_block_of] in Hb; destruct (Z.eqb_spec p 0) as [E0|N0]; subst; cbn in Hb.
    + right. by eexists; vm_compute.
    + destruct (Z.eqb_spec p 1) as [E1|N1]; [subst; right; by eexists; vm_compute|].
      destruct (Z.eqb_spec p 2) as [E2|N2]; [subst; right; by eexists; vm_compute|lia].
    + right. by eexists; vm_compute.
    + lia.
    + left. exists (0, Some {[0]}). split; [vm_compute; reflexivity|]. split; [reflexivity|]. cbn. set_solver.
    + lia.
  - exact two_blocks_keyed.
  - apply (chains_follow _ sample_chain). by left.
Qed.

Definition sync_env : Engine.Env :=
  Engine.mkEnv (fun _ => []) (Ok tt) (Ok tt) (Ok false) (Ok tt) (Ok tt) (Ok tt) (Ok 10) (Ok tt) (Ok tt)
    (fun _ _ => Pass.Returned (Ok Pass.report_default)) (fun _ _ => []) id (Ok Pass.enhance_default) (fun n => Z.of_nat n).
Definition opened_file : World MiniWallet := open_file (Key := unit) no_tree (replicate 8 None) scanned_file.
Definition no_roots : Grpc.SubtreeRoots Byte.byte Byte.byte := Grpc.mkRoots [] [] [].
Definition rooted_file : World MiniWallet := (put_subtree_roots_at no_fault Grpc.start_default no_roots opened_file).1.
Definition tipped_file : World MiniWallet := (update_chain_tip (Key := unit) no_fault 10 rooted_file).1.
Definition swept_file : World MiniWallet := (sweep_stranded_graft_rows PoolS PoolO no_fault None conf.(graft_subtree) None tipped_file).1.
Definition last_round : Pass.Round := round_on swept_file (Err Stopped).
Definition sync_acts : list Engine.Step :=
  [Engine.SOpenWallet; Engine.SConnect; Engine.SGetRoots false; Engine.SPutRoots; Engine.SGetTip; Engine.SUpdateTip 10;
   Engine.SRefreshUtxos; Engine.SSync; Engine.SFinalEnhance].

Lemma pair_eq {A B} (x : A * B) b : x.2 = b -> x = (x.1, b).
Proof. by destruct x; intros <-. Qed.
Lemma last_pass : file_attempt PoolS PoolO PoolI no_fault mini_views None sync_env conf 0 (sample_chain, tipped_file) (sample_chain, swept_file).
Proof.
  exists None, None, None, [last_round], (Pass.mkPass None Pass.report_default 0 0 None [Pass.ASweep]), (Some (Pass.Return (Ok Pass.report_default))).
  split; [|done]. exists last_round, (sample_chain, swept_file). split; [eapply step_sweep, surjective_pairing|].
  eapply (rounds_stop _ _ _ _ _ _ _ _ last_round [] _ _ _ []); [reflexivity| |done|done|apply steps_none]. vm_compute. reflexivity.
Qed.
Lemma sync_runs : sync_steps PoolS PoolO PoolI no_tree no_fault mini_views None conf sync_env [] false 3 sync_acts
  (sample_chain, scanned_file) (sample_chain, swept_file).
Proof.
  eapply sync_one; [apply (sync_open _ _ _ _ _ _ _ _ _ _ _ _ (replicate 8 None)); reflexivity|].
  eapply sync_one; [apply sync_connect|].
  eapply sync_one; [apply sync_get_roots; vm_compute; reflexivity|].
  eapply sync_one; [apply (sync_put_roots _ _ _ _ _ _ _ _ _ _ _ _ Grpc.start_default no_roots _ opened_file rooted_file); [by left|]|].
  { apply pair_eq. vm_compute. reflexivity. }
  eapply sync_one; [apply sync_get_tip|].
  eapply sync_one; [apply (sync_update_tip _ _ _ _ _ _ _ _ _ _ _ _ 10 _ rooted_file tipped_file)|].
  { apply pair_eq. vm_compute. reflexivity. }
  eapply sync_one; [apply sync_utxos, writes_none|].
  eapply sync_one; [apply sync_passes, failover_done; [exact last_pass|reflexivity]|].
  eapply sync_one; [apply sync_enhance, writes_none|apply sync_none].
Qed.
Lemma sync_loses_nothing_witness :
  exists y0, safely mini_views (sample_chain, scanned_file) y0 /\ safely mini_views y0 (sample_chain, swept_file) /\
    suggest_scan_ranges y0.2.(wallet) = Ok [].
Proof.
  destruct (Engine.sync_once conf false sync_env 3 [] (Engine.mkRun None [])) as [r' ending] eqn:Er.
  destruct (sync_loses_nothing PoolS PoolO PoolI no_tree no_fault mini_views None conf false sync_env 3 [] (Engine.mkRun None [])
    r' ending conf sync_acts (sample_chain, scanned_file) (sample_chain, swept_file) Er) as (_ & _ & H).
  - reflexivity.
  - vm_compute in Er. injection Er as <- _. reflexivity.
  - exact sync_runs.
  - exact scanned_file_healthy.
  - destruct (H (Engine.mkOutcome Pass.report_default 10 0)) as (y0 & S1 & S2 & Hd & _); [vm_compute in Er; injection Er as _ <-; reflexivity|].
    by exists y0.
Defined.
End SyncFile.
