(* ===== verification/Session.v ===== *)
(** * The session: [core/src/session.rs]

    A session runs until its host drops it: Tor bootstrap, the initial pass with
    its retries and revivals, then the follow loop with mempool monitoring.  The
    model records what a session shows its host: the states it sets, the events it
    pushes and the waits it makes.

    The results of the passes, the tip probes, the mempool sessions, the Tor
    bootstraps, the clock and the random samples are inputs.  Durations are in
    whole seconds.  Log lines are left out. *)

From S2P Require Export Engine.
Import Progress Handle Config Scheduler Pass Engine.

Module Session.

Definition FOLLOW_POLL_MIN_SECS : Z := 10.
Definition FOLLOW_POLL_MAX_SECS : Z := 30.
Definition MEMPOOL_FAILURE_CAP : Z := 5.
Definition MEMPOOL_RETRY_FIRST : Z := 60.
Definition MEMPOOL_RETRY_MAX : Z := 600.
Definition PASS_RETRY_MAX : Z := 2.

(** ** The mempool gate *)

(** [enum MempoolGateEvent]. *)
Inductive MempoolGateEvent :=
| StillOn (failures : Z)
| TurnedOff (retry_in : Z)
| RetryFailed (retry_in : Z).

(** [struct MempoolGate]. *)
Record MempoolGate := mkGate { failures : Z; retry : option (Z * Z) }.
Definition mempool_gate_default : MempoolGate := mkGate 0 None.

(** [MempoolGate::should_try]. *)
Definition should_try (now : Z) (g : MempoolGate) : bool :=
  match g.(retry) with None => true | Some (at_, _) => at_ <=? now end.

(** [MempoolGate::on_ok]. *)
Definition on_ok (g : MempoolGate) : MempoolGate * bool :=
  (mkGate 0 None, bool_decide (is_Some g.(retry))).

(** [MempoolGate::on_err]. *)
Definition on_err (now : Z) (g : MempoolGate) : MempoolGate * MempoolGateEvent :=
  let failures := sat_add32 g.(failures) 1 in
  match g.(retry) with
  | Some (_, wait) =>
    let retry_in := Z.min (wait * 2) MEMPOOL_RETRY_MAX in
    (mkGate failures (Some (now + retry_in, retry_in)), RetryFailed retry_in)
  | None =>
    if MEMPOOL_FAILURE_CAP <=? failures
    then (mkGate failures (Some (now + MEMPOOL_RETRY_FIRST, MEMPOOL_RETRY_FIRST)), TurnedOff MEMPOOL_RETRY_FIRST)
    else (mkGate failures None, StillOn failures)
  end.

(** ** Backoffs *)

(** [sync_retry_backoff]. *)
Definition sync_retry_backoff (attempt : Z) : Z :=
  let shift := Z.min (sat_sub attempt 1) 4 in
  Z.min (Z.shiftl 3 shift) 30.

(** [f as u64]: truncation, saturating; zero for a NaN. *)
Definition f64_as_u64 (x : float) : Z :=
  match Prim2SF x with
  | S754_finite false m e =>
    Z.min u64_max (if 0 <=? e then Zpos m * 2 ^ e else Zpos m / 2 ^ (- e))
  | S754_infinity false => u64_max
  | _ => 0
  end.

(** [follow_poll_jitter]. *)
Definition follow_poll_jitter (rng_sample : float) : Z :=
  let span := u64_as_f64 (FOLLOW_POLL_MAX_SECS - FOLLOW_POLL_MIN_SECS + 1) in
  let offset := f64_as_u64 (rng_sample * span)%float in
  FOLLOW_POLL_MIN_SECS + Z.min offset (FOLLOW_POLL_MAX_SECS - FOLLOW_POLL_MIN_SECS).

(** [pass_retry_sleep]. *)
Definition pass_retry_sleep (attempt : Z) : Z := if attempt =? 1 then 5 else 15.

(** [wedge_revival_backoff]. *)
Definition wedge_revival_backoff (attempt : Z) : Z :=
  if attempt =? 1 then 15 else if attempt =? 2 then 30 else if attempt =? 3 then 60
  else if attempt =? 4 then 120 else 300.

(** ** What a session does with a failed pass *)

(** [should_retry]. *)
Definition should_retry (err : SlipstreamError) (attempt : Z) : option Z :=
  if is_transient err && (attempt <=? PASS_RETRY_MAX) then Some (pass_retry_sleep attempt) else None.

(** [enum FailedPassAction] and [counts_as_failed_attempt]. *)
Inductive FailedPassAction := ReturnStop | RetryAfter (secs : Z) | GiveUp.
Definition counts_as_failed_attempt (a : FailedPassAction) : bool :=
  match a with ReturnStop => false | _ => true end.

(** [failed_pass_action]. *)
Definition failed_pass_action (err : SlipstreamError) (attempt : Z) : FailedPassAction :=
  if is_stop_for_wallet_change err then ReturnStop
  else match should_retry err attempt with Some s => RetryAfter s | None => GiveUp end.

(** [enum InitialPassFailure] and [initial_pass_failure]. *)
Inductive InitialPassFailure := EndQuietly | RetryTransient | Revive.
Definition initial_pass_failure (err : SlipstreamError) : InitialPassFailure :=
  if is_stop_for_wallet_change err then EndQuietly
  else if is_transient err then RetryTransient else Revive.

(** [enum CatchUpFailure] and [catch_up_failure]. *)
Inductive CatchUpFailure := CEndQuietly | StaySynced.
Definition catch_up_failure (err : SlipstreamError) : CatchUpFailure :=
  if is_stop_for_wallet_change err then CEndQuietly else StaySynced.

(** ** The session *)

(** What a host can observe. *)
Inductive Obs := OSet (s : SyncState) | OPush (e : FfiSlipstreamEvent) | OWait (secs : Z).

(** One call of [sync_once]: what it does to the progress, and its result. *)
Record PassRun := mkPassRun { pr_work : Progress -> Progress; pr_result : Res SyncOutcome }.

(** The session's progress, what it has shown so far, and the passes to come. *)
Record Sess := mkSess { s_progress : Progress; shown : list Obs; to_come : list PassRun }.
#[export] Instance eta_Sess : Eta Sess := fun s => mkSess s.(s_progress) s.(shown) s.(to_come).

Definition show (o : Obs) (s : Sess) : Sess := s <| shown := s.(shown) ++ [o] |>.

(** [run_pass_with_retry]; [None]: the passes to come are used up. *)
Fixpoint retry_loop (passes : list PassRun) (attempt : Z) (p : Progress) (obs : list Obs)
  : Sess * option (Res SyncOutcome) :=
  match passes with
  | [] => (mkSess p obs [], None)
  | run :: passes' =>
    let p := run.(pr_work) p in
    match run.(pr_result) with
    | Ok outcome => (mkSess p obs passes', Some (Ok outcome))
    | Err err =>
      let action := failed_pass_action err (attempt + 1) in
      let '(p, attempt) := if counts_as_failed_attempt action
                           then (note_attempt_failed p, attempt + 1) else (p, attempt) in
      match action with
      | ReturnStop | GiveUp => (mkSess p obs passes', Some (Err err))
      | RetryAfter secs => retry_loop passes' attempt p (obs ++ [OWait secs])
      end
    end
  end.
Definition run_pass_with_retry (s : Sess) : Sess * option (Res SyncOutcome) :=
  retry_loop s.(to_come) 0 s.(s_progress) s.(shown).

(** How a phase of the session ends. *)
Inductive PhaseEnd := Started (o : SyncOutcome) | Quiet | Running.

(** The Tor bootstrap: it retries for ever, and never falls back to direct. *)
Fixpoint tor_bootstrap (boots : list bool) (boot_failures : Z) (s : Sess) : Sess * bool :=
  match boots with
  | [] => (s, false)
  | true :: _ => (s, true)
  | false :: boots' =>
    let n := boot_failures + 1 in
    tor_bootstrap boots' n (show (OWait (sync_retry_backoff n)) (show (OSet Idle) s))
  end.

(** The initial-pass loop. *)
Fixpoint initial_loop (fuel : nat) (initial_failures revivals : Z) (s : Sess) : Sess * PhaseEnd :=
  match fuel with
  | O => (s, Running)
  | S fuel' =>
    match run_pass_with_retry (show (OSet Syncing) s) with
    | (s, None) => (s, Running)
    | (s, Some (Ok outcome)) => (s, Started outcome)
    | (s, Some (Err err)) =>
      match initial_pass_failure err with
      | EndQuietly => (show (OSet Idle) s, Quiet)
      | RetryTransient =>
        let n := initial_failures + 1 in
        initial_loop fuel' n revivals (show (OWait (sync_retry_backoff n)) (show (OSet Idle) s))
      | Revive =>
        let n := revivals + 1 in
        initial_loop fuel' initial_failures n
          (show (OWait (wedge_revival_backoff n)) (show (OPush (mkEvent 4 1)) (show (OSet (SError 1)) s)))
      end
    end
  end.

(** One turn of the follow loop: the clock, how the mempool session ended if one
    was held and the clock then, the jitter sample, and the tip probe. *)
Record FollowTurn := mkTurn {
  ft_now : Z;
  ft_mempool : Res unit;
  ft_err_now : Z;
  ft_sample : float;
  ft_probe : Res Z;
}.

(** The follow loop's own state. *)
Record Follow := mkFollow { last_tip : Z; consecutive_failures : Z; gate : MempoolGate }.

(** Between passes: a mempool session, or the jittered sleep while it is off. *)
Definition between (t : FollowTurn) (g : MempoolGate) : MempoolGate * list Obs :=
  if should_try t.(ft_now) g then
    match t.(ft_mempool) with
    | Ok _ => ((on_ok g).1, [])
    | Err _ => ((on_err t.(ft_err_now) g).1, [OWait (follow_poll_jitter t.(ft_sample))])
    end
  else (g, [OWait (follow_poll_jitter t.(ft_sample))]).

(** [follow_loop]. *)
Fixpoint follow_loop (turns : list FollowTurn) (f : Follow) (s : Sess) : Sess * PhaseEnd :=
  match turns with
  | [] => (s, Running)
  | t :: turns' =>
    let '(g, obs) := between t f.(gate) in
    let s := s <| shown := s.(shown) ++ obs |> in
    match t.(ft_probe) with
    | Err _ =>
      follow_loop turns' (mkFollow f.(last_tip) (f.(consecutive_failures) + 1) g)
        (s <| s_progress := note_attempt_failed s.(s_progress) |>)
    | Ok observed =>
      if should_resync f.(last_tip) observed then
        match run_pass_with_retry (show (OSet Syncing) s) with
        | (s, None) => (s, Running)
        | (s, Some (Ok o)) =>
          follow_loop turns' (mkFollow o.(out_chain_tip) 0 g)
            (show (OPush (mkEvent 3 o.(out_report).(enhance).(Enhance.txs_stored))) (show (OSet Done) s))
        | (s, Some (Err err)) =>
          match catch_up_failure err with
          | CEndQuietly => (show (OSet Idle) s, Quiet)
          | StaySynced => follow_loop turns' (mkFollow f.(last_tip) 1 g) (show (OSet Done) s)
          end
        end
      else follow_loop turns' (mkFollow f.(last_tip) 0 g) s
    end
  end.

(** [run_session]; [boots]: the Tor bootstraps, none without Tor. *)
Definition run_session (boots : option (list bool)) (fuel : nat) (turns : list FollowTurn)
    (p : Progress) (passes : list PassRun) : Sess * PhaseEnd :=
  let s := show (OPush (mkEvent 1 0)) (mkSess (begin_session p) [] passes) in
  let '(s, up) := match boots with None => (s, true) | Some bs => tor_bootstrap bs 0 s end in
  if up then
    match initial_loop fuel 0 0 s with
    | (s, Started o) =>
      follow_loop turns (mkFollow o.(out_chain_tip) 0 mempool_gate_default)
        (show (OPush (mkEvent 3 o.(out_report).(enhance).(Enhance.txs_stored))) (show (OSet Done) s))
    | other => other
    end
  else (s, Running).

(** ** The retry ladder *)

Definition retried (r : PassRun) : Prop := exists e, r.(pr_result) = Err e /\ is_transient e = true.

Lemma failed_pass_action_spec e n :
  match failed_pass_action e n with
  | ReturnStop => is_stop_for_wallet_change e = true
  | RetryAfter w => is_transient e = true /\ n <= PASS_RETRY_MAX /\ w = pass_retry_sleep n
  | GiveUp => is_stop_for_wallet_change e = false /\ (is_transient e = false \/ PASS_RETRY_MAX < n)
  end.
Proof.
  unfold failed_pass_action, should_retry. destruct (is_stop_for_wallet_change e); [done|].
  destruct (is_transient e); simpl; [|by auto]. destruct (Z.leb_spec n PASS_RETRY_MAX); auto.
Qed.

Lemma retry_loop_spec passes : forall attempt p obs s' o, 0 <= attempt <= PASS_RETRY_MAX ->
  retry_loop passes attempt p obs = (s', o) ->
  exists used waits, passes = used ++ s'.(to_come) /\ s'.(shown) = obs ++ (OWait <$> waits) /\
    waits `prefix_of` drop (Z.to_nat attempt) [5; 15] /\
    match o with
    | None => s'.(to_come) = [] /\ Forall retried used /\ Z.of_nat (length used) <= PASS_RETRY_MAX - attempt
    | Some res => exists init r, used = init ++ [r] /\ r.(pr_result) = res /\ Forall retried init /\
        Z.of_nat (length init) <= PASS_RETRY_MAX - attempt /\
        forall e, res = Err e -> is_stop_for_wallet_change e = true \/ is_transient e = false \/
                                 Z.of_nat (length init) = PASS_RETRY_MAX - attempt
    end.
Proof.
  assert (PASS_RETRY_MAX = 2) as HM by done.
  induction passes as [|run passes IH]; intros attempt p obs s' o Ha; cbn [retry_loop].
  { intros [= <- <-]. exists [], []. simpl. rewrite app_nil_r. split_and!; try done; [apply prefix_nil|lia]. }
  assert (forall q res, run.(pr_result) = res ->
    (forall e, res = Err e -> is_stop_for_wallet_change e = true \/ is_transient e = false \/
                              attempt = PASS_RETRY_MAX) ->
    exists used waits, run :: passes = used ++ (mkSess q obs passes).(to_come) /\
      (mkSess q obs passes).(shown) = obs ++ (OWait <$> waits) /\ waits `prefix_of` drop (Z.to_nat attempt) [5; 15] /\
      exists init r, used = init ++ [r] /\ r.(pr_result) = res /\ Forall retried init /\
        Z.of_nat (length init) <= PASS_RETRY_MAX - attempt /\
        forall e, res = Err e -> is_stop_for_wallet_change e = true \/ is_transient e = false \/
                                 Z.of_nat (length init) = PASS_RETRY_MAX - attempt) as Hend.
  { intros q res Hres Herr. exists [run], []. simpl. rewrite app_nil_r. split_and!; try done; [apply prefix_nil|].
    exists [], run. split_and!; try done; simpl; [lia|]. intros e He.
    destruct (Herr e He) as [?|[?|?]]; auto. right. right. lia. }
  destruct (pr_result run) as [outcome|err] eqn:Er.
  { intros [= <- <-]. by apply Hend. }
  pose proof (failed_pass_action_spec err (attempt + 1)) as Hspec.
  destruct (failed_pass_action err (attempt + 1)) as [|w|]; simpl counts_as_failed_attempt; cbv iota.
  - intros [= <- <-]. apply Hend; [done|]. intros e [= <-]. auto.
  - destruct Hspec as (Ht & Hle & ->). intros Hr. apply IH in Hr as (used & waits & -> & Hs & Hw & Ho); [|lia].
    exists (run :: used), (pass_retry_sleep (attempt + 1) :: waits).
    split; [done|]. split; [rewrite Hs, <-app_assoc; done|]. split.
    { assert (attempt = 0 \/ attempt = 1) as [-> | ->] by lia; simpl in *; by apply prefix_cons. }
    assert (retried run) as Hrun by (exists err; auto).
    destruct o as [res|].
    + destruct Ho as (init & r & -> & Hres & Hi & Hlen & Herr). exists (run :: init), r.
      split_and!; try done; [by constructor|simpl; lia|]. intros e He.
      destruct (Herr e He) as [?|[?|?]]; auto. right. right. simpl. lia.
    + destruct Ho as (H1 & H2 & H3). split_and!; try done; [by constructor|simpl; lia].
  - destruct Hspec as [_ [Ht|Hgt]]; intros [= <- <-]; (apply Hend; [done|]); intros e [= <-];
      [by auto|]. right. right. lia.
Qed.

(** A pass is retried only for transient failures, at most twice, after waits of 5 and then 15
    seconds: each call makes at most three attempts, returns the first success, returns a
    wallet-change stop or any other permanent error at once, and otherwise the error of the
    third attempt. *)
Theorem retry_ladder s s' o : run_pass_with_retry s = (s', o) ->
  exists used waits, s.(to_come) = used ++ s'.(to_come) /\ (length used <= 3)%nat /\
    s'.(shown) = s.(shown) ++ (OWait <$> waits) /\ waits `prefix_of` [5; 15] /\
    match o with
    | None => s'.(to_come) = [] /\ (length s.(to_come) <= 2)%nat
    | Some res => exists init r, used = init ++ [r] /\ r.(pr_result) = res /\ Forall retried init /\
        forall e, res = Err e -> is_stop_for_wallet_change e = true \/ is_transient e = false \/ length used = 3%nat
    end.
Proof.
  assert (PASS_RETRY_MAX = 2) as HM by done.
  intros Hr. apply retry_loop_spec in Hr as (used & waits & Hu & Hs & Hw & Ho); [|lia].
  exists used, waits. split; [done|]. destruct o as [res|].
  - destruct Ho as (init & r & -> & Hres & Hi & Hlen & Herr). rewrite length_app. simpl.
    split; [lia|]. split; [done|]. split; [done|]. exists init, r. split_and!; try done.
    intros e He. destruct (Herr e He) as [?|[?|?]]; auto. right. right. lia.
  - destruct Ho as (H1 & H2 & H3). rewrite Hu, H1, app_nil_r. split_and!; try done; lia.
Qed.

Definition ok_pass : PassRun := mkPassRun id (Ok (mkOutcome report_default 2500 0)).
Definition failed_pass (e : SlipstreamError) : PassRun := mkPassRun id (Err e).

Example retry_ladder_instance :
  let s := mkSess progress_default [] [failed_pass (Transport "reset"); ok_pass; ok_pass] in
  let '(s', o) := run_pass_with_retry s in
  s'.(shown) = [OWait 5] /\ exists used waits, s.(to_come) = used ++ s'.(to_come) /\ (length used <= 3)%nat /\
    s'.(shown) = s.(shown) ++ (OWait <$> waits) /\ waits `prefix_of` [5; 15].
Proof.
  intros s. destruct (run_pass_with_retry s) as [s' o] eqn:E.
  split; [vm_compute in E; injection E as <- _; reflexivity|].
  destruct (retry_ladder s s' o E) as (used & waits & H1 & H2 & H3 & H4 & _).
  exists used, waits. auto.
Qed.

(** ** What a host sees *)

Definition count_obs (f : Obs -> bool) (obs : list Obs) : Z := Z.of_nat (length (filter (fun o => f o = true) obs)).
Definition pushes (t : Z) (o : Obs) : bool := match o with OPush e => e.(tag) =? t | _ => false end.
Definition sets_error (o : Obs) : bool := match o with OSet (SError _) => true | _ => false end.

Definition count_runs (f : PassRun -> bool) (rs : list PassRun) : Z :=
  Z.of_nat (length (filter (fun r => f r = true) rs)).
Definition succeeded (r : PassRun) : bool := is_ok r.(pr_result).
(** A failure that is neither transient nor the host's stop. *)
Definition permanent (r : PassRun) : bool :=
  match r.(pr_result) with
  | Ok _ => false
  | Err e => negb (is_transient e) && negb (is_stop_for_wallet_change e)
  end.
(** The host's stop for a wallet change. *)
Definition stopped_by_host (r : PassRun) : bool :=
  match r.(pr_result) with Ok _ => false | Err e => is_stop_for_wallet_change e end.
(** The passes before the first success. *)
Fixpoint before_success (rs : list PassRun) : list PassRun :=
  match rs with [] => [] | r :: rs' => if succeeded r then [] else r :: before_success rs' end.

Lemma count_obs_app f a b : count_obs f (a ++ b) = count_obs f a + count_obs f b.
Proof. unfold count_obs. rewrite filter_app, length_app. lia. Qed.

Lemma count_runs_app f a b : count_runs f (a ++ b) = count_runs f a + count_runs f b.
Proof. unfold count_runs. rewrite filter_app, length_app. lia. Qed.

Lemma count_obs_waits f ws : (forall w, f (OWait w) = false) -> count_obs f (OWait <$> ws) = 0.
Proof.
  intros Hf. unfold count_obs. induction ws as [|w ws IH]; [done|]. csimpl.
  by rewrite filter_cons_False by (by rewrite Hf).
Qed.

Lemma count_runs_none f rs : Forall (fun r => f r = false) rs -> count_runs f rs = 0.
Proof.
  unfold count_runs. induction 1 as [|r rs Hr _ IH]; [done|]. by rewrite filter_cons_False by (by rewrite Hr).
Qed.

Lemma before_success_none rs : Forall (fun r => succeeded r = false) rs -> before_success rs = rs.
Proof. induction 1 as [|r rs Hr _ IH]; simpl; [done|]. by rewrite Hr, IH. Qed.

Lemma before_success_app rs r rest : Forall (fun r => succeeded r = false) rs -> succeeded r = true ->
  before_success (rs ++ r :: rest) = rs.
Proof. induction 1 as [|x rs Hx _ IH]; simpl; intros Hr; [by rewrite Hr|]. by rewrite Hx, IH. Qed.

Lemma transient_no_stop e : is_transient e = true -> is_stop_for_wallet_change e = false.
Proof. by destruct e. Qed.

Lemma retried_flags r : retried r -> succeeded r = false /\ permanent r = false /\ stopped_by_host r = false.
Proof.
  intros (e & He & Ht). unfold succeeded, permanent, stopped_by_host. rewrite He. simpl.
  by rewrite Ht, (transient_no_stop _ Ht).
Qed.

(** No pass of [used] was the host's stop. *)
Definition unstopped (used : list PassRun) : Prop := Forall (fun r => stopped_by_host r = false) used.

Lemma unstopped_nil : unstopped [].
Proof. apply Forall_nil_2. Qed.
#[local] Hint Resolve unstopped_nil : core.

(** The last pass of [used] was the host's stop, and no earlier one was. *)
Definition ended_by_host (used : list PassRun) : Prop :=
  exists init r, used = init ++ [r] /\ unstopped init /\ stopped_by_host r = true.

Lemma ended_by_host_app a b : unstopped a -> ended_by_host b -> ended_by_host (a ++ b).
Proof.
  intros Ha (init & r & -> & Hi & Hr). exists (a ++ init), r. rewrite app_assoc.
  split_and!; try done. by apply Forall_app.
Qed.

(** One call of [run_pass_with_retry], as the session's events count it. *)
Lemma retry_counts s s' o : run_pass_with_retry s = (s', o) ->
  exists used obs, s.(to_come) = used ++ s'.(to_come) /\ s'.(shown) = s.(shown) ++ obs /\
    (forall f, (forall w, f (OWait w) = false) -> count_obs f obs = 0) /\
    match o with
    | None => Forall (fun r => succeeded r = false) used /\ count_runs permanent used = 0 /\ unstopped used
    | Some (Ok out) => exists init r, used = init ++ [r] /\ Forall (fun r => succeeded r = false) init /\
        succeeded r = true /\ count_runs permanent used = 0 /\ unstopped used
    | Some (Err e) => Forall (fun r => succeeded r = false) used /\
        count_runs permanent used = (if negb (is_transient e) && negb (is_stop_for_wallet_change e) then 1 else 0) /\
        if is_stop_for_wallet_change e then ended_by_host used else unstopped used
    end.
Proof.
  assert (PASS_RETRY_MAX = 2) as HM by done.
  intros Hr. apply retry_loop_spec in Hr as (used & waits & Hu & Hs & _ & Ho); [|lia].
  exists used, (OWait <$> waits). split; [done|]. split; [done|]. split; [intros f Hf; by apply count_obs_waits|].
  assert (forall l, Forall retried l ->
    Forall (fun r => succeeded r = false) l /\ count_runs permanent l = 0 /\ unstopped l) as Hret.
  { intros l Hl. split_and!; [|apply count_runs_none|]; (eapply Forall_impl; [exact Hl|]);
      intros r Hr; by apply retried_flags. }
  destruct o as [[out|e]|].
  - destruct Ho as (init & r & -> & Hres & Hi & _). destruct (Hret _ Hi) as (H1 & H2 & H3). exists init, r.
    rewrite count_runs_app, H2. unfold count_runs, succeeded, permanent. rewrite filter_cons, filter_nil, Hres.
    split_and!; try done. apply Forall_app. split; [done|]. apply Forall_singleton.
    unfold stopped_by_host. by rewrite Hres.
  - destruct Ho as (init & r & -> & Hres & Hi & _). destruct (Hret _ Hi) as (H1 & H2 & H3).
    rewrite count_runs_app, H2. split_and!.
    + apply Forall_app. split; [done|]. apply Forall_singleton. unfold succeeded. by rewrite Hres.
    + unfold count_runs, permanent. rewrite filter_cons, filter_nil, Hres. by destruct (negb _ && negb _).
    + assert (stopped_by_host r = is_stop_for_wallet_change e) as Hstop by (unfold stopped_by_host; by rewrite Hres).
      destruct (is_stop_for_wallet_change e); [by exists init, r|].
      apply Forall_app. split; [done|by apply Forall_singleton].
  - destruct Ho as (_ & Hi & _). by apply Hret.
Qed.

(** What the initial phase consumed and showed between [s] and [s']. *)
Definition initial_counted (s s' : Sess) (e : PhaseEnd) : Prop :=
  exists used obs, s.(to_come) = used ++ s'.(to_come) /\ s'.(shown) = s.(shown) ++ obs /\
    count_obs (pushes 1) obs = 0 /\ count_obs (pushes 3) obs = 0 /\
    count_obs (pushes 4) obs = count_runs permanent used /\ count_obs sets_error obs = count_runs permanent used /\
    match e with
    | Started _ => unstopped used /\
        exists init x, used = init ++ [x] /\ Forall (fun r => succeeded r = false) init /\ succeeded x = true
    | Quiet => ended_by_host used /\ Forall (fun r => succeeded r = false) used /\ last obs = Some (OSet Idle)
    | Running => unstopped used /\ Forall (fun r => succeeded r = false) used
    end.

(** A turn that failed, before the turns that follow it; [k] is 1 when the error is surfaced. *)
Lemma initial_counted_step s s2 s' e used obs k :
  s.(to_come) = used ++ s2.(to_come) -> s2.(shown) = s.(shown) ++ obs ->
  Forall (fun r => succeeded r = false) used -> unstopped used -> count_runs permanent used = k ->
  count_obs (pushes 1) obs = 0 -> count_obs (pushes 3) obs = 0 -> count_obs (pushes 4) obs = k ->
  count_obs sets_error obs = k -> initial_counted s2 s' e -> initial_counted s s' e.
Proof.
  intros Hu Hs Hns Hst Hk O1 O3 O4 OE (used2 & obs2 & H1 & H2 & H3 & H4 & H5 & H6 & H7).
  exists (used ++ used2), (obs ++ obs2).
  rewrite Hu, H1, H2, Hs, !count_runs_app, !count_obs_app, O1, O3, O4, OE, H3, H4, H5, H6, Hk, <-!app_assoc.
  split_and!; try done. destruct e.
  - destruct H7 as (Hst2 & init & x & -> & Hi & Hx). split; [by apply Forall_app|].
    exists (used ++ init), x. rewrite app_assoc. split_and!; try done. by apply Forall_app.
  - destruct H7 as (Hst2 & H7 & H8). split; [by apply ended_by_host_app|].
    split; [by apply Forall_app|]. by rewrite last_app, H8.
  - destruct H7 as [Hst2 H7]. split; by apply Forall_app.
Qed.

Lemma count_obs_surround f obs extra : (forall g, (forall w, g (OWait w) = false) -> count_obs g obs = 0) ->
  (forall w, f (OWait w) = false) -> f (OSet Syncing) = false ->
  count_obs f ([OSet Syncing] ++ obs ++ extra) = count_obs f extra.
Proof.
  intros Hobs Hw Hs. rewrite !count_obs_app, (Hobs f Hw). unfold count_obs at 1.
  rewrite filter_cons_False by (by rewrite Hs). done.
Qed.

Lemma initial_loop_counts fuel : forall i r s s' e,
  initial_loop fuel i r s = (s', e) -> initial_counted s s' e.
Proof.
  induction fuel as [|fuel IH]; intros i r s s' e; cbn [initial_loop].
  { intros [= <- <-]. exists [], []. by rewrite app_nil_r. }
  destruct (run_pass_with_retry (show (OSet Syncing) s)) as [s1 o] eqn:E.
  apply retry_counts in E as (used & obs & Hu & Hs & Hf & Ho). simpl in Hu, Hs. rewrite <-app_assoc in Hs.
  pose proof (fun f extra => count_obs_surround f obs extra Hf) as Hobs.
  destruct o as [[out|err]|].
  - intros [= <- <-]. destruct Ho as (init & x & -> & Hi & Hx & Hp & Hst).
    exists (init ++ [x]), ([OSet Syncing] ++ obs ++ []). rewrite !Hobs, Hp, app_nil_r by done.
    split_and!; try done. eauto.
  - destruct Ho as (Hns & Hp & Hst). unfold initial_pass_failure. destruct (is_stop_for_wallet_change err) eqn:Est.
    { intros [= <- <-]. exists used, ([OSet Syncing] ++ obs ++ [OSet Idle]).
      rewrite !Hobs, Hp, andb_false_r by done. simpl. rewrite Hs, <-app_assoc. split_and!; try done.
      by rewrite app_comm_cons, last_snoc. }
    destruct (is_transient err) eqn:Etr; simpl in Hp; intros Hi; apply IH in Hi; revert Hi.
    + apply (initial_counted_step _ _ _ _ used
        ([OSet Syncing] ++ obs ++ [OSet Idle; OWait (sync_retry_backoff (i + 1))]) 0); rewrite ?Hobs; try done.
      simpl. by rewrite Hs, <-!app_assoc.
    + apply (initial_counted_step _ _ _ _ used ([OSet Syncing] ++ obs ++
        [OSet (SError 1); OPush (mkEvent 4 1); OWait (wedge_revival_backoff (r + 1))]) 1); rewrite ?Hobs; try done.
      simpl. by rewrite Hs, <-!app_assoc.
  - intros [= <- <-]. exists used, ([OSet Syncing] ++ obs ++ []). rewrite !Hobs, app_nil_r by done.
    destruct Ho as (H1 & -> & H3). done.
Qed.

(** The follow phase. *)
Definition follow_counted (s s' : Sess) (e : PhaseEnd) : Prop :=
  exists used obs, s.(to_come) = used ++ s'.(to_come) /\ s'.(shown) = s.(shown) ++ obs /\
    count_obs (pushes 1) obs = 0 /\ count_obs (pushes 4) obs = 0 /\ count_obs sets_error obs = 0 /\
    count_obs (pushes 3) obs = count_runs succeeded used /\
    match e with
    | Started _ => False
    | Quiet => ended_by_host used /\ last obs = Some (OSet Idle)
    | Running => unstopped used
    end.

Lemma follow_counted_step s s2 s' e used obs :
  s.(to_come) = used ++ s2.(to_come) -> s2.(shown) = s.(shown) ++ obs ->
  count_obs (pushes 1) obs = 0 -> count_obs (pushes 4) obs = 0 -> count_obs sets_error obs = 0 ->
  count_obs (pushes 3) obs = count_runs succeeded used -> unstopped used ->
  follow_counted s2 s' e -> follow_counted s s' e.
Proof.
  intros Hu Hs O1 O4 OE O3 Hst (used2 & obs2 & H1 & H2 & H3 & H4 & H5 & H6 & H7).
  exists (used ++ used2), (obs ++ obs2).
  rewrite Hu, H1, H2, Hs, !count_runs_app, !count_obs_app, O1, O3, O4, OE, H3, H4, H5, H6, <-!app_assoc.
  split_and!; try done. destruct e; [done| |by apply Forall_app].
  destruct H7 as [H7 H8]. split; [by apply ended_by_host_app|by rewrite last_app, H8].
Qed.

Lemma between_waits t g g' obs : between t g = (g', obs) -> exists ws, obs = OWait <$> ws.
Proof.
  unfold between. repeat case_match; intros [= <- <-];
    [by exists []|by exists [follow_poll_jitter t.(ft_sample)]..].
Qed.

Lemma count_succeeded used : Forall (fun r => succeeded r = false) used -> count_runs succeeded used = 0.
Proof. apply count_runs_none. Qed.

Lemma follow_loop_counts turns : forall f s s' e, follow_loop turns f s = (s', e) -> follow_counted s s' e.
Proof.
  induction turns as [|t turns IH]; intros f s s' e; cbn [follow_loop].
  { intros [= <- <-]. exists [], []. by rewrite app_nil_r. }
  destruct (between t f.(gate)) as [g bobs] eqn:Eb. destruct (between_waits _ _ _ _ Eb) as [ws ->].
  set (s0 := s <| shown := _ |>).
  assert (forall e, follow_counted s0 s' e -> follow_counted s s' e) as Hs0.
  { intros e0. apply (follow_counted_step _ _ _ _ [] (OWait <$> ws)); try done; 
      by apply count_obs_waits. }
  destruct (ft_probe t) as [observed|perr].
  2:{ intros Hi. apply IH in Hi. apply Hs0. revert Hi.
      apply (follow_counted_step _ _ _ _ [] []); try done. simpl. by rewrite app_nil_r. }
  destruct (should_resync _ _); [|intros Hi; apply Hs0; by eapply IH].
  destruct (run_pass_with_retry (show (OSet Syncing) s0)) as [s1 o] eqn:E.
  apply retry_counts in E as (used & obs & Hu & Hs & Hf & Ho). simpl in Hu. cbn [shown show] in Hs.
  pose proof (fun f extra => count_obs_surround f obs extra Hf) as Hobs.
  assert (s1.(shown) = s0.(shown) ++ [OSet Syncing] ++ obs) as Hs1 by (rewrite Hs; simpl; by rewrite <-!app_assoc).
  intros Hi. apply Hs0. destruct o as [[out|err]|].
  - apply IH in Hi. destruct Ho as (init & x & Hused & Hin & Hx & _ & Hst). revert Hi.
    apply (follow_counted_step _ _ _ _ used ([OSet Syncing] ++ obs ++
      [OSet Done; OPush (mkEvent 3 out.(out_report).(enhance).(Enhance.txs_stored))])); rewrite ?Hobs; try done.
    + simpl. rewrite Hs1. simpl. by rewrite <-!app_assoc.
    + rewrite Hused, count_runs_app, (count_succeeded _ Hin). unfold count_runs.
      by rewrite filter_cons_True, filter_nil by done.
  - destruct Ho as (Hns & _ & Hst). unfold catch_up_failure in Hi. destruct (is_stop_for_wallet_change err).
    + injection Hi as <- <-. exists used, ([OSet Syncing] ++ obs ++ [OSet Idle]). rewrite !Hobs by done.
      rewrite (count_succeeded _ Hns). simpl. rewrite Hs1. simpl. rewrite <-!app_assoc. split_and!; try done.
      by rewrite app_comm_cons, last_snoc.
    + apply IH in Hi. revert Hi. apply (follow_counted_step _ _ _ _ used ([OSet Syncing] ++ obs ++ [OSet Done]));
        rewrite ?Hobs; try done.
      * simpl. rewrite Hs1. simpl. by rewrite <-!app_assoc.
      * by rewrite (count_succeeded _ Hns).
  - injection Hi as <- <-. exists used, ([OSet Syncing] ++ obs ++ []). destruct Ho as (Hns & _ & Hst).
    rewrite !Hobs, (count_succeeded _ Hns), app_nil_r by done. done.
Qed.

(** Bootstrap attempts show only the disconnected state. *)
Lemma tor_bootstrap_counts bs : forall n s s' up, tor_bootstrap bs n s = (s', up) ->
  s'.(to_come) = s.(to_come) /\ (up = true -> true ∈ bs) /\ exists obs, s'.(shown) = s.(shown) ++ obs /\
    (forall t, count_obs (pushes t) obs = 0) /\ count_obs sets_error obs = 0.
Proof.
  induction bs as [|b bs IH]; intros n s s' up; cbn [tor_bootstrap].
  { intros [= <- <-]. split; [done|]. split; [done|]. exists []. by rewrite app_nil_r. }
  destruct b.
  { intros [= <- <-]. split; [done|]. split; [left|]. exists []. by rewrite app_nil_r. }
  intros H. apply IH in H as (H1 & H2 & obs & H3 & H4 & H5). split; [done|]. split; [intros; right; auto|].
  exists ([OSet Idle; OWait (sync_retry_backoff (n + 1))] ++ obs). simpl in H3. rewrite H3, <-!app_assoc.
  split; [done|]. split; [intros t|]; rewrite count_obs_app, ?H4, ?H5; done.
Qed.

(** The bootstrap phase, with or without Tor: no pass runs and nothing is pushed. *)
Lemma boot_counts boots s0 s1 up :
  match boots with None => (s0, true) | Some bs => tor_bootstrap bs 0 s0 end = (s1, up) ->
  s1.(to_come) = s0.(to_come) /\ (forall bs, boots = Some bs -> true ∉ bs -> up = false) /\
  exists obs, s1.(shown) = s0.(shown) ++ obs /\
    (forall t, count_obs (pushes t) obs = 0) /\ count_obs sets_error obs = 0.
Proof.
  destruct boots as [bs|]; intros Eb.
  - apply tor_bootstrap_counts in Eb as (H1 & H2 & obs & H3 & H4 & H5). split; [done|].
    split; [intros bs' [= <-] Hn; destruct up; [by destruct Hn; auto|done]|]. by exists obs.
  - injection Eb as <- <-. split; [done|]. split; [done|]. exists []. by rewrite app_nil_r.
Qed.

(** A success counts as one, and not as a permanent failure. *)
Lemma count_runs_success init x : succeeded x = true ->
  count_runs permanent (init ++ [x]) = count_runs permanent init /\ count_runs succeeded [x] = 1.
Proof.
  intros Hx. split; [|unfold count_runs; by rewrite filter_cons_True, filter_nil by done].
  rewrite count_runs_app. unfold count_runs at 2, permanent. rewrite filter_cons, filter_nil.
  unfold succeeded in Hx. destruct (pr_result x); [simpl; lia|done].
Qed.

(** C20: What a session shows its host is truthful: it announces its start exactly once; it pushes one
    done event per successful pass; it surfaces an error state, each time with its error event,
    exactly for the permanent failures before the first success, never for a transient one and
    never while following; and over Tor no pass runs until a bootstrap has succeeded.  It
    returns exactly for the host's wallet-change stop: idle, and the last pass it ran was the
    first that stop ended; as long as no pass was stopped so, it goes on. *)
Theorem session_events_truthful boots fuel turns p passes s e :
  run_session boots fuel turns p passes = (s, e) ->
  exists used, passes = used ++ s.(to_come) /\
    count_obs (pushes 1) s.(shown) = 1 /\
    count_obs (pushes 3) s.(shown) = count_runs succeeded used /\
    count_obs (pushes 4) s.(shown) = count_runs permanent (before_success used) /\
    count_obs sets_error s.(shown) = count_runs permanent (before_success used) /\
    (forall bs, boots = Some bs -> true ∉ bs -> used = []) /\
    match e with
    | Started _ => False
    | Quiet => ended_by_host used /\ last s.(shown) = Some (OSet Idle)
    | Running => unstopped used
    end.
Proof.
  unfold run_session. set (s0 := show _ _).
  destruct (match boots with None => (s0, true) | Some bs => tor_bootstrap bs 0 s0 end) as [s1 up] eqn:Eb.
  apply boot_counts in Eb as (T1 & T2 & obs0 & T3 & T4 & T5).
  change (s1.(shown) = [OPush (mkEvent 1 0)] ++ obs0) in T3. simpl in T1.
  assert (forall f, count_obs f s1.(shown) = count_obs f [OPush (mkEvent 1 0)] + count_obs f obs0) as Hc
    by (intros f; by rewrite T3, count_obs_app).
  destruct up.
  2:{ intros [= <- <-]. exists []. rewrite !Hc, !T4, T5. split_and!; try done. }
  assert (forall bs, boots = Some bs -> true ∉ bs -> forall used : list PassRun, used = []) as Hno
    by (intros bs Hbs Hn; by specialize (T2 bs Hbs Hn)).
  destruct (initial_loop fuel 0 0 s1) as [s2 e2] eqn:Ei.
  apply initial_loop_counts in Ei as (used & obs & U1 & U2 & U3 & U4 & U5 & U6 & U7). rewrite T1 in U1.
  destruct e2 as [o| |].
  - intros Hf. apply follow_loop_counts in Hf as (used2 & obs2 & V1 & V2 & V3 & V4 & V5 & V6 & V7). simpl in V1, V2.
    destruct U7 as (Ust & init & x & -> & Hi & Hx). exists ((init ++ [x]) ++ used2).
    destruct (count_runs_success init x Hx) as [Hp Hx1]. rewrite Hp in U5, U6.
    assert (match e with
            | Started _ => False
            | Quiet => ended_by_host ((init ++ [x]) ++ used2) /\ last s.(shown) = Some (OSet Idle)
            | Running => unstopped ((init ++ [x]) ++ used2)
            end) as HL.
    { destruct e; [done| |by apply Forall_app]. destruct V7 as [V7 V8].
      split; [by apply ended_by_host_app|by rewrite V2, last_app, V8]. }
    rewrite U1, V1, V2, U2, !count_obs_app, !Hc, !T4, T5, U3, U4, U5, U6, V3, V4, V5, V6, !count_runs_app.
    rewrite Hx1, (count_runs_none succeeded init Hi), <-!app_assoc. cbn [app].
    rewrite (before_success_app init x used2 Hi Hx).
    split_and!; try done; try (intros bs Hbs Hn; by eapply Hno); try (unfold count_obs; simpl; lia).
    by rewrite V2, U2, <-!app_assoc in HL.
  - intros [= <- <-]. exists used. destruct U7 as (Ust & U7 & U8).
    rewrite U2, !count_obs_app, !Hc, !T4, T5, U3, U4, U5, U6, (count_runs_none succeeded used U7).
    rewrite (before_success_none used U7). split_and!; try done; try (intros bs Hbs Hn; by eapply Hno); try (unfold count_obs; simpl; lia).
    by rewrite last_app, U8.
  - intros [= <- <-]. exists used. destruct U7 as [Ust U7].
    rewrite U2, !count_obs_app, !Hc, !T4, T5, U3, U4, U5, U6, (count_runs_none succeeded used U7).
    rewrite (before_success_none used U7). split_and!; try done; try (intros bs Hbs Hn; by eapply Hno); try (unfold count_obs; simpl; lia).
Qed.

Definition sample_turns : list FollowTurn :=
  [mkTurn 0 (Ok tt) 0 0.5 (Ok 2600); mkTurn 60 (Ok tt) 0 0.5 (Ok 2700)].
Definition sample_passes : list PassRun :=
  [failed_pass (Wallet "locked"); ok_pass; failed_pass (Wallet "gone"); failed_pass StoppedForWalletChange].

Lemma session_events_truthful_witness :
  let '(s, e) := run_session (Some [false; true]) 5 sample_turns progress_default sample_passes in
  e = Quiet /\ exists used, sample_passes = used ++ s.(to_come) /\
    count_obs (pushes 4) s.(shown) = count_runs permanent (before_success used) /\
    (e = Quiet -> ended_by_host used).
Proof.
  destruct (run_session (Some [false; true]) 5 sample_turns progress_default sample_passes) as [s e] eqn:E.
  split; [vm_compute in E; injection E as _ <-; reflexivity|].
  destruct (session_events_truthful _ _ _ _ _ _ _ E) as (used & H1 & _ & _ & H4 & _ & _ & H7).
  exists used. split; [exact H1|]. split; [exact H4|]. intros ->. exact (proj1 H7).
Defined.

(** ** The mempool gate *)

(** The gate after [n] failures in a row, the last at [now]. *)
Definition gate_after (n now : Z) : MempoolGate :=
  mkGate n (if n <? MEMPOOL_FAILURE_CAP then None
            else let wait := Z.min (MEMPOOL_RETRY_FIRST * 2 ^ (n - MEMPOOL_FAILURE_CAP)) MEMPOOL_RETRY_MAX in
                 Some (now + wait, wait)).

Lemma gate_step n prev now : 0 <= n < u32_max -> (on_err now (gate_after n prev)).1 = gate_after (n + 1) now.
Proof.
  intros Hn. unfold on_err, gate_after. cbn [failures retry].
  assert (sat_add32 n 1 = n + 1) as -> by (unfold sat_add32, u32_max in *; lia).
  assert (MEMPOOL_FAILURE_CAP = 5 /\ MEMPOOL_RETRY_FIRST = 60 /\ MEMPOOL_RETRY_MAX = 600) as (H1 & H2 & H3) by done.
  rewrite H1, H2, H3. destruct (Z.ltb_spec n 5) as [Hlt|Hge].
  - destruct (Z.leb_spec 5 (n + 1)), (Z.ltb_spec (n + 1) 5); try lia; [|done].
    replace (n + 1 - 5) with 0 by lia. done.
  - destruct (Z.ltb_spec (n + 1) 5); [lia|]. simpl.
    replace (n + 1 - 5) with (Z.succ (n - 5)) by lia. rewrite Z.pow_succ_r by lia.
    assert (0 < 2 ^ (n - 5)) by (apply Z.pow_pos_nonneg; lia).
    replace (Z.min (Z.min (60 * 2 ^ (n - 5)) 600 * 2) 600) with (Z.min (60 * (2 * 2 ^ (n - 5))) 600) by lia.
    done.
Qed.

(** Mempool monitoring backs off and always comes back: it stays on through four failures in a
    row, the fifth turns it off for 60 seconds, each failed retry doubles the wait up to 600,
    it is never off longer than that, and one session that ends well turns it back on with a
    clean count. *)
Theorem mempool_gate_schedule times : Z.of_nat (length times) <= u32_max ->
  let g := foldl (fun g now => (on_err now g).1) mempool_gate_default times in
  let n := Z.of_nat (length times) in
  g = gate_after n (default 0 (last times)) /\
  (forall now, n < 5 -> should_try now g = true) /\
  (forall now, default 0 (last times) + MEMPOOL_RETRY_MAX <= now -> should_try now g = true) /\
  (on_ok g).1 = mempool_gate_default.
Proof.
  intros Hl g n. assert (g = gate_after n (default 0 (last times))) as Hg.
  { unfold g, n. clear g n. induction times as [|t times IH] using rev_ind; [done|].
    rewrite length_app in *. simpl in Hl. rewrite foldl_app. simpl. rewrite IH by lia. rewrite last_snoc. simpl.
    rewrite gate_step by lia. f_equal. lia. }
  split; [done|]. rewrite Hg. unfold should_try, gate_after. simpl.
  assert (MEMPOOL_FAILURE_CAP = 5) as -> by done. split_and!; [|intros now Hnow|done].
  - intros now Hn. by rewrite (proj2 (Z.ltb_lt n 5)).
  - destruct (n <? 5); [done|]. apply Z.leb_le. lia.
Qed.

Example mempool_gate_schedule_instance :
  let g := foldl (fun g now => (on_err now g).1) mempool_gate_default [1; 2; 3; 4; 5; 65; 185] in
  g = mkGate 7 (Some (425, 240)) /\ (on_ok g).1 = mempool_gate_default.
Proof.
  destruct (mempool_gate_schedule [1; 2; 3; 4; 5; 65; 185]) as (H1 & _ & _ & H4).
  - vm_compute. discriminate.
  - split; [|exact H4]. rewrite H1. vm_compute. reflexivity.
Qed.

End Session.
